(* ===== verification/_CoqProject ===== *)
-Q . S2P
Prelude.v
GoStrings.v
GoText.v
GoTime.v
Servicing.v
Calendar.v
UnitTypes.v
UnitNames.v
CoreState.v
CoreGraph.v
CoreCycle.v
CorePlan.v
CorePlanSpec.v
CoreExec.v
CoreExecInv.v
CoreExecSpec.v
CoreExecRun.v
CoreStop.v
JournalQueue.v
JournalNames.v
JournalStream.v
Notify.v
CalendarSearch.v
CalendarSpec.v
CalendarTerm.v
CalendarExact.v
CalendarZones.v
UnitReport.v
UnitIni.v
GoFloat.v
UnitDuration.v
GoJson.v
UnitExec.v
GoNet.v
UnitEndpoints.v
UnitLimits.v
Triggers.v
UnitParse.v
UnitFinish.v
UnitFile.v
UnitSteps.v
UnitValid.v
UnitAccepted.v
UnitLines.v
TimerSchedule.v
ContainerHeap.v
DeadlineHeap.v
TimerState.v
TimerEngine.v
TimerEngineInv.v
TimerEngineDue.v
TimerCalls.v
TimerSystem.v
TimerSafety.v
TimerRuns.v
ManagerState.v
ManagerEvents.v
ManagerLaunch.v
ManagerConfig.v
ManagerOperations.v
ManagerFrame.v
ManagerFrames.v
ManagerAdmission.v
ManagerReload.v
ManagerSystem.v
ManagerSafety.v
