(* ===== verification/Prelude.v ===== *)
(** * winunitd: a verification library

    winunitd is a service manager for Windows in the manner of systemd, written
    in Go.  Unit files describe services, targets, timers and triggers; package
    [core] orders them and runs start and stop transactions; package [timers]
    decides when a timer elapses; package [journal] takes in what services print;
    package [notify] receives their readiness messages; package [manager] decides
    what becomes of units as these events arrive; package [servicing] compares
    releases.  This library translates these parts into Rocq, definition
    by definition, and proves what makes each of them correct.

    ** How Go is modelled

    - A string is a sequence of bytes; [GoStrings] and [GoText] define what the
      code uses of packages strings, strconv, unicode and utf8.  Case mapping
      outside ASCII is an interface, [UnicodeCase].
    - A map with string keys is a [gmap].  Where the code ranges over a map the
      order is a parameter: a class [MapRange], or a list that permutes the keys.
    - An error is a value ([error] below), a fallible function returns [result].
    - Instants are nanoseconds since year 1 and zones are functions from instants
      to offsets ([GoTime]); durations are integers, with their saturation or
      wrap-around where the code depends on it.
    - Counters that only grow (generations, tokens, activation numbers, 64 bits
      wide in the code) are unbounded integers.
    - A pointer whose identity the code compares is an address into a store.
    - Goroutines and locks become step relations: a step is one critical section,
      or one stretch of a goroutine between two of them, and every interleaving,
      every result of an adapter, every clock reading is allowed.

    ** The parts

    Package core (src/internal/core).
    - [CoreState]: state.go, restart.go and startlimit.go.  The lifecycle table is
      exactly the one of the design, restarts follow the policy, and of the starts
      that are counted no more than the burst are admitted within the interval (an
      explicit start resets the count, see [acceptLaunch]).
    - [CoreGraph], [CoreCycle]: names.go and graph.go.  [Build] gives the ordering
      edges of After= and Before=; [findCycle] always returns, and reports a cycle
      exactly if there is one.
    - [CorePlan], [CorePlanSpec]: transaction.go.  A plan's jobs are the units
      reachable from its roots by requirement, its waits are the graph's ordering
      restricted to them, every error is backed by evidence, and the result does
      not depend on the order of ranging over maps.
    - [CoreExec], [CoreExecInv], [CoreExecSpec], [CoreExecRun]: the start half of
      execute.go, [ExecuteWithLimit] as a step relation.  A unit is started after
      everything it waits for and only if what it requires did not fail, at most
      once, within the worker limit; every run finishes and reports every unit.
    - [CoreStop]: the stop half of execute.go, with the same questions.

    Package timers (src/internal/timers).
    - [Calendar], [CalendarSearch]: calendar.go, the parser of OnCalendar= and the
      search for the next and the previous occurrence.  [CalendarSpec]: the parser
      yields well-formed expressions and an instant found matches, in every zone.
      [CalendarTerm]: the search ends in every zone whose offsets stay within a
      day.  [CalendarExact]: in a zone with a constant offset the instant found
      is the nearest one.  [CalendarZones]: parsed expressions, and the two zones
      where the search misses a day or does not end.
    - [TimerSchedule]: schedule.go and the readings of clock.go.  The deadline is
      the earliest trigger, and consuming it moves the timer on.
    - [TimerState]: state.go.  Records read back as saved, malformed ones are
      refused.
    - [ContainerHeap], [DeadlineHeap]: container/heap, proved against an interface
      with laws, and the engine's queue as an instance of it.
    - [TimerEngine]: engine.go, calendar_work.go and storage_work.go, one function
      per critical section.  [TimerSystem]: the engine with its callbacks, planner,
      loader and disk as a transition system; the manager's callback,
      [onTimerElapsed] of src/internal/manager/timer.go, appears as the choices it
      makes towards the engine.  [TimerEngineInv], [TimerEngineDue], [TimerCalls]
      and [TimerSafety] hold the invariants, [TimerRuns] the conclusions: no armed
      timer is forgotten, callbacks and workers are bounded, an activation is
      delivered only when its intent is on disk, a round leaves nothing due, and
      the loop never sleeps past a timer.

    Package journal (src/internal/journal).
    - [JournalQueue]: fair_queue.go, retention.go, queue.go.  The capture queue
      keeps its limits, accounts for every record, and serves groups in turn.
    - [JournalNames]: name.go.  File names decode to the unit's name.
    - [JournalStream]: buffer.go, fragments.go, id.go.  A buffer that survives
      partial writes, lossless splitting into fragments, invocation ids.

    Package unit (src/internal/unit).
    - [UnitTypes], [UnitNames]: types.go and path.go, whose [NormalizeName]
      implements the interface [Naming] that package core is verified against.
    - [UnitReport]: issues and reports.  A method of the parser returns its value
      with the issues it appends.
    - [UnitIni]: ini.go.  A printed file is read back section by section, and
      everything carries the number of its line.
    - [UnitDuration]: duration.go, in the float64 arithmetic of [GoFloat]; a span
      of whole numbers is read exactly.  [UnitExec]: exec.go and env.go, with the
      JSON of [GoJson]; quoted arguments and assignments read back.  [UnitLimits]:
      resource.go, startlimit.go and the native values of types.go.
    - [UnitEndpoints]: the endpoints of watchdog.go, with the addresses of [GoNet].
      A probe connects to a loopback address only.
    - [Triggers]: parse.go of packages registry, eventlog and pathwatch.
    - [UnitParse], [UnitFinish], [UnitFile]: parse.go, format.go, readiness.go,
      restart_backoff.go, user.go, watchdog_policy.go, verify.go and
      capabilities.go: the first pass over the entries, the second pass over a
      service, and the other kinds with whole files.
    - [UnitSteps], [UnitValid], [UnitAccepted]: a file read without errors
      describes a valid unit, and has no section or directive that is not known.  [UnitLines]: an issue
      names a line of the file.

    Package manager (src/internal/manager).  The manager keeps a record per unit
    behind one lock, and workers (goroutines) do everything slow: they create,
    await and kill processes, probe services, read configuration, and come back
    with events that may be out of date.  A critical section is one function from
    the manager to the manager and its answer.
    - [ManagerState]: the records ([unitRuntime]) in a store, since workers compare
      and keep their addresses; the manager itself; identities (record and
      generation) by which an event is recognized as current; start limits, bound
      stops, stop graphs.  Contexts, captures and pipes are handles, and cancelled
      contexts are collected.
    - [ManagerEvents]: lifecycle_events.go, lifecycle_health.go, lifecycle_watch.go.
      [ManagerLaunch]: lifecycle_launch.go, the way to a new process.
      [ManagerConfig]: lifecycle_config.go, lifecycle_timer.go, lifecycle_native.go,
      enabled targets, sealing and closing.  [ManagerOperations]: the admission and
      the completion of starts, restarts, stops and bound stops (manager.go,
      shutdown.go, operation_lifetime.go), stop helpers and budgets.
    - [ManagerFrame], [ManagerFrames]: what a critical section may change of any
      record, as a relation that composes, and a lemma per critical section.
      [ManagerReload]: the same for a reload, which builds a new table of units.
    - [ManagerSystem]: the manager with its workers as a transition system.  Events
      arrive in any order, repeatedly or never; a worker gives up only references it
      took, a unit has one launch at a time (its gate, unitop.go), and a cleanup is
      confirmed only for a process that has ended.
    - [ManagerAdmission], [ManagerSafety]: the conditions of a launch; no process is
      lost or shared (main processes; the helpers of ExecStop= are not counted); references are counted exactly and a record in use survives a
      reload; states stay within the lifecycle of [CoreState]; a stop wins over what
      is under way; shutdown is final; restart delays are capped.
    The completeness of a capture, the tokens of the timer engine and what it
    answers to arming are parameters of these files; nothing is assumed of them.  The
    engine is there: managers without one, as in tests, are not modelled.

    Package notify (src/internal/notify): [Notify], protocol.go and env.go.
    Package servicing (src/internal/servicing): [Servicing], release.go and the
    evaluation of floor.go.

    ** Fuel and bounds

    Loops of the code without an evident measure take fuel.  Searches over graphs
    take the number of units, which is enough since each round marks one; the
    theorems show that the result is never [OutOfFuel].  The loops of the calendar
    search run for at most [2 ^ 32] rounds ([loop]); [CalendarTerm] shows that they
    end before.  [spans] of a time span takes a round per byte, and [spans_range]
    shows that they suffice.  Heap operations take the length of the heap.  [fireDueLocked]
    takes the number of free callback slots and the length of the queue, and
    [TimerEngineDue] shows that nothing is due when it stops.  Bounds of the code
    (32 callbacks, 1024 armed timers, 16 KiB of state, the queue's byte and record
    limits) are the code's constants.

    ** Not modelled

    - In package manager: the workers' own input and output, managers of logged-on
      users, status and control, the published history of operations, log records,
      the starting of watches.  That progress is made (a stop is retried until it
      succeeds) depends on workers that are scheduled, and is not stated.
    - Package runtime: Windows processes, jobs, services, tasks and logons.
    - In package unit: the connections of the probes, and url.Parse, which is a
      parameter ([NetURL]); the theorems hold for every URL it may return.
    - Files, pipes, registry and event log: journal segments on disk, atomic
      replacement of state files, the watches of packages registry, eventlog and
      pathwatch, packages protocol, winevt, winres, and the commands and tools.
    - Waiting for goroutines at shutdown, and the timers that Go's runtime fires:
      the engine's loop may take its next round at any moment.
    - JSON and RFC 3339 texts of timer records: encoder and decoder are parameters, with
      the law that decoding inverts encoding for valid UTF-8, years 1 to 9999 and
      zone offsets of whole minutes.
    - The closing of journal files, which counts what it cannot write as dropped. *)

From stdpp Require Export base list gmap strings sorting relations pretty.
From Stdlib Require Export ZArith Lia.

(** ** Errors and results

    Go functions return a value and an [error]; the library uses the usual
    sum.  Errors keep the structure the code gives them: sentinel values,
    typed errors, wrapped errors, and a format string with its arguments
    where the code calls [fmt.Errorf]; the formatted text is not built. *)

Inductive error :=
| ErrText (what : string)
| ErrFmt (format : string) (args : list string)
| ErrSkipped
| ErrWrap (what : string) (inner : error)
| MissingUnitError (unit requiredBy : string)
| CycleError (path : list string)
| DependencyError (unit required : string) (inner : error).

Inductive result (A : Type) :=
| Ok (a : A)
| Fail (e : error).
Arguments Ok {A} a.
Arguments Fail {A} e.

Declare Scope go_scope.
Delimit Scope go_scope with go.

Notation "x <-? c ;; k" :=
  (match c with Ok x => k | Fail e => Fail e end)
  (at level 60, c at next level, right associativity) : go_scope.

#[global] Instance error_eq_dec : EqDecision error.
Proof. solve_decision. Defined.

(** ** Assignment to a field of a struct

    [r <| f := v |>] is [r] after [r.f = v].  A record type says how its values
    are rebuilt from their fields; the setter of a field is derived from it. *)

Class Settable (R : Type) := eta : R → R.
Class Setter {R T} (get : R → T) := put : T → R → R.

Ltac derive_setter :=
  lazymatch goal with
  | |- @Setter ?R ?T ?get =>
    let i := constr:(_ : Settable R) in
    let e := eval red in i in
    let g := eval pattern get in e in
    lazymatch g with ?f _ => exact (λ (v : T) (r : R), f (λ _, v) r) end
  end.
#[export] Hint Extern 1 (Setter _) => derive_setter : typeclass_instances.

Notation "r <| get := v |>" := (put (get := get) v r)
  (at level 1, get constr at level 1, v constr at level 99, left associativity,
   format "r <| get  :=  v |>").

(** [errors.Is(err, ErrSkipped)]: the chain of wrapped errors is searched. *)
Fixpoint is_skipped (e : error) : bool :=
  match e with
  | ErrSkipped => true
  | ErrWrap _ e' => is_skipped e'
  | DependencyError _ _ e' => is_skipped e'
  | _ => false
  end.

(** ** Strings in byte order

    [sort.Strings] orders by bytes; stdpp's [String.le] is that order. *)

Definition sort_strings (l : list string) : list string :=
  merge_sort String.le l.

Lemma sort_strings_perm l : sort_strings l ≡ₚ l.
Proof. apply merge_sort_Permutation. Qed.

Lemma elem_of_sort_strings x l : x ∈ sort_strings l ↔ x ∈ l.
Proof. by rewrite sort_strings_perm. Qed.

Lemma length_sort_strings l : length (sort_strings l) = length l.
Proof. by rewrite sort_strings_perm. Qed.

Lemma sort_strings_sorted l : StronglySorted String.le (sort_strings l).
Proof. apply StronglySorted_merge_sort; apply _. Qed.

(** The sorted list depends only on the multiset of its input. *)
Lemma sort_strings_unique l1 l2 : l1 ≡ₚ l2 → sort_strings l1 = sort_strings l2.
Proof.
  intros Hp. apply (StronglySorted_unique String.le); auto using sort_strings_sorted.
  by rewrite !sort_strings_perm.
Qed.

Lemma NoDup_sort_strings l : NoDup (sort_strings l) ↔ NoDup l.
Proof. by rewrite sort_strings_perm. Qed.

#[global] Instance sort_strings_proper : Proper ((≡ₚ) ==> (=)) sort_strings.
Proof. intros ???. by apply sort_strings_unique. Qed.

(** ** Go maps

    [range] over a Go map visits every entry once in an order the language
    leaves open.  [map_range site m] is that order at one loop; every theorem
    holds for each choice of it.  Different loops have different [site]s, so
    two loops over one map need not agree. *)

Class MapRange := {
  map_range : ∀ {A : Type}, nat → gmap string A → list (string * A);
  map_range_perm : ∀ {A : Type} (site : nat) (m : gmap string A),
    map_range site m ≡ₚ map_to_list m;
}.

(** The order of [map_to_list], for evaluation. *)
#[global] Instance map_range_default : MapRange := {|
  map_range _ _ m := map_to_list m;
  map_range_perm _ _ m := reflexivity _;
|}.

Definition keys {A} (m : gmap string A) : list string := (map_to_list m).*1.

Lemma elem_of_keys {A} (m : gmap string A) k : k ∈ keys m ↔ is_Some (m !! k).
Proof.
  unfold keys. rewrite list_elem_of_fmap. split.
  - intros ([k' x] & -> & H%elem_of_map_to_list). simpl. eauto.
  - intros [x Hx]. exists (k, x). by rewrite elem_of_map_to_list.
Qed.

Lemma NoDup_keys {A} (m : gmap string A) : NoDup (keys m).
Proof. apply NoDup_fst_map_to_list. Qed.

Lemma length_keys {A} (m : gmap string A) : length (keys m) = size m.
Proof. unfold keys. by rewrite length_fmap, length_map_to_list. Qed.

Section map_range_lemmas.
Context `{!MapRange}.

Lemma elem_of_map_range {A} site (m : gmap string A) k x :
  (k, x) ∈ map_range site m ↔ m !! k = Some x.
Proof. by rewrite map_range_perm, elem_of_map_to_list. Qed.

Lemma map_range_keys_perm {A} site (m : gmap string A) :
  (map_range site m).*1 ≡ₚ keys m.
Proof. unfold keys. by rewrite map_range_perm. Qed.

Lemma elem_of_map_range_keys {A} site (m : gmap string A) k :
  k ∈ (map_range site m).*1 ↔ is_Some (m !! k).
Proof. by rewrite map_range_keys_perm, elem_of_keys. Qed.

Lemma NoDup_map_range_keys {A} site (m : gmap string A) :
  NoDup (map_range site m).*1.
Proof. rewrite map_range_keys_perm. apply NoDup_keys. Qed.

End map_range_lemmas.

(** A Go map read yields the zero value for an absent key. *)
Definition get_or {A} (d : A) (m : gmap string A) (k : string) : A :=
  default d (m !! k).

Lemma get_or_insert {A} (d : A) m k v k' :
  get_or d (<[k:=v]> m) k' = if decide (k = k') then v else get_or d m k'.
Proof. unfold get_or. rewrite lookup_insert. by case_decide. Qed.

Lemma get_or_empty {A} (d : A) k : get_or d ∅ k = d.
Proof. done. Qed.

(** Sums over a map. *)
Definition msum {A} (f : A → Z) (m : gmap string A) : Z := map_fold (λ _ x acc, (f x + acc)%Z) 0%Z m.

Lemma msum_empty {A} (f : A → Z) : msum f ∅ = 0%Z.
Proof. apply map_fold_empty. Qed.

Lemma msum_insert {A} (f : A → Z) m k x : m !! k = None →
  msum f (<[k := x]> m) = (f x + msum f m)%Z.
Proof. intros. unfold msum. rewrite map_fold_insert_L; [done| |done]. intros. lia. Qed.

Lemma msum_delete {A} (f : A → Z) m k x : m !! k = Some x →
  msum f m = (f x + msum f (delete k m))%Z.
Proof.
  intros Hk. rewrite <-(insert_delete_id m k x Hk) at 1.
  apply msum_insert, lookup_delete_eq.
Qed.

Lemma msum_update {A} (f : A → Z) m k x y : m !! k = Some x →
  msum f (<[k := y]> m) = (msum f m - f x + f y)%Z.
Proof.
  intros Hk. rewrite <-insert_delete_eq, msum_insert by apply lookup_delete_eq.
  rewrite (msum_delete f m k x Hk). lia.
Qed.

Lemma msum_nonneg {A} (f : A → Z) m : (∀ k x, m !! k = Some x → (0 <= f x)%Z) → (0 <= msum f m)%Z.
Proof.
  induction m as [|k x m Hk IH] using map_ind; intros Hf; [by rewrite msum_empty|].
  rewrite msum_insert by done. pose proof (Hf k x (lookup_insert_eq _ _ _)).
  assert (0 <= msum f m)%Z; [|lia]. apply IH. intros k' x' Hk'. apply (Hf k').
  rewrite lookup_insert_ne; [done|congruence].
Qed.

Create HintDb go.
#[export] Hint Resolve NoDup_keys sort_strings_sorted : go.
#[export] Hint Rewrite @elem_of_keys @elem_of_sort_strings @get_or_insert @get_or_empty : go.

(** Case analysis on the next [match] or [if] of the goal or a hypothesis. *)
Ltac step_match :=
  match goal with
  | H : context [match ?x with _ => _ end] |- _ => destruct x eqn:?; simplify_eq/=
  | |- context [match ?x with _ => _ end] => destruct x eqn:?; simplify_eq/=
  end.
Ltac step_matches := repeat (step_match; try done).

(** ** The interface between packages unit and core

    Package core keys every unit by its normalized name.  What it relies on
    is that normalizing is idempotent. *)

Class Naming := {
  unit_NormalizeName : string → string;
  unit_NormalizeName_idem : ∀ s,
    unit_NormalizeName (unit_NormalizeName s) = unit_NormalizeName s;
}.

(** ** Depth-first visits

    [visits roots seen seen'] is what a depth-first walk from [roots] does to
    its set of visited names: it adds exactly what is reachable, apart from
    what was already there. *)

Section visits.
Context (succ : string → list string).

Definition edge (a b : string) : Prop := b ∈ succ a.

Definition visits (roots : list string) (seen seen' : gset string) : Prop :=
  seen ⊆ seen' ∧ (∀ r, r ∈ roots → r ∈ seen') ∧
  (∀ x, x ∈ seen' → x ∈ seen ∨ ∃ r, r ∈ roots ∧ rtc edge r x) ∧
  (∀ x, x ∈ seen' → x ∉ seen → ∀ y, edge x y → y ∈ seen').

Lemma visits_nil seen : visits [] seen seen.
Proof. repeat split; set_solver. Qed.

Lemma visits_seen s seen : s ∈ seen → visits [s] seen seen.
Proof. repeat split; set_solver. Qed.

Lemma visits_app rs1 rs2 s1 s2 s3 :
  visits rs1 s1 s2 → visits rs2 s2 s3 → visits (rs1 ++ rs2) s1 s3.
Proof.
  intros (A1 & A2 & A3 & A4) (B1 & B2 & B3 & B4). repeat split.
  - set_solver.
  - set_solver.
  - intros x [Hx|(r & ? & ?)]%B3; [apply A3 in Hx as [?|(r & ? & ?)]; [by left|]|];
      right; exists r; (split; [set_solver|done]).
  - intros x Hx Hn y Hy. destruct (decide (x ∈ s2)); [|by eapply B4]. by apply B1, (A4 x).
Qed.

Lemma visits_cons r rs s1 s2 s3 :
  visits [r] s1 s2 → visits rs s2 s3 → visits (r :: rs) s1 s3.
Proof. apply (visits_app [r]). Qed.

Lemma visits_node s seen seen' :
  visits (succ s) ({[s]} ∪ seen) seen' → visits [s] seen seen'.
Proof.
  intros (A1 & A2 & A3 & A4). repeat split.
  - set_solver.
  - set_solver.
  - intros x [[->%elem_of_singleton|?]%elem_of_union|(r & ? & ?)]%A3; [|by left|];
      right; exists s; (split; [set_solver|]); [apply rtc_refl|by eapply rtc_l].
  - intros x Hx Hn y Hy. destruct (decide (x = s)) as [->|]; [by apply A2|].
    apply (A4 x); [done|set_solver|done].
Qed.

Lemma visits_reach roots seen x :
  visits roots ∅ seen → x ∈ seen ↔ ∃ r, r ∈ roots ∧ rtc edge r x.
Proof.
  intros (A1 & A2 & A3 & A4). split.
  - intros [?|?]%A3; [set_solver|done].
  - intros (r & Hr & Hx). apply A2 in Hr. induction Hx as [|a b c Hab _ IH]; [done|].
    apply IH. eapply A4; [done|set_solver|done].
Qed.
End visits.
