(* ===== verification/GoStrings.v ===== *)
(** * Go strings

    A Go string is a sequence of bytes, here Rocq's [string].  This file
    defines what the sources use of packages [strings], [strconv], [unicode]
    and [unicode/utf8]: UTF-8 decoding by [range], white space, case mapping,
    splitting and integer parsing.  Case mapping of a rune outside ASCII comes
    from the Unicode tables; [UnicodeCase] is the interface to them. *)

From S2P Require Import Prelude.
From Stdlib Require Import Ascii.

#[local] Open Scope Z_scope.

(** ** Bytes *)

Definition bytes : string → list ascii := String.list_ascii_of_string.
Definition str : list ascii → string := String.string_of_list_ascii.

Lemma str_bytes s : str (bytes s) = s.
Proof. apply String.string_of_list_ascii_of_string. Qed.

Lemma bytes_str l : bytes (str l) = l.
Proof. apply String.list_ascii_of_string_of_list_ascii. Qed.

#[global] Instance bytes_inj : Inj (=) (=) bytes.
Proof. intros s1 s2 H. by rewrite <-(str_bytes s1), <-(str_bytes s2), H. Qed.

Lemma bytes_app s1 s2 : bytes (s1 +:+ s2) = bytes s1 ++ bytes s2.
Proof. induction s1 as [|c s1 IH]; [done|].
  change (c :: bytes (s1 +:+ s2) = c :: bytes s1 ++ bytes s2). by rewrite IH.
Qed.

Definition b2z (c : ascii) : Z := Z.of_N (N_of_ascii c).
Definition z2b (z : Z) : ascii := ascii_of_N (Z.to_N z).

Lemma b2z_range c : 0 ≤ b2z c < 256.
Proof. unfold b2z. pose proof (N_ascii_bounded c). lia. Qed.

Lemma b2z_z2b z : 0 ≤ z < 256 → b2z (z2b z) = z.
Proof. intros. unfold b2z, z2b. rewrite N_ascii_embedding; lia. Qed.

Lemma z2b_b2z c : z2b (b2z c) = c.
Proof. unfold b2z, z2b. rewrite N2Z.id. apply ascii_N_embedding. Qed.

(** ** UTF-8 *)

Definition RuneError : Z := 0xFFFD.
Definition cont (z : Z) : bool := (0x80 <=? z) && (z <=? 0xBF).

(** Lower and upper bounds of the second byte of a sequence. *)
Definition second3 (z0 z1 : Z) : bool :=
  ((if z0 =? 0xE0 then 0xA0 else 0x80) <=? z1) &&
  (z1 <=? (if z0 =? 0xED then 0x9F else 0xBF)).
Definition second4 (z0 z1 : Z) : bool :=
  ((if z0 =? 0xF0 then 0x90 else 0x80) <=? z1) &&
  (z1 <=? (if z0 =? 0xF4 then 0x8F else 0xBF)).

(** [runes l] is what [for _, r := range s] visits, with the bytes of each
    rune.  A byte that starts no valid sequence is one [RuneError]. *)
Fixpoint runes (l : list ascii) : list (Z * list ascii) :=
  match l with
  | [] => []
  | c0 :: l1 =>
    let z0 := b2z c0 in
    if z0 <? 0x80 then (z0, [c0]) :: runes l1 else
    match l1 with
    | [] => [(RuneError, [c0])]
    | c1 :: l2 =>
      let z1 := b2z c1 in
      if (0xC2 <=? z0) && (z0 <=? 0xDF) && cont z1 then
        ((z0 - 0xC0) * 64 + (z1 - 0x80), [c0; c1]) :: runes l2
      else match l2 with
      | [] => (RuneError, [c0]) :: runes l1
      | c2 :: l3 =>
        let z2 := b2z c2 in
        if (0xE0 <=? z0) && (z0 <=? 0xEF) && second3 z0 z1 && cont z2 then
          ((z0 - 0xE0) * 4096 + (z1 - 0x80) * 64 + (z2 - 0x80), [c0; c1; c2]) :: runes l3
        else match l3 with
        | [] => (RuneError, [c0]) :: runes l1
        | c3 :: l4 =>
          let z3 := b2z c3 in
          if (0xF0 <=? z0) && (z0 <=? 0xF4) && second4 z0 z1 && cont z2 && cont z3 then
            ((z0 - 0xF0) * 262144 + (z1 - 0x80) * 4096 + (z2 - 0x80) * 64 + (z3 - 0x80),
             [c0; c1; c2; c3]) :: runes l4
          else (RuneError, [c0]) :: runes l1
        end
      end
    end
  end.

(** Unicode scalar values: code points that are not surrogates. *)
Definition scalar (r : Z) : Prop :=
  0 ≤ r ≤ 0x10FFFF ∧ ¬ (0xD800 ≤ r ≤ 0xDFFF).

(** [utf8.AppendRune]: a value that is not a scalar is written as [RuneError]. *)
Definition encode_rune (r : Z) : list ascii :=
  let r := if (r <? 0) || (0x10FFFF <? r) || ((0xD800 <=? r) && (r <=? 0xDFFF))
           then RuneError else r in
  if r <? 0x80 then [z2b r]
  else if r <? 0x800 then [z2b (0xC0 + r / 64); z2b (0x80 + r mod 64)]
  else if r <? 0x10000 then
    [z2b (0xE0 + r / 4096); z2b (0x80 + r / 64 mod 64); z2b (0x80 + r mod 64)]
  else
    [z2b (0xF0 + r / 262144); z2b (0x80 + r / 4096 mod 64);
     z2b (0x80 + r / 64 mod 64); z2b (0x80 + r mod 64)].

(** Boolean comparisons decided by the context. *)
Ltac zdecide :=
  repeat match goal with
  | |- context [?a <? ?b] =>
    first [rewrite (proj2 (Z.ltb_lt a b)) by lia | rewrite (proj2 (Z.ltb_ge a b)) by lia]
  | |- context [?a <=? ?b] =>
    first [rewrite (proj2 (Z.leb_le a b)) by lia | rewrite (proj2 (Z.leb_gt a b)) by lia]
  end; simpl.

Lemma runes_ascii z l : 0 ≤ z < 0x80 → runes (z2b z :: l) = (z, [z2b z]) :: runes l.
Proof. intros. cbn [runes]. rewrite b2z_z2b by lia. by zdecide. Qed.

Lemma runes_two z0 z1 l :
  0xC2 ≤ z0 ≤ 0xDF → 0x80 ≤ z1 ≤ 0xBF →
  runes (z2b z0 :: z2b z1 :: l) =
  ((z0 - 0xC0) * 64 + (z1 - 0x80), [z2b z0; z2b z1]) :: runes l.
Proof. intros. cbn [runes]. rewrite !b2z_z2b by lia. unfold cont. by zdecide. Qed.

Lemma runes_three z0 z1 z2 l :
  0xE0 ≤ z0 ≤ 0xEF → second3 z0 z1 = true → 0x80 ≤ z1 ≤ 0xBF → 0x80 ≤ z2 ≤ 0xBF →
  runes (z2b z0 :: z2b z1 :: z2b z2 :: l) =
  ((z0 - 0xE0) * 4096 + (z1 - 0x80) * 64 + (z2 - 0x80), [z2b z0; z2b z1; z2b z2]) :: runes l.
Proof.
  intros ? Hs ??. cbn [runes]. rewrite !b2z_z2b, Hs by lia. unfold cont. by zdecide.
Qed.

Lemma runes_four z0 z1 z2 z3 l :
  0xF0 ≤ z0 ≤ 0xF4 → second4 z0 z1 = true → 0x80 ≤ z1 ≤ 0xBF →
  0x80 ≤ z2 ≤ 0xBF → 0x80 ≤ z3 ≤ 0xBF →
  runes (z2b z0 :: z2b z1 :: z2b z2 :: z2b z3 :: l) =
  ((z0 - 0xF0) * 262144 + (z1 - 0x80) * 4096 + (z2 - 0x80) * 64 + (z3 - 0x80),
   [z2b z0; z2b z1; z2b z2; z2b z3]) :: runes l.
Proof.
  intros ? Hs ???. cbn [runes]. rewrite !b2z_z2b, Hs by lia. unfold cont. by zdecide.
Qed.

Lemma runes_encode_rune r l :
  scalar r → runes (encode_rune r ++ l) = (r, encode_rune r) :: runes l.
Proof.
  intros [Hr Hs]. unfold encode_rune.
  replace ((r <? 0) || (0x10FFFF <? r) || ((0xD800 <=? r) && (r <=? 0xDFFF)))
    with false by (destruct (Z.leb_spec 0xD800 r); zdecide; done).
  pose proof (Z.mod_pos_bound r 64). pose proof (Z.div_mod r 64).
  destruct (Z.ltb_spec r 0x80); [cbn [app]; by rewrite runes_ascii by lia|].
  destruct (Z.ltb_spec r 0x800).
  { cbn [app]. rewrite runes_two by lia. do 2 f_equal. lia. }
  pose proof (Z.mod_pos_bound (r / 64) 64). pose proof (Z.div_mod (r / 64) 64).
  assert (r / 64 / 64 = r / 4096) as E1 by (rewrite Z.div_div by lia; done).
  destruct (Z.ltb_spec r 0x10000).
  { cbn [app]. rewrite runes_three; [do 2 f_equal; lia|lia| |lia..].
    unfold second3.
    destruct (Z.eqb_spec (0xE0 + r / 4096) 0xE0), (Z.eqb_spec (0xE0 + r / 4096) 0xED);
      zdecide; done || lia. }
  pose proof (Z.mod_pos_bound (r / 4096) 64). pose proof (Z.div_mod (r / 4096) 64).
  assert (r / 4096 / 64 = r / 262144) as E2 by (rewrite Z.div_div by lia; done).
  cbn [app]. rewrite runes_four; [do 2 f_equal; lia|lia| |lia..].
  unfold second4.
  destruct (Z.eqb_spec (0xF0 + r / 262144) 0xF0), (Z.eqb_spec (0xF0 + r / 262144) 0xF4);
    zdecide; done || lia.
Qed.

Ltac byruns E := cbn [take app runes]; rewrite ?E; try done.

(** A rune below 0x80 is one byte; the bytes of any other rune are not ASCII. *)
Definition one_rune (r : Z) (b : list ascii) : Prop :=
  (0 ≤ r < 0x80 ∧ b = [z2b r]) ∨ (0x80 ≤ r ∧ Forall (λ c, 0x80 ≤ b2z c) b).

(** One step of [runes]: the first rune, its bytes [b], and the rest.  The
    step does not change when the rest is cut short. *)
Lemma runes_step c l : ∃ r b l',
  c :: l = b ++ l' ∧ b ≠ [] ∧ (scalar r ∧ one_rune r b) ∧
  runes (c :: l) = (r, b) :: runes l' ∧
  ∀ k, runes (b ++ take k l') = (r, b) :: runes (take k l').
Proof.
  pose proof (b2z_range c) as Hc.
  destruct (b2z c <? 0x80) eqn:E0.
  { exists (b2z c), [c], l. apply Z.ltb_lt in E0 as E0'.
    refine (conj _ (conj _ (conj _ (conj _ _)))); [done..| |byruns E0|intros k; byruns E0].
    split; [unfold scalar; lia|left; rewrite z2b_b2z; split; [lia|done]]. }
  assert (scalar RuneError ∧ one_rune RuneError [c]) as HE.
  { apply Z.ltb_ge in E0. split; [unfold scalar, RuneError; lia|].
    right. split; [unfold RuneError; lia|]. by apply Forall_singleton. }
  destruct l as [|c1 l].
  { exists RuneError, [c], []. refine (conj _ (conj _ (conj _ (conj _ _)))); [done..|byruns E0|intros [|k]; byruns E0]. }
  pose proof (b2z_range c1) as Hc1.
  destruct ((0xC2 <=? b2z c) && (b2z c <=? 0xDF) && cont (b2z c1)) eqn:E1.
  { eexists _, [c; c1], l.
    refine (conj _ (conj _ (conj _ (conj _ _)))); [done..| |byruns E0; byruns E1|intros k; byruns E0; byruns E1].
    unfold cont in E1. rewrite !andb_true_iff, !Z.leb_le in E1.
    split; [unfold scalar; lia|]. right. split; [lia|]. repeat constructor; lia. }
  destruct l as [|c2 l].
  { exists RuneError, [c], [c1].
    refine (conj _ (conj _ (conj _ (conj _ _)))); [done..|byruns E0; byruns E1|].
    intros [|[|k]]; byruns E0; byruns E1. }
  pose proof (b2z_range c2) as Hc2.
  destruct ((0xE0 <=? b2z c) && (b2z c <=? 0xEF) && second3 (b2z c) (b2z c1)
            && cont (b2z c2)) eqn:E2.
  { eexists _, [c; c1; c2], l.
    refine (conj _ (conj _ (conj _ (conj _ _)))); [done..| |byruns E0; byruns E1; byruns E2|
                 intros k; byruns E0; byruns E1; byruns E2].
    unfold cont, second3 in E2. rewrite !andb_true_iff, !Z.leb_le in E2.
    destruct (Z.eqb_spec (b2z c) 0xE0), (Z.eqb_spec (b2z c) 0xED);
      (split; [unfold scalar; lia|]; right; split; [lia|]; repeat constructor; lia). }
  destruct l as [|c3 l].
  { exists RuneError, [c], [c1; c2].
    refine (conj _ (conj _ (conj _ (conj _ _)))); [done..|byruns E0; byruns E1; byruns E2|].
    intros [|[|[|k]]]; byruns E0; byruns E1; byruns E2. }
  pose proof (b2z_range c3) as Hc3.
  destruct ((0xF0 <=? b2z c) && (b2z c <=? 0xF4) && second4 (b2z c) (b2z c1)
            && cont (b2z c2) && cont (b2z c3)) eqn:E3.
  { eexists _, [c; c1; c2; c3], l.
    refine (conj _ (conj _ (conj _ (conj _ _)))); [done..| |byruns E0; byruns E1; byruns E2; byruns E3|
                 intros k; byruns E0; byruns E1; byruns E2; byruns E3].
    unfold cont, second4 in E3. rewrite !andb_true_iff, !Z.leb_le in E3.
    destruct (Z.eqb_spec (b2z c) 0xF0), (Z.eqb_spec (b2z c) 0xF4);
      (split; [unfold scalar; lia|]; right; split; [lia|]; repeat constructor; lia). }
  exists RuneError, [c], (c1 :: c2 :: c3 :: l).
  refine (conj _ (conj _ (conj _ (conj _ _)))); [done..|byruns E0; byruns E1; byruns E2; byruns E3|].
  intros [|[|[|[|k]]]]; byruns E0; byruns E1; byruns E2; byruns E3.
Qed.

(** Induction along the runes of a string. *)
Lemma runes_ind (P : list ascii → Prop) :
  P [] →
  (∀ r b l', b ≠ [] → scalar r ∧ one_rune r b →
     runes (b ++ l') = (r, b) :: runes l' →
     (∀ k, runes (b ++ take k l') = (r, b) :: runes (take k l')) →
     P l' → P (b ++ l')) →
  ∀ l, P l.
Proof.
  intros Hnil Hstep l. remember (length l) as n eqn:Hn.
  revert l Hn. induction (lt_wf n) as [n _ IH]. intros l ->.
  destruct l as [|c l]; [done|].
  destruct (runes_step c l) as (r & b & l' & Heq & Hb & Hs & Hr & Hk).
  rewrite Heq in *. apply (Hstep r); auto.
  apply (IH (length l')); [|done]. rewrite length_app. destruct b; [done|]. simpl. lia.
Qed.

Lemma runes_concat l : concat (runes l).*2 = l.
Proof.
  induction l as [|r b l' Hb Hs Hr Hk IH] using runes_ind; [done|].
  rewrite Hr, fmap_cons. cbn [concat snd]. by rewrite IH.
Qed.

Lemma runes_scalar l : Forall (λ p, scalar p.1) (runes l).
Proof.
  induction l as [|r b l' Hb Hs Hr Hk IH] using runes_ind; [constructor|].
  rewrite Hr. constructor; [apply Hs|done].
Qed.

(** [range] visits every ASCII byte of a string as a rune of its own. *)
Lemma runes_ascii_byte l z : 0 ≤ z < 0x80 → z ∈ (runes l).*1 ↔ z2b z ∈ l.
Proof.
  intros Hz. induction l as [|r b l' Hb [_ Hs] Hr Hk IH] using runes_ind; [set_solver|].
  rewrite Hr, fmap_cons, elem_of_cons, elem_of_app, IH. simpl.
  destruct Hs as [[Hr' ->]|[Hr' Hall]].
  - rewrite list_elem_of_singleton. split; (intros [H|H]; [left|by right]); [by subst|].
    apply (f_equal b2z) in H. rewrite !b2z_z2b in H; lia.
  - split; (intros [H|H]; [|by right]); [lia|].
    rewrite Forall_forall in Hall. apply Hall in H. rewrite b2z_z2b in H; lia.
Qed.

(** A string cut at a rune boundary decodes to the runes before the cut. *)
Lemma runes_cut l ps qs : runes l = ps ++ qs → runes (concat ps.*2) = ps.
Proof.
  revert ps qs. induction l as [|r b l' Hb Hs Hr Hk IH] using runes_ind; intros ps qs Heq.
  { by destruct ps. }
  rewrite Hr in Heq. destruct ps as [|p ps]; [done|].
  injection Heq as <- Heq. specialize (IH _ _ Heq).
  pose proof (runes_concat l') as Hc. rewrite Heq, fmap_app, concat_app in Hc.
  specialize (Hk (length (concat ps.*2))).
  rewrite <-Hc, take_app_length in Hk.
  rewrite fmap_cons. cbn [concat snd]. by rewrite Hk, IH.
Qed.

(** Strings written rune by rune decode to those runes. *)
Lemma runes_encode rs :
  Forall scalar rs → runes (concat (encode_rune <$> rs)) = (λ r, (r, encode_rune r)) <$> rs.
Proof.
  induction 1 as [|r rs Hr _ IH]; [done|].
  rewrite !fmap_cons. cbn [concat snd]. by rewrite runes_encode_rune, IH.
Qed.

(** ** White space *)

(** [unicode.IsSpace]. *)
Definition IsSpace (r : Z) : bool :=
  ((9 <=? r) && (r <=? 13)) || (r =? 32) || (r =? 0x85) || (r =? 0xA0) ||
  (r =? 0x1680) || ((0x2000 <=? r) && (r <=? 0x200A)) ||
  (r =? 0x2028) || (r =? 0x2029) || (r =? 0x202F) || (r =? 0x205F) || (r =? 0x3000).

Fixpoint drop_spaces (ps : list (Z * list ascii)) : list (Z * list ascii) :=
  match ps with
  | (r, b) :: ps' => if IsSpace r then drop_spaces ps' else ps
  | [] => []
  end.

Definition trim_spaces (ps : list (Z * list ascii)) : list (Z * list ascii) :=
  reverse (drop_spaces (reverse (drop_spaces ps))).

(** [strings.TrimSpace]. *)
Definition TrimSpace (s : string) : string :=
  str (concat (trim_spaces (runes (bytes s))).*2).

(** [strings.Fields]: the runs of runes that are not white space. *)
Fixpoint fields_go (ps : list (Z * list ascii)) (cur : list ascii) : list (list ascii) :=
  match ps with
  | [] => match cur with [] => [] | _ => [cur] end
  | (r, b) :: ps' =>
    if IsSpace r then
      match cur with [] => fields_go ps' [] | _ => cur :: fields_go ps' [] end
    else fields_go ps' (cur ++ b)
  end.
Definition Fields (s : string) : list string := str <$> fields_go (runes (bytes s)) [].

(** Neither end of the list is white space. *)
Definition trimmed (rs : list Z) : Prop :=
  (∀ r rs', rs = r :: rs' → IsSpace r = false) ∧
  (∀ r rs', rs = rs' ++ [r] → IsSpace r = false).

Lemma drop_spaces_suffix ps : ∃ qs, ps = qs ++ drop_spaces ps.
Proof.
  induction ps as [|[r b] ps [qs IH]]; [by exists []|]. simpl. case_match.
  - exists ((r, b) :: qs). simpl. by rewrite <-IH.
  - by exists [].
Qed.

Lemma drop_spaces_head ps r b ps' : drop_spaces ps = (r, b) :: ps' → IsSpace r = false.
Proof.
  induction ps as [|[r' b'] ps IH]; [done|]. simpl. case_match; [done|]. naive_solver.
Qed.

Lemma drop_spaces_id ps : (∀ r rs, ps.*1 = r :: rs → IsSpace r = false) → drop_spaces ps = ps.
Proof.
  destruct ps as [|[r b] ps]; [done|]. intros H. simpl.
  by rewrite (H r ps.*1 eq_refl).
Qed.

Lemma trim_spaces_infix ps : ∃ qs1 qs2, ps = qs1 ++ trim_spaces ps ++ qs2.
Proof.
  unfold trim_spaces. destruct (drop_spaces_suffix ps) as [q1 H1].
  destruct (drop_spaces_suffix (reverse (drop_spaces ps))) as [q2 H2].
  exists q1, (reverse q2). rewrite H1 at 1. f_equal.
  apply (f_equal reverse) in H2. rewrite reverse_involutive, reverse_app in H2. done.
Qed.

Lemma trim_spaces_trimmed ps : trimmed (trim_spaces ps).*1.
Proof.
  unfold trim_spaces. split.
  - intros r rs Heq.
    destruct (drop_spaces ps) as [|[r1 b1] qs] eqn:E; [done|].
    assert (IsSpace r1 = false) as Hr1 by eauto using drop_spaces_head.
    destruct (drop_spaces_suffix (reverse ((r1, b1) :: qs))) as [q2 H2].
    apply (f_equal reverse) in H2. rewrite reverse_involutive, reverse_app in H2.
    destruct (reverse (drop_spaces (reverse ((r1, b1) :: qs)))) as [|[r' b'] rest];
      simplify_eq/=. done.
  - intros r rs Heq.
    destruct (drop_spaces (reverse (drop_spaces ps))) as [|[r1 b1] qs] eqn:E; [by destruct rs|].
    rewrite reverse_cons, fmap_app in Heq. apply app_inj_tail in Heq as [_ <-].
    eauto using drop_spaces_head.
Qed.

Lemma trim_spaces_id ps : trimmed ps.*1 → trim_spaces ps = ps.
Proof.
  intros [Hh Hl]. unfold trim_spaces. rewrite (drop_spaces_id ps) by done.
  rewrite drop_spaces_id, reverse_involutive; [done|].
  intros r rs Heq. apply (Hl r (reverse rs)).
  rewrite fmap_reverse in Heq. apply (f_equal reverse) in Heq.
  by rewrite reverse_involutive, reverse_cons in Heq.
Qed.

(** The runes of a trimmed string. *)
Lemma runes_TrimSpace s : runes (bytes (TrimSpace s)) = trim_spaces (runes (bytes s)).
Proof.
  unfold TrimSpace. rewrite bytes_str.
  remember (runes (bytes s)) as ps eqn:Hps.
  unfold trim_spaces. destruct (drop_spaces_suffix ps) as [q1 H1].
  assert (runes (concat (drop_spaces ps).*2) = drop_spaces ps) as Hd.
  { rewrite H1 in Hps. clear H1. revert Hps. generalize (drop_spaces ps) as ds.
    generalize (bytes s) as l. intros l ds. revert l.
    induction q1 as [|q q1 IH]; intros l Hps.
    - simpl in Hps. subst. by rewrite runes_concat.
    - destruct l as [|c l]; [done|].
      destruct (runes_step c l) as (r & b & l' & _ & _ & _ & Hr & _).
      rewrite Hr in Hps. injection Hps as _ Hps. eauto. }
  destruct (drop_spaces_suffix (reverse (drop_spaces ps))) as [q2 H2].
  apply (f_equal reverse) in H2. rewrite reverse_involutive, reverse_app in H2.
  eapply runes_cut. by rewrite Hd.
Qed.

Lemma TrimSpace_id s : trimmed (runes (bytes s)).*1 → TrimSpace s = s.
Proof.
  intros H. unfold TrimSpace. by rewrite trim_spaces_id, runes_concat, str_bytes.
Qed.

(** ** Case mapping *)

(** The Unicode tables behind [unicode.ToLower] and [unicode.ToUpper] for runes
    outside ASCII.  The laws are facts of those tables: mapping to lower case
    yields a scalar value, is idempotent, and keeps letters apart from white
    space. *)
Definition ascii_lower (r : Z) : Z := if (0x41 <=? r) && (r <=? 0x5A) then r + 32 else r.

Class UnicodeCase := {
  lower_table : Z → Z;
  lower_scalar : ∀ r, 0x80 ≤ r → scalar r → scalar (lower_table r);
  lower_idem : ∀ r, 0x80 ≤ r → scalar r →
    (if lower_table r <? 0x80 then ascii_lower (lower_table r)
     else lower_table (lower_table r)) = lower_table r;
  lower_not_space : ∀ r, 0x80 ≤ r → scalar r → IsSpace r = false →
    IsSpace (lower_table r) = false;
}.

(** Tables that map nothing outside ASCII, for evaluation. *)
#[global, refine] Instance ascii_case : UnicodeCase := {| lower_table r := r |}.
Proof. all: try done. intros r Hr _. by rewrite (proj2 (Z.ltb_ge r 0x80)). Defined.

Section lower.
Context {UC : UnicodeCase}.

(** [unicode.ToLower]. *)
Definition rune_ToLower (r : Z) : Z := if r <? 0x80 then ascii_lower r else lower_table r.

(** [strings.ToLower]: every rune is mapped and written back. *)
Definition ToLower (s : string) : string :=
  str (concat ((encode_rune ∘ rune_ToLower) <$> (runes (bytes s)).*1)).

Lemma rune_ToLower_scalar r : scalar r → scalar (rune_ToLower r).
Proof.
  intros Hr. unfold rune_ToLower. destruct (Z.ltb_spec r 0x80); [|by apply lower_scalar].
  unfold ascii_lower. destruct Hr. case_match; unfold scalar; [|lia].
  rewrite andb_true_iff, !Z.leb_le in *. lia.
Qed.

Lemma rune_ToLower_idem r : scalar r → rune_ToLower (rune_ToLower r) = rune_ToLower r.
Proof.
  intros Hr. unfold rune_ToLower at 2 3. destruct (Z.ltb_spec r 0x80).
  - unfold rune_ToLower, ascii_lower.
    destruct (Z.leb_spec 0x41 r), (Z.leb_spec r 0x5A); cbn [andb]; zdecide; try done.
    all: destruct (Z.leb_spec 0x41 r); cbn [andb]; zdecide; done || lia.
  - by apply lower_idem.
Qed.

Lemma rune_ToLower_space r : scalar r → IsSpace r = false → IsSpace (rune_ToLower r) = false.
Proof.
  intros Hr Hsp. unfold rune_ToLower. destruct (Z.ltb_spec r 0x80); [|by apply lower_not_space].
  unfold ascii_lower. case_match eqn:E; [|done]. apply andb_true_iff in E.
  rewrite !Z.leb_le in E. unfold IsSpace.
  repeat match goal with
  | |- context [?a =? ?b] => rewrite (proj2 (Z.eqb_neq a b)) by lia
  end.
  by rewrite (proj2 (Z.leb_gt (r + 32) 13)), (proj2 (Z.leb_gt 0x2000 (r + 32))),
    andb_false_r by lia.
Qed.

(** Strings that are lower-case, trimmed and valid UTF-8. *)
Definition canonical (s : string) : Prop := ∃ rs,
  bytes s = concat (encode_rune <$> rs) ∧ Forall scalar rs ∧
  Forall (λ r, rune_ToLower r = r) rs ∧ trimmed rs.

Lemma canonical_runes s : canonical s → ∃ rs,
  runes (bytes s) = (λ r, (r, encode_rune r)) <$> rs ∧
  bytes s = concat (encode_rune <$> rs) ∧
  Forall (λ r, rune_ToLower r = r) rs ∧ trimmed rs.
Proof. intros (rs & Hb & Hs & Hl & Ht). exists rs. by rewrite Hb, runes_encode. Qed.

Lemma canonical_ToLower s : canonical s → ToLower s = s.
Proof.
  intros (rs & Hr & Hb & Hl & _)%canonical_runes. unfold ToLower. rewrite Hr.
  replace ((λ r, (r, encode_rune r)) <$> rs).*1 with rs
    by (rewrite <-list_fmap_compose; by rewrite list_fmap_id).
  rewrite (Forall_fmap_ext_1 (encode_rune ∘ rune_ToLower) encode_rune).
  - rewrite <-Hb. apply str_bytes.
  - eapply Forall_impl; [done|]. intros r Hr'. simpl in *. by rewrite Hr'.
Qed.

Lemma canonical_TrimSpace s : canonical s → TrimSpace s = s.
Proof.
  intros (rs & Hr & _ & _ & Ht)%canonical_runes. apply TrimSpace_id.
  by rewrite Hr, <-list_fmap_compose, list_fmap_id.
Qed.

Lemma ToLower_TrimSpace_canonical s : canonical (ToLower (TrimSpace s)).
Proof.
  exists (rune_ToLower <$> (runes (bytes (TrimSpace s))).*1).
  unfold ToLower. rewrite bytes_str, list_fmap_compose. split; [done|].
  pose proof (runes_scalar (bytes (TrimSpace s))) as Hsc.
  assert (Forall scalar (runes (bytes (TrimSpace s))).*1) as Hsc' by (by apply Forall_fmap).
  split_and!.
  - apply Forall_fmap. eapply Forall_impl; [exact Hsc'|]. apply rune_ToLower_scalar.
  - apply Forall_fmap. eapply Forall_impl; [exact Hsc'|]. apply rune_ToLower_idem.
  - rewrite runes_TrimSpace in *. pose proof (trim_spaces_trimmed (runes (bytes s))) as [Hh Hl].
    revert Hsc' Hh Hl. generalize (trim_spaces (runes (bytes s))).*1 as rs.
    intros rs Hsc' Hh Hl. split.
    + intros r rs' Heq. destruct rs as [|r1 rs]; simplify_eq/=.
      inv Hsc'. apply rune_ToLower_space; [done|]. by eapply Hh.
    + intros r rs' Heq. destruct rs as [|r1 rs _] using rev_ind; [by destruct rs'|].
      rewrite fmap_app in Heq. apply app_inj_tail in Heq as [_ <-].
      apply Forall_app in Hsc' as [_ Hs1]. inv Hs1.
      apply rune_ToLower_space; [done|]. by eapply Hl.
Qed.

End lower.

(** ** Substrings *)

Fixpoint strip_prefix (p l : list ascii) : option (list ascii) :=
  match p, l with
  | [], _ => Some l
  | a :: p', b :: l' => if decide (a = b) then strip_prefix p' l' else None
  | _ :: _, [] => None
  end.

(** [strings.HasPrefix] and [strings.HasSuffix]. *)
Definition HasPrefix (s prefix : string) : bool :=
  bool_decide (is_Some (strip_prefix (bytes prefix) (bytes s))).
Definition HasSuffix (s suffix : string) : bool :=
  bool_decide (is_Some (strip_prefix (reverse (bytes suffix)) (reverse (bytes s)))).

(** [strings.Cut] on bytes: the text around the first separator. *)
Fixpoint cut_go (sep l before : list ascii) : option (list ascii * list ascii) :=
  match strip_prefix sep l with
  | Some after => Some (before, after)
  | None => match l with
            | [] => None
            | c :: l' => cut_go sep l' (before ++ [c])
            end
  end.
Definition Cut (s sep : string) : string * string * bool :=
  match cut_go (bytes sep) (bytes s) [] with
  | Some (a, b) => (str a, str b, true)
  | None => (s, ""%string, false)
  end.

(** [strings.Split] at a one-byte separator. *)
Fixpoint split_go (c : ascii) (l cur : list ascii) : list (list ascii) :=
  match l with
  | [] => [cur]
  | b :: l' => if decide (b = c) then cur :: split_go c l' [] else split_go c l' (cur ++ [b])
  end.
Definition Split (s : string) (c : ascii) : list string := str <$> split_go c (bytes s) [].

(** [strings.Trim] with a cutset of ASCII bytes. *)
Fixpoint drop_in (cut l : list ascii) : list ascii :=
  match l with
  | c :: l' => if decide (c ∈ cut) then drop_in cut l' else l
  | [] => []
  end.
Definition Trim (s : string) (cut : list ascii) : string :=
  str (reverse (drop_in cut (reverse (drop_in cut (bytes s))))).

(** [s[n:]] and [s[:n]]. *)
Definition suffix_from (s : string) (n : nat) : string := str (drop n (bytes s)).
Definition prefix_to (s : string) (n : nat) : string := str (take n (bytes s)).

Lemma strip_prefix_Some p l l' : strip_prefix p l = Some l' ↔ l = p ++ l'.
Proof.
  revert l. induction p as [|a p IH]; intros [|b l]; simpl; try naive_solver.
  case_decide; [subst; rewrite IH; naive_solver|naive_solver].
Qed.

Lemma HasPrefix_spec s p : HasPrefix s p = true ↔ ∃ t, s = p +:+ t.
Proof.
  unfold HasPrefix. rewrite bool_decide_eq_true. split.
  - intros [l Hl%strip_prefix_Some]. exists (str l). apply (inj bytes).
    by rewrite bytes_app, bytes_str.
  - intros [t ->]. exists (bytes t). by rewrite strip_prefix_Some, bytes_app.
Qed.

Lemma HasSuffix_spec s p : HasSuffix s p = true ↔ ∃ t, s = t +:+ p.
Proof.
  unfold HasSuffix. rewrite bool_decide_eq_true. split.
  - intros [l Hl%strip_prefix_Some]. exists (str (reverse l)). apply (inj bytes).
    rewrite bytes_app, bytes_str. apply (f_equal reverse) in Hl.
    by rewrite reverse_involutive, reverse_app, reverse_involutive in Hl.
  - intros [t ->]. exists (reverse (bytes t)).
    by rewrite strip_prefix_Some, bytes_app, reverse_app.
Qed.

(** ** Integers *)

Definition digit (c : ascii) : option Z :=
  let z := b2z c in if (0x30 <=? z) && (z <=? 0x39) then Some (z - 0x30) else None.

(** Decimal digits, most significant first; [None] on any other byte. *)
Fixpoint digits_go (l : list ascii) (acc : Z) : option Z :=
  match l with
  | [] => Some acc
  | c :: l' => match digit c with Some d => digits_go l' (acc * 10 + d) | None => None end
  end.

(** [strconv.ParseUint(s, 10, bits)]: empty input, a byte that is not a digit
    and a value out of range are errors. *)
Definition ParseUint (s : string) (bits : Z) : option Z :=
  match bytes s with
  | [] => None
  | l => match digits_go l 0 with
         | Some n => if n <? 2 ^ bits then Some n else None
         | None => None
         end
  end.

(** [strconv.ParseInt(s, 10, 64)] and [strconv.Atoi] on a 64-bit platform. *)
Definition ParseInt64 (s : string) : option Z :=
  match bytes s with
  | [] => None
  | c :: l =>
    let neg := bool_decide (c = "-"%char) in
    let l := if neg || bool_decide (c = "+"%char) then l else c :: l in
    match l with
    | [] => None
    | _ => match digits_go l 0 with
           | Some n =>
             if neg then (if n <=? 2 ^ 63 then Some (- n) else None)
             else (if n <? 2 ^ 63 then Some n else None)
           | None => None
           end
    end
  end.
Definition Atoi := ParseInt64.

Lemma digits_go_nonneg l acc n : 0 ≤ acc → digits_go l acc = Some n → 0 ≤ n.
Proof.
  revert acc. induction l as [|c l IH]; intros acc Hacc; simpl; [naive_solver|].
  unfold digit. case_match eqn:E; [|done]. case_match eqn:E'; simplify_eq/=.
  rewrite andb_true_iff, !Z.leb_le in E'. apply IH. lia.
Qed.

Lemma ParseUint_range s bits n : ParseUint s bits = Some n → 0 ≤ n < 2 ^ bits.
Proof.
  unfold ParseUint. intros. repeat case_match; simplify_eq/=.
  split; [by eapply (digits_go_nonneg (_ :: _) 0)|by apply Z.ltb_lt].
Qed.

Lemma ParseInt64_range s n : ParseInt64 s = Some n → - 2 ^ 63 ≤ n < 2 ^ 63.
Proof.
  unfold ParseInt64. intros H.
  destruct (bytes s) as [|c l]; [done|]. cbv zeta in H.
  match type of H with match ?x with _ => _ end = _ => destruct x as [|c' l'] eqn:Hl end; [done|].
  destruct (digits_go (c' :: l') 0) as [m|] eqn:Hm; [|done].
  apply digits_go_nonneg in Hm; [|done].
  repeat case_match; simplify_eq; rewrite ?Z.leb_le, ?Z.ltb_lt in *; lia.
Qed.
