(* ===== verification/GoText.v ===== *)
(** * Go text processing

    What the parsers of the program use of packages [strings] and [strconv]
    beyond [GoStrings]: replacement, splitting, case-insensitive comparison with
    an ASCII text, suffix cutting and decimal printing, with their laws. *)

From S2P Require Import Prelude GoStrings.
From Stdlib Require Import Ascii.

#[local] Open Scope Z_scope.

Lemma elem_of_concat {A} (x : A) (ls : list (list A)) : x ∈ concat ls ↔ ∃ l, x ∈ l ∧ l ∈ ls.
Proof.
  rewrite list_elem_of_In, in_concat. setoid_rewrite list_elem_of_In. naive_solver.
Qed.

(** A fact about one byte, checked on all 256. *)
Lemma every_byte (P : ascii → Prop) `{∀ c, Decision (P c)} :
  forallb (λ n, bool_decide (P (z2b (Z.of_nat n)))) (seq 0 256) = true → ∀ c, P c.
Proof.
  intros H0 c. rewrite forallb_forall in H0. specialize (H0 (Z.to_nat (b2z c))).
  pose proof (b2z_range c). rewrite Z2Nat.id, z2b_b2z in H0 by lia.
  apply (bool_decide_eq_true (P c)), H0, in_seq. lia.
Qed.

(** ** Replacement *)

(** [strings.ReplaceAll] on bytes, for a separator that is not empty; [skip]
    bytes belong to a match already replaced. *)
Fixpoint replace_go (old new l : list ascii) (skip : nat) : list ascii :=
  match l with
  | [] => []
  | c :: l' =>
    match skip with
    | S k => replace_go old new l' k
    | O =>
      match strip_prefix old l with
      | Some _ => new ++ replace_go old new l' (length old - 1)
      | None => c :: replace_go old new l' O
      end
    end
  end.
Definition ReplaceAll (s old new : string) : string :=
  str (replace_go (bytes old) (bytes new) (bytes s) 0).

Definition LF : ascii := z2b 10.
Definition CR : ascii := z2b 13.
Definition crlf : string := str [CR; LF].
Definition cr : string := str [CR].
Definition lf : string := str [LF].

(** The two replacements that make every line end a line feed. *)
Definition unix_newlines (s : string) : string := ReplaceAll (ReplaceAll s crlf lf) cr lf.

Lemma replace_go_absent old new c l : c ∈ old → c ∉ l → replace_go old new l 0 = l.
Proof.
  intros Hc. induction l as [|x l IH]; intros Hl; [done|].
  apply not_elem_of_cons in Hl as [Hx Hl]. cbn [replace_go].
  destruct (strip_prefix old (x :: l)) as [l'|] eqn:E; [|by rewrite IH].
  exfalso. apply strip_prefix_Some in E.
  assert (c ∈ x :: l) as Hin by (rewrite E; apply elem_of_app; by left).
  apply elem_of_cons in Hin. tauto.
Qed.
Lemma unix_newlines_id s : CR ∉ bytes s → unix_newlines s = s.
Proof.
  intros Hs. unfold unix_newlines, ReplaceAll. rewrite !bytes_str.
  rewrite (replace_go_absent [CR; LF] _ CR) by (done || by left).
  rewrite (replace_go_absent [CR] _ CR) by (done || by left). apply str_bytes.
Qed.

(** After the replacements no carriage return is left. *)
Lemma replace_go_cr l : CR ∉ replace_go [CR] [LF] l 0.
Proof.
  induction l as [|c l IH]; [by apply not_elem_of_nil|]. cbn [replace_go strip_prefix].
  destruct (decide (CR = c)) as [<-|Hc]; cbn [app length Nat.sub];
    (apply not_elem_of_cons; split; [|done]); [|done]. by vm_compute.
Qed.
Lemma unix_newlines_cr s : CR ∉ bytes (unix_newlines s).
Proof. unfold unix_newlines, ReplaceAll. rewrite !bytes_str. apply replace_go_cr. Qed.

(** ** Splitting *)

Lemma split_go_app c l1 l2 cur : c ∉ l1 → split_go c (l1 ++ c :: l2) cur = (cur ++ l1) :: split_go c l2 [].
Proof.
  revert cur. induction l1 as [|x l1 IH]; intros cur Hc; cbn [app split_go].
  - by rewrite decide_True, app_nil_r by done.
  - apply not_elem_of_cons in Hc as [? ?]. rewrite decide_False by done.
    rewrite IH by done. by rewrite <-app_assoc.
Qed.
Lemma split_go_none c l cur : c ∉ l → split_go c l cur = [cur ++ l].
Proof.
  revert cur. induction l as [|x l IH]; intros cur Hc; cbn [split_go]; [by rewrite app_nil_r|].
  apply not_elem_of_cons in Hc as [? ?]. rewrite decide_False by done.
  rewrite IH by done. by rewrite <-app_assoc.
Qed.

(** Lines, each closed by a line feed, split into the lines and an empty rest. *)
Lemma Split_lines (ls : list string) : Forall (λ s, LF ∉ bytes s) ls →
  Split (str (concat ((λ s, bytes s ++ [LF]) <$> ls))) LF = ls ++ [""].
Proof.
  unfold Split. rewrite bytes_str. induction 1 as [|s ls Hs _ IH]; [done|].
  rewrite fmap_cons. cbn [concat]. rewrite <-app_assoc. cbn [app].
  rewrite split_go_app by done. rewrite fmap_cons, IH. cbn [app]. by rewrite str_bytes.
Qed.

(** [strings.Cut] at one byte. *)
Lemma cut_go_single c l1 l2 b : c ∉ l1 → cut_go [c] (l1 ++ c :: l2) b = Some (b ++ l1, l2).
Proof.
  revert b. induction l1 as [|x l1 IH]; intros b Hc; cbn [app cut_go strip_prefix].
  - by rewrite decide_True, app_nil_r by done.
  - apply not_elem_of_cons in Hc as [? ?]. rewrite decide_False by done.
    rewrite IH by done. by rewrite <-app_assoc.
Qed.

Lemma cut_go_none c l b : c ∉ l → cut_go [c] l b = None.
Proof.
  revert b. induction l as [|x l IH]; intros b Hc; [done|]. cbn [cut_go strip_prefix].
  apply not_elem_of_cons in Hc as [? ?]. rewrite decide_False by done. by apply IH.
Qed.

Lemma length_bytes s : length (bytes s) = String.length s.
Proof. induction s as [|c s IH]; [done|]. cbn. by f_equal. Qed.

(** A text has the byte, or it does not. *)
Lemma split_at_first (c : ascii) l : c ∉ l ∨ ∃ l1 l2, l = l1 ++ c :: l2 ∧ c ∉ l1.
Proof.
  induction l as [|x l IH]; [left; apply not_elem_of_nil|].
  destruct (decide (x = c)) as [->|Hx].
  { right. exists [], l. split; [done|apply not_elem_of_nil]. }
  destruct IH as [IH|(l1 & l2 & -> & Hl)]; [left; by apply not_elem_of_cons|].
  right. exists (x :: l1), l2. split; [done|]. by apply not_elem_of_cons.
Qed.

(** ** Suffixes *)

(** [strings.TrimSuffix] and [strings.TrimPrefix]. *)
Definition TrimSuffix (s suffix : string) : string :=
  match strip_prefix (reverse (bytes suffix)) (reverse (bytes s)) with
  | Some r => str (reverse r)
  | None => s
  end.
Definition TrimPrefix (s prefix : string) : string :=
  match strip_prefix (bytes prefix) (bytes s) with Some r => str r | None => s end.

(** [strings.CutSuffix]. *)
Definition CutSuffix (s suffix : string) : string * bool :=
  match strip_prefix (reverse (bytes suffix)) (reverse (bytes s)) with
  | Some r => (str (reverse r), true)
  | None => (s, false)
  end.

(** ** Case folding *)

(** [strings.EqualFold] with an ASCII second argument: the only runes outside
    ASCII that fold to an ASCII letter are the Kelvin sign and the long s. *)
Definition fold_rune (r : Z) : Z :=
  if r =? 0x212A then 0x6B else if r =? 0x17F then 0x73
  else if r <? 0x80 then ascii_lower r else r.
Definition EqualFold (s ascii_text : string) : bool :=
  bool_decide (fold_rune <$> (runes (bytes s)).*1 = (ascii_lower ∘ b2z) <$> bytes ascii_text).

(** ** Validity *)

(** [utf8.ValidString]: no byte is decoded as an error. *)
Definition ValidString (s : string) : bool :=
  forallb (λ p, negb (bool_decide (p.1 = RuneError ∧ length p.2 = 1%nat))) (runes (bytes s)).

Lemma ValidString_ascii s : Forall (λ c, b2z c < 0x80) (bytes s) → ValidString s = true.
Proof.
  unfold ValidString. induction 1 as [|c l Hc _ IH]; [done|]. cbn [runes]. cbv zeta.
  rewrite (proj2 (Z.ltb_lt _ _)) by done. cbn [forallb]. rewrite IH, andb_true_r, bool_decide_false; [done|].
  unfold RuneError. cbn. lia.
Qed.

(** ** Decimal numbers *)

Lemma digit_char n : (n < 10)%N → digit (pretty_N_char n) = Some (Z.of_N n).
Proof.
  intros Hn. assert (n ∈ (N.of_nat <$> seq 0 10)) as Hin.
  { apply list_elem_of_fmap. exists (N.to_nat n). split; [lia|]. apply elem_of_seq. lia. }
  repeat (apply elem_of_cons in Hin as [->|Hin]; [by vm_compute|]). by apply not_elem_of_nil in Hin.
Qed.

(** Printing a number and reading it back. *)
Lemma pretty_N_go_digits x : ∃ l, (∀ s, bytes (pretty_N_go x s) = l ++ bytes s) ∧
  (∀ acc, digits_go l acc = Some (acc * 10 ^ Z.of_nat (length l) + Z.of_N x)) ∧
  (∀ c, c ∈ l → is_Some (digit c)) ∧ (x ≠ 0%N → l ≠ []).
Proof.
  induction (N.lt_wf_0 x) as [x _ IH].
  destruct (decide (x = 0%N)) as [->|Hx].
  { exists []. split_and!; [intros s; by rewrite pretty_N_go_0| |by intros c ?%not_elem_of_nil|done].
    intros acc. cbn. f_equal. lia. }
  destruct (IH (x `div` 10)%N) as (l & H1 & H2 & H3 & _); [by apply N.div_lt; lia|].
  set (d := pretty_N_char (x `mod` 10)).
  assert (digit d = Some (Z.of_N (x `mod` 10))) as Hd by (apply digit_char; by apply N.mod_lt).
  exists (l ++ [d]). split_and!.
  - intros s. rewrite pretty_N_go_step by lia. rewrite H1. by rewrite <-app_assoc.
  - intros acc. assert (∀ l1 l2 a, digits_go (l1 ++ l2) a =
      match digits_go l1 a with Some b => digits_go l2 b | None => None end) as Happ.
    { induction l1 as [|c l1 IHl]; intros l2 a; [done|]. cbn. destruct (digit c); [apply IHl|done]. }
    rewrite Happ, H2. cbn [digits_go]. rewrite Hd. f_equal. rewrite length_app. cbn [length].
    rewrite Nat2Z.inj_add, Z.pow_add_r by lia. change (10 ^ Z.of_nat 1) with 10.
    pose proof (N.div_mod x 10). lia.
  - intros c [Hc|Hc]%elem_of_app; [by apply H3|]. apply list_elem_of_singleton in Hc as ->.
    by rewrite Hd.
  - intros _ [_ ?]%app_nil. done.
Qed.

Lemma digit_not_sign c : is_Some (digit c) → c ≠ "-"%char ∧ c ≠ "+"%char ∧ c ≠ LF ∧ c ≠ CR.
Proof. intros [d Hd]. split_and!; intros ->; by vm_compute in Hd. Qed.

Lemma pretty_pos_bytes n : 0 < n → ∃ l, bytes (pretty n) = l ∧ l ≠ [] ∧
  digits_go l 0 = Some n ∧ ∀ c, c ∈ l → is_Some (digit c).
Proof.
  intros Hn. destruct n as [|p|p]; try lia.
  destruct (pretty_N_go_digits (N.pos p)) as (l & H1 & H2 & H3 & H4).
  exists l. split_and!; [|by apply H4|by rewrite H2|done].
  replace (pretty (Z.pos p)) with (pretty_N_go (N.pos p) "").
  - rewrite H1. apply app_nil_r.
  - unfold pretty, pretty_Z, pretty, pretty_N. cbn. done.
Qed.

Lemma pretty_opp_bytes n : 0 < n → bytes (pretty (- n)) = "-"%char :: bytes (pretty n).
Proof. intros Hn. by destruct n as [|p|p]; [lia| |lia]. Qed.

(** A printed number is a sign and digits. *)
Lemma pretty_bytes (n : Z) c : c ∈ bytes (pretty n) → c = "-"%char ∨ is_Some (digit c).
Proof.
  assert (Hpos : ∀ k, 0 < k → c ∈ bytes (pretty k) → is_Some (digit c)).
  { intros k Hk. destruct (pretty_pos_bytes k Hk) as (l & -> & _ & _ & Hall). auto. }
  destruct (Z.lt_trichotomy n 0) as [Hn|[->|Hn]]; [|by intros ->%list_elem_of_singleton; right|intros ?; right; by apply (Hpos n)].
  replace n with (- (- n)) by lia. rewrite pretty_opp_bytes by lia.
  intros [->|Hc]%elem_of_cons; [by left|]. right. apply (Hpos (- n)); [lia|done].
Qed.

Lemma Atoi_pretty n : - 2 ^ 63 ≤ n < 2 ^ 63 → Atoi (pretty n) = Some n.
Proof.
  intros Hn. destruct (Z.lt_trichotomy n 0) as [Hs|[->|Hs]]; [|by vm_compute|]; unfold Atoi, ParseInt64.
  - destruct (pretty_pos_bytes (- n)) as (l & Hb & Hne & Hd & _); [lia|].
    replace n with (- (- n)) at 1 by lia. rewrite pretty_opp_bytes, Hb by lia. cbv beta iota zeta.
    rewrite bool_decide_true by done. cbn [orb].
    destruct l as [|c l]; [done|]. rewrite Hd, (proj2 (Z.leb_le _ _)) by lia. f_equal. lia.
  - destruct (pretty_pos_bytes n Hs) as (l & Hb & Hne & Hd & Hall). rewrite Hb. destruct l as [|c l]; [done|].
    destruct (digit_not_sign c) as (H1 & H2 & _); [apply Hall; by left|].
    rewrite !bool_decide_false by done. cbn [orb]. rewrite Hd.
    by rewrite (proj2 (Z.ltb_lt _ _)) by lia.
Qed.

(** ** Texts around an ASCII byte *)

(** An ASCII byte ends every rune before it. *)
Lemma runes_app_ascii l c l2 : b2z c < 0x80 → runes (l ++ c :: l2) = runes l ++ runes (c :: l2).
Proof.
  intros Hc. remember (length l) as n eqn:Hn. revert l Hn.
  induction (lt_wf n) as [n _ IH]. intros [|c0 l] ->; [done|].
  destruct (runes_step c0 (l ++ c :: l2)) as (r & b & l' & Heq & Hb & [_ Hone] & Hr & Hk).
  assert (∃ l'', c0 :: l = b ++ l'' ∧ l' = l'' ++ c :: l2) as (l'' & Hl & ->).
  { rewrite app_comm_cons in Heq. apply app_eq_inv in Heq as [(k & H1 & H2)|(k & H1 & H2)]; [by exists k|].
    destruct Hone as [[_ ->]|[_ Hall]].
    - destruct k as [|x k]; [exists []; rewrite app_nil_r in *; by simplify_eq/=|].
      by destruct l.
    - destruct k as [|x k]; [exists []; rewrite app_nil_r in *; by simplify_eq/=|].
      rewrite H1 in Hall. apply Forall_app in Hall as [_ Hall]. simplify_eq/=. inv Hall. lia. }
  cbn [app]. rewrite Hr, Hl.
  pose proof (Hk (length l'')) as Hpre. rewrite take_app_length in Hpre. rewrite Hpre.
  rewrite (IH (length l'')); [done| |done].
  rewrite Hl, length_app. destruct b; [done|]. cbn. lia.
Qed.

Lemma runes_cons_ascii c l : b2z c < 0x80 → runes (c :: l) = (b2z c, [c]) :: runes l.
Proof.
  intros Hc. pose proof (b2z_range c). rewrite <-(z2b_b2z c) at 1. rewrite runes_ascii by lia.
  by rewrite z2b_b2z.
Qed.

(** [s] has no white space at its ends. *)
Definition tidy (s : string) : Prop := trimmed (runes (bytes s)).*1.

#[global] Instance trimmed_dec rs : Decision (trimmed rs).
Proof.
  destruct (from_option (negb ∘ IsSpace) true (head rs) && from_option (negb ∘ IsSpace) true (last rs))
    eqn:E; [left|right].
  - apply andb_true_iff in E as [H1 H2]. split; intros r rs' ->; [by apply negb_true_iff|].
    rewrite last_snoc in H2. by apply negb_true_iff.
  - intros [H1 H2]. apply not_true_iff_false in E. destruct E. apply andb_true_iff. split.
    + destruct rs as [|r rs]; [done|]. apply negb_true_iff. by eapply H1.
    + destruct (last rs) as [r|] eqn:Hr; [|done]. apply last_Some in Hr as [? ->].
      apply negb_true_iff. by eapply H2.
Defined.

#[global] Instance tidy_dec s : Decision (tidy s).
Proof. unfold tidy. apply _. Defined.

Lemma TrimSpace_tidy s : tidy (TrimSpace s).
Proof. unfold tidy. rewrite runes_TrimSpace. apply trim_spaces_trimmed. Qed.

Lemma tidy_around a c b : b2z c < 0x80 → IsSpace (b2z c) = false → tidy a → tidy b →
  tidy (str (bytes a ++ c :: bytes b)).
Proof.
  intros Hc Hs [Ha _] [_ Hb]. unfold tidy. rewrite bytes_str, runes_app_ascii, runes_cons_ascii by done.
  rewrite fmap_app, fmap_cons. cbn [fst]. split; intros r rs Heq.
  - destruct (runes (bytes a)).*1 as [|x l]; simplify_eq/=; [done|by eapply Ha].
  - destruct (runes (bytes b)).*1 as [|x l _] using rev_ind.
    + apply app_inj_tail in Heq as [_ <-]. done.
    + rewrite app_comm_cons, app_assoc in Heq. apply app_inj_tail in Heq as [_ <-]. by eapply Hb.
Qed.

(** A text of ASCII bytes: its runes are its bytes. *)
Lemma runes_ascii_all l : Forall (λ c, b2z c < 0x80) l → runes l = (λ c, (b2z c, [c])) <$> l.
Proof. induction 1 as [|c l Hc _ IH]; [done|]. by rewrite runes_cons_ascii, IH. Qed.

Lemma tidy_ascii l : Forall (λ c, b2z c < 0x80) l →
  from_option (λ c, IsSpace (b2z c) = false) True (head l) →
  from_option (λ c, IsSpace (b2z c) = false) True (last l) → tidy (str l).
Proof.
  intros Hl H1 H2. unfold tidy. rewrite bytes_str, runes_ascii_all by done.
  rewrite <-list_fmap_compose. split; intros r rs Heq.
  - destruct l; by simplify_eq/=.
  - destruct l as [|c l _] using rev_ind; [by destruct rs|]. rewrite last_snoc in H2.
    rewrite fmap_app in Heq. apply app_inj_tail in Heq as [_ <-]. done.
Qed.
