(* ===== verification/GoTime.v ===== *)
(** * Go time

    What the sources use of package [time]: instants, civil dates in the
    proleptic Gregorian calendar, time zones, [time.Date] and [AddDate].

    An instant is the number of nanoseconds since 1 January of year 1, UTC, so
    Go's zero time is [0].  A time zone comes from the zone database: it is a
    record of the [lookup] function with the facts that its answers cover the
    instant asked for and agree on the period they name. *)

From S2P Require Import Prelude.
From Stdlib Require Import ZArith.

#[local] Open Scope Z_scope.

Ltac zdiv := Z.div_mod_to_equations; lia.

(** ** Durations: 64-bit integers, whose arithmetic wraps around *)

Definition min_duration : Z := - 2 ^ 63.
Definition max_duration : Z := 2 ^ 63 - 1.
Definition duration (n : Z) : Z := (n + 2 ^ 63) mod 2 ^ 64 - 2 ^ 63.

Lemma duration_small n : min_duration <= n <= max_duration → duration n = n.
Proof.
  unfold duration, min_duration, max_duration. intros H. rewrite Z.mod_small; lia.
Qed.

(** ** Civil dates as day numbers: day 0 is 1 January of year 1 *)

Definition leap (y : Z) : bool := (y mod 4 =? 0) && (negb (y mod 100 =? 0) || (y mod 400 =? 0)).
Definition year_start (y : Z) : Z := 365 * (y - 1) + (y - 1) / 4 - (y - 1) / 100 + (y - 1) / 400.
Definition year_length (y : Z) : Z := if leap y then 366 else 365.

(** Days of a year before month [m], 1 to 13. *)
Definition month_start (y m : Z) : Z :=
  let l := if leap y then 1 else 0 in
  match m with
  | 1 => 0 | 2 => 31 | 3 => 59 + l | 4 => 90 + l | 5 => 120 + l | 6 => 151 + l
  | 7 => 181 + l | 8 => 212 + l | 9 => 243 + l | 10 => 273 + l | 11 => 304 + l
  | 12 => 334 + l | _ => 365 + l
  end.
Definition month_length (y m : Z) : Z := month_start y (m + 1) - month_start y m.

Record date := { year : Z; month : Z; day : Z }.
#[global] Instance date_eq_dec : EqDecision date.
Proof. solve_decision. Defined.

Definition valid_date (x : date) : Prop :=
  1 <= month x <= 12 ∧ 1 <= day x <= month_length (year x) (month x).
#[global] Instance valid_date_dec x : Decision (valid_date x).
Proof. unfold valid_date. apply _. Defined.

(** The day that [time.Date] takes a year, month and day for: months outside 1
    to 12 move the year, and any number of days is added. *)
Definition day_number (y m d : Z) : Z :=
  let y' := y + (m - 1) / 12 in
  let m' := (m - 1) mod 12 + 1 in
  year_start y' + month_start y' m' + (d - 1).

(** The year of a day: an estimate, at most one year off. *)
Definition year_of (n : Z) : Z :=
  let y := 400 * n / 146097 + 1 in
  if n <? year_start y then y - 1 else if year_start (y + 1) <=? n then y + 1 else y.

Fixpoint month_from (k : nat) (m : Z) (y yday : Z) : Z :=
  match k with
  | O => m
  | S k => if yday <? month_start y (m + 1) then m else month_from k (m + 1) y yday
  end.
Definition civil (n : Z) : date :=
  let y := year_of n in
  let yday := n - year_start y in
  let m := month_from 11 1 y yday in
  {| year := y; month := m; day := yday - month_start y m + 1 |}.

(** Weekdays, Sunday 0; day 0 is a Monday. *)
Definition weekday (n : Z) : Z := (n + 1) mod 7.

(** *** Laws of the calendar *)

Lemma year_start_succ y : year_start (y + 1) = year_start y + year_length y.
Proof.
  unfold year_start, year_length, leap.
  destruct (Z.eqb_spec (y mod 4) 0), (Z.eqb_spec (y mod 100) 0), (Z.eqb_spec (y mod 400) 0);
    simpl; zdiv.
Qed.

Lemma year_length_pos y : 365 <= year_length y <= 366.
Proof. unfold year_length. destruct (leap y); lia. Qed.

Lemma year_start_mono y1 y2 : y1 <= y2 → year_start y1 + 365 * (y2 - y1) <= year_start y2.
Proof.
  intros H. unfold year_start. zdiv.
Qed.
Lemma year_start_upper y1 y2 : y1 <= y2 → year_start y2 <= year_start y1 + 366 * (y2 - y1).
Proof.
  intros H. assert (∀ k, 0 <= k → year_start (y1 + k) <= year_start y1 + 366 * k) as Hk.
  { apply natlike_ind; [rewrite Z.add_0_r; lia|]. intros k Hk IH.
    replace (y1 + Z.succ k) with ((y1 + k) + 1) by lia.
    rewrite year_start_succ. pose proof (year_length_pos (y1 + k)). lia. }
  specialize (Hk (y2 - y1)). replace (y1 + (y2 - y1)) with y2 in Hk by lia. lia.
Qed.

Lemma year_of_bounds n : year_start (year_of n) <= n < year_start (year_of n + 1).
Proof.
  unfold year_of. set (y := 400 * n / 146097 + 1).
  assert (year_start (y - 1) <= n < year_start (y + 2)) as [H1 H2].
  { unfold year_start, y. zdiv. }
  destruct (Z.ltb_spec n (year_start y)); [replace (y - 1 + 1) with y by lia; lia|].
  destruct (Z.leb_spec (year_start (y + 1)) n); [|lia].
  replace (y + 1 + 1) with (y + 2) by lia. lia.
Qed.
Lemma year_of_unique n y : year_start y <= n < year_start (y + 1) → year_of n = y.
Proof.
  intros H. pose proof (year_of_bounds n) as H'.
  destruct (Z.lt_trichotomy (year_of n) y) as [Hlt|[?|Hgt]]; [|done|].
  - pose proof (year_start_mono (year_of n + 1) y). lia.
  - pose proof (year_start_mono (y + 1) (year_of n)). lia.
Qed.

(** Month numbers, to reason by cases. *)
Lemma month_cases m : 1 <= m <= 12 → m = 1 ∨ m = 2 ∨ m = 3 ∨ m = 4 ∨ m = 5 ∨ m = 6 ∨ m = 7 ∨ m = 8 ∨
  m = 9 ∨ m = 10 ∨ m = 11 ∨ m = 12.
Proof. lia. Qed.
Ltac month_case H := apply month_cases in H;
  destruct H as [->|[->|[->|[->|[->|[->|[->|[->|[->|[->|[->| ->]]]]]]]]]]].

Lemma month_length_range y m : 1 <= m <= 12 → 28 <= month_length y m <= 31.
Proof. intros H. unfold month_length. month_case H; simpl; destruct (leap y); lia. Qed.
Lemma month_start_year y : month_start y 13 = year_length y.
Proof. unfold month_start, year_length. by destruct (leap y). Qed.
Lemma month_start_range y m : 1 <= m <= 12 → 0 <= month_start y m ∧
  month_start y m + month_length y m <= year_length y.
Proof.
  intros H. unfold month_length, year_length. month_case H; simpl; destruct (leap y); lia.
Qed.
Lemma month_start_mono y m1 m2 : 1 <= m1 → m1 < m2 → m2 <= 13 →
  month_start y m1 + month_length y m1 <= month_start y m2.
Proof.
  intros H1 H2 H3. unfold month_length. replace (month_start y m1 + _) with (month_start y (m1 + 1)) by lia.
  assert (1 <= m1 <= 12) as Hm1 by lia. month_case Hm1; simpl;
    (assert (m2 = 13 ∨ 1 <= m2 <= 12) as [->|Hm2] by lia; [|month_case Hm2]); simpl; destruct (leap y); lia.
Qed.

Lemma month_from_spec y yday : 0 <= yday < year_length y →
  let m := month_from 11 1 y yday in
  1 <= m <= 12 ∧ month_start y m <= yday < month_start y m + month_length y m.
Proof.
  intros H.
  assert (∀ k m, (Z.of_nat k + m = 12) → 1 <= m → month_start y m <= yday →
    let r := month_from k m y yday in
    1 <= r <= 12 ∧ month_start y r <= yday < month_start y (r + 1)) as Hgo.
  { induction k as [|k IH]; intros m Hk Hm Hs; simpl.
    - replace m with 12 in * by lia. change (12 + 1) with 13. rewrite month_start_year. lia.
    - destruct (Z.ltb_spec yday (month_start y (m + 1))); [lia|]. apply IH; lia. }
  unfold month_length. specialize (Hgo 11%nat 1). simpl in Hgo.
  destruct Hgo as [? ?]; [lia|lia|lia|]. simpl. lia.
Qed.

(** The civil date of a day is a valid date and names that day. *)
Lemma civil_valid n : valid_date (civil n).
Proof.
  pose proof (year_of_bounds n) as Hy. rewrite year_start_succ in Hy.
  destruct (month_from_spec (year_of n) (n - year_start (year_of n))) as [Hm Hd]; [lia|].
  unfold valid_date, civil. simpl in *. lia.
Qed.
Lemma day_number_valid y m d : 1 <= m <= 12 → day_number y m d = year_start y + month_start y m + (d - 1).
Proof.
  intros H. unfold day_number. rewrite Z.div_small, Z.mod_small by lia.
  rewrite Z.add_0_r. by replace (m - 1 + 1) with m by lia.
Qed.
Definition day_of (x : date) : Z := day_number (year x) (month x) (day x).

Lemma day_of_civil n : day_of (civil n) = n.
Proof.
  destruct (civil_valid n) as [Hm _]. unfold day_of. rewrite day_number_valid by done.
  unfold civil. simpl. lia.
Qed.
Lemma civil_day_of x : valid_date x → civil (day_of x) = x.
Proof.
  destruct x as [y m d]. intros [Hm Hd]. simpl in *. unfold day_of. simpl.
  rewrite day_number_valid by done. destruct (month_start_range y m Hm) as [H1 H2].
  assert (year_of (year_start y + month_start y m + (d - 1)) = y) as Ey.
  { apply year_of_unique. rewrite year_start_succ. lia. }
  unfold civil. rewrite Ey. set (yday := _ - year_start y).
  assert (yday = month_start y m + (d - 1)) as Eyd by (unfold yday; lia).
  destruct (month_from_spec y yday) as [Hm' Hd']; [lia|]. cbv zeta in *.
  set (m' := month_from 11 1 y yday) in *.
  assert (m' = m) as ->; [|f_equal; lia].
  destruct (Z.lt_trichotomy m' m) as [Hlt|[?|Hgt]]; [|done|].
  - pose proof (month_start_mono y m' m). lia.
  - pose proof (month_start_mono y m m'). lia.
Qed.

(** Dates are ordered as their days. *)
Definition date_lt (x y : date) : Prop :=
  year x < year y ∨ year x = year y ∧ (month x < month y ∨ month x = month y ∧ day x < day y).
Lemma date_lt_day x y : valid_date x → valid_date y → date_lt x y → day_of x < day_of y.
Proof.
  destruct x as [y1 m1 d1], y as [y2 m2 d2]. intros [Hm1 Hd1] [Hm2 Hd2] H. unfold date_lt, day_of in *.
  simpl in *. rewrite !day_number_valid by done.
  destruct (month_start_range y1 m1 Hm1), (month_start_range y2 m2 Hm2).
  destruct H as [H|[-> [H|[-> H]]]].
  - pose proof (year_start_mono (y1 + 1) y2). rewrite year_start_succ in *. lia.
  - pose proof (month_start_mono y2 m1 m2). lia.
  - lia.
Qed.
Lemma day_lt_date x y : valid_date x → valid_date y → day_of x < day_of y → date_lt x y.
Proof.
  intros Hx Hy H. destruct (decide (x = y)) as [->|Hne]; [lia|].
  assert (date_lt x y ∨ date_lt y x) as [?|Hlt]; [|done|].
  - destruct x as [y1 m1 d1], y as [y2 m2 d2]. unfold date_lt. simpl.
    destruct (Z.lt_trichotomy y1 y2) as [?|[->|?]]; [lia| |lia].
    destruct (Z.lt_trichotomy m1 m2) as [?|[->|?]]; [lia| |lia].
    destruct (Z.lt_trichotomy d1 d2) as [?|[->|?]]; [lia| |lia]. done.
  - pose proof (date_lt_day y x Hy Hx Hlt). lia.
Qed.

#[global] Arguments year_start : simpl never.
#[global] Arguments month_start : simpl never.
#[global] Arguments month_length : simpl never.
#[global] Arguments day_number : simpl never.
#[global] Arguments civil : simpl never.
#[global] Arguments month_from : simpl never.
#[global] Arguments weekday : simpl never.

(** ** Time zones *)

(** What [Location.lookup] says of an instant, in seconds: the offset east of
    UTC and the period it holds for, unbounded on a side where there is none. *)
Record zone := { offset : Z; zone_start : option Z; zone_end : option Z }.
Definition in_zone (t : Z) (z : zone) : Prop :=
  match zone_start z with Some s => s <= t | None => True end ∧
  match zone_end z with Some e => t < e | None => True end.
#[global] Instance in_zone_dec t z : Decision (in_zone t z).
Proof. unfold in_zone. destruct (zone_start z), (zone_end z); apply _. Defined.

Record Location := {
  lookup : Z → zone;
  lookup_in : ∀ t, in_zone t (lookup t);
  lookup_same : ∀ t t', in_zone t' (lookup t) → lookup t' = lookup t;
}.

(** A fixed offset, such as UTC. *)
Program Definition fixed_zone (o : Z) : Location := {|
  lookup _ := {| offset := o; zone_start := None; zone_end := None |};
|}.
Next Obligation. done. Qed.
Next Obligation. done. Qed.

(** A zone by its transitions: from each instant on, the offset given with it. *)
Fixpoint walk (start : option Z) (o : Z) (txs : list (Z * Z)) (t : Z) : zone :=
  match txs with
  | [] => {| offset := o; zone_start := start; zone_end := None |}
  | (w, o') :: txs' =>
    if t <? w then {| offset := o; zone_start := start; zone_end := Some w |}
    else walk (Some w) o' txs' t
  end.
Fixpoint ascending (lo : Z) (txs : list (Z * Z)) : bool :=
  match txs with [] => true | (w, _) :: txs' => (lo <? w) && ascending w txs' end.
Lemma walk_in start o txs t : match start with Some s => s <= t | None => True end →
  in_zone t (walk start o txs t).
Proof.
  revert start o. induction txs as [|[w o'] txs IH]; intros start o Hs; simpl.
  - by unfold in_zone; simpl.
  - destruct (Z.ltb_spec t w); [by unfold in_zone; simpl|]. by apply IH.
Qed.
Lemma walk_start start o txs t s : zone_start (walk start o txs t) = Some s →
  ascending (default s start) txs = true → default s start <= s.
Proof.
  revert start o. induction txs as [|[w o'] txs IH]; intros start o Hz Ha; simpl in *.
  - rewrite Hz. simpl. lia.
  - destruct (t <? w); [simpl in Hz; rewrite Hz; simpl; lia|].
    apply andb_true_iff in Ha as [Hw%Z.ltb_lt Ha]. specialize (IH (Some w) o' Hz Ha). simpl in IH. lia.
Qed.
Lemma walk_started w o txs t : zone_start (walk (Some w) o txs t) ≠ None.
Proof.
  revert w o. induction txs as [|[w1 o1] txs IH]; intros w o; simpl; [done|].
  destruct (t <? w1); [done|apply IH].
Qed.
Lemma walk_same start o txs t t' : match txs with (w, _) :: txs' => ascending w txs' = true | [] => True end →
  in_zone t' (walk start o txs t) → walk start o txs t' = walk start o txs t.
Proof.
  revert start o. induction txs as [|[w o'] txs IH]; intros start o Ha Hin; simpl in *; [done|].
  destruct (Z.ltb_spec t w) as [Ht|Ht].
  - destruct Hin as [_ Hin]. simpl in Hin. by rewrite (proj2 (Z.ltb_lt _ _)).
  - assert (w <= t') as Hw.
    { destruct (zone_start (walk (Some w) o' txs t)) as [s|] eqn:Es.
      - pose proof (walk_start (Some w) o' txs t s Es Ha). destruct Hin as [Hin _].
        rewrite Es in Hin. simpl in *. lia.
      - by apply walk_started in Es. }
    rewrite (proj2 (Z.ltb_ge _ _)) by done. apply IH; [|done].
    destruct txs as [|[w1 o1] txs]; [done|]. simpl in Ha. by apply andb_true_iff in Ha as [_ ?].
Qed.
Program Definition zone_table (o w1 o1 : Z) (txs : list (Z * Z)) (H : ascending w1 txs = true) : Location := {|
  lookup := walk None o ((w1, o1) :: txs);
|}.
Next Obligation. intros o w1 o1 txs H t. by apply walk_in. Qed.
Next Obligation. intros o w1 o1 txs H t t'. by apply walk_same. Qed.

(** ** Instants *)

Definition second : Z := 1000000000.
Definition unix (t : Z) : Z := t / second.
Definition nanos (t : Z) : Z := t mod second.

(** The wall clock: seconds since the start of year 1 in the zone. *)
Definition local (loc : Location) (t : Z) : Z := unix t + offset (lookup loc (unix t)).
Definition date_of (loc : Location) (t : Z) : date := civil (local loc t / 86400).
Definition Weekday (loc : Location) (t : Z) : Z := weekday (local loc t / 86400).
Definition Hour (loc : Location) (t : Z) : Z := local loc t mod 86400 / 3600.
Definition Minute (loc : Location) (t : Z) : Z := local loc t mod 3600 / 60.
Definition Second (loc : Location) (t : Z) : Z := local loc t mod 60.

(** The instant that [time.Date] chooses for a wall clock. *)
Definition at_local (loc : Location) (l : Z) : Z :=
  let z := lookup loc l in
  if offset z =? 0 then l
  else
    let utc := l - offset z in
    if decide (in_zone utc z) then utc else l - offset (lookup loc utc).

Definition Date (loc : Location) (y m d h mi s ns : Z) : Z :=
  at_local loc (day_number y m d * 86400 + h * 3600 + mi * 60 + s) * second + ns.

(** [Time.AddDate]. *)
Definition AddDate (loc : Location) (t years months days : Z) : Z :=
  let x := date_of loc t in
  Date loc (year x + years) (month x + months) (day x + days)
    (Hour loc t) (Minute loc t) (Second loc t) (nanos t).

(** The zero time. *)
Definition zero_time : Z := 0.
Definition IsZero (t : Z) : bool := t =? 0.

(** [Time.ZoneBounds], the start only. *)
Definition zone_bound (loc : Location) (t : Z) : Z :=
  match zone_start (lookup loc (unix t)) with Some s => s * second | None => zero_time end.

Lemma unix_second s ns : 0 <= ns < second → unix (s * second + ns) = s.
Proof. unfold unix, second. intros. zdiv. Qed.
Lemma unix_seconds s : unix (s * second) = s.
Proof. unfold unix, second. zdiv. Qed.

(** A wall clock decomposes into its date and time of day. *)
Lemma local_parts loc t :
  local loc t = day_of (date_of loc t) * 86400 + Hour loc t * 3600 + Minute loc t * 60 + Second loc t.
Proof. unfold date_of, Hour, Minute, Second. rewrite day_of_civil. zdiv. Qed.

(** In a fixed zone every wall clock exists exactly once. *)
Lemma at_local_fixed o l : at_local (fixed_zone o) l = l - o.
Proof.
  unfold at_local. simpl. destruct (Z.eqb_spec o 0); [lia|done].
Qed.
Lemma local_fixed o t : local (fixed_zone o) t = unix t + o.
Proof. done. Qed.

(** ** Loops without a bound in the source

    [iterate n f a] runs at most [2 ^ n] rounds of a loop body that either
    continues ([inl]) or leaves the loop ([inr]). *)
Fixpoint iterate {A B} (n : nat) (f : A → A + B) (a : A) : A + B :=
  match n with
  | O => f a
  | S n => match iterate n f a with inl a' => iterate n f a' | inr b => inr b end
  end.
Definition loop {A B} (n : nat) (f : A → A + B) (a : A) : option B :=
  match iterate n f a with inr b => Some b | inl _ => None end.

Section iterate.
Context {A B : Type} (f : A → A + B).

(** What every round keeps, the loop keeps. *)
Lemma iterate_inv (P : A → Prop) (Q : B → Prop) n a :
  (∀ a, P a → match f a with inl a' => P a' | inr b => Q b end) →
  P a → match iterate n f a with inl a' => P a' | inr b => Q b end.
Proof.
  intros Hf. revert a. induction n as [|n IH]; intros a Ha; simpl; [by apply Hf|].
  specialize (IH a Ha) as H1. destruct (iterate n f a) as [a'|b]; [by apply IH|done].
Qed.
Lemma loop_inv (P : A → Prop) (Q : B → Prop) n a b :
  (∀ a, P a → match f a with inl a' => P a' | inr b => Q b end) →
  P a → loop n f a = Some b → Q b.
Proof.
  intros Hf Ha. unfold loop. pose proof (iterate_inv P Q n a Hf Ha) as H.
  destruct (iterate n f a); [done|]. by intros [= <-].
Qed.

(** A loop whose rounds decrease a measure below [2 ^ n] ends. *)
Lemma iterate_measure (P : A → Prop) (μ : A → Z) n a :
  (∀ a, P a → match f a with inl a' => P a' ∧ 0 <= μ a' < μ a | inr _ => True end) →
  P a → match iterate n f a with inl a' => P a' ∧ 0 <= μ a' <= μ a - 2 ^ Z.of_nat n | inr _ => True end.
Proof.
  intros Hf. revert a. induction n as [|n IH]; intros a Ha; simpl iterate.
  - specialize (Hf a Ha). destruct (f a); [|done]. simpl. split; [tauto|lia].
  - pose proof (IH a Ha) as H1. destruct (iterate n f a) as [a'|b]; [|done]. destruct H1 as [Ha' H1].
    pose proof (IH a' Ha') as H2. destruct (iterate n f a') as [a''|b]; [|done]. destruct H2 as [? H2].
    rewrite Nat2Z.inj_succ, Z.pow_succ_r by lia. split; [done|lia].
Qed.
Lemma loop_ends (P : A → Prop) (μ : A → Z) n a :
  (∀ a, P a → match f a with inl a' => P a' ∧ 0 <= μ a' < μ a | inr _ => True end) →
  P a → μ a < 2 ^ Z.of_nat n → ∃ b, loop n f a = Some b.
Proof.
  intros Hf Ha Hμ. unfold loop. pose proof (iterate_measure P μ n a Hf Ha) as H.
  destruct (iterate n f a) as [a'|b]; [lia|eauto].
Qed.

(** A round that continues in the same state never ends. *)
Lemma loop_stuck n a : f a = inl a → loop n f a = None.
Proof.
  intros Hf. unfold loop. assert (iterate n f a = inl a) as ->; [|done].
  induction n as [|n IH]; simpl; [done|]. by rewrite IH.
Qed.
End iterate.
