(* ===== verification/Servicing.v ===== *)
(** * Package servicing: release order and compatibility floor

    Translates [internal/servicing/release.go] and the evaluation half of
    [internal/servicing/floor.go]: release strings and their precedence, the
    validation of a floor, its comparison with another floor and its
    evaluation against a build. *)

From S2P Require Import Prelude GoStrings.
From Stdlib Require Import Ascii.

#[local] Open Scope Z_scope.
#[local] Open Scope go_scope.

(** ** Releases *)

Record Release := { Major : Z; Minor : Z; Patch : Z; Pre : list string }.

Definition digits10 : list ascii := bytes "0123456789".
Definition alnumHyphen : list ascii :=
  bytes "0123456789ABCDEFGHIJKLMNOPQRSTUVWXYZabcdefghijklmnopqrstuvwxyz-".

(** [numericIdentifier]: a decimal without leading zeros. *)
Definition numericIdentifier (s : string) : option Z :=
  if decide (s = "") then None
  else if bool_decide (1 < length (bytes s))%nat && bool_decide (head (bytes s) = Some "0"%char) then None
  else if decide (Trim s digits10 = "") then ParseUint s 64
  else None.

Definition validPrereleaseIdentifier (s : string) : bool :=
  if decide (s = "") then false
  else if decide (Trim s alnumHyphen = "") then
    if decide (Trim s digits10 = "") then bool_decide (is_Some (numericIdentifier s)) else true
  else false.

Fixpoint numeric_fields (fields : list string) : option (list Z) :=
  match fields with
  | [] => Some []
  | f :: fields' =>
    match numericIdentifier f with
    | None => None
    | Some n => (λ ns, n :: ns) <$> numeric_fields fields'
    end
  end.

Definition ParseRelease (s : string) : result Release :=
  let '(core, meta, hasMeta) := Cut s "+" in
  let '(core, pre, hasPre) := Cut core "-" in
  let fields := Split core "."%char in
  if decide (length fields = 3%nat) then
    match numeric_fields fields with
    | Some [major; minor; patch] =>
      let ids := if hasPre then Split pre "."%char else [] in
      if forallb validPrereleaseIdentifier ids then
        if hasMeta && negb (forallb (λ id, negb (bool_decide (id = "")) &&
                                          bool_decide (Trim id alnumHyphen = ""))
                              (Split meta "."%char))
        then Fail (ErrFmt "release %q has invalid build metadata" [s])
        else Ok {| Major := major; Minor := minor; Patch := patch; Pre := ids |}
      else Fail (ErrFmt "release %q has an invalid prerelease" [s])
    | _ => Fail (ErrFmt "release %q has an invalid numeric field" [s])
    end
  else Fail (ErrFmt "release %q is not MAJOR.MINOR.PATCH" [s]).

(** ** Precedence *)

Definition compare_uint (a b : Z) : Z := if a <? b then -1 else if b <? a then 1 else 0.

Fixpoint lex {A} (cmp : A → A → Z) (l1 l2 : list A) : Z :=
  match l1, l2 with
  | [], [] => 0
  | [], _ => -1
  | _, [] => 1
  | x :: l1', y :: l2' => if decide (cmp x y = 0) then lex cmp l1' l2' else cmp x y
  end.

(** [strings.Compare]: lexicographic on bytes. *)
Definition strings_Compare (a b : string) : Z :=
  lex (λ x y, compare_uint (b2z x) (b2z y)) (bytes a) (bytes b).

Definition comparePrerelease (a b : string) : Z :=
  match numericIdentifier a, numericIdentifier b with
  | Some an, Some bn => compare_uint an bn
  | Some _, None => -1
  | None, Some _ => 1
  | None, None => strings_Compare a b
  end.

(** The first pair of numbers that differ decides; [k] if none does. *)
Fixpoint first_difference (l : list (Z * Z)) (k : Z) : Z :=
  match l with
  | [] => k
  | (a, b) :: l' => if decide (a = b) then first_difference l' k else if a <? b then -1 else 1
  end.

(** No prerelease at all orders last. *)
Definition compare_pre (p q : list string) : Z :=
  match p, q with
  | [], [] => 0
  | [], _ => 1
  | _, [] => -1
  | p, q => lex comparePrerelease p q
  end.

Definition Compare (r o : Release) : Z :=
  first_difference [(Major r, Major o); (Minor r, Minor o); (Patch r, Patch o)]
    (compare_pre (Pre r) (Pre o)).

(** ** The compatibility floor *)

Definition FloorSchema : Z := 1.
Definition maxFloorFeatures : nat := 64.
Definition maxFeatureBytes : nat := 64.

Record Floor := {
  Schema : Z;
  MinVersion : string;
  RequireFeatures : list string;
  RequireCleanBuild : bool;
}.

Definition lower_alnum (c : ascii) : bool :=
  let z := b2z c in ((0x61 <=? z) && (z <=? 0x7A)) || ((0x30 <=? z) && (z <=? 0x39)).
Definition lower_alpha (c : ascii) : bool := let z := b2z c in (0x61 <=? z) && (z <=? 0x7A).

(** The regular expression [featureName]:
    a lower-case letter, then lower-case letters and digits in groups that
    single hyphens separate. *)
Definition featureName (s : string) : bool :=
  match bytes <$> Split s "-"%char with
  | (c :: first) :: groups =>
    lower_alpha c && forallb lower_alnum first &&
    forallb (λ g, negb (bool_decide (g = [])) && forallb lower_alnum g) groups
  | _ => false
  end.

(** The loop of [Validate] over the features; [seen] are those before. *)
Fixpoint validate_features (seen names : list string) : option error :=
  match names with
  | [] => None
  | name :: names' =>
    if bool_decide (maxFeatureBytes < length (bytes name))%nat || negb (featureName name)
    then Some (ErrFmt "floor feature %q is not a contract name" [name])
    else if decide (name ∈ seen) then Some (ErrFmt "floor repeats feature %q" [name])
    else validate_features (seen ++ [name]) names'
  end.

Definition Validate (f : option Floor) : option error :=
  match f with
  | None => Some (ErrText "floor is missing")
  | Some f =>
    if decide (Schema f = FloorSchema) then
      if decide (MinVersion f = "" ∧ RequireFeatures f = [] ∧ RequireCleanBuild f = false)
      then Some (ErrText "floor sets no requirement")
      else match (if decide (MinVersion f = "") then None
                  else match ParseRelease (MinVersion f) with Ok _ => None | Fail e => Some e end) with
           | Some e => Some e
           | None =>
             if decide (maxFloorFeatures < length (RequireFeatures f))%nat
             then Some (ErrFmt "floor requires more than %d features" [pretty maxFloorFeatures])
             else validate_features [] (RequireFeatures f)
           end
    else Some (ErrFmt "floor schema %d is not supported" [pretty (Schema f)])
  end.

(** [f.Within(prev)] for a floor [f]. *)
Definition Within (f : Floor) (prev : option Floor) : bool :=
  match prev with
  | None => false
  | Some prev =>
    (if decide (MinVersion f = "") then true
     else if decide (MinVersion prev = "") then false
     else match ParseRelease (MinVersion f), ParseRelease (MinVersion prev) with
          | Ok min, Ok was => Compare min was <=? 0
          | _, _ => false
          end) &&
    forallb (λ name, bool_decide (name ∈ RequireFeatures prev)) (RequireFeatures f) &&
    (negb (RequireCleanBuild f) || RequireCleanBuild prev)
  end.

(** [Build]; [Features = None] is a nil slice, [Modified = None] is unknown. *)
Record Build := {
  Version : string;
  Commit : string;
  Modified : option bool;
  Features : option (list string);
}.

Record BuildInfo := { info_Version : string; info_Commit : string; info_Modified : option bool; info_Go : string }.
Definition BuildFrom (info : BuildInfo) (features : option (list string)) : Build := {|
  Version := info_Version info; Commit := info_Commit info;
  Modified := info_Modified info; Features := features |}.

(** [Verdict]; a reason is its format and arguments, like an error. *)
Record Verdict := { Satisfied : bool; Reasons : list error }.

Definition version_reasons (f : Floor) (b : Build) : list error :=
  if decide (MinVersion f = "") then []
  else match ParseRelease (MinVersion f), ParseRelease (Version b) with
       | Fail _, _ => [ErrText "floor version is invalid"]
       | Ok _, Fail _ => [ErrFmt "build version %q is not a release version" [Version b]]
       | Ok min, Ok got =>
         if Compare got min <? 0
         then [ErrFmt "version %s is below %s" [Version b; MinVersion f]] else []
       end.
Definition feature_reasons (f : Floor) (b : Build) : list error :=
  match RequireFeatures f with
  | [] => []
  | req =>
    let missing := sort_strings (filter (λ name, name ∉ default [] (Features b)) req) in
    match Features b with
    | None => [ErrFmt "build reports no features; requires " missing]
    | Some _ => match missing with [] => [] | _ => [ErrFmt "missing features " missing] end
    end
  end.
Definition clean_reasons (f : Floor) (b : Build) : list error :=
  if RequireCleanBuild f then
    if decide (Commit b = "") then [ErrText "build has no source revision"]
    else match Modified b with
         | None => [ErrText "build source state is unknown"]
         | Some true => [ErrText "build is from a modified source tree"]
         | Some false => []
         end
  else [].

Definition Evaluate (f : option Floor) (b : Build) : Verdict :=
  match f with
  | None => {| Satisfied := true; Reasons := [] |}
  | Some f =>
    let reasons := version_reasons f b ++ feature_reasons f b ++ clean_reasons f b in
    {| Satisfied := bool_decide (length reasons = 0%nat); Reasons := reasons |}
  end.

(** ** Precedence is a total order *)

(** A three-way comparison that orders its type. *)
Record is_order {A} (cmp : A → A → Z) : Prop := {
  o_eq : ∀ a b, cmp a b = 0 ↔ a = b;
  o_sym : ∀ a b, cmp b a = - cmp a b;
  o_trans : ∀ a b c, cmp a b < 0 → cmp b c < 0 → cmp a c < 0;
}.

Lemma compare_uint_order : is_order compare_uint.
Proof.
  unfold compare_uint. split; intros.
  - destruct (Z.ltb_spec a b), (Z.ltb_spec b a); lia.
  - destruct (Z.ltb_spec a b), (Z.ltb_spec b a); lia.
  - destruct (Z.ltb_spec a b), (Z.ltb_spec b a), (Z.ltb_spec b c), (Z.ltb_spec c b),
      (Z.ltb_spec a c), (Z.ltb_spec c a); lia.
Qed.

Lemma order_comap {A B} (f : A → B) (cmp : B → B → Z) :
  (∀ a b, f a = f b → a = b) → is_order cmp → is_order (λ a b, cmp (f a) (f b)).
Proof.
  intros Hf [E S T]. split; [|auto|eauto]. intros a b. rewrite E. split; [apply Hf|by intros ->].
Qed.

Lemma o_refl {A} (cmp : A → A → Z) : is_order cmp → ∀ a, cmp a a = 0.
Proof. intros [E _ _] a. by apply E. Qed.

Lemma lex_order {A} (cmp : A → A → Z) : is_order cmp → is_order (lex cmp).
Proof.
  intros [E S T]. split.
  - induction a as [|x a IH]; intros [|y b]; simpl; try (split; [lia|done]); [done|].
    case_decide as Hxy.
    + apply E in Hxy as ->. rewrite IH. naive_solver.
    + split; [done|]. intros [= -> ->]. by rewrite (proj2 (E y y)) in Hxy.
  - induction a as [|x a IH]; intros [|y b]; simpl; try lia.
    rewrite (S x y). destruct (decide (cmp x y = 0)), (decide (- cmp x y = 0)); try lia. apply IH.
  - induction a as [|x a IH]; intros [|y b] [|z c]; simpl; try lia.
    destruct (decide (cmp x y = 0)) as [Hxy|Hxy].
    + apply E in Hxy as ->. destruct (decide (cmp y z = 0)); [apply IH|lia].
    + destruct (decide (cmp y z = 0)) as [Hyz|Hyz].
      * apply E in Hyz as ->. destruct (decide (cmp x z = 0)); lia.
      * intros H1 H2. pose proof (T _ _ _ H1 H2). destruct (decide (cmp x z = 0)); lia.
Qed.

Lemma strings_Compare_order : is_order strings_Compare.
Proof.
  unfold strings_Compare. apply (order_comap bytes); [apply (inj bytes)|].
  apply lex_order, (order_comap b2z); [|apply compare_uint_order].
  intros a b Hab. by rewrite <-(z2b_b2z a), Hab, z2b_b2z.
Qed.

(** *** Decimals without leading zeros are determined by their value *)

Lemma digit_range c d : digit c = Some d → 0 <= d <= 9.
Proof. unfold digit. case_match eqn:E; [|done]. intros [= <-]. lia. Qed.

Lemma digit_inj c c' d : digit c = Some d → digit c' = Some d → c = c'.
Proof.
  unfold digit. repeat case_match; try done. intros [= <-] [= Hcc].
  assert (b2z c = b2z c') as Heq by lia. by rewrite <-(z2b_b2z c), Heq, z2b_b2z.
Qed.

Lemma digits_go_bounds l : ∀ acc n, 0 <= acc → digits_go l acc = Some n →
  acc * 10 ^ Z.of_nat (length l) <= n < (acc + 1) * 10 ^ Z.of_nat (length l).
Proof.
  induction l as [|c l IH]; intros acc n Hacc; simpl; [intros [= <-]; lia|].
  destruct (digit c) as [d|] eqn:Ed; [|done]. apply digit_range in Ed. intros H.
  apply IH in H; [|lia]. rewrite Nat2Z.inj_succ, Z.pow_succ_r by lia. nia.
Qed.

Lemma digits_go_inj l1 : ∀ l2 a1 a2 n, length l1 = length l2 → 0 <= a1 → 0 <= a2 →
  digits_go l1 a1 = Some n → digits_go l2 a2 = Some n → a1 = a2 ∧ l1 = l2.
Proof.
  induction l1 as [|c l1 IH]; intros [|c' l2] a1 a2 n Hlen H1 H2; simpl; try done; [naive_solver|].
  destruct (digit c) as [d|] eqn:Ed; [|done]. destruct (digit c') as [d'|] eqn:Ed'; [|done].
  pose proof (digit_range _ _ Ed). pose proof (digit_range _ _ Ed').
  injection Hlen as Hlen. intros G1 G2.
  destruct (IH l2 (a1 * 10 + d) (a2 * 10 + d') n Hlen ltac:(lia) ltac:(lia) G1 G2) as [Heq ->].
  assert (a1 = a2 ∧ d = d') as [-> ->] by lia. by rewrite (digit_inj _ _ _ Ed Ed').
Qed.

Lemma numericIdentifier_digits s n : numericIdentifier s = Some n →
  digits_go (bytes s) 0 = Some n ∧ ∃ c l, bytes s = c :: l ∧ (c = "0"%char → l = []).
Proof.
  unfold numericIdentifier, ParseUint. case_decide as Hs; [done|].
  destruct (bool_decide _ && bool_decide _) eqn:Ez; [done|].
  destruct (decide _); [|done]. destruct (bytes s) as [|c l] eqn:Eb; [done|].
  destruct (digits_go (c :: l) 0) as [m|] eqn:Ed; [|done]. destruct (m <? _); [|done].
  intros [= <-]. split; [done|]. exists c, l. split; [done|]. intros ->.
  rewrite andb_false_iff, !bool_decide_eq_false in Ez. simpl in Ez.
  destruct Ez as [Hlen|?]; [destruct l; [done|simpl in Hlen; lia]|done].
Qed.

(** A decimal of more than one digit has at least the value its length says. *)
Lemma numeric_length s n : numericIdentifier s = Some n →
  ∃ c l, bytes s = c :: l ∧ n < 10 ^ Z.of_nat (length (c :: l)) ∧
    (l ≠ [] → 10 ^ Z.of_nat (length l) <= n).
Proof.
  intros (Hd & c & l & Hb & Hz)%numericIdentifier_digits. exists c, l. split; [done|].
  rewrite Hb in Hd. pose proof (digits_go_bounds _ 0 n ltac:(lia) Hd). split; [lia|].
  intros Hl. simpl in Hd. destruct (digit c) as [d|] eqn:Ed; [|done].
  pose proof (digit_range _ _ Ed). apply digits_go_bounds in Hd; [|lia].
  destruct (decide (d = 0)) as [->|]; [|nia].
  assert (c = "0"%char) as -> by (by apply (digit_inj _ _ 0)). by destruct Hl; apply Hz.
Qed.

Lemma numericIdentifier_inj a b n :
  numericIdentifier a = Some n → numericIdentifier b = Some n → a = b.
Proof.
  intros Ha Hb. apply numericIdentifier_digits in Ha as Ha'. apply numericIdentifier_digits in Hb as Hb'.
  destruct (numeric_length _ _ Ha) as (c & l & Ea & Hua & Hla).
  destruct (numeric_length _ _ Hb) as (c' & l' & Eb & Hub & Hlb).
  assert (∀ k k' : nat, (k < k')%nat → 10 ^ Z.of_nat (S k) <= 10 ^ Z.of_nat k') as Hpow
    by (intros; apply Z.pow_le_mono_r; lia).
  assert (length l = length l') as Hlen.
  { destruct (Nat.lt_trichotomy (length l) (length l')) as [Hlt|[?|Hlt]]; [exfalso|done|exfalso];
      pose proof (Hpow _ _ Hlt); simpl length in *.
    - specialize (Hlb ltac:(destruct l'; [simpl in Hlt; lia|done])). lia.
    - specialize (Hla ltac:(destruct l; [simpl in Hlt; lia|done])). lia. }
  apply (inj bytes). destruct Ha' as [Ha' _], Hb' as [Hb' _]. rewrite Ea in *. rewrite Eb in *.
  apply (digits_go_inj (c :: l) (c' :: l') 0 0 n); [simpl; lia|lia|lia|done|done].
Qed.

Lemma comparePrerelease_order : is_order comparePrerelease.
Proof.
  destruct compare_uint_order as [E S T], strings_Compare_order as [E' S' T'].
  unfold comparePrerelease. split.
  - intros a b. destruct (numericIdentifier a) as [n|] eqn:Ea, (numericIdentifier b) as [m|] eqn:Eb.
    + rewrite E. split; [intros ->; by eapply numericIdentifier_inj|intros ->; congruence].
    + split; [lia|intros ->; congruence].
    + split; [lia|intros ->; congruence].
    + apply E'.
  - intros a b. destruct (numericIdentifier a), (numericIdentifier b); auto; lia.
  - intros a b c.
    destruct (numericIdentifier a), (numericIdentifier b), (numericIdentifier c); eauto; lia.
Qed.

(** Comparing one component after the other. *)
Lemma order_then {A B} (c1 : A → A → Z) (c2 : B → B → Z) : is_order c1 → is_order c2 →
  is_order (λ x y : A * B, if decide (c1 x.1 y.1 = 0) then c2 x.2 y.2 else c1 x.1 y.1).
Proof.
  intros [E S T] [E' S' T']. split.
  - intros [a b] [a' b']. simpl. case_decide as H1.
    + apply E in H1 as ->. rewrite E'. naive_solver.
    + split; [done|]. intros [= -> ->]. by destruct H1; apply E.
  - intros [a b] [a' b']. simpl. rewrite (S a a').
    destruct (decide (c1 a a' = 0)), (decide (- c1 a a' = 0)); try lia. apply S'.
  - intros [a b] [a' b'] [a'' b'']. simpl.
    destruct (decide (c1 a a' = 0)) as [H1|H1]; [apply E in H1 as ->|];
      destruct (decide (c1 a' a'' = 0)) as [H2|H2].
    + apply T'.
    + lia.
    + apply E in H2 as ->. destruct (decide (c1 a a'' = 0)); lia.
    + intros G1 G2. pose proof (T _ _ _ G1 G2). destruct (decide (c1 a a'' = 0)); lia.
Qed.

Lemma compare_pre_order : is_order compare_pre.
Proof.
  destruct (lex_order _ comparePrerelease_order) as [E S T]. unfold compare_pre. split.
  - intros [|x a] [|y b]; try (split; [lia|done]); [done|apply E].
  - intros [|x a] [|y b]; try lia. apply S.
  - intros [|x a] [|y b] [|z c]; try lia. apply T.
Qed.

Lemma Compare_order_by_fields : is_order Compare.
Proof.
  set (key := λ r, (Major r, (Minor r, (Patch r, Pre r)))).
  assert (∀ r o, Compare r o = (if decide (compare_uint (Major r) (Major o) = 0) then
    if decide (compare_uint (Minor r) (Minor o) = 0) then
    if decide (compare_uint (Patch r) (Patch o) = 0) then compare_pre (Pre r) (Pre o)
    else compare_uint (Patch r) (Patch o) else compare_uint (Minor r) (Minor o)
    else compare_uint (Major r) (Major o))) as Heq.
  { assert (∀ a b k, (if decide (a = b) then k else if a <? b then -1 else 1) =
      (if decide (compare_uint a b = 0) then k else compare_uint a b)) as Hstep.
    { intros a b k. unfold compare_uint.
      destruct (Z.ltb_spec a b), (Z.ltb_spec b a), (decide (a = b)); try lia; done. }
    intros r o. unfold Compare. cbn [first_difference]. by rewrite !Hstep. }
  pose proof (order_then _ _ compare_uint_order (order_then _ _ compare_uint_order
    (order_then _ _ compare_uint_order compare_pre_order))) as Hord.
  apply (order_comap key) in Hord.
  - destruct Hord as [E S T]. simpl in *.
    split; intros; rewrite ?Heq in *; [apply E|apply S|by eapply T].
  - intros [] [] H. by injection H as -> -> -> ->.
Qed.

(** release precedence is a total order on releases. Two releases compare
    equal only when they are the same, comparing them the other way round
    negates the result, and precedence is transitive; a prerelease precedes its
    release. *)
Theorem Compare_order :
  (∀ r o, Compare r o = 0 ↔ r = o) ∧ (∀ r o, Compare o r = - Compare r o) ∧
  (∀ r o q, Compare r o < 0 → Compare o q < 0 → Compare r q < 0) ∧
  (∀ major minor patch x p,
     Compare {| Major := major; Minor := minor; Patch := patch; Pre := x :: p |}
             {| Major := major; Minor := minor; Patch := patch; Pre := [] |} = -1).
Proof.
  destruct Compare_order_by_fields as [E S T]. split_and!; try done.
  intros. unfold Compare. simpl. by rewrite !decide_True.
Qed.

(** ** Floors *)

(** What a build must be to meet a floor. *)
Definition meets (f : Floor) (b : Build) : Prop :=
  (MinVersion f ≠ "" → ∃ min got, ParseRelease (MinVersion f) = Ok min ∧
     ParseRelease (Version b) = Ok got ∧ 0 <= Compare got min) ∧
  (RequireFeatures f ≠ [] → ∃ fs, Features b = Some fs ∧ ∀ n, n ∈ RequireFeatures f → n ∈ fs) ∧
  (RequireCleanBuild f = true → Commit b ≠ "" ∧ Modified b = Some false).

Lemma version_reasons_nil f b : version_reasons f b = [] ↔
  (MinVersion f ≠ "" → ∃ min got, ParseRelease (MinVersion f) = Ok min ∧
     ParseRelease (Version b) = Ok got ∧ 0 <= Compare got min).
Proof.
  unfold version_reasons. case_decide as Hm; [naive_solver|].
  destruct (ParseRelease (MinVersion f)) as [min|], (ParseRelease (Version b)) as [got|];
    try (split; [done|]; intros H; by destruct (H Hm) as (? & ? & ? & ? & ?)).
  destruct (Z.ltb_spec (Compare got min) 0); split; try done; [|naive_solver].
  intros Hx. destruct (Hx Hm) as (? & ? & [= <-] & [= <-] & ?). lia.
Qed.

Lemma feature_reasons_nil f b : feature_reasons f b = [] ↔
  (RequireFeatures f ≠ [] → ∃ fs, Features b = Some fs ∧ ∀ n, n ∈ RequireFeatures f → n ∈ fs).
Proof.
  unfold feature_reasons. destruct (RequireFeatures f) as [|x req] eqn:Er; [naive_solver|].
  rewrite <-Er. assert (RequireFeatures f ≠ []) as Hne by (by rewrite Er). clear Er.
  destruct (Features b) as [fs|]; simpl.
  2:{ split; [done|]. intros H. by destruct (H Hne) as (? & ? & _). }
  set (missing := sort_strings _).
  assert (∀ n, n ∈ missing ↔ n ∉ fs ∧ n ∈ RequireFeatures f) as Hmiss.
  { intros n. unfold missing. by rewrite elem_of_sort_strings, list_elem_of_filter. }
  destruct missing as [|y l].
  - split; [|done]. intros _ _. exists fs. split; [done|]. intros n Hn.
    destruct (decide (n ∈ fs)); [done|]. by assert (n ∈ ([] : list string)) as ?%elem_of_nil by (by apply Hmiss).
  - split; [done|]. intros H. destruct (H Hne) as (fs' & [= <-] & Hall).
    destruct (proj1 (Hmiss y)) as [Hno Hin]; [left|]. by apply Hall in Hin.
Qed.

Lemma clean_reasons_nil f b : clean_reasons f b = [] ↔
  (RequireCleanBuild f = true → Commit b ≠ "" ∧ Modified b = Some false).
Proof.
  unfold clean_reasons. destruct (RequireCleanBuild f); [|naive_solver].
  case_decide; [naive_solver|]. destruct (Modified b) as [[]|]; naive_solver.
Qed.

Lemma Evaluate_spec f b : Satisfied (Evaluate (Some f) b) = true ↔ meets f b.
Proof.
  unfold Evaluate, meets. simpl. rewrite bool_decide_eq_true, length_zero_iff_nil.
  rewrite <-version_reasons_nil, <-feature_reasons_nil, <-clean_reasons_nil.
  split; [intros [? [? ?]%app_nil]%app_nil; done|by intros (-> & -> & ->)].
Qed.

Lemma Compare_le_trans r o q : Compare r o <= 0 → Compare o q <= 0 → Compare r q <= 0.
Proof.
  destruct Compare_order_by_fields as [E S T]. intros H1 H2.
  destruct (decide (Compare r o = 0)) as [->%E|]; [done|].
  destruct (decide (Compare o q = 0)) as [<-%E|]; [done|].
  pose proof (T r o q). lia.
Qed.

Lemma Validate_version f : Validate (Some f) = None → MinVersion f ≠ "" →
  ∃ r, ParseRelease (MinVersion f) = Ok r.
Proof.
  unfold Validate. intros Hv Hm. repeat case_decide; try done;
    (destruct (ParseRelease (MinVersion f)); [eauto|done]).
Qed.

Lemma Within_spec f prev : Within f (Some prev) = true ↔
  (MinVersion f ≠ "" → MinVersion prev ≠ "" ∧ ∃ min was, ParseRelease (MinVersion f) = Ok min ∧
     ParseRelease (MinVersion prev) = Ok was ∧ Compare min was <= 0) ∧
  (∀ n, n ∈ RequireFeatures f → n ∈ RequireFeatures prev) ∧
  (RequireCleanBuild f = true → RequireCleanBuild prev = true).
Proof.
  unfold Within. rewrite !andb_true_iff, forallb_forall.
  assert (negb (RequireCleanBuild f) || RequireCleanBuild prev = true ↔
    (RequireCleanBuild f = true → RequireCleanBuild prev = true)) as ->
    by (destruct (RequireCleanBuild f), (RequireCleanBuild prev); naive_solver).
  setoid_rewrite bool_decide_eq_true. setoid_rewrite <-list_elem_of_In.
  match goal with |- (?v = true ∧ _) ∧ _ ↔ ?V ∧ _ => enough (v = true ↔ V) as -> by tauto end.
  case_decide as Hf; [naive_solver|]. case_decide as Hp; [naive_solver|].
  destruct (ParseRelease (MinVersion f)) as [min|], (ParseRelease (MinVersion prev)) as [was|];
    try naive_solver.
  rewrite Z.leb_le. naive_solver.
Qed.

(** The weakest build a floor admits. *)
Definition weakest (f : Floor) : Build := {|
  Version := if decide (MinVersion f = "") then "unversioned" else MinVersion f;
  Commit := if RequireCleanBuild f then "revision" else "";
  Modified := Some (negb (RequireCleanBuild f));
  Features := Some (RequireFeatures f) |}.

Lemma weakest_meets f : Validate (Some f) = None → meets f (weakest f).
Proof.
  intros Hv. unfold meets, weakest. simpl. split_and!.
  - intros Hm. destruct (Validate_version f Hv Hm) as [r Hr]. rewrite decide_False by done.
    exists r, r. split_and!; [done..|]. by rewrite (o_refl _ Compare_order_by_fields).
  - eauto.
  - by intros ->.
Qed.

(** C39: lowering a floor is exactly weakening it. For valid floors, [Within]
    accepts the new floor exactly when every build the previous floor admits
    also meets the new one. *)
Theorem Within_exact f prev :
  Validate (Some f) = None → Validate (Some prev) = None →
  Within f (Some prev) = true ↔
  ∀ b, Satisfied (Evaluate (Some prev) b) = true → Satisfied (Evaluate (Some f) b) = true.
Proof.
  intros Hf Hp. rewrite Within_spec. setoid_rewrite Evaluate_spec. split.
  - intros (Hv & Hn & Hc) b (Bv & Bn & Bc). unfold meets. split_and!; [| |auto].
    + intros (Hpm & min & was & -> & Hwas & Hle)%Hv.
      destruct (Bv Hpm) as (was' & got & Hwas' & -> & Hge). rewrite Hwas in Hwas'.
      injection Hwas' as <-. exists min, got. split_and!; [done..|].
      destruct Compare_order_by_fields as [_ S _].
      pose proof (Compare_le_trans min was got). pose proof (S got was). pose proof (S min got). lia.
    + intros Hne. destruct (RequireFeatures f) as [|x l] eqn:Er; [done|].
      assert (RequireFeatures prev ≠ []) as Hpne.
      { intros Hnil. specialize (Hn x ltac:(left)). rewrite Hnil in Hn. by apply elem_of_nil in Hn. }
      destruct (Bn Hpne) as (fs & -> & Hfs). exists fs. split; [done|]. auto.
  - intros Hall. destruct (Hall _ (weakest_meets prev Hp)) as (Bv & Bn & Bc). simpl in *. split_and!.
    + intros Hm. destruct (Bv Hm) as (min & got & Hmin & Hgot & Hge).
      case_decide as Hpm; [by vm_compute in Hgot|]. split; [done|].
      exists min, got. split_and!; [done..|].
      destruct Compare_order_by_fields as [_ S _]. rewrite (S got min). lia.
    + intros n Hn. destruct Bn as (fs & [= <-] & Hfs); [|by apply Hfs].
      intros Hnil. rewrite Hnil in Hn. by apply elem_of_nil in Hn.
    + intros Hc. destruct (Bc Hc) as [? _]. by destruct (RequireCleanBuild prev).
Qed.

Lemma Within_exact_witness :
  let f := {| Schema := 1; MinVersion := "0.4.0-alpha"; RequireFeatures := ["journal"];
              RequireCleanBuild := false |} in
  let prev := {| Schema := 1; MinVersion := "0.4.0"; RequireFeatures := ["journal"; "timers"];
                 RequireCleanBuild := true |} in
  Validate (Some f) = None ∧ Validate (Some prev) = None ∧
  ∀ b, Satisfied (Evaluate (Some prev) b) = true → Satisfied (Evaluate (Some f) b) = true.
Proof.
  intros f prev.
  assert (Validate (Some f) = None) as Hf by (vm_compute; reflexivity).
  assert (Validate (Some prev) = None) as Hp by (vm_compute; reflexivity).
  split; [exact Hf|]. split; [exact Hp|].
  apply (proj1 (Within_exact f prev Hf Hp)). vm_compute. reflexivity.
Defined.
