(* ===== verification/Calendar.v ===== *)
(** * Package timers: calendar expressions

    Translates [internal/timers/calendar.go]: the parser of [OnCalendar=] and
    the search for the next and the previous matching instant. *)

From S2P Require Import Prelude GoStrings GoText GoTime.
From Stdlib Require Import Ascii.

#[local] Open Scope Z_scope.
#[local] Open Scope go_scope.

Record Calendar := {
  Raw : string;
  RestrictWeekdays : bool;
  Weekdays : list bool;  (** indexed by weekday, Sunday first *)
  Year : Z; Month : Z; Day : Z;  (** -1 is a wildcard *)
  CHour : Z; CMinute : Z; CSecond : Z;
}.

Definition no_weekdays : list bool := replicate 7 false.

Definition AllowsWeekday (c : Calendar) (d : Z) : bool :=
  negb (RestrictWeekdays c) || default false (Weekdays c !! Z.to_nat d).

(** ** Parsing *)

Section parse.
Context {UC : UnicodeCase}.

Definition weekdayName (s : string) : option Z :=
  let s := ToLower (TrimSpace s) in
  if decide (s ∈ ["sun"; "sunday"]) then Some 0
  else if decide (s ∈ ["mon"; "monday"]) then Some 1
  else if decide (s ∈ ["tue"; "tues"; "tuesday"]) then Some 2
  else if decide (s ∈ ["wed"; "wednesday"]) then Some 3
  else if decide (s ∈ ["thu"; "thur"; "thurs"; "thursday"]) then Some 4
  else if decide (s ∈ ["fri"; "friday"]) then Some 5
  else if decide (s ∈ ["sat"; "saturday"]) then Some 6
  else None.

(** A digit outside ASCII passes the test of the loop and fails [Atoi]; both
    are errors, which the callers replace by their own. *)
Definition parseBounded (s : string) (min max : Z) : option Z :=
  if decide (s = "") then None
  else if forallb (λ c, bool_decide (is_Some (digit c))) (bytes s) then
    match Atoi s with
    | Some n => if (n <? min) || (max <? n) then None else Some n
    | None => None
    end
  else None.
Definition parseWildcardInt (s : string) (min max : Z) : option Z :=
  if decide (s = "*") then Some (-1) else parseBounded s min max.

Definition colon : ascii := ":"%char.
Definition hyphen : ascii := "-"%char.
Definition comma : ascii := ","%char.

Definition parseTimeOfDay (s : string) : result (Z * Z * Z) :=
  match Split s colon with
  | h :: m :: rest =>
    if decide (length rest <= 1)%nat then
      match parseBounded h 0 23 with
      | None => Fail (ErrFmt "invalid hour in %q" [s])
      | Some hour =>
        match parseBounded m 0 59 with
        | None => Fail (ErrFmt "invalid minute in %q" [s])
        | Some minute =>
          match rest with
          | [] => Ok (hour, minute, 0)
          | sec :: _ =>
            match parseBounded sec 0 59 with
            | None => Fail (ErrFmt "invalid second in %q" [s])
            | Some second => Ok (hour, minute, second)
            end
          end
        end
      end
    else Fail (ErrFmt "invalid time of day %q" [s])
  | _ => Fail (ErrFmt "invalid time of day %q" [s])
  end.

Definition isDatePattern (s : string) : bool := bool_decide (length (Split s hyphen) = 3%nat).

Definition parseDatePattern (s : string) : result (Z * Z * Z) :=
  match Split s hyphen with
  | [y; m; d] =>
    match parseWildcardInt y 1 9999 with
    | None => Fail (ErrFmt "invalid year in %q" [s])
    | Some year =>
      match parseWildcardInt m 1 12 with
      | None => Fail (ErrFmt "invalid month in %q" [s])
      | Some month =>
        match parseWildcardInt d 1 31 with
        | None => Fail (ErrFmt "invalid day in %q" [s])
        | Some day => Ok (year, month, day)
        end
      end
    end
  | _ => Fail (ErrFmt "invalid date pattern %q" [s])
  end.

(** The text before the first dot or comma. *)
Fixpoint before_any (l : list ascii) : list ascii :=
  match l with
  | [] => []
  | c :: l' => if decide (c = "."%char ∨ c = comma) then [] else c :: before_any l'
  end.
Definition looksLikeWeekdays (s : string) : bool :=
  bool_decide (is_Some (weekdayName (str (before_any (bytes s))))).

Definition add_day (days : list Z) (d : Z) : list Z :=
  if decide (d ∈ days) then days else days ++ [d].
(** The loop over a range of weekdays: from [d] through the week to [b]. *)
Fixpoint add_range (fuel : nat) (days : list Z) (d b : Z) : list Z :=
  let days := add_day days d in
  if d =? b then days
  else match fuel with
       | O => days
       | S fuel => add_range fuel days ((d + 1) mod 7) b
       end.

Fixpoint parse_parts (parts : list string) (days : list Z) : result (list Z) :=
  match parts with
  | [] => Ok days
  | part :: parts' =>
    let part := TrimSpace part in
    if decide (part = "") then Fail (ErrText "empty weekday list")
    else
      let '(from, to, ok) := Cut part ".." in
      if ok : bool then
        match weekdayName from with
        | None => Fail (ErrFmt "invalid weekday %q" [from])
        | Some a =>
          match weekdayName to with
          | None => Fail (ErrFmt "invalid weekday %q" [to])
          | Some b => parse_parts parts' (add_range 6 days a b)
          end
        end
      else
        match weekdayName part with
        | None => Fail (ErrFmt "invalid weekday %q" [part])
        | Some wd => parse_parts parts' (add_day days wd)
        end
  end.
Definition parseWeekdays (s : string) : result (list Z) :=
  days <-? parse_parts (Split s comma) [] ;;
  match days with [] => Fail (ErrText "empty weekday list") | _ => Ok days end.

(** The state of the loop over the fields before the time of day. *)
Record fields_state := { fs_cal : Calendar; sawDate : bool; sawWeekday : bool }.

Definition set_date (c : Calendar) (x : Z * Z * Z) : Calendar := {|
  Raw := Raw c; RestrictWeekdays := RestrictWeekdays c; Weekdays := Weekdays c;
  Year := x.1.1; Month := x.1.2; Day := x.2;
  CHour := CHour c; CMinute := CMinute c; CSecond := CSecond c |}.
Definition set_days (w : list bool) (days : list Z) : list bool :=
  foldl (λ w d, <[Z.to_nat d := true]> w) w days.
Definition set_weekdays (c : Calendar) (days : list Z) : Calendar := {|
  Raw := Raw c; RestrictWeekdays := true;
  Weekdays := set_days (Weekdays c) days;
  Year := Year c; Month := Month c; Day := Day c;
  CHour := CHour c; CMinute := CMinute c; CSecond := CSecond c |}.

Definition invalid (raw : string) : error := ErrFmt "invalid calendar expression %q" [raw].
Definition invalid_because (raw : string) (e : error) : error :=
  ErrWrap ("invalid calendar expression: " +:+ raw) e.

Fixpoint parse_fields (raw : string) (fs : list string) (st : fields_state) : result fields_state :=
  match fs with
  | [] => Ok st
  | f :: fs' =>
    if isDatePattern f then
      if sawDate st then Fail (invalid raw)
      else match parseDatePattern f with
           | Fail e => Fail (invalid_because raw e)
           | Ok x => parse_fields raw fs' {| fs_cal := set_date (fs_cal st) x; sawDate := true;
                                             sawWeekday := sawWeekday st |}
           end
    else if looksLikeWeekdays f then
      match parseWeekdays f with
      | Fail e => Fail (invalid_because raw e)
      | Ok days => parse_fields raw fs' {| fs_cal := set_weekdays (fs_cal st) days;
                                           sawDate := sawDate st; sawWeekday := true |}
      end
    else Fail (invalid raw)
  end.

Definition wildcard (raw : string) (h m s : Z) : Calendar := {|
  Raw := raw; RestrictWeekdays := false; Weekdays := no_weekdays; Year := -1; Month := -1;
  Day := -1; CHour := h; CMinute := m; CSecond := s |}.

Definition ParseCalendar (s : string) : result Calendar :=
  let raw := TrimSpace s in
  if decide (raw = "") then Fail (ErrText "empty calendar expression")
  else if EqualFold raw "daily" then Ok (wildcard raw 0 0 0)
  else
    let fields := Fields raw in
    match last fields with
    | None => Fail (ErrText "index out of range")
    | Some tod =>
      match parseTimeOfDay tod with
      | Fail _ => Fail (invalid raw)
      | Ok (hour, minute, second) =>
        let rest := take (length fields - 1) fields in
        match rest with
        | [] => Fail (invalid raw)
        | _ =>
          st <-? parse_fields raw rest {| fs_cal := wildcard raw hour minute second;
                                          sawDate := false; sawWeekday := false |} ;;
          if negb (sawDate st) && negb (sawWeekday st) then Fail (invalid raw) else Ok (fs_cal st)
        end
      end
    end.

End parse.

(** The limit of [engine.go], which the unit parser applies too. *)
Definition MaxCalendarExpressions : Z := 64.
