(* ===== verification/UnitTypes.v ===== *)
(** * Data of package unit and of the trigger packages

    The records of [internal/unit/types.go], with the values of the packages
    it refers to: the calendar expressions of [Calendar], [registry.Key],
    [eventlog.Trigger] and [pathwatch.Spec].  A Go string type with constants stays a string; a
    duration is its number of nanoseconds. *)

From S2P Require Import Prelude Calendar.

#[local] Open Scope Z_scope.

Definition Duration := Z.
Definition Nanosecond : Duration := 1.
Definition Microsecond : Duration := 1000.
Definition Millisecond : Duration := 1000000.
Definition Second : Duration := 1000000000.
Definition Minute : Duration := 60 * Second.
Definition Hour : Duration := 60 * Minute.

Definition Kind := string.
Definition KindService : Kind := "service".
Definition KindTimer : Kind := "timer".
Definition KindTarget : Kind := "target".
Definition KindRegistry : Kind := "registry".
Definition KindEventLog : Kind := "eventlog".
Definition KindPath : Kind := "path".

Definition ServiceType := string.
Definition TypeSimple : ServiceType := "simple".
Definition TypeOneshot : ServiceType := "oneshot".
Definition TypeNotify : ServiceType := "notify".
Definition TypeSCM : ServiceType := "scm".
Definition TypeScheduledTask : ServiceType := "scheduled-task".

Definition RestartPolicy := string.
Definition RestartNo : RestartPolicy := "no".
Definition RestartAlways : RestartPolicy := "always".
Definition RestartOnFailure : RestartPolicy := "on-failure".
Definition RestartOnWatchdog : RestartPolicy := "on-watchdog".

Definition WatchdogMode := string.
Definition WatchdogModeNotify : WatchdogMode := "notify".
Definition WatchdogModeTCP : WatchdogMode := "tcp".
Definition WatchdogModeHTTP : WatchdogMode := "http".

Inductive Hive := HKLM | HKCU.
Record Key := { KeyHive : Hive; KeyPath : string; KeyRaw : string }.
Record Trigger := { Channel : string; EventID : Z; TriggerRaw : string }.
Record PathwatchSpec := { PathRaw : string }.

Record EnvVar := { EnvName : string; EnvValue : string }.

Record TimerSpec := {
  OnBootSec : Duration; OnStartupSec : Duration; OnUnitActiveSec : Duration;
  OnCalendar : list Calendar;
  Persistent : bool;
  TimerUnit : string;
  OnBootSecSet : bool; OnStartupSecSet : bool; OnUnitActiveSecSet : bool;
}.

Record RegistrySpec := { RegistryChanged : list Key; RegistryUnit : string }.
Record EventLogSpec := { Triggers : list Trigger; EventLogUnit : string }.
Record PathSpec := {
  ExistsAny : bool;
  PathChanged : list PathwatchSpec;
  PathExists : list PathwatchSpec;
  PathUnit : string;
}.

Record ServiceSpec := {
  ReadinessMode : WatchdogMode;
  ReadinessEndpoint : string; ReadinessAddr : string; ReadinessURL : string;
  ReadinessExpectedStatus : Z;
  ReadinessIntervalSec : Duration; ReadinessTimeoutSec : Duration;
  Type_ : ServiceType;
  RemainAfterExit : bool;
  ServiceName : string; TaskName : string;
  ExecStart : list string; ExecStop : list string;
  WorkingDirectory : string;
  User : string; UserDeclared : bool;
  Environment : list EnvVar;
  Restart : RestartPolicy; RestartSec : Duration;
  RestartBackoff : string; RestartMaxDelaySec : Duration;
  TimeoutStartSec : Duration; TimeoutStopSec : Duration;
  NotifyAccess : string;
  WatchdogSec : Duration; WatchdogMode_ : WatchdogMode; WatchdogEndpoint : string;
  WatchdogExpectedStatus : Z; WatchdogAddr : string; WatchdogURL : string;
  WatchdogGraceSec : Duration; WatchdogTimeoutSec : Duration;
  WatchdogFailureThreshold : Z;
  MemoryMax : Z; ProcessLimit : Z; PriorityClass : string;
  CPUWeight : Z; WindowsCPUWeight : Z; WindowsCPUQuota : Z; CPUQuota : Z;
  IoPriority : string;
  RestartSecSet : bool; TimeoutStartSecSet : bool; TimeoutStopSecSet : bool;
  WatchdogSecSet : bool; WatchdogEndpointSet : bool; WatchdogExpectedStatusSet : bool;
  MemoryMaxSet : bool; ProcessLimitSet : bool; PriorityClassSet : bool;
  CPUWeightSet : bool; CPUQuotaSet : bool; IoPrioritySet : bool;
}.

Record Unit := {
  FormatVersion : Z;
  Name : string;
  Path : string;
  UnitKind : Kind;
  Description : string;
  Requires : list string; Wants : list string; BindsTo : list string;
  PartOf : list string; After : list string; Before : list string;
  RequiresInteractiveSession : bool;
  StartLimitInterval : Duration;
  StartLimitBurst : Z;
  Service : option ServiceSpec;
  Timer : option TimerSpec;
  Registry : option RegistrySpec;
  EventLog : option EventLogSpec;
  PathWatch : option PathSpec;
  WantedBy : list string;
}.

(** A unit with dependencies and nothing else, for examples. *)
Definition unit_with (name : string) (req wants binds part after before : list string) : Unit := {|
  FormatVersion := 1; Name := name; Path := ""; UnitKind := KindService; Description := "";
  Requires := req; Wants := wants; BindsTo := binds; PartOf := part;
  After := after; Before := before;
  RequiresInteractiveSession := false; StartLimitInterval := 10 * Second; StartLimitBurst := 5;
  Service := None; Timer := None; Registry := None; EventLog := None; PathWatch := None;
  WantedBy := [];
|}.

(** ** Assignable structs *)

#[global] Instance eta_ServiceSpec : Settable ServiceSpec := λ s, {|
  ReadinessMode := ReadinessMode s; ReadinessEndpoint := ReadinessEndpoint s;
  ReadinessAddr := ReadinessAddr s; ReadinessURL := ReadinessURL s;
  ReadinessExpectedStatus := ReadinessExpectedStatus s;
  ReadinessIntervalSec := ReadinessIntervalSec s; ReadinessTimeoutSec := ReadinessTimeoutSec s;
  Type_ := Type_ s; RemainAfterExit := RemainAfterExit s; ServiceName := ServiceName s;
  TaskName := TaskName s; ExecStart := ExecStart s; ExecStop := ExecStop s;
  WorkingDirectory := WorkingDirectory s; User := User s; UserDeclared := UserDeclared s;
  Environment := Environment s; Restart := Restart s; RestartSec := RestartSec s;
  RestartBackoff := RestartBackoff s; RestartMaxDelaySec := RestartMaxDelaySec s;
  TimeoutStartSec := TimeoutStartSec s; TimeoutStopSec := TimeoutStopSec s;
  NotifyAccess := NotifyAccess s; WatchdogSec := WatchdogSec s;
  WatchdogMode_ := WatchdogMode_ s; WatchdogEndpoint := WatchdogEndpoint s;
  WatchdogExpectedStatus := WatchdogExpectedStatus s; WatchdogAddr := WatchdogAddr s;
  WatchdogURL := WatchdogURL s; WatchdogGraceSec := WatchdogGraceSec s;
  WatchdogTimeoutSec := WatchdogTimeoutSec s;
  WatchdogFailureThreshold := WatchdogFailureThreshold s; MemoryMax := MemoryMax s;
  ProcessLimit := ProcessLimit s; PriorityClass := PriorityClass s; CPUWeight := CPUWeight s;
  WindowsCPUWeight := WindowsCPUWeight s; WindowsCPUQuota := WindowsCPUQuota s;
  CPUQuota := CPUQuota s; IoPriority := IoPriority s; RestartSecSet := RestartSecSet s;
  TimeoutStartSecSet := TimeoutStartSecSet s; TimeoutStopSecSet := TimeoutStopSecSet s;
  WatchdogSecSet := WatchdogSecSet s; WatchdogEndpointSet := WatchdogEndpointSet s;
  WatchdogExpectedStatusSet := WatchdogExpectedStatusSet s; MemoryMaxSet := MemoryMaxSet s;
  ProcessLimitSet := ProcessLimitSet s; PriorityClassSet := PriorityClassSet s;
  CPUWeightSet := CPUWeightSet s; CPUQuotaSet := CPUQuotaSet s; IoPrioritySet := IoPrioritySet s
|}.

#[global] Instance eta_Unit : Settable Unit := λ u, {|
  FormatVersion := FormatVersion u; Name := Name u; Path := Path u; UnitKind := UnitKind u;
  Description := Description u; Requires := Requires u; Wants := Wants u; BindsTo := BindsTo u;
  PartOf := PartOf u; After := After u; Before := Before u;
  RequiresInteractiveSession := RequiresInteractiveSession u;
  StartLimitInterval := StartLimitInterval u; StartLimitBurst := StartLimitBurst u;
  Service := Service u; Timer := Timer u; Registry := Registry u; EventLog := EventLog u;
  PathWatch := PathWatch u; WantedBy := WantedBy u
|}.

#[global] Instance eta_TimerSpec : Settable TimerSpec := λ t, {|
  OnBootSec := OnBootSec t; OnStartupSec := OnStartupSec t;
  OnUnitActiveSec := OnUnitActiveSec t; OnCalendar := OnCalendar t; Persistent := Persistent t;
  TimerUnit := TimerUnit t; OnBootSecSet := OnBootSecSet t;
  OnStartupSecSet := OnStartupSecSet t; OnUnitActiveSecSet := OnUnitActiveSecSet t
|}.

#[global] Instance eta_RegistrySpec : Settable RegistrySpec := λ r, {|
  RegistryChanged := RegistryChanged r; RegistryUnit := RegistryUnit r
|}.

#[global] Instance eta_EventLogSpec : Settable EventLogSpec := λ e, {|
  Triggers := Triggers e; EventLogUnit := EventLogUnit e
|}.

#[global] Instance eta_PathSpec : Settable PathSpec := λ p, {|
  ExistsAny := ExistsAny p; PathChanged := PathChanged p; PathExists := PathExists p;
  PathUnit := PathUnit p
|}.

(** ** Methods of types.go and readiness.go

    A method that is called on a pointer takes an option. *)

Definition type_IsExternalProxy (t : ServiceType) : bool :=
  bool_decide (t = TypeSCM) || bool_decide (t = TypeScheduledTask).

Definition IsSCM (s : option ServiceSpec) : bool :=
  match s with Some s => bool_decide (Type_ s = TypeSCM) | None => false end.
Definition IsScheduledTask (s : option ServiceSpec) : bool :=
  match s with Some s => bool_decide (Type_ s = TypeScheduledTask) | None => false end.
Definition IsExternalProxy (s : option ServiceSpec) : bool := IsSCM s || IsScheduledTask s.

Definition HasJobResourceLimits (s : option ServiceSpec) : bool :=
  match s with Some s => MemoryMaxSet s || ProcessLimitSet s | None => false end.

Definition WatchdogEnabled (s : option ServiceSpec) : bool :=
  match s with
  | Some sp => if IsExternalProxy s then false else WatchdogSecSet sp && (0 <? WatchdogSec sp)
  | None => false
  end.

Definition NeedsNotifyPipe (s : option ServiceSpec) : bool :=
  match s with
  | Some sp =>
    if IsExternalProxy s then false
    else if decide (Type_ sp = TypeNotify) then true
    else WatchdogEnabled s && bool_decide (WatchdogMode_ sp = WatchdogModeNotify)
  | None => false
  end.

Definition WatchdogProbeMode (s : option ServiceSpec) : bool :=
  match s with
  | Some s => bool_decide (WatchdogMode_ s = WatchdogModeTCP) || bool_decide (WatchdogMode_ s = WatchdogModeHTTP)
  | None => false
  end.

Definition HasReadinessProbe (s : option ServiceSpec) : bool :=
  match s with
  | Some s => bool_decide (ReadinessMode s = WatchdogModeTCP) || bool_decide (ReadinessMode s = WatchdogModeHTTP)
  | None => false
  end.

Definition WaitsForReadiness (s : option ServiceSpec) : bool :=
  match s with
  | Some sp => bool_decide (Type_ sp = TypeNotify) || HasReadinessProbe s
  | None => false
  end.
