(* ===== verification/UnitNames.v ===== *)
(** * Package unit: names and paths

    Translates [internal/unit/path.go] and [CompanionService] of [types.go],
    and shows that [NormalizeName] implements the [Naming] interface that
    package core builds on. *)

From S2P Require Import Prelude GoStrings UnitTypes.
From Stdlib Require Import Ascii.

#[local] Open Scope Z_scope.

Section names.
Context {UC : UnicodeCase}.

(** [name[i:]] with [i] the index of the last dot of a name that has one. *)
Fixpoint until_dot (l : list ascii) : list ascii :=
  match l with
  | c :: l' => if decide (c = "."%char) then [c] else c :: until_dot l'
  | [] => []
  end.
Definition from_last_dot (name : string) : string := str (reverse (until_dot (reverse (bytes name)))).

Definition KindFromName (name : string) : result Kind :=
  let n := ToLower name in
  if HasSuffix n ".service" then Ok KindService
  else if HasSuffix n ".timer" then Ok KindTimer
  else if HasSuffix n ".target" then Ok KindTarget
  else if HasSuffix n ".registry" then Ok KindRegistry
  else if HasSuffix n ".eventlog" then Ok KindEventLog
  else if HasSuffix n ".path" then Ok KindPath
  else if decide ("."%char ∈ bytes name)
  then Fail (ErrFmt "unsupported unit type %q" [from_last_dot name])
  else Fail (ErrFmt "unit name %q has no type suffix" [name]).

Definition NormalizeName (name : string) : string :=
  let name := ToLower (TrimSpace name) in
  if decide (name = "") then ""
  else match KindFromName name with
       | Ok _ => name
       | Fail _ => name +:+ ".service"
       end.

(** The bytes CheckLinkName rejects: [/ \ : * ? < > |] and the double quote. *)
Definition link_forbidden : list Z :=
  b2z <$> ["/"; "\"; ":"; "*"; "?"; "034"; "<"; ">"; "|"]%char.

Definition CheckLinkName (name : string) : option error :=
  if decide (name = "") then Some (ErrText "empty unit name")
  else if decide (name = "." ∨ name = "..") then Some (ErrFmt "unit name %q is not a file name" [name])
  else
    (fix check (ps : list (Z * list ascii)) : option error :=
       match ps with
       | [] => None
       | (r, bs) :: ps' =>
         if (r <? 0x20) || (r =? 0x7f)
         then Some (ErrFmt "unit name %q contains a control character" [name])
         else if decide (r ∈ link_forbidden)
         then Some (ErrFmt "unit name %q must be a single name without %q" [name; str bs])
         else check ps'
       end) (runes (bytes name)).

Definition isDriveLetter (b : ascii) : bool :=
  let z := b2z b in ((65 <=? z) && (z <=? 90)) || ((97 <=? z) && (z <=? 122)).
Definition isSlash (b : ascii) : bool := bool_decide (b = "\"%char ∨ b = "/"%char).

Definition WindowsAbs (p : string) : bool :=
  let p := TrimSpace p in
  if decide (p = "") then false
  else if HasPrefix p "\\" || HasPrefix p "//" then (2 <? Z.of_nat (String.length p))
  else match bytes p with
       | c0 :: c1 :: c2 :: _ => isDriveLetter c0 && bool_decide (c1 = ":"%char) && isSlash c2
       | _ => false
       end.

(** The bytes after the last separator, and what is left of trailing ones. *)
Fixpoint drop_slashes (l : list ascii) : list ascii :=
  match l with
  | c :: l' => if isSlash c then drop_slashes l' else l
  | [] => []
  end.
Fixpoint take_name (l : list ascii) : list ascii :=
  match l with
  | c :: l' => if isSlash c then [] else c :: take_name l'
  | [] => []
  end.
Definition UnitNameFromPath (path : string) : string :=
  let p := drop_slashes (reverse (bytes path)) in
  match p with
  | [] => path
  | _ => str (reverse (take_name p))
  end.

(** [base[:strings.LastIndex(base, ".")]], or all of it without a dot. *)
Fixpoint drop_extension (l : list ascii) : option (list ascii) :=
  match l with
  | [] => None
  | c :: l' => if decide (c = "."%char) then Some l' else drop_extension l'
  end.
Definition CompanionService (name : string) : string :=
  let name := NormalizeName name in
  let base := match drop_extension (reverse (bytes name)) with
              | Some l => str (reverse l)
              | None => name
              end in
  NormalizeName (base +:+ ".service").

(** ** Properties *)

Lemma canonical_app s t rs :
  canonical s → s ≠ "" → t ≠ "" →
  bytes t = concat (encode_rune <$> rs) → Forall scalar rs →
  Forall (λ r, rune_ToLower r = r) rs → (∀ r rs', rs = rs' ++ [r] → IsSpace r = false) →
  canonical (s +:+ t).
Proof.
  intros (qs & Hq & Hqs & Hql & [Hqh _]) Hs Ht Hr Hrs Hrl Hre. exists (qs ++ rs).
  rewrite bytes_app, Hq, Hr, fmap_app, concat_app. split_and!; try done; try by apply Forall_app.
  split.
  - intros r rs' Heq. destruct qs as [|q qs]; [destruct Hs; by apply (inj bytes)|].
    simplify_eq/=. by eapply Hqh.
  - intros r rs' Heq. destruct rs as [|x rs _] using rev_ind.
    { destruct Ht. by apply (inj bytes). }
    rewrite app_assoc in Heq. apply app_inj_tail in Heq as [_ <-]. by eapply Hre.
Qed.

Lemma canonical_service s : canonical s → s ≠ "" → canonical (s +:+ ".service").
Proof.
  intros Hc Hs. apply (canonical_app s ".service" (b2z <$> bytes ".service")); try done.
  - repeat constructor; unfold scalar; vm_compute; intuition discriminate.
  - repeat constructor.
  - intros r rs' Heq. destruct rs' as [|? [|? [|? [|? [|? [|? [|? [|? [|]]]]]]]]];
      simplify_eq/=. done.
Qed.

Lemma KindFromName_service s : canonical s → s ≠ "" →
  KindFromName (s +:+ ".service") = Ok KindService.
Proof.
  intros Hc Hs. unfold KindFromName. rewrite canonical_ToLower by by apply canonical_service.
  rewrite (proj2 (HasSuffix_spec _ _)); eauto.
Qed.

Lemma NormalizeName_canonical s : canonical (NormalizeName s).
Proof.
  unfold NormalizeName. pose proof (ToLower_TrimSpace_canonical s) as Hc. case_decide as Hs.
  { exists []. repeat split; try constructor; intros; by destruct rs'. }
  case_match; [done|]. by apply canonical_service.
Qed.

Lemma NormalizeName_idempotent s : NormalizeName (NormalizeName s) = NormalizeName s.
Proof.
  pose proof (NormalizeName_canonical s) as Hc.
  unfold NormalizeName at 1. rewrite canonical_TrimSpace, canonical_ToLower by done.
  case_decide as Hn; [done|]. revert Hc Hn. unfold NormalizeName.
  pose proof (ToLower_TrimSpace_canonical s) as Hc. case_decide as Hs; [done|].
  case_match eqn:E; intros Hc' Hn; [by rewrite E|]. by rewrite KindFromName_service.
Qed.

#[global] Instance unit_naming : Naming := {|
  unit_NormalizeName := NormalizeName;
  unit_NormalizeName_idem := NormalizeName_idempotent;
|}.

Lemma NormalizeName_kind s : NormalizeName s ≠ "" → ∃ k, KindFromName (NormalizeName s) = Ok k.
Proof.
  unfold NormalizeName. pose proof (ToLower_TrimSpace_canonical s) as Hc.
  case_decide as Hs; [done|]. case_match eqn:E; intros _; [eauto|].
  exists KindService. by apply KindFromName_service.
Qed.

(** a normalized unit name is a normal form. Normalizing it again changes
    nothing, white space around it and the case of its letters do not matter,
    and unless it is empty it carries the suffix of a supported kind. *)
Theorem NormalizeName_normal_form s :
  NormalizeName (NormalizeName s) = NormalizeName s ∧
  NormalizeName (TrimSpace s) = NormalizeName s ∧
  NormalizeName (ToLower (TrimSpace s)) = NormalizeName s ∧
  (NormalizeName s = "" ∨ ∃ k, KindFromName (NormalizeName s) = Ok k).
Proof.
  pose proof (ToLower_TrimSpace_canonical s) as Hc. split_and!.
  - apply NormalizeName_idempotent.
  - unfold NormalizeName. rewrite (TrimSpace_id (TrimSpace s)); [done|].
    rewrite runes_TrimSpace. apply trim_spaces_trimmed.
  - unfold NormalizeName. by rewrite (canonical_TrimSpace _ Hc), (canonical_ToLower _ Hc).
  - destruct (decide (NormalizeName s = "")); [by left|right]. by apply NormalizeName_kind.
Qed.

Lemma link_check_runes name :
  CheckLinkName name = None ↔
  name ≠ "" ∧ name ≠ "." ∧ name ≠ ".." ∧
  Forall (λ r, 0x20 ≤ r ∧ r ≠ 0x7f ∧ r ∉ link_forbidden) (runes (bytes name)).*1.
Proof.
  unfold CheckLinkName. case_decide; [naive_solver|]. case_decide; [naive_solver|].
  transitivity (Forall (λ r, 0x20 ≤ r ∧ r ≠ 0x7f ∧ r ∉ link_forbidden) (runes (bytes name)).*1);
    [|naive_solver].
  induction (runes (bytes name)) as [|[r b] ps IH]; [by split; constructor|].
  rewrite fmap_cons, Forall_cons. simpl.
  destruct (Z.ltb_spec r 0x20); [simpl; split; [done|lia]|].
  destruct (Z.eqb_spec r 0x7f); [simpl; split; [done|lia]|]. simpl.
  case_decide; [split; [done|tauto]|]. rewrite IH. tauto.
Qed.

(** a name [CheckLinkName] accepts is one file-name component on Windows
    and elsewhere: it is not empty, [.] or [..], and no byte of it is a
    control character, a separator of either platform, a colon, a wildcard or
    another character Windows forbids. Every other name is rejected. *)
Theorem CheckLinkName_component name :
  CheckLinkName name = None ↔
  name ≠ "" ∧ name ≠ "." ∧ name ≠ ".." ∧
  ∀ c, c ∈ bytes name →
    0x20 ≤ b2z c ∧ b2z c ≠ 0x7f ∧
    c ∉ ["/"; "\"; ":"; "*"; "?"; "034"; "<"; ">"; "|"]%char.
Proof.
  rewrite link_check_runes.
  enough (Forall (λ r, 0x20 ≤ r ∧ r ≠ 0x7f ∧ r ∉ link_forbidden) (runes (bytes name)).*1 ↔
    ∀ c, c ∈ bytes name → 0x20 ≤ b2z c ∧ b2z c ≠ 0x7f ∧
      c ∉ ["/"; "\"; ":"; "*"; "?"; "034"; "<"; ">"; "|"]%char) as Hf by (rewrite Hf; done).
  rewrite Forall_forall. split.
  - intros H c Hc. destruct (decide (b2z c < 0x80)) as [Hlt|Hge].
    + destruct (H (b2z c)) as (? & ? & Hn).
      { apply runes_ascii_byte; [pose proof (b2z_range c); lia|]. by rewrite z2b_b2z. }
      split_and!; [done..|]. intros Hin. apply Hn. unfold link_forbidden.
      apply list_elem_of_fmap. eauto.
    + split_and!; [lia..|]. intros Hin. apply Hge.
      repeat (apply elem_of_cons in Hin as [->|Hin]; [vm_compute; reflexivity|]).
      by apply not_elem_of_nil in Hin.
  - intros H r Hr. destruct (decide (0 ≤ r < 0x80)) as [Hlt|Hge].
    + apply runes_ascii_byte in Hr; [|done]. apply H in Hr as (? & ? & Hn).
      rewrite b2z_z2b in * by lia. split_and!; [done..|].
      intros (c & -> & Hc)%list_elem_of_fmap. rewrite z2b_b2z in Hn. done.
    + assert (0 ≤ r).
      { pose proof (runes_scalar (bytes name)) as Hsc.
        apply list_elem_of_fmap in Hr as (p & -> & Hp).
        rewrite Forall_forall in Hsc. apply Hsc in Hp as [? _]. lia. }
      split_and!; [lia..|].
      intros (c & -> & Hc)%list_elem_of_fmap.
      repeat (apply elem_of_cons in Hc as [->|Hc]; [apply Hge; by vm_compute|]).
      by apply not_elem_of_nil in Hc.
Qed.

End names.
