(* ===== verification/CoreState.v ===== *)
(** * Package core: lifecycle states, restart policy and start limits

    Translates [internal/core/state.go], [restart.go] and [startlimit.go]. *)

From S2P Require Import Prelude GoStrings UnitTypes.

#[local] Open Scope Z_scope.

(** ** state.go *)

Module Lifecycle.

Inductive State := Inactive | Activating | Active | Deactivating | Failed.
Inductive Substate :=
| SubNone | SubStartPre | SubStart | SubStartPost | SubRunning
| SubStop | SubStopPost | SubAutoRestart | SubWatchdog.
Inductive Event :=
| EventStartRequested | EventStartSucceeded | EventStartFailed
| EventStopRequested | EventStopFinished | EventMainExited
| EventAutoRestart | EventRestartCancelled | EventWatchdogFailed.

#[global] Instance State_eq_dec : EqDecision State.
Proof. solve_decision. Defined.
#[global] Instance Substate_eq_dec : EqDecision Substate.
Proof. solve_decision. Defined.
#[global] Instance Event_eq_dec : EqDecision Event.
Proof. solve_decision. Defined.

Definition State_String (s : State) : string :=
  match s with
  | Inactive => "inactive"
  | Activating => "activating"
  | Active => "active"
  | Deactivating => "deactivating"
  | Failed => "failed"
  end.

Definition Substate_String (s : Substate) : string :=
  match s with
  | SubNone => ""
  | SubStartPre => "start-pre"
  | SubStart => "start"
  | SubStartPost => "start-post"
  | SubRunning => "running"
  | SubStop => "stop"
  | SubStopPost => "stop-post"
  | SubAutoRestart => "auto-restart"
  | SubWatchdog => "watchdog"
  end.

Definition Event_String (e : Event) : string :=
  match e with
  | EventStartRequested => "start-requested"
  | EventStartSucceeded => "start-succeeded"
  | EventStartFailed => "start-failed"
  | EventStopRequested => "stop-requested"
  | EventStopFinished => "stop-finished"
  | EventMainExited => "main-exited"
  | EventAutoRestart => "auto-restart"
  | EventRestartCancelled => "restart-cancelled"
  | EventWatchdogFailed => "watchdog-failed"
  end.

Record TransitionError := { TFrom : State; TFromSub : Substate; TEvent : Event }.

(** [TransitionError.Error]; [None] is the nil receiver. *)
Definition TransitionError_Error (e : option TransitionError) : string :=
  match e with
  | None => "illegal lifecycle transition"
  | Some e =>
    let sub := Substate_String (TFromSub e) in
    if decide (sub = "")
    then "illegal transition: " +:+ State_String (TFrom e) +:+ " + " +:+ Event_String (TEvent e)
    else "illegal transition: " +:+ State_String (TFrom e) +:+ "/" +:+ sub +:+ " + "
         +:+ Event_String (TEvent e)
  end.

(** The closed allowlist; the last component is [ok]. *)
Definition allowedStep (from : State) (fromSub : Substate) (ev : Event)
    : State * Substate * bool :=
  let rejected := (from, fromSub, false) in
  match ev with
  | EventStartRequested =>
    match from with
    | Inactive | Failed | Activating | Active => (Activating, SubStart, true)
    | _ => rejected
    end
  | EventStartSucceeded =>
    if decide (from = Activating) then (Active, SubRunning, true) else rejected
  | EventStartFailed =>
    match from with
    | Activating | Active | Deactivating => (Failed, SubNone, true)
    | _ => rejected
    end
  | EventStopRequested =>
    match from with
    | Inactive | Active | Activating | Failed | Deactivating => (Deactivating, SubStop, true)
    end
  | EventStopFinished =>
    if decide (from = Deactivating) then (Inactive, SubNone, true) else rejected
  | EventMainExited =>
    match from with
    | Active | Activating | Inactive => (Failed, SubNone, true)
    | _ => rejected
    end
  | EventAutoRestart =>
    match from with
    | Inactive | Active | Failed => (Activating, SubAutoRestart, true)
    | _ => rejected
    end
  | EventRestartCancelled =>
    if decide (from = Activating ∧ fromSub = SubAutoRestart)
    then (Inactive, SubNone, true) else rejected
  | EventWatchdogFailed =>
    match from with
    | Active | Activating => (Failed, SubWatchdog, true)
    | _ => rejected
    end
  end.

Definition Step (from : State) (fromSub : Substate) (ev : Event)
    : State * Substate * option TransitionError :=
  let '(to, toSub, ok) := allowedStep from fromSub ev in
  if ok then (to, toSub, None)
  else (from, fromSub, Some {| TFrom := from; TFromSub := fromSub; TEvent := ev |}).

(** A unit driven by [Step] from the state a new unit has. *)
Definition init : State * Substate := (Inactive, SubNone).
Definition lifecycle (p q : State * Substate) : Prop :=
  ∃ ev, Step p.1 p.2 ev = (q.1, q.2, None).

(** The pairs a unit can be in. *)
Definition lifecycle_states : list (State * Substate) :=
  [(Inactive, SubNone); (Activating, SubStart); (Activating, SubAutoRestart);
   (Active, SubRunning); (Deactivating, SubStop); (Failed, SubNone); (Failed, SubWatchdog)].

Lemma lifecycle_closed p q : lifecycle p q → q ∈ lifecycle_states.
Proof.
  intros [ev H]. destruct p as [s sub], q as [s' sub']. unfold Step in H.
  destruct ev, s; simpl in H; repeat case_decide; simplify_eq/=; set_solver.
Qed.

Lemma lifecycle_path evs p q :
  foldl (λ p ev, (Step p.1 p.2 ev).1) p evs = q →
  (∀ k ev, evs !! k = Some ev →
     (Step (foldl (λ p ev, (Step p.1 p.2 ev).1) p (take k evs)).1
           (foldl (λ p ev, (Step p.1 p.2 ev).1) p (take k evs)).2 ev).2 = None) →
  rtc lifecycle p q.
Proof.
  revert p. induction evs as [|ev evs IH]; simpl; intros p Hq Hok; [by subst; apply rtc_refl|].
  pose proof (Hok 0%nat ev eq_refl) as H0. simpl in H0.
  eapply rtc_l; [|apply IH; [exact Hq|]].
  - exists ev. destruct (Step p.1 p.2 ev) as [[s sub] o]. simpl in *. by rewrite H0.
  - intros k ev' Hk. apply (Hok (S k) ev' Hk).
Qed.

(** a unit reaches exactly the seven state and substate pairs of
    [lifecycle_states] from the initial one by accepted events: no event leads
    outside them, and each is reachable. *)
Theorem lifecycle_reachable p : rtc lifecycle init p ↔ p ∈ lifecycle_states.
Proof.
  split.
  - intros [<-|(q & _ & H)]%rtc_inv_r; [set_solver|]. by eapply lifecycle_closed.
  - intros Hp. unfold lifecycle_states in Hp.
    set (path evs := lifecycle_path evs init p).
    repeat (apply elem_of_cons in Hp as [Hp|Hp]; [|]); [..|by apply not_elem_of_nil in Hp];
    [apply (path [])|apply (path [EventStartRequested])|apply (path [EventAutoRestart])
    |apply (path [EventStartRequested; EventStartSucceeded])|apply (path [EventStopRequested])
    |apply (path [EventMainExited])|apply (path [EventStartRequested; EventWatchdogFailed])];
    try done;
    intros [|[|k]] ev Hk; by simplify_eq/=.
Qed.

(** an accepted event enters [Active] only by a successful start of an
    activating unit, leaves to [Inactive] only at the end of a stop or by
    cancelling a pending automatic restart, and a stop request is accepted in
    every state; a rejected event leaves the state and names what was refused. *)
Theorem Step_discipline from sub ev to to_sub err :
  Step from sub ev = (to, to_sub, err) →
  (err = None → to = Active → from = Activating ∧ ev = EventStartSucceeded) ∧
  (err = None → to = Inactive →
     (from = Deactivating ∧ ev = EventStopFinished) ∨
     (from = Activating ∧ sub = SubAutoRestart ∧ ev = EventRestartCancelled)) ∧
  (ev = EventStopRequested → (to, to_sub, err) = (Deactivating, SubStop, None)) ∧
  (∀ e, err = Some e → to = from ∧ to_sub = sub ∧
     e = {| TFrom := from; TFromSub := sub; TEvent := ev |}).
Proof.
  unfold Step. intros H.
  destruct ev, from; simpl in H; repeat case_decide; simplify_eq/=; naive_solver.
Qed.

Lemma Step_discipline_witness :
  Step Active SubRunning EventStopRequested = (Deactivating, SubStop, None) ∧
  (EventStopRequested = EventStopRequested →
   (Deactivating, SubStop, @None TransitionError) = (Deactivating, SubStop, None)).
Proof.
  split; [reflexivity|].
  apply (Step_discipline Active SubRunning EventStopRequested). reflexivity.
Defined.

End Lifecycle.

(** ** restart.go *)

Module RestartPolicies.

Inductive ExitKind := ExitSuccess | ExitFailure | ExitAbnormal | ExitWatchdog | ExitResourceLimit.

#[global] Instance ExitKind_eq_dec : EqDecision ExitKind.
Proof. solve_decision. Defined.

Definition ExitKind_String (k : ExitKind) : string :=
  match k with
  | ExitSuccess => "success"
  | ExitFailure => "failure"
  | ExitAbnormal => "abnormal"
  | ExitWatchdog => "watchdog"
  | ExitResourceLimit => "resource-limit"
  end.

Definition ReasonResourceLimit : string := "resource-limit".
Definition ReasonSignalEquivalent : string := "signal-equivalent".
Definition ReasonConfiguration : string := "configuration".
Definition ReasonStartLimit : string := "start-limit".

Definition signalEquivalentExitStatus (err : string) : bool :=
  let prefix := "exit status "%string in
  if HasPrefix err prefix then
    match ParseUint (TrimSpace (suffix_from err (String.length prefix))) 32 with
    | Some n => 0xC0000000 <=? n
    | None => false
    end
  else false.

Definition StatusReason (err : string) : string :=
  if decide (err = ReasonResourceLimit) then ReasonResourceLimit
  else if bool_decide (err = ReasonSignalEquivalent) ||
          HasPrefix err (ReasonSignalEquivalent +:+ ":") ||
          HasPrefix err (ReasonSignalEquivalent +:+ " ") ||
          signalEquivalentExitStatus err then ReasonSignalEquivalent
  else if decide (err = ReasonStartLimit) then ReasonStartLimit
  else if bool_decide (err = ReasonConfiguration) ||
          HasPrefix err (ReasonConfiguration +:+ ":") ||
          HasPrefix err (ReasonConfiguration +:+ " ") then ReasonConfiguration
  else "".

Definition ShouldRestart (policy : RestartPolicy) (kind : ExitKind) : bool :=
  if decide (policy = RestartAlways) then true
  else if decide (policy = RestartOnFailure) then negb (bool_decide (kind = ExitSuccess))
  else if decide (policy = RestartOnWatchdog) then bool_decide (kind = ExitWatchdog)
  else false.

Example StatusReason_access_violation :
  StatusReason "exit status 3221225477" = ReasonSignalEquivalent.
Proof. vm_compute. reflexivity. Qed.
Example StatusReason_plain_exit : StatusReason "exit status 1" = "".
Proof. vm_compute. reflexivity. Qed.

(** the restart policies are ordered. A policy restarts an exit exactly
    as its documentation says, an unknown policy never does, and each of
    [no], [on-watchdog], [on-failure] and [always] restarts every exit the one
    before it restarts. *)
Theorem ShouldRestart_policies (policy : RestartPolicy) (kind : ExitKind) :
  (ShouldRestart policy kind = true ↔
     policy = RestartAlways ∨
     (policy = RestartOnFailure ∧ kind ≠ ExitSuccess) ∨
     (policy = RestartOnWatchdog ∧ kind = ExitWatchdog)) ∧
  (ShouldRestart RestartNo kind = false) ∧
  (implb (ShouldRestart RestartOnWatchdog kind) (ShouldRestart RestartOnFailure kind) = true) ∧
  (implb (ShouldRestart RestartOnFailure kind) (ShouldRestart RestartAlways kind) = true).
Proof.
  split_and!; [|by destruct kind..].
  unfold ShouldRestart. repeat case_decide; subst;
    rewrite ?negb_true_iff, ?bool_decide_eq_true, ?bool_decide_eq_false; naive_solver.
Qed.

End RestartPolicies.

(** ** startlimit.go *)

Module StartLimit.

(** An instant is its nanoseconds from a fixed epoch. *)
Definition Time := Z.

Definition StartLimitDisabled (interval : Duration) (burst : Z) : bool :=
  (burst <=? 0) || (interval <=? 0).

Fixpoint countStartsInWindow (starts : list Time) (now : Time) (interval : Duration) : Z :=
  match starts with
  | [] => 0
  | t :: rest =>
    let cutoff := now - interval in
    (if t <? cutoff then 0 else 1) + countStartsInWindow rest now interval
  end.

Definition StartLimitHit (starts : list Time) (now : Time) (interval : Duration) (burst : Z) : bool :=
  if StartLimitDisabled interval burst then false
  else burst <=? countStartsInWindow starts now interval.

(** The loop of [RecordStart] keeps, in place, the starts that are not before
    the cutoff. *)
Fixpoint keepStarts (starts : list Time) (cutoff : Time) : list Time :=
  match starts with
  | [] => []
  | t :: rest => if t <? cutoff then keepStarts rest cutoff else t :: keepStarts rest cutoff
  end.
Definition RecordStart (starts : list Time) (now : Time) (interval : Duration) (burst : Z)
    : list Time :=
  if StartLimitDisabled interval burst then []
  else keepStarts starts (now - interval) ++ [now].

Definition StartsInWindow (starts : list Time) (now : Time) (interval : Duration) : Z :=
  if interval <=? 0 then 0 else countStartsInWindow starts now interval.

(** The starts a gate admits from a sequence of attempts: an attempt is
    refused while the limit is hit and recorded otherwise. *)
Fixpoint admitted (starts : list Time) (interval : Duration) (burst : Z) (attempts : list Time)
    : list Time :=
  match attempts with
  | [] => []
  | now :: rest =>
    if StartLimitHit starts now interval burst then admitted starts interval burst rest
    else now :: admitted (RecordStart starts now interval burst) interval burst rest
  end.

(** Starts inside the closed window that ends at [now]. *)
Fixpoint inWindow (starts : list Time) (now : Time) (interval : Duration) : Z :=
  match starts with
  | [] => 0
  | t :: rest =>
    (if (now - interval <=? t) && (t <=? now) then 1 else 0) + inWindow rest now interval
  end.

Section counting.
Context (interval : Duration).

Lemma count_app l1 l2 now :
  countStartsInWindow (l1 ++ l2) now interval =
  countStartsInWindow l1 now interval + countStartsInWindow l2 now interval.
Proof. induction l1; simpl; lia. Qed.

Lemma count_keep l c now : c ≤ now - interval →
  countStartsInWindow (keepStarts l c) now interval = countStartsInWindow l now interval.
Proof.
  intros. induction l as [|t l IH]; simpl; [done|].
  destruct (Z.ltb_spec t c); simpl; destruct (Z.ltb_spec t (now - interval)); lia.
Qed.

Lemma inWindow_app l1 l2 now :
  inWindow (l1 ++ l2) now interval = inWindow l1 now interval + inWindow l2 now interval.
Proof. induction l1; simpl; lia. Qed.

Lemma inWindow_le_count l now now' : now ≤ now' →
  inWindow l now' interval ≤ countStartsInWindow l now interval.
Proof.
  intros. induction l as [|t l IH]; simpl; [done|].
  destruct (Z.leb_spec (now' - interval) t), (Z.leb_spec t now'),
    (Z.ltb_spec t (now - interval)); simpl; lia.
Qed.

Lemma inWindow_past l now : Forall (λ t, t < now - interval) l → inWindow l now interval = 0.
Proof.
  induction 1 as [|t l Ht _ IH]; simpl; [done|].
  destruct (Z.leb_spec (now - interval) t); simpl; lia.
Qed.
End counting.

(** Dropping old starts loses nothing: every later count is the one over the
    whole history. *)
Lemma RecordStart_count starts now now' interval burst :
  StartLimitDisabled interval burst = false → now ≤ now' →
  countStartsInWindow (RecordStart starts now interval burst) now' interval =
  countStartsInWindow (starts ++ [now]) now' interval.
Proof.
  intros Hd ?. unfold RecordStart. rewrite Hd, !count_app, count_keep; [done|lia].
Qed.

Lemma admitted_window interval burst attempts : ∀ hist starts last,
  StartLimitDisabled interval burst = false →
  StronglySorted Z.le (last :: attempts) →
  Forall (λ t, t ≤ last) hist →
  (∀ t, last ≤ t → countStartsInWindow starts t interval = countStartsInWindow hist t interval) →
  (∀ t, inWindow hist t interval ≤ burst) →
  ∀ t, inWindow (hist ++ admitted starts interval burst attempts) t interval ≤ burst.
Proof.
  induction attempts as [|now rest IH]; intros hist starts last Hd Hs Hlast Heq Hw t; simpl.
  { by rewrite app_nil_r. }
  apply StronglySorted_cons in Hs as [Hle Hs].
  assert (last ≤ now) by (apply Forall_cons in Hle; naive_solver).
  assert (Forall (λ t, t ≤ now) hist) as Hnow by (eapply Forall_impl; [done|]; simpl; lia).
  destruct (StartLimitHit starts now interval burst) eqn:Hhit.
  { eapply IH; eauto. intros. apply Heq. lia. }
  rewrite cons_middle, app_assoc. eapply IH; eauto.
  - apply Forall_app; split; [done|]. by apply Forall_singleton.
  - intros t' ?. rewrite RecordStart_count by done. rewrite !count_app, Heq by lia. done.
  - intros t'. rewrite inWindow_app. simpl.
    unfold StartLimitHit in Hhit. rewrite Hd, Z.leb_gt, Heq in Hhit by lia.
    destruct (Z.leb_spec (t' - interval) now), (Z.leb_spec now t'); simpl.
    + pose proof (inWindow_le_count interval hist now t'). lia.
    + specialize (Hw t'). lia.
    + rewrite inWindow_past; [|eapply Forall_impl; [exact Hnow|]; simpl; lia].
      unfold StartLimitDisabled in Hd. apply orb_false_iff in Hd as [?%Z.leb_gt _]. lia.
    + specialize (Hw t'). lia.
Qed.

(** C38: the start limit bounds the rate of starts. When attempts arrive in
    time order and each is recorded by [RecordStart] only if [StartLimitHit]
    lets it through, every window of length [interval] holds at most [burst]
    admitted starts, although [RecordStart] forgets old ones. *)
Theorem start_rate_bounded interval burst attempts now :
  0 < burst → 0 < interval → StronglySorted Z.le attempts →
  inWindow (admitted [] interval burst attempts) now interval ≤ burst.
Proof.
  intros Hb Hi Hs. destruct attempts as [|a rest]; [simpl; lia|].
  apply (admitted_window interval burst (a :: rest) [] [] a); try done.
  - unfold StartLimitDisabled. apply orb_false_iff. rewrite !Z.leb_gt. lia.
  - constructor; [done|]. apply StronglySorted_cons in Hs as [? _]. by constructor.
  - simpl. lia.
Qed.

Lemma start_rate_bounded_witness :
  inWindow (admitted [] 10 2 [0; 1; 2; 11; 12]) 12 10 ≤ 2 ∧
  admitted [] 10 2 [0; 1; 2; 11; 12] = [0; 1; 11; 12].
Proof.
  split; [|vm_compute; reflexivity].
  apply (start_rate_bounded 10 2 [0; 1; 2; 11; 12] 12); [lia|lia|].
  repeat constructor; lia.
Defined.

End StartLimit.
