(* ===== verification/CoreGraph.v ===== *)
(** * Package core: the dependency graph

    Translates [internal/core/names.go] and [internal/core/graph.go]: the graph
    of loaded units, its ordering edges, the cycle search and the reverse
    requirement closure. *)

From S2P Require Import Prelude UnitTypes.

#[local] Open Scope go_scope.

(** The model's recursion bounds are shown to be enough; this error never
    reaches a caller. *)
Definition OutOfFuel : error := ErrText "out of fuel".

Record node := {
  name : string;
  unit : Unit;
  requires : list string;
  wants : list string;
  bindsTo : list string;
  partOf : list string;
  after : list string;
  before : list string;
  waitsFor : list string;
}.

Definition set_waitsFor (n : node) (w : list string) : node := {|
  name := name n; unit := unit n; requires := requires n; wants := wants n;
  bindsTo := bindsTo n; partOf := partOf n; after := after n; before := before n;
  waitsFor := w;
|}.

Record Graph := { nodes : gmap string node }.

Section core.
Context {NM : Naming} {MR : MapRange}.

(** ** names.go *)

Definition NormalizeName (s : string) : string := unit_NormalizeName s.

Fixpoint uniqueStable_go (seen : gset string) (l : list string) : list string :=
  match l with
  | [] => []
  | s :: l' =>
    let s := NormalizeName s in
    if decide (s = "") then uniqueStable_go seen l'
    else if decide (s ∈ seen) then uniqueStable_go seen l'
    else s :: uniqueStable_go ({[s]} ∪ seen) l'
  end.
Definition uniqueStable (l : list string) : list string := uniqueStable_go ∅ l.

Fixpoint containsName (ss : list string) (n : string) : bool :=
  match ss with
  | [] => false
  | s :: ss' => if decide (s = n) then true else containsName ss' n
  end.

(** ** Build *)

Definition make_node (n : string) (u : Unit) : node := {|
  name := n; unit := u;
  requires := uniqueStable (Requires u); wants := uniqueStable (Wants u);
  bindsTo := uniqueStable (BindsTo u); partOf := uniqueStable (PartOf u);
  after := uniqueStable (After u); before := uniqueStable (Before u);
  waitsFor := [];
|}.

(** The first loop: one node per unit, in order; [i] is the index of the next. *)
Fixpoint build_nodes (i : nat) (units : list (option Unit)) (ns : gmap string node)
    : result (gmap string node) :=
  match units with
  | [] => Ok ns
  | None :: _ => Fail (ErrFmt "unit %d is nil" [pretty i])
  | Some u :: rest =>
    let n := NormalizeName (Name u) in
    if decide (n = "") then Fail (ErrFmt "unit %d has an empty name" [pretty i])
    else match ns !! n with
         | Some _ => Fail (ErrFmt "duplicate unit %q" [n])
         | None => build_nodes (S i) rest (<[n := make_node n u]> ns)
         end
  end.

(** The second loop: loaded After= predecessors. *)
Definition wait_after (ns : gmap string node) (n : node) : node :=
  set_waitsFor n (uniqueStable (filter (λ d, is_Some (ns !! d)) (after n))).

(** The third loop: every loaded Before= successor waits for the unit. *)
Definition wait_before (n : node) (ns : gmap string node) (later : string) : gmap string node :=
  match ns !! later with
  | None => ns
  | Some o => if containsName (waitsFor o) (name n) then ns
              else <[later := set_waitsFor o (waitsFor o ++ [name n])]> ns
  end.

Definition Build (units : list (option Unit)) : result Graph :=
  ns <-? build_nodes 0 units ∅ ;;
  let ns := wait_after ns <$> ns in
  Ok {| nodes := foldl (λ ns '(_, n), foldl (wait_before n) ns (before n)) ns (map_range 0 ns) |}.

(** ** Accessors; [None] is a nil [*Graph] or [*node]. *)

Definition Names (g : option Graph) : list string :=
  match g with
  | None => []
  | Some g => sort_strings (keys (nodes g))
  end.

Definition get_node (g : option Graph) (n : string) : option node :=
  match g with
  | None => None
  | Some g => nodes g !! NormalizeName n
  end.
Definition graph_Unit (g : option Graph) (n : string) : option Unit := unit <$> get_node g n.
Definition names_of (f : node → list string) (o : option node) : list string :=
  match o with None => [] | Some n => f n end.
Definition graph_Requires g n := names_of requires (get_node g n).
Definition graph_Wants g n := names_of wants (get_node g n).
Definition graph_BindsTo g n := names_of bindsTo (get_node g n).
Definition graph_PartOf g n := names_of partOf (get_node g n).
Definition graph_After g n := names_of after (get_node g n).
Definition graph_WaitsFor g n := names_of waitsFor (get_node g n).

(** ** The cycle search *)

Inductive color := white | gray | black.
#[global] Instance color_eq_dec : EqDecision color.
Proof. solve_decision. Defined.

Record dfs_state := { colors : gmap string color; parents : gmap string string }.
Definition color_of (st : dfs_state) (v : string) : color := get_or white (colors st) v.
Definition set_color (st : dfs_state) (v : string) (c : color) : dfs_state :=
  {| colors := <[v := c]> (colors st); parents := parents st |}.
Definition set_parent (st : dfs_state) (v u : string) : dfs_state :=
  {| colors := colors st; parents := <[v := u]> (parents st) |}.

(** The loop of [reconstructCycle]: follow [parent] from [x] to [v], collecting
    the names passed.  [fuel] counts down the length guard, which leaves with
    [None] once the collected names outnumber [len(parent)+1]. *)
Fixpoint climb (parent : gmap string string) (fuel : nat) (x v : string) : option (list string) :=
  if decide (x = v) then Some []
  else if decide (x = "") then None
  else match fuel with
       | 0 => None
       | S fuel => (λ s, x :: s) <$> climb parent fuel (get_or "" parent x) v
       end.

Definition reconstructCycle (parent : gmap string string) (u v : string) : list string :=
  if decide (u = v) then [v; v]
  else match climb parent (S (size parent)) u v with
       | None => [v; u; v]
       | Some stack => v :: reverse stack ++ [v]
       end.

Section search.
Context (inGraph : list string) (waits : gmap string (list string)).

(** The loop of [dfs] over the successors [vs] of [u]; [visit] is the recursive
    call.  The second component is the cycle found, if any. *)
Fixpoint dfs_loop (visit : string → dfs_state → result (dfs_state * option (list string)))
    (u : string) (vs : list string) (st : dfs_state)
    : result (dfs_state * option (list string)) :=
  match vs with
  | [] => Ok (st, None)
  | v :: vs' =>
    if decide (v ∈ inGraph) then
      match color_of st v with
      | gray => Ok (st, Some (reconstructCycle (parents st) u v))
      | white =>
        match visit v (set_parent st v u) with
        | Ok (st', None) => dfs_loop visit u vs' st'
        | r => r
        end
      | black => dfs_loop visit u vs' st
      end
    else dfs_loop visit u vs' st
  end.

Fixpoint dfs (fuel : nat) (u : string) (st : dfs_state)
    : result (dfs_state * option (list string)) :=
  match fuel with
  | 0 => Fail OutOfFuel
  | S fuel =>
    let succ := sort_strings (get_or [] waits u) in
    r <-? dfs_loop (dfs fuel) u succ (set_color st u gray) ;;
    match r with
    | (st', None) => Ok (set_color st' u black, None)
    | _ => Ok r
    end
  end.

Fixpoint dfs_all (fuel : nat) (ns : list string) (st : dfs_state)
    : result (option (list string)) :=
  match ns with
  | [] => Ok None
  | n :: ns' =>
    match color_of st n with
    | white =>
      r <-? dfs fuel n st ;;
      match r with
      | (st', None) => dfs_all fuel ns' st'
      | (_, c) => Ok c
      end
    | _ => dfs_all fuel ns' st
    end
  end.
End search.

Definition findCycle (ns : list string) (waits : gmap string (list string))
    : result (option (list string)) :=
  let sorted := sort_strings ns in
  dfs_all sorted waits (length sorted) sorted {| colors := ∅; parents := ∅ |}.

Definition OrderingCycle (g : option Graph) : result (option (list string)) :=
  match g with
  | None => Ok None
  | Some g => findCycle (Names (Some g)) (waitsFor <$> nodes g)
  end.

(** [CycleError.Error] and [CycleError.Detail] of a path. *)
Definition CycleError_Error (path : list string) : string :=
  match path with
  | a :: b :: rest => foldl (λ acc p, acc +:+ " After " +:+ p) a (b :: rest)
  | _ => "ordering cycle"
  end.

Definition newline : string := String (Ascii.ascii_of_nat 10) "".
Fixpoint detail_lines (path : list string) : list string :=
  match path with
  | a :: ((b :: _) as rest) => (a +:+ newline +:+ "  After=" +:+ b) :: detail_lines rest
  | _ => []
  end.
Definition CycleError_Detail (path : list string) : string :=
  String.concat (newline +:+ newline) (detail_lines path).

(** ** Requirement edges *)

Definition startRequireNames (n : node) : list string := uniqueStable (requires n ++ bindsTo n).
Definition startRequiresName (n : node) (s : string) : bool :=
  containsName (requires n) s || containsName (bindsTo n) s.
Definition stopRequiresName (n : node) (s : string) : bool :=
  containsName (requires n) s || containsName (bindsTo n) s || containsName (partOf n) s.
Definition stopDepNames (n : node) : list string :=
  uniqueStable (requires n ++ bindsTo n ++ partOf n).

(** [n != nil && test n] for the node of a loaded name. *)
Definition node_test (g : Graph) (test : node → bool) (other : string) : bool :=
  match nodes g !! other with
  | Some n => test n
  | None => false
  end.

Definition reverseRequirersOf (g : Graph) (s : string) : list string :=
  let s := NormalizeName s in
  filter (λ other, node_test g (λ n, stopRequiresName n s) other = true) (Names (Some g)).

Fixpoint walk_roots (walk : string → gset string → result (gset string)) (roots : list string)
    (seen : gset string) : result (gset string) :=
  match roots with
  | [] => Ok seen
  | r :: roots' => seen' <-? walk r seen ;; walk_roots walk roots' seen'
  end.

Fixpoint walk_requirers (g : Graph) (fuel : nat) (s : string) (seen : gset string)
    : result (gset string) :=
  match fuel with
  | 0 => Fail OutOfFuel
  | S fuel =>
    let s := NormalizeName s in
    if decide (s = "") then Ok seen
    else if decide (s ∈ seen) then Ok seen
    else match nodes g !! s with
         | None => Ok seen
         | Some _ => walk_roots (walk_requirers g fuel) (reverseRequirersOf g s) ({[s]} ∪ seen)
         end
  end.

Definition reverseRequirementClosure (g : option Graph) (roots : list string)
    : result (list string) :=
  match g with
  | None => Ok []
  | Some g =>
    seen <-? walk_roots (walk_requirers g (S (size (nodes g)))) roots ∅ ;;
    Ok (sort_strings (elements seen))
  end.

(** ** Names *)

(** The names that key a graph. *)
Definition normalized (s : string) : Prop := NormalizeName s = s ∧ s ≠ "".

Lemma NormalizeName_idem s : NormalizeName (NormalizeName s) = NormalizeName s.
Proof. apply unit_NormalizeName_idem. Qed.

Lemma containsName_spec l s : containsName l s = true ↔ s ∈ l.
Proof.
  induction l as [|x l IH]; simpl; [set_solver|]. case_decide; [set_solver|].
  rewrite IH. set_solver.
Qed.

Lemma containsName_false l s : containsName l s = false ↔ s ∉ l.
Proof. rewrite <-containsName_spec. by destruct (containsName l s). Qed.

Lemma elem_of_uniqueStable_go seen l s :
  s ∈ uniqueStable_go seen l ↔ s ∉ seen ∧ s ≠ "" ∧ ∃ x, x ∈ l ∧ NormalizeName x = s.
Proof.
  revert seen. induction l as [|y l IH]; intros seen; simpl; [set_solver|].
  repeat case_decide; rewrite ?elem_of_cons, ?IH; clear IH.
  - set_solver.
  - set_solver.
  - split; [set_solver|]. intros (Hs & Hne & x & [->|Hx]%elem_of_cons & <-); [by left|].
    destruct (decide (NormalizeName x = NormalizeName y)); [by left|right]. set_solver.
Qed.

Lemma elem_of_uniqueStable l s :
  s ∈ uniqueStable l ↔ s ≠ "" ∧ ∃ x, x ∈ l ∧ NormalizeName x = s.
Proof. unfold uniqueStable. rewrite elem_of_uniqueStable_go. set_solver. Qed.

Lemma NoDup_uniqueStable l : NoDup (uniqueStable l).
Proof.
  unfold uniqueStable. generalize (∅ : gset string) as seen.
  induction l as [|y l IH]; intros seen; simpl; [constructor|].
  repeat case_decide; try done. constructor; [|done].
  rewrite elem_of_uniqueStable_go. set_solver.
Qed.

Lemma uniqueStable_normalized l s : s ∈ uniqueStable l → normalized s.
Proof.
  intros (Hne & x & _ & <-)%elem_of_uniqueStable. split; [apply NormalizeName_idem|done].
Qed.

Lemma elem_of_uniqueStable_normalized l s :
  (∀ x, x ∈ l → normalized x) → s ∈ uniqueStable l ↔ s ∈ l.
Proof.
  intros Hn. rewrite elem_of_uniqueStable. split.
  - intros (_ & x & Hx & <-). by destruct (Hn x Hx) as [-> _].
  - intros Hs. destruct (Hn s Hs). eauto.
Qed.

(** Names that are already normalized and distinct are kept as they are. *)
Lemma uniqueStable_id l :
  (∀ x, x ∈ l → normalized x) → NoDup l → uniqueStable l = l.
Proof.
  unfold uniqueStable. intros Hn Hd.
  assert (∀ x, x ∈ l → x ∉ (∅ : gset string)) as Hs by set_solver.
  revert Hn Hd Hs. generalize (∅ : gset string) as seen.
  induction l as [|y l IH]; intros seen Hn Hd Hs; simpl; [done|].
  apply NoDup_cons in Hd as [Hy Hd]. destruct (Hn y) as [Hyn Hne]; [left|].
  rewrite Hyn. case_decide; [done|]. case_decide as Hin; [destruct (Hs y); [left|done]|].
  rewrite IH; [done| |done|].
  - intros x Hx. apply Hn. by right.
  - intros x Hx [->%elem_of_singleton|Hin']%elem_of_union; [done|].
    eapply Hs; [by right|done].
Qed.

(** ** The invariant of a built graph *)

(** [w] starts before [k]: [k] declares After= [w] or [w] declares Before= [k]. *)
Definition precedes (g : Graph) (w k : string) : Prop := ∃ nw nk,
  nodes g !! w = Some nw ∧ nodes g !! k = Some nk ∧ (w ∈ after nk ∨ k ∈ before nw).

Definition names_ok (l : list string) : Prop := NoDup l ∧ ∀ s, s ∈ l → normalized s.

Record node_wf (k : string) (n : node) : Prop := {
  wf_name : name n = k;
  wf_key : normalized k;
  wf_requires : names_ok (requires n);
  wf_wants : names_ok (wants n);
  wf_bindsTo : names_ok (bindsTo n);
  wf_partOf : names_ok (partOf n);
  wf_after : names_ok (after n);
  wf_before : names_ok (before n);
}.

Record graph_wf (g : Graph) : Prop := {
  wf_node : ∀ k n, nodes g !! k = Some n → node_wf k n;
  wf_waits_nodup : ∀ k n, nodes g !! k = Some n → NoDup (waitsFor n);
  wf_waits : ∀ k n, nodes g !! k = Some n → ∀ w, w ∈ waitsFor n ↔ precedes g w k;
}.

Lemma names_ok_uniqueStable l : names_ok (uniqueStable l).
Proof. split; [apply NoDup_uniqueStable|apply uniqueStable_normalized]. Qed.

Lemma make_node_wf k u : normalized k → node_wf k (make_node k u).
Proof. intros. split; try done; apply names_ok_uniqueStable. Qed.

(** What the first loop of [Build] accepts. *)
Definition loadable (units : list (option Unit)) : Prop :=
  (∀ o, o ∈ units → ∃ u, o = Some u ∧ NormalizeName (Name u) ≠ "") ∧
  NoDup ((λ o, NormalizeName (from_option Name "" o)) <$> units).

Definition key_of (o : option Unit) : string := NormalizeName (from_option Name "" o).

Lemma build_nodes_Ok units : ∀ i ns ns',
  build_nodes i units ns = Ok ns' ↔
  loadable units ∧ (∀ o, o ∈ units → ns !! key_of o = None) ∧
  ns' = foldl (λ ns o, match o with
                       | Some u => <[key_of o := make_node (key_of o) u]> ns
                       | None => ns
                       end) ns units.
Proof.
  unfold loadable. fold key_of.
  induction units as [|[u|] units IH]; intros i ns ns'; simpl.
  - split; [intros [= ->]; split_and!; set_solver by constructor|]. naive_solver.
  - change (NormalizeName (Name u)) with (key_of (Some u)).
    rewrite NoDup_cons. case_decide as Hne.
    { split; [done|]. intros ([H _] & _). destruct (H (Some u)); set_solver. }
    destruct (ns !! key_of (Some u)) eqn:E.
    { split; [done|]. intros (_ & H & _). rewrite H in E by set_solver. done. }
    rewrite IH. split.
    + intros ([H1 H2] & H3 & ->). split_and!; try done.
      * intros o [->|Ho]%elem_of_cons; eauto.
      * intros (o & Ho & Hin)%list_elem_of_fmap. specialize (H3 o Hin).
        change (key_of (Some u) = key_of o) in Ho. rewrite Ho in H3. simplify_map_eq.
      * intros o [->|Ho]%elem_of_cons; [done|].
        specialize (H3 o Ho). apply lookup_insert_None in H3. naive_solver.
    + intros ([H1 [H2 H2']] & H3 & ->). split_and!; try done.
      * intros o Ho. apply H1. by right.
      * intros o Ho. apply lookup_insert_None. split; [apply H3; by right|].
        intros Heq. apply H2. apply list_elem_of_fmap. eauto.
  - split; [done|]. intros ([H _] & _). destruct (H None); set_solver.
Qed.

Lemma build_nodes_lookup units ns :
  build_nodes 0 units ∅ = Ok ns →
  ∀ k n, ns !! k = Some n ↔ ∃ u, Some u ∈ units ∧ key_of (Some u) = k ∧ n = make_node k u.
Proof.
  intros ([Hl Hd] & _ & ->)%build_nodes_Ok k n. fold key_of in Hd.
  enough (∀ ns0 : gmap string node, (∀ o, o ∈ units → ns0 !! key_of o = None) →
    foldl (λ ns o, match o with
                   | Some u => <[key_of o := make_node (key_of o) u]> ns
                   | None => ns
                   end) ns0 units !! k = Some n ↔
    ns0 !! k = Some n ∨ ∃ u, Some u ∈ units ∧ key_of (Some u) = k ∧ n = make_node k u) as H.
  { rewrite H by done. rewrite lookup_empty. naive_solver. }
  clear Hl. induction units as [|[u|] units IH]; intros ns0 Hns; simpl.
  - set_solver.
  - apply NoDup_cons in Hd as [Hu Hd]. rewrite (IH Hd).
    + rewrite lookup_insert. setoid_rewrite elem_of_cons. case_decide as Hk.
      * split.
        { intros [[= <-]|]; [|set_solver]. right. exists u. by subst k; auto. }
        intros [Hn|(u' & [[= ->]|Hu'] & Hk' & ->)]; [|left; congruence|set_solver].
        rewrite <-Hk, Hns in Hn by set_solver. done.
      * set_solver.
    + intros o Ho. apply lookup_insert_None. split; [apply Hns; by right|].
      intros Heq. apply Hu. apply list_elem_of_fmap. eauto.
  - apply NoDup_cons in Hd as [_ Hd]. rewrite (IH Hd) by set_solver.
    setoid_rewrite elem_of_cons. naive_solver.
Qed.

(** How the third loop changes the nodes: only [waitsFor] grows, by [S k]. *)
Definition grows (S : string → string → Prop) (ns ns' : gmap string node) : Prop :=
  ∀ k, match ns !! k with
       | None => ns' !! k = None
       | Some o => ∃ w, ns' !! k = Some (set_waitsFor o w) ∧
           (NoDup (waitsFor o) → NoDup w) ∧ ∀ x, x ∈ w ↔ x ∈ waitsFor o ∨ S k x
       end.

Lemma grows_refl ns : grows (λ _ _, False) ns ns.
Proof.
  intros k. destruct (ns !! k) as [o|]; [|done]. exists (waitsFor o).
  split_and!; [by destruct o|done|naive_solver].
Qed.

Lemma grows_trans S1 S2 ns1 ns2 ns3 :
  grows S1 ns1 ns2 → grows S2 ns2 ns3 → grows (λ k x, S1 k x ∨ S2 k x) ns1 ns3.
Proof.
  intros H1 H2 k. specialize (H1 k). specialize (H2 k).
  destruct (ns1 !! k) as [o|]; [|by rewrite H1 in H2].
  destruct H1 as (w1 & H1 & Hd1 & Hw1). rewrite H1 in H2.
  destruct H2 as (w2 & H2 & Hd2 & Hw2). exists w2. split_and!; [done|by auto|].
  intros x. rewrite Hw2. simpl. rewrite Hw1. tauto.
Qed.

Lemma grows_weaken S1 S2 ns ns' :
  grows S1 ns ns' → (∀ k x, is_Some (ns !! k) → S1 k x ↔ S2 k x) → grows S2 ns ns'.
Proof.
  intros H HS k. specialize (H k). specialize (HS k). destruct (ns !! k) as [o|]; [|done].
  destruct H as (w & ? & ? & Hw). exists w. split_and!; [done..|].
  intros x. rewrite Hw, HS by eauto. done.
Qed.

Lemma wait_before_grows n ns later :
  grows (λ k x, k = later ∧ x = name n) ns (wait_before n ns later).
Proof.
  intros k. unfold wait_before.
  destruct (ns !! later) as [o|] eqn:E; [destruct (containsName _ _) eqn:Ec|].
  - apply containsName_spec in Ec. destruct (ns !! k) as [ok|] eqn:Ek; [|done].
    exists (waitsFor ok). split_and!; [by destruct ok|done|]. intros x.
    split; [by left|]. intros [?|[-> ->]]; naive_solver.
  - apply containsName_false in Ec. rewrite lookup_insert. case_decide; subst.
    + rewrite E. eexists. split_and!; [done| |set_solver].
      intros Hd. apply NoDup_app. split_and!; [done|set_solver|apply NoDup_singleton].
    + destruct (ns !! k) as [ok|] eqn:Ek; [|done]. exists (waitsFor ok).
      split_and!; [by destruct ok|done|naive_solver].
  - destruct (ns !! k) as [ok|] eqn:Ek; [|done]. exists (waitsFor ok).
    split_and!; [by destruct ok|done|]. naive_solver.
Qed.

Lemma foldl_grows {A} (f : gmap string node → A → gmap string node)
    (S : A → string → string → Prop) (l : list A) :
  (∀ ns a, grows (S a) ns (f ns a)) →
  ∀ ns, grows (λ k x, ∃ a, a ∈ l ∧ S a k x) ns (foldl f ns l).
Proof.
  intros Hf. induction l as [|a l IH]; intros ns; simpl.
  - eapply grows_weaken; [apply grows_refl|]. set_solver.
  - eapply grows_weaken; [eapply grows_trans; [apply Hf|apply IH]|]. set_solver.
Qed.

Lemma Build_grows units g : Build units = Ok g → ∃ ns,
  build_nodes 0 units ∅ = Ok ns ∧
  grows (λ k x, ∃ k' n, ns !! k' = Some n ∧ k ∈ before n ∧ x = name n)
    (wait_after ns <$> ns) (nodes g).
Proof.
  unfold Build. destruct (build_nodes 0 units ∅) as [ns|] eqn:E; [|done]. intros [= <-].
  exists ns. split; [done|]. simpl.
  eapply grows_weaken.
  - apply (foldl_grows (λ ns '(_, n), foldl (wait_before n) ns (before n))
             (λ p k x, ∃ l, l ∈ before p.2 ∧ k = l ∧ x = name p.2)).
    intros ns' [k n]. apply (foldl_grows (wait_before n) (λ l k x, k = l ∧ x = name n)).
    intros. apply wait_before_grows.
  - intros k x _. split.
    + intros ([k' n] & Hin & l & Hl & -> & ->).
      apply elem_of_map_range in Hin. rewrite lookup_fmap in Hin.
      destruct (ns !! k') as [n0|] eqn:Ek; simplify_eq/=. eauto 10.
    + intros (k' & n & Hn & Hk & ->). exists (k', wait_after ns n).
      rewrite elem_of_map_range, lookup_fmap, Hn. simpl. eauto.
Qed.

(** A node of the graph is the node of its unit with [waitsFor] filled in. *)
Lemma Build_lookup units g k n : Build units = Ok g →
  nodes g !! k = Some n → ∃ u, Some u ∈ units ∧ key_of (Some u) = k ∧
    n = set_waitsFor (make_node k u) (waitsFor n).
Proof.
  intros (ns & Hns & Hg)%Build_grows Hk. specialize (Hg k). rewrite lookup_fmap in Hg.
  destruct (ns !! k) as [n0|] eqn:E; simpl in Hg; [|congruence].
  destruct Hg as (w & Hw & _). rewrite Hk in Hw. injection Hw as ->.
  apply (build_nodes_lookup _ _ Hns) in E as (u & ? & ? & ->). eauto.
Qed.

Lemma Build_key units g k : Build units = Ok g →
  is_Some (nodes g !! k) ↔ ∃ u, Some u ∈ units ∧ key_of (Some u) = k.
Proof.
  intros Hb. split; [intros [n Hn]; destruct (Build_lookup _ _ _ _ Hb Hn); naive_solver|].
  intros (u & Hu & Hk). apply Build_grows in Hb as (ns & Hns & Hg). specialize (Hg k).
  assert (ns !! k = Some (make_node k u)) as Hl by (apply (build_nodes_lookup _ _ Hns); eauto).
  rewrite lookup_fmap, Hl in Hg. destruct Hg as (w & -> & _). eauto.
Qed.

Lemma Build_loadable units : (∃ g, Build units = Ok g) ↔ loadable units.
Proof.
  unfold Build. split.
  - intros [g Hg]. destruct (build_nodes 0 units ∅) eqn:E; [|done].
    by apply build_nodes_Ok in E as [? _].
  - intros Hl. pose proof (proj2 (build_nodes_Ok units 0 ∅ _)
      (conj Hl (conj (λ o _, lookup_empty (key_of o)) eq_refl))) as H.
    rewrite H. eauto.
Qed.

(** The nodes before and after the last loop agree except for [waitsFor]. *)
Lemma grows_lookup S ns ns' k : grows S (wait_after ns <$> ns) ns' →
  (∀ n, ns !! k = Some n → ∃ w, ns' !! k = Some (set_waitsFor n w)) ∧
  (∀ n', ns' !! k = Some n' → ∃ n, ns !! k = Some n ∧ n' = set_waitsFor n (waitsFor n')).
Proof.
  intros Hg. specialize (Hg k). rewrite lookup_fmap in Hg.
  destruct (ns !! k) as [n0|] eqn:E; simpl in Hg; [|split; congruence].
  destruct Hg as (w & -> & _). split; [naive_solver|].
  intros n' [= <-]. eexists. split; [done|]. done.
Qed.

Lemma Build_wf units g : Build units = Ok g → graph_wf g.
Proof.
  intros Hb. pose proof (proj1 (Build_loadable units) (ex_intro _ g Hb)) as [Hl _].
  assert (∀ k n, nodes g !! k = Some n → node_wf k n) as Hwf.
  { intros k n Hk. destruct (Build_lookup _ _ _ _ Hb Hk) as (u & Hu & Hku & ->).
    assert (normalized k) as Hn.
    { subst k. split; [apply NormalizeName_idem|]. destruct (Hl _ Hu) as (u' & [= <-] & ?). done. }
    destruct (make_node_wf k u Hn). by split. }
  pose proof (Build_grows _ _ Hb) as (ns & Hns & Hg).
  split; [done|..]; intros k n Hk; specialize (Hg k) as Hgk; rewrite lookup_fmap in Hgk;
    destruct (ns !! k) as [n0|] eqn:Ek; simpl in Hgk; try congruence;
    destruct Hgk as (w & Hw & Hd & Helem); rewrite Hk in Hw; injection Hw as ->; simpl.
  { apply Hd, NoDup_uniqueStable. }
  intros x. rewrite Helem. simpl.
  assert (∀ k n, ns !! k = Some n → name n = k ∧ ∀ s, s ∈ after n → normalized s) as Hns'.
  { intros k' n' Hk'. apply (build_nodes_lookup _ _ Hns) in Hk' as (u & _ & _ & ->).
    split; [done|]. apply uniqueStable_normalized. }
  rewrite elem_of_uniqueStable_normalized.
  2: { intros s [_ Hs]%list_elem_of_filter. by apply (Hns' k n0 Ek). }
  rewrite list_elem_of_filter. unfold precedes. rewrite Hk. split.
  - intros [[[nx Hx] Hin]|(k' & nx & Hx & Hin & ->)].
    + destruct (proj1 (grows_lookup _ _ _ x Hg) _ Hx) as [w' Hw']. eauto 10.
    + rewrite (proj1 (Hns' _ _ Hx)).
      destruct (proj1 (grows_lookup _ _ _ k' Hg) _ Hx) as [w' Hw']. eauto 10.
  - intros (nx & nk & Hx & [= <-] & Hin). simpl in Hin.
    destruct (proj2 (grows_lookup _ _ _ x Hg) _ Hx) as (nx0 & Hx0 & Heq).
    destruct Hin as [Hin|Hin]; [left; eauto|right]. rewrite Heq in Hin.
    exists x, nx0. by rewrite (proj1 (Hns' _ _ Hx0)).
Qed.

(** C27: loading a configuration. [Build] accepts a list of units exactly when
    none is nil, every name normalizes to a non-empty one and no two units
    share a normalized name. The graph then has one node per unit, which holds
    the unit and its dependency lists normalized and without repetitions, and a
    unit waits exactly for the loaded units it is After= or that are Before=
    it. *)
Theorem Build_correct units :
  match Build units with
  | Ok g => loadable units ∧
    (∀ k, is_Some (nodes g !! k) ↔ ∃ u, Some u ∈ units ∧ NormalizeName (Name u) = k) ∧
    (∀ k n, nodes g !! k = Some n → ∃ u, Some u ∈ units ∧ NormalizeName (Name u) = k ∧
       unit n = u ∧ name n = k ∧
       requires n = uniqueStable (Requires u) ∧ wants n = uniqueStable (Wants u) ∧
       bindsTo n = uniqueStable (BindsTo u) ∧ partOf n = uniqueStable (PartOf u) ∧
       after n = uniqueStable (After u) ∧ before n = uniqueStable (Before u) ∧
       NoDup (waitsFor n) ∧ ∀ w, w ∈ waitsFor n ↔ precedes g w k)
  | Fail _ => ¬ loadable units
  end.
Proof.
  destruct (Build units) as [g|e] eqn:Hb.
  - pose proof (Build_wf _ _ Hb) as Hg.
    split; [apply Build_loadable; eauto|]. split; [intros k; by apply Build_key|].
    intros k n Hn. destruct (Build_lookup _ _ _ _ Hb Hn) as (u & Hu & Hk & Heq).
    pose proof (wf_waits_nodup g Hg _ _ Hn). pose proof (wf_waits g Hg _ _ Hn).
    exists u. rewrite Heq. by split_and!.
  - intros [g Hg]%Build_loadable. congruence.
Qed.

(** ** The reverse requirement closure *)

(** [a] declares Requires=, BindsTo= or PartOf= [b]. *)
Definition stop_depends (g : Graph) (a b : string) : Prop :=
  ∃ n, nodes g !! a = Some n ∧ (b ∈ requires n ∨ b ∈ bindsTo n ∨ b ∈ partOf n).

Lemma stopRequiresName_spec n s :
  stopRequiresName n s = true ↔ s ∈ requires n ∨ s ∈ bindsTo n ∨ s ∈ partOf n.
Proof. unfold stopRequiresName. rewrite !orb_true_iff, !containsName_spec. tauto. Qed.

Lemma startRequiresName_spec n s :
  startRequiresName n s = true ↔ s ∈ requires n ∨ s ∈ bindsTo n.
Proof. unfold startRequiresName. by rewrite orb_true_iff, !containsName_spec. Qed.

Lemma elem_of_Names g k : k ∈ Names (Some g) ↔ is_Some (nodes g !! k).
Proof. simpl. by rewrite elem_of_sort_strings, elem_of_keys. Qed.

Lemma elem_of_node_test g test k : node_test g test k = true ↔
  ∃ n, nodes g !! k = Some n ∧ test n = true.
Proof. unfold node_test. destruct (nodes g !! k); naive_solver. Qed.

Lemma elem_of_reverseRequirersOf g s a :
  a ∈ reverseRequirersOf g s ↔ stop_depends g a (NormalizeName s).
Proof.
  unfold reverseRequirersOf. rewrite list_elem_of_filter, elem_of_node_test, elem_of_Names.
  unfold stop_depends. setoid_rewrite stopRequiresName_spec. naive_solver.
Qed.

(** The names a walk starts from: the normalized roots that are loaded. *)
Definition loaded_roots (g : Graph) (roots : list string) : list string :=
  filter (λ r, is_Some (nodes g !! r)) (NormalizeName <$> roots).

Section walking.
Context (g : Graph) (Hg : graph_wf g).

Lemma node_normalized k : is_Some (nodes g !! k) → normalized k.
Proof. intros [n Hn]. by apply (wf_node g Hg) in Hn as []. Qed.

Lemma fresh_size (seen : gset string) s : is_Some (nodes g !! s) → s ∉ seen →
  size (dom (nodes g) ∖ ({[s]} ∪ seen)) < size (dom (nodes g) ∖ seen).
Proof.
  intros Hs%elem_of_dom Hn. apply subset_size. split; [set_solver|].
  intros Hsub. assert (s ∈ dom (nodes g) ∖ seen) as Hin by set_solver.
  apply Hsub in Hin. set_solver.
Qed.

Lemma loaded_roots_self v : is_Some (nodes g !! v) → loaded_roots g [v] = [v].
Proof.
  intros Hv. unfold loaded_roots. simpl. rewrite filter_cons, filter_nil.
  destruct (node_normalized v Hv) as [-> _]. by rewrite decide_True.
Qed.

Lemma loaded_roots_app r1 r2 : loaded_roots g (r1 ++ r2) = loaded_roots g r1 ++ loaded_roots g r2.
Proof. unfold loaded_roots. by rewrite fmap_app, filter_app. Qed.

(** A loop of walks visits what its walks visit. *)
Lemma walk_roots_visits walk succ bound roots : ∀ seen,
  (∀ s seen, size (dom (nodes g) ∖ seen) < bound →
     ∃ seen', walk s seen = Ok seen' ∧ visits succ (loaded_roots g [s]) seen seen') →
  size (dom (nodes g) ∖ seen) < bound →
  ∃ seen', walk_roots walk roots seen = Ok seen' ∧
    visits succ (loaded_roots g roots) seen seen'.
Proof.
  induction roots as [|r roots IH]; intros seen Hwalk Hsz; cbn [walk_roots].
  { exists seen. split; [done|apply visits_nil]. }
  destruct (Hwalk r seen Hsz) as (seen1 & -> & Hv1).
  destruct (IH seen1 Hwalk) as (seen' & -> & Hv2).
  - eapply Nat.le_lt_trans; [|exact Hsz]. apply subseteq_size. destruct Hv1 as [? _]. set_solver.
  - exists seen'. split; [done|].
    change (r :: roots) with ([r] ++ roots). rewrite loaded_roots_app. by eapply visits_app.
Qed.

Lemma walk_requirers_visits fuel : ∀ s seen,
  size (dom (nodes g) ∖ seen) < fuel →
  ∃ seen', walk_requirers g fuel s seen = Ok seen' ∧
    visits (reverseRequirersOf g) (loaded_roots g [s]) seen seen'.
Proof.
  induction fuel as [|fuel IH]; intros s seen Hsz; [lia|]. cbn [walk_requirers].
  unfold loaded_roots. simpl. set (s' := NormalizeName s). rewrite filter_cons, filter_nil.
  case_decide as He.
  { exists seen. split; [done|].
    case_decide as Hin; [|apply visits_nil]. apply node_normalized in Hin as [_ ?]. done. }
  case_decide as Hseen.
  { exists seen. split; [done|]. case_decide; [by apply visits_seen|apply visits_nil]. }
  destruct (nodes g !! s') as [n|] eqn:En.
  2:{ exists seen. split; [done|]. rewrite decide_False by (intros [? ?]; done). apply visits_nil. }
  rewrite decide_True by eauto.
  assert (is_Some (nodes g !! s')) as Hs' by eauto.
  pose proof (fresh_size seen s' Hs' Hseen).
  destruct (walk_roots_visits (walk_requirers g fuel) (reverseRequirersOf g) fuel
              (reverseRequirersOf g s') ({[s']} ∪ seen) IH) as (seen' & -> & Hv); [lia|].
  exists seen'. split; [done|]. apply visits_node.
  replace (loaded_roots g (reverseRequirersOf g s')) with (reverseRequirersOf g s') in Hv; [done|].
  assert (∀ v, v ∈ reverseRequirersOf g s' → is_Some (nodes g !! v)) as Hvs
    by (intros v (n' & Hn' & _)%elem_of_reverseRequirersOf; eauto).
  clear -Hvs Hg. induction (reverseRequirersOf g s') as [|v vs IH]; [done|].
  change (v :: vs) with ([v] ++ vs).
  rewrite loaded_roots_app, loaded_roots_self, <-IH; [done| |]; set_solver.
Qed.

Lemma reverseRequirementClosure_spec roots : ∃ l,
  reverseRequirementClosure (Some g) roots = Ok l ∧ NoDup l ∧
  ∀ x, x ∈ l ↔ ∃ r, r ∈ roots ∧ is_Some (nodes g !! NormalizeName r) ∧
                    rtc (flip (stop_depends g)) (NormalizeName r) x.
Proof.
  unfold reverseRequirementClosure.
  destruct (walk_roots_visits (walk_requirers g (S (size (nodes g)))) (reverseRequirersOf g)
    (S (size (nodes g))) roots ∅) as (seen & -> & Hv); [by apply walk_requirers_visits| |].
  { rewrite <-size_dom. apply Nat.lt_succ_r, subseteq_size. set_solver. }
  eexists. split; [done|].
  split; [apply NoDup_sort_strings, NoDup_elements|].
  intros x. rewrite elem_of_sort_strings, elem_of_elements, (visits_reach _ _ _ _ Hv).
  unfold loaded_roots. setoid_rewrite list_elem_of_filter. setoid_rewrite list_elem_of_fmap.
  assert (∀ a b, normalized a → edge (reverseRequirersOf g) a b ↔ flip (stop_depends g) a b) as He.
  { intros a b [Ha _]. unfold edge, flip. by rewrite elem_of_reverseRequirersOf, Ha. }
  assert (∀ a b, flip (stop_depends g) a b → normalized b) as Hn.
  { intros a b (n & Hb & _). apply node_normalized. eauto. }
  split.
  - intros (r & ([n Hr] & r0 & -> & Hr0) & Hx). exists r0. split_and!; [done|eauto|].
    assert (normalized (NormalizeName r0)) as Hr' by (apply node_normalized; eauto).
    clear Hr. induction Hx as [|a b c Hab _ IH]; [apply rtc_refl|].
    apply He in Hab; [|done]. eapply rtc_l; [done|]. apply IH. by eapply Hn.
  - intros (r & Hr & [n Hn'] & Hx). exists (NormalizeName r). split; [eauto|].
    assert (normalized (NormalizeName r)) as Hr' by (apply node_normalized; eauto).
    clear Hn'. induction Hx as [|a b c Hab _ IH]; [apply rtc_refl|].
    eapply rtc_l; [by apply He|]. apply IH. by eapply Hn.
Qed.
End walking.

End core.
