(* ===== verification/CoreCycle.v ===== *)
(** * Package core: the cycle search is exact

    [findCycle] of [internal/core/graph.go] always returns, reports only real
    cycles, and reports none exactly when the ordering is acyclic. *)

From S2P Require Import Prelude CoreGraph.

(** A walk along [E], written as the names it passes. *)
Fixpoint is_walk (E : string → string → Prop) (path : list string) : Prop :=
  match path with
  | a :: ((b :: _) as rest) => E a b ∧ is_walk E rest
  | _ => True
  end.

(** A closed walk that passes no name twice apart from its ends. *)
Definition is_cycle (E : string → string → Prop) (path : list string) : Prop :=
  is_walk E path ∧ ∃ v mid, path = v :: mid ++ [v] ∧ NoDup (v :: mid).

(** A ranking that decreases along [E] on [ns]: [E] has no cycle there. *)
Definition ranked (E : string → string → Prop) (ns : list string) : Prop :=
  ∃ rank : string → nat, ∀ u v, u ∈ ns → E u v → rank v < rank u.

Lemma is_walk_app E l x r : is_walk E (l ++ [x]) → is_walk E (x :: r) → is_walk E (l ++ x :: r).
Proof.
  induction l as [|a [|b l] IH]; simpl; [done| |]; intuition.
Qed.

Lemma is_walk_snoc E l x y : is_walk E (l ++ [x]) → E x y → is_walk E (l ++ [x] ++ [y]).
Proof. intros Hw Hxy. by apply (is_walk_app E l x [y]). Qed.

Lemma walk_tc E a l b : is_walk E (a :: l ++ [b]) → tc E a b.
Proof.
  revert a. induction l as [|x l IH]; intros a; simpl.
  - intros [? _]. by apply tc_once.
  - intros [? ?]. eapply tc_l; eauto.
Qed.

(** A cycle and a ranking exclude each other. *)
Lemma ranked_acyclic E ns : ranked E ns → (∀ u v, u ∈ ns → E u v → v ∈ ns) →
  ∀ u, u ∈ ns → ¬ tc E u u.
Proof.
  intros [rank Hr] Hcl u Hu Ht.
  enough (∀ v, tc E u v → rank v < rank u) by (specialize (H u Ht); lia).
  clear Ht. intros v Hv. revert Hu. induction Hv as [x y Hxy|x y z Hxy _ IH]; intros Hu; [by apply Hr|].
  pose proof (Hr _ _ Hu Hxy). specialize (IH (Hcl _ _ Hu Hxy)). lia.
Qed.

Section cycle.
Context {NM : Naming} {MR : MapRange}.
Context (ns : list string) (waits : gmap string (list string)).
Context (Hempty : "" ∉ ns).

(** The ordering restricted to [ns]: [u] waits for [v]. *)
Definition waits_on (u v : string) : Prop := v ∈ ns ∧ v ∈ get_or [] waits u.

Fixpoint chain (parent : gmap string string) (stk : list string) : Prop :=
  match stk with
  | x :: ((y :: _) as rest) => parent !! x = Some y ∧ waits_on y x ∧ chain parent rest
  | _ => True
  end.

(** The state of the search: [stk] is the path of gray names from the current
    one to the root, [order] the black names, last finished first. *)
Record search_inv (st : dfs_state) (stk order : list string) : Prop := {
  inv_gray : ∀ v, color_of st v = gray ↔ v ∈ stk;
  inv_black : ∀ v, color_of st v = black ↔ v ∈ order;
  inv_nodup : NoDup (stk ++ order);
  inv_ns : ∀ v, v ∈ stk ++ order → v ∈ ns;
  inv_chain : chain (parents st) stk;
  inv_topo : ∀ l1 u l2, order = l1 ++ u :: l2 → ∀ v, waits_on u v → v ∈ l2;
}.

Lemma chain_insert parent stk v u : v ∉ stk → chain parent stk → chain (<[v:=u]> parent) stk.
Proof.
  intros Hv. induction stk as [|x [|y stk] IH]; [done..|]. intros (Hx & He & Hc).
  split_and!; [|done|apply IH; [set_solver|done]].
  rewrite lookup_insert_ne; [done|set_solver].
Qed.

Lemma chain_app_r parent l1 l2 : chain parent (l1 ++ l2) → chain parent l2.
Proof.
  induction l1 as [|x [|y l1] IH]; [done|destruct l2; simpl; tauto|].
  intros (_ & _ & H). by apply IH.
Qed.

Lemma chain_length parent stk : NoDup stk → chain parent stk → length stk ≤ S (size parent).
Proof.
  intros Hd Hc. destruct stk as [|x stk _] using rev_ind; [simpl; lia|].
  rewrite length_app. simpl. rewrite <-length_keys.
  enough (length stk ≤ length (keys parent)) by lia.
  apply NoDup_app in Hd as (Hd & _ & _).
  apply submseteq_length, NoDup_submseteq; [done|].
  intros a Ha. apply elem_of_keys. apply list_elem_of_split in Ha as (l1 & l2 & ->).
  rewrite <-app_assoc in Hc. apply chain_app_r in Hc. simpl in Hc.
  destruct l2; simpl in Hc; naive_solver.
Qed.

Lemma climb_chain parent pre : ∀ post v x fuel,
  chain parent (pre ++ v :: post) → v ∉ pre → "" ∉ pre → length pre ≤ fuel →
  head (pre ++ [v]) = Some x → climb parent fuel x v = Some pre.
Proof.
  induction pre as [|a pre IH]; intros post v x fuel Hc Hv He Hlen Hx; simplify_eq/=.
  { destruct fuel; simpl; by rewrite decide_True. }
  destruct fuel as [|fuel]; [lia|]. simpl.
  rewrite decide_False by set_solver. rewrite decide_False by set_solver.
  destruct (pre ++ v :: post) as [|y r] eqn:Er; [by destruct pre|].
  destruct Hc as (Hp & _ & Hc). unfold get_or. rewrite Hp. simpl.
  rewrite (IH post v y fuel); [done|by rewrite Er|set_solver|set_solver|lia|].
  destruct pre; simplify_eq/=; done.
Qed.

Lemma chain_walk parent pre v post :
  chain parent (pre ++ v :: post) → is_walk waits_on (v :: reverse pre).
Proof.
  revert v post. induction pre as [|a pre IH]; intros v post Hc; [done|].
  rewrite reverse_cons.
  destruct pre as [|b pre].
  - simpl in *. naive_solver.
  - destruct Hc as (_ & Hba & Hc). specialize (IH v post Hc).
    rewrite reverse_cons in *. rewrite <-app_assoc.
    apply (is_walk_snoc waits_on (v :: reverse pre) b a); [done|]. done.
Qed.

Lemma reconstruct_cycle st u stk order v :
  search_inv st (u :: stk) order → v ∈ u :: stk → waits_on u v →
  is_cycle waits_on (reconstructCycle (parents st) u v).
Proof.
  intros Hinv Hv Huv. unfold reconstructCycle. case_decide as Heq.
  { subst. split; [simpl; tauto|]. exists v, []. split; [done|]. apply NoDup_singleton. }
  pose proof (inv_nodup _ _ _ Hinv) as (Hd & _ & _)%NoDup_app.
  pose proof (inv_chain _ _ _ Hinv) as Hc.
  apply list_elem_of_split in Hv as (pre & post & Hsplit).
  pose proof (chain_length _ _ Hd Hc) as Hlen. rewrite Hsplit in *.
  apply NoDup_app in Hd as Hd'. destruct Hd' as (Hdp & Hvp & Hd2). apply NoDup_cons in Hd2 as [Hvpost _].
  rewrite (climb_chain _ pre post v u).
  - split.
    + destruct pre as [|u' pre]; [by simplify_eq/=|]. injection Hsplit as <- _.
      rewrite reverse_cons, <-app_assoc.
      apply (is_walk_snoc waits_on (v :: reverse pre) u v).
      * apply (chain_walk _ (u :: pre) v post) in Hc. by rewrite reverse_cons in Hc.
      * done.
    + exists v, (reverse pre). split; [done|]. apply NoDup_cons.
      rewrite elem_of_reverse, reverse_Permutation. split; [set_solver|done].
  - done.
  - set_solver.
  - intros Hin. apply Hempty, (inv_ns _ _ _ Hinv). set_solver.
  - rewrite length_app in Hlen. simpl in Hlen. lia.
  - destruct pre; simplify_eq/=; done.
Qed.

Lemma color_of_set st v c w :
  color_of (set_color st v c) w = if decide (v = w) then c else color_of st w.
Proof. apply get_or_insert. Qed.

Lemma white_fresh st stk order u : search_inv st stk order →
  color_of st u = white ↔ u ∉ stk ++ order.
Proof.
  intros Hinv. rewrite elem_of_app, <-(inv_gray _ _ _ Hinv), <-(inv_black _ _ _ Hinv).
  destruct (color_of st u); naive_solver.
Qed.

(** The current name was reached from the top of the stack. *)
Definition linked (st : dfs_state) (u : string) (stk : list string) : Prop :=
  match stk with
  | [] => True
  | y :: _ => parents st !! u = Some y ∧ waits_on y u
  end.

Lemma inv_push st stk order u :
  search_inv st stk order → color_of st u = white → u ∈ ns → linked st u stk →
  search_inv (set_color st u gray) (u :: stk) order.
Proof.
  intros Hinv Hw Hu Hl. pose proof (proj1 (white_fresh _ _ _ _ Hinv) Hw) as Hfresh.
  destruct Hinv as [Hg Hb Hd Hn Hc Ht]. split.
  - intros v. rewrite color_of_set, elem_of_cons, <-Hg. case_decide; [subst; tauto|].
    split; [tauto|]. by intros [->|].
  - intros v. rewrite color_of_set, <-Hb. case_decide; [subst; by rewrite Hw|done].
  - by apply NoDup_cons.
  - intros v [->|?]%elem_of_cons; auto.
  - destruct stk as [|y stk]; [done|]. simpl in *. tauto.
  - done.
Qed.

Lemma inv_pop st stk order u :
  search_inv st (u :: stk) order → (∀ v, waits_on u v → v ∈ order) →
  search_inv (set_color st u black) stk (u :: order).
Proof.
  intros [Hg Hb Hd Hn Hc Ht] Hsucc. apply NoDup_cons in Hd as [Hu Hd]. split.
  - intros v. rewrite color_of_set. case_decide; [subst; set_solver|].
    rewrite Hg. set_solver.
  - intros v. rewrite color_of_set, elem_of_cons, <-Hb. case_decide; [subst; tauto|].
    split; [tauto|]. by intros [->|].
  - rewrite <-Permutation_middle. by apply NoDup_cons.
  - intros v Hv. apply Hn. set_solver.
  - destruct stk; simpl in *; tauto.
  - intros [|x l1] u' l2 Heq v Hv; simplify_eq/=; eauto.
Qed.

Lemma inv_parent st stk order v u :
  search_inv st stk order → color_of st v = white →
  search_inv (set_parent st v u) stk order.
Proof.
  intros Hinv Hw. pose proof (proj1 (white_fresh _ _ _ _ Hinv) Hw) as Hfresh.
  destruct Hinv as [Hg Hb Hd Hn Hc Ht]. split; try done.
  apply chain_insert; [set_solver|done].
Qed.

(** What a call of [dfs] or of its loop leaves behind: a cycle, or a state with
    the same stack in which the names [done] are black. *)
Definition explored (stk order done : list string)
    (r : result (dfs_state * option (list string))) : Prop :=
  ∃ st' c, r = Ok (st', c) ∧
    match c with
    | Some path => is_cycle waits_on path
    | None => ∃ order', search_inv st' stk order' ∧ order ⊆ order' ∧
        length order ≤ length order' ∧ ∀ v, v ∈ done → v ∈ ns → v ∈ order'
    end.

Lemma dfs_loop_explored visit bound u stk vs : ∀ order st,
  bound ≤ length order →
  (∀ v st order, bound ≤ length order → search_inv st (u :: stk) order → color_of st v = white → v ∈ ns →
     linked st v (u :: stk) → explored (u :: stk) order [v] (visit v st)) →
  search_inv st (u :: stk) order → (∀ v, v ∈ vs → v ∈ get_or [] waits u) →
  explored (u :: stk) order vs (dfs_loop ns visit u vs st).
Proof.
  induction vs as [|v vs IH]; intros order st Hb Hvisit Hinv Hvs; cbn [dfs_loop].
  { exists st, None. split; [done|]. exists order. split_and!; try done. set_solver. }
  assert (∀ w, w ∈ vs → w ∈ get_or [] waits u) as Hvs' by (intros; apply Hvs; by right).
  case_decide as Hv.
  2:{ destruct (IH order st Hb Hvisit Hinv Hvs') as (st' & c & -> & Hc). exists st', c.
      split; [done|]. destruct c; [done|]. destruct Hc as (o & ? & ? & ? & Hd).
      exists o. split_and!; try done. intros w [->|?]%elem_of_cons ?; [done|by auto]. }
  assert (waits_on u v) as Huv by (split; [done|apply Hvs; by left]).
  destruct (color_of st v) eqn:Ec.
  - destruct (Hvisit v (set_parent st v u) order) as (st1 & c & -> & Hc).
    { done. } { by apply inv_parent. } { done. } { done. }
    { split; [apply lookup_insert_eq|done]. }
    destruct c as [path|]; [by exists st1, (Some path)|].
    destruct Hc as (o1 & Hinv1 & Hsub1 & Hl1 & Hd1).
    destruct (IH o1 st1 ltac:(lia) Hvisit Hinv1 Hvs') as (st' & c & -> & Hc). exists st', c.
    split; [done|]. destruct c; [done|]. destruct Hc as (o & ? & Hsub & ? & Hd).
    exists o. split_and!; [done|set_solver|lia|].
    intros w [->|?]%elem_of_cons ?; [|by auto]. apply Hsub, Hd1; set_solver.
  - eexists _, _. split; [done|]. simpl.
    eapply reconstruct_cycle; [done| |done]. by apply (inv_gray _ _ _ Hinv).
  - destruct (IH order st Hb Hvisit Hinv Hvs') as (st' & c & -> & Hc). exists st', c.
    split; [done|]. destruct c; [done|]. destruct Hc as (o & ? & Hsub & ? & Hd).
    exists o. split_and!; try done. intros w [->|?]%elem_of_cons ?; [|by auto].
    apply Hsub. by apply (inv_black _ _ _ Hinv).
Qed.

Lemma dfs_explored fuel : ∀ u st stk order,
  search_inv st stk order → color_of st u = white → u ∈ ns → linked st u stk →
  length ns ≤ fuel + length stk + length order →
  explored stk order [u] (dfs ns waits fuel u st).
Proof.
  induction fuel as [|fuel IH]; intros u st stk order Hinv Hw Hu Hl Hlen.
  { pose proof (inv_push _ _ _ _ Hinv Hw Hu Hl) as Hinv'.
    assert (length (u :: stk ++ order) ≤ length ns) as Hle.
    { apply submseteq_length, NoDup_submseteq; [apply (inv_nodup _ _ _ Hinv')|].
      apply (inv_ns _ _ _ Hinv'). }
    simpl in Hle. rewrite length_app in Hle. lia. }
  cbn [dfs]. pose proof (inv_push _ _ _ _ Hinv Hw Hu Hl) as Hinv1.
  destruct (dfs_loop_explored (dfs ns waits fuel) (length order) u stk (sort_strings (get_or [] waits u))
    order (set_color st u gray)) as (st' & c & -> & Hc).
  - done.
  - intros v st1 order1 Hlo Hinv2 Hv Hvn Hvl. apply IH; try done. simpl. lia.
  - done.
  - intros v. by rewrite elem_of_sort_strings.
  - destruct c as [path|]; [by exists st', (Some path)|].
    destruct Hc as (o & Hinv2 & Hsub & Hlo & Hd).
    assert (∀ v, waits_on u v → v ∈ o) as Hsucc.
    { intros v [Hv Hvw]. apply Hd; [by rewrite elem_of_sort_strings|done]. }
    eexists _, None. split; [done|]. exists (u :: o).
    split_and!; [by apply inv_pop|set_solver|simpl; lia|set_solver].
Qed.

Lemma dfs_all_explored rest : ∀ st order,
  search_inv st [] order → (∀ n, n ∈ rest → n ∈ ns) →
  ∃ c, dfs_all ns waits (length ns) rest st = Ok c ∧
    match c with
    | Some path => is_cycle waits_on path
    | None => ∃ st' order', search_inv st' [] order' ∧ order ⊆ order' ∧ rest ⊆ order'
    end.
Proof.
  induction rest as [|n rest IH]; intros st order Hinv Hns; cbn [dfs_all].
  { exists None. split; [done|]. exists st, order. split_and!; [done|done|set_solver]. }
  assert (∀ m, m ∈ rest → m ∈ ns) as Hns' by (intros; apply Hns; by right).
  destruct (color_of st n) eqn:Ec.
  - destruct (dfs_explored (length ns) n st [] order) as (st1 & c & -> & Hc); try done.
    { apply Hns. left. } { simpl. lia. }
    destruct c as [path|]; [by exists (Some path)|].
    destruct Hc as (o1 & Hinv1 & Hsub1 & _ & Hd1).
    destruct (IH st1 o1 Hinv1 Hns') as (c & -> & Hc). exists c. split; [done|].
    destruct c; [done|]. destruct Hc as (st' & o & ? & ? & ?). exists st', o.
    split_and!; [done|set_solver|]. assert (n ∈ o1) by (apply Hd1, Hns; left). set_solver.
  - apply (inv_gray _ _ _ Hinv) in Ec. set_solver.
  - destruct (IH st order Hinv Hns') as (c & -> & Hc). exists c. split; [done|].
    destruct c; [done|]. destruct Hc as (st' & o & ? & ? & ?). exists st', o.
    apply (inv_black _ _ _ Hinv) in Ec. split_and!; [done|set_solver|set_solver].
Qed.

Fixpoint rank_in (order : list string) (u : string) : nat :=
  match order with
  | [] => 0
  | x :: l => if decide (x = u) then S (length l) else rank_in l u
  end.

Lemma rank_in_app l1 l2 u : u ∉ l1 → rank_in (l1 ++ l2) u = rank_in l2 u.
Proof.
  induction l1 as [|x l1 IH]; simpl; intros Hu; [done|].
  rewrite decide_False by set_solver. apply IH. set_solver.
Qed.

Lemma rank_in_le l u : rank_in l u ≤ length l.
Proof. induction l; simpl; [done|]. case_decide; lia. Qed.

Lemma topo_ranked st order : search_inv st [] order → ns ⊆ order → ranked waits_on ns.
Proof.
  intros [_ _ Hd _ _ Ht] Hsub. exists (rank_in order). intros u v Hu Huv.
  apply Hsub in Hu. apply list_elem_of_split in Hu as (l1 & l2 & Heq).
  pose proof (Ht _ _ _ Heq v Huv) as Hv. subst order. simpl in Hd.
  apply NoDup_app in Hd as (Hd1 & Hd12 & Hd2). apply NoDup_cons in Hd2 as [Hu2 Hd2].
  assert (v ∉ l1) by (intros Hin; apply (Hd12 v Hin); by right).
  assert (u ∉ l1) by (intros Hin; apply (Hd12 u Hin); by left).
  rewrite !rank_in_app by done. simpl.
  destruct (decide (u = v)) as [->|]; [done|]. rewrite decide_True by done. pose proof (rank_in_le l2 v). lia.
Qed.
End cycle.

Section find_cycle.
Context {NM : Naming} {MR : MapRange}.

Lemma waits_on_sorted ns waits u v :
  waits_on (sort_strings ns) waits u v ↔ waits_on ns waits u v.
Proof. unfold waits_on. by rewrite elem_of_sort_strings. Qed.

Lemma is_walk_ext E1 E2 path : (∀ u v, E1 u v ↔ E2 u v) → is_walk E1 path → is_walk E2 path.
Proof.
  intros HE. induction path as [|a [|b path] IH]; simpl; [done..|]. rewrite HE. naive_solver.
Qed.

Lemma findCycle_cases ns waits : "" ∉ ns → ∃ c, findCycle ns waits = Ok c ∧
  match c with
  | Some path => is_cycle (waits_on ns waits) path
  | None => ranked (waits_on ns waits) ns
  end.
Proof.
  intros He. unfold findCycle.
  destruct (dfs_all_explored (sort_strings ns) waits ltac:(by rewrite elem_of_sort_strings)
    (sort_strings ns) {| colors := ∅; parents := ∅ |} []) as (c & -> & Hc).
  { split; [by split; [|intros ?%elem_of_nil]|by split; [|intros ?%elem_of_nil]|constructor| |done|].
    - by intros v ?%elem_of_nil.
    - by intros [|] u l2 Heq; simplify_eq/=. }
  { done. }
  exists c. split; [done|]. destruct c as [path|].
  - destruct Hc as [Hw Hd]. split; [|done]. eapply is_walk_ext; [|done].
    intros. apply waits_on_sorted.
  - destruct Hc as (st' & o & Hinv & _ & Hsub). destruct (topo_ranked _ _ ltac:(by rewrite elem_of_sort_strings) _ _ Hinv Hsub) as [rank Hr].
    exists rank. intros u v Hu Huv. apply Hr; [by rewrite elem_of_sort_strings|].
    by apply waits_on_sorted.
Qed.

Lemma findCycle_None ns waits : "" ∉ ns →
  findCycle ns waits = Ok None → ranked (waits_on ns waits) ns.
Proof.
  intros He Hf. destruct (findCycle_cases ns waits He) as (c & Hc & Hr).
  rewrite Hf in Hc. by injection Hc as <-.
Qed.

(** A cycle rules out a ranking. *)
Lemma cycle_not_ranked ns waits path :
  is_cycle (waits_on ns waits) path → ¬ ranked (waits_on ns waits) ns.
Proof.
  intros (Hw & v & mid & -> & _) Hr.
  assert (∀ l a b, is_walk (waits_on ns waits) (a :: l ++ [b]) → b ∈ ns) as Hlast.
  { induction l as [|x l IH]; intros a b; simpl; [by intros [[? _] _]|].
    intros [_ ?]. by eapply IH. }
  assert (v ∈ ns) as Hv by by eapply Hlast.
  eapply ranked_acyclic; [exact Hr| |exact Hv|by eapply walk_tc].
  intros ?? _ [? _]. done.
Qed.

(** ** The search does not depend on the order of its inputs *)

Definition same_waits (w1 w2 : gmap string (list string)) : Prop :=
  ∀ k, get_or [] w1 k ≡ₚ get_or [] w2 k.

Lemma dfs_loop_ext ns visit1 visit2 u vs st :
  (∀ v st, visit1 v st = visit2 v st) →
  dfs_loop ns visit1 u vs st = dfs_loop ns visit2 u vs st.
Proof.
  intros Hv. revert st. induction vs as [|v vs IH]; intros st; simpl; [done|].
  rewrite Hv. repeat case_match; auto.
Qed.

Lemma dfs_ext ns w1 w2 fuel : same_waits w1 w2 → ∀ u st,
  dfs ns w1 fuel u st = dfs ns w2 fuel u st.
Proof.
  intros Hw. induction fuel as [|fuel IH]; intros u st; [done|]. cbn [dfs].
  rewrite (sort_strings_unique _ _ (Hw u)). by rewrite (dfs_loop_ext _ _ _ _ _ _ IH).
Qed.

Lemma findCycle_perm ns1 ns2 w1 w2 :
  ns1 ≡ₚ ns2 → same_waits w1 w2 → findCycle ns1 w1 = findCycle ns2 w2.
Proof.
  intros Hns Hw. unfold findCycle. rewrite (sort_strings_unique _ _ Hns).
  generalize (length (sort_strings ns2)) as fuel. intros fuel.
  generalize {| colors := ∅; parents := ∅ |} as st. generalize (sort_strings ns2) at 2 4 as rest.
  induction rest as [|n rest IH]; intros st; cbn [dfs_all]; [done|].
  rewrite (dfs_ext _ w1 w2) by done. repeat case_match; auto.
Qed.

(** C13: the cycle search is exact. It always returns; a path it reports is a
    closed walk along the ordering that repeats no unit, and it reports none
    exactly when the units can be ranked so that everything a unit waits for
    ranks below it. *)
Theorem findCycle_exact ns waits :
  "" ∉ ns →
  match findCycle ns waits with
  | Ok (Some path) => is_cycle (waits_on ns waits) path ∧ ¬ ranked (waits_on ns waits) ns
  | Ok None => ranked (waits_on ns waits) ns
  | Fail _ => False
  end.
Proof.
  intros He. destruct (findCycle_cases ns waits He) as (c & -> & Hc).
  destruct c as [path|]; [|done]. split; [done|]. by eapply cycle_not_ranked.
Qed.

End find_cycle.

From S2P Require Import GoStrings UnitNames.

Lemma findCycle_exact_witness :
  let ns := ["a"; "b"; "c"]%string in
  let waits : gmap string (list string) := {[ "a" := ["b"]; "b" := ["c"]; "c" := ["a"] ]} in
  "" ∉ ns ∧ is_cycle (waits_on ns waits) ["a"; "b"; "c"; "a"].
Proof.
  intros ns waits.
  assert ("" ∉ ns) as He by (by vm_compute; set_solver).
  split; [exact He|].
  pose proof (findCycle_exact ns waits He) as H.
  replace (findCycle ns waits) with (Ok (Some ["a"; "b"; "c"; "a"])) in H
    by (vm_compute; reflexivity).
  exact (proj1 H).
Defined.
