(* ===== verification/CorePlan.v ===== *)
(** * Package core: transactions

    Translates [internal/core/transaction.go]: start, stop and shutdown plans
    over the dependency graph. *)

From S2P Require Import Prelude UnitTypes CoreGraph CoreCycle.

#[local] Open Scope go_scope.

Inductive JobKind := JobStart | JobStop.
#[global] Instance JobKind_eq_dec : EqDecision JobKind.
Proof. solve_decision. Defined.

Definition JobKind_String (k : JobKind) : string :=
  match k with JobStart => "start" | JobStop => "stop" end.

Record Job := { JobName : string; JobKindOf : JobKind }.

Record Transaction := {
  tx_g : Graph;
  tx_roots : list string;
  tx_jobs : gmap string Job;
  tx_waitsFor : gmap string (list string);
}.

Section plan.
Context {NM : Naming} {MR : MapRange}.

Definition jobNames (jobs : gmap string Job) : list string := sort_strings (keys jobs).

(** [Transaction.validate] of a transaction that is not nil. *)
Definition validate (tx : Transaction) : option error :=
  if decide (size (tx_jobs tx) = 0) then Some (ErrText "empty transaction")
  else match findCycle (jobNames (tx_jobs tx)) (tx_waitsFor tx) with
       | Ok None => None
       | Ok (Some path) => Some (CycleError path)
       | Fail e => Some e
       end.

(** [Units], [Jobs], [Ready] and [Contains]; [None] is a nil transaction. *)
Definition Units (tx : option Transaction) : list string :=
  match tx with None => [] | Some tx => jobNames (tx_jobs tx) end.
Definition Jobs (tx : option Transaction) : list Job :=
  match tx with
  | None => []
  | Some tx => omap (λ n, tx_jobs tx !! n) (jobNames (tx_jobs tx))
  end.
Definition Ready (tx : option Transaction) : list string :=
  match tx with
  | None => []
  | Some tx => filter (λ n, length (get_or [] (tx_waitsFor tx) n) = 0) (jobNames (tx_jobs tx))
  end.
Definition Contains (tx : option Transaction) (n : string) : bool :=
  match tx with
  | None => false
  | Some tx => bool_decide (is_Some (tx_jobs tx !! NormalizeName n))
  end.

(** The closure [add] of [plan].  [add_all] is its loop over one dependency
    list; [rec] is the recursive call. *)
Fixpoint add_all (rec : string → string → bool → gmap string Job → result (gmap string Job))
    (deps : list string) (requiredBy : string) (required : bool) (jobs : gmap string Job)
    : result (gmap string Job) :=
  match deps with
  | [] => Ok jobs
  | dep :: deps' =>
    jobs' <-? rec dep requiredBy required jobs ;;
    add_all rec deps' requiredBy required jobs'
  end.

(** The three loops over the dependencies of [nd], whose name is [n]. *)
Definition add_deps (rec : string → string → bool → gmap string Job → result (gmap string Job))
    (nd : node) (n : string) (jobs : gmap string Job) : result (gmap string Job) :=
  jobs <-? add_all rec (requires nd) n true jobs ;;
  jobs <-? add_all rec (bindsTo nd) n true jobs ;;
  add_all rec (wants nd) n false jobs.

Fixpoint add (g : Graph) (kind : JobKind) (fuel : nat) (n requiredBy : string) (required : bool)
    (jobs : gmap string Job) : result (gmap string Job) :=
  match fuel with
  | 0 => Fail OutOfFuel
  | S fuel =>
    let n := NormalizeName n in
    if decide (n = "") then
      if required && bool_decide (kind = JobStart)
      then Fail (MissingUnitError n requiredBy) else Ok jobs
    else match jobs !! n with
    | Some _ => Ok jobs
    | None =>
      match nodes g !! n with
      | None =>
        if required && (bool_decide (kind = JobStart) || bool_decide (requiredBy = ""))
        then Fail (MissingUnitError n requiredBy) else Ok jobs
      | Some nd =>
        add_deps (add g kind fuel) nd n (<[n := {| JobName := n; JobKindOf := kind |}]> jobs)
      end
    end
  end.

(** The loop over the names of a request: the distinct normalized roots, each
    handed to [accept]. *)
Fixpoint collect_roots {A} (accept : string → A → result A) (names : list string)
    (seen : gset string) (roots : list string) (acc : A) : result (list string * A) :=
  match names with
  | [] => Ok (roots, acc)
  | n :: names' =>
    let n := NormalizeName n in
    if decide (n = "") then Fail (ErrText "empty unit name")
    else if decide (n ∈ seen) then collect_roots accept names' seen roots acc
    else
      acc' <-? accept n acc ;;
      collect_roots accept names' ({[n]} ∪ seen) (roots ++ [n]) acc'
  end.

Definition afterSuccessors (g : Graph) (n : string) : list string :=
  let n := NormalizeName n in
  filter (λ other, node_test g (λ nd, containsName (waitsFor nd) n) other = true) (Names (Some g)).

(** The loop of [afterClosure]'s walk; [rec] is the recursive call. *)
Fixpoint after_loop (rec : string → gset string → result (gset string)) (laters : list string)
    (seen : gset string) : result (gset string) :=
  match laters with
  | [] => Ok seen
  | later :: laters' =>
    if decide (later ∈ seen) then after_loop rec laters' seen
    else seen' <-? rec later ({[later]} ∪ seen) ;; after_loop rec laters' seen'
  end.
Fixpoint after_walk (g : Graph) (fuel : nat) (n : string) (seen : gset string)
    : result (gset string) :=
  match fuel with
  | 0 => Fail OutOfFuel
  | S fuel => after_loop (after_walk g fuel) (afterSuccessors g n) seen
  end.
Definition afterClosure (g : Graph) (roots : list string) : result (list string) :=
  seen <-? walk_roots (after_walk g (S (size (nodes g)))) (NormalizeName <$> roots) ∅ ;;
  Ok (sort_strings (elements seen)).

(** [out[k] = append(out[k], v)]. *)
Definition append_at (m : gmap string (list string)) (k v : string) : gmap string (list string) :=
  <[k := get_or [] m k ++ [v]]> m.

(** Reverse the edges [deps] among the jobs, as [reverseWaits] and
    [reverseRequirementWaits] do. *)
Definition reverse_edges (deps : node → list string) (site : nat) (jobs : gmap string Job)
    (g : Graph) : gmap string (list string) :=
  let out := foldl (λ out '(n, _),
      match nodes g !! n with
      | None => out
      | Some nd =>
        foldl (λ out pred, if decide (is_Some (jobs !! pred)) then append_at out pred n else out)
          out (deps nd)
      end) ∅ (map_range site jobs) in
  uniqueStable <$> out.
Definition reverseWaits (jobs : gmap string Job) (g : Graph) : gmap string (list string) :=
  reverse_edges waitsFor 1 jobs g.
Definition reverseRequirementWaits (jobs : gmap string Job) (g : Graph)
    : gmap string (list string) :=
  reverse_edges stopDepNames 2 jobs g.

Definition append_waits (out : gmap string (list string)) (p : string * list string)
    : gmap string (list string) :=
  <[p.1 := get_or [] out p.1 ++ p.2]> out.
Definition mergeWaits (a b : gmap string (list string)) : gmap string (list string) :=
  let out := foldl append_waits ∅ (map_range 3 a) in
  let out := foldl append_waits out (map_range 4 b) in
  uniqueStable <$> out.

(** The ordering among the jobs of a start. *)
Definition start_waits (g : Graph) (jobs : gmap string Job) : gmap string (list string) :=
  map_imap (λ n _, Some (uniqueStable
    (filter (λ dep, is_Some (jobs !! dep)) (names_of waitsFor (nodes g !! n))))) jobs.

Definition validated (tx : Transaction) : result Transaction :=
  match validate tx with None => Ok tx | Some e => Fail e end.

Definition plan (g : option Graph) (kind : JobKind) (names : list string) : result Transaction :=
  match g with
  | None => Fail (ErrText "nil graph")
  | Some g =>
    match names with
    | [] => Fail (ErrText (match kind with JobStop => "no unit to stop" | _ => "no unit to start" end))
    | _ =>
      let add := add g kind (S (size (nodes g))) in
      r <-? collect_roots (λ n jobs, add n "" true jobs) names ∅ [] ∅ ;;
      let '(roots, jobs) := r in
      match kind with
      | JobStop =>
        laters <-? afterClosure g roots ;;
        jobs <-? add_all add laters "" false jobs ;;
        validated {| tx_g := g; tx_roots := roots; tx_jobs := jobs;
                     tx_waitsFor := reverseWaits jobs g |}
      | JobStart =>
        validated {| tx_g := g; tx_roots := roots; tx_jobs := jobs;
                     tx_waitsFor := start_waits g jobs |}
      end
    end
  end.

Definition PlanStart (g : option Graph) (names : list string) : result Transaction :=
  plan g JobStart names.
Definition PlanShutdown (g : option Graph) (names : list string) : result Transaction :=
  plan g JobStop names.

Definition PlanStop (g : option Graph) (names : list string) : result Transaction :=
  match g with
  | None => Fail (ErrText "nil graph")
  | Some g =>
    match names with
    | [] => Fail (ErrText "no unit to stop")
    | _ =>
      r <-? collect_roots (λ n (_ : Datatypes.unit),
              match nodes g !! n with
              | None => Fail (MissingUnitError n "")
              | Some _ => Ok tt
              end) names ∅ [] tt ;;
      let roots := r.1 in
      closure <-? reverseRequirementClosure (Some g) roots ;;
      let jobs := list_to_map ((λ n, (n, {| JobName := n; JobKindOf := JobStop |})) <$> closure) in
      validated {| tx_g := g; tx_roots := roots; tx_jobs := jobs;
                   tx_waitsFor := mergeWaits (reverseWaits jobs g)
                                             (reverseRequirementWaits jobs g) |}
    end
  end.

(** ** What a start pulls in *)

Definition pull_deps (n : node) : list string := requires n ++ bindsTo n ++ wants n.
Definition pull_succ (g : Graph) (a : string) : list string :=
  loaded_roots g (names_of pull_deps (nodes g !! a)).

(** [a] is loaded and declares Requires=, BindsTo= or Wants= the loaded unit [b]. *)
Definition pulls (g : Graph) (a b : string) : Prop := ∃ na,
  nodes g !! a = Some na ∧ (b ∈ requires na ∨ b ∈ bindsTo na ∨ b ∈ wants na) ∧
  is_Some (nodes g !! b).

(** [a] is loaded and declares Requires= or BindsTo= [b]. *)
Definition hard_depends (g : Graph) (a b : string) : Prop := ∃ na,
  nodes g !! a = Some na ∧ (b ∈ requires na ∨ b ∈ bindsTo na).

(** Every job is for a loaded unit and carries its name. *)
Definition jobs_wf (g : Graph) (kind : JobKind) (jobs : gmap string Job) : Prop :=
  ∀ n j, jobs !! n = Some j →
    j = {| JobName := n; JobKindOf := kind |} ∧ is_Some (nodes g !! n).

(** Evidence for a missing unit found while pulling in [root] for [requiredBy]:
    it is the root itself, or a unit reached from it needs it. *)
Definition missing_from (g : Graph) (kind : JobKind) (root requiredBy : string) (required : bool)
    (e : error) : Prop := ∃ u by', e = MissingUnitError u by' ∧ nodes g !! u = None ∧
  ((u = NormalizeName root ∧ by' = requiredBy ∧ required = true ∧
      (kind = JobStart ∨ requiredBy = "")) ∨
   (kind = JobStart ∧ hard_depends g by' u ∧
      ∃ r, r ∈ loaded_roots g [root] ∧ rtc (edge (pull_succ g)) r by')).

(** The outcome of adding [roots] to [jobs]. *)
Definition added (g : Graph) (kind : JobKind) (roots : list string) (requiredBy : string)
    (required : bool) (jobs : gmap string Job) (r : result (gmap string Job)) : Prop :=
  match r with
  | Ok jobs' =>
    visits (pull_succ g) (loaded_roots g roots) (dom jobs) (dom jobs') ∧
    jobs ⊆ jobs' ∧ jobs_wf g kind jobs' ∧
    (kind = JobStart → ∀ x, x ∈ dom jobs' → x ∉ dom jobs →
       ∀ d, hard_depends g x d → is_Some (nodes g !! d)) ∧
    (required = true → kind = JobStart ∨ requiredBy = "" →
       ∀ n, n ∈ roots → NormalizeName n ≠ "" ∨ kind = JobStart →
       is_Some (nodes g !! NormalizeName n))
  | Fail e => ∃ root, root ∈ roots ∧ missing_from g kind root requiredBy required e
  end.

Section adding.
Context (g : Graph) (Hg : graph_wf g) (kind : JobKind).

Lemma added_nil requiredBy required jobs :
  jobs_wf g kind jobs → added g kind [] requiredBy required jobs (Ok jobs).
Proof.
  intros Hj. simpl. split_and!; [apply visits_nil|done..|set_solver].
Qed.

Lemma added_app roots1 roots2 requiredBy required jobs (f : gmap string Job → result (gmap string Job)) r :
  added g kind roots1 requiredBy required jobs r →
  (∀ jobs', r = Ok jobs' → added g kind roots2 requiredBy required jobs' (f jobs')) →
  added g kind (roots1 ++ roots2) requiredBy required jobs
    (match r with Ok jobs' => f jobs' | Fail e => Fail e end).
Proof.
  intros H1 H2. destruct r as [jobs'|e].
  2:{ destruct H1 as (root & ? & ?). exists root. split; [set_solver|done]. }
  specialize (H2 jobs' eq_refl). destruct H1 as (V1 & S1 & W1 & D1 & R1).
  destruct (f jobs') as [jobs''|e]; simpl in *.
  2:{ destruct H2 as (root & ? & ?). exists root. split; [set_solver|done]. }
  destruct H2 as (V2 & S2 & W2 & D2 & R2). split_and!; [|by etrans|done| |].
  - rewrite loaded_roots_app. by eapply visits_app.
  - intros Hk x Hx Hn. destruct (decide (x ∈ dom jobs')); [by apply D1|by apply D2].
  - intros Hr Hk n [?|?]%elem_of_app ?; eauto.
Qed.

Lemma missing_nodes_empty : nodes g !! "" = None.
Proof.
  destruct (nodes g !! "") as [n|] eqn:E; [|done].
  apply (wf_node g Hg) in E as [_ [_ ?] _ _ _ _ _ _]. done.
Qed.

Lemma add_all_added rec requiredBy required bound deps : ∀ jobs,
  (∀ n jobs, n ∈ deps → jobs_wf g kind jobs → size (dom (nodes g) ∖ dom jobs) < bound →
     added g kind [n] requiredBy required jobs (rec n requiredBy required jobs)) →
  jobs_wf g kind jobs → size (dom (nodes g) ∖ dom jobs) < bound →
  added g kind deps requiredBy required jobs (add_all rec deps requiredBy required jobs).
Proof.
  induction deps as [|n deps IH]; intros jobs Hrec Hj Hsz; cbn [add_all].
  { by apply added_nil. }
  assert (added g kind [n] requiredBy required jobs (rec n requiredBy required jobs)) as Hn
    by (apply Hrec; [left|done..]).
  apply (added_app [n] deps); [done|]. intros jobs' Heq. rewrite Heq in Hn.
  destruct Hn as (V & _ & Hj' & _). apply IH; [|done|].
  - intros. apply Hrec; [by right|done..].
  - eapply Nat.le_lt_trans; [|exact Hsz]. apply subseteq_size. destruct V as [? _]. set_solver.
Qed.

(** A loaded unit with its hard and soft dependencies. *)
Lemma add_node n nd requiredBy required jobs r f :
  nodes g !! NormalizeName n = Some nd → jobs !! NormalizeName n = None →
  added g kind (requires nd ++ bindsTo nd) (NormalizeName n) true
    (<[NormalizeName n := {| JobName := NormalizeName n; JobKindOf := kind |}]> jobs) r →
  (∀ jobs', r = Ok jobs' → added g kind (wants nd) (NormalizeName n) false jobs' (f jobs')) →
  added g kind [n] requiredBy required jobs
    (match r with Ok jobs' => f jobs' | Fail e => Fail e end).
Proof.
  set (n' := NormalizeName n). intros Hnd Hnj H12 H3.
  assert (loaded_roots g [n] = [n']) as Hroot.
  { unfold loaded_roots. simpl. rewrite filter_cons, filter_nil. fold n'.
    rewrite decide_True by eauto. done. }
  assert (n' ≠ "") as Hne by (apply (wf_node g Hg) in Hnd as [_ [_ ?] _ _ _ _ _ _]; done).
  assert (∀ d root, d ∈ pull_deps nd → root ∈ loaded_roots g [d] → edge (pull_succ g) n' root) as Hedge.
  { intros d root Hd Hr. unfold edge, pull_succ. rewrite Hnd. simpl.
    unfold loaded_roots in *. rewrite list_elem_of_filter in *. set_solver. }
  assert (∀ d e req, d ∈ pull_deps nd → missing_from g kind d n' req e →
    (req = true → d ∈ requires nd ∨ d ∈ bindsTo nd) →
    missing_from g kind n requiredBy required e) as Hmiss.
  { intros d e req Hd (u & by' & -> & Hu & Hcase) Hreq. exists u, by'. split_and!; [done..|].
    right. rewrite Hroot. destruct Hcase as [(-> & -> & Htrue & [Hk|?])|(Hk & Hdep & rt & Hrt & Hpath)].
    - split_and!; [done| |exists n'; split; [set_solver|apply rtc_refl]].
      exists nd. split; [done|]. specialize (Hreq Htrue).
      enough (NormalizeName d = d) as ->; [done|].
      pose proof (wf_node g Hg _ _ Hnd) as [_ _ [_ Hq] _ [_ Hb] _ _ _].
      destruct Hreq as [Hreq|Hreq]; [apply Hq in Hreq|apply Hb in Hreq]; apply Hreq.
    - done.
    - split_and!; [done..|]. exists n'. split; [set_solver|]. eapply rtc_l; [|done]. eauto. }
  destruct r as [jobs2|e].
  2:{ destruct H12 as (d & Hd & Hm). exists n. split; [set_solver|].
      apply (Hmiss d e true); [unfold pull_deps; set_solver|done|set_solver]. }
  specialize (H3 jobs2 eq_refl). destruct (f jobs2) as [jobs3|e].
  2:{ destruct H3 as (d & Hd & Hm). exists n. split; [set_solver|].
      apply (Hmiss d e false); [unfold pull_deps; set_solver|done|done]. }
  destruct H12 as (V1 & S1 & W1 & D1 & R1), H3 as (V2 & S2 & W2 & D2 & R2).
  split_and!; [| |done| |].
  - rewrite Hroot. apply visits_node. rewrite dom_insert_L in V1.
    unfold pull_succ at 2. rewrite Hnd. simpl. unfold pull_deps. rewrite app_assoc, loaded_roots_app.
    by eapply visits_app.
  - etrans; [|done]. etrans; [|done]. by apply insert_subseteq.
  - intros Hk x Hx Hn d Hd. destruct (decide (x = n')) as [->|Hxn].
    + destruct Hd as (nd' & Hnd' & Hd). rewrite Hnd in Hnd'. injection Hnd' as <-.
      specialize (R1 eq_refl (or_introl Hk) d ltac:(set_solver) (or_intror Hk)).
      enough (NormalizeName d = d) as Heq by (by rewrite Heq in R1).
      pose proof (wf_node g Hg _ _ Hnd) as [_ _ [_ Hq] _ [_ Hb] _ _ _].
      destruct Hd as [Hd|Hd]; [apply Hq in Hd|apply Hb in Hd]; apply Hd.
    + destruct (decide (x ∈ dom jobs2)); [|by eapply D2].
      eapply D1; [done|done| |done]. rewrite dom_insert_L. set_solver.
  - intros _ _ m ->%list_elem_of_singleton _. fold n'. eauto.
Qed.

Lemma add_deps_added rec fuel n nd requiredBy required jobs :
  (∀ m r q jobs, jobs_wf g kind jobs → size (dom (nodes g) ∖ dom jobs) < fuel →
     added g kind [m] r q jobs (rec m r q jobs)) →
  jobs_wf g kind jobs → size (dom (nodes g) ∖ dom jobs) < S fuel →
  nodes g !! NormalizeName n = Some nd → jobs !! NormalizeName n = None →
  added g kind [n] requiredBy required jobs
    (add_deps rec nd (NormalizeName n)
       (<[NormalizeName n := {| JobName := NormalizeName n; JobKindOf := kind |}]> jobs)).
Proof.
  set (n' := NormalizeName n). intros Hrec Hj Hsz En Ej.
  set (jobs1 := <[n' := {| JobName := n'; JobKindOf := kind |}]> jobs).
  assert (jobs_wf g kind jobs1) as Hj1.
  { intros m j. unfold jobs1. rewrite lookup_insert.
    case_decide; [intros [= <-]; subst; eauto|by apply Hj]. }
  assert (size (dom (nodes g) ∖ dom jobs1) < fuel) as Hsz1.
  { unfold jobs1. rewrite dom_insert_L. pose proof (fresh_size g Hg (dom jobs) n') as Hf.
    rewrite not_elem_of_dom in Hf. specialize (Hf ltac:(eauto) Ej). lia. }
  assert (∀ deps q jobs0, jobs_wf g kind jobs0 → size (dom (nodes g) ∖ dom jobs0) < fuel →
    added g kind deps n' q jobs0 (add_all rec deps n' q jobs0)) as Hall.
  { intros. apply (add_all_added _ _ _ fuel); [|done..]. intros. by apply Hrec. }
  assert (∀ jobs' deps q, added g kind deps n' q jobs1 (Ok jobs') →
    jobs_wf g kind jobs' ∧ size (dom (nodes g) ∖ dom jobs') < fuel) as Hnext.
  { intros jobs' deps q (V & _ & ? & _). split; [done|].
    eapply Nat.le_lt_trans; [|exact Hsz1]. apply subseteq_size. destruct V as [? _]. set_solver. }
  assert (added g kind (requires nd ++ bindsTo nd) n' true jobs1
    (match add_all rec (requires nd) n' true jobs1 with
     | Ok jobs' => add_all rec (bindsTo nd) n' true jobs'
     | Fail e => Fail e end)) as H12.
  { apply added_app; [by apply Hall|]. intros jobs' Heq.
    pose proof (Hall (requires nd) true jobs1 Hj1 Hsz1) as Hr.
    rewrite Heq in Hr. apply Hnext in Hr as [? ?]. by apply Hall. }
  unfold add_deps.
  pose proof (add_node n nd requiredBy required jobs _
    (add_all rec (wants nd) n' false) En Ej H12) as Hn.
  destruct (add_all rec (requires nd) n' true jobs1) as [jobs2|]; apply Hn; [|done].
  intros jobs' Heq. rewrite Heq in H12. apply Hnext in H12 as [? ?]. by apply Hall.
Qed.

Lemma add_added fuel : ∀ n requiredBy required jobs,
  jobs_wf g kind jobs → size (dom (nodes g) ∖ dom jobs) < fuel →
  added g kind [n] requiredBy required jobs (add g kind fuel n requiredBy required jobs).
Proof.
  induction fuel as [|fuel IH]; intros n requiredBy required jobs Hj Hsz; [lia|].
  cbn [add]. set (n' := NormalizeName n).
  assert (nodes g !! n' = None → loaded_roots g [n] = []) as Hnone.
  { intros Hn. unfold loaded_roots. simpl. rewrite filter_cons, filter_nil. fold n'.
    rewrite decide_False by (rewrite Hn; by intros [? ?]). done. }
  case_decide as He.
  { assert (nodes g !! n' = None) as Hn by (rewrite He; apply missing_nodes_empty).
    destruct (required && bool_decide (kind = JobStart)) eqn:Er.
    - exists n. split; [set_solver|]. apply andb_true_iff in Er as [? ?%bool_decide_eq_true].
      exists n', requiredBy. split_and!; [done..|]. left. auto.
    - simpl. rewrite Hnone by done. split_and!; [apply visits_nil|done..|].
      intros -> _ m ->%list_elem_of_singleton Hm. fold n' in Hm.
      apply andb_false_iff in Er as [?|?%bool_decide_eq_false]; naive_solver. }
  destruct (jobs !! n') as [j|] eqn:Ej.
  { assert (is_Some (nodes g !! n')) as Hn by (by apply Hj in Ej as [_ ?]).
    simpl. split_and!; [|done..|by intros _ _ m ->%list_elem_of_singleton _].
    unfold loaded_roots. simpl. rewrite filter_cons, filter_nil. fold n'.
    rewrite decide_True by done. apply visits_seen, elem_of_dom. eauto. }
  destruct (nodes g !! n') as [nd|] eqn:En; [by eapply add_deps_added|].
  destruct (required && (bool_decide (kind = JobStart) || bool_decide (requiredBy = ""))) eqn:Er.
  - exists n. split; [set_solver|]. rewrite andb_true_iff, orb_true_iff, !bool_decide_eq_true in Er.
    exists n', requiredBy. split_and!; [done..|]. left. naive_solver.
  - simpl. rewrite Hnone by done. split_and!; [apply visits_nil|done..|].
    intros -> Hk. rewrite andb_true_l, orb_false_iff, !bool_decide_eq_false in Er. naive_solver.
Qed.

End adding.

End plan.
