(* ===== verification/CorePlanSpec.v ===== *)
(** * Package core: the plans are exact

    What [PlanStart], [PlanStop] and [PlanShutdown] of
    [internal/core/transaction.go] promise: the job set of a plan is a
    reachability set of the dependency graph, its ordering is the ordering of
    the graph (reversed for a stop) restricted to the jobs, and every error
    is backed by evidence. *)

From S2P Require Import Prelude UnitTypes CoreGraph CoreCycle CorePlan.

#[local] Open Scope go_scope.

(** What a validated transaction is, for a set of units and an ordering
    [ahead w x], "[w] goes ahead of [x]". *)
Record planned {NM : Naming} (g : Graph) (roots : list string) (kind : JobKind)
    (units : string → Prop) (ahead : string → string → Prop) (tx : Transaction) : Prop := {
  pl_graph : tx_g tx = g;
  pl_roots : tx_roots tx = uniqueStable roots;
  pl_jobs : jobs_wf g kind (tx_jobs tx);
  pl_units : ∀ x, is_Some (tx_jobs tx !! x) ↔ units x;
  pl_waits : ∀ x w, w ∈ get_or [] (tx_waitsFor tx) x ↔ units x ∧ units w ∧ ahead w x;
  pl_nodup : ∀ x, NoDup (get_or [] (tx_waitsFor tx) x);
  pl_acyclic : ∃ rank : string → nat, ∀ x w,
    w ∈ get_or [] (tx_waitsFor tx) x → rank w < rank x;
}.

(** The plan is rejected with a cycle of the ordering among its units. *)
Definition rejected_cycle (units : string → Prop) (ahead : string → string → Prop)
    (e : error) : Prop :=
  ∃ path, e = CycleError path ∧ is_cycle (λ x w, units x ∧ units w ∧ ahead w x) path.

(** The request itself is rejected. *)
Definition rejected_request {NM : Naming} (none : string) (names : list string)
    (e : error) : Prop :=
  (e = ErrText none ∧ names = []) ∨
  (e = ErrText "empty unit name" ∧ ∃ n, n ∈ names ∧ NormalizeName n = "").

Section spec.
Context {NM : Naming} {MR : MapRange}.

(** ** The roots of a request *)

Fixpoint accept_all {A} (accept : string → A → result A) (l : list string) (acc : A) : result A :=
  match l with
  | [] => Ok acc
  | n :: l' => acc' <-? accept n acc ;; accept_all accept l' acc'
  end.

Lemma collect_roots_cases {A} (accept : string → A → result A) names : ∀ seen roots acc,
  match collect_roots accept names seen roots acc with
  | Ok (roots', acc') =>
    roots' = roots ++ uniqueStable_go seen names ∧
    (∀ n, n ∈ names → NormalizeName n ≠ "") ∧
    accept_all accept (uniqueStable_go seen names) acc = Ok acc'
  | Fail e =>
    (e = ErrText "empty unit name" ∧ ∃ n, n ∈ names ∧ NormalizeName n = "") ∨
    accept_all accept (uniqueStable_go seen names) acc = Fail e
  end.
Proof.
  induction names as [|n names IH]; intros seen roots acc; simpl.
  { rewrite app_nil_r. split_and!; [done|by intros ? ?%elem_of_nil|done]. }
  case_decide as He.
  { left. split; [done|]. exists n. split; [left|done]. }
  case_decide as Hs.
  - specialize (IH seen roots acc). destruct (collect_roots _ _ _ _ _) as [[roots' acc']|e].
    + destruct IH as (-> & Hn & ->). split_and!; [done| |done]. set_solver.
    + destruct IH as [(-> & m & ? & ?)|?]; [left|by right].
      split; [done|]. exists m. split; [by right|done].
  - simpl. destruct (accept (NormalizeName n) acc) as [acc1|e]; simpl; [|by right].
    specialize (IH ({[NormalizeName n]} ∪ seen) (roots ++ [NormalizeName n]) acc1).
    destruct (collect_roots _ _ _ _ _) as [[roots' acc']|e].
    + destruct IH as (-> & Hn & ->). rewrite <-app_assoc. split_and!; [done| |done]. set_solver.
    + destruct IH as [(-> & m & ? & ?)|?]; [left|by right].
      split; [done|]. exists m. split; [by right|done].
Qed.

Lemma accept_all_add rec l jobs :
  accept_all (λ n jobs, rec n "" true jobs) l jobs = add_all rec l "" true jobs.
Proof.
  revert jobs. induction l as [|n l IH]; intros jobs; simpl; [done|].
  destruct (rec n "" true jobs); [apply IH|done].
Qed.

Lemma accept_all_loaded g l :
  match accept_all (λ n (_ : Datatypes.unit),
      match nodes g !! n with None => Fail (MissingUnitError n "") | Some _ => Ok tt end) l tt with
  | Ok _ => ∀ n, n ∈ l → is_Some (nodes g !! n)
  | Fail e => ∃ n, n ∈ l ∧ nodes g !! n = None ∧ e = MissingUnitError n ""
  end.
Proof.
  induction l as [|n l IH]; simpl; [by intros ? ?%elem_of_nil|].
  destruct (nodes g !! n) as [nd|] eqn:En; simpl.
  - destruct (accept_all _ l tt).
    + intros m [->|?]%elem_of_cons; eauto.
    + destruct IH as (m & ? & ? & ?). exists m. split_and!; [by right|done..].
  - exists n. split_and!; [left|done..].
Qed.

(** ** The orderings among the jobs *)

Lemma get_or_fmap_uniqueStable (m : gmap string (list string)) k :
  get_or [] (uniqueStable <$> m) k = uniqueStable (get_or [] m k).
Proof. unfold get_or. rewrite lookup_fmap. by destruct (m !! k). Qed.

Lemma get_or_append_at m k v k' :
  get_or [] (append_at m k v) k' = get_or [] m k' ++ (if decide (k = k') then [v] else []).
Proof.
  unfold append_at. rewrite get_or_insert. case_decide; subst; [done|]. by rewrite app_nil_r.
Qed.

Section waits.
Context (g : Graph) (Hg : graph_wf g) (kind : JobKind) (jobs : gmap string Job).
Context (Hjobs : jobs_wf g kind jobs).

Lemma jobs_normalized x : is_Some (jobs !! x) → normalized x.
Proof. intros [j [_ Hx]%Hjobs]. by apply (node_normalized g Hg). Qed.

Lemma reverse_edges_inner n ds x y : ∀ out,
  y ∈ get_or [] (foldl (λ out pred,
      if decide (is_Some (jobs !! pred)) then append_at out pred n else out) out ds) x ↔
  y ∈ get_or [] out x ∨ (y = n ∧ x ∈ ds ∧ is_Some (jobs !! x)).
Proof.
  induction ds as [|d ds IH]; intros out; cbn [foldl]; [set_solver|].
  rewrite IH. case_decide as Hd.
  - rewrite get_or_append_at, elem_of_app. case_decide; subst; set_solver.
  - destruct (decide (x = d)); subst; set_solver.
Qed.

Lemma elem_of_reverse_edges deps site x y :
  y ∈ get_or [] (reverse_edges deps site jobs g) x ↔
  is_Some (jobs !! x) ∧ is_Some (jobs !! y) ∧ ∃ nd, nodes g !! y = Some nd ∧ x ∈ deps nd.
Proof.
  unfold reverse_edges. rewrite get_or_fmap_uniqueStable.
  set (f := λ out (p : string * Job), _).
  assert (∀ l out, y ∈ get_or [] (foldl f out l) x ↔ y ∈ get_or [] out x ∨
    (is_Some (jobs !! x) ∧ y ∈ l.*1 ∧ ∃ nd, nodes g !! y = Some nd ∧ x ∈ deps nd)) as Hf.
  { induction l as [|[n j] l IH]; intros out; cbn [foldl]; [set_solver|].
    rewrite IH, fmap_cons, elem_of_cons. unfold f. simpl.
    destruct (nodes g !! n) as [nd|] eqn:En; [rewrite reverse_edges_inner|]; naive_solver. }
  rewrite elem_of_uniqueStable_normalized.
  - rewrite Hf, get_or_empty, elem_of_map_range_keys, elem_of_nil. tauto.
  - intros y' Hy'.
    assert (∀ l out, y' ∈ get_or [] (foldl f out l) x → y' ∈ get_or [] out x ∨ y' ∈ l.*1) as Hin.
    { clear Hf Hy'. induction l as [|[n j] l IH]; intros out; cbn [foldl]; [by left|].
      intros [Hy'|?]%IH; [|right; by right]. unfold f in Hy'. simpl in Hy'.
      destruct (nodes g !! n); [apply reverse_edges_inner in Hy'|]; set_solver. }
    apply Hin in Hy' as [Hy'|Hy']; [by rewrite get_or_empty in Hy'; apply elem_of_nil in Hy'|].
    apply jobs_normalized. by apply elem_of_map_range_keys in Hy'.
Qed.

Lemma elem_of_reverseWaits x w :
  w ∈ get_or [] (reverseWaits jobs g) x ↔
  is_Some (jobs !! x) ∧ is_Some (jobs !! w) ∧ precedes g x w.
Proof.
  unfold reverseWaits. rewrite elem_of_reverse_edges.
  split; intros (? & ? & Hp); (split_and!; [done..|]).
  - destruct Hp as (nd & Hnd & Hx). by apply (wf_waits g Hg _ _ Hnd) in Hx.
  - destruct Hp as (nx & nw & ? & Hw & ?). exists nw. split; [done|].
    apply (wf_waits g Hg _ _ Hw). by exists nx, nw.
Qed.

Lemma elem_of_reverseRequirementWaits x w :
  w ∈ get_or [] (reverseRequirementWaits jobs g) x ↔
  is_Some (jobs !! x) ∧ is_Some (jobs !! w) ∧ stop_depends g w x.
Proof.
  unfold reverseRequirementWaits, stop_depends. rewrite elem_of_reverse_edges.
  assert (∀ nd, nodes g !! w = Some nd →
    x ∈ stopDepNames nd ↔ x ∈ requires nd ∨ x ∈ bindsTo nd ∨ x ∈ partOf nd) as Hd.
  { intros nd Hnd. unfold stopDepNames. rewrite elem_of_uniqueStable_normalized, !elem_of_app; [done|].
    pose proof (wf_node g Hg _ _ Hnd) as [_ _ [_ Hq] _ [_ Hb] [_ Hp] _ _]. set_solver. }
  split; intros (? & ? & nd & Hnd & Hx); (split_and!; [done..|exists nd]); (split; [done|]);
    by apply Hd.
Qed.

Lemma elem_of_start_waits x w :
  w ∈ get_or [] (start_waits g jobs) x ↔
  is_Some (jobs !! x) ∧ is_Some (jobs !! w) ∧ precedes g w x.
Proof.
  unfold start_waits, get_or. rewrite map_lookup_imap.
  destruct (jobs !! x) as [j|] eqn:Ej; simpl.
  2:{ split; [by intros ?%elem_of_nil|]. by intros ([? ?] & _). }
  rewrite elem_of_uniqueStable_normalized, list_elem_of_filter.
  2:{ intros y [? _]%list_elem_of_filter. by apply jobs_normalized. }
  destruct (Hjobs _ _ Ej) as [_ [nd Hnd]]. rewrite Hnd. simpl.
  rewrite (wf_waits g Hg _ _ Hnd). naive_solver.
Qed.

Lemma elem_of_mergeWaits a b x w :
  (∀ k y, y ∈ get_or [] a k ∨ y ∈ get_or [] b k → normalized y) →
  w ∈ get_or [] (mergeWaits a b) x ↔ w ∈ get_or [] a x ∨ w ∈ get_or [] b x.
Proof.
  intros Hn. unfold mergeWaits. rewrite get_or_fmap_uniqueStable.
  assert (∀ y l out, y ∈ get_or [] (foldl append_waits out l) x ↔
    y ∈ get_or [] out x ∨ ∃ ws, (x, ws) ∈ l ∧ y ∈ ws) as Hfold.
  { intros y. induction l as [|[k ws] l IH]; intros out; cbn [foldl]; [set_solver|].
    rewrite IH. unfold append_waits. simpl. rewrite get_or_insert.
    case_decide; subst; rewrite ?elem_of_app; set_solver. }
  assert (∀ y site (m : gmap string (list string)), (∃ ws, (x, ws) ∈ map_range site m ∧ y ∈ ws) ↔ y ∈ get_or [] m x) as Hm.
  { intros y site m. unfold get_or. setoid_rewrite elem_of_map_range.
    destruct (m !! x); simpl; set_solver. }
  rewrite elem_of_uniqueStable_normalized; rewrite ?Hfold, ?Hm, ?get_or_empty; [set_solver|].
  intros y. rewrite Hfold, Hfold, !Hm, get_or_empty. intros. apply (Hn x). set_solver.
Qed.

Lemma validated_cases roots waits :
  (∀ x w, w ∈ get_or [] waits x → is_Some (jobs !! x) ∧ is_Some (jobs !! w)) →
  (∃ x, is_Some (jobs !! x)) →
  let tx := {| tx_g := g; tx_roots := roots; tx_jobs := jobs; tx_waitsFor := waits |} in
  match validated tx with
  | Ok tx' => tx' = tx ∧
    ∃ rank : string → nat, ∀ x w, w ∈ get_or [] waits x → rank w < rank x
  | Fail e => ∃ path, e = CycleError path ∧ is_cycle (λ x w, w ∈ get_or [] waits x) path
  end.
Proof.
  intros Hw Hne tx. unfold validated, validate. simpl.
  rewrite decide_False.
  2:{ intros Hz%map_size_empty_iff. destruct Hne as [x [j Hj]].
      rewrite Hz in Hj. by rewrite lookup_empty in Hj. }
  assert ("" ∉ jobNames jobs) as He.
  { unfold jobNames. rewrite elem_of_sort_strings, elem_of_keys. by intros [_ ?]%jobs_normalized. }
  assert (∀ x w, waits_on (jobNames jobs) waits x w ↔ w ∈ get_or [] waits x) as Hon.
  { intros x w. unfold waits_on, jobNames. rewrite elem_of_sort_strings, elem_of_keys.
    split; [by intros [_ ?]|]. intros Hxw. split; [by eapply Hw|done]. }
  destruct (findCycle_cases (jobNames jobs) waits He) as (c & -> & Hc).
  destruct c as [path|].
  - exists path. split; [done|]. destruct Hc as [Hwalk Hd]. split; [|done].
    eapply is_walk_ext; [|done]. apply Hon.
  - split; [done|]. destruct Hc as [rank Hr]. exists rank. intros x w Hxw. apply Hr.
    + unfold jobNames. rewrite elem_of_sort_strings, elem_of_keys. apply (Hw x w Hxw).
    + by apply Hon.
Qed.

Lemma elem_of_stop_waits x w :
  w ∈ get_or [] (mergeWaits (reverseWaits jobs g) (reverseRequirementWaits jobs g)) x ↔
  is_Some (jobs !! x) ∧ is_Some (jobs !! w) ∧ (precedes g x w ∨ stop_depends g w x).
Proof.
  rewrite elem_of_mergeWaits, elem_of_reverseWaits, elem_of_reverseRequirementWaits; [tauto|].
  intros k y. rewrite elem_of_reverseWaits, elem_of_reverseRequirementWaits.
  intros Hy. apply jobs_normalized. tauto.
Qed.

Lemma NoDup_start_waits x : NoDup (get_or [] (start_waits g jobs) x).
Proof.
  unfold start_waits, get_or. rewrite map_lookup_imap.
  destruct (jobs !! x); [apply NoDup_uniqueStable|constructor].
Qed.

Lemma NoDup_fmap_uniqueStable (m : gmap string (list string)) x :
  NoDup (get_or [] (uniqueStable <$> m) x).
Proof. rewrite get_or_fmap_uniqueStable. apply NoDup_uniqueStable. Qed.

(** A validated transaction is [planned], a rejected one has a cycle. *)
Lemma validated_planned roots waits names units ahead :
  roots = uniqueStable names →
  (∀ x, is_Some (jobs !! x) ↔ units x) → (∃ x, units x) →
  (∀ x w, w ∈ get_or [] waits x ↔ is_Some (jobs !! x) ∧ is_Some (jobs !! w) ∧ ahead w x) →
  (∀ x, NoDup (get_or [] waits x)) →
  match validated {| tx_g := g; tx_roots := roots; tx_jobs := jobs; tx_waitsFor := waits |} with
  | Ok tx => planned g names kind units ahead tx
  | Fail e => rejected_cycle units ahead e
  end.
Proof.
  intros Hroots Hu [x0 Hx0] Hw Hd.
  assert (∀ x w, w ∈ get_or [] waits x ↔ units x ∧ units w ∧ ahead w x) as Hw'
    by (intros; by rewrite Hw, !Hu).
  pose proof (validated_cases roots waits) as Hv. simpl in Hv.
  destruct (validated _) as [tx|e].
  - destruct Hv as [-> Hrank]; [intros ?? (? & ? & _)%Hw; done|exists x0; by apply Hu|].
    by split.
  - destruct Hv as (path & -> & Hc); [intros ?? (? & ? & _)%Hw; done|exists x0; by apply Hu|].
    exists path. split; [done|]. destruct Hc as [Hwalk Hc]. split; [|done].
    eapply is_walk_ext; [|done]. done.
Qed.

End waits.

(** ** Everything ordered after a root *)

Section after.
Context (g : Graph) (Hg : graph_wf g).

Lemma elem_of_afterSuccessors n x :
  x ∈ afterSuccessors g n ↔ precedes g (NormalizeName n) x.
Proof.
  unfold afterSuccessors. rewrite list_elem_of_filter, elem_of_node_test, elem_of_Names.
  setoid_rewrite containsName_spec. split.
  - intros [(nd & Hnd & Hx) _]. by apply (wf_waits g Hg _ _ Hnd).
  - intros Hp. pose proof Hp as (nn & nx & _ & Hnx & _). split; [|eauto].
    exists nx. split; [done|]. by apply (wf_waits g Hg _ _ Hnx).
Qed.

Lemma after_loop_visits rec bound laters : ∀ seen,
  (∀ v, v ∈ laters → is_Some (nodes g !! v)) →
  (∀ v seen, is_Some (nodes g !! v) → size (dom (nodes g) ∖ seen) < bound →
     ∃ seen', rec v seen = Ok seen' ∧ visits (afterSuccessors g) (afterSuccessors g v) seen seen') →
  size (dom (nodes g) ∖ seen) < S bound →
  ∃ seen', after_loop rec laters seen = Ok seen' ∧ visits (afterSuccessors g) laters seen seen'.
Proof.
  induction laters as [|v vs IH]; intros seen Hvs Hrec Hsz; cbn [after_loop].
  { exists seen. split; [done|apply visits_nil]. }
  assert (∀ x, x ∈ vs → is_Some (nodes g !! x)) as Hvs' by set_solver.
  assert (is_Some (nodes g !! v)) as Hv by (apply Hvs; left).
  case_decide as Hin.
  - destruct (IH seen Hvs' Hrec Hsz) as (seen' & -> & Hvis). exists seen'. split; [done|].
    eapply visits_cons; [by apply visits_seen|done].
  - destruct (Hrec v ({[v]} ∪ seen) Hv) as (seen1 & -> & Hvis1).
    { pose proof (fresh_size g Hg seen v Hv Hin). lia. }
    apply visits_node in Hvis1. destruct (IH seen1 Hvs' Hrec) as (seen' & -> & Hvis).
    + eapply Nat.le_lt_trans; [|exact Hsz]. apply subseteq_size. destruct Hvis1 as [? _]. set_solver.
    + exists seen'. split; [done|]. by eapply visits_cons.
Qed.

Lemma after_walk_visits fuel : ∀ n seen, size (dom (nodes g) ∖ seen) < fuel →
  ∃ seen', after_walk g fuel n seen = Ok seen' ∧
    visits (afterSuccessors g) (afterSuccessors g n) seen seen'.
Proof.
  induction fuel as [|fuel IH]; intros n seen Hsz; [lia|]. cbn [after_walk].
  apply (after_loop_visits _ fuel); [|by auto|done].
  intros v (? & nv & _ & ? & _)%elem_of_afterSuccessors. eauto.
Qed.

Lemma afterClosure_spec roots : ∃ l, afterClosure g roots = Ok l ∧
  ∀ x, x ∈ l ↔ ∃ r, r ∈ roots ∧ tc (precedes g) (NormalizeName r) x.
Proof.
  unfold afterClosure. set (fuel := S (size (nodes g))).
  assert (∀ rs seen, size (dom (nodes g) ∖ seen) < fuel →
    ∃ seen', walk_roots (after_walk g fuel) rs seen = Ok seen' ∧
      visits (afterSuccessors g) (rs ≫= afterSuccessors g) seen seen') as Hwalk.
  { induction rs as [|r rs IH]; intros seen Hsz; cbn [walk_roots].
    { exists seen. split; [done|apply visits_nil]. }
    destruct (after_walk_visits fuel r seen Hsz) as (seen1 & -> & V1).
    destruct (IH seen1) as (seen' & -> & V2).
    - eapply Nat.le_lt_trans; [|exact Hsz]. apply subseteq_size. destruct V1 as [? _]. set_solver.
    - exists seen'. split; [done|]. rewrite bind_cons. by eapply visits_app. }
  destruct (Hwalk (NormalizeName <$> roots) ∅) as (seen & -> & V).
  { unfold fuel. rewrite <-size_dom. apply Nat.lt_succ_r, subseteq_size. set_solver. }
  eexists. split; [done|]. intros x.
  rewrite elem_of_sort_strings, elem_of_elements, (visits_reach _ _ _ _ V).
  assert (∀ a b, rtc (edge (afterSuccessors g)) a b → normalized a → rtc (precedes g) a b) as H1.
  { intros a b Hab. induction Hab as [|a b c Hab _ IH]; [constructor|]. intros [Ha _].
    apply elem_of_afterSuccessors in Hab. rewrite Ha in Hab. eapply rtc_l; [done|]. apply IH.
    destruct Hab as (? & nb & _ & ? & _). apply (node_normalized g Hg). eauto. }
  assert (∀ a b, rtc (precedes g) a b → rtc (edge (afterSuccessors g)) a b) as H2.
  { intros a b Hab. induction Hab as [|a b c Hab _ IH]; [constructor|]. eapply rtc_l; [|done].
    apply elem_of_afterSuccessors. pose proof Hab as (na & ? & Ha & _).
    by destruct (node_normalized g Hg a ltac:(eauto)) as [-> _]. }
  setoid_rewrite list_elem_of_bind. setoid_rewrite list_elem_of_fmap. split.
  - intros (r & (n & Hr%elem_of_afterSuccessors & m & -> & Hm) & Hx). exists m. split; [done|].
    rewrite NormalizeName_idem in Hr. apply tc_rtc_r with r; [by apply tc_once|].
    apply H1; [done|]. destruct Hr as (? & nr & _ & ? & _). apply (node_normalized g Hg). eauto.
  - intros (r & Hr & Hx). 
    assert (∃ y, precedes g (NormalizeName r) y ∧ rtc (precedes g) y x) as (y & Hy & Hyx)
      by (destruct Hx; eauto using tc_rtc, rtc_refl).
    exists y. split; [|by apply H2].
    exists (NormalizeName r). split; [|eauto]. apply elem_of_afterSuccessors. by rewrite NormalizeName_idem.
Qed.

End after.

(** ** The three plans *)

Section plans.
Context (units : list (option Unit)) (g : Graph) (Hbuild : Build units = Ok g).

Lemma build_graph_wf : graph_wf g.
Proof. by eapply Build_wf. Qed.

(** The units a request for [names] pulls in. *)
Definition pulled (names : list string) (x : string) : Prop :=
  ∃ n, n ∈ names ∧ is_Some (nodes g !! NormalizeName n) ∧ rtc (pulls g) (NormalizeName n) x.

(** The units a shutdown of [names] takes down: what a start pulls in, and
    with every unit ordered after a root what its start pulls in. *)
Definition taken_down (names : list string) (x : string) : Prop :=
  pulled names x ∨
  ∃ n y, n ∈ names ∧ tc (precedes g) (NormalizeName n) y ∧ rtc (pulls g) y x.

(** The units a stop of [names] takes down: the named ones and whatever needs
    them. *)
Definition stopped_with (names : list string) (x : string) : Prop :=
  ∃ n, n ∈ names ∧ rtc (flip (stop_depends g)) (NormalizeName n) x.

Lemma edge_pulls a b : edge (pull_succ g) a b ↔ pulls g a b.
Proof.
  unfold edge, pull_succ, pulls, loaded_roots. rewrite list_elem_of_filter, list_elem_of_fmap.
  destruct (nodes g !! a) as [na|] eqn:Ea; simpl.
  2:{ split; [intros [_ (y & _ & Hy)]; by apply elem_of_nil in Hy|by intros (? & ? & _)]. }
  assert (∀ y, y ∈ pull_deps na → NormalizeName y = y) as Hn.
  { pose proof (wf_node g build_graph_wf _ _ Ea) as [_ _ [_ Hq] [_ Hw] [_ Hb] _ _ _].
    intros y. unfold pull_deps. rewrite !elem_of_app.
    intros [Hy|[Hy|Hy]]; [apply Hq in Hy|apply Hb in Hy|apply Hw in Hy]; apply Hy. }
  split.
  - intros (Hb & y & -> & Hy). rewrite (Hn y Hy) in *. exists na. split_and!; [done| |done].
    unfold pull_deps in Hy. by rewrite !elem_of_app in Hy.
  - intros (na' & [= <-] & Hy & Hb). split; [done|].
    assert (b ∈ pull_deps na) as Hin by (unfold pull_deps; by rewrite !elem_of_app).
    exists b. split; [by rewrite (Hn b Hin)|done].
Qed.

Lemma rtc_edge_pulls a b : rtc (edge (pull_succ g)) a b ↔ rtc (pulls g) a b.
Proof. split; apply rtc_subrel; intros ??; by rewrite edge_pulls. Qed.

(** The fuel of [add] is enough from any plan. *)
Lemma add_all_enough kind l requiredBy required jobs : jobs_wf g kind jobs →
  added g kind l requiredBy required jobs
    (add_all (add g kind (S (size (nodes g)))) l requiredBy required jobs).
Proof.
  intros Hj. pose proof build_graph_wf as Hg.
  apply (add_all_added g Hg kind _ _ _ (S (size (nodes g)))); [|done|].
  - intros. by apply add_added.
  - rewrite <-size_dom. apply Nat.lt_succ_r, subseteq_size. set_solver.
Qed.

Lemma no_jobs_wf kind : jobs_wf g kind ∅.
Proof. intros ???. by rewrite lookup_empty in *. Qed.

(** Adding the roots of a request to an empty plan. *)
Lemma add_roots_cases kind names :
  match add_all (add g kind (S (size (nodes g)))) (uniqueStable names) "" true ∅ with
  | Ok jobs =>
    jobs_wf g kind jobs ∧ (∀ x, is_Some (jobs !! x) ↔ pulled names x) ∧
    (∀ n, n ∈ names → NormalizeName n ≠ "" → is_Some (nodes g !! NormalizeName n)) ∧
    (kind = JobStart → ∀ x d, pulled names x → hard_depends g x d → is_Some (nodes g !! d))
  | Fail e => ∃ u by', e = MissingUnitError u by' ∧ nodes g !! u = None ∧
    ((by' = "" ∧ ∃ n, n ∈ names ∧ u = NormalizeName n) ∨
     (kind = JobStart ∧ pulled names by' ∧ hard_depends g by' u))
  end.
Proof.
  pose proof build_graph_wf as Hg.
  assert (∀ n, n ∈ names → NormalizeName n ≠ "" → NormalizeName n ∈ uniqueStable names) as Hin.
  { intros n Hn. rewrite elem_of_uniqueStable. eauto. }
  assert (∀ x, (∃ r, r ∈ loaded_roots g (uniqueStable names) ∧ rtc (edge (pull_succ g)) r x)
    ↔ pulled names x) as Hp.
  { intros x. unfold pulled, loaded_roots. setoid_rewrite list_elem_of_filter.
    setoid_rewrite list_elem_of_fmap. setoid_rewrite rtc_edge_pulls. split.
    - intros (r & (Hr & y & -> & (_ & n & Hn & <-)%elem_of_uniqueStable) & Hx).
      rewrite NormalizeName_idem in *. eauto.
    - intros (n & Hn & Hl & Hx). exists (NormalizeName n). split_and!; [done| |done].
      exists (NormalizeName n). rewrite NormalizeName_idem.
      destruct (node_normalized g Hg _ Hl). auto. }
  pose proof (add_all_enough kind (uniqueStable names) "" true ∅ (no_jobs_wf kind)) as Ha.
  destruct (add_all _ _ _ _ _) as [jobs|e].
  - destruct Ha as (V & _ & Hj & Hd & Hr). rewrite dom_empty_L in *.
    assert (∀ x, is_Some (jobs !! x) ↔ pulled names x) as Hu.
    { intros x. by rewrite <-elem_of_dom, (visits_reach _ _ _ _ V). }
    split_and!; [done..| |].
    + intros n Hn Hne. rewrite <-NormalizeName_idem. apply Hr; auto.
      left. by rewrite NormalizeName_idem.
    + intros Hk x d Hx. apply Hd; [done| |set_solver]. by apply elem_of_dom, Hu.
  - destruct Ha as (root & Hroot & u & by' & -> & Hu & Hcase). exists u, by'. split_and!; [done..|].
    destruct Hcase as [(-> & -> & _)|(Hk & Hd & r & Hr & Hx)].
    + left. split; [done|]. apply elem_of_uniqueStable in Hroot as (_ & n & ? & <-).
      exists n. split; [done|]. apply NormalizeName_idem.
    + right. split_and!; [done| |done]. apply Hp. exists r. split; [|done].
      apply list_elem_of_split in Hroot as (l1 & l2 & ->).
      change (l1 ++ root :: l2) with (l1 ++ [root] ++ l2). rewrite !loaded_roots_app. set_solver.
Qed.

(** A shutdown adds what is ordered after the roots; it never fails there. *)
Lemma shutdown_jobs names jobs :
  jobs_wf g JobStop jobs → (∀ x, is_Some (jobs !! x) ↔ pulled names x) →
  ∃ laters jobs', afterClosure g (uniqueStable names) = Ok laters ∧
    add_all (add g JobStop (S (size (nodes g)))) laters "" false jobs = Ok jobs' ∧
    jobs_wf g JobStop jobs' ∧ ∀ x, is_Some (jobs' !! x) ↔ taken_down names x.
Proof.
  intros Hj Hu. pose proof build_graph_wf as Hg.
  destruct (afterClosure_spec g Hg (uniqueStable names)) as (laters & -> & Hlaters).
  pose proof (add_all_enough JobStop laters "" false jobs Hj) as Ha.
  destruct (add_all _ laters _ _ _) as [jobs'|e] eqn:Eadd.
  2:{ by destruct Ha as (? & _ & ? & ? & _ & _ & [(_ & _ & ? & _)|(? & _)]). }
  exists laters, jobs'. destruct Ha as ((V1 & V2 & V3 & V4) & Hsub & Hj' & _).
  do 3 (split; [done|]). intros x. rewrite <-elem_of_dom.
  assert (∀ y, (∃ n, n ∈ names ∧ tc (precedes g) (NormalizeName n) y) ↔
    y ∈ loaded_roots g laters) as Hafter.
  { intros y. unfold loaded_roots. rewrite list_elem_of_filter, list_elem_of_fmap.
    setoid_rewrite Hlaters. setoid_rewrite elem_of_uniqueStable.
    assert (∀ a b, tc (precedes g) a b → is_Some (nodes g !! a) ∧ is_Some (nodes g !! b)) as Hld.
    { intros a b Hab. induction Hab as [a b (? & ? & ? & ? & _)|a b c (? & ? & ? & ? & _) _ IH];
        naive_solver. }
    split.
    - intros (n & Hn & Ht). destruct (Hld _ _ Ht) as [Ha Hb].
      destruct (node_normalized g Hg _ Ha) as [_ ?], (node_normalized g Hg _ Hb) as [Hy _].
      split; [done|]. exists y. split; [done|]. exists (NormalizeName n).
      rewrite NormalizeName_idem. eauto.
    - intros (Hy & y0 & -> & n' & (_ & n & Hn & <-) & Ht). rewrite NormalizeName_idem in Ht.
      exists n. split; [done|]. destruct (Hld _ _ Ht) as [_ Hb].
      by destruct (node_normalized g Hg _ Hb) as [-> _]. }
  assert (∀ a b, rtc (edge (pull_succ g)) a b → a ∈ dom jobs' → b ∈ dom jobs') as Hclosed.
  { intros a b Hab. induction Hab as [|a b c Hab _ IH]; [done|]. intros Ha. apply IH.
    destruct (decide (a ∈ dom jobs)) as [Hin|Hin]; [|by apply (V4 a)].
    apply V1, elem_of_dom, Hu. apply elem_of_dom, Hu in Hin as (n & ? & ? & Hpath).
    exists n. split_and!; [done..|]. eapply rtc_r; [done|]. by apply edge_pulls. }
  unfold taken_down. setoid_rewrite <-rtc_edge_pulls. split.
  - intros [Hx|(r & Hr & Hx)]%V3; [left; by apply Hu, elem_of_dom|right].
    apply Hafter in Hr as (n & ? & ?). eauto.
  - intros [Hx|(n & y & Hn & Hy & Hx)]; [apply V1, elem_of_dom; by apply Hu|].
    eapply Hclosed; [done|]. apply V2, Hafter. eauto.
Qed.

(** The contract of [PlanStart]. *)
Definition start_plan (names : list string) (r : result Transaction) : Prop :=
  match r with
  | Ok tx =>
    planned g names JobStart (pulled names) (precedes g) tx ∧
    (∀ n, n ∈ names → is_Some (tx_jobs tx !! NormalizeName n)) ∧
    (∀ x d, pulled names x → hard_depends g x d → is_Some (tx_jobs tx !! d))
  | Fail e =>
    rejected_request "no unit to start" names e ∨
    (∃ u by', e = MissingUnitError u by' ∧ nodes g !! u = None ∧
       ((by' = "" ∧ ∃ n, n ∈ names ∧ u = NormalizeName n) ∨
        (pulled names by' ∧ hard_depends g by' u))) ∨
    rejected_cycle (pulled names) (precedes g) e
  end.

Lemma PlanStart_outcome names : start_plan names (PlanStart (Some g) names).
Proof.
  pose proof build_graph_wf as Hg. unfold start_plan, PlanStart, plan, rejected_request.
  destruct names as [|n0 names0]; [naive_solver|]. set (names := n0 :: names0).
  pose proof (collect_roots_cases (λ n jobs, add g JobStart (S (size (nodes g))) n "" true jobs)
    names ∅ [] ∅) as Hr. fold (uniqueStable names) in Hr. rewrite accept_all_add in Hr.
  pose proof (add_roots_cases JobStart names) as Hadd.
  destruct (collect_roots _ _ _ _ _) as [[roots jobs]|e].
  2:{ destruct Hr as [Hr|Hr]; [by left; right|]. rewrite Hr in Hadd.
      right; left. destruct Hadd as (u & by' & ? & ? & Hc). exists u, by'. naive_solver. }
  destruct Hr as (-> & Hne & Hr). rewrite Hr in Hadd. destruct Hadd as (Hj & Hu & Hl & Hd).
  assert (∀ n, n ∈ names → is_Some (jobs !! NormalizeName n)) as Hnames.
  { intros n Hn. apply Hu. exists n. split_and!; [done|auto|apply rtc_refl]. }
  pose proof (validated_planned g Hg JobStart jobs Hj (uniqueStable names) (start_waits g jobs)
    names (pulled names) (precedes g) eq_refl Hu) as Hv.
  assert (∃ x, pulled names x) as Hx by (exists (NormalizeName n0); apply Hu, Hnames; left).
  specialize (Hv Hx (elem_of_start_waits g Hg JobStart jobs Hj) (NoDup_start_waits g jobs)).
  simpl. destruct (validated _) as [tx|e]; [|by right; right].
  pose proof (pl_units _ _ _ _ _ _ Hv) as Htx. split_and!; [done| |].
  - intros n Hn. by apply Htx, Hu, Hnames.
  - intros x d Hpx Hxd. apply Htx. pose proof (Hd eq_refl x d Hpx Hxd) as Hld.
    destruct Hpx as (n & ? & ? & Hpx). exists n. split_and!; [done..|].
    eapply rtc_r; [done|]. destruct Hxd as (nx & ? & ?). exists nx. naive_solver.
Qed.

(** C8: a start plan is exact. For the units of any configuration that loads,
    [PlanStart] succeeds only with the units reachable from the named ones
    through Requires=, BindsTo= and Wants=, with every hard dependency among
    them, ordered exactly by After=/Before= between jobs and without a cycle;
    a failure names an empty request, a missing unit that is a root or a hard
    dependency of a pulled-in unit, or a real ordering cycle among the jobs. *)
Theorem PlanStart_exact names : start_plan names (PlanStart (Some g) names).
Proof. apply PlanStart_outcome. Qed.

(** The contract of [PlanShutdown]. *)
Definition shutdown_plan (names : list string) (r : result Transaction) : Prop :=
  match r with
  | Ok tx =>
    planned g names JobStop (taken_down names) (λ w x, precedes g x w) tx ∧
    (∀ n, n ∈ names → is_Some (tx_jobs tx !! NormalizeName n))
  | Fail e =>
    rejected_request "no unit to stop" names e ∨
    (∃ n, n ∈ names ∧ e = MissingUnitError (NormalizeName n) "" ∧
       nodes g !! NormalizeName n = None) ∨
    rejected_cycle (taken_down names) (λ w x, precedes g x w) e
  end.

Lemma PlanShutdown_outcome names : shutdown_plan names (PlanShutdown (Some g) names).
Proof.
  pose proof build_graph_wf as Hg. unfold shutdown_plan, PlanShutdown, plan, rejected_request.
  destruct names as [|n0 names0]; [naive_solver|]. set (names := n0 :: names0).
  pose proof (collect_roots_cases (λ n jobs, add g JobStop (S (size (nodes g))) n "" true jobs)
    names ∅ [] ∅) as Hr. fold (uniqueStable names) in Hr. rewrite accept_all_add in Hr.
  pose proof (add_roots_cases JobStop names) as Hadd.
  destruct (collect_roots _ _ _ _ _) as [[roots jobs]|e].
  2:{ destruct Hr as [Hr|Hr]; [by left; right|]. rewrite Hr in Hadd.
      right; left. destruct Hadd as (u & by' & -> & ? & [(-> & n & ? & ->)|(? & _)]); [|done].
      by exists n. }
  destruct Hr as (-> & Hne & Hr). rewrite Hr in Hadd. destruct Hadd as (Hj & Hu & Hl & _).
  cbn [app]. destruct (shutdown_jobs names jobs Hj Hu) as (laters & jobs' & -> & -> & Hj' & Hu').
  assert (∀ n, n ∈ names → is_Some (jobs' !! NormalizeName n)) as Hnames.
  { intros n Hn. apply Hu'. left. exists n. split_and!; [done|auto|apply rtc_refl]. }
  pose proof (validated_planned g Hg JobStop jobs' Hj' (uniqueStable names) (reverseWaits jobs' g)
    names (taken_down names) (λ w x, precedes g x w) eq_refl Hu') as Hv.
  assert (∃ x, taken_down names x) as Hx by (exists (NormalizeName n0); apply Hu', Hnames; left).
  specialize (Hv Hx (elem_of_reverseWaits g Hg JobStop jobs' Hj')
    (NoDup_fmap_uniqueStable _)).
  destruct (validated _) as [tx|e]; [|by right; right].
  split; [done|]. intros n Hn. by apply (pl_units _ _ _ _ _ _ Hv), Hu', Hnames.
Qed.

(** C28: a shutdown plan is exact. [PlanShutdown] takes down what a start of the
    named units would pull in, together with every unit ordered after a named
    one and what that unit pulls in; each job waits for exactly the jobs that
    start after it. Only a missing root or a real cycle is an error: a missing
    dependency is not. *)
Theorem PlanShutdown_exact names : shutdown_plan names (PlanShutdown (Some g) names).
Proof. apply PlanShutdown_outcome. Qed.

Lemma stop_closure names : (∀ n, n ∈ names → is_Some (nodes g !! NormalizeName n)) →
  ∃ l, reverseRequirementClosure (Some g) (uniqueStable names) = Ok l ∧
    (∀ x, x ∈ l ↔ stopped_with names x) ∧ ∀ x, x ∈ l → is_Some (nodes g !! x).
Proof.
  intros Hnames. pose proof build_graph_wf as Hg.
  destruct (reverseRequirementClosure_spec g Hg (uniqueStable names)) as (l & Hl & _ & Hx).
  assert (∀ x, x ∈ l ↔ stopped_with names x) as Hspec.
  { intros x. rewrite Hx. unfold stopped_with. split.
    - intros (r & (_ & n & ? & <-)%elem_of_uniqueStable & _ & Hr).
      rewrite NormalizeName_idem in Hr. eauto.
    - intros (n & Hn & Hr). exists (NormalizeName n). rewrite NormalizeName_idem.
      split_and!; [|by auto|done]. apply elem_of_uniqueStable. split; [|eauto].
      by destruct (node_normalized g Hg _ (Hnames n Hn)). }
  exists l. split_and!; [done..|]. intros x (n & Hn & Hr)%Hspec.
  apply rtc_inv_r in Hr as [<-|(y & _ & nx & Hy & _)]; eauto.
Qed.

(** The jobs of a stop. *)
Lemma stop_jobs closure : (∀ x, x ∈ closure → is_Some (nodes g !! x)) →
  let jobs : gmap string Job :=
    list_to_map ((λ n, (n, {| JobName := n; JobKindOf := JobStop |})) <$> closure) in
  jobs_wf g JobStop jobs ∧ ∀ x, is_Some (jobs !! x) ↔ x ∈ closure.
Proof.
  intros Hc jobs.
  assert (∀ x j, jobs !! x = Some j →
    x ∈ closure ∧ j = {| JobName := x; JobKindOf := JobStop |}) as Hin.
  { intros x j Hx%elem_of_list_to_map_2. apply list_elem_of_fmap in Hx as (y & [= -> ->] & ?). done. }
  split; [intros x j [? ->]%Hin; auto|]. intros x. split; [by intros [j [? _]%Hin]|].
  intros Hx. destruct (jobs !! x) as [j|] eqn:E; [eauto|].
  apply not_elem_of_list_to_map_2 in E. exfalso. apply E.
  rewrite <-list_fmap_compose. simpl. by rewrite list_fmap_id.
Qed.

(** The contract of [PlanStop]. *)
Definition stop_plan (names : list string) (r : result Transaction) : Prop :=
  match r with
  | Ok tx =>
    planned g names JobStop (stopped_with names)
      (λ w x, precedes g x w ∨ stop_depends g w x) tx ∧
    (∀ n, n ∈ names → is_Some (tx_jobs tx !! NormalizeName n))
  | Fail e =>
    rejected_request "no unit to stop" names e ∨
    (∃ n, n ∈ names ∧ e = MissingUnitError (NormalizeName n) "" ∧
       nodes g !! NormalizeName n = None) ∨
    rejected_cycle (stopped_with names) (λ w x, precedes g x w ∨ stop_depends g w x) e
  end.

Lemma PlanStop_outcome names : stop_plan names (PlanStop (Some g) names).
Proof.
  pose proof build_graph_wf as Hg. unfold stop_plan, PlanStop, rejected_request.
  destruct names as [|n0 names0]; [naive_solver|]. set (names := n0 :: names0).
  set (accept := λ n (_ : Datatypes.unit), _).
  pose proof (collect_roots_cases accept names ∅ [] tt) as Hr. fold (uniqueStable names) in Hr.
  pose proof (accept_all_loaded g (uniqueStable names)) as Hld. fold accept in Hld.
  destruct (collect_roots _ _ _ _ _) as [[roots []]|e].
  2:{ destruct Hr as [Hr|Hr]; [by left; right|]. rewrite Hr in Hld. right; left.
      destruct Hld as (? & (_ & n & ? & <-)%elem_of_uniqueStable & ? & ->). by exists n. }
  destruct Hr as (-> & Hne & Hr). rewrite Hr in Hld. cbn [app fst].
  assert (∀ n, n ∈ names → is_Some (nodes g !! NormalizeName n)) as Hnames.
  { intros n Hn. apply Hld, elem_of_uniqueStable. eauto. }
  destruct (stop_closure names Hnames) as (closure & -> & Hclosure & Hloaded).
  destruct (stop_jobs closure Hloaded) as [Hj Hu]. simpl in Hj, Hu.
  set (jobs := list_to_map _ : gmap string Job) in *.
  setoid_rewrite Hclosure in Hu.
  pose proof (validated_planned g Hg JobStop jobs Hj (uniqueStable names)
    (mergeWaits (reverseWaits jobs g) (reverseRequirementWaits jobs g)) names (stopped_with names)
    (λ w x, precedes g x w ∨ stop_depends g w x) eq_refl Hu) as Hv.
  assert (∀ n, n ∈ names → stopped_with names (NormalizeName n)) as Hself
    by (intros n Hn; exists n; split; [done|apply rtc_refl]).
  assert (∃ x, stopped_with names x) as Hx by (exists (NormalizeName n0); apply Hself; left).
  specialize (Hv Hx (elem_of_stop_waits g Hg JobStop jobs Hj) (NoDup_fmap_uniqueStable _)).
  destruct (validated _) as [tx|e]; [|by right; right].
  split; [done|]. intros n Hn. by apply (pl_units _ _ _ _ _ _ Hv), Hself.
Qed.

(** C14: a stop plan is exact. [PlanStop] takes down the named units and
    exactly the units that need them, transitively, through Requires=, BindsTo=
    or PartOf=. Each job waits for the jobs that need it and for the jobs that
    start after it. Only a missing root or a real cycle is an error. *)
Theorem PlanStop_exact names : stop_plan names (PlanStop (Some g) names).
Proof. apply PlanStop_outcome. Qed.

End plans.

End spec.

(** ** Independence of the order of Go's maps *)

Definition same_plan (tx1 tx2 : Transaction) : Prop :=
  tx_g tx1 = tx_g tx2 ∧ tx_roots tx1 = tx_roots tx2 ∧ tx_jobs tx1 = tx_jobs tx2 ∧
  same_waits (tx_waitsFor tx1) (tx_waitsFor tx2).

Definition same_outcome (r1 r2 : result Transaction) : Prop :=
  match r1, r2 with
  | Ok tx1, Ok tx2 => same_plan tx1 tx2
  | Fail e1, Fail e2 => e1 = e2
  | _, _ => False
  end.

Section determinism.
Context {NM : Naming}.

Lemma validated_same g roots jobs w1 w2 : same_waits w1 w2 →
  same_outcome
    (validated {| tx_g := g; tx_roots := roots; tx_jobs := jobs; tx_waitsFor := w1 |})
    (validated {| tx_g := g; tx_roots := roots; tx_jobs := jobs; tx_waitsFor := w2 |}).
Proof.
  intros Hw. unfold validated, validate. simpl. case_decide; [done|].
  rewrite (findCycle_perm _ _ w1 w2 (reflexivity _) Hw).
  repeat case_match; simplify_eq/=; done.
Qed.

Lemma same_waits_ext (w1 w2 : gmap string (list string)) :
  (∀ x, NoDup (get_or [] w1 x)) → (∀ x, NoDup (get_or [] w2 x)) →
  (∀ x y, y ∈ get_or [] w1 x ↔ y ∈ get_or [] w2 x) → same_waits w1 w2.
Proof. intros H1 H2 Hiff k. by apply NoDup_Permutation. Qed.

(** C30: planning does not depend on the order in which Go ranges over its maps.
    Two runs of the same request on the same graph give the same error, or the
    same jobs with the same ordering up to the order of each wait list. *)
Theorem plans_deterministic (MR0 MR1 MR2 : MapRange) units g kind names :
  Build (MR:=MR0) units = Ok g →
  same_outcome (plan (MR:=MR1) (Some g) kind names) (plan (MR:=MR2) (Some g) kind names) ∧
  same_outcome (PlanStop (MR:=MR1) (Some g) names) (PlanStop (MR:=MR2) (Some g) names).
Proof.
  intros Hb. pose proof (Build_wf (MR:=MR0) units g Hb) as Hg. split.
  - unfold plan. destruct names as [|n0 names0]; [done|].
    pose proof (collect_roots_cases (λ n jobs, add g kind (S (size (nodes g))) n "" true jobs)
      (n0 :: names0) ∅ [] ∅) as Hr. rewrite accept_all_add in Hr.
    pose proof (add_roots_cases (MR:=MR0) units g Hb kind (n0 :: names0)) as Hadd.
    destruct (collect_roots _ _ _ _ _) as [[roots jobs]|e]; [|done].
    destruct Hr as (-> & _ & Hr). unfold uniqueStable in Hadd. rewrite Hr in Hadd.
    destruct Hadd as (Hj & Hu & _). destruct kind; [by apply validated_same; intros k|].
    destruct (shutdown_jobs (MR:=MR0) units g Hb _ jobs Hj Hu) as (laters & jobs' & Hl & Ha & Hj' & _).
    unfold uniqueStable in Hl. cbn [app]. rewrite Hl, Ha. apply validated_same, same_waits_ext;
      [apply NoDup_fmap_uniqueStable..|]. intros x y. by rewrite !(elem_of_reverseWaits _ Hg _ _ Hj').
  - unfold PlanStop. destruct names as [|n0 names0]; [done|]. set (names := n0 :: names0).
    set (accept := λ n (_ : Datatypes.unit), _).
    pose proof (collect_roots_cases accept names ∅ [] tt) as Hr.
    pose proof (accept_all_loaded g (uniqueStable names)) as Hld. fold accept in Hld.
    destruct (collect_roots _ _ _ _ _) as [[roots []]|e]; [|done].
    destruct Hr as (-> & Hne & Hr). unfold uniqueStable in Hld. rewrite Hr in Hld. cbn [app fst].
    destruct (stop_closure (MR:=MR0) units g Hb names) as (closure & Hc & _ & Hloaded).
    { intros n Hn. apply Hld, elem_of_uniqueStable. eauto. }
    unfold uniqueStable in Hc. rewrite Hc.
    destruct (stop_jobs g closure Hloaded) as [Hj _]. simpl in Hj.
    apply validated_same, same_waits_ext; [apply NoDup_fmap_uniqueStable..|].
    intros x y. by rewrite !(elem_of_stop_waits _ Hg _ _ Hj).
Qed.

End determinism.

(** ** A worked configuration

    [app] requires [db] and wants [log]; [db] is ordered before [app]; [tray]
    is part of [app] and ordered after it. *)

From S2P Require Import GoStrings UnitNames.

Definition sample_units : list (option Unit) :=
  [Some (unit_with "app.service" ["db"] ["log"] [] [] [] []);
   Some (unit_with "db.service" [] [] [] [] [] ["app.service"]);
   Some (unit_with "log.service" [] [] [] [] [] []);
   Some (unit_with "tray.service" [] [] [] ["app"] ["app"] [])]%string.
Definition sample_graph : Graph :=
  match Build sample_units with Ok g => g | Fail _ => {| nodes := ∅ |} end.

Lemma sample_builds : Build sample_units = Ok sample_graph.
Proof. vm_compute. reflexivity. Qed.

Lemma PlanStart_exact_witness :
  Build sample_units = Ok sample_graph ∧
  ∃ tx, PlanStart (Some sample_graph) ["app"] = Ok tx ∧
    Units (Some tx) = ["app.service"; "db.service"; "log.service"]%string ∧
    planned sample_graph ["app"] JobStart (pulled sample_graph ["app"]) (precedes sample_graph) tx.
Proof.
  split; [exact sample_builds|].
  pose proof (PlanStart_exact _ _ sample_builds ["app"]) as H.
  destruct (PlanStart (Some sample_graph) ["app"]) as [tx|e] eqn:E.
  - exists tx. split; [reflexivity|]. split; [|exact (proj1 H)].
    vm_compute in E. injection E as <-. vm_compute. reflexivity.
  - exfalso. vm_compute in E. discriminate E.
Defined.

Lemma PlanShutdown_exact_witness :
  Build sample_units = Ok sample_graph ∧
  ∃ tx, PlanShutdown (Some sample_graph) ["app"] = Ok tx ∧
    Units (Some tx) = ["app.service"; "db.service"; "log.service"; "tray.service"]%string ∧
    planned sample_graph ["app"] JobStop (taken_down sample_graph ["app"])
      (λ w x, precedes sample_graph x w) tx.
Proof.
  split; [exact sample_builds|].
  pose proof (PlanShutdown_exact _ _ sample_builds ["app"]) as H.
  destruct (PlanShutdown (Some sample_graph) ["app"]) as [tx|e] eqn:E.
  - exists tx. split; [reflexivity|]. split; [|exact (proj1 H)].
    vm_compute in E. injection E as <-. vm_compute. reflexivity.
  - exfalso. vm_compute in E. discriminate E.
Defined.

Lemma PlanStop_exact_witness :
  Build sample_units = Ok sample_graph ∧
  ∃ tx, PlanStop (Some sample_graph) ["db"] = Ok tx ∧
    Units (Some tx) = ["app.service"; "db.service"; "tray.service"]%string ∧
    planned sample_graph ["db"] JobStop (stopped_with sample_graph ["db"])
      (λ w x, precedes sample_graph x w ∨ stop_depends sample_graph w x) tx.
Proof.
  split; [exact sample_builds|].
  pose proof (PlanStop_exact _ _ sample_builds ["db"]) as H.
  destruct (PlanStop (Some sample_graph) ["db"]) as [tx|e] eqn:E.
  - exists tx. split; [reflexivity|]. split; [|exact (proj1 H)].
    vm_compute in E. injection E as <-. vm_compute. reflexivity.
  - exfalso. vm_compute in E. discriminate E.
Defined.

(** Two orders of ranging over maps: sorted by the map's own order and reversed. *)
#[local] Program Definition map_range_reversed : MapRange :=
  {| map_range A site m := reverse (map_to_list m) |}.
Next Obligation. intros. simpl. apply reverse_Permutation. Qed.

Lemma plans_deterministic_witness :
  Build sample_units = Ok sample_graph ∧
  same_outcome (PlanStop (MR:=map_range_default) (Some sample_graph) ["db"])
    (PlanStop (MR:=map_range_reversed) (Some sample_graph) ["db"]).
Proof.
  split; [exact sample_builds|].
  exact (proj2 (plans_deterministic _ map_range_default map_range_reversed sample_units
    sample_graph JobStart ["db"] sample_builds)).
Defined.
