(* ===== verification/CoreExec.v ===== *)
(** * Package core: the start executor

    Translates the start half of [internal/core/execute.go]: the executor's
    state, its operations, and the loop of [ExecuteWithLimit] as a step
    relation. The loop owns the state; the only concurrency is the calls of
    [Starter.Start] it has launched, which may return in any order and with
    any result, and the context, which may be cancelled before any round. *)

From S2P Require Import Prelude UnitTypes CoreState CoreGraph CoreCycle CorePlan.

#[local] Open Scope go_scope.
#[local] Open Scope Z_scope.
Export CoreState.Lifecycle.

(** What the adapter sees, in the order it happens. *)
Inductive call :=
| StartCalled (n : string)
| StartReturned (n : string) (err : option error)
| StartRejected (n : string) (err : error).

(** [Run]: the outcome of a transaction. *)
Record Run := {
  States : gmap string State;
  Errors : gmap string error;
  Started : list string;
  Stopped : list string;
}.

(** [executor]. [goroutines] are the calls of [Starter.Start] that have not
    delivered their result, [calls] is the history of the adapter's calls. *)
Record executor := {
  run : Run;
  launched : gset string;
  released : gset string;
  remaining : gmap string Z;
  unblock : gmap string (list string);
  inflight : Z;
  goroutines : list string;
  calls : list call;
}.

Definition set_state (n : string) (s : State) (e : executor) : executor := {|
  run := {| States := <[n := s]> (States (run e)); Errors := Errors (run e);
            Started := Started (run e); Stopped := Stopped (run e) |};
  launched := launched e; released := released e; remaining := remaining e;
  unblock := unblock e; inflight := inflight e;
  goroutines := goroutines e; calls := calls e |}.
Definition set_error (n : string) (err : error) (e : executor) : executor := {|
  run := {| States := States (run e); Errors := <[n := err]> (Errors (run e));
            Started := Started (run e); Stopped := Stopped (run e) |};
  launched := launched e; released := released e; remaining := remaining e;
  unblock := unblock e; inflight := inflight e;
  goroutines := goroutines e; calls := calls e |}.
Definition set_released (r : gset string) (m : gmap string Z) (e : executor) : executor := {|
  run := run e; launched := launched e; released := r; remaining := m;
  unblock := unblock e; inflight := inflight e;
  goroutines := goroutines e; calls := calls e |}.
Definition log_call (c : call) (e : executor) : executor := {|
  run := run e; launched := launched e; released := released e; remaining := remaining e;
  unblock := unblock e; inflight := inflight e;
  goroutines := goroutines e; calls := calls e ++ [c] |}.

(** [e.run.States[name]]; the zero value of [State] is [Inactive]. *)
Definition state_of (e : executor) (n : string) : State := get_or Inactive (States (run e)) n.
Definition error_of (e : executor) (n : string) : option error := Errors (run e) !! n.

(** The two lookups a caller makes in a [Run]; [None] is a nil [*Run]. *)
Definition StateOf {NM : Naming} (r : option Run) (n : string) : State :=
  match r with None => Inactive | Some r => get_or Inactive (States r) (NormalizeName n) end.
Definition Run_Err {NM : Naming} (r : option Run) (n : string) : option error :=
  match r with None => None | Some r => Errors r !! NormalizeName n end.

(** ** The operations *)

Definition decrement (m : gmap string Z) (succ : string) : gmap string Z :=
  let m := <[succ := get_or 0 m succ - 1]> m in
  if get_or 0 m succ <? 0 then <[succ := 0]> m else m.

Definition releaseAfter (n : string) (e : executor) : executor :=
  if decide (n ∈ released e) then e
  else set_released ({[n]} ∪ released e)
         (foldl decrement (remaining e) (get_or [] (unblock e) n)) e.

Definition jobNotYetStarted (e : executor) (n : string) : bool :=
  match state_of e n with
  | Inactive | Activating => true
  | _ => false
  end.

Section executor.
Context {NM : Naming} (tx : Transaction).

Fixpoint first_failed (e : executor) (n : string) (reqs : list string) : option error :=
  match reqs with
  | [] => None
  | req :: reqs' =>
    if decide (is_Some (tx_jobs tx !! req)) then
      match error_of e req with
      | Some err => Some (DependencyError n req err)
      | None => first_failed e n reqs'
      end
    else first_failed e n reqs'
  end.
Definition requiresFailed (e : executor) (n : string) : option error :=
  match nodes (tx_g tx) !! n with
  | None => None
  | Some nd => first_failed e n (startRequireNames nd)
  end.

(** [other] has a node that requires [n] at start. *)
Definition requires_start (other n : string) : bool :=
  node_test (tx_g tx) (λ on, startRequiresName on n) other.

(** The middle of [markFailed]: the failure of one job is recorded, and a job
    that was never launched is reported and released. *)
Definition record_failure (n : string) (err : error) (e : executor) : executor :=
  let e := set_state n Failed (set_error n err e) in
  if decide (n ∈ launched e) then e
  else releaseAfter n (log_call (StartRejected n err) e).

(** The loop of [markFailed] over the other jobs; [rec] is the recursive call. *)
Fixpoint fail_requirers (rec : string → error → executor → result executor) (n : string)
    (err : error) (others : list string) (e : executor) : result executor :=
  match others with
  | [] => Ok e
  | other :: others' =>
    if decide (other = n) then fail_requirers rec n err others' e
    else if negb (requires_start other n) then fail_requirers rec n err others' e
    else if negb (jobNotYetStarted e other) then fail_requirers rec n err others' e
    else
      e' <-? rec other (DependencyError other n err) e ;;
      fail_requirers rec n err others' e'
  end.

Fixpoint markFailed_fuel (fuel : nat) (n : string) (err : error) (e : executor)
    : result executor :=
  match fuel with
  | O => Fail OutOfFuel
  | S fuel =>
    if negb (jobNotYetStarted e n) && negb (bool_decide (state_of e n = Failed)) then Ok e
    else match error_of e n with
    | Some _ => Ok (set_state n Failed e)
    | None =>
      fail_requirers (markFailed_fuel fuel) n err (jobNames (tx_jobs tx)) (record_failure n err e)
    end
  end.

(** Every call that goes deeper has recorded one more job. *)
Definition markFailed (n : string) (err : error) (e : executor) : result executor :=
  markFailed_fuel (S (size (tx_jobs tx))) n err e.

Definition launch (n : string) (e : executor) : executor := {|
  run := {| States := <[n := Activating]> (States (run e)); Errors := Errors (run e);
            Started := Started (run e) ++ [n]; Stopped := Stopped (run e) |};
  launched := {[n]} ∪ launched e; released := released e; remaining := remaining e;
  unblock := unblock e; inflight := inflight e + 1;
  goroutines := goroutines e ++ [n]; calls := calls e ++ [StartCalled n] |}.

Definition tryLaunch (n : string) (e : executor) : result executor :=
  if decide (n ∈ launched e) then Ok e
  else if decide (state_of e n = Failed) then Ok e
  else if 0 <? get_or 0 (remaining e) n then Ok e
  else match requiresFailed e n with
       | Some err => markFailed n err e
       | None => Ok (launch n e)
       end.

Definition onFinish (n : string) (res : option error) (e : executor) : result executor :=
  let e := releaseAfter n e in
  match res with
  | Some err => if is_skipped err then Ok (set_state n Inactive e) else markFailed n err e
  | None =>
    if decide (state_of e n = Failed) then Ok e
    else match requiresFailed e n with
         | Some err => markFailed n err e
         | None => Ok (set_state n Active e)
         end
  end.

(** A result is received: [inflight--] and [onFinish]. [before ++ n :: rest]
    are the calls in progress. *)
Definition receive (n : string) (res : option error) (rest : list string) (e : executor)
    : result executor :=
  onFinish n res {| run := run e; launched := launched e; released := released e;
    remaining := remaining e; unblock := unblock e; inflight := inflight e - 1;
    goroutines := rest; calls := calls e ++ [StartReturned n res] |}.

(** The loops of [ExecuteWithLimit] over the jobs. *)
Fixpoint launch_pass (workers : Z) (names : list string) (e : executor) : result executor :=
  match names with
  | [] => Ok e
  | n :: names' =>
    if workers <=? inflight e then Ok e
    else e' <-? tryLaunch n e ;; launch_pass workers names' e'
  end.
Fixpoint fail_unstarted (err : string → error) (names : list string) (e : executor)
    : result executor :=
  match names with
  | [] => Ok e
  | n :: names' =>
    if decide (state_of e n = Inactive ∧ n ∉ launched e) then
      e' <-? markFailed n (err n) e ;; fail_unstarted err names' e'
    else fail_unstarted err names' e
  end.
Definition cancel_pass (err : error) := fail_unstarted (λ _, err).
Definition final_pass := fail_unstarted (λ n, ErrFmt "unit %q was not started" [n]).

Definition init_job (e : executor) (n : string) : executor :=
  let deps := get_or [] (tx_waitsFor tx) n in
  {| run := {| States := <[n := Inactive]> (States (run e)); Errors := Errors (run e);
               Started := Started (run e); Stopped := Stopped (run e) |};
     launched := launched e; released := released e;
     remaining := <[n := Z.of_nat (length deps)]> (remaining e);
     unblock := foldl (λ m dep, append_at m dep n) (unblock e) deps;
     inflight := inflight e; goroutines := goroutines e; calls := calls e |}.
Definition init : executor :=
  foldl init_job {| run := {| States := ∅; Errors := ∅; Started := []; Stopped := [] |};
    launched := ∅; released := ∅; remaining := ∅; unblock := ∅; inflight := 0;
    goroutines := []; calls := [] |} (jobNames (tx_jobs tx)).

(** ** The loop

    [Round]: the top of the main loop. [Waiting]: blocked on the channel.
    [Draining]: the second loop, with the error of the context if that ended
    the main loop. [Done]: the final pass has run. *)
Inductive phase :=
| Round
| Waiting
| Draining (cancelled : option error)
| Done (cancelled : option error).

Inductive step (workers : Z) : phase * executor → phase * executor → Prop :=
| step_cancel e err e' :
    cancel_pass err (jobNames (tx_jobs tx)) e = Ok e' →
    step workers (Round, e) (Draining (Some err), e')
| step_idle e e' :
    launch_pass workers (jobNames (tx_jobs tx)) e = Ok e' → inflight e' = 0 →
    step workers (Round, e) (Draining None, e')
| step_wait e e' :
    launch_pass workers (jobNames (tx_jobs tx)) e = Ok e' → inflight e' ≠ 0 →
    step workers (Round, e) (Waiting, e')
| step_receive e n res before rest e' :
    goroutines e = before ++ n :: rest → receive n res (before ++ rest) e = Ok e' →
    step workers (Waiting, e) (Round, e')
| step_drain c e n res before rest e' :
    0 < inflight e → goroutines e = before ++ n :: rest →
    receive n res (before ++ rest) e = Ok e' →
    step workers (Draining c, e) (Draining c, e')
| step_done c e e' :
    ¬ 0 < inflight e → final_pass (jobNames (tx_jobs tx)) e = Ok e' →
    step workers (Draining c, e) (Done c, e').

End executor.

Fixpoint first_error (errs : gmap string error) (roots : list string) : option error :=
  match roots with
  | [] => None
  | root :: roots' =>
    match errs !! root with Some err => Some err | None => first_error errs roots' end
  end.
Definition rootError (tx : option Transaction) (r : option Run) : option error :=
  match tx, r with
  | Some tx, Some r => first_error (Errors r) (tx_roots tx)
  | _, _ => None
  end.

(** ** The entry points

    [ExecuteWithLimit] as the relation between its arguments and what it may
    return; [starter] tells whether a starter was given. *)
Inductive ExecuteWithLimit {NM : Naming} (tx : option Transaction) (starter : bool) (workers : Z)
    : option Run → option error → Prop :=
| exec_limit :
    workers < 1 →
    ExecuteWithLimit tx starter workers None
      (Some (ErrText "transaction worker limit must be positive"))
| exec_no_starter :
    1 <= workers → starter = false →
    ExecuteWithLimit tx starter workers None (Some (ErrText "nil starter"))
| exec_nil :
    1 <= workers → starter = true → tx = None →
    ExecuteWithLimit tx starter workers None (Some (ErrText "empty transaction"))
| exec_invalid t err :
    1 <= workers → starter = true → tx = Some t → validate t = Some err →
    ExecuteWithLimit tx starter workers None (Some err)
| exec_run t c e :
    1 <= workers → starter = true → tx = Some t → validate t = None →
    rtc (step t workers) (Round, init t) (Done c, e) →
    ExecuteWithLimit tx starter workers (Some (run e)) (rootError tx (Some (run e))).

Definition DefaultTransactionWorkers : Z := 16.
Definition Execute {NM : Naming} (tx : option Transaction) (starter : bool) :=
  ExecuteWithLimit tx starter DefaultTransactionWorkers.

(** [Graph.Start]. *)
Definition graph_Start {NM : Naming} {MR : MapRange} (g : option Graph) (starter : bool)
    (names : list string) (r : option Run) (err : option error) : Prop :=
  match PlanStart g names with
  | Fail e => r = None ∧ err = Some e
  | Ok tx => Execute (Some tx) starter r err
  end.
