(* ===== verification/CoreExecInv.v ===== *)
(** * Package core: the invariant of the start executor

    What holds of the executor of [internal/core/execute.go] between any two
    of its operations, proved for each of them. *)

From S2P Require Import Prelude UnitTypes CoreState CoreGraph CoreCycle CorePlan CorePlanSpec CoreExec.

#[local] Open Scope Z_scope.

(** ** Reading the history *)

Definition called (l : list call) : list string :=
  omap (λ c, match c with StartCalled n => Some n | _ => None end) l.
Definition returned (l : list call) : list string :=
  omap (λ c, match c with StartReturned n _ => Some n | _ => None end) l.
Definition rejected (l : list call) : list string :=
  omap (λ c, match c with StartRejected n _ => Some n | _ => None end) l.

(** [n] failed to start: it was rejected, or its start returned an error other
    than a clean skip. *)
Definition failed_in (l : list call) (n : string) : Prop :=
  (∃ err, StartRejected n err ∈ l) ∨
  (∃ err, StartReturned n (Some err) ∈ l ∧ is_skipped err = false).

Lemma called_app l1 l2 : called (l1 ++ l2) = called l1 ++ called l2.
Proof. apply omap_app. Qed.
Lemma returned_app l1 l2 : returned (l1 ++ l2) = returned l1 ++ returned l2.
Proof. apply omap_app. Qed.
Lemma rejected_app l1 l2 : rejected (l1 ++ l2) = rejected l1 ++ rejected l2.
Proof. apply omap_app. Qed.

Lemma failed_in_snoc l c n : failed_in (l ++ [c]) n ↔ failed_in l n ∨
  match c with
  | StartCalled _ => False
  | StartReturned m (Some err) => m = n ∧ is_skipped err = false
  | StartReturned m None => False
  | StartRejected m _ => m = n
  end.
Proof.
  unfold failed_in. setoid_rewrite elem_of_app. setoid_rewrite list_elem_of_singleton.
  destruct c as [m|m [err|]|m err]; naive_solver.
Qed.

Lemma snoc_split {A} (l l1 l2 : list A) (c x : A) :
  l ++ [c] = l1 ++ x :: l2 → (l2 = [] ∧ l1 = l ∧ x = c) ∨ ∃ l2', l2 = l2' ++ [c] ∧ l = l1 ++ x :: l2'.
Proof.
  destruct l2 as [|y l2 _] using rev_ind; intros H.
  - apply app_inj_tail in H as [-> ->]. auto.
  - rewrite app_comm_cons, app_assoc in H. apply app_inj_tail in H as [-> ->]. eauto.
Qed.

(** ** Well-formed transactions *)

Section inv.
Context {NM : Naming} (tx : Transaction).

Notation names := (jobNames (tx_jobs tx)).
Notation waits n := (get_or [] (tx_waitsFor tx) n).

(** What the executor needs of a transaction; every plan has it. *)
Record tx_ok : Prop := {
  ok_graph : graph_wf (tx_g tx);
  ok_jobs : ∀ n, n ∈ names → is_Some (nodes (tx_g tx) !! n);
  ok_waits : ∀ n w, w ∈ waits n → n ∈ names ∧ w ∈ names;
  ok_nodup : ∀ n, NoDup (waits n);
  ok_rank : ∃ rank : string → nat, ∀ n w, w ∈ waits n → (rank w < rank n)%nat;
}.

Lemma elem_of_jobNames n : n ∈ names ↔ is_Some (tx_jobs tx !! n).
Proof. unfold jobNames. by rewrite elem_of_sort_strings, elem_of_keys. Qed.

Lemma NoDup_jobNames : NoDup names.
Proof. apply NoDup_sort_strings, NoDup_keys. Qed.

Lemma planned_tx_ok g roots kind units ahead :
  graph_wf g → planned g roots kind units ahead tx → tx_ok.
Proof.
  intros Hg [<- _ Hj Hu Hw Hd Hr]. split; [done|..|done|done].
  - intros n [j Hn]%elem_of_jobNames. by apply Hj in Hn as [_ ?].
  - intros n w (? & ? & _)%Hw. by rewrite !elem_of_jobNames, !Hu.
Qed.

(** The reason recorded for a failed job: its own start returned it, an
    admitted outside reason ([extra]), or the recorded failure of a unit of
    the transaction it requires. *)
Inductive caused (extra : string → error → Prop) (e : executor) : string → error → Prop :=
| caused_own n err :
    StartReturned n (Some err) ∈ calls e → is_skipped err = false → caused extra e n err
| caused_extra n err : extra n err → caused extra e n err
| caused_dependency n r err :
    requires_start tx n r = true → r ∈ names → error_of e r = Some err →
    caused extra e r err → caused extra e n (DependencyError n r err).

(** How far a job is, against its recorded state and error. *)
Definition status_ok (e : executor) (n : string) : Prop :=
  match decide (n ∈ launched e), decide (n ∈ released e) with
  | right _, right _ => state_of e n = Inactive ∧ error_of e n = None
  | right _, left _ => state_of e n = Failed ∧ is_Some (error_of e n)
  | left _, right _ =>
    (state_of e n = Activating ∧ error_of e n = None) ∨
    (state_of e n = Failed ∧ is_Some (error_of e n))
  | left _, left _ =>
    ((state_of e n = Activating ∨ state_of e n = Active) ∧ error_of e n = None) ∨
    (state_of e n = Failed ∧ is_Some (error_of e n)) ∨
    state_of e n = Inactive
  end.

Definition remaining_ok (e : executor) : Prop := ∀ n, n ∈ names →
  get_or 0 (remaining e) n = Z.of_nat (length (filter (λ w, w ∉ released e) (waits n))).

(** A start is called after everything it waits for is done with, and only if
    nothing it requires has failed. *)
Definition history_ok (l : list call) : Prop := ∀ l1 n l2, l = l1 ++ StartCalled n :: l2 →
  (∀ w, w ∈ waits n → w ∈ returned l1 ∨ w ∈ rejected l1) ∧
  (∀ r, requires_start tx n r = true → r ∈ names → ¬ failed_in l1 r).

Record inv (extra : string → error → Prop) (e : executor) : Prop := {
  i_errors : ∀ n, is_Some (error_of e n) → n ∈ names;
  i_launched : ∀ n, n ∈ launched e → n ∈ names;
  i_released : ∀ n, n ∈ released e → n ∈ names;
  i_started : called (calls e) = Started (run e);
  i_called : ∀ n, n ∈ Started (run e) ↔ n ∈ launched e;
  i_once : NoDup (Started (run e));
  i_flight : ∀ n, n ∈ goroutines e ↔ n ∈ launched e ∧ n ∉ released e;
  i_flight_once : NoDup (goroutines e);
  i_inflight : inflight e = Z.of_nat (length (goroutines e));
  i_status : ∀ n, n ∈ names → status_ok e n;
  i_remaining : remaining_ok e;
  i_unblock : ∀ w, get_or [] (unblock e) w = filter (λ n, w ∈ waits n) names;
  i_returned : ∀ n, n ∈ returned (calls e) ↔ n ∈ launched e ∧ n ∈ released e;
  i_returned_once : NoDup (returned (calls e));
  i_rejected : ∀ n err, StartRejected n err ∈ calls e ↔ n ∉ launched e ∧ error_of e n = Some err;
  i_rejected_once : NoDup (rejected (calls e));
  i_history : history_ok (calls e);
  i_caused : ∀ n err, error_of e n = Some err → caused extra e n err;
}.

(** What additionally holds when no failure is being propagated. *)
Definition closed_for (e : executor) (r : string) : Prop := ∀ n, n ∈ names →
  requires_start tx n r = true → n ≠ r → is_Some (error_of e n) ∨ state_of e n = Active.

(** [busy] is a job whose result is being processed. *)
Record settled (busy : option string) (e : executor) : Prop := {
  s_closed : ∀ r, is_Some (error_of e r) → closed_for e r;
  s_failed : ∀ n, failed_in (calls e) n → busy = Some n ∨ is_Some (error_of e n);
  s_done : ∀ n, n ∈ released e → busy = Some n ∨ state_of e n ≠ Activating;
  s_active : ∀ n, state_of e n = Active → StartReturned n None ∈ calls e;
  s_skipped : ∀ n, n ∈ launched e → state_of e n = Inactive →
    ∃ err, StartReturned n (Some err) ∈ calls e ∧ is_skipped err = true;
}.

(** ** Reading updated executors *)

Lemma state_set_state n s e m :
  state_of (set_state n s e) m = if decide (n = m) then s else state_of e m.
Proof. unfold state_of, set_state. simpl. apply get_or_insert. Qed.
Lemma error_set_error n err e m :
  error_of (set_error n err e) m = if decide (n = m) then Some err else error_of e m.
Proof. unfold error_of, set_error. simpl. apply lookup_insert. Qed.

Lemma decrement_get m k x :
  get_or 0 (decrement m k) x = if decide (k = x) then Z.max 0 (get_or 0 m k - 1) else get_or 0 m x.
Proof.
  unfold decrement. rewrite get_or_insert, decide_True by done.
  case_match eqn:E; rewrite ?get_or_insert; repeat case_decide; lia.
Qed.

Lemma foldl_decrement l : ∀ m x, NoDup l →
  get_or 0 (foldl decrement m l) x =
  if decide (x ∈ l) then Z.max 0 (get_or 0 m x - 1) else get_or 0 m x.
Proof.
  induction l as [|k l IH]; intros m x Hd; cbn [foldl].
  { rewrite decide_False; [done|]. apply not_elem_of_nil. }
  apply NoDup_cons in Hd as [Hk Hd]. rewrite (IH _ _ Hd), decrement_get.
  destruct (decide (k = x)) as [->|Hne].
  - rewrite decide_False by done. rewrite decide_True by left. done.
  - destruct (decide (x ∈ l)); [rewrite decide_True by (by right)|rewrite decide_False by set_solver];
      done.
Qed.

Lemma filter_released (l : list string) (r : gset string) n : NoDup l → n ∉ r →
  Z.of_nat (length (filter (λ w, w ∉ {[n]} ∪ r) l)) =
  Z.of_nat (length (filter (λ w, w ∉ r) l)) - (if decide (n ∈ l) then 1 else 0).
Proof.
  intros Hd Hn. induction l as [|x l IH].
  { rewrite decide_False by apply not_elem_of_nil. done. }
  apply NoDup_cons in Hd as [Hx Hd]. specialize (IH Hd). rewrite !filter_cons.
  destruct (decide (n = x)) as [->|Hne].
  - rewrite (decide_False (P := x ∉ {[x]} ∪ r)) by set_solver.
    rewrite (decide_True (P := x ∉ r)) by done.
    rewrite (decide_True (P := x ∈ x :: l)) by left.
    rewrite (decide_False (P := x ∈ l)) in IH by done. simpl. lia.
  - assert ((if decide (n ∈ x :: l) then 1 else 0) = (if decide (n ∈ l) then 1 else 0)) as ->
      by (repeat case_decide; set_solver).
    destruct (decide (x ∈ r)).
    + rewrite !decide_False by set_solver. lia.
    + rewrite !(decide_True (P := _ ∉ _)) by set_solver. cbn [length]. lia.
Qed.

Section operations.
Context (Htx : tx_ok).

(** Releasing a job takes one off what each of its successors waits for. *)
Lemma release_remaining (rem : gmap string Z) (unb : gmap string (list string))
    (rel : gset string) n m :
  (∀ w, get_or [] unb w = filter (λ m, w ∈ waits m) names) → m ∈ names → n ∉ rel →
  get_or 0 rem m = Z.of_nat (length (filter (λ w, w ∉ rel) (waits m))) →
  get_or 0 (foldl decrement rem (get_or [] unb n)) m =
  Z.of_nat (length (filter (λ w, w ∉ {[n]} ∪ rel) (waits m))).
Proof.
  intros Hu Hm Hn Hr.
  rewrite foldl_decrement, Hu by (rewrite Hu; apply NoDup_filter, NoDup_jobNames).
  rewrite (filter_released _ _ _ (ok_nodup Htx m) Hn), Hr.
  assert (m ∈ filter (λ m, n ∈ waits m) names ↔ n ∈ waits m) as Hin
    by (rewrite list_elem_of_filter; tauto).
  pose proof (filter_released _ _ _ (ok_nodup Htx m) Hn).
  destruct (decide (n ∈ waits m)); case_decide; first [tauto|lia].
Qed.

Lemma releaseAfter_remaining n e :
  (∀ w, get_or [] (unblock e) w = filter (λ m, w ∈ waits m) names) →
  remaining_ok e → remaining_ok (releaseAfter n e).
Proof.
  intros Hu Hr m Hm. unfold releaseAfter. case_decide as Hn; [by apply Hr|].
  apply release_remaining; auto.
Qed.

Lemma requiresFailed_spec e n err : requiresFailed tx e n = Some err →
  ∃ r err', err = DependencyError n r err' ∧ requires_start tx n r = true ∧ r ∈ names ∧
    error_of e r = Some err'.
Proof.
  unfold requiresFailed, requires_start, node_test.
  destruct (nodes (tx_g tx) !! n) as [nd|] eqn:En; [|done].
  assert (∀ r, r ∈ startRequireNames nd → startRequiresName nd r = true) as Hreq.
  { intros r. rewrite startRequiresName_spec. unfold startRequireNames.
    rewrite elem_of_uniqueStable_normalized, elem_of_app; [done|].
    pose proof (wf_node _ (ok_graph Htx) _ _ En) as [_ _ [_ Hq] _ [_ Hb] _ _ _]. set_solver. }
  induction (startRequireNames nd) as [|r rs IH]; simpl; [done|].
  case_decide as Hr; [destruct (error_of e r) as [err'|] eqn:Er|].
  - intros [= <-]. exists r, err'. split_and!; [done|apply Hreq; left|by apply elem_of_jobNames|done].
  - apply IH. intros r' ?. apply Hreq. by right.
  - apply IH. intros r' ?. apply Hreq. by right.
Qed.

Lemma requiresFailed_none e n r : requiresFailed tx e n = None →
  requires_start tx n r = true → r ∈ names → error_of e r = None.
Proof.
  unfold requiresFailed, requires_start, node_test.
  destruct (nodes (tx_g tx) !! n) as [nd|] eqn:En; [|done]. intros Hf Hr Hj.
  assert (r ∈ startRequireNames nd) as Hin.
  { apply startRequiresName_spec in Hr. unfold startRequireNames.
    rewrite elem_of_uniqueStable_normalized, elem_of_app; [done|].
    pose proof (wf_node _ (ok_graph Htx) _ _ En) as [_ _ [_ Hq] _ [_ Hb] _ _ _]. set_solver. }
  induction (startRequireNames nd) as [|r' rs IH]; simpl in Hf; [by apply elem_of_nil in Hin|].
  case_decide as Hr'; [destruct (error_of e r') eqn:Er; [done|]|];
    apply elem_of_cons in Hin as [->|?]; auto.
  by apply elem_of_jobNames in Hj.
Qed.

(** [tryLaunch] and [onFinish] never meet a failed requirement: the failure has
    already been propagated. *)
Lemma requiresFailed_dead busy e n : settled busy e → n ∈ names → error_of e n = None →
  state_of e n ≠ Active → requiresFailed tx e n = None.
Proof.
  intros Hs Hn He Ha. destruct (requiresFailed tx e n) as [err|] eqn:Ef; [|done].
  apply requiresFailed_spec in Ef as (r & err' & -> & Hr & Hj & Her).
  destruct (s_closed _ _ Hs r ltac:(eauto) n Hn Hr) as [[? ?]|?]; congruence.
Qed.

(** ** Failures *)

Lemma caused_mono extra extra' e e' :
  (∀ n err, extra n err → extra' n err) → (∀ c, c ∈ calls e → c ∈ calls e') →
  (∀ n err, error_of e n = Some err → error_of e' n = Some err) →
  ∀ n err, caused extra e n err → caused extra' e' n err.
Proof.
  intros Hx Hc He n err H. induction H; eauto using caused.
Qed.

Lemma inv_extra extra extra' e :
  (∀ n err, extra n err → extra' n err) → inv extra e → inv extra' e.
Proof.
  intros Hx [].
  split; try done. intros n err ?. eapply (caused_mono extra extra' e e); auto.
Qed.

Lemma history_snoc l c : history_ok l →
  (∀ n, c = StartCalled n →
     (∀ w, w ∈ waits n → w ∈ returned l ∨ w ∈ rejected l) ∧
     (∀ r, requires_start tx n r = true → r ∈ names → ¬ failed_in l r)) →
  history_ok (l ++ [c]).
Proof.
  intros Hl Hc l1 n l2 [(-> & -> & Heq)|(l2' & -> & ->)]%snoc_split; [by apply Hc|by eapply Hl].
Qed.

Lemma pending_status e n : status_ok e n → error_of e n = None → n ∉ launched e →
  n ∉ released e ∧ state_of e n = Inactive.
Proof.
  unfold status_ok. intros Hs He Hl. destruct (decide (n ∈ launched e)); [done|].
  destruct (decide (n ∈ released e)); [|tauto]. destruct Hs as [_ [? ?]]. congruence.
Qed.

(** Recording the failure of a job that was launched. *)
Lemma inv_fail_launched extra e n err :
  inv extra e → n ∈ names → error_of e n = None → n ∈ launched e → caused extra e n err →
  inv extra (set_state n Failed (set_error n err e)).
Proof.
  intros Hi Hn He Hl Hc. set (e' := set_state n Failed (set_error n err e)).
  assert (∀ m, error_of e' m = if decide (n = m) then Some err else error_of e m) as Herr
    by apply error_set_error.
  assert (∀ m, state_of e' m = if decide (n = m) then Failed else state_of e m) as Hst
    by apply (state_set_state n Failed (set_error n err e)).
  assert (∀ m err', caused extra e m err' → caused extra e' m err') as Hmono.
  { apply caused_mono; [done..|]. intros m err' ?. rewrite Herr. case_decide; congruence. }
  destruct Hi as [I1 I2 I3 I4 I5 I6 I7 I8 I9 I10 I11 I12 I13 I14 I15 I16 I17 I18].
  split; try done.
  - intros m. rewrite Herr. case_decide; [by subst|apply I1].
  - intros m Hm. specialize (I10 m Hm). unfold status_ok in *. rewrite Herr, Hst.
    change (launched e') with (launched e). change (released e') with (released e).
    destruct (decide (n = m)) as [<-|]; [|done]. destruct (decide (n ∈ launched e)); [|done].
    destruct (decide (n ∈ released e)); naive_solver.
  - intros m err'. rewrite Herr. simpl. case_decide as Hnm; [subst m|apply I15].
    rewrite I15. naive_solver.
  - intros m err'. rewrite Herr. case_decide; [|by auto]. subst m. intros [= <-]. by apply Hmono.
Qed.

(** Recording the failure of a job that was not: it is reported and released. *)
Lemma inv_fail_pending extra e n err :
  inv extra e → n ∈ names → error_of e n = None → n ∉ launched e → caused extra e n err →
  inv extra (record_failure n err e).
Proof.
  intros Hi Hn He Hl Hc.
  destruct (pending_status e n (i_status _ _ Hi n Hn) He Hl) as [Hrel Hin].
  set (e' := record_failure n err e).
  assert (e' = releaseAfter n (log_call (StartRejected n err)
    (set_state n Failed (set_error n err e)))) as Heq
    by (unfold e', record_failure; simpl; by rewrite decide_False).
  assert (remaining_ok e') as Hrem.
  { rewrite Heq. apply releaseAfter_remaining; apply Hi. }
  unfold releaseAfter in Heq. rewrite decide_False in Heq by done. cbn in Heq.
  assert (∀ m, error_of e' m = if decide (n = m) then Some err else error_of e m) as Herr
    by (rewrite Heq; apply error_set_error).
  assert (∀ m, state_of e' m = if decide (n = m) then Failed else state_of e m) as Hst
    by (rewrite Heq; apply (state_set_state n Failed (set_error n err e))).
  assert (calls e' = calls e ++ [StartRejected n err]) as Hcalls by by rewrite Heq.
  assert (launched e' = launched e ∧ released e' = {[n]} ∪ released e ∧ run e' =
    run (set_state n Failed (set_error n err e)) ∧ goroutines e' = goroutines e ∧
    inflight e' = inflight e ∧ unblock e' = unblock e) as (Hl' & Hr' & Hrun & Hg & Hf & Hu)
    by by rewrite Heq.
  clear Heq.
  assert (∀ m err', caused extra e m err' → caused extra e' m err') as Hmono.
  { apply caused_mono; [done|by intros c; rewrite Hcalls; set_solver|].
    intros m err' ?. rewrite Herr. case_decide; congruence. }
  destruct Hi as [I1 I2 I3 I4 I5 I6 I7 I8 I9 I10 I11 I12 I13 I14 I15 I16 I17 I18].
  split; rewrite ?Hl', ?Hr', ?Hrun, ?Hg, ?Hf, ?Hu, ?Hcalls; try done.
  - intros m. rewrite Herr. case_decide; [by subst|apply I1].
  - set_solver.
  - rewrite called_app, I4. simpl. by rewrite app_nil_r.
  - intros m. rewrite I7. destruct (decide (m = n)); set_solver.
  - intros m Hm. specialize (I10 m Hm). unfold status_ok in *. rewrite Herr, Hst, Hl', Hr'.
    destruct (decide (n = m)) as [<-|Hnm].
    + rewrite decide_False by done. rewrite decide_True by set_solver. eauto.
    + destruct (decide (m ∈ launched e)), (decide (m ∈ released e)),
        (decide (m ∈ {[n]} ∪ released e)); (done || set_solver).
  - intros m. rewrite returned_app. simpl. rewrite app_nil_r, I13.
    destruct (decide (m = n)); set_solver.
  - rewrite returned_app. simpl. by rewrite app_nil_r.
  - intros m err'. rewrite elem_of_app, list_elem_of_singleton, I15, Herr.
    case_decide; [subst m|]; naive_solver.
  - rewrite rejected_app. apply NoDup_app. split_and!; [done| |apply NoDup_singleton].
    intros m Hm ->%list_elem_of_singleton.
    apply list_elem_of_omap in Hm as (c & Hc' & Heq). destruct c; simplify_eq/=.
    apply I15 in Hc' as [_ ?]. congruence.
  - by apply history_snoc.
  - intros m err'. rewrite Herr. case_decide; [|by auto]. subst m. intros [= <-]. by apply Hmono.
Qed.

Lemma inv_record_failure extra e n err :
  inv extra e → n ∈ names → error_of e n = None → caused extra e n err →
  inv extra (record_failure n err e).
Proof.
  intros Hi Hn He Hc. destruct (decide (n ∈ launched e)) as [Hl|Hl]; [|by apply inv_fail_pending].
  unfold record_failure. simpl. rewrite decide_True by done. by apply inv_fail_launched.
Qed.

(** ** Propagating a failure *)

(** [e'] comes from [e] by recording failures only. *)
Record failures (e e' : executor) : Prop := {
  f_launched : launched e' = launched e;
  f_goroutines : goroutines e' = goroutines e;
  f_inflight : inflight e' = inflight e;
  f_started : Started (run e') = Started (run e);
  f_errors : ∀ n err, error_of e n = Some err → error_of e' n = Some err;
  f_states : ∀ n, state_of e' n = state_of e n ∨
    (state_of e' n = Failed ∧ is_Some (error_of e' n) ∧
     (state_of e n = Inactive ∨ state_of e n = Activating));
  f_calls : ∃ l, calls e' = calls e ++ l ∧ ∀ c, c ∈ l → ∃ n err, c = StartRejected n err;
}.

Lemma failures_refl e : failures e e.
Proof. split; auto. exists []. split; [by rewrite app_nil_r|set_solver]. Qed.

Lemma failures_trans e1 e2 e3 : failures e1 e2 → failures e2 e3 → failures e1 e3.
Proof.
  intros [A1 A2 A3 A4 A5 A6 A7] [B1 B2 B3 B4 B5 B6 B7]. split; [congruence..|auto| |].
  - intros n. destruct (A6 n) as [A|(A & [err A'] & A'')], (B6 n) as [B|(B & B' & B'')].
    + left. congruence.
    + right. rewrite <-A. auto.
    + right. rewrite B. split_and!; eauto.
    + right. auto.
  - destruct A7 as (l1 & Hl1 & H1), B7 as (l2 & Hl2 & H2). exists (l1 ++ l2).
    rewrite Hl2, Hl1. split; [by rewrite app_assoc|].
    intros c [?|?]%elem_of_app; auto.
Qed.

Lemma record_failure_fields n err e :
  (∀ m, error_of (record_failure n err e) m = if decide (n = m) then Some err else error_of e m) ∧
  (∀ m, state_of (record_failure n err e) m = if decide (n = m) then Failed else state_of e m) ∧
  launched (record_failure n err e) = launched e ∧
  goroutines (record_failure n err e) = goroutines e ∧
  inflight (record_failure n err e) = inflight e ∧
  Started (run (record_failure n err e)) = Started (run e) ∧
  calls (record_failure n err e) =
    calls e ++ (if decide (n ∈ launched e) then [] else [StartRejected n err]).
Proof.
  assert (∀ m, error_of (set_error n err e) m =
    if decide (n = m) then Some err else error_of e m) as He by apply error_set_error.
  assert (∀ m, state_of (set_state n Failed (set_error n err e)) m =
    if decide (n = m) then Failed else state_of e m) as Hs
    by apply (state_set_state n Failed (set_error n err e)).
  unfold record_failure, releaseAfter. simpl.
  repeat case_decide; simpl; rewrite ?app_nil_r; split_and!; try done.
Qed.

Lemma record_failure_failures n err e :
  error_of e n = None → jobNotYetStarted e n = true → failures e (record_failure n err e).
Proof.
  intros He Hj. destruct (record_failure_fields n err e) as (F1 & F2 & ? & ? & ? & ? & Hc).
  split; try done.
  - intros m err' Hm. rewrite F1. destruct (decide (n = m)); congruence.
  - intros m. rewrite F1, F2. destruct (decide (n = m)); [subst|by left]. right.
    unfold jobNotYetStarted in Hj. destruct (state_of e m); naive_solver.
  - rewrite Hc. eexists. split; [done|]. case_decide; set_solver.
Qed.

(** Jobs of the transaction with no recorded failure. *)
Definition unfailed (e : executor) : nat := size (dom (tx_jobs tx) ∖ dom (Errors (run e))).

Lemma unfailed_le e e' :
  (∀ n err, error_of e n = Some err → error_of e' n = Some err) → (unfailed e' ≤ unfailed e)%nat.
Proof.
  intros H. unfold unfailed. apply subseteq_size. intros n. rewrite !elem_of_difference, !elem_of_dom.
  intros [? Hn]. split; [done|]. intros [err Herr]. apply Hn. exists err. by apply H.
Qed.

Lemma unfailed_lt e n err : n ∈ names → error_of e n = None →
  (unfailed (record_failure n err e) < unfailed e)%nat.
Proof.
  intros Hn He. destruct (record_failure_fields n err e) as (F & _). unfold error_of in *.
  unfold unfailed. apply subset_size. split.
  - intros m. rewrite !elem_of_difference, !elem_of_dom, F.
    intros [? Hm]. split; [done|]. case_decide; [|done]. subst m. by rewrite He; intros [? ?].
  - intros Hsub. specialize (Hsub n). rewrite !elem_of_difference, !elem_of_dom, F in Hsub.
    rewrite decide_True in Hsub by done. apply elem_of_jobNames in Hn.
    destruct Hsub as [_ []]; [|eauto]. split; [done|]. rewrite He. by intros [? ?].
Qed.

Lemma closed_for_mono e e' r : failures e e' → closed_for e r → closed_for e' r.
Proof.
  intros Hf Hc n Hn Hr Hne. destruct (Hc n Hn Hr Hne) as [[err Herr]|Ha].
  - left. exists err. by apply (f_errors _ _ Hf).
  - destruct (f_states _ _ Hf n) as [->|(_ & ? & _)]; auto.
Qed.

(** Every failure recorded between [e] and [e'] has reached the requirers. *)
Definition propagated (e e' : executor) : Prop :=
  ∀ r, error_of e r = None → is_Some (error_of e' r) → closed_for e' r.

Lemma propagated_trans e1 e2 e3 : failures e2 e3 →
  propagated e1 e2 → propagated e2 e3 → propagated e1 e3.
Proof.
  intros Hf H12 H23 r H1 H3. destruct (error_of e2 r) eqn:E2; [|by apply H23].
  eapply closed_for_mono; [done|]. apply H12; eauto.
Qed.

(** What a call of [markFailed] achieves. *)
Definition marked (extra : string → error → Prop) (n : string) (e : executor)
    (r : result executor) : Prop :=
  ∃ e', r = Ok e' ∧ inv extra e' ∧ failures e e' ∧ propagated e e' ∧
    (jobNotYetStarted e n = true ∨ state_of e n = Failed →
     is_Some (error_of e' n) ∧ state_of e' n = Failed).

Lemma fail_requirers_ok extra rec n err bound others : ∀ e,
  (∀ m err e, inv extra e → m ∈ names → caused extra e m err → (unfailed e < bound)%nat →
     marked extra m e (rec m err e)) →
  (∀ m, m ∈ others → m ∈ names) → n ∈ names →
  inv extra e → error_of e n = Some err → (unfailed e < bound)%nat →
  ∃ e', fail_requirers tx rec n err others e = Ok e' ∧ inv extra e' ∧ failures e e' ∧
    propagated e e' ∧
    (∀ m, m ∈ others → requires_start tx m n = true → m ≠ n →
       is_Some (error_of e' m) ∨ state_of e' m = Active).
Proof.
  induction others as [|m others IH]; intros e Hrec Ho Hn Hi He Hb; cbn [fail_requirers].
  { exists e. split_and!; [done..|apply failures_refl| |].
    - intros r ? [? ?]. congruence.
    - by intros ? ?%elem_of_nil. }
  assert (∀ m', m' ∈ others → m' ∈ names) as Ho' by set_solver.
  assert (m ∈ names) as Hm by (apply Ho; left).
  assert (∀ e1, inv extra e1 → failures e e1 → propagated e e1 →
    (requires_start tx m n = true → m ≠ n → is_Some (error_of e1 m) ∨ state_of e1 m = Active) →
    ∃ e', fail_requirers tx rec n err others e1 = Ok e' ∧ inv extra e' ∧ failures e e' ∧
    propagated e e' ∧
    (∀ m', m' ∈ m :: others → requires_start tx m' n = true → m' ≠ n →
       is_Some (error_of e' m') ∨ state_of e' m' = Active)) as Hnext.
  { intros e1 Hi1 Hf1 Hp1 Hm1.
    destruct (IH e1 Hrec Ho' Hn Hi1) as (e' & -> & Hi' & Hf' & Hp' & Hall).
    { by apply (f_errors _ _ Hf1). }
    { pose proof (unfailed_le e e1 (f_errors _ _ Hf1)). lia. }
    exists e'. split_and!; [done..|by eapply failures_trans|by eapply propagated_trans|].
    intros m' [->|Hm']%elem_of_cons Hr Hne; [|by apply Hall].
    destruct (Hm1 Hr Hne) as [[err' ?]|Ha].
    - left. exists err'. by apply (f_errors _ _ Hf').
    - destruct (f_states _ _ Hf' m) as [->|(_ & ? & _)]; auto. }
  assert (propagated e e) as Hpe by (intros r ? [? ?]; congruence).
  case_decide as Hmn; [apply Hnext; auto using failures_refl; done|].
  destruct (requires_start tx m n) eqn:Hreq; cbn [negb].
  2:{ apply Hnext; auto using failures_refl. done. }
  destruct (jobNotYetStarted e m) eqn:Hj; cbn [negb].
  - destruct (Hrec m (DependencyError m n err) e Hi Hm) as (e1 & -> & Hi1 & Hf1 & Hp1 & Hm1); [|done|].
    { eapply caused_dependency; [done..|]. by apply (i_caused _ _ Hi). }
    apply Hnext; [done..|]. intros _ _. left. by apply Hm1; left.
  - apply Hnext; auto using failures_refl. intros _ _.
    pose proof (i_status _ _ Hi m Hm) as Hs. unfold status_ok in Hs. unfold jobNotYetStarted in Hj.
    destruct (state_of e m); try done; repeat case_decide; naive_solver.
Qed.

Lemma inv_set_state extra e n s : inv extra e →
  (n ∈ names → status_ok (set_state n s e) n) → inv extra (set_state n s e).
Proof.
  intros Hi Hs.
  assert (∀ m err, caused extra e m err → caused extra (set_state n s e) m err) as Hmono
    by (by apply caused_mono).
  destruct Hi as [I1 I2 I3 I4 I5 I6 I7 I8 I9 I10 I11 I12 I13 I14 I15 I16 I17 I18].
  split; try done.
  - intros m Hm. destruct (decide (n = m)) as [<-|Hne]; [by apply Hs|].
    specialize (I10 m Hm). unfold status_ok in *.
    by rewrite state_set_state, (decide_False (P := n = m)).
  - intros m err ?. by apply Hmono, I18.
Qed.

Lemma failed_status extra e n : inv extra e → n ∈ names → state_of e n = Failed →
  is_Some (error_of e n).
Proof.
  intros Hi Hn Hs. pose proof (i_status _ _ Hi n Hn) as H. unfold status_ok in H.
  rewrite Hs in H. repeat case_decide; naive_solver.
Qed.

Lemma markFailed_fuel_ok extra fuel : ∀ n err e,
  inv extra e → n ∈ names → caused extra e n err → (unfailed e < fuel)%nat →
  marked extra n e (markFailed_fuel tx fuel n err e).
Proof.
  induction fuel as [|fuel IH]; intros n err e Hi Hn Hc Hb; [lia|]. cbn [markFailed_fuel].
  assert (propagated e e) as Hpe by (intros r ? [? ?]; congruence).
  destruct (negb (jobNotYetStarted e n) && negb (bool_decide (state_of e n = Failed))) eqn:Eearly.
  { exists e. split_and!; [done..|apply failures_refl|done|].
    rewrite andb_true_iff, !negb_true_iff, bool_decide_eq_false in Eearly.
    destruct Eearly. intros [?|?]; congruence. }
  assert (jobNotYetStarted e n = true ∨ state_of e n = Failed) as Hst.
  { rewrite andb_false_iff, !negb_false_iff, bool_decide_eq_true in Eearly. tauto. }
  destruct (error_of e n) as [err0|] eqn:He.
  - exists (set_state n Failed e).
    assert (∀ m, state_of (set_state n Failed e) m = if decide (n = m) then Failed else state_of e m)
      as Hs by apply state_set_state.
    split_and!; [done| | | |].
    + apply inv_set_state; [done|]. intros _. pose proof (i_status _ _ Hi n Hn) as Hstat.
      unfold status_ok in *. simpl. rewrite Hs, (decide_True (P := n = n)) by done.
      change (error_of (set_state n Failed e) n) with (error_of e n). rewrite He in *.
      repeat case_decide; naive_solver.
    + split; try done; [|exists []; split; [by rewrite app_nil_r|set_solver]].
      intros m. rewrite Hs. destruct (decide (n = m)); [subst m|by left].
      destruct Hst as [Hst| ->]; [right|by left]. unfold jobNotYetStarted in Hst.
      split_and!; [done| |destruct (state_of e n); naive_solver]. exists err0. done.
    + intros r Hr [err' Hr']. change (error_of e r = Some err') in Hr'. congruence.
    + intros _. split; [exists err0; done|]. rewrite Hs. by rewrite decide_True.
  - assert (jobNotYetStarted e n = true) as Hj.
    { destruct Hst as [?|Hst]; [done|].
      apply (failed_status extra e n Hi Hn) in Hst as [? ?]. congruence. }
    pose proof (record_failure_failures n err e He Hj) as Hf1.
    pose proof (inv_record_failure extra e n err Hi Hn He Hc) as Hi1.
    destruct (record_failure_fields n err e) as (F1 & F2 & _).
    destruct (fail_requirers_ok extra (markFailed_fuel tx fuel) n err fuel names
      (record_failure n err e)) as (e' & -> & Hi' & Hf' & Hp' & Hall); try done.
    { rewrite F1. by rewrite decide_True. }
    { pose proof (unfailed_lt e n err Hn He). lia. }
    assert (is_Some (error_of e' n) ∧ state_of e' n = Failed) as Hn'.
    { split; [exists err; apply (f_errors _ _ Hf'); rewrite F1; by rewrite decide_True|].
      destruct (f_states _ _ Hf' n) as [->|(? & _)]; [|done]. rewrite F2. by rewrite decide_True. }
    exists e'. split_and!; [done..|by eapply failures_trans| |done].
    intros r Hr Hr'. destruct (decide (n = r)) as [<-|Hne].
    + intros m Hm Hreq Hmn. by apply Hall.
    + apply Hp'; [|done]. rewrite F1. by rewrite decide_False.
Qed.

(** [markFailed] always returns; its fuel is never used up. *)
Lemma markFailed_ok extra n err e : inv extra e → n ∈ names → caused extra e n err →
  marked extra n e (markFailed tx n err e).
Proof.
  intros. apply markFailed_fuel_ok; [done..|]. unfold unfailed. rewrite <-size_dom.
  apply Nat.lt_succ_r, subseteq_size. set_solver.
Qed.

Lemma settled_marked extra n e e' : inv extra e → settled (Some n) e → inv extra e' →
  failures e e' → propagated e e' → is_Some (error_of e' n) → state_of e' n = Failed →
  settled None e'.
Proof.
  intros Hi Hs Hi' Hf Hp Hn Hst. split.
  - intros r Hr. destruct (error_of e r) eqn:E; [|by apply Hp].
    eapply closed_for_mono; [done|]. apply (s_closed _ _ Hs). eauto.
  - intros m Hm. right. destruct (f_calls _ _ Hf) as (l & Hl & Hrej). rewrite Hl in Hm.
    assert (failed_in (calls e) m ∨ ∃ err, StartRejected m err ∈ calls e') as [Hm'|[err Hm']].
    { unfold failed_in in *. setoid_rewrite Hl. setoid_rewrite elem_of_app. setoid_rewrite elem_of_app in Hm.
      destruct Hm as [(err & [?|?])|(err & [?|Hin] & ?)]; eauto 10.
      by apply Hrej in Hin as (? & ? & ?). }
    + apply (s_failed _ _ Hs) in Hm' as [[= <-]|[err Herr]]; [done|].
      exists err. by apply (f_errors _ _ Hf).
    + apply (i_rejected _ _ Hi') in Hm' as [_ ?]. eauto.
  - intros m Hm. right. intros Hact.
    destruct (decide (m = n)) as [->|Hne]; [congruence|].
    destruct (f_states _ _ Hf m) as [Hsame|(? & _)]; [|congruence].
    assert (m ∈ launched e') as Hl.
    { destruct (decide (m ∈ launched e')); [done|].
      pose proof (i_status _ _ Hi' m (i_released _ _ Hi' m Hm)) as Hstat. unfold status_ok in Hstat.
      repeat case_decide; naive_solver congruence. }
    assert (m ∈ returned (calls e')) as Hr by (by apply (i_returned _ _ Hi')).
    destruct (f_calls _ _ Hf) as (l & Hl' & Hrej). rewrite Hl', returned_app in Hr.
    apply elem_of_app in Hr as [Hr|Hr].
    + apply (i_returned _ _ Hi) in Hr as [_ Hr].
      apply (s_done _ _ Hs) in Hr as [[= ?]|?]; congruence.
    + apply list_elem_of_omap in Hr as (c & Hc & ?). apply Hrej in Hc as (? & ? & ->). done.
  - intros m Hm. destruct (f_calls _ _ Hf) as (l & -> & _). apply elem_of_app. left.
    apply (s_active _ _ Hs). destruct (f_states _ _ Hf m) as [<-|(? & _)]; congruence.
  - intros m Hl Hm. rewrite (f_launched _ _ Hf) in Hl. destruct (f_calls _ _ Hf) as (l & -> & _).
    destruct (s_skipped _ _ Hs m Hl) as (err & ? & ?).
    + destruct (f_states _ _ Hf m) as [<-|(? & _)]; congruence.
    + exists err. split; [apply elem_of_app; by left|done].
Qed.

End operations.

End inv.
