(* ===== verification/CoreExecSpec.v ===== *)
(** * Package core: what a start transaction promises

    Safety, progress and outcome of [ExecuteWithLimit] of
    [internal/core/execute.go] under every order and result of the adapter's
    calls and a cancellation at any time. *)

From S2P Require Import Prelude UnitTypes CoreState CoreGraph CoreCycle CorePlan CorePlanSpec CoreExec CoreExecInv.

#[local] Open Scope Z_scope.

Section spec.
Context {NM : Naming} (tx : Transaction) (Htx : tx_ok tx).

Notation names := (jobNames (tx_jobs tx)).
Notation waits n := (get_or [] (tx_waitsFor tx) n).
Notation inv := (inv tx).
Notation settled := (settled tx).

(** ** Launching *)

(** A job that waits for nothing more: each of its predecessors has returned
    or was rejected. *)
Lemma unblocked extra e n w : inv extra e → n ∈ names →
  get_or 0 (remaining e) n <= 0 → w ∈ waits n → w ∈ returned (calls e) ∨ w ∈ rejected (calls e).
Proof.
  intros Hi Hn Hr Hw. rewrite (i_remaining _ _ _ Hi n Hn) in Hr.
  assert (w ∈ released e) as Hrel.
  { destruct (decide (w ∈ released e)) as [|Hnr]; [done|].
    assert (w ∈ filter (λ w, w ∉ released e) (waits n)) as Hin by (by apply list_elem_of_filter).
    destruct (filter _ _) as [|? ?]; [by apply elem_of_nil in Hin|simpl in Hr; lia]. }
  destruct (decide (w ∈ launched e)) as [Hl|Hl].
  - left. by apply (i_returned _ _ _ Hi).
  - right. pose proof (i_status _ _ _ Hi w (i_released _ _ _ Hi w Hrel)) as Hs.
    unfold status_ok in Hs. destruct (decide (w ∈ launched e)); [done|].
    destruct (decide (w ∈ released e)); [|done]. destruct Hs as [_ [err Herr]].
    apply list_elem_of_omap. exists (StartRejected w err). split; [|done].
    by apply (i_rejected _ _ _ Hi).
Qed.

Lemma launch_fields n e :
  (∀ m, error_of (launch n e) m = error_of e m) ∧
  (∀ m, state_of (launch n e) m = if decide (n = m) then Activating else state_of e m).
Proof. split; [done|]. intros m. apply get_or_insert. Qed.

Lemma inv_launch extra e n : inv extra e → settled None e → n ∈ names → n ∉ launched e →
  state_of e n ≠ Failed → get_or 0 (remaining e) n <= 0 → requiresFailed tx e n = None →
  inv extra (launch n e) ∧ settled None (launch n e).
Proof.
  intros Hi Hset Hn Hl Hst Hrem Hreq.
  pose proof (i_status _ _ _ Hi n Hn) as Hns. unfold status_ok in Hns.
  destruct (decide (n ∈ launched e)); [done|].
  destruct (decide (n ∈ released e)) as [?|Hrel]; [naive_solver|]. destruct Hns as [Hin Hnone].
  destruct (launch_fields n e) as [Ferr Fst].
  assert (∀ m err, caused tx extra e m err → caused tx extra (launch n e) m err) as Hmono.
  { apply caused_mono; [done|simpl; set_solver|done]. }
  assert (n ∉ Started (run e)) as Hns by (by rewrite (i_called _ _ _ Hi)).
  assert (n ∉ goroutines e) as Hng by (rewrite (i_flight _ _ _ Hi); tauto).
  pose proof (unblocked extra e n) as Hun.
  split.
  - destruct Hi as [I1 I2 I3 I4 I5 I6 I7 I8 I9 I10 I11 I12 I13 I14 I15 I16 I17 I18].
    split; simpl; try done.
    + set_solver.
    + by rewrite called_app, I4.
    + set_solver.
    + apply NoDup_app. split_and!; [done|set_solver|apply NoDup_singleton].
    + intros m. rewrite elem_of_app, I7, list_elem_of_singleton. destruct (decide (m = n)); set_solver.
    + apply NoDup_app. split_and!; [done|set_solver|apply NoDup_singleton].
    + rewrite length_app, I9. simpl. lia.
    + intros m Hm. specialize (I10 m Hm). unfold status_ok in *. rewrite Ferr, Fst. simpl.
      destruct (decide (n = m)) as [<-|Hne].
      * rewrite decide_True by set_solver. rewrite decide_False by done. auto.
      * destruct (decide (m ∈ launched e)), (decide (m ∈ {[n]} ∪ launched e)); (done || set_solver).
    + intros m. rewrite returned_app, app_nil_r, I13. destruct (decide (m = n)); set_solver.
    + by rewrite returned_app, app_nil_r.
    + intros m err. rewrite elem_of_app, I15, list_elem_of_singleton, Ferr.
      destruct (decide (m = n)) as [->|]; [|set_solver].
      rewrite Hnone. naive_solver.
    + by rewrite rejected_app, app_nil_r.
    + apply history_snoc; [done|]. intros ? [= <-]. split.
      * intros w Hw. by apply Hun.
      * intros r Hr Hj Hf. apply (s_failed _ _ _ Hset) in Hf as [?|[err Herr]]; [done|].
        rewrite (requiresFailed_none tx Htx e n r) in Herr; done.
    + intros m err Hm. by apply Hmono, I18.
  - split.
    + intros r Hr m Hm Hreq' Hne. rewrite Fst, Ferr. destruct (decide (n = m)) as [<-|].
      * destruct (s_closed _ _ _ Hset r Hr n Hn Hreq' Hne) as [?|?]; [auto|congruence].
      * by apply (s_closed _ _ _ Hset r Hr m Hm).
    + intros m. simpl. rewrite failed_in_snoc. intros [Hf|[]].
      by apply (s_failed _ _ _ Hset).
    + intros m Hm. simpl in Hm. rewrite Fst. destruct (decide (n = m)) as [<-|]; [done|].
      by apply (s_done _ _ _ Hset).
    + intros m. rewrite Fst. simpl. destruct (decide (n = m)); [done|].
      intros ?%(s_active _ _ _ Hset). set_solver.
    + intros m. rewrite Fst. simpl. destruct (decide (n = m)); [done|].
      intros [?%elem_of_singleton|Hm]%elem_of_union Hst'; [congruence|].
      destruct (s_skipped _ _ _ Hset m Hm Hst') as (err & ? & ?). exists err. set_solver.
Qed.

Lemma tryLaunch_ok extra e n : inv extra e → settled None e → n ∈ names → ∃ e',
  tryLaunch tx n e = Ok e' ∧ inv extra e' ∧ settled None e' ∧
  (e' = e ∧ (n ∈ launched e ∨ state_of e n = Failed ∨ 0 < get_or 0 (remaining e) n) ∨
   inflight e' = inflight e + 1 ∧ Started (run e') = Started (run e) ++ [n]).
Proof.
  intros Hi Hset Hn. unfold tryLaunch.
  case_decide; [exists e; split_and!; auto 8|]. case_decide; [exists e; split_and!; auto 8|].
  destruct (0 <? _) eqn:Er; [exists e; apply Z.ltb_lt in Er; split_and!; auto 8|apply Z.ltb_ge in Er].
  assert (error_of e n = None ∧ state_of e n ≠ Active) as [He Ha].
  { pose proof (i_status _ _ _ Hi n Hn) as Hs. unfold status_ok in Hs.
    repeat case_decide; naive_solver congruence. }
  rewrite (requiresFailed_dead tx Htx None e n) by done.
  destruct (inv_launch extra e n) as [? ?]; try done.
  { by eapply requiresFailed_dead. }
  exists (launch n e). split_and!; auto 8.
Qed.

Lemma launch_pass_ok extra workers l : ∀ e, inv extra e → settled None e →
  (∀ n, n ∈ l → n ∈ names) → 0 < workers → 0 <= inflight e <= workers → ∃ e',
  launch_pass tx workers l e = Ok e' ∧ inv extra e' ∧ settled None e' ∧
  inflight e <= inflight e' <= workers ∧
  (Z.of_nat (length (Started (run e'))) - Z.of_nat (length (Started (run e))) =
   inflight e' - inflight e) ∧
  (inflight e' = 0 → e' = e ∧ ∀ n, n ∈ l →
     n ∈ launched e ∨ state_of e n = Failed ∨ 0 < get_or 0 (remaining e) n).
Proof.
  induction l as [|n l IH]; intros e Hi Hset Hl Hw Hin; cbn [launch_pass].
  { exists e. split_and!; try done; try lia. intros _. split; [done|]. by intros ? ?%elem_of_nil. }
  destruct (workers <=? inflight e) eqn:Ew.
  { apply Z.leb_le in Ew. exists e. split_and!; try done; lia. }
  apply Z.leb_gt in Ew.
  destruct (tryLaunch_ok extra e n Hi Hset) as (e1 & -> & Hi1 & Hs1 & Hcase); [apply Hl; left|].
  destruct (IH e1 Hi1 Hs1) as (e' & -> & Hi' & Hs' & Hb & Hlen & Hidle); [set_solver|done| |].
  { destruct Hcase as [[-> _]|[-> _]]; lia. }
  exists e'. split_and!; [done..| | | |].
  - destruct Hcase as [[-> _]|[? _]]; lia.
  - lia.
  - destruct Hcase as [[-> _]|[? Hst]]; [lia|]. rewrite Hst, length_app in Hlen. simpl in Hlen. lia.
  - intros H0. destruct (Hidle H0) as [-> Hall]. destruct Hcase as [[-> Hn]|[? _]]; [|lia].
    split; [done|]. intros m [->|Hm]%elem_of_cons; auto.
Qed.

(** ** Receiving a result *)

(** The state [onFinish] works on after its [releaseAfter]. *)
Definition delivered (n : string) (res : option error) (rest : list string) (e : executor)
    : executor :=
  releaseAfter n {| run := run e; launched := launched e; released := released e;
    remaining := remaining e; unblock := unblock e; inflight := inflight e - 1;
    goroutines := rest; calls := calls e ++ [StartReturned n res] |}.

Lemma delivered_fields n res rest e :
  run (delivered n res rest e) = run e ∧ launched (delivered n res rest e) = launched e ∧
  released (delivered n res rest e) = {[n]} ∪ released e ∧
  unblock (delivered n res rest e) = unblock e ∧
  calls (delivered n res rest e) = calls e ++ [StartReturned n res] ∧
  goroutines (delivered n res rest e) = rest ∧ inflight (delivered n res rest e) = inflight e - 1.
Proof.
  unfold delivered, releaseAfter. simpl.
  case_decide; simpl; split_and!; try done. set_solver.
Qed.

Lemma inv_delivered extra e n res before rest : inv extra e →
  goroutines e = before ++ n :: rest → inv extra (delivered n res (before ++ rest) e).
Proof.
  intros Hi Hg.
  assert (n ∈ launched e ∧ n ∉ released e) as [Hl Hr]
    by (apply (i_flight _ _ _ Hi); rewrite Hg; set_solver).
  set (e' := delivered n res (before ++ rest) e).
  assert (remaining_ok tx e') as Hrem by (apply (releaseAfter_remaining tx Htx n); apply Hi).
  destruct (delivered_fields n res (before ++ rest) e) as (Hrun & Hl' & Hr' & Hu' & Hc' & Hg' & Hf').
  fold e' in Hrun, Hl', Hr', Hu', Hc', Hg', Hf'.
  assert (∀ m, error_of e' m = error_of e m) as Herr by (intros; unfold error_of; by rewrite Hrun).
  assert (∀ m, state_of e' m = state_of e m) as Hst by (intros; unfold state_of; by rewrite Hrun).
  pose proof (i_flight_once _ _ _ Hi) as Hgd. rewrite Hg in Hgd.
  assert (NoDup (before ++ rest) ∧ n ∉ before ++ rest) as [Hgd' Hnin].
  { rewrite <-Permutation_middle in Hgd. apply NoDup_cons in Hgd as [? ?]. done. }
  assert (∀ m err, caused tx extra e m err → caused tx extra e' m err) as Hmono.
  { apply caused_mono; [done|rewrite Hc'; set_solver|intros; by rewrite Herr]. }
  pose proof (i_flight _ _ _ Hi) as Hfl. rewrite Hg in Hfl.
  destruct Hi as [I1 I2 I3 I4 I5 I6 I7 I8 I9 I10 I11 I12 I13 I14 I15 I16 I17 I18].
  split; rewrite ?Hrun, ?Hl', ?Hr', ?Hu', ?Hc', ?Hg', ?Hf'; try done.
  - intros m. rewrite Herr. apply I1.
  - set_solver.
  - by rewrite called_app, app_nil_r.
  - intros m. specialize (Hfl m). destruct (decide (m = n)); set_solver.
  - rewrite I9, Hg, !length_app. simpl. lia.
  - intros m Hm. specialize (I10 m Hm). unfold status_ok in *. rewrite Hl', Hr', Hst, Herr.
    destruct (decide (m = n)) as [->|Hne].
    + destruct (decide (n ∈ launched e)), (decide (n ∈ {[n]} ∪ released e)),
        (decide (n ∈ released e)); (done || set_solver || naive_solver).
    + destruct (decide (m ∈ launched e)), (decide (m ∈ {[n]} ∪ released e)),
        (decide (m ∈ released e)); (done || set_solver).
  - intros m. rewrite returned_app; simpl; rewrite elem_of_app, I13, list_elem_of_singleton.
    destruct (decide (m = n)); set_solver.
  - rewrite returned_app. apply NoDup_app. split_and!; [done| |apply NoDup_singleton].
    intros m [_ Hm]%I13 ->%list_elem_of_singleton. done.
  - intros m err. rewrite elem_of_app, I15, list_elem_of_singleton, Herr. naive_solver.
  - by rewrite rejected_app, app_nil_r.
  - by apply history_snoc.
  - intros m err. rewrite Herr. intros Hm. by apply Hmono, I18.
Qed.

Lemma settled_delivered n res rest e : settled None e → settled (Some n) (delivered n res rest e).
Proof.
  intros Hs. destruct (delivered_fields n res rest e) as (Hrun & Hl & Hr & _ & Hc & _).
  split; unfold closed_for, error_of, state_of; rewrite ?Hrun.
  - apply (s_closed _ _ _ Hs).
  - intros m. rewrite Hc, failed_in_snoc. intros [Hf|Hf].
    + apply (s_failed _ _ _ Hs) in Hf as [?|?]; [done|by right].
    + left. destruct res; naive_solver.
  - intros m. rewrite Hr. intros [->%elem_of_singleton|Hm]%elem_of_union; [by left|right]. by apply (s_done _ _ _ Hs) in Hm as [?|?].
  - intros m Hm. rewrite Hc. apply elem_of_app. left. by apply (s_active _ _ _ Hs).
  - intros m. rewrite Hl, Hc. intros Hm Hst.
    destruct (s_skipped _ _ _ Hs m Hm Hst) as (err & ? & ?).
    exists err. split; [apply elem_of_app; by left|done].
Qed.

(** A finished job whose start did not fail is settled by its last state. *)
Lemma settled_set_state n s e : settled (Some n) e → s ≠ Activating →
  (failed_in (calls e) n → is_Some (error_of e n)) →
  (state_of e n = Active → s = Active) →
  (s = Active → StartReturned n None ∈ calls e) →
  (s = Inactive → ∃ err, StartReturned n (Some err) ∈ calls e ∧ is_skipped err = true) →
  settled None (set_state n s e).
Proof.
  intros Hs Hne Hf Ha Hact Hskip. split.
  - intros r Hr m Hm Hreq Hmr. rewrite state_set_state.
    destruct (s_closed _ _ _ Hs r Hr m Hm Hreq Hmr) as [?|?]; [by left|right].
    case_decide; [subst|]; auto.
  - intros m Hm. right. apply (s_failed _ _ _ Hs) in Hm as Hm'.
    destruct Hm' as [[= ->]|?]; [by apply Hf|done].
  - intros m Hm. right. rewrite state_set_state. case_decide; [done|].
    apply (s_done _ _ _ Hs) in Hm as [[= ?]|?]; done.
  - intros m. rewrite state_set_state. case_decide; [subst; auto|]. apply (s_active _ _ _ Hs).
  - intros m Hm. rewrite state_set_state. case_decide; [subst; auto|]. by apply (s_skipped _ _ _ Hs).
Qed.

Lemma markFailed_settled extra n err e : inv extra e → settled (Some n) e → n ∈ names →
  caused tx extra e n err → jobNotYetStarted e n = true ∨ state_of e n = Failed → ∃ e',
  markFailed tx n err e = Ok e' ∧ inv extra e' ∧ settled None e' ∧ failures e e' ∧
  state_of e' n = Failed.
Proof.
  intros Hi Hs Hn Hc Hst.
  destruct (markFailed_ok tx Htx extra n err e Hi Hn Hc) as (e' & -> & Hi' & Hf & Hp & Hn').
  destruct (Hn' Hst). exists e'. split_and!; try done. by eapply (settled_marked tx extra n e).
Qed.

(** What an operation that launches nothing keeps. *)
Definition kept (e e' : executor) : Prop :=
  launched e' = launched e ∧ Started (run e') = Started (run e) ∧
  ∀ n err, error_of e n = Some err → error_of e' n = Some err.

Lemma failures_kept e e' : failures e e' → kept e e'.
Proof. intros Hf. split_and!; apply Hf. Qed.

(** The last state of a job whose start returned without a failure. *)
Lemma finish_state extra e n s : inv extra e → settled (Some n) e →
  n ∈ launched e → n ∈ released e → error_of e n = None ∨ s = Inactive →
  (failed_in (calls e) n → is_Some (error_of e n)) → state_of e n ≠ Active →
  (s = Active ∧ StartReturned n None ∈ calls e ∨
   s = Inactive ∧ ∃ err, StartReturned n (Some err) ∈ calls e ∧ is_skipped err = true) →
  inv extra (set_state n s e) ∧ settled None (set_state n s e).
Proof.
  intros Hi Hs Hl Hr He Hf Ha Hcase. split.
  - apply inv_set_state; [done|]. intros _. unfold status_ok. rewrite state_set_state.
    change (error_of (set_state n s e) n) with (error_of e n). simpl.
    rewrite (decide_True (P := n = n)) by done.
    destruct (decide (n ∈ launched e)); [|done].
    destruct (decide (n ∈ released e)); [|done]. naive_solver.
  - apply settled_set_state; try done; naive_solver.
Qed.

Lemma receive_ok extra e n res before rest : inv extra e → settled None e →
  goroutines e = before ++ n :: rest → ∃ e',
  receive tx n res (before ++ rest) e = Ok e' ∧ inv extra e' ∧ settled None e' ∧
  inflight e' = inflight e - 1 ∧ kept e e' ∧
  ∃ l, calls e' = calls e ++ StartReturned n res :: l.
Proof.
  intros Hi Hs Hg. pose proof (inv_delivered extra e n res before rest Hi Hg) as Hi1.
  pose proof (settled_delivered n res (before ++ rest) e Hs) as Hs1.
  assert (n ∈ launched e ∧ n ∉ released e) as [Hl Hr]
    by (apply (i_flight _ _ _ Hi); rewrite Hg; set_solver).
  unfold receive, onFinish. fold (delivered n res (before ++ rest) e).
  destruct (delivered_fields n res (before ++ rest) e) as (Hrun & Hl1 & Hr1 & _ & Hc1 & _ & Hf1).
  set (e1 := delivered n res (before ++ rest) e) in *.
  assert (n ∈ names) as Hn by by apply (i_launched _ _ _ Hi).
  assert (n ∈ launched e1) as Hl1' by by rewrite Hl1.
  assert (n ∈ released e1) as Hr1' by (rewrite Hr1; set_solver).
  assert (kept e e1) as Hk by (unfold kept, error_of; by rewrite Hrun).
  assert (state_of e1 n = Activating ∧ error_of e1 n = None ∨
    state_of e1 n = Failed ∧ is_Some (error_of e1 n)) as Hst.
  { pose proof (i_status _ _ _ Hi n Hn) as H. unfold status_ok, state_of, error_of in *.
    rewrite Hrun. destruct (decide (n ∈ launched e)), (decide (n ∈ released e)); done. }
  assert (state_of e1 n ≠ Active) as Hna by (destruct Hst as [[-> _]|[-> _]]; done).
  assert (failed_in (calls e) n → is_Some (error_of e1 n)) as Hnf.
  { intros Hf. unfold error_of. rewrite Hrun. by apply (s_failed _ _ _ Hs) in Hf as [?|?]. }
  destruct res as [err|]; [destruct (is_skipped err) eqn:Esk|case_decide as Hfailed].
  - destruct (finish_state extra e1 n Inactive) as [? ?]; auto.
    + rewrite Hc1, failed_in_snoc, Esk. naive_solver.
    + right. split; [done|]. exists err. rewrite Hc1. set_solver.
    + exists (set_state n Inactive e1). simpl. rewrite Hf1. eauto 10.
  - destruct (markFailed_settled extra n err e1) as (e' & -> & ? & ? & Hf & _); try done.
    + apply caused_own; [|done]. rewrite Hc1. set_solver.
    + unfold jobNotYetStarted. destruct Hst as [[-> _]|[-> _]]; auto.
    + exists e'. rewrite (f_inflight _ _ Hf), Hf1. split; [done|]. do 3 (split; [done|]). split.
      * destruct Hk as (? & ? & ?), (failures_kept _ _ Hf) as (? & ? & ?).
        split_and!; [congruence..|auto].
      * destruct (f_calls _ _ Hf) as (l & -> & _). rewrite Hc1, <-app_assoc. by exists l.
  - exists e1. rewrite Hf1. split_and!; try done; [|by exists []]. destruct Hs1 as [S1 S2 S3 S4 S5].
    split; try done; intros m Hm; right; [apply S2 in Hm|apply S3 in Hm].
    + destruct Hm as [[= <-]|?]; [|done]. by eapply failed_status.
    + destruct Hm as [[= <-]|?]; congruence.
  - destruct Hst as [[Hact Hnone]|[? _]]; [|done].
    rewrite (requiresFailed_dead tx Htx (Some n) e1 n) by done.
    destruct (finish_state extra e1 n Active) as [? ?]; auto.
    + rewrite Hc1, failed_in_snoc. naive_solver.
    + left. split; [done|]. rewrite Hc1. set_solver.
    + exists (set_state n Active e1). simpl. rewrite Hf1. eauto 10.
Qed.

(** ** Failing what was never started *)

Lemma settled_busy n e : settled None e → settled (Some n) e.
Proof.
  intros [S1 S2 S3 S4 S5]. split; try done; intros m Hm.
  - right. by apply S2 in Hm as [?|?].
  - right. by apply S3 in Hm as [?|?].
Qed.

(** Every job was launched or has a recorded failure. *)
Definition decided (e : executor) : Prop :=
  ∀ n, n ∈ names → n ∈ launched e ∨ is_Some (error_of e n).

Lemma fail_unstarted_ok extra err l : ∀ e, inv extra e → settled None e →
  (∀ n, n ∈ l → n ∈ names) → (∀ n, extra n (err n)) → ∃ e',
  fail_unstarted tx err l e = Ok e' ∧ inv extra e' ∧ settled None e' ∧
  inflight e' = inflight e ∧ kept e e' ∧
  (∀ n, n ∈ l → n ∈ launched e' ∨ is_Some (error_of e' n)).
Proof.
  induction l as [|n l IH]; intros e Hi Hs Hl Hx; cbn [fail_unstarted].
  { exists e. split_and!; try done. by intros ? ?%elem_of_nil. }
  assert (n ∈ names) as Hn by (apply Hl; left).
  assert (∀ e1, inv extra e1 → settled None e1 → inflight e1 = inflight e → kept e e1 →
    n ∈ launched e1 ∨ is_Some (error_of e1 n) → ∃ e',
    fail_unstarted tx err l e1 = Ok e' ∧ inv extra e' ∧ settled None e' ∧
    inflight e' = inflight e ∧ kept e e' ∧
    (∀ m, m ∈ n :: l → m ∈ launched e' ∨ is_Some (error_of e' m))) as Hnext.
  { intros e1 Hi1 Hs1 Hf1 (K1 & K2 & K3) Hn1.
    destruct (IH e1 Hi1 Hs1) as (e' & -> & ? & ? & ? & (K1' & K2' & K3') & Hall); [set_solver|done|].
    exists e'. split_and!; try congruence; try done.
    - split_and!; [congruence..|auto].
    - intros m [->|Hm]%elem_of_cons; [|by apply Hall]. rewrite K1'.
      destruct Hn1 as [?|[err' ?]]; [by left|right]. exists err'. auto. }
  destruct (decide (state_of e n = Inactive ∧ n ∉ launched e)) as [[Hin Hnl]|Hno].
  - destruct (markFailed_settled extra n (err n) e) as (e1 & -> & Hi1 & ? & Hf & Hn1); try done.
    + by apply settled_busy.
    + by apply caused_extra.
    + left. unfold jobNotYetStarted. by rewrite Hin.
    + apply Hnext; try done; [apply Hf|by apply failures_kept|].
      right. by eapply failed_status.
  - apply Hnext; try done. destruct (decide (n ∈ launched e)) as [|Hnl]; [by left|right].
    pose proof (i_status _ _ _ Hi n Hn) as Hst. unfold status_ok in Hst.
    destruct (decide (n ∈ launched e)), (decide (n ∈ released e)); naive_solver.
Qed.

(** With everything decided the final pass finds nothing to fail. *)
Lemma final_pass_idle extra e : inv extra e → decided e → final_pass tx names e = Ok e.
Proof.
  intros Hi Hd. unfold final_pass.
  assert (∀ n, n ∈ names → n ∈ names) as Hsub by done. revert Hsub.
  generalize names at 1 3 as l. induction l as [|n l IH]; intros Hl; [done|]. cbn [fail_unstarted].
  assert (n ∈ names) as Hn by (apply Hl; left).
  rewrite decide_False; [apply IH; set_solver|]. intros [Hin Hnl].
  destruct (Hd n Hn) as [?|[err Herr]]; [done|].
  pose proof (i_status _ _ _ Hi n Hn) as Hst. unfold status_ok in Hst.
  destruct (decide (n ∈ launched e)), (decide (n ∈ released e)); naive_solver congruence.
Qed.

(** When nothing runs and nothing could be launched, everything is decided:
    the ordering has no cycle, so some undecided job would wait for nothing. *)
Lemma idle_decided extra e : inv extra e → inflight e = 0 →
  (∀ n, n ∈ names → n ∈ launched e ∨ state_of e n = Failed ∨ 0 < get_or 0 (remaining e) n) →
  decided e.
Proof.
  intros Hi H0 Hidle. destruct (ok_rank _ Htx) as [rank Hrank].
  assert (goroutines e = []) as Hg.
  { rewrite (i_inflight _ _ _ Hi) in H0. destruct (goroutines e); [done|simpl in H0; lia]. }
  intros n. remember (rank n) as k eqn:Hk. revert n Hk.
  induction (lt_wf k) as [k _ IH]; intros n -> Hn.
  destruct (Hidle n Hn) as [?|[Hf|Hr]]; [by left|right; by eapply failed_status|].
  rewrite (i_remaining _ _ _ Hi n Hn) in Hr.
  destruct (filter (λ w, w ∉ released e) (waits n)) as [|w ws] eqn:Ew; [simpl in Hr; lia|].
  assert (w ∈ filter (λ w, w ∉ released e) (waits n)) as Hw by (rewrite Ew; left).
  apply list_elem_of_filter in Hw as [Hnr Hw]. exfalso.
  destruct (ok_waits _ Htx n w Hw) as [_ Hwj].
  destruct (IH (rank w) (Hrank n w Hw) w eq_refl Hwj) as [Hl|[err Herr]].
  - assert (w ∈ goroutines e) as Hin by (by apply (i_flight _ _ _ Hi)).
    rewrite Hg in Hin. by apply elem_of_nil in Hin.
  - pose proof (i_status _ _ _ Hi w Hwj) as Hst. unfold status_ok in Hst.
    destruct (decide (w ∈ launched e)) as [Hl|Hl]; [|destruct (decide (w ∈ released e)); naive_solver congruence].
    assert (w ∈ goroutines e) as Hin by (by apply (i_flight _ _ _ Hi)).
    rewrite Hg in Hin. by apply elem_of_nil in Hin.
Qed.

(** ** The initial state *)

Lemma foldl_append_at n deps : ∀ m w, NoDup deps →
  get_or [] (foldl (λ m dep, append_at m dep n) m deps) w =
  get_or [] m w ++ (if decide (w ∈ deps) then [n] else []).
Proof.
  induction deps as [|d deps IH]; intros m w Hd; cbn [foldl].
  { rewrite decide_False by apply not_elem_of_nil. by rewrite app_nil_r. }
  apply NoDup_cons in Hd as [Hnd Hd]. rewrite (IH _ _ Hd), get_or_append_at, <-app_assoc.
  f_equal. destruct (decide (d = w)) as [->|Hne].
  - rewrite decide_False by done. rewrite decide_True by left. done.
  - destruct (decide (w ∈ deps)); [rewrite decide_True by (by right)|rewrite decide_False by set_solver];
      done.
Qed.

Lemma init_fold l : ∀ e,
  let e' := foldl (init_job tx) e l in
  (Errors (run e') = Errors (run e) ∧ Started (run e') = Started (run e) ∧
   launched e' = launched e ∧ released e' = released e ∧ inflight e' = inflight e ∧
   goroutines e' = goroutines e ∧ calls e' = calls e) ∧
  (∀ n, state_of e' n = if decide (n ∈ l) then Inactive else state_of e n) ∧
  (∀ n, get_or 0 (remaining e') n =
     if decide (n ∈ l) then Z.of_nat (length (waits n)) else get_or 0 (remaining e) n) ∧
  (∀ w, get_or [] (unblock e') w = get_or [] (unblock e) w ++ filter (λ n, w ∈ waits n) l).
Proof.
  induction l as [|n l IH]; intros e; cbn [foldl].
  { split; [done|]. split_and!; intros; rewrite ?decide_False by apply not_elem_of_nil; [done..|].
    by rewrite app_nil_r. }
  destruct (IH (init_job tx e n)) as (Hsame & Hst & Hrem & Hun). split; [done|].
  assert (∀ m, m ∈ n :: l ↔ m ∈ l ∨ n = m) as Hin by set_solver. split_and!.
  - intros m. rewrite Hst. unfold state_of, init_job. simpl. rewrite get_or_insert.
    destruct (decide (m ∈ l)), (decide (n = m)), (decide (m ∈ n :: l)); naive_solver.
  - intros m. rewrite Hrem. unfold init_job. simpl. rewrite get_or_insert.
    destruct (decide (m ∈ l)), (decide (n = m)), (decide (m ∈ n :: l)); naive_solver.
  - intros w. rewrite Hun. unfold init_job. simpl.
    rewrite foldl_append_at by apply (ok_nodup _ Htx). rewrite <-app_assoc, filter_cons.
    by destruct (decide (w ∈ waits n)).
Qed.

Lemma init_ok extra : inv extra (init tx) ∧ settled None (init tx).
Proof.
  unfold init. destruct (init_fold names {| run := {| States := ∅; Errors := ∅; Started := [];
    Stopped := [] |}; launched := ∅; released := ∅; remaining := ∅; unblock := ∅; inflight := 0;
    goroutines := []; calls := [] |}) as ((E1 & E2 & E3 & E4 & E5 & E6 & E7) & Hst & Hrem & Hun).
  set (e := foldl _ _ _) in *. simpl in *.
  assert (∀ n, error_of e n = None) as Herr by (intros n; unfold error_of; by rewrite E1).
  assert (∀ n, state_of e n = Inactive) as Hin.
  { intros n. rewrite Hst. case_decide; [done|]. apply get_or_empty. }
  split; split; rewrite ?E2, ?E3, ?E4, ?E5, ?E6, ?E7; try done;
    try (intros n; rewrite Herr; by intros [? ?]); try apply NoDup_nil_2.
  - intros n. split; [by intros ?%elem_of_nil|by intros ?%elem_of_empty].
  - intros n. split; [by intros ?%elem_of_nil|by intros [?%elem_of_empty _]].
  - intros n Hn. unfold status_ok. rewrite E3, E4, Herr, Hin.
    by destruct (decide (n ∈ ∅)) as [?%elem_of_empty|].
  - intros n Hn. rewrite Hrem, decide_True, E4 by done. clear. f_equal.
    induction (waits n) as [|w l IH]; [done|]. rewrite filter_cons, decide_True by apply not_elem_of_empty.
    simpl. by rewrite IH.
  - intros n. split; [by intros ?%elem_of_nil|by intros [?%elem_of_empty _]].
  - intros n err. rewrite Herr. split; [by intros ?%elem_of_nil|by intros [_ ?]].
  - intros l1 n l2 Heq. by destruct l1.
  - intros n err. by rewrite Herr.
  - intros n. by intros [[? ?%elem_of_nil]|(? & ?%elem_of_nil & _)].
  - intros n. by rewrite Hin.
Qed.

End spec.
