(* ===== verification/CoreExecRun.v ===== *)
(** * Package core: runs of a start transaction

    The step relation of [ExecuteWithLimit] keeps the executor's invariant;
    the properties of whole runs follow. *)

From S2P Require Import Prelude UnitTypes CoreState CoreGraph CoreCycle CorePlan CorePlanSpec CoreExec CoreExecInv CoreExecSpec.

#[local] Open Scope Z_scope.

Section world.
Context {NM : Naming} (tx : Transaction) (Htx : tx_ok tx) (workers : Z) (Hworkers : 0 < workers).

Notation names := (jobNames (tx_jobs tx)).
Notation waits n := (get_or [] (tx_waitsFor tx) n).

(** The only outside reason for a failure is the cancellation of the context. *)
Definition reason (ph : phase) (_ : string) (err : error) : Prop :=
  match ph with
  | Draining c | Done c => c = Some err
  | _ => False
  end.

Record world (w : phase * executor) : Prop := {
  w_inv : inv tx (reason w.1) w.2;
  w_settled : settled tx None w.2;
  w_bound : 0 <= inflight w.2 <= workers;
  w_phase : match w.1 with
            | Round => True
            | Waiting => inflight w.2 ≠ 0
            | Draining _ => decided tx w.2
            | Done _ => decided tx w.2 ∧ inflight w.2 = 0
            end;
}.

Lemma decided_kept e e' : kept e e' → decided tx e → decided tx e'.
Proof.
  intros (Hl & _ & He) Hd n Hn. rewrite Hl.
  destruct (Hd n Hn) as [?|[err Herr]]; [by left|right; eauto].
Qed.

Lemma inflight_pos extra e n before rest : inv tx extra e →
  goroutines e = before ++ n :: rest → 0 < inflight e.
Proof.
  intros Hi Hg. rewrite (i_inflight _ _ _ Hi), Hg, length_app. simpl. lia.
Qed.

Definition weight (w : phase * executor) : Z :=
  3 * (Z.of_nat (length names) - Z.of_nat (length (Started (run w.2)))) + 2 * inflight w.2 +
  match w.1 with Round => 2 | Waiting | Draining _ => 1 | Done _ => 0 end.

(** A step keeps the invariant and brings the end nearer. *)
Lemma step_world w w' : world w → step tx workers w w' → world w' ∧ weight w' < weight w.
Proof.
  intros [Hi Hs Hb Hp] Hstep. unfold weight. destruct Hstep as [e err e' Hc|e e' Hl H0|e e' Hl H0|
    e n res before rest e' Hg Hr|c e n res before rest e' Hpos Hg Hr|c e e' Hpos Hf]; simpl in *.
  - apply (inv_extra tx _ (reason (Draining (Some err)))) in Hi; [|done].
    destruct (fail_unstarted_ok tx Htx (reason (Draining (Some err))) (λ _, err) names e)
      as (e1 & Heq & ? & ? & Hin & Hk & Hd); try done.
    unfold cancel_pass in Hc. rewrite Hc in Heq. injection Heq as <-. pose proof Hk as (_ & -> & _).
    split; [split; simpl; try done; lia|]. lia.
  - destruct (launch_pass_ok tx Htx (reason Round) workers names e)
      as (e1 & Heq & Hi1 & ? & ? & ? & Hidle); try done.
    rewrite Hl in Heq. injection Heq as <-. destruct (Hidle H0) as [-> Hall].
    split; [|lia]. split; simpl; try done.
    + by apply (inv_extra tx (reason Round)).
    + by eapply idle_decided.
  - destruct (launch_pass_ok tx Htx (reason Round) workers names e)
      as (e1 & Heq & Hi1 & ? & ? & ? & _); try done.
    rewrite Hl in Heq. injection Heq as <-.
    split; [split; simpl; try done; lia|]. lia.
  - destruct (receive_ok tx Htx (reason Waiting) e n res before rest)
      as (e1 & Heq & Hi1 & ? & Hin & Hk & _); try done.
    rewrite Hr in Heq. injection Heq as <-. pose proof Hk as (_ & -> & _).
    pose proof (inflight_pos _ _ _ _ _ Hi Hg).
    split; [split; simpl; try done; lia|]. lia.
  - destruct (receive_ok tx Htx (reason (Draining c)) e n res before rest)
      as (e1 & Heq & Hi1 & ? & Hin & Hk & _); try done.
    rewrite Hr in Heq. injection Heq as <-. pose proof Hk as (_ & -> & _).
    split; [split; simpl; try done; [lia|by eapply decided_kept]|]. lia.
  - rewrite (final_pass_idle tx Htx (reason (Draining c)) e) in Hf by done. injection Hf as <-.
    split; [|lia]. split; simpl; try done. split; [done|lia].
Qed.

Lemma init_empty : Started (run (init tx)) = [] ∧ inflight (init tx) = 0.
Proof.
  unfold init.
  destruct (init_fold tx Htx names {| run := {| States := ∅; Errors := ∅; Started := [];
    Stopped := [] |}; launched := ∅; released := ∅; remaining := ∅; unblock := ∅; inflight := 0;
    goroutines := []; calls := [] |}) as ((_ & ? & _ & _ & ? & _) & _). done.
Qed.

Lemma init_world : world (Round, init tx).
Proof.
  destruct (init_ok tx Htx (reason Round)) as [Hi Hs]. split; try done. simpl.
  destruct init_empty as [_ ->]. lia.
Qed.

Lemma init_weight : weight (Round, init tx) = 3 * Z.of_nat (size (tx_jobs tx)) + 2.
Proof.
  unfold weight. simpl. destruct init_empty as [-> ->]. simpl.
  unfold jobNames. rewrite length_sort_strings, length_keys. lia.
Qed.

Lemma run_world w : rtc (step tx workers) (Round, init tx) w → world w.
Proof.
  intros Hr. pose proof init_world as H0. induction Hr as [|w1 w2 w3 H12 _ IH]; [done|].
  apply IH. by eapply step_world.
Qed.

Lemma weight_nonneg w : world w → 0 <= weight w.
Proof.
  intros [Hi _ Hb _]. unfold weight.
  assert (length (Started (run w.2)) ≤ length names)%nat.
  { apply submseteq_length, NoDup_submseteq; [apply Hi|]. intros n Hn.
    apply (i_launched _ _ _ Hi). by apply (i_called _ _ _ Hi). }
  destruct w.1; lia.
Qed.

Lemma run_bound k w w' : world w → nsteps (step tx workers) k w w' →
  Z.of_nat k + weight w' <= weight w.
Proof.
  intros Hw Hk. induction Hk as [|k w1 w2 w3 H12 _ IH]; [lia|].
  destruct (step_world _ _ Hw H12) as [Hw2 ?]. specialize (IH Hw2). lia.
Qed.

(** A state that is not final goes on: at once, or with whichever of the calls
    in progress returns first, whatever it returns. *)
Definition goes_on (w : phase * executor) : Prop :=
  match w.1 with
  | Round => (∃ w', step tx workers w w') ∧
             ∀ err, ∃ e', step tx workers w (Draining (Some err), e')
  | Waiting => goroutines w.2 ≠ [] ∧
               ∀ n res, n ∈ goroutines w.2 → ∃ e' l, step tx workers w (Round, e') ∧
                 calls e' = calls w.2 ++ StartReturned n res :: l
  | Draining c => (goroutines w.2 = [] → ∃ e', step tx workers w (Done c, e')) ∧
                  ∀ n res, n ∈ goroutines w.2 → ∃ e' l, step tx workers w (Draining c, e') ∧
                    calls e' = calls w.2 ++ StartReturned n res :: l
  | Done _ => True
  end.

Lemma world_goes_on w : world w → goes_on w.
Proof.
  destruct w as [ph e]. intros [Hi Hs Hb Hp]. unfold goes_on. simpl in *.
  pose proof (i_inflight _ _ _ Hi) as Hin.
  destruct ph as [| |c|c]; [| | |done].
  - split.
    + destruct (launch_pass_ok tx Htx (reason Round) workers names e) as (e1 & Heq & _); try done.
      destruct (decide (inflight e1 = 0)); eexists; [by eapply step_idle|by eapply step_wait].
    + intros err. destruct (fail_unstarted_ok tx Htx (reason (Draining (Some err))) (λ _, err) names e)
        as (e1 & Heq & _); try done; [by apply (inv_extra tx (reason Round))|]. exists e1. by apply step_cancel.
  - split; [by intros Hg; rewrite Hg in Hin|]. intros n res Hn.
    apply list_elem_of_split in Hn as (l1 & l2 & Hg).
    destruct (receive_ok tx Htx (reason Waiting) e n res l1 l2) as (e1 & Heq & _ & _ & _ & _ & l & Hl);
      try done. exists e1, l. split; [by eapply step_receive|done].
  - split.
    + intros Hg. exists e. apply step_done; [rewrite Hin, Hg; simpl; lia|].
      by eapply final_pass_idle.
    + intros n res Hn. apply list_elem_of_split in Hn as (l1 & l2 & Hg).
      destruct (receive_ok tx Htx (reason (Draining c)) e n res l1 l2) 
        as (e1 & Heq & _ & _ & _ & _ & l & Hl); try done.
      exists e1, l. split; [|done]. eapply step_drain; [|done..]. by eapply inflight_pos.
Qed.

(** From every reachable state some run reaches the end. *)
Lemma world_finishes w : world w → ∃ c e, rtc (step tx workers) w (Done c, e).
Proof.
  remember (Z.to_nat (weight w)) as k eqn:Hk. revert w Hk.
  induction (lt_wf k) as [k _ IH]. intros w -> Hw.
  assert ((∃ c, w.1 = Done c) ∨ ∃ w', step tx workers w w') as [[c Hc]|[w' Hstep]].
  { pose proof (world_goes_on w Hw) as Hg. unfold goes_on in Hg.
    destruct w as [ph e]. simpl in *. destruct ph as [| |c|c]; [right|right|right|left; eauto].
    - apply Hg.
    - destruct Hg as [Hne Hr]. destruct (goroutines e) as [|n l]; [done|].
      destruct (Hr n None) as (e' & l' & ? & _); [left|eauto].
    - destruct Hg as [Hd Hr]. destruct (goroutines e) as [|n l]; [destruct Hd; eauto|].
      destruct (Hr n None) as (e' & l' & ? & _); [left|eauto]. }
  - destruct w as [ph e]. simpl in Hc. subst. exists c, e. apply rtc_refl.
  - destruct (step_world _ _ Hw Hstep) as [Hw' Hlt]. pose proof (weight_nonneg w' Hw').
    destruct (IH (Z.to_nat (weight w')) ltac:(lia) w' eq_refl Hw') as (c & e & ?).
    exists c, e. by eapply rtc_l.
Qed.

End world.

(** ** A start transaction from its plan *)

(** A state some run of [ExecuteWithLimit] passes. *)
Definition reaches {NM : Naming} (tx : Transaction) (workers : Z) (w : phase * executor) : Prop :=
  rtc (step tx workers) (Round, init tx) w.

(** The error a run reports is the failure of a requested unit, if there is one. *)
Definition reports (tx : Transaction) (r : Run) (err : option error) : Prop :=
  match err with
  | None => ∀ root, root ∈ tx_roots tx → Errors r !! root = None
  | Some e => ∃ root, root ∈ tx_roots tx ∧ Errors r !! root = Some e
  end.

Section start_transaction.
Context {NM : Naming} {MR : MapRange}.
Context (units : list (option Unit)) (g : Graph) (Hbuild : Build units = Ok g).
Context (names : list string) (tx : Transaction) (Hplan : PlanStart (Some g) names = Ok tx).
Context (workers : Z) (Hworkers : 1 <= workers).

Lemma start_planned : planned g names JobStart (pulled g names) (precedes g) tx.
Proof.
  pose proof (PlanStart_outcome units g Hbuild names) as H. rewrite Hplan in H. apply H.
Qed.

Lemma start_tx_ok : tx_ok tx.
Proof. eapply planned_tx_ok; [by eapply Build_wf|apply start_planned]. Qed.

Lemma start_requires n r : requires_start tx n r = true ↔ hard_depends g n r.
Proof.
  unfold requires_start, hard_depends. rewrite elem_of_node_test, (pl_graph _ _ _ _ _ _ start_planned).
  by setoid_rewrite startRequiresName_spec.
Qed.

Lemma start_validate : validate tx = None.
Proof.
  clear Hbuild. unfold PlanStart, plan in Hplan. destruct names; [done|].
  destruct (collect_roots _ _ _ _ _) as [[roots jobs]|]; [|done].
  unfold validated in Hplan. destruct (validate _) eqn:E; [done|]. by injection Hplan as <-.
Qed.

Lemma start_world ph e : reaches tx workers (ph, e) → world tx workers (ph, e).
Proof. apply run_world; [apply start_tx_ok|lia]. Qed.

(** C1: ordering safety of a start. In every run of a planned start, whenever
    the adapter is asked to start a unit, every unit of the transaction ordered
    before it has finished starting or was rejected, and no unit of the
    transaction that it requires or binds to has failed so far. *)
Theorem start_order ph e l1 n l2 :
  reaches tx workers (ph, e) → calls e = l1 ++ StartCalled n :: l2 →
  (∀ w, is_Some (tx_jobs tx !! w) → precedes g w n → w ∈ returned l1 ∨ w ∈ rejected l1) ∧
  (∀ r, is_Some (tx_jobs tx !! r) → hard_depends g n r → ¬ failed_in l1 r).
Proof.
  intros [Hi _ _ _]%start_world Hc. simpl in Hi.
  destruct (i_history _ _ _ Hi _ _ _ Hc) as [Hw Hr].
  assert (n ∈ jobNames (tx_jobs tx)) as Hn.
  { apply (i_launched _ _ _ Hi), (i_called _ _ _ Hi). rewrite <-(i_started _ _ _ Hi), Hc, called_app.
    simpl. set_solver. }
  pose proof start_planned as Hp. split.
  - intros w Hjw Hpre. apply Hw, (pl_waits _ _ _ _ _ _ Hp). rewrite <-!(pl_units _ _ _ _ _ _ Hp).
    by apply elem_of_jobNames in Hn.
  - intros r Hjr Hd. apply Hr; [by apply start_requires|by apply elem_of_jobNames].
Qed.

(** no unit is started twice. In every run each unit of the transaction is
    asked to start at most once or is rejected at most once, never both, and at
    most [workers] starts are in progress at any time. *)
Theorem start_once ph e :
  reaches tx workers (ph, e) →
  NoDup (called (calls e)) ∧ NoDup (rejected (calls e)) ∧
  (∀ n, n ∈ called (calls e) ∨ n ∈ rejected (calls e) → is_Some (tx_jobs tx !! n)) ∧
  (∀ n, n ∈ called (calls e) → n ∉ rejected (calls e)) ∧
  called (calls e) ≡ₚ returned (calls e) ++ goroutines e ∧
  Z.of_nat (length (goroutines e)) <= workers.
Proof.
  intros [Hi _ Hb _]%start_world. simpl in *.
  assert (∀ n, n ∈ rejected (calls e) → n ∉ launched e ∧ n ∈ jobNames (tx_jobs tx)) as Hrej.
  { intros n (c & Hc & Heq)%list_elem_of_omap. destruct c; simplify_eq/=.
    apply (i_rejected _ _ _ Hi) in Hc as [? ?]. split; [done|]. apply (i_errors _ _ _ Hi). eauto. }
  rewrite (i_started _ _ _ Hi). split_and!.
  - apply Hi.
  - apply Hi.
  - intros n [Hn|Hn]; apply elem_of_jobNames; [|by apply Hrej].
    by apply (i_launched _ _ _ Hi), (i_called _ _ _ Hi).
  - intros n Hn%(i_called _ _ _ Hi) [? _]%Hrej. done.
  - apply NoDup_Permutation; [apply Hi| |].
    + apply NoDup_app. split_and!; [apply Hi| |apply Hi].
      intros n [_ ?]%(i_returned _ _ _ Hi) [_ ?]%(i_flight _ _ _ Hi). done.
    + intros n. rewrite elem_of_app, (i_called _ _ _ Hi), (i_returned _ _ _ Hi), (i_flight _ _ _ Hi).
      destruct (decide (n ∈ released e)); tauto.
  - rewrite <-(i_inflight _ _ _ Hi). lia.
Qed.

(** C11: a start never gets stuck. Every reachable state that is not final goes
    on: at once, or as soon as any one of the starts in progress returns, with
    whatever result; and every run ends after at most three steps per unit and
    two more. *)
Theorem start_finishes ph e k :
  nsteps (step tx workers) k (Round, init tx) (ph, e) →
  goes_on tx workers (ph, e) ∧ Z.of_nat k <= 3 * Z.of_nat (size (tx_jobs tx)) + 2 ∧
  ∃ c e', rtc (step tx workers) (ph, e) (Done c, e').
Proof.
  intros Hk. pose proof start_tx_ok as Hok. assert (0 < workers) as Hpos by lia.
  assert (world tx workers (ph, e)) as Hw by (apply start_world; by eapply rtc_nsteps_2).
  assert (world tx workers (Round, init tx)) as H0 by (by apply init_world).
  split; [by apply world_goes_on|]. split; [|by apply world_finishes].
  pose proof (run_bound tx Hok workers Hpos k _ _ H0 Hk) as Hle.
  pose proof (weight_nonneg tx workers _ Hw). rewrite init_weight in Hle by done. lia.
Qed.

(** What the outcome of one job says, at the end of a run that the context
    ended with [c]. *)
Definition job_outcome (c : option error) (e : executor) (n : string) : Prop :=
  match state_of e n with
  | Active => error_of e n = None ∧ StartReturned n None ∈ calls e
  | Inactive => ∃ err, StartReturned n (Some err) ∈ calls e ∧ is_skipped err = true
  | Failed => ∃ err, error_of e n = Some err ∧ caused tx (λ _ err', c = Some err') e n err ∧
      (n ∈ returned (calls e) ∨ StartRejected n err ∈ calls e)
  | _ => False
  end.

(** C10: the outcome of a start is complete and justified. At the end nothing is
    left running and every unit of the transaction is Active because its start
    succeeded, Inactive because its start was skipped, or Failed with a cause:
    its own start's error, the cancellation, or the recorded failure of a unit
    it requires. A failure has reached every unit that requires the failed one,
    except those that were already Active. *)
Theorem start_result c e :
  reaches tx workers (Done c, e) →
  goroutines e = [] ∧ (∀ n, is_Some (tx_jobs tx !! n) → job_outcome c e n) ∧
  (∀ n r, is_Some (tx_jobs tx !! n) → hard_depends g n r → n ≠ r → is_Some (error_of e r) →
     is_Some (error_of e n) ∨ state_of e n = Active).
Proof.
  intros [Hi Hs _ [Hd H0]]%start_world. simpl in *.
  assert (goroutines e = []) as Hg.
  { rewrite (i_inflight _ _ _ Hi) in H0. destruct (goroutines e); [done|simpl in H0; lia]. }
  assert (∀ n, n ∈ launched e → n ∈ released e) as Hrel.
  { intros n Hl. destruct (decide (n ∈ released e)); [done|].
    assert (n ∈ goroutines e) as Hin by (by apply (i_flight _ _ _ Hi)).
    rewrite Hg in Hin. by apply elem_of_nil in Hin. }
  split_and!; [done| |].
  - intros n Hn%elem_of_jobNames. unfold job_outcome.
    pose proof (i_status _ _ _ Hi n Hn) as Hst. unfold status_ok in Hst.
    pose proof (s_active _ _ _ Hs n) as Hact. pose proof (s_skipped _ _ _ Hs n) as Hskip.
    pose proof (Hrel n) as Hr. pose proof (s_done _ _ _ Hs n) as Hdone.
    destruct (decide (n ∈ launched e)) as [Hl|Hl].
    + specialize (Hr Hl). destruct (decide (n ∈ released e)); [|done].
      destruct Hst as [[[Hst|Hst] He]|[[Hst [err He]]|Hst]]; rewrite Hst in *.
      * destruct (Hdone Hr); done.
      * auto.
      * exists err. split_and!; [done|by apply (i_caused _ _ _ Hi)|left].
        by apply (i_returned _ _ _ Hi).
      * auto.
    + destruct (Hd n Hn) as [?|[err He]]; [done|].
      destruct (decide (n ∈ released e)); [|naive_solver congruence].
      destruct Hst as [-> _]. exists err. split_and!; [done|by apply (i_caused _ _ _ Hi)|right].
      by apply (i_rejected _ _ _ Hi).
  - intros n r Hn Hr Hne Hf. apply (s_closed _ _ _ Hs r Hf); [by apply elem_of_jobNames| |done].
    by apply start_requires.
Qed.

(** executing a planned start returns. It has an outcome, never reports the
    plan as invalid, and its error is nil exactly when no requested unit has a
    recorded failure; otherwise it is the failure of a requested unit. *)
Theorem Execute_returns :
  (∃ r err, ExecuteWithLimit (Some tx) true workers (Some r) err) ∧
  ∀ r err, ExecuteWithLimit (Some tx) true workers r err → ∃ run, r = Some run ∧ reports tx run err.
Proof.
  pose proof start_tx_ok as Hok. assert (0 < workers) as Hpos by lia. split.
  - destruct (world_finishes tx Hok workers Hpos (Round, init tx)) as (c & e & Hr);
      [by apply init_world|].
    exists (run e), (rootError (Some tx) (Some (run e))).
    eapply exec_run; [done..|apply start_validate|done].
  - intros r err Hex. pose proof start_validate as Hv.
    destruct Hex as [?|?|?|t err' ? ? [= <-] ?|t c e ? ? [= <-] _ _]; [lia|done|done|congruence|].
    exists (run e). split; [done|]. unfold reports. simpl. induction (tx_roots tx) as [|root roots IH]; simpl.
    { by intros ? ?%elem_of_nil. }
    destruct (Errors (run e) !! root) as [err|] eqn:Er; [exists root; split; [left|done]|].
    destruct (first_error (Errors (run e)) roots).
    + destruct IH as (root' & ? & ?). exists root'. split; [by right|done].
    + intros root' [->|?]%elem_of_cons; auto.
Qed.

End start_transaction.

(** ** Running the loop

    The schedule that delivers results in the order of the launches, with the
    results [res], as a function: [k] steps from [w]. *)
Section drive.
Context {NM : Naming} (tx : Transaction) (workers : Z) (res : string → option error).

Definition drive_step (w : phase * executor) : option (phase * executor) :=
  match w with
  | (Round, e) =>
    match launch_pass tx workers (jobNames (tx_jobs tx)) e with
    | Ok e' => Some (if decide (inflight e' = 0) then Draining None else Waiting, e')
    | Fail _ => None
    end
  | (Waiting, e) =>
    match goroutines e with
    | n :: rest => match receive tx n (res n) rest e with Ok e' => Some (Round, e') | _ => None end
    | [] => None
    end
  | (Draining c, e) =>
    if decide (0 < inflight e) then
      match goroutines e with
      | n :: rest =>
        match receive tx n (res n) rest e with Ok e' => Some (Draining c, e') | _ => None end
      | [] => None
      end
    else match final_pass tx (jobNames (tx_jobs tx)) e with
         | Ok e' => Some (Done c, e')
         | _ => None
         end
  | (Done _, _) => None
  end.
Fixpoint drive (k : nat) (w : phase * executor) : option (phase * executor) :=
  match k with
  | O => Some w
  | S k => w' ← drive_step w; drive k w'
  end.

Lemma drive_step_sound w w' : drive_step w = Some w' → step tx workers w w'.
Proof.
  destruct w as [[| |c|c] e]; simpl; [..|done].
  - destruct (launch_pass _ _ _ _) as [e'|] eqn:E; [|done].
    intros [= <-]. case_decide; [by apply step_idle|by apply step_wait].
  - destruct (goroutines e) as [|n rest] eqn:Eg; [done|].
    destruct (receive _ _ _ _ _) as [e'|] eqn:E; [|done]. intros [= <-].
    by apply (step_receive tx workers e n (res n) [] rest).
  - case_decide; [destruct (goroutines e) as [|n rest] eqn:Eg; [done|]|].
    + destruct (receive _ _ _ _ _) as [e'|] eqn:E; [|done]. intros [= <-].
      by apply (step_drain tx workers c e n (res n) [] rest).
    + destruct (final_pass _ _ _) as [e'|] eqn:E; [|done]. intros [= <-]. by apply step_done.
Qed.

Lemma drive_sound k w w' : drive k w = Some w' → nsteps (step tx workers) k w w'.
Proof.
  revert w. induction k as [|k IH]; intros w; simpl; [intros [= <-]; constructor|].
  destruct (drive_step w) as [w1|] eqn:E; [|done]. simpl. intros H.
  econstructor; [by apply drive_step_sound|auto].
Qed.

End drive.

From S2P Require Import GoStrings UnitNames.

Definition sample_start : Transaction :=
  match PlanStart (Some sample_graph) ["app"] with
  | Ok tx => tx
  | Fail _ => {| tx_g := sample_graph; tx_roots := []; tx_jobs := ∅; tx_waitsFor := ∅ |}
  end.
Lemma sample_plans : PlanStart (Some sample_graph) ["app"] = Ok sample_start.
Proof. vm_compute. reflexivity. Qed.

(** [db] starts, [log] fails. *)
Definition sample_results (n : string) : option error :=
  if decide (n = "log.service") then Some (ErrText "boom") else None.

Definition sample_after (k : nat) : phase * executor :=
  default (Round, init sample_start) (drive sample_start 2 sample_results k (Round, init sample_start)).
Lemma sample_reaches k :
  bool_decide (is_Some (drive sample_start 2 sample_results k (Round, init sample_start))) = true →
  nsteps (step sample_start 2) k (Round, init sample_start) (sample_after k).
Proof.
  intros [w Hw]%bool_decide_eq_true. unfold sample_after. rewrite Hw. by eapply drive_sound.
Qed.

Lemma start_order_witness :
  calls (sample_after 3).2 = [StartCalled "db.service"; StartCalled "log.service";
    StartReturned "db.service" None; StartCalled "app.service"] ∧
  ("db.service" ∈ returned [StartCalled "db.service"; StartCalled "log.service";
    StartReturned "db.service" None] ∨
   "db.service" ∈ rejected [StartCalled "db.service"; StartCalled "log.service";
    StartReturned "db.service" None]).
Proof.
  assert (calls (sample_after 3).2 = [StartCalled "db.service"; StartCalled "log.service";
    StartReturned "db.service" None; StartCalled "app.service"]) as Hc by (vm_compute; reflexivity).
  split; [exact Hc|].
  assert (rtc (step sample_start 2) (Round, init sample_start) (sample_after 3)) as Hr
    by (eapply rtc_nsteps_2, sample_reaches; vm_compute; reflexivity).
  rewrite (surjective_pairing (sample_after 3)) in Hr.
  refine (proj1 (start_order _ _ sample_builds _ _ sample_plans 2 ltac:(lia) _ _
    [StartCalled "db.service"; StartCalled "log.service"; StartReturned "db.service" None]
    "app.service" [] Hr Hc) "db.service" _ _).
  - vm_compute. eexists. reflexivity.
  - destruct (nodes sample_graph !! "db.service") as [nw|] eqn:Ew; [|vm_compute in Ew; discriminate].
    destruct (nodes sample_graph !! "app.service") as [nk|] eqn:Ek; [|vm_compute in Ek; discriminate].
    exists nw, nk. split; [exact Ew|]. split; [exact Ek|]. right.
    vm_compute in Ew. injection Ew as <-. vm_compute. left.
Defined.

Lemma start_once_witness :
  (sample_after 3).1 = Waiting ∧ Z.of_nat (length (goroutines (sample_after 3).2)) <= 2.
Proof.
  split; [vm_compute; reflexivity|].
  assert (rtc (step sample_start 2) (Round, init sample_start) (sample_after 3)) as Hr
    by (eapply rtc_nsteps_2, sample_reaches; vm_compute; reflexivity).
  rewrite (surjective_pairing (sample_after 3)) in Hr.
  exact (proj2 (proj2 (proj2 (proj2 (proj2
    (start_once _ _ sample_builds _ _ sample_plans 2 ltac:(lia) _ _ Hr)))))).
Defined.

Lemma start_finishes_witness :
  (sample_after 8).1 = Done None ∧ 8 <= 3 * Z.of_nat (size (tx_jobs sample_start)) + 2.
Proof.
  split; [vm_compute; reflexivity|].
  assert (nsteps (step sample_start 2) 8 (Round, init sample_start) (sample_after 8)) as Hr
    by (apply sample_reaches; vm_compute; reflexivity).
  rewrite (surjective_pairing (sample_after 8)) in Hr.
  exact (proj1 (proj2 (start_finishes _ _ sample_builds _ _ sample_plans 2 ltac:(lia) _ _ 8 Hr))).
Defined.

Lemma start_result_witness :
  state_of (sample_after 8).2 "app.service" = Active ∧
  state_of (sample_after 8).2 "log.service" = Failed ∧ goroutines (sample_after 8).2 = [].
Proof.
  split; [vm_compute; reflexivity|]. split; [vm_compute; reflexivity|].
  assert (rtc (step sample_start 2) (Round, init sample_start) (Done None, (sample_after 8).2)) as Hr.
  { replace (Done None, (sample_after 8).2) with (sample_after 8) by (vm_compute; reflexivity).
    eapply rtc_nsteps_2, sample_reaches. vm_compute. reflexivity. }
  exact (proj1 (start_result _ _ sample_builds _ _ sample_plans 2 ltac:(lia) _ _ Hr)).
Defined.

Lemma Execute_returns_witness : ∃ r err, ExecuteWithLimit (Some sample_start) true 2 (Some r) err.
Proof.
  exact (proj1 (Execute_returns _ _ sample_builds _ _ sample_plans 2 ltac:(lia))).
Defined.
