(* ===== verification/CoreStop.v ===== *)
(** * Package core: the stop executor

    Translates the stop half of [internal/core/execute.go]: [stopExecutor] and
    the loop of [ExecuteStopWithLimit], as a step relation. A stop is best
    effort: an error does not keep the rest of the transaction from stopping,
    and the context does not end the loop. *)

From S2P Require Import Prelude UnitTypes CoreState CoreGraph CoreCycle CorePlan CorePlanSpec CoreExec CoreExecInv CoreExecSpec.

#[local] Open Scope Z_scope.

Inductive stop_call :=
| StopCalled (n : string)
| StopReturned (n : string) (err : option error).

(** [stopExecutor], with the calls in progress and the history of calls. *)
Record stopExecutor := {
  s_run : Run;
  s_launched : gset string;
  s_released : gset string;
  s_remaining : gmap string Z;
  s_unblock : gmap string (list string);
  s_inflight : Z;
  s_goroutines : list string;
  s_calls : list stop_call;
}.

Definition stop_state (e : stopExecutor) (n : string) : State := get_or Inactive (States (s_run e)) n.
Definition stop_error (e : stopExecutor) (n : string) : option error := Errors (s_run e) !! n.

Definition set_run (r : Run) (e : stopExecutor) : stopExecutor := {|
  s_run := r; s_launched := s_launched e; s_released := s_released e;
  s_remaining := s_remaining e; s_unblock := s_unblock e; s_inflight := s_inflight e;
  s_goroutines := s_goroutines e; s_calls := s_calls e |}.

Definition stop_releaseAfter (n : string) (e : stopExecutor) : stopExecutor :=
  if decide (n ∈ s_released e) then e
  else {| s_run := s_run e; s_launched := s_launched e;
          s_released := {[n]} ∪ s_released e;
          s_remaining := foldl decrement (s_remaining e) (get_or [] (s_unblock e) n);
          s_unblock := s_unblock e; s_inflight := s_inflight e;
          s_goroutines := s_goroutines e; s_calls := s_calls e |}.

Definition markDone (n : string) (err : option error) (e : stopExecutor) : stopExecutor :=
  let r := s_run e in
  let errs := match err, Errors r !! n with
              | Some err, None => <[n := err]> (Errors r)
              | _, _ => Errors r
              end in
  stop_releaseAfter n (set_run {| States := <[n := Inactive]> (States r); Errors := errs;
                                  Started := Started r; Stopped := Stopped r |} e).

Definition stop_tryLaunch (n : string) (e : stopExecutor) : stopExecutor :=
  if decide (n ∈ s_launched e) then e
  else if 0 <? get_or 0 (s_remaining e) n then e
  else
    let r := s_run e in
    {| s_run := {| States := <[n := Deactivating]> (States r); Errors := Errors r;
                   Started := Started r; Stopped := Stopped r ++ [n] |};
       s_launched := {[n]} ∪ s_launched e; s_released := s_released e;
       s_remaining := s_remaining e; s_unblock := s_unblock e; s_inflight := s_inflight e + 1;
       s_goroutines := s_goroutines e ++ [n]; s_calls := s_calls e ++ [StopCalled n] |}.

Definition stop_onFinish (n : string) (res : option error) (e : stopExecutor) : stopExecutor :=
  markDone n res (stop_releaseAfter n e).

(** A result is received: [inflight--] and [onFinish]. *)
Definition stop_receive (n : string) (res : option error) (rest : list string) (e : stopExecutor)
    : stopExecutor :=
  stop_onFinish n res {| s_run := s_run e; s_launched := s_launched e; s_released := s_released e;
    s_remaining := s_remaining e; s_unblock := s_unblock e; s_inflight := s_inflight e - 1;
    s_goroutines := rest; s_calls := s_calls e ++ [StopReturned n res] |}.

Fixpoint stop_pass (workers : Z) (names : list string) (e : stopExecutor) : stopExecutor :=
  match names with
  | [] => e
  | n :: names' =>
    if workers <=? s_inflight e then e else stop_pass workers names' (stop_tryLaunch n e)
  end.

Definition stop_final (names : list string) (e : stopExecutor) : stopExecutor :=
  foldl (λ e n, if decide (n ∈ s_launched e) then e
                else markDone n (Some (ErrFmt "unit %q was not stopped" [n])) e) e names.

Section stop.
Context {NM : Naming} (tx : Transaction).

Definition stop_init_job (e : stopExecutor) (n : string) : stopExecutor :=
  let deps := get_or [] (tx_waitsFor tx) n in
  let r := s_run e in
  {| s_run := {| States := <[n := Active]> (States r); Errors := Errors r;
                 Started := Started r; Stopped := Stopped r |};
     s_launched := s_launched e; s_released := s_released e;
     s_remaining := <[n := Z.of_nat (length deps)]> (s_remaining e);
     s_unblock := foldl (λ m dep, append_at m dep n) (s_unblock e) deps;
     s_inflight := s_inflight e; s_goroutines := s_goroutines e; s_calls := s_calls e |}.
Definition stop_zero : stopExecutor := {|
  s_run := {| States := ∅; Errors := ∅; Started := []; Stopped := [] |};
  s_launched := ∅; s_released := ∅; s_remaining := ∅; s_unblock := ∅; s_inflight := 0;
  s_goroutines := []; s_calls := [] |}.
Definition stop_init : stopExecutor := foldl stop_init_job stop_zero (jobNames (tx_jobs tx)).

(** The loop of [ExecuteStopWithLimit]. *)
Inductive stop_phase := StopRound | StopWaiting | StopDraining | StopDone.

Inductive stop_step (workers : Z) : stop_phase * stopExecutor → stop_phase * stopExecutor → Prop :=
| stop_idle e :
    s_inflight (stop_pass workers (jobNames (tx_jobs tx)) e) = 0 →
    stop_step workers (StopRound, e) (StopDraining, stop_pass workers (jobNames (tx_jobs tx)) e)
| stop_wait e :
    s_inflight (stop_pass workers (jobNames (tx_jobs tx)) e) ≠ 0 →
    stop_step workers (StopRound, e) (StopWaiting, stop_pass workers (jobNames (tx_jobs tx)) e)
| stop_received e n res before rest :
    s_goroutines e = before ++ n :: rest →
    stop_step workers (StopWaiting, e) (StopRound, stop_receive n res (before ++ rest) e)
| stop_drained e n res before rest :
    0 < s_inflight e → s_goroutines e = before ++ n :: rest →
    stop_step workers (StopDraining, e) (StopDraining, stop_receive n res (before ++ rest) e)
| stop_done e :
    ¬ 0 < s_inflight e →
    stop_step workers (StopDraining, e) (StopDone, stop_final (jobNames (tx_jobs tx)) e).

End stop.

Inductive ExecuteStopWithLimit {NM : Naming} (tx : option Transaction) (stopper : bool)
    (workers : Z) : option Run → option error → Prop :=
| exec_stop_limit :
    workers < 1 →
    ExecuteStopWithLimit tx stopper workers None
      (Some (ErrText "transaction worker limit must be positive"))
| exec_no_stopper :
    1 <= workers → stopper = false →
    ExecuteStopWithLimit tx stopper workers None (Some (ErrText "nil stopper"))
| exec_stop_nil :
    1 <= workers → stopper = true → tx = None →
    ExecuteStopWithLimit tx stopper workers None (Some (ErrText "empty transaction"))
| exec_stop_invalid t err :
    1 <= workers → stopper = true → tx = Some t → validate t = Some err →
    ExecuteStopWithLimit tx stopper workers None (Some err)
| exec_stop_run t e :
    1 <= workers → stopper = true → tx = Some t → validate t = None →
    rtc (stop_step t workers) (StopRound, stop_init t) (StopDone, e) →
    ExecuteStopWithLimit tx stopper workers (Some (s_run e)) (rootError tx (Some (s_run e))).

Definition ExecuteStop {NM : Naming} (tx : option Transaction) (stopper : bool) :=
  ExecuteStopWithLimit tx stopper DefaultTransactionWorkers.

(** [Graph.Stop] and [Graph.Shutdown]. *)
Definition graph_Stop {NM : Naming} {MR : MapRange} (g : option Graph) (stopper : bool)
    (names : list string) (r : option Run) (err : option error) : Prop :=
  match PlanStop g names with
  | Fail e => r = None ∧ err = Some e
  | Ok tx => ExecuteStop (Some tx) stopper r err
  end.
Definition graph_Shutdown {NM : Naming} {MR : MapRange} (g : option Graph) (stopper : bool)
    (names : list string) (r : option Run) (err : option error) : Prop :=
  match PlanShutdown g names with
  | Fail e => r = None ∧ err = Some e
  | Ok tx => ExecuteStop (Some tx) stopper r err
  end.

(** ** The invariant *)

Definition stops_called (l : list stop_call) : list string :=
  omap (λ c, match c with StopCalled n => Some n | _ => None end) l.
Definition stops_returned (l : list stop_call) : list string :=
  omap (λ c, match c with StopReturned n _ => Some n | _ => None end) l.

Section stop_inv.
Context {NM : Naming} (tx : Transaction) (Htx : tx_ok tx).

Notation names := (jobNames (tx_jobs tx)).
Notation waits n := (get_or [] (tx_waitsFor tx) n).

Record stop_inv (e : stopExecutor) : Prop := {
  si_launched : ∀ n, n ∈ s_launched e → n ∈ names;
  si_released : ∀ n, n ∈ s_released e ↔ n ∈ stops_returned (s_calls e);
  si_stopped : stops_called (s_calls e) = Stopped (s_run e);
  si_called : ∀ n, n ∈ Stopped (s_run e) ↔ n ∈ s_launched e;
  si_once : NoDup (Stopped (s_run e));
  si_perm : Stopped (s_run e) ≡ₚ stops_returned (s_calls e) ++ s_goroutines e;
  si_inflight : s_inflight e = Z.of_nat (length (s_goroutines e));
  si_state : ∀ n, n ∈ names → stop_state e n =
    if decide (n ∈ s_launched e) then if decide (n ∈ s_released e) then Inactive else Deactivating
    else Active;
  si_error : ∀ n err, stop_error e n = Some err ↔ StopReturned n (Some err) ∈ s_calls e;
  si_remaining : ∀ n, n ∈ names →
    get_or 0 (s_remaining e) n = Z.of_nat (length (filter (λ w, w ∉ s_released e) (waits n)));
  si_unblock : ∀ w, get_or [] (s_unblock e) w = filter (λ n, w ∈ waits n) names;
  si_history : ∀ l1 n l2, s_calls e = l1 ++ StopCalled n :: l2 →
    ∀ w, w ∈ waits n → w ∈ stops_returned l1;
}.

Lemma stops_called_app l1 l2 : stops_called (l1 ++ l2) = stops_called l1 ++ stops_called l2.
Proof. apply omap_app. Qed.
Lemma stops_returned_app l1 l2 : stops_returned (l1 ++ l2) = stops_returned l1 ++ stops_returned l2.
Proof. apply omap_app. Qed.

Lemma stop_unblocked e n w : stop_inv e → n ∈ names → get_or 0 (s_remaining e) n <= 0 →
  w ∈ waits n → w ∈ s_released e.
Proof.
  intros Hi Hn Hr Hw. rewrite (si_remaining _ Hi n Hn) in Hr.
  destruct (decide (w ∈ s_released e)) as [|Hnr]; [done|].
  assert (w ∈ filter (λ w, w ∉ s_released e) (waits n)) as Hin by (by apply list_elem_of_filter).
  destruct (filter _ _) as [|? ?]; [by apply elem_of_nil in Hin|simpl in Hr; lia].
Qed.

Lemma stop_tryLaunch_ok e n : stop_inv e → n ∈ names →
  stop_inv (stop_tryLaunch n e) ∧
  (stop_tryLaunch n e = e ∧ (n ∈ s_launched e ∨ 0 < get_or 0 (s_remaining e) n) ∨
   s_inflight (stop_tryLaunch n e) = s_inflight e + 1 ∧
   Stopped (s_run (stop_tryLaunch n e)) = Stopped (s_run e) ++ [n]).
Proof.
  intros Hi Hn. unfold stop_tryLaunch. case_decide as Hl; [auto|].
  destruct (0 <? _) eqn:Er; [apply Z.ltb_lt in Er; auto 6|apply Z.ltb_ge in Er].
  split; [|by right].
  assert (n ∉ s_released e) as Hrel.
  { intros Hr%(si_released _ Hi). apply Hl, (si_called _ Hi). rewrite (si_perm _ Hi).
    apply elem_of_app. by left. }
  pose proof (stop_unblocked e n) as Hun.
  destruct Hi as [I1 I2 I3 I4 I5 I6 I7 I8 I9 I10 I11 I12].
  split; simpl; try done.
  - set_solver.
  - intros m. by rewrite stops_returned_app, app_nil_r.
  - by rewrite stops_called_app, I3.
  - intros m. rewrite elem_of_app, I4, list_elem_of_singleton, elem_of_union, elem_of_singleton. tauto.
  - apply NoDup_app. split_and!; [done| |apply NoDup_singleton].
    intros m Hm ->%list_elem_of_singleton. by apply Hl, I4.
  - by rewrite stops_returned_app, app_nil_r, app_assoc, I6.
  - rewrite length_app, I7. simpl. lia.
  - intros m Hm. specialize (I8 m Hm). unfold stop_state in *. simpl. rewrite get_or_insert.
    destruct (decide (n = m)) as [<-|Hne].
    + rewrite decide_True by set_solver. by rewrite decide_False.
    + rewrite I8. destruct (decide (m ∈ s_launched e)), (decide (m ∈ {[n]} ∪ s_launched e)); set_solver.
  - intros m err. unfold stop_error in *. simpl. rewrite I9, elem_of_app, list_elem_of_singleton. naive_solver.
  - intros l1 m l2 [(-> & -> & [= ->])|(l2' & -> & Heq)]%snoc_split w Hw.
    + apply I2. by apply (Hun w).
    + by eapply I12.
Qed.

Lemma stop_release_new n e : n ∉ s_released e →
  stop_releaseAfter n e = {| s_run := s_run e; s_launched := s_launched e;
    s_released := {[n]} ∪ s_released e;
    s_remaining := foldl decrement (s_remaining e) (get_or [] (s_unblock e) n);
    s_unblock := s_unblock e; s_inflight := s_inflight e;
    s_goroutines := s_goroutines e; s_calls := s_calls e |}.
Proof. intros Hn. unfold stop_releaseAfter. by rewrite decide_False. Qed.

Lemma stop_release_again n e : n ∈ s_released e → stop_releaseAfter n e = e.
Proof. intros Hn. unfold stop_releaseAfter. by rewrite decide_True. Qed.

(** The state after a result has been processed. *)
Lemma stop_receive_fields n res rest e : n ∉ s_released e →
  let e' := stop_receive n res rest e in
  s_launched e' = s_launched e ∧ s_released e' = {[n]} ∪ s_released e ∧
  s_remaining e' = foldl decrement (s_remaining e) (get_or [] (s_unblock e) n) ∧
  s_unblock e' = s_unblock e ∧ s_inflight e' = s_inflight e - 1 ∧ s_goroutines e' = rest ∧
  s_calls e' = s_calls e ++ [StopReturned n res] ∧ Stopped (s_run e') = Stopped (s_run e) ∧
  (∀ m, stop_state e' m = if decide (n = m) then Inactive else stop_state e m) ∧
  (∀ m, stop_error e' m = if decide (n = m)
     then match stop_error e n with Some err => Some err | None => res end else stop_error e m).
Proof.
  intros Hr. unfold stop_receive, stop_onFinish.
  rewrite stop_release_new by done. unfold markDone.
  rewrite stop_release_again by (simpl; set_solver). unfold stop_state, stop_error. simpl.
  split_and!; try done.
  - intros m. apply get_or_insert.
  - intros m. destruct res as [err|].
    + destruct (Errors (s_run e) !! n) as [err0|] eqn:E.
      * case_decide; [by subst|done].
      * rewrite lookup_insert. case_decide; [by subst|done].
    + case_decide as Hnm; [subst m|done]. by destruct (Errors (s_run e) !! n).
Qed.

Lemma stop_receive_ok e n res before rest : stop_inv e → s_goroutines e = before ++ n :: rest →
  stop_inv (stop_receive n res (before ++ rest) e) ∧
  s_inflight (stop_receive n res (before ++ rest) e) = s_inflight e - 1 ∧
  s_launched (stop_receive n res (before ++ rest) e) = s_launched e ∧
  Stopped (s_run (stop_receive n res (before ++ rest) e)) = Stopped (s_run e).
Proof.
  intros Hi Hg.
  assert (n ∈ Stopped (s_run e)) as Hst by (rewrite (si_perm _ Hi), Hg; set_solver).
  assert (n ∈ s_launched e) as Hl by (by apply (si_called _ Hi)).
  assert (n ∉ stops_returned (s_calls e)) as Hnr.
  { intros Hr. pose proof (si_once _ Hi) as Hd. rewrite (si_perm _ Hi) in Hd.
    apply NoDup_app in Hd as (_ & Hd & _). apply (Hd n Hr). rewrite Hg. set_solver. }
  assert (n ∉ s_released e) as Hrel by (by rewrite (si_released _ Hi)).
  assert (stop_error e n = None) as Hnone.
  { destruct (stop_error e n) as [err|] eqn:E; [|done]. apply (si_error _ Hi) in E.
    exfalso. apply Hnr, list_elem_of_omap. eauto. }
  destruct (stop_receive_fields n res (before ++ rest) e Hrel)
    as (F1 & F2 & F3 & F4 & F5 & F6 & F7 & F8 & F9 & F10).
  split_and!; [|done..]. set (e' := stop_receive _ _ _ _) in *.
  destruct Hi as [I1 I2 I3 I4 I5 I6 I7 I8 I9 I10 I11 I12].
  split; rewrite ?F1, ?F2, ?F3, ?F4, ?F5, ?F6, ?F7, ?F8; try done.
  - intros m. rewrite stops_returned_app, elem_of_app, elem_of_union, elem_of_singleton, I2.
    simpl. rewrite list_elem_of_singleton. tauto.
  - by rewrite stops_called_app, app_nil_r.
  - rewrite stops_returned_app, I6, Hg. simpl. rewrite <-app_assoc. simpl.
    by rewrite <-Permutation_middle, (Permutation_middle before).
  - rewrite I7, Hg, !length_app. simpl. lia.
  - intros m Hm. rewrite F9, (I8 m Hm). destruct (decide (n = m)) as [<-|Hne].
    + rewrite decide_True by done. by rewrite decide_True by set_solver.
    + destruct (decide (m ∈ s_released e)), (decide (m ∈ {[n]} ∪ s_released e)); set_solver.
  - intros m err. rewrite F10, elem_of_app, list_elem_of_singleton, <-I9.
    destruct (decide (n = m)) as [<-|Hne]; [rewrite Hnone|]; naive_solver.
  - intros m Hm. apply (release_remaining tx Htx); auto.
  - intros l1 m l2 [(-> & -> & ?)|(l2' & -> & Heq)]%snoc_split w Hw; [done|]. by eapply I12.
Qed.

Lemma stop_pass_ok workers l : ∀ e, stop_inv e → (∀ n, n ∈ l → n ∈ names) →
  0 < workers → 0 <= s_inflight e <= workers →
  let e' := stop_pass workers l e in
  stop_inv e' ∧ s_inflight e <= s_inflight e' <= workers ∧
  (Z.of_nat (length (Stopped (s_run e'))) - Z.of_nat (length (Stopped (s_run e))) =
   s_inflight e' - s_inflight e) ∧
  (s_inflight e' = 0 → e' = e ∧ ∀ n, n ∈ l → n ∈ s_launched e ∨ 0 < get_or 0 (s_remaining e) n).
Proof.
  induction l as [|n l IH]; intros e Hi Hl Hw Hin; cbn [stop_pass].
  { split_and!; try done; try lia. intros _. split; [done|]. by intros ? ?%elem_of_nil. }
  destruct (workers <=? s_inflight e) eqn:Ew.
  { apply Z.leb_le in Ew. split_and!; try done; lia. }
  apply Z.leb_gt in Ew.
  destruct (stop_tryLaunch_ok e n Hi) as (Hi1 & Hcase); [apply Hl; left|].
  destruct (IH (stop_tryLaunch n e) Hi1) as (Hi' & Hb & Hlen & Hidle); [set_solver|done| |].
  { destruct Hcase as [[-> _]|[-> _]]; lia. }
  split; [done|]. destruct Hcase as [[Heq Hn]|[Hf Hst]].
  - rewrite Heq in *. split_and!; try lia. intros H0. destruct (Hidle H0) as [-> Hall].
    split; [done|]. intros m [->|Hm]%elem_of_cons; auto.
  - rewrite Hst, length_app in Hlen. simpl in Hlen. split_and!; lia.
Qed.

(** When nothing runs and nothing could be launched, everything was. *)
Lemma stop_idle_all e : stop_inv e → s_inflight e = 0 →
  (∀ n, n ∈ names → n ∈ s_launched e ∨ 0 < get_or 0 (s_remaining e) n) →
  ∀ n, n ∈ names → n ∈ s_launched e.
Proof.
  intros Hi H0 Hidle. destruct (ok_rank _ Htx) as [rank Hrank].
  assert (s_goroutines e = []) as Hg.
  { rewrite (si_inflight _ Hi) in H0. destruct (s_goroutines e); [done|simpl in H0; lia]. }
  intros n. remember (rank n) as k eqn:Hk. revert n Hk.
  induction (lt_wf k) as [k _ IH]; intros n -> Hn.
  destruct (Hidle n Hn) as [?|Hr]; [done|]. rewrite (si_remaining _ Hi n Hn) in Hr.
  destruct (filter (λ w, w ∉ s_released e) (waits n)) as [|w ws] eqn:Ew; [simpl in Hr; lia|].
  assert (w ∈ filter (λ w, w ∉ s_released e) (waits n)) as Hw by (rewrite Ew; left).
  apply list_elem_of_filter in Hw as [Hnr Hw]. exfalso. apply Hnr, (si_released _ Hi).
  assert (w ∈ Stopped (s_run e)) as Hst
    by (apply (si_called _ Hi), (IH (rank w) (Hrank n w Hw) w eq_refl), (ok_waits _ Htx n w Hw)).
  rewrite (si_perm _ Hi), Hg, app_nil_r in Hst. done.
Qed.

Lemma stop_init_fold l : ∀ e,
  let e' := foldl (stop_init_job tx) e l in
  (Errors (s_run e') = Errors (s_run e) ∧ Stopped (s_run e') = Stopped (s_run e) ∧
   s_launched e' = s_launched e ∧ s_released e' = s_released e ∧ s_inflight e' = s_inflight e ∧
   s_goroutines e' = s_goroutines e ∧ s_calls e' = s_calls e) ∧
  (∀ n, stop_state e' n = if decide (n ∈ l) then Active else stop_state e n) ∧
  (∀ n, get_or 0 (s_remaining e') n =
     if decide (n ∈ l) then Z.of_nat (length (waits n)) else get_or 0 (s_remaining e) n) ∧
  (∀ w, get_or [] (s_unblock e') w = get_or [] (s_unblock e) w ++ filter (λ n, w ∈ waits n) l).
Proof.
  induction l as [|n l IH]; intros e; cbn [foldl].
  { split; [done|]. split_and!; intros; rewrite ?decide_False by apply not_elem_of_nil; [done..|].
    by rewrite app_nil_r. }
  destruct (IH (stop_init_job tx e n)) as (Hsame & Hst & Hrem & Hun). split; [done|].
  assert (∀ m, m ∈ n :: l ↔ m ∈ l ∨ n = m) as Hin by set_solver. split_and!.
  - intros m. rewrite Hst. unfold stop_state, stop_init_job. simpl. rewrite get_or_insert.
    destruct (decide (m ∈ l)), (decide (n = m)), (decide (m ∈ n :: l)); naive_solver.
  - intros m. rewrite Hrem. unfold stop_init_job. simpl. rewrite get_or_insert.
    destruct (decide (m ∈ l)), (decide (n = m)), (decide (m ∈ n :: l)); naive_solver.
  - intros w. rewrite Hun. unfold stop_init_job. simpl.
    rewrite (foldl_append_at tx Htx) by apply (ok_nodup _ Htx). rewrite <-app_assoc, filter_cons.
    by destruct (decide (w ∈ waits n)).
Qed.

Lemma stop_init_ok : stop_inv (stop_init tx) ∧ Stopped (s_run (stop_init tx)) = [] ∧
  s_inflight (stop_init tx) = 0.
Proof.
  unfold stop_init. destruct (stop_init_fold names stop_zero)
    as ((E1 & E2 & E3 & E4 & E5 & E6 & E7) & Hst & Hrem & Hun).
  set (e := foldl _ _ _) in *. simpl in *. split; [|done].
  split; rewrite ?E2, ?E3, ?E4, ?E5, ?E6, ?E7; try done; try apply NoDup_nil_2.
  - intros n. split; [by intros ?%elem_of_empty|by intros ?%elem_of_nil].
  - intros n. split; [by intros ?%elem_of_nil|by intros ?%elem_of_empty].
  - intros n Hn. rewrite Hst, decide_True by done.
    by destruct (decide (n ∈ ∅)) as [?%elem_of_empty|].
  - intros n err. unfold stop_error. rewrite E1. split; [done|by intros ?%elem_of_nil].
  - intros n Hn. rewrite Hrem, decide_True by done. clear. f_equal.
    induction (waits n) as [|w l IH]; [done|]. rewrite filter_cons, decide_True by apply not_elem_of_empty.
    simpl. by rewrite IH.
  - intros l1 n l2 Heq. by destruct l1.
Qed.

(** ** Runs *)

Context (workers : Z) (Hworkers : 0 < workers).

Record stop_world (w : stop_phase * stopExecutor) : Prop := {
  sw_inv : stop_inv w.2;
  sw_bound : 0 <= s_inflight w.2 <= workers;
  sw_phase : match w.1 with
             | StopRound => True
             | StopWaiting => s_inflight w.2 ≠ 0
             | StopDraining => s_inflight w.2 = 0 ∧ ∀ n, n ∈ names → n ∈ s_launched w.2
             | StopDone => s_inflight w.2 = 0 ∧ ∀ n, n ∈ names → n ∈ s_launched w.2
             end;
}.

Definition stop_weight (w : stop_phase * stopExecutor) : Z :=
  3 * (Z.of_nat (length names) - Z.of_nat (length (Stopped (s_run w.2)))) + 2 * s_inflight w.2 +
  match w.1 with StopRound => 2 | StopWaiting | StopDraining => 1 | StopDone => 0 end.

Lemma stop_final_idle e : (∀ n, n ∈ names → n ∈ s_launched e) → stop_final names e = e.
Proof.
  intros Hall. unfold stop_final. induction names as [|n l IH]; [done|]. cbn [foldl].
  rewrite decide_True by (apply Hall; left). apply IH. intros m Hm. apply Hall. by right.
Qed.

Lemma stop_step_world w w' : stop_world w → stop_step tx workers w w' →
  stop_world w' ∧ stop_weight w' < stop_weight w.
Proof.
  intros [Hi Hb Hp] Hstep. unfold stop_weight.
  destruct Hstep as [e H0|e H0|e n res before rest Hg|e n res before rest Hpos Hg|e Hpos]; simpl in *.
  - destruct (stop_pass_ok workers names e) as (Hi1 & ? & ? & Hidle); try done.
    destruct (Hidle H0) as [Heq Hall]. rewrite Heq in *.
    split; [|lia]. split; simpl; try done. split; [done|]. by apply stop_idle_all.
  - destruct (stop_pass_ok workers names e) as (Hi1 & ? & ? & _); try done.
    split; [split; simpl; try done; lia|]. lia.
  - destruct (stop_receive_ok e n res before rest Hi Hg) as (Hi1 & Hf & Hl & ->).
    assert (0 < s_inflight e) by (rewrite (si_inflight _ Hi), Hg, length_app; simpl; lia).
    split; [split; simpl; try done; lia|]. lia.
  - lia.
  - destruct Hp as [H0 Hall]. rewrite stop_final_idle by done.
    split; [by split|]. lia.
Qed.

Lemma stop_run_world w : rtc (stop_step tx workers) (StopRound, stop_init tx) w → stop_world w.
Proof.
  intros Hr. destruct stop_init_ok as (Hi & _ & H0).
  assert (stop_world (StopRound, stop_init tx)) as Hw by (split; simpl; try done; lia).
  clear Hi H0. induction Hr as [|w1 w2 w3 H12 _ IH]; [done|].
  apply IH. by eapply stop_step_world.
Qed.

Lemma stop_weight_nonneg w : stop_world w → 0 <= stop_weight w.
Proof.
  intros [Hi Hb _]. unfold stop_weight.
  assert (length (Stopped (s_run w.2)) ≤ length names)%nat.
  { apply submseteq_length, NoDup_submseteq; [apply Hi|]. intros n Hn.
    apply (si_launched _ Hi). by apply (si_called _ Hi). }
  destruct w.1; lia.
Qed.

Lemma stop_run_bound k w w' : stop_world w → nsteps (stop_step tx workers) k w w' →
  Z.of_nat k + stop_weight w' <= stop_weight w.
Proof.
  intros Hw Hk. induction Hk as [|k w1 w2 w3 H12 _ IH]; [lia|].
  destruct (stop_step_world _ _ Hw H12) as [Hw2 ?]. specialize (IH Hw2). lia.
Qed.

(** A state that is not final goes on, with whichever stop returns first. *)
Definition stop_goes_on (w : stop_phase * stopExecutor) : Prop :=
  match w.1 with
  | StopWaiting => s_goroutines w.2 ≠ [] ∧
      ∀ n res, n ∈ s_goroutines w.2 → ∃ e', stop_step tx workers w (StopRound, e') ∧
        s_calls e' = s_calls w.2 ++ [StopReturned n res]
  | StopDone => True
  | _ => ∃ w', stop_step tx workers w w'
  end.

Lemma stop_world_goes_on w : stop_world w → stop_goes_on w.
Proof.
  destruct w as [ph e]. intros [Hi Hb Hp]. unfold stop_goes_on. simpl in *.
  pose proof (si_inflight _ Hi) as Hin. destruct ph; simpl; [| | |done].
  - destruct (decide (s_inflight (stop_pass workers names e) = 0)); eexists;
      [by apply stop_idle|by apply stop_wait].
  - split; [by intros Hg; rewrite Hg in Hin|]. intros n res Hn.
    apply list_elem_of_split in Hn as (l1 & l2 & Hg).
    exists (stop_receive n res (l1 ++ l2) e). split; [by apply stop_received|].
    apply (stop_receive_fields n res (l1 ++ l2) e). rewrite (si_released _ Hi). intros Hr.
    pose proof (si_once _ Hi) as Hd. rewrite (si_perm _ Hi) in Hd.
    apply NoDup_app in Hd as (_ & Hd & _). apply (Hd n Hr). rewrite Hg. set_solver.
  - eexists. apply stop_done. lia.
Qed.

Lemma stop_world_finishes w : stop_world w → ∃ e, rtc (stop_step tx workers) w (StopDone, e).
Proof.
  remember (Z.to_nat (stop_weight w)) as k eqn:Hk. revert w Hk.
  induction (lt_wf k) as [k _ IH]. intros w -> Hw.
  assert (w.1 = StopDone ∨ ∃ w', stop_step tx workers w w') as [Hd|[w' Hstep]].
  { pose proof (stop_world_goes_on w Hw) as Hg. unfold stop_goes_on in Hg.
    destruct w as [[] e]; simpl in *; [by right| |by right|by left].
    destruct Hg as [Hne Hr]. destruct (s_goroutines e) as [|n l]; [done|].
    destruct (Hr n None) as (e' & ? & _); [left|right; eauto]. }
  - destruct w as [ph e]. simpl in Hd. subst. exists e. apply rtc_refl.
  - destruct (stop_step_world _ _ Hw Hstep) as [Hw' Hlt]. pose proof (stop_weight_nonneg w' Hw').
    destruct (IH (Z.to_nat (stop_weight w')) ltac:(lia) w' eq_refl Hw') as (e & ?).
    exists e. by eapply rtc_l.
Qed.

End stop_inv.

(** ** A stop transaction from its plan *)

(** The error is that of the first of the units whose stop failed, nil if none did. *)
Definition first_failure (l : list stop_call) (roots : list string) (err : option error) : Prop :=
  match err with
  | None => ∀ n x, n ∈ roots → StopReturned n (Some x) ∉ l
  | Some x => ∃ before n rest, roots = before ++ n :: rest ∧ StopReturned n (Some x) ∈ l ∧
      ∀ n' y, n' ∈ before → StopReturned n' (Some y) ∉ l
  end.

Lemma first_error_failure e roots : (∀ n err, stop_error e n = Some err ↔ StopReturned n (Some err) ∈ s_calls e) →
  first_failure (s_calls e) roots (first_error (Errors (s_run e)) roots).
Proof.
  intros He. unfold stop_error in He. induction roots as [|n roots IH]; simpl.
  { by intros ? ? ?%elem_of_nil. }
  destruct (Errors (s_run e) !! n) as [x|] eqn:Ex.
  - exists [], n, roots. split; [done|]. split; [by apply He|]. by intros ? ? ?%elem_of_nil.
  - assert (Hn : ∀ y, StopReturned n (Some y) ∉ s_calls e) by (intros y ?%He; congruence).
    destruct (first_error _ roots) as [x|]; simpl in *.
    + destruct IH as (before & n' & rest & -> & Hx & Hb). exists (n :: before), n', rest.
      split; [done|]. split; [done|]. intros m y [->|Hm]%elem_of_cons; eauto.
    + intros m y [->|Hm]%elem_of_cons; eauto.
Qed.

Section stop_transaction.
Context {NM : Naming} {MR : MapRange}.
Context (units : list (option Unit)) (g : Graph) (Hbuild : Build units = Ok g).
Context (names : list string) (tx : Transaction).
Context (Hplan : PlanStop (Some g) names = Ok tx ∨ PlanShutdown (Some g) names = Ok tx).
Context (workers : Z) (Hworkers : 1 <= workers).

Lemma stop_planned : PlanStop (Some g) names = Ok tx →
  planned g names JobStop (stopped_with g names) (λ w x, precedes g x w ∨ stop_depends g w x) tx.
Proof.
  intros Hp. pose proof (PlanStop_outcome units g Hbuild names) as H. rewrite Hp in H. apply H.
Qed.
Lemma shutdown_planned : PlanShutdown (Some g) names = Ok tx →
  planned g names JobStop (taken_down g names) (λ w x, precedes g x w) tx.
Proof.
  intros Hp. pose proof (PlanShutdown_outcome units g Hbuild names) as H. rewrite Hp in H. apply H.
Qed.

Lemma stop_tx_ok : tx_ok tx.
Proof.
  destruct Hplan as [Hp|Hp]; [apply stop_planned in Hp|apply shutdown_planned in Hp];
    (eapply planned_tx_ok; [by eapply Build_wf|done]).
Qed.

Lemma stop_roots : tx_roots tx = uniqueStable names.
Proof.
  destruct Hplan as [Hp|Hp]; [apply stop_planned in Hp|apply shutdown_planned in Hp]; apply (pl_roots _ _ _ _ _ _ Hp).
Qed.

Lemma stop_validate : validate tx = None.
Proof.
  assert (∀ t, validated t = Ok tx → validate tx = None) as Hv.
  { unfold validated. intros t. destruct (validate t) eqn:E; [done|]. by intros [= <-]. }
  destruct Hplan as [Hp|Hp].
  - unfold PlanStop in Hp. destruct names; [done|].
    destruct (collect_roots _ _ _ _ _) as [[roots []]|]; [|done].
    destruct (reverseRequirementClosure _ _); [|done]. by eapply Hv.
  - unfold PlanShutdown, plan in Hp. destruct names; [done|].
    destruct (collect_roots _ _ _ _ _) as [[roots jobs]|]; [|done].
    destruct (afterClosure _ _); [|done]. destruct (add_all _ _ _ _ _); [|done]. by eapply Hv.
Qed.

Lemma stop_started ph e : rtc (stop_step tx workers) (StopRound, stop_init tx) (ph, e) →
  stop_world tx workers (ph, e).
Proof. apply stop_run_world; [apply stop_tx_ok|lia]. Qed.

(** C15: ordering safety of a stop. Whenever the adapter is asked to stop a
    unit, every unit of the transaction that starts after it has already been
    stopped; in a single-unit stop, so has every unit that requires it, binds
    to it or is part of it. *)
Theorem stop_order ph e l1 n l2 :
  rtc (stop_step tx workers) (StopRound, stop_init tx) (ph, e) →
  s_calls e = l1 ++ StopCalled n :: l2 →
  (∀ w, is_Some (tx_jobs tx !! w) → precedes g n w → w ∈ stops_returned l1) ∧
  (PlanStop (Some g) names = Ok tx →
   ∀ w, is_Some (tx_jobs tx !! w) → stop_depends g w n → w ∈ stops_returned l1).
Proof.
  intros [Hi _ _]%stop_started Hc. simpl in Hi.
  pose proof (si_history _ _ Hi _ _ _ Hc) as Hw.
  assert (n ∈ jobNames (tx_jobs tx)) as Hn%elem_of_jobNames.
  { apply (si_launched _ _ Hi), (si_called _ _ Hi). rewrite <-(si_stopped _ _ Hi), Hc, stops_called_app.
    simpl. set_solver. }
  split.
  - intros w Hjw Hpre. apply Hw. destruct Hplan as [Hp|Hp].
    + apply stop_planned in Hp. apply (pl_waits _ _ _ _ _ _ Hp). rewrite <-!(pl_units _ _ _ _ _ _ Hp). auto.
    + apply shutdown_planned in Hp. apply (pl_waits _ _ _ _ _ _ Hp).
      by rewrite <-!(pl_units _ _ _ _ _ _ Hp).
  - intros Hp%stop_planned w Hjw Hd. apply Hw, (pl_waits _ _ _ _ _ _ Hp).
    rewrite <-!(pl_units _ _ _ _ _ _ Hp). auto.
Qed.

(** C20: a stop is complete. At the end of every run each unit of the
    transaction has been asked to stop exactly once and that stop has returned,
    whatever the others returned; every unit is Inactive and exactly the errors
    the stops returned are recorded. *)
Theorem stop_result e :
  rtc (stop_step tx workers) (StopRound, stop_init tx) (StopDone, e) →
  stops_called (s_calls e) ≡ₚ jobNames (tx_jobs tx) ∧
  stops_returned (s_calls e) ≡ₚ jobNames (tx_jobs tx) ∧
  (∀ n, is_Some (tx_jobs tx !! n) → stop_state e n = Inactive) ∧
  (∀ n err, stop_error e n = Some err ↔ StopReturned n (Some err) ∈ s_calls e).
Proof.
  intros [Hi _ [H0 Hall]]%stop_started. simpl in *.
  assert (s_goroutines e = []) as Hg.
  { rewrite (si_inflight _ _ Hi) in H0. destruct (s_goroutines e); [done|simpl in H0; lia]. }
  assert (Stopped (s_run e) ≡ₚ jobNames (tx_jobs tx)) as Hst.
  { apply NoDup_Permutation; [apply Hi|apply NoDup_jobNames|]. intros n. rewrite (si_called _ _ Hi).
    split; [apply Hi|apply Hall]. }
  assert (stops_returned (s_calls e) ≡ₚ jobNames (tx_jobs tx)) as Hret.
  { pose proof (si_perm _ _ Hi) as Hp. rewrite Hg, app_nil_r in Hp. by rewrite <-Hp. }
  split_and!; [by rewrite (si_stopped _ _ Hi)|done| |apply Hi].
  intros n Hn%elem_of_jobNames. rewrite (si_state _ _ Hi n Hn), decide_True by auto.
  rewrite decide_True; [done|]. apply (si_released _ _ Hi). by rewrite Hret.
Qed.

(** C21: a stop never gets stuck. Every reachable state that is not final goes
    on, at once or with whichever stop returns first, at most [workers] stops
    are in progress at a time, every run ends after at most three steps per
    unit and two more.  Executing the plan has an outcome, and every outcome is
    that of a complete run; its error is the one that the first of the requested
    units whose stop failed returned, and nil if all of them stopped. *)
Theorem stop_finishes ph e k :
  nsteps (stop_step tx workers) k (StopRound, stop_init tx) (ph, e) →
  stop_goes_on tx workers (ph, e) ∧ Z.of_nat (length (s_goroutines e)) <= workers ∧
  Z.of_nat k <= 3 * Z.of_nat (size (tx_jobs tx)) + 2 ∧
  (∃ e', rtc (stop_step tx workers) (ph, e) (StopDone, e')) ∧
  (∃ r err, ExecuteStopWithLimit (Some tx) true workers (Some r) err) ∧
  (∀ r err, ExecuteStopWithLimit (Some tx) true workers r err →
     ∃ e', rtc (stop_step tx workers) (StopRound, stop_init tx) (StopDone, e') ∧ r = Some (s_run e') ∧
       first_failure (s_calls e') (uniqueStable names) err).
Proof.
  intros Hk. pose proof stop_tx_ok as Hok. assert (0 < workers) as Hpos by lia.
  assert (stop_world tx workers (ph, e)) as Hw by (apply stop_started; by eapply rtc_nsteps_2).
  assert (stop_world tx workers (StopRound, stop_init tx)) as H0 by (apply stop_started, rtc_refl).
  split_and!.
  - by apply stop_world_goes_on.
  - pose proof (sw_bound _ _ _ Hw) as Hb. simpl in Hb.
    pose proof (si_inflight _ _ (sw_inv _ _ _ Hw)) as Hin. simpl in Hin. lia.
  - pose proof (stop_run_bound tx Hok workers Hpos k _ _ H0 Hk) as Hle.
    pose proof (stop_weight_nonneg tx workers _ Hw). unfold stop_weight in Hle at 2. simpl in Hle.
    destruct (stop_init_ok tx Hok) as (_ & Hst & Hin). rewrite Hst, Hin in Hle. simpl in Hle.
    unfold jobNames in Hle. rewrite length_sort_strings, length_keys in Hle. lia.
  - by apply stop_world_finishes.
  - destruct (stop_world_finishes tx Hok workers Hpos _ H0) as [e' He'].
    exists (s_run e'), (rootError (Some tx) (Some (s_run e'))).
    eapply exec_stop_run; [done..|apply stop_validate|done].
  - intros r err Hex. pose proof stop_validate as Hv.
    destruct Hex as [?|?|?|t err' ? ? [= <-] ?|t e' ? ? [= <-] _ Hr]; [lia|done|done|congruence|].
    exists e'. split; [done|]. split; [done|]. rewrite <-stop_roots. apply first_error_failure, si_error with tx.
    apply (sw_inv _ _ _ (stop_started _ _ Hr)).
Qed.

End stop_transaction.

(** ** Running the loop *)

Section drive_stop.
Context {NM : Naming} (tx : Transaction) (workers : Z) (res : string → option error).

Definition drive_stop_step (w : stop_phase * stopExecutor) : option (stop_phase * stopExecutor) :=
  match w with
  | (StopRound, e) =>
    let e' := stop_pass workers (jobNames (tx_jobs tx)) e in
    Some (if decide (s_inflight e' = 0) then StopDraining else StopWaiting, e')
  | (StopWaiting, e) =>
    match s_goroutines e with
    | n :: rest => Some (StopRound, stop_receive n (res n) rest e)
    | [] => None
    end
  | (StopDraining, e) =>
    if decide (0 < s_inflight e) then None
    else Some (StopDone, stop_final (jobNames (tx_jobs tx)) e)
  | (StopDone, _) => None
  end.
Fixpoint drive_stop (k : nat) (w : stop_phase * stopExecutor)
    : option (stop_phase * stopExecutor) :=
  match k with
  | O => Some w
  | S k => w' ← drive_stop_step w; drive_stop k w'
  end.

Lemma drive_stop_sound k w w' : drive_stop k w = Some w' → nsteps (stop_step tx workers) k w w'.
Proof.
  revert w. induction k as [|k IH]; intros w; simpl; [intros [= <-]; constructor|].
  destruct (drive_stop_step w) as [w1|] eqn:E; [|done]. simpl. intros H.
  econstructor; [|by apply IH]. clear IH H.
  destruct w as [[] e]; simpl in E; [| | |done].
  - injection E as <-. case_decide; [by apply stop_idle|by apply stop_wait].
  - destruct (s_goroutines e) as [|n rest] eqn:Eg; [done|]. injection E as <-.
    by apply (stop_received tx workers e n (res n) [] rest).
  - case_decide; [done|]. injection E as <-. by apply stop_done.
Qed.

End drive_stop.

From S2P Require Import GoStrings UnitNames.

Definition sample_stop : Transaction :=
  match PlanStop (Some sample_graph) ["db"] with
  | Ok tx => tx
  | Fail _ => {| tx_g := sample_graph; tx_roots := []; tx_jobs := ∅; tx_waitsFor := ∅ |}
  end.
Lemma sample_stops :
  PlanStop (Some sample_graph) ["db"] = Ok sample_stop ∨
  PlanShutdown (Some sample_graph) ["db"] = Ok sample_stop.
Proof. left. vm_compute. reflexivity. Qed.

(** Stopping [app] fails; everything stops all the same. *)
Definition sample_stop_results (n : string) : option error :=
  if decide (n = "app.service") then Some (ErrText "boom") else None.
Definition sample_stop_after (k : nat) : stop_phase * stopExecutor :=
  default (StopRound, stop_init sample_stop)
    (drive_stop sample_stop 2 sample_stop_results k (StopRound, stop_init sample_stop)).
Lemma sample_stop_reaches k :
  bool_decide (is_Some (drive_stop sample_stop 2 sample_stop_results k
    (StopRound, stop_init sample_stop))) = true →
  nsteps (stop_step sample_stop 2) k (StopRound, stop_init sample_stop) (sample_stop_after k).
Proof.
  intros [w Hw]%bool_decide_eq_true. unfold sample_stop_after. rewrite Hw. by eapply drive_stop_sound.
Qed.

Lemma stop_order_witness :
  let l1 := [StopCalled "tray.service"; StopReturned "tray.service" None] in
  s_calls (sample_stop_after 3).2 = l1 ++ StopCalled "app.service" :: [] ∧
  "tray.service" ∈ stops_returned l1.
Proof.
  intros l1.
  assert (s_calls (sample_stop_after 3).2 = l1 ++ StopCalled "app.service" :: []) as Hc
    by (vm_compute; reflexivity).
  split; [exact Hc|].
  assert (rtc (stop_step sample_stop 2) (StopRound, stop_init sample_stop) (sample_stop_after 3)) as Hr
    by (eapply rtc_nsteps_2, sample_stop_reaches; vm_compute; reflexivity).
  rewrite (surjective_pairing (sample_stop_after 3)) in Hr.
  refine (proj1 (stop_order _ _ sample_builds _ _ sample_stops 2 ltac:(lia) _ _ l1
    "app.service" [] Hr Hc) "tray.service" _ _).
  - vm_compute. eexists. reflexivity.
  - destruct (nodes sample_graph !! "app.service") as [nw|] eqn:Ew; [|vm_compute in Ew; discriminate].
    destruct (nodes sample_graph !! "tray.service") as [nk|] eqn:Ek; [|vm_compute in Ek; discriminate].
    exists nw, nk. split; [exact Ew|]. split; [exact Ek|]. left.
    vm_compute in Ek. injection Ek as <-. vm_compute. left.
Defined.

Lemma stop_result_witness :
  stop_error (sample_stop_after 8).2 "app.service" = Some (ErrText "boom") ∧
  stops_called (s_calls (sample_stop_after 8).2) ≡ₚ jobNames (tx_jobs sample_stop).
Proof.
  split; [vm_compute; reflexivity|].
  assert (rtc (stop_step sample_stop 2) (StopRound, stop_init sample_stop)
    (StopDone, (sample_stop_after 8).2)) as Hr.
  { replace (StopDone, (sample_stop_after 8).2) with (sample_stop_after 8) by (vm_compute; reflexivity).
    eapply rtc_nsteps_2, sample_stop_reaches. vm_compute. reflexivity. }
  exact (proj1 (stop_result _ _ sample_builds _ _ sample_stops 2 ltac:(lia) _ Hr)).
Defined.

(** Eight steps stop [db] and what depends on it. *)
Lemma stop_finishes_witness :
  (sample_stop_after 8).1 = StopDone ∧ 8 <= 3 * Z.of_nat (size (tx_jobs sample_stop)) + 2 ∧
  ∀ r err, ExecuteStopWithLimit (Some sample_stop) true 2 r err → ∃ e', r = Some (s_run e') ∧
    first_failure (s_calls e') ["db.service"] err.
Proof.
  split; [vm_compute; reflexivity|].
  assert (nsteps (stop_step sample_stop 2) 8 (StopRound, stop_init sample_stop) (sample_stop_after 8))
    as Hr by (apply sample_stop_reaches; vm_compute; reflexivity).
  rewrite (surjective_pairing (sample_stop_after 8)) in Hr.
  destruct (stop_finishes _ _ sample_builds _ _ sample_stops 2 ltac:(lia) _ _ 8 Hr) as (_ & _ & Hk & _ & _ & Hx).
  split; [exact Hk|]. intros r err (e' & _ & ? & ?)%Hx. exists e'. split; [assumption|].
  replace ["db.service"] with (uniqueStable ["db"]) by (vm_compute; reflexivity). assumption.
Defined.
