(* ===== verification/JournalQueue.v ===== *)
(** * Package journal: the capture queue

    Translates the bounded, fair capture queue of
    [internal/journal/fair_queue.go], the capture counters of
    [internal/journal/retention.go] and their limits in [queue.go].

    Every operation here runs under [queueMu], so the queue is a state machine
    whose steps are whole operations: an admission, a pop by the single writer,
    the end of its write, the closing of the queue. A [captureGroup] pointer is
    the name of the group. *)

From S2P Require Import Prelude GoStrings.
From Stdlib Require Import Ascii.

#[local] Open Scope Z_scope.
#[local] Open Scope go_scope.

Definition captureQueueRecords : Z := 16384.
Definition invocationQueueRecords : Z := 12288.
Definition captureQueueBytes : Z := Z.shiftl 16 20.
Definition invocationQueueBytes : Z := Z.shiftl 4 20.
Definition maxQueuedCaptureGroups : Z := 2048.
Definition maxStatsNames : Z := 2048.
Definition maxStorageErrorBytes : Z := 4096.
Definition MaxRetainedNames : Z := 1024.

Definition uint64 (z : Z) : Z := z mod 2 ^ 64.

Record Entry := {
  Timestamp : Z; EntryUnit : string; PID : Z; Stream : string; Message : string;
  InvocationID : string; Severity : string; Session : string; UserSID : string;
  Continuation : bool; Partial : bool;
}.
Definition size_of (e : Entry) : Z := Z.of_nat (length (bytes (Message e))).

Record captureWrite := { entry : Entry; group : string }.
Record captureGroup := { g_wg : Z; g_bytes : Z; g_records : Z }.
Record capturePending := { items : list Entry; p_bytes : Z }.

Record CaptureStats := {
  EvictedFiles : Z; EvictedBytes : Z; DroppedRecords : Z; DroppedBytes : Z;
  StorageErrors : Z; LastStorageError : string;
}.
Definition no_stats : CaptureStats := {|
  EvictedFiles := 0; EvictedBytes := 0; DroppedRecords := 0; DroppedBytes := 0;
  StorageErrors := 0; LastStorageError := "" |}.

(** The fields of [Store] that [queueMu] protects. *)
Record Store := {
  captureQueues : gmap string capturePending;
  captureOrder : list string;
  queuedRecords : Z;
  queuedBytes : Z;
  queueClosed : bool;
  groups : gmap string captureGroup;
  dropped : gmap string CaptureStats;
  statsOrder : list string;
  retainedNames : gset string;
  totalStats : CaptureStats;
}.

(** ** Counters *)

Definition addStats (to delta : CaptureStats) : CaptureStats := {|
  EvictedFiles := uint64 (EvictedFiles to + EvictedFiles delta);
  EvictedBytes := uint64 (EvictedBytes to + EvictedBytes delta);
  DroppedRecords := uint64 (DroppedRecords to + DroppedRecords delta);
  DroppedBytes := uint64 (DroppedBytes to + DroppedBytes delta);
  StorageErrors := uint64 (StorageErrors to + StorageErrors delta);
  LastStorageError :=
    if decide (LastStorageError delta = "") then LastStorageError to else LastStorageError delta;
|}.

(** [utf8.ValidString] and [strings.ToValidUTF8] with the replacement rune: a
    decoding step that gives [RuneError] for one byte is invalid. *)
Definition invalid_rune (p : Z * list ascii) : bool :=
  (p.1 =? RuneError) && bool_decide (length p.2 = 1%nat).
Definition ValidString (l : list ascii) : bool := forallb (λ p, negb (invalid_rune p)) (runes l).
Fixpoint to_valid (ps : list (Z * list ascii)) (in_run : bool) : list ascii :=
  match ps with
  | [] => []
  | p :: ps' =>
    if invalid_rune p
    then (if in_run then [] else encode_rune RuneError) ++ to_valid ps' true
    else p.2 ++ to_valid ps' false
  end.
Definition ToValidUTF8 (s : string) : string := str (to_valid (runes (bytes s)) false).

(** The loop that drops bytes from the end until the text is valid. *)
Fixpoint drop_invalid_tail (n : nat) (l : list ascii) : list ascii :=
  if ValidString l then l
  else match n with
       | O => l
       | S n => drop_invalid_tail n (take (length l - 1) l)
       end.
Definition clip_error (s : string) : string :=
  if decide (s = "") then s
  else
    let s := ToValidUTF8 s in
    if maxStorageErrorBytes <? Z.of_nat (length (bytes s)) then
      let n := Z.to_nat maxStorageErrorBytes in str (drop_invalid_tail n (take n (bytes s)))
    else s.

(** The eviction loop: the oldest name that is not retained. *)
Fixpoint evict (retained : gset string) (order : list string) (d : gmap string CaptureStats)
    : list string * gmap string CaptureStats :=
  match order with
  | [] => ([], d)
  | old :: order' =>
    if decide (old ∈ retained)
    then let '(o, d) := evict retained order' d in (old :: o, d)
    else (order', delete old d)
  end.

Section queue.
Context {UC : UnicodeCase} {MR : MapRange}.

Definition canonicalUnit (unit : string) : string := ToLower (TrimSpace unit).

Definition addStatsLocked (name : string) (delta : CaptureStats) (s : Store) : Store :=
  let name := canonicalUnit name in
  let delta := {| EvictedFiles := EvictedFiles delta; EvictedBytes := EvictedBytes delta;
                  DroppedRecords := DroppedRecords delta; DroppedBytes := DroppedBytes delta;
                  StorageErrors := StorageErrors delta;
                  LastStorageError := clip_error (LastStorageError delta) |} in
  let total := addStats (totalStats s) delta in
  let '(order, d) :=
    match dropped s !! name with
    | Some _ => (statsOrder s, dropped s)
    | None =>
      let '(order, d) :=
        if Z.of_nat (size (dropped s)) =? maxStatsNames
        then evict (retainedNames s) (statsOrder s) (dropped s) else (statsOrder s, dropped s) in
      (order ++ [name], d)
    end in
  {| captureQueues := captureQueues s; captureOrder := captureOrder s;
     queuedRecords := queuedRecords s; queuedBytes := queuedBytes s;
     queueClosed := queueClosed s; groups := groups s;
     dropped := <[name := addStats (default no_stats (d !! name)) delta]> d;
     statsOrder := order; retainedNames := retainedNames s; totalStats := total |}.

Definition storageError (unit : string) (err : option string) (s : Store) : Store :=
  match err with
  | None => s
  | Some message =>
    addStatsLocked unit {| EvictedFiles := 0; EvictedBytes := 0; DroppedRecords := 0;
      DroppedBytes := 0; StorageErrors := 1; LastStorageError := message |} s
  end.

Definition RetainNames (names : list string) (s : Store) : result Store :=
  if MaxRetainedNames <? Z.of_nat (length names)
  then Fail (ErrText "journal retention exceeds 1024 names")
  else Ok {| captureQueues := captureQueues s; captureOrder := captureOrder s;
     queuedRecords := queuedRecords s; queuedBytes := queuedBytes s;
     queueClosed := queueClosed s; groups := groups s;
     dropped := dropped s; statsOrder := statsOrder s;
     retainedNames := list_to_set (canonicalUnit <$> names); totalStats := totalStats s |}.

(** ** The queue *)

Definition dropCaptureLocked (work : captureWrite) (s : Store) : Store :=
  addStatsLocked (EntryUnit (entry work)) {| EvictedFiles := 0; EvictedBytes := 0;
    DroppedRecords := 1; DroppedBytes := size_of (entry work); StorageErrors := 0;
    LastStorageError := "" |} s.

Definition no_group : captureGroup := {| g_wg := 0; g_bytes := 0; g_records := 0 |}.
Definition group_of (s : Store) (g : string) : captureGroup := default no_group (groups s !! g).

Definition set_queue (queues : gmap string capturePending) (order : list string)
    (records bytes : Z) (gs : gmap string captureGroup) (s : Store) : Store := {|
  captureQueues := queues; captureOrder := order; queuedRecords := records; queuedBytes := bytes;
  queueClosed := queueClosed s; groups := gs; dropped := dropped s; statsOrder := statsOrder s;
  retainedNames := retainedNames s; totalStats := totalStats s |}.

Definition releaseCaptureLocked (work : captureWrite) (s : Store) : Store :=
  let n := size_of (entry work) in
  let g := group_of s (group work) in
  set_queue (captureQueues s) (captureOrder s) (queuedRecords s - 1) (queuedBytes s - n)
    (<[group work := {| g_wg := g_wg g - 1; g_bytes := g_bytes g - n;
                        g_records := g_records g - 1 |}]> (groups s)) s.

Definition removeCaptureQueueLocked (g : string) (s : Store) : Store :=
  set_queue (delete g (captureQueues s)) (filter (λ h, h ≠ g) (captureOrder s))
    (queuedRecords s) (queuedBytes s) (groups s) s.

(** The search for a victim: the loop over the queues. *)
Definition better_victim (bytePressure : bool) (grp : string) (own : captureGroup) (size : Z)
    (victim : option (string * capturePending)) (p : string * capturePending)
    : option (string * capturePending) :=
  let '(g, q) := p in
  if decide (g = grp ∨ (length (items q) <= 1)%nat) then victim
  else if bytePressure then
    if p_bytes q <=? g_bytes own + size then victim
    else match victim with
         | Some (_, v) => if p_bytes v <? p_bytes q then Some p else victim
         | None => Some p
         end
  else
    if Z.of_nat (length (items q)) <=? g_records own + 1 then victim
    else match victim with
         | Some (_, v) => if (length (items v) <? length (items q))%nat then Some p else victim
         | None => Some p
         end.
Definition find_victim (grp : string) (size : Z) (s : Store) : option (string * capturePending) :=
  foldl (better_victim (captureQueueBytes <? queuedBytes s + size) grp (group_of s grp) size)
    None (map_range 5 (captureQueues s)).

(** Removing the newest pending record of a victim. *)
Definition displace (v : string) (q : capturePending) (s : Store) : Store :=
  match last (items q) with
  | None => s
  | Some e =>
    let work := {| entry := e; group := v |} in
    let q' := {| items := take (length (items q) - 1) (items q); p_bytes := p_bytes q - size_of e |} in
    releaseCaptureLocked work (dropCaptureLocked work
      (set_queue (<[v := q']> (captureQueues s)) (captureOrder s) (queuedRecords s) (queuedBytes s)
         (groups s) s))
  end.

Fixpoint make_room_fuel (fuel : nat) (grp : string) (size : Z) (s : Store) : result (bool * Store) :=
  if (captureQueueBytes <? queuedBytes s + size) || (captureQueueRecords <=? queuedRecords s) then
    match fuel with
    | O => Fail (ErrText "out of fuel")
    | S fuel =>
      match find_victim grp size s with
      | None => Ok (false, s)
      | Some (v, q) => make_room_fuel fuel grp size (displace v q s)
      end
    end
  else Ok (true, s).
(** Every round removes a pending record. *)
Definition makeCaptureRoomLocked (grp : string) (size : Z) (s : Store) : result (bool * Store) :=
  make_room_fuel (S (Z.to_nat (queuedRecords s))) grp size s.

Definition enqueue (e : Entry) (grp : string) (s : Store) : result Store :=
  let work := {| entry := e; group := grp |} in
  let n := size_of e in
  let g := group_of s grp in
  if queueClosed s || (captureQueueBytes <? n) || (invocationQueueBytes <? g_bytes g + n) ||
     (invocationQueueRecords <=? g_records g) ||
     (bool_decide (captureQueues s !! grp = None) &&
      (maxQueuedCaptureGroups <=? Z.of_nat (size (captureQueues s))))
  then Ok (dropCaptureLocked work s)
  else
    r <-? makeCaptureRoomLocked grp n s ;;
    match r with
    | (false, s) => Ok (dropCaptureLocked work s)
    | (true, s) =>
      let g := group_of s grp in
      let '(q, order) := match captureQueues s !! grp with
                         | Some q => (q, captureOrder s)
                         | None => ({| items := []; p_bytes := 0 |}, captureOrder s ++ [grp])
                         end in
      Ok (set_queue (<[grp := {| items := items q ++ [e]; p_bytes := p_bytes q + n |}]>
                       (captureQueues s)) order
            (queuedRecords s + 1) (queuedBytes s + n)
            (<[grp := {| g_wg := g_wg g + 1; g_bytes := g_bytes g + n;
                         g_records := g_records g + 1 |}]> (groups s)) s)
    end.

(** [nextCapture] when a queue is waiting: the oldest record of the first one. *)
Definition nextCapture (s : Store) : option (captureWrite * Store) :=
  match captureOrder s with
  | [] => None
  | g :: rest =>
    match captureQueues s !! g with
    | Some q =>
      match items q with
      | e :: items' =>
        let q' := {| items := items'; p_bytes := p_bytes q - size_of e |} in
        let s' := set_queue (<[g := q']> (captureQueues s)) (captureOrder s)
                    (queuedRecords s) (queuedBytes s) (groups s) s in
        Some ({| entry := e; group := g |},
          match items' with
          | [] => removeCaptureQueueLocked g s'
          | _ => set_queue (captureQueues s') (rest ++ [g]) (queuedRecords s') (queuedBytes s')
                   (groups s') s'
          end)
      | [] => None
      end
    | None => None
    end
  end.

(** The last critical section of a round of [writeCaptures]. *)
Definition finishCapture (work : captureWrite) (err : option string) (s : Store) : Store :=
  let s := match err with Some _ => dropCaptureLocked work s | None => s end in
  releaseCaptureLocked work s.

(** ** The queue as a state machine

    The writer takes a record, appends it without the lock, records the storage
    error and releases the record: three critical sections with other steps
    between them. The history records what was offered, what the writer took
    and how its writes ended. *)

Inductive writer :=
| Idle
| Appending (w : captureWrite)
| Recorded (w : captureWrite) (err : option string).
Definition held (wr : writer) : list captureWrite :=
  match wr with Idle => [] | Appending w | Recorded w _ => [w] end.

Inductive event :=
| Offered (w : captureWrite)
| Taken (w : captureWrite)
| Written (w : captureWrite) (err : option string).

Record world := { store : Store; writing : writer; history : list event }.

Definition close_queue (s : Store) : Store := {|
  captureQueues := captureQueues s; captureOrder := captureOrder s;
  queuedRecords := queuedRecords s; queuedBytes := queuedBytes s; queueClosed := true;
  groups := groups s; dropped := dropped s; statsOrder := statsOrder s;
  retainedNames := retainedNames s; totalStats := totalStats s |}.

Inductive qstep : world → world → Prop :=
| q_enqueue s h l e g s' : enqueue e g s = Ok s' →
    qstep {| store := s; writing := h; history := l |}
          {| store := s'; writing := h; history := l ++ [Offered {| entry := e; group := g |}] |}
| q_take s l w s' : nextCapture s = Some (w, s') →
    qstep {| store := s; writing := Idle; history := l |}
          {| store := s'; writing := Appending w; history := l ++ [Taken w] |}
| q_record s l w err :
    qstep {| store := s; writing := Appending w; history := l |}
          {| store := storageError (EntryUnit (entry w)) err s; writing := Recorded w err;
             history := l |}
| q_finish s l w err :
    qstep {| store := s; writing := Recorded w err; history := l |}
          {| store := finishCapture w err s; writing := Idle; history := l ++ [Written w err] |}
| q_close s h l :
    qstep {| store := s; writing := h; history := l |}
          {| store := close_queue s; writing := h; history := l |}
| q_retain s h l names s' : RetainNames names s = Ok s' →
    qstep {| store := s; writing := h; history := l |} {| store := s'; writing := h; history := l |}.

(** A fresh store; the wait groups may hold references of their own. *)
Definition new_store (gs : gmap string captureGroup) : Store := {|
  captureQueues := ∅; captureOrder := []; queuedRecords := 0; queuedBytes := 0;
  queueClosed := false; groups := gs; dropped := ∅; statsOrder := []; retainedNames := ∅;
  totalStats := no_stats |}.

(** ** The invariant *)

Definition sizes (l : list Entry) : Z := foldr (λ e n, size_of e + n) 0 l.
Definition pending (s : Store) (g : string) : list Entry :=
  match captureQueues s !! g with Some q => items q | None => [] end.
Definition held_records (h : list captureWrite) (g : string) : list Entry :=
  entry <$> filter (λ w, group w = g) h.
Definition all_records (s : Store) : Z :=
  msum (λ q, Z.of_nat (length (items q))) (captureQueues s).
Definition all_bytes (s : Store) : Z := msum (λ q, sizes (items q)) (captureQueues s).
(** [h] are the records taken off a queue and not yet released. *)
Record queue_ok (base : string → Z) (s : Store) (h : list captureWrite) : Prop := {
  q_order : NoDup (captureOrder s);
  q_turns : ∀ g, g ∈ captureOrder s ↔ is_Some (captureQueues s !! g);
  q_items : ∀ g q, captureQueues s !! g = Some q → items q ≠ [] ∧ p_bytes q = sizes (items q);
  q_records : queuedRecords s = all_records s + Z.of_nat (length h);
  q_bytes : queuedBytes s = all_bytes s + sizes (entry <$> h);
  q_groups : ∀ g, let l := held_records h g ++ pending s g in
    group_of s g = {| g_wg := base g + Z.of_nat (length l); g_bytes := sizes l;
                      g_records := Z.of_nat (length l) |};
  q_limit_records : queuedRecords s <= captureQueueRecords;
  q_limit_bytes : queuedBytes s <= captureQueueBytes;
  q_limit_groups : Z.of_nat (size (captureQueues s)) <= maxQueuedCaptureGroups;
  q_limit_group : ∀ g, g_records (group_of s g) <= invocationQueueRecords ∧
    g_bytes (group_of s g) <= invocationQueueBytes;
}.

(** Only the counters differ. *)
Definition same_queue (s s' : Store) : Prop :=
  captureQueues s' = captureQueues s ∧ captureOrder s' = captureOrder s ∧
  queuedRecords s' = queuedRecords s ∧ queuedBytes s' = queuedBytes s ∧
  groups s' = groups s ∧ queueClosed s' = queueClosed s.

Lemma queue_ok_same base s s' h : same_queue s s' → queue_ok base s h → queue_ok base s' h.
Proof.
  intros (E1 & E2 & E3 & E4 & E5 & _) [].
  split; unfold pending, group_of, all_records, all_bytes in *; rewrite ?E1, ?E2, ?E3, ?E4, ?E5; done.
Qed.

Lemma addStatsLocked_same name delta s : same_queue s (addStatsLocked name delta s).
Proof.
  unfold same_queue, addStatsLocked. by repeat case_match.
Qed.
Lemma dropCaptureLocked_same work s : same_queue s (dropCaptureLocked work s).
Proof. unfold dropCaptureLocked. apply addStatsLocked_same. Qed.
Lemma storageError_same u err s : same_queue s (storageError u err s).
Proof. destruct err; [unfold storageError; apply addStatsLocked_same|done]. Qed.

Lemma sizes_app l1 l2 : sizes (l1 ++ l2) = sizes l1 + sizes l2.
Proof. induction l1 as [|e l1 IH]; simpl; [done|lia]. Qed.
Lemma size_of_nonneg e : 0 <= size_of e.
Proof. unfold size_of. lia. Qed.
Lemma sizes_nonneg l : 0 <= sizes l.
Proof. induction l as [|e l IH]; simpl; [done|pose proof (size_of_nonneg e); lia]. Qed.

Lemma all_records_nonneg s : 0 <= all_records s.
Proof. apply msum_nonneg. intros. lia. Qed.

Lemma held_cons w h g :
  held_records (w :: h) g = (if decide (group w = g) then [entry w] else []) ++ held_records h g.
Proof. unfold held_records. rewrite filter_cons. by case_decide. Qed.

(** Releasing a record takes it off every counter. *)
Lemma release_ok base s w h : queue_ok base s (w :: h) → queue_ok base (releaseCaptureLocked w s) h.
Proof.
  intros [Q1 Q2 Q3 Q4 Q5 Q6 Q7 Q8 Q9 Q10].
  assert (∀ g, group_of (releaseCaptureLocked w s) g =
    let l := held_records h g ++ pending s g in
    {| g_wg := base g + Z.of_nat (length l); g_bytes := sizes l;
       g_records := Z.of_nat (length l) |}) as Hg.
  { intros g. unfold releaseCaptureLocked, group_of at 1, set_queue. simpl. rewrite lookup_insert.
    specialize (Q6 g) as Q6g. rewrite held_cons in Q6g.
    destruct (decide (group w = g)) as [<-|Hne]; [|done]. simpl. rewrite Q6g. simpl. f_equal; lia. }
  pose proof (size_of_nonneg (entry w)). csimpl in *.
  split; try done; simpl.
  - unfold all_records in *. simpl. lia.
  - unfold all_bytes in *. simpl. lia.
  - lia.
  - lia.
  - intros g. specialize (Q10 g). rewrite Q6, held_cons in Q10. rewrite Hg. simpl in *.
    rewrite !length_app, !sizes_app in *. simpl.
    destruct (decide (group w = g)); simpl in Q10; lia.
Qed.

(** Taking a record off a queue that keeps others: [items q] is split around it. *)
Lemma take_ok base s h v q q' e : queue_ok base s h → captureQueues s !! v = Some q →
  (∀ x, sizes (x ++ items q) = sizes (x ++ e :: items q')) →
  length (items q) = S (length (items q')) → items q' ≠ [] → p_bytes q' = p_bytes q - size_of e →
  queue_ok base (set_queue (<[v := q']> (captureQueues s)) (captureOrder s) (queuedRecords s)
    (queuedBytes s) (groups s) s) ({| entry := e; group := v |} :: h).
Proof.
  intros [Q1 Q2 Q3 Q4 Q5 Q6 Q7 Q8 Q9 Q10] Hq Hsz Hlen Hne Hb.
  pose proof (Hsz []) as Hsz0. simpl in Hsz0.
  split; try done; simpl.
  - intros g. rewrite Q2, lookup_insert. case_decide; [subst; rewrite Hq|]; naive_solver.
  - intros g q0. rewrite lookup_insert. case_decide as Hg; [|by apply Q3].
    intros [= <-]. split; [done|]. destruct (Q3 v q Hq) as [_ ?]. lia.
  - unfold all_records in *. simpl. rewrite (msum_update _ _ _ _ _ Hq). lia.
  - unfold all_bytes in *. csimpl. rewrite (msum_update _ _ _ _ _ Hq). lia.
  - intros g. unfold group_of at 1. simpl. fold (group_of s g). rewrite Q6, held_cons. simpl.
    unfold pending. simpl. rewrite lookup_insert. destruct (decide (v = g)) as [<-|Hg]; [|done].
    rewrite Hq. f_equal; rewrite ?length_app, ?sizes_app; simpl; rewrite ?length_app, ?sizes_app; lia.
  - rewrite map_size_insert_Some; [done|eauto].
Qed.

(** ** Making room *)

Lemma find_victim_spec grp size s v q : find_victim grp size s = Some (v, q) →
  captureQueues s !! v = Some q ∧ v ≠ grp ∧ (1 < length (items q))%nat.
Proof.
  unfold find_victim. intros Hv.
  assert (∀ l acc, (∀ p, p ∈ l → captureQueues s !! p.1 = Some p.2) →
    (∀ v q, acc = Some (v, q) → captureQueues s !! v = Some q ∧ v ≠ grp ∧ (1 < length (items q))%nat) →
    ∀ v q, foldl (better_victim (captureQueueBytes <? queuedBytes s + size) grp (group_of s grp) size)
      acc l = Some (v, q) →
      captureQueues s !! v = Some q ∧ v ≠ grp ∧ (1 < length (items q))%nat) as Hloop.
  { intros l. induction l as [|[g0 q0] l IH]; intros acc Hl Hacc; simpl; [exact Hacc|].
    apply IH; [intros; apply Hl; by right|].
    pose proof (Hl (g0, q0) (list_elem_of_here _ _)) as Hq0. simpl in Hq0.
    intros v1 q1. unfold better_victim. case_decide as Hd; [by apply Hacc|].
    repeat case_match; intros Hv1; first [by apply Hacc
      |injection Hv1 as <- <-; split_and!; [done|tauto|lia]]. }
  revert Hv. apply Hloop; [|done].
  intros [g0 q0]. rewrite elem_of_map_range. done.
Qed.

Lemma last_split {A} (l : list A) x : last l = Some x → l = take (length l - 1) l ++ [x].
Proof.
  intros (l' & ->)%last_Some. rewrite length_app. simpl.
  by rewrite Nat.add_sub, take_app_length.
Qed.

(** [s'] is [s] with newest records of other groups than [g] displaced. *)
Record trimmed (g : string) (s s' : Store) : Prop := {
  t_order : captureOrder s' = captureOrder s;
  t_closed : queueClosed s' = queueClosed s;
  t_group : group_of s' g = group_of s g;
  t_own : captureQueues s' !! g = captureQueues s !! g;
  t_size : size (captureQueues s') = size (captureQueues s);
  t_prefix : ∀ v, pending s' v `prefix_of` pending s v ∧ (pending s v ≠ [] → pending s' v ≠ []);
}.
#[local] Instance trimmed_preorder g : PreOrder (trimmed g).
Proof.
  split.
  - intros s. split; done.
  - intros s1 s2 s3 [] []. split; try congruence. intros v.
    destruct (t_prefix0 v), (t_prefix1 v). split; [by etrans|tauto].
Qed.

(** What was not dropped is still queued: [k] records and [kb] bytes are the
    queued and the dropped ones together. *)
Definition accounted (k kb : Z) (s : Store) : Prop :=
  DroppedRecords (totalStats s) = uint64 (k - queuedRecords s) ∧
  DroppedBytes (totalStats s) = uint64 (kb - queuedBytes s).

Lemma accounted_eq k kb k' kb' s : accounted k kb s → k = k' → kb = kb' → accounted k' kb' s.
Proof. by intros ? <- <-. Qed.

Lemma uint64_add a b : uint64 (uint64 a + b) = uint64 (a + b).
Proof. unfold uint64. by rewrite Zplus_mod_idemp_l. Qed.

Lemma total_add name delta s :
  DroppedRecords (totalStats (addStatsLocked name delta s)) =
    uint64 (DroppedRecords (totalStats s) + DroppedRecords delta) ∧
  DroppedBytes (totalStats (addStatsLocked name delta s)) =
    uint64 (DroppedBytes (totalStats s) + DroppedBytes delta).
Proof. unfold addStatsLocked. by repeat case_match. Qed.

Lemma drop_accounted k kb w s : accounted k kb s →
  accounted (k + 1) (kb + size_of (entry w)) (dropCaptureLocked w s).
Proof.
  intros [E1 E2]. unfold accounted.
  destruct (dropCaptureLocked_same w s) as (_ & _ & -> & -> & _).
  unfold dropCaptureLocked.
  match goal with |- context [addStatsLocked ?n ?d s] => destruct (total_add n d s) as [-> ->] end.
  rewrite E1, E2, !uint64_add. simpl. split; f_equal; lia.
Qed.
Lemma release_accounted k kb w s : accounted k kb s →
  accounted (k - 1) (kb - size_of (entry w)) (releaseCaptureLocked w s).
Proof. intros [E1 E2]. unfold accounted. simpl. rewrite E1, E2. split; f_equal; lia. Qed.

Lemma displace_ok base h g s v q k kb : queue_ok base s h → accounted k kb s →
  captureQueues s !! v = Some q → v ≠ g → (1 < length (items q))%nat →
  queue_ok base (displace v q s) h ∧ accounted k kb (displace v q s) ∧
  trimmed g s (displace v q s) ∧ queuedRecords (displace v q s) = queuedRecords s - 1.
Proof.
  intros Hs Hk Hq Hne Hlen. unfold displace.
  destruct (last (items q)) as [e|] eqn:El; [|by rewrite last_None in El; rewrite El in Hlen; simpl in Hlen; lia].
  pose proof (last_split _ _ El) as Hsplit.
  assert (length (items q) = S (length (take (length (items q) - 1) (items q)))) as Hl
    by (rewrite length_take; lia).
  set (q' := {| items := take (length (items q) - 1) (items q); p_bytes := p_bytes q - size_of e |}).
  set (s1 := set_queue (<[v := q']> (captureQueues s)) _ _ _ _ _).
  set (w := {| entry := e; group := v |}).
  assert (queue_ok base s1 (w :: h)) as Hs1.
  { apply (take_ok base s h v q q' e); try done.
    - intros x. rewrite Hsplit at 1. rewrite !sizes_app. simpl. lia.
    - intros H0. simpl in H0. rewrite H0 in Hl. simpl in Hl. lia. }
  destruct (dropCaptureLocked_same w s1) as (E1 & E2 & E3 & E4 & E5 & E6).
  split_and!.
  - apply release_ok. eapply queue_ok_same; [|exact Hs1]. by split_and!.
  - replace k with (k + 1 - 1) by lia. replace kb with (kb + size_of e - size_of e) by lia.
    by apply release_accounted, (drop_accounted _ _ w).
  - split; unfold pending, group_of; simpl; rewrite ?E1, ?E2, ?E5, ?E6; try done; simpl.
    + by rewrite lookup_insert_ne.
    + by rewrite lookup_insert_ne.
    + rewrite map_size_insert_Some; [done|eauto].
    + intros u. rewrite lookup_insert. case_decide as Hu; [|done].
      subst u. rewrite Hq. simpl. split; [|by intros _ H0; rewrite H0 in Hl; simpl in Hl; lia].
      apply prefix_take.
  - simpl. by rewrite E3.
Qed.

Lemma queuedRecords_nonneg base s h : queue_ok base s h → 0 <= queuedRecords s.
Proof. intros Hs. rewrite (q_records _ _ _ Hs). pose proof (all_records_nonneg s). lia. Qed.

Lemma make_room_ok base h grp size k kb fuel s :
  queue_ok base s h → accounted k kb s → queuedRecords s < Z.of_nat fuel →
  ∃ b s', make_room_fuel fuel grp size s = Ok (b, s') ∧ queue_ok base s' h ∧ accounted k kb s' ∧
    trimmed grp s s' ∧
    (b = true → queuedBytes s' + size <= captureQueueBytes ∧ queuedRecords s' < captureQueueRecords).
Proof.
  revert s. induction fuel as [|fuel IH]; intros s Hs Hk Hfuel.
  { pose proof (queuedRecords_nonneg base s h Hs). lia. }
  simpl. destruct (_ || _) eqn:Hp.
  - destruct (find_victim grp size s) as [[v q]|] eqn:Hv.
    + destruct (find_victim_spec _ _ _ _ _ Hv) as (Hq & Hne & Hlen).
      destruct (displace_ok base h grp s v q k kb Hs Hk Hq Hne Hlen) as (Hs' & Hk' & Ht & Hr).
      destruct (IH (displace v q s)) as (b & s' & -> & ? & ? & ? & ?); [done|done|lia|].
      exists b, s'. split_and!; try done. by etrans.
    + exists false, s. by split_and!.
  - exists true, s. split_and!; try done. intros _.
    apply orb_false_iff in Hp as [?%Z.ltb_ge ?%Z.leb_gt]. done.
Qed.

(** ** The operations keep the invariant *)

(** [s'] is [s] with [e] appended to the queue of [grp]. *)
Definition push (e : Entry) (grp : string) (s : Store) : Store :=
  let g := group_of s grp in
  let '(q, order) := match captureQueues s !! grp with
                     | Some q => (q, captureOrder s)
                     | None => ({| items := []; p_bytes := 0 |}, captureOrder s ++ [grp])
                     end in
  set_queue (<[grp := {| items := items q ++ [e]; p_bytes := p_bytes q + size_of e |}]>
               (captureQueues s)) order
    (queuedRecords s + 1) (queuedBytes s + size_of e)
    (<[grp := {| g_wg := g_wg g + 1; g_bytes := g_bytes g + size_of e;
                 g_records := g_records g + 1 |}]> (groups s)) s.

Lemma pending_push e grp s v :
  pending (push e grp s) v = if decide (v = grp) then pending s grp ++ [e] else pending s v.
Proof.
  unfold push, pending. destruct (captureQueues s !! grp) as [q|] eqn:Hq; simpl; rewrite lookup_insert;
    destruct (decide (grp = v)) as [<-|]; try (by rewrite decide_True by done);
    by rewrite decide_False by done.
Qed.

Lemma order_push base h e grp s : queue_ok base s h →
  NoDup (captureOrder (push e grp s)) ∧
  ∀ g, g ∈ captureOrder (push e grp s) ↔ is_Some (captureQueues (push e grp s) !! g).
Proof.
  intros [Q1 Q2 _ _ _ _ _ _ _ _]. unfold push.
  destruct (captureQueues s !! grp) as [q|] eqn:Hq; simpl; split.
  - done.
  - intros g. rewrite lookup_insert, Q2. case_decide; naive_solver.
  - apply NoDup_app. split_and!; [done| |apply NoDup_singleton].
    intros g Hg%Q2 ->%list_elem_of_singleton. by destruct Hg; congruence.
  - intros g. rewrite elem_of_app, list_elem_of_singleton, lookup_insert, Q2.
    case_decide; naive_solver.
Qed.

Lemma push_ok base h e grp s : queue_ok base s h →
  queuedRecords s < captureQueueRecords → queuedBytes s + size_of e <= captureQueueBytes →
  g_records (group_of s grp) < invocationQueueRecords →
  g_bytes (group_of s grp) + size_of e <= invocationQueueBytes →
  (captureQueues s !! grp = None → Z.of_nat (size (captureQueues s)) < maxQueuedCaptureGroups) →
  queue_ok base (push e grp s) h.
Proof.
  intros Hs Hr Hb Hgr Hgb Hsz. destruct (order_push base h e grp s Hs) as [P1 P2].
  destruct Hs as [Q1 Q2 Q3 Q4 Q5 Q6 Q7 Q8 Q9 Q10].
  assert (∀ g, group_of (push e grp s) g = if decide (g = grp) then
    {| g_wg := g_wg (group_of s grp) + 1; g_bytes := g_bytes (group_of s grp) + size_of e;
       g_records := g_records (group_of s grp) + 1 |} else group_of s g) as Hg.
  { intros g. unfold push. destruct (captureQueues s !! grp); unfold group_of at 1; simpl;
      rewrite lookup_insert; destruct (decide (grp = g)) as [<-|]; try (by rewrite decide_True by done);
      by rewrite decide_False by done. }
  split; try done.
  - intros g q. pose proof (Q3 grp) as Q3g. unfold push.
    destruct (captureQueues s !! grp) as [q0|] eqn:Hq; simpl; rewrite lookup_insert;
      destruct (decide (grp = g)); try (by apply Q3); intros [= <-]; simpl;
      rewrite ?sizes_app; simpl; [|split; [done|lia]].
    destruct (Q3g q0 eq_refl). split; [by intros [_ ?]%app_nil|lia].
  - unfold push, all_records in *. destruct (captureQueues s !! grp) as [q0|] eqn:Hq; simpl.
    + rewrite (msum_update _ _ _ _ _ Hq). simpl. rewrite length_app. simpl. lia.
    + rewrite msum_insert by done. simpl. lia.
  - unfold push, all_bytes in *. destruct (captureQueues s !! grp) as [q0|] eqn:Hq; simpl.
    + rewrite (msum_update _ _ _ _ _ Hq). simpl. rewrite sizes_app. simpl. lia.
    + rewrite msum_insert by done. simpl. lia.
  - intros g. rewrite Hg, pending_push. destruct (decide (g = grp)) as [->|]; [|apply Q6].
    rewrite Q6. simpl. rewrite !length_app, !sizes_app. simpl. f_equal; lia.
  - unfold push. destruct (captureQueues s !! grp); simpl; lia.
  - unfold push. destruct (captureQueues s !! grp); simpl; lia.
  - unfold push. destruct (captureQueues s !! grp) eqn:Hq; simpl.
    + rewrite map_size_insert_Some; [done|eauto].
    + rewrite map_size_insert_None by done. specialize (Hsz eq_refl). lia.
  - intros g. rewrite Hg. destruct (decide (g = grp)); simpl; [lia|apply Q10].
Qed.

Lemma push_accounted k kb e grp s : accounted k kb s →
  accounted (k + 1) (kb + size_of e) (push e grp s).
Proof.
  intros [E1 E2]. unfold accounted, push.
  destruct (captureQueues s !! grp); simpl; rewrite E1, E2; split; f_equal; lia.
Qed.

(** What an admission does: the record is queued behind the others of its
    group, or it is dropped; other groups lose newest records only. *)
Record admitted (e : Entry) (grp : string) (s s' : Store) : Prop := {
  a_own : pending s' grp = pending s grp ++ [e] ∨ pending s' grp = pending s grp;
  a_others : ∀ v, v ≠ grp → pending s' v `prefix_of` pending s v ∧
    (pending s v ≠ [] → pending s' v ≠ []);
  a_order : captureOrder s `prefix_of` captureOrder s';
  a_closed : queueClosed s' = queueClosed s;
}.

Lemma dropped_admitted e grp s s' : trimmed grp s s' →
  admitted e grp s (dropCaptureLocked {| entry := e; group := grp |} s').
Proof.
  intros Ht. destruct (dropCaptureLocked_same {| entry := e; group := grp |} s') as (E1 & E2 & _ & _ & _ & E6).
  split.
  - right. unfold pending. by rewrite E1, (t_own _ _ _ Ht).
  - intros v _. unfold pending at 1 4. rewrite E1. apply (t_prefix _ _ _ Ht).
  - by rewrite E2, (t_order _ _ _ Ht).
  - by rewrite E6, (t_closed _ _ _ Ht).
Qed.
Lemma pushed_admitted e grp s s' : trimmed grp s s' → admitted e grp s (push e grp s').
Proof.
  intros Ht. split.
  - left. rewrite pending_push, decide_True by done. unfold pending. by rewrite (t_own _ _ _ Ht).
  - intros v Hv. rewrite pending_push, decide_False by done. apply (t_prefix _ _ _ Ht).
  - rewrite <-(t_order _ _ _ Ht). unfold push.
    destruct (captureQueues s' !! grp); simpl; [done|by apply prefix_app_r].
  - rewrite <-(t_closed _ _ _ Ht). unfold push. by destruct (captureQueues s' !! grp).
Qed.

Lemma enqueue_ok base h e grp s k kb : queue_ok base s h → accounted k kb s →
  ∃ s', enqueue e grp s = Ok s' ∧ queue_ok base s' h ∧
    accounted (k + 1) (kb + size_of e) s' ∧ admitted e grp s s'.
Proof.
  intros Hs Hk. set (w := {| entry := e; group := grp |}).
  assert (∀ s1, queue_ok base s1 h → accounted k kb s1 → trimmed grp s s1 →
    queue_ok base (dropCaptureLocked w s1) h ∧
    accounted (k + 1) (kb + size_of e) (dropCaptureLocked w s1) ∧
    admitted e grp s (dropCaptureLocked w s1)) as Hdrop.
  { intros s1 H1 H2 H3. split_and!; [|by apply (drop_accounted _ _ w)|by apply dropped_admitted].
    eapply queue_ok_same; [apply dropCaptureLocked_same|done]. }
  unfold enqueue. fold w. destruct (_ || _) eqn:Hguard; [eexists; split; [done|by apply Hdrop]|].
  destruct (make_room_ok base h grp (size_of e) k kb (S (Z.to_nat (queuedRecords s))) s)
    as (b & s1 & Hroom & Hs1 & Hk1 & Ht & Hb); [done|done|lia|].
  unfold makeCaptureRoomLocked. rewrite Hroom. simpl.
  destruct b; [|eexists; split; [done|by apply Hdrop]].
  exists (push e grp s1). destruct (Hb eq_refl) as [Hb1 Hb2].
  repeat (apply orb_false_iff in Hguard as [Hguard ?]).
  split_and!; [|apply push_ok; try done|by apply push_accounted|by apply pushed_admitted].
  - unfold push. by destruct (captureQueues s1 !! grp).
  - rewrite (t_group _ _ _ Ht). lia.
  - rewrite (t_group _ _ _ Ht). lia.
  - rewrite (t_own _ _ _ Ht), (t_size _ _ _ Ht). intros E. rewrite bool_decide_true in * by done.
    simpl in *. lia.
Qed.

(** [nextCapture] takes the oldest record of the group whose turn it is. *)
Record took (w : captureWrite) (s s' : Store) : Prop := {
  k_turn : ∃ rest, captureOrder s = group w :: rest ∧
    captureOrder s' = rest ++ (if decide (pending s' (group w) = []) then [] else [group w]);
  k_own : pending s (group w) = entry w :: pending s' (group w);
  k_others : ∀ v, v ≠ group w → pending s' v = pending s v;
  k_closed : queueClosed s' = queueClosed s;
  k_counts : queuedRecords s' = queuedRecords s ∧ queuedBytes s' = queuedBytes s;
  k_stats : totalStats s' = totalStats s;
}.

(** Taking the only record of a queue. *)
Lemma take_last_ok base s h v q e : queue_ok base s h → captureQueues s !! v = Some q →
  items q = [e] →
  queue_ok base (removeCaptureQueueLocked v s) ({| entry := e; group := v |} :: h).
Proof.
  intros [Q1 Q2 Q3 Q4 Q5 Q6 Q7 Q8 Q9 Q10] Hq He.
  split; try done; simpl.
  - by apply NoDup_filter.
  - intros g. rewrite list_elem_of_filter, Q2, lookup_delete. case_decide; naive_solver.
  - intros g q0. rewrite lookup_delete. case_decide; [done|apply Q3].
  - unfold all_records in *. simpl. rewrite (msum_delete _ _ _ _ Hq), He in Q4. simpl in Q4. lia.
  - unfold all_bytes in *. csimpl. rewrite (msum_delete _ _ _ _ Hq), He in Q5. simpl in Q5. lia.
  - intros g. unfold group_of at 1. simpl. fold (group_of s g). rewrite Q6, held_cons. simpl.
    unfold pending. simpl. rewrite lookup_delete. destruct (decide (v = g)) as [<-|Hg]; [|done].
    rewrite Hq, He. f_equal; rewrite ?length_app, ?sizes_app; simpl; rewrite ?length_app, ?sizes_app; simpl; lia.
  - rewrite map_size_delete, Hq. lia.
Qed.

(** The order is only read through its elements, so a rotation keeps the rest. *)
Lemma reorder_ok base s h order : queue_ok base s h → order ≡ₚ captureOrder s →
  queue_ok base (set_queue (captureQueues s) order (queuedRecords s) (queuedBytes s) (groups s) s) h.
Proof.
  intros [Q1 Q2 Q3 Q4 Q5 Q6 Q7 Q8 Q9 Q10] Hp. split; try done; simpl.
  - by rewrite Hp.
  - intros g. by rewrite Hp, Q2.
Qed.

Lemma filter_ne_head (g : string) rest : NoDup (g :: rest) → filter (λ h, h ≠ g) (g :: rest) = rest.
Proof.
  intros [Hg _]%NoDup_cons. rewrite filter_cons_False by (by intros Hne; apply Hne).
  induction rest as [|x rest IH]; [done|].
  apply not_elem_of_cons in Hg as [? ?].
  rewrite filter_cons_True by done. f_equal. by apply IH.
Qed.

Lemma nextCapture_ok base h s : queue_ok base s h →
  match nextCapture s with
  | None => captureQueues s = ∅
  | Some (w, s') => queue_ok base s' (w :: h) ∧ took w s s'
  end.
Proof.
  intros Hs. unfold nextCapture. pose proof Hs as [Q1 Q2 Q3 _ _ _ _ _ _ _].
  destruct (captureOrder s) as [|g rest] eqn:Eo.
  { apply map_empty. intros g. destruct (captureQueues s !! g) eqn:Hg; [|done].
    exfalso. eapply not_elem_of_nil, Q2. by rewrite Hg. }
  destruct (proj1 (Q2 g) (list_elem_of_here _ _)) as [q Hq]. rewrite Hq.
  destruct (Q3 g q Hq) as [Hne _]. destruct (items q) as [|e [|e1 l]] eqn:Ei; [done| |].
  - assert (removeCaptureQueueLocked g (set_queue (<[g:={| items := []; p_bytes := p_bytes q - size_of e |}]>
      (captureQueues s)) (captureOrder s) (queuedRecords s) (queuedBytes s) (groups s) s) =
      removeCaptureQueueLocked g s) as E.
    { unfold removeCaptureQueueLocked, set_queue. simpl. by rewrite delete_insert_eq. }
    rewrite <-Eo, E. split; [by eapply take_last_ok|].
    split; try done; unfold pending; simpl.
    + exists rest. rewrite lookup_delete_eq, decide_True by done. rewrite app_nil_r, Eo.
      split; [done|by apply filter_ne_head].
    + by rewrite lookup_delete_eq, Hq, Ei.
    + intros v Hv. by rewrite lookup_delete_ne by done.
  - split.
    + apply (reorder_ok base (set_queue (<[g:={| items := e1 :: l; p_bytes := p_bytes q - size_of e |}]>
        (captureQueues s)) (captureOrder s) (queuedRecords s) (queuedBytes s) (groups s) s)
        _ (rest ++ [g])).
      * apply (take_ok base s h g q); try done; rewrite Ei; done.
      * simpl. rewrite Eo. symmetry. apply Permutation_cons_append.
    + split; try done; unfold pending; simpl.
      * exists rest. rewrite lookup_insert_eq. simpl. by rewrite Eo.
      * by rewrite lookup_insert_eq, Hq, Ei.
      * intros v Hv. by rewrite lookup_insert_ne by done.
Qed.

(** ** Runs *)

Definition offers (g : string) (l : list event) : list Entry :=
  omap (λ ev, match ev with Offered w => if decide (group w = g) then Some (entry w) else None
                          | _ => None end) l.
Definition takes (g : string) (l : list event) : list Entry :=
  omap (λ ev, match ev with Taken w => if decide (group w = g) then Some (entry w) else None
                          | _ => None end) l.
Definition all_offers (l : list event) : list Entry :=
  omap (λ ev, match ev with Offered w => Some (entry w) | _ => None end) l.
Definition all_takes (l : list event) : list captureWrite :=
  omap (λ ev, match ev with Taken w => Some w | _ => None end) l.
Definition stored (l : list event) : list Entry :=
  omap (λ ev, match ev with Written w None => Some (entry w) | _ => None end) l.

(** The accounts: what was offered and not stored is queued, being written or
    counted as dropped. *)
Definition accounts (s : Store) (l : list event) : Prop :=
  accounted (Z.of_nat (length (all_offers l)) - Z.of_nat (length (stored l)))
            (sizes (all_offers l) - sizes (stored l)) s.

Definition base_of (gs : gmap string captureGroup) (g : string) : Z :=
  g_wg (default no_group (gs !! g)).
Definition fresh_groups (gs : gmap string captureGroup) : Prop :=
  ∀ g c, gs !! g = Some c → g_bytes c = 0 ∧ g_records c = 0.
Definition start (gs : gmap string captureGroup) : world :=
  {| store := new_store gs; writing := Idle; history := [] |}.

Record run_ok (gs : gmap string captureGroup) (w : world) : Prop := {
  r_queue : queue_ok (base_of gs) (store w) (held (writing w));
  r_accounts : accounts (store w) (history w);
  r_fifo : ∀ g, takes g (history w) ++ pending (store w) g `sublist_of` offers g (history w);
}.

Lemma start_ok gs : fresh_groups gs → run_ok gs (start gs).
Proof.
  intros Hgs. split; [|done|done]. simpl. split; simpl.
  - apply NoDup_nil_2.
  - intros g. rewrite lookup_empty. split; [by intros ?%not_elem_of_nil|by intros [? ?]].
  - by intros g q ?%lookup_empty_Some.
  - done.
  - done.
  - intros g. unfold group_of, base_of, pending. simpl. rewrite lookup_empty. simpl.
    destruct (gs !! g) as [[wg b r]|] eqn:E; simpl; [|done].
    destruct (Hgs g _ E) as [H1 H2]. simpl in *. subst. f_equal; lia.
  - done.
  - done.
  - done.
  - intros g. unfold group_of. simpl. destruct (gs !! g) as [c|] eqn:E; simpl; [|done].
    destruct (Hgs g c E) as [-> ->]. done.
Qed.

Lemma storageError_accounted k kb u err s : accounted k kb s → accounted k kb (storageError u err s).
Proof.
  intros [E1 E2]. destruct err as [m|]; [|done]. unfold accounted, storageError.
  match goal with |- context [addStatsLocked ?n ?d s] =>
    destruct (total_add n d s) as [-> ->]; destruct (addStatsLocked_same n d s) as (_ & _ & -> & -> & _) end.
  rewrite E1, E2, !uint64_add. simpl. split; f_equal; lia.
Qed.

Lemma events_app g l l' :
  offers g (l ++ l') = offers g l ++ offers g l' ∧ takes g (l ++ l') = takes g l ++ takes g l' ∧
  all_offers (l ++ l') = all_offers l ++ all_offers l' ∧ stored (l ++ l') = stored l ++ stored l'.
Proof. unfold offers, takes, all_offers, stored. by rewrite !omap_app. Qed.

Lemma enqueue_fifo e g s s' l : admitted e g s s' →
  (∀ v, takes v l ++ pending s v `sublist_of` offers v l) →
  ∀ v, takes v (l ++ [Offered {| entry := e; group := g |}]) ++ pending s' v `sublist_of`
       offers v (l ++ [Offered {| entry := e; group := g |}]).
Proof.
  intros [Hown Hothers _ _] Hl v. specialize (Hl v).
  destruct (events_app v l [Offered {| entry := e; group := g |}]) as (-> & -> & _). simpl.
  rewrite app_nil_r. destruct (decide (g = v)) as [->|Hne].
  - destruct Hown as [->| ->]; [rewrite app_assoc; by apply sublist_app|by apply sublist_inserts_r].
  - rewrite app_nil_r. destruct (Hothers v) as [Hp _]; [done|].
    etrans; [|exact Hl]. apply sublist_app; [done|]. destruct Hp as [? ->]. by apply sublist_inserts_r.
Qed.

Lemma take_fifo w s s' l : took w s s' →
  (∀ v, takes v l ++ pending s v `sublist_of` offers v l) →
  ∀ v, takes v (l ++ [Taken w]) ++ pending s' v `sublist_of` offers v (l ++ [Taken w]).
Proof.
  intros Hw Hl v. specialize (Hl v).
  destruct (events_app v l [Taken w]) as (-> & -> & _). simpl. rewrite app_nil_r.
  destruct (decide (group w = v)) as [<-|Hne].
  - rewrite <-app_assoc. simpl. by rewrite <-(k_own _ _ _ Hw).
  - rewrite app_nil_r. by rewrite (k_others _ _ _ Hw v).
Qed.

Lemma finish_queue base w err s h : queue_ok base s (w :: h) → queue_ok base (finishCapture w err s) h.
Proof.
  intros Hs. unfold finishCapture. apply release_ok. destruct err; [|done].
  eapply queue_ok_same; [apply dropCaptureLocked_same|done].
Qed.
Lemma finish_pending w err s v : pending (finishCapture w err s) v = pending s v.
Proof.
  unfold finishCapture, pending. destruct err; [|done]. simpl.
  by destruct (dropCaptureLocked_same w s) as (-> & _).
Qed.
Lemma finish_accounts w err s l : accounts s l →
  accounts (finishCapture w err s) (l ++ [Written w err]).
Proof.
  unfold accounts, finishCapture. intros Hs.
  destruct (events_app "" l [Written w err]) as (_ & _ & -> & ->). simpl.
  rewrite !app_nil_r. destruct err as [m|]; simpl.
  - rewrite app_nil_r. pose proof (release_accounted _ _ w _ (drop_accounted _ _ w _ Hs)) as Hr.
    by rewrite !Z.add_simpl_r in Hr.
  - pose proof (release_accounted _ _ w _ Hs) as Hr. rewrite length_app, sizes_app. simpl.
    eapply accounted_eq; [exact Hr|lia|lia].
Qed.

Lemma qstep_ok gs w w' : qstep w w' → run_ok gs w → run_ok gs w'.
Proof.
  intros [s h l e g s' He|s l w0 s' He|s l w0 err|s l w0 err|s h l|s h l names s' Hr] [Hq Ha Hf];
    simpl in *.
  - destruct (enqueue_ok _ _ e g s _ _ Hq Ha) as (s1 & Hs1 & Hq1 & Ha1 & Had).
    rewrite He in Hs1. injection Hs1 as <-. split; simpl; [done| |by eapply enqueue_fifo].
    unfold accounts. destruct (events_app "" l [Offered {| entry := e; group := g |}]) as (_ & _ & -> & ->).
    simpl. rewrite app_nil_r, length_app, sizes_app. simpl. eapply accounted_eq; [exact Ha1|lia|lia].
  - pose proof (nextCapture_ok _ _ _ Hq) as Hn. rewrite He in Hn. destruct Hn as [Hq1 Ht].
    split; simpl; [done| |by eapply take_fifo].
    unfold accounts, accounted. destruct (events_app "" l [Taken w0]) as (_ & _ & -> & ->).
    simpl. rewrite !app_nil_r. destruct (k_counts _ _ _ Ht) as [-> ->]. by rewrite (k_stats _ _ _ Ht).
  - split; simpl.
    + eapply queue_ok_same; [apply storageError_same|done].
    + by apply storageError_accounted.
    + unfold pending. by destruct (storageError_same (EntryUnit (entry w0)) err s) as (-> & _).
  - split; simpl; [by apply finish_queue|by apply finish_accounts|].
    intros g. rewrite finish_pending.
    destruct (events_app g l [Written w0 err]) as (-> & -> & _). by rewrite !app_nil_r.
  - split; simpl; [|done|done]. by destruct Hq.
  - unfold RetainNames in Hr. case_match; [done|]. injection Hr as <-.
    split; simpl; [|done|done]. by destruct Hq.
Qed.

Lemma run_invariant gs w : fresh_groups gs → rtc qstep (start gs) w → run_ok gs w.
Proof.
  intros Hgs. apply (rtc_ind_r (run_ok gs)); [by apply start_ok|].
  intros w1 w2 _ Hstep H1. by eapply qstep_ok.
Qed.

(** ** Turns *)

(** A queue keeps its place until the writer takes from the queues before it. *)
Lemma qstep_turn gs w w' g i : run_ok gs w → qstep w w' → captureOrder (store w) !! i = Some g →
  (∃ l, history w' = history w ++ l ∧ all_takes l = [] ∧ captureOrder (store w') !! i = Some g) ∨
  (∃ t, history w' = history w ++ [Taken t] ∧
    (if decide (i = O) then group t = g else captureOrder (store w') !! pred i = Some g)).
Proof.
  intros [Hq Ha _] Hstep Hi.
  destruct Hstep as [s h l e v s' He|s l w0 s' He|s l w0 err|s l w0 err|s h l|s h l names s' Hr];
    simpl in *.
  - left. eexists. split_and!; [done|done|].
    destruct (enqueue_ok _ _ e v s _ _ Hq Ha) as (s1 & Hs1 & _ & _ & Had).
    rewrite He in Hs1. injection Hs1 as <-.
    destruct (a_order _ _ _ _ Had) as [x ->]. by apply lookup_app_l_Some.
  - right. exists w0. split; [done|].
    pose proof (nextCapture_ok _ _ _ Hq) as Hn. rewrite He in Hn. destruct Hn as [_ Ht].
    destruct (k_turn _ _ _ Ht) as (rest & E1 & E2). rewrite E1 in Hi. rewrite E2.
    destruct i as [|i]; simpl in *; [congruence|]. by apply lookup_app_l_Some.
  - left. exists []. rewrite app_nil_r. split_and!; [done|done|].
    by destruct (storageError_same (EntryUnit (entry w0)) err s) as (_ & -> & _).
  - left. eexists. split_and!; [done|done|]. unfold finishCapture. destruct err; [|done].
    simpl. by destruct (dropCaptureLocked_same w0 s) as (_ & -> & _).
  - left. exists []. by rewrite app_nil_r.
  - left. exists []. rewrite app_nil_r. unfold RetainNames in Hr. case_match; [done|].
    by injection Hr as <-.
Qed.

Lemma turn_comes gs w w' g i : run_ok gs w → rtc qstep w w' → captureOrder (store w) !! i = Some g →
  ∃ l, history w' = history w ++ l ∧
    ((length (all_takes l) <= i)%nat ∨ g ∈ group <$> all_takes l).
Proof.
  intros Hw Hrun. revert i Hw. induction Hrun as [w|w w1 w2 Hstep Hrun IH]; intros i Hw Hi.
  { exists []. rewrite app_nil_r. split; [done|left; simpl; lia]. }
  pose proof (qstep_ok _ _ _ Hstep Hw) as Hw1.
  destruct (qstep_turn _ _ _ _ _ Hw Hstep Hi) as [(l & El & Etk & Hi1)|(t & El & Ht)].
  - destruct (IH i Hw1 Hi1) as (l' & -> & Hl'). exists (l ++ l'). rewrite El, app_assoc.
    split; [done|]. unfold all_takes in *. rewrite omap_app, Etk. done.
  - destruct i as [|i]; simpl in Ht.
    + assert (∃ l', history w2 = history w1 ++ l') as [l' ->].
      { clear -Hrun. induction Hrun as [|? ? ? Hs ? [l IH]]; [exists []; by rewrite app_nil_r|].
        rewrite IH. destruct Hs; simpl; rewrite <- ?app_assoc; eauto. }
      exists ([Taken t] ++ l'). rewrite El, app_assoc. split; [done|right].
      unfold all_takes. simpl. rewrite Ht. by left.
    + destruct (IH i Hw1 Ht) as (l' & -> & Hl'). exists ([Taken t] ++ l'). rewrite El, app_assoc.
      split; [done|]. change (all_takes ([Taken t] ++ l')) with (t :: all_takes l').
      destruct Hl' as [?|?]; [left; simpl; lia|right; by right].
Qed.

(** ** The victim is the largest queue *)

(** What the newcomer competes with: bytes under byte pressure, else records. *)
Definition weight (bytePressure : bool) (q : capturePending) : Z :=
  if bytePressure then p_bytes q else Z.of_nat (length (items q)).
Definition own_weight (bytePressure : bool) (own : captureGroup) (size : Z) : Z :=
  if bytePressure then g_bytes own + size else g_records own + 1.
Definition eligible (bytePressure : bool) (grp : string) (own : captureGroup) (size : Z)
    (p : string * capturePending) : Prop :=
  p.1 ≠ grp ∧ (1 < length (items p.2))%nat ∧
  own_weight bytePressure own size < weight bytePressure p.2.

Lemma better_victim_best b grp own size acc p :
  better_victim b grp own size acc p = acc ∧
    (eligible b grp own size p → ∃ v, acc = Some v ∧ weight b p.2 <= weight b v.2) ∨
  better_victim b grp own size acc p = Some p ∧ eligible b grp own size p ∧
    (∀ v, acc = Some v → weight b v.2 <= weight b p.2).
Proof.
  destruct p as [g q]. unfold better_victim, eligible, own_weight, weight. simpl.
  destruct (decide (g = grp ∨ _)) as [Hd|Hd]; [left; split; [done|]; intros (? & ? & _); lia || naive_solver lia|].
  assert (g ≠ grp ∧ (1 < length (items q))%nat) as [Hg Hl] by (split; [tauto|lia]).
  destruct b.
  - destruct (p_bytes q <=? _) eqn:E1; [left; split; [done|lia]|].
    destruct acc as [[v0 v]|]; [destruct (p_bytes v <? p_bytes q) eqn:E2|].
    + right. split_and!; try done; [lia|]. intros ? [= <-]. simpl. lia.
    + left. split; [done|]. intros _. eexists. split; [done|]. simpl. lia.
    + right. split_and!; try done; lia.
  - destruct (Z.of_nat (length (items q)) <=? _) eqn:E1; [left; split; [done|lia]|].
    destruct acc as [[v0 v]|]; [destruct (_ <? _)%nat eqn:E2|].
    + apply Nat.ltb_lt in E2. right. split_and!; try done; [lia|]. intros ? [= <-]. simpl. lia.
    + apply Nat.ltb_ge in E2. left. split; [done|]. intros _. eexists. split; [done|]. simpl. lia.
    + right. split_and!; try done; lia.
Qed.

Lemma find_victim_fold b grp own size l acc :
  let r := foldl (better_victim b grp own size) acc l in
  (∀ p, p ∈ l → eligible b grp own size p → ∃ v, r = Some v ∧ weight b p.2 <= weight b v.2) ∧
  (∀ v, acc = Some v → ∃ v', r = Some v' ∧ weight b v.2 <= weight b v'.2) ∧
  (∀ v, r = Some v → acc = Some v ∨ v ∈ l ∧ eligible b grp own size v).
Proof.
  revert acc. induction l as [|p l IH]; intros acc; simpl.
  { split_and!; [by intros ? ?%not_elem_of_nil| |eauto].
    intros v ->. exists v. split; [done|lia]. }
  destruct (IH (better_victim b grp own size acc p)) as (I1 & I2 & I3).
  destruct (better_victim_best b grp own size acc p) as [[E Hp]|[E [Hp Hmax]]]; rewrite E in *.
  - split_and!.
    + intros p' [->|Hp']%elem_of_cons He; [|by apply I1].
      destruct (Hp He) as (v & -> & Hv). destruct (I2 v eq_refl) as (v' & ? & ?). exists v'. split; [done|lia].
    + apply I2.
    + intros v Hv. destruct (I3 v Hv) as [?|[? ?]]; [by left|right; split; [by right|done]].
  - destruct (I2 p eq_refl) as (v' & Hv' & Hle). split_and!.
    + intros p' [->|Hp']%elem_of_cons He; [eauto|by apply I1].
    + intros v Hv. exists v'. split; [done|]. specialize (Hmax v Hv). lia.
    + intros v Hv. right. destruct (I3 v Hv) as [[= <-]|[? ?]]; [split; [by left|done]|].
      split; [by right|done].
Qed.

(** ** The bounded history of names *)

Record stats_ok (s : Store) : Prop := {
  s_order : NoDup (statsOrder s);
  s_names : ∀ n, n ∈ statsOrder s ↔ is_Some (dropped s !! n);
  s_limit : Z.of_nat (size (dropped s)) <= maxStatsNames;
  s_retained : Z.of_nat (size (retainedNames s)) <= MaxRetainedNames;
}.

(** The loop evicts one name that is not retained, if there is one. *)
Lemma evict_spec retained order d o' d' : evict retained order d = (o', d') →
  NoDup order →
  (∀ n, n ∈ order → n ∈ retained) ∧ o' = order ∧ d' = d ∨
  (∃ n, n ∈ order ∧ n ∉ retained ∧ d' = delete n d ∧ NoDup o' ∧ ∀ x, x ∈ o' ↔ x ∈ order ∧ x ≠ n).
Proof.
  revert o' d'. induction order as [|old order IH]; intros o' d' He Hnd; simpl in He.
  { injection He as <- <-. left. split_and!; [by intros ? ?%not_elem_of_nil|done|done]. }
  apply NoDup_cons in Hnd as [Hold Hnd]. destruct (decide (old ∈ retained)) as [Hr|Hr].
  - destruct (evict retained order d) as [o1 d1] eqn:E1. injection He as <- <-.
    destruct (IH o1 d1 eq_refl Hnd) as [(Hall & -> & ->)|(n & Hn & Hnr & -> & Ho1 & Hiff)].
    + left. split_and!; [|done|done]. by intros n [->|?]%elem_of_cons; [|apply Hall].
    + right. exists n. split_and!; [by right|done|done| |].
      * apply NoDup_cons. split; [|done]. rewrite Hiff. tauto.
      * intros x. rewrite !elem_of_cons, Hiff. split; [|tauto].
        intros [->|?]; [|tauto]. split; [tauto|]. by intros ->.
  - injection He as <- <-. right. exists old. split_and!; [by left|done|done|done|].
    intros x. rewrite elem_of_cons. split; [|by intros [[->|?] ?]].
    intros Hx. split; [by right|]. by intros ->.
Qed.

(** With at most half of the history retained, a full history has a name to evict. *)
Lemma evictable (retained : gset string) order (d : gmap string CaptureStats) :
  NoDup order → (∀ n, n ∈ order ↔ is_Some (d !! n)) → Z.of_nat (size d) = maxStatsNames →
  Z.of_nat (size retained) <= MaxRetainedNames → ¬ (∀ n, n ∈ order → n ∈ retained).
Proof.
  intros _ Hdom Hsize Hret Hall.
  assert (dom d ⊆ retained) as Hsub.
  { intros n Hn. apply Hall, Hdom, elem_of_dom, Hn. }
  apply subseteq_size in Hsub. rewrite size_dom in Hsub.
  unfold maxStatsNames, MaxRetainedNames in *. lia.
Qed.

Lemma addStatsLocked_stats name delta s : stats_ok s → stats_ok (addStatsLocked name delta s) ∧
  (∀ n, n ∈ retainedNames s → is_Some (dropped s !! n) →
    is_Some (dropped (addStatsLocked name delta s) !! n)).
Proof.
  intros [S1 S2 S3 S4]. unfold addStatsLocked. set (nm := canonicalUnit name).
  set (de := {| EvictedFiles := _ |}).
  destruct (dropped s !! nm) as [st|] eqn:Hn.
  - split; [split; simpl; try done|simpl].
    + intros n. rewrite S2, lookup_insert. case_decide; naive_solver.
    + rewrite map_size_insert_Some; [done|eauto].
    + intros n _ ?. rewrite lookup_insert. case_decide; eauto.
  - assert (nm ∉ statsOrder s) as Hnm by (rewrite S2, Hn; by intros []).
    destruct (Z.eqb_spec (Z.of_nat (size (dropped s))) maxStatsNames) as [Hfull|Hfree].
    + destruct (evict _ _ _) as [o d] eqn:He.
      destruct (evict_spec _ _ _ _ _ He S1) as [(Hall & _)|(x & Hx & Hxr & -> & Ho & Hiff)].
      { by destruct (evictable (retainedNames s) (statsOrder s) (dropped s)). }
      assert (is_Some (dropped s !! x)) as Hsx by by apply S2.
      split; [split; simpl; try done|simpl].
      * apply NoDup_app. split_and!; [done| |apply NoDup_singleton].
        intros y Hy ->%list_elem_of_singleton. apply Hnm. by apply Hiff.
      * intros y. rewrite elem_of_app, list_elem_of_singleton, Hiff, S2.
        destruct (decide (y = nm)) as [->|Hy]; [rewrite lookup_insert_eq; naive_solver|].
        rewrite lookup_insert_ne, lookup_delete by done. case_decide; naive_solver.
      * rewrite map_size_insert_None; [|rewrite lookup_delete; by case_decide].
        rewrite map_size_delete. destruct (dropped s !! x) eqn:Ex; [|by destruct Hsx].
        assert (size (dropped s) ≠ 0%nat) by (intros E0; rewrite E0 in Hfull; unfold maxStatsNames in Hfull; lia).
        lia.
      * intros y Hy Hsy. destruct (decide (y = nm)) as [->|Hne]; [rewrite lookup_insert_eq; eauto|].
        rewrite lookup_insert_ne, lookup_delete_ne by naive_solver. done.
    + split; [split; simpl; try done|simpl].
      * apply NoDup_app. split_and!; [done| |apply NoDup_singleton].
        by intros y Hy ->%list_elem_of_singleton.
      * intros y. rewrite elem_of_app, list_elem_of_singleton, S2, lookup_insert.
        case_decide; naive_solver.
      * rewrite map_size_insert_None by done. lia.
      * intros y _ ?. rewrite lookup_insert. case_decide; eauto.
Qed.

(** The counters of the retained names survive. *)
Definition keeps (s s' : Store) : Prop :=
  retainedNames s' = retainedNames s ∧
  (∀ n, n ∈ retainedNames s → is_Some (dropped s !! n) → is_Some (dropped s' !! n)).
#[local] Instance keeps_preorder : PreOrder keeps.
Proof.
  split; [by intros s|]. intros s1 s2 s3 [E1 H1] [E2 H2].
  split; [congruence|]. intros n Hn Hs. apply H2; [by rewrite E1|by apply H1].
Qed.

Lemma addStatsLocked_keeps name delta s : stats_ok s →
  stats_ok (addStatsLocked name delta s) ∧ keeps s (addStatsLocked name delta s).
Proof.
  intros Hs. destruct (addStatsLocked_stats name delta s Hs) as [H1 H2].
  split; [done|split; [|done]]. unfold addStatsLocked. by repeat case_match.
Qed.

Lemma dropCaptureLocked_keeps w s : stats_ok s →
  stats_ok (dropCaptureLocked w s) ∧ keeps s (dropCaptureLocked w s).
Proof. unfold dropCaptureLocked. apply addStatsLocked_keeps. Qed.

(** Operations on the queue leave the history of names alone. *)
Lemma stats_ok_same s s' : dropped s' = dropped s → statsOrder s' = statsOrder s →
  retainedNames s' = retainedNames s → stats_ok s → stats_ok s' ∧ keeps s s'.
Proof.
  intros E1 E2 E3 []. split.
  - split; rewrite ?E1, ?E2, ?E3; done.
  - split; [done|]. by rewrite E1.
Qed.

Lemma displace_stats v q s : stats_ok s → stats_ok (displace v q s) ∧ keeps s (displace v q s).
Proof.
  intros Hs. unfold displace. destruct (last (items q)) as [e|]; [|by split].
  set (s1 := set_queue _ _ _ _ _ s). set (w := {| entry := e; group := v |}).
  destruct (stats_ok_same s s1) as [H1 K1]; try done.
  destruct (dropCaptureLocked_keeps w s1 H1) as [H2 K2].
  destruct (stats_ok_same (dropCaptureLocked w s1) (releaseCaptureLocked w (dropCaptureLocked w s1)))
    as [H3 K3]; [done..|].
  split; [done|]. etrans; [exact K1|]. etrans; [exact K2|exact K3].
Qed.

Lemma make_room_stats fuel grp size s b s' : make_room_fuel fuel grp size s = Ok (b, s') →
  stats_ok s → stats_ok s' ∧ keeps s s'.
Proof.
  revert s. induction fuel as [|fuel IH]; intros s; simpl; case_match; try done.
  - by intros [= <- <-].
  - destruct (find_victim grp size s) as [[v q]|]; [|by intros [= <- <-]].
    intros Hr Hs. destruct (displace_stats v q s Hs) as [H1 K1].
    destruct (IH _ Hr H1) as [H2 K2]. split; [done|by etrans].
  - by intros [= <- <-].
Qed.

Lemma enqueue_stats e grp s s' : enqueue e grp s = Ok s' → stats_ok s → stats_ok s' ∧ keeps s s'.
Proof.
  unfold enqueue. destruct (_ || _); [intros [= <-]; apply dropCaptureLocked_keeps|].
  unfold makeCaptureRoomLocked.
  destruct (make_room_fuel _ grp (size_of e) s) as [[b s1]|] eqn:Hr; simpl; [|done].
  intros He Hs. destruct (make_room_stats _ _ _ _ _ _ Hr Hs) as [H1 K1]. destruct b.
  - destruct (stats_ok_same s1 s') as [H2 K2]; [..|done|split; [done|by etrans]];
      destruct (captureQueues s1 !! grp); injection He as <-; done.
  - injection He as <-. destruct (dropCaptureLocked_keeps {| entry := e; group := grp |} s1 H1) as [H2 K2].
    split; [exact H2|]. etrans; [exact K1|exact K2].
Qed.

Lemma nextCapture_stats s w s' : nextCapture s = Some (w, s') → stats_ok s → stats_ok s' ∧ keeps s s'.
Proof.
  unfold nextCapture. intros Hn. apply stats_ok_same; repeat case_match; try done; by injection Hn as <- <-.
Qed.

Lemma storageError_stats u err s : stats_ok s → stats_ok (storageError u err s) ∧ keeps s (storageError u err s).
Proof. intros Hs. destruct err; [unfold storageError; by apply addStatsLocked_keeps|by split]. Qed.

Lemma finish_stats w err s : stats_ok s → stats_ok (finishCapture w err s) ∧ keeps s (finishCapture w err s).
Proof.
  intros Hs. unfold finishCapture. destruct err as [m|]; [|by apply stats_ok_same].
  destruct (dropCaptureLocked_keeps w s Hs) as [H2 K2].
  destruct (stats_ok_same (dropCaptureLocked w s) (releaseCaptureLocked w (dropCaptureLocked w s)))
    as [H3 K3]; [done..|].
  split; [done|]. etrans; [exact K2|exact K3].
Qed.

Lemma size_names (names : list string) : (size (list_to_set names : gset string) <= length names)%nat.
Proof.
  induction names as [|n names IH]; csimpl; [done|].
  rewrite size_union_alt, size_singleton.
  assert (size (list_to_set names ∖ {[n]} : gset string) <= size (list_to_set names : gset string))%nat
    by (apply subseteq_size; set_solver).
  lia.
Qed.

Lemma qstep_stats w w' : qstep w w' → stats_ok (store w) → stats_ok (store w').
Proof.
  intros [s h l e g s' He|s l w0 s' He|s l w0 err|s l w0 err|s h l|s h l names s' Hr] Hs; simpl in *.
  - by eapply enqueue_stats.
  - by eapply nextCapture_stats.
  - by apply storageError_stats.
  - by apply finish_stats.
  - by destruct Hs.
  - unfold RetainNames in Hr. destruct (_ <? _) eqn:Hlen; [done|]. injection Hr as <-.
    destruct Hs. split; simpl; try done.
    pose proof (size_names (canonicalUnit <$> names)) as Hsz. rewrite length_fmap in Hsz. lia.
Qed.

Lemma run_stats gs w : rtc qstep (start gs) w → stats_ok (store w).
Proof.
  apply (rtc_ind_r (λ w, stats_ok (store w))).
  - split; simpl; [apply NoDup_nil_2| |done|done].
    intros n. rewrite lookup_empty. split; [by intros ?%not_elem_of_nil|by intros [? ?]].
  - intros w1 w2 _ Hstep. by apply qstep_stats.
Qed.

(** C32: The limits of the capture queue hold at every moment: after any
    sequence of admissions, writer steps, closings and retention changes, the
    queue holds at most 16384 records and 16 MiB (a record being written
    included) in at most 2048 groups, one group has at most 12288 records and 4 MiB,
    every counter is the exact sum of what is pending or being written, the wait
    group of an invocation counts exactly its unreleased records on top of its
    own references, no queue is empty and every queue has exactly one turn. *)
Theorem queue_bounded gs w : fresh_groups gs → rtc qstep (start gs) w →
  queue_ok (base_of gs) (store w) (held (writing w)).
Proof. intros Hgs Hrun. exact (r_queue _ _ (run_invariant gs w Hgs Hrun)). Qed.

(** C33: No captured record disappears silently, and none is reordered. After
    any run the records ever offered are those stored, those still pending or
    being written and those counted in [DroppedRecords] and [DroppedBytes]
    (modulo 2^64, the width of the counters); for each invocation, what the
    writer took followed by what is pending is a subsequence of what was
    offered. *)
Theorem queue_conserves gs w : fresh_groups gs → rtc qstep (start gs) w →
  let s := store w in let l := history w in
  DroppedRecords (totalStats s) =
    uint64 (Z.of_nat (length (all_offers l)) - Z.of_nat (length (stored l)) - queuedRecords s) ∧
  DroppedBytes (totalStats s) = uint64 (sizes (all_offers l) - sizes (stored l) - queuedBytes s) ∧
  ∀ g, takes g l ++ pending s g `sublist_of` offers g l.
Proof.
  intros Hgs Hrun. destruct (run_invariant gs w Hgs Hrun) as [_ [H1 H2] H3]. done.
Qed.

(** C34: The writer serves the groups in turn: a group at position [i] of the
    order is served within the next [i + 1] records the writer takes, whatever
    is admitted, displaced or dropped meanwhile. *)
Theorem queue_round_robin gs w w' g i : fresh_groups gs → rtc qstep (start gs) w →
  rtc qstep w w' → captureOrder (store w) !! i = Some g →
  ∃ l, history w' = history w ++ l ∧ ((length (all_takes l) <= i)%nat ∨ g ∈ group <$> all_takes l).
Proof. intros Hgs Hrun. by apply (turn_comes gs), run_invariant. Qed.

(** Admission terminates in every reachable state and either appends the
    record behind the pending ones of its own group or leaves them alone; each
    other group keeps its oldest pending records and at least one of them, and
    every group keeps its turn. *)
Theorem enqueue_outcome gs w e grp : fresh_groups gs → rtc qstep (start gs) w →
  ∃ s', enqueue e grp (store w) = Ok s' ∧ admitted e grp (store w) s'.
Proof.
  intros Hgs Hrun. destruct (run_invariant gs w Hgs Hrun) as [Hq Ha _].
  destruct (enqueue_ok _ _ e grp _ _ _ Hq Ha) as (s' & ? & _ & _ & ?). eauto.
Qed.

(** Under pressure the queue displaced is a largest one (in bytes under
    byte pressure, else in records) among those of other groups that have more
    than one record and outweigh the newcomer's group with its new record; there
    is no victim exactly when no queue qualifies, whatever the iteration order
    of the map. *)
Theorem victim_largest grp size s :
  let b := captureQueueBytes <? queuedBytes s + size in
  let ok v q := captureQueues s !! v = Some q ∧ eligible b grp (group_of s grp) size (v, q) in
  match find_victim grp size s with
  | Some (v, q) => ok v q ∧ ∀ v' q', ok v' q' → weight b q' <= weight b q
  | None => ∀ v q, ¬ ok v q
  end.
Proof.
  intros b ok. unfold find_victim. fold b.
  destruct (find_victim_fold b grp (group_of s grp) size (map_range 5 (captureQueues s)) None)
    as (F1 & _ & F3).
  destruct (foldl _ None _) as [[v q]|] eqn:E; unfold ok.
  - destruct (F3 _ eq_refl) as [?|[Hin He]]; [done|]. rewrite elem_of_map_range in Hin.
    split; [done|]. intros v' q' [Hq' He']. rewrite <-elem_of_map_range in Hq'.
    destruct (F1 _ Hq' He') as (? & [= <-] & ?). done.
  - intros v q [Hq He]. rewrite <-elem_of_map_range in Hq. by destruct (F1 _ Hq He) as (? & ? & _).
Qed.

(** The per-name counters stay bounded: at most 2048 names, listed once
    each in insertion order, and a step that records counters never evicts a
    retained name. *)
Theorem stats_bounded gs w name delta : rtc qstep (start gs) w →
  stats_ok (store w) ∧
  ∀ n, n ∈ retainedNames (store w) → is_Some (dropped (store w) !! n) →
    is_Some (dropped (addStatsLocked name delta (store w)) !! n).
Proof.
  intros Hrun. pose proof (run_stats gs w Hrun) as Hs.
  split; [done|apply (proj2 (addStatsLocked_stats name delta _ Hs))].
Qed.

(** ** A scheduler for concrete runs *)

Inductive action :=
| DoEnqueue (e : Entry) (g : string)
| DoTake
| DoRecord (err : option string)
| DoFinish
| DoClose
| DoRetain (names : list string).

Definition act (w : world) (a : action) : option world :=
  match a, writing w with
  | DoEnqueue e g, h =>
    match enqueue e g (store w) with
    | Ok s' => Some {| store := s'; writing := h;
                       history := history w ++ [Offered {| entry := e; group := g |}] |}
    | Fail _ => None
    end
  | DoTake, Idle =>
    match nextCapture (store w) with
    | Some (t, s') => Some {| store := s'; writing := Appending t; history := history w ++ [Taken t] |}
    | None => None
    end
  | DoRecord err, Appending t =>
    Some {| store := storageError (EntryUnit (entry t)) err (store w); writing := Recorded t err;
            history := history w |}
  | DoFinish, Recorded t err =>
    Some {| store := finishCapture t err (store w); writing := Idle;
            history := history w ++ [Written t err] |}
  | DoClose, h => Some {| store := close_queue (store w); writing := h; history := history w |}
  | DoRetain names, h =>
    match RetainNames names (store w) with
    | Ok s' => Some {| store := s'; writing := h; history := history w |}
    | Fail _ => None
    end
  | _, _ => None
  end.
Definition script (w : world) (acts : list action) : world :=
  foldl (λ w a, default w (act w a)) w acts.

Lemma act_step w a w' : act w a = Some w' → qstep w w'.
Proof.
  destruct w as [s h l], a as [e g| |err| | |names]; unfold act; simpl.
  - destruct (enqueue e g s) eqn:E; [|done]. intros [= <-]. by constructor.
  - destruct h; try done. destruct (nextCapture s) as [[t s']|] eqn:E; [|done].
    intros [= <-]. by constructor.
  - destruct h; try done. intros [= <-]. constructor.
  - destruct h; try done. intros [= <-]. constructor.
  - intros [= <-]. constructor.
  - destruct (RetainNames names s) eqn:E; [|done]. intros [= <-]. by eapply q_retain.
Qed.
Lemma script_run w acts : rtc qstep w (script w acts).
Proof.
  revert w. induction acts as [|a acts IH]; intros w; [constructor|].
  simpl. destruct (act w a) as [w'|] eqn:E; simpl; [|apply IH].
  eapply rtc_l; [by apply (act_step _ a)|apply IH].
Qed.

End queue.

(** ** A sample run: two groups, one failed write *)

Definition sample_entry (unit message : string) : Entry := {|
  Timestamp := 0; EntryUnit := unit; PID := 4; Stream := "stdout"; Message := message;
  InvocationID := "i"; Severity := "info"; Session := ""; UserSID := "";
  Continuation := false; Partial := false |}.
Definition sample_groups : gmap string captureGroup :=
  {[ "a" := {| g_wg := 1; g_bytes := 0; g_records := 0 |} ]}.
Definition sample_run : list action := [
  DoRetain ["A.service"];
  DoEnqueue (sample_entry "a.service" "one") "a"; DoEnqueue (sample_entry "a.service" "two") "a";
  DoEnqueue (sample_entry "b.service" "three") "b"; DoTake; DoRecord (Some "disk full"); DoFinish;
  DoTake; DoEnqueue (sample_entry "a.service" "four") "a"].
Definition sample_world : world := script (start sample_groups) sample_run.

Lemma sample_fresh : fresh_groups sample_groups.
Proof.
  intros g c. unfold sample_groups. rewrite lookup_singleton_Some. by intros [_ <-].
Qed.
Lemma sample_reached : rtc qstep (start sample_groups) sample_world.
Proof. apply script_run. Qed.

Lemma queue_bounded_witness :
  queuedRecords (store sample_world) = 3 ∧ held (writing sample_world) ≠ [] ∧
  queue_ok (base_of sample_groups) (store sample_world) (held (writing sample_world)).
Proof.
  split; [vm_compute; reflexivity|split; [vm_compute; discriminate|]].
  exact (queue_bounded _ _ sample_fresh sample_reached).
Defined.

Lemma queue_conserves_witness :
  DroppedRecords (totalStats (store sample_world)) = 1 ∧
  length (all_offers (history sample_world)) = 4%nat ∧
  takes "a" (history sample_world) ++ pending (store sample_world) "a" `sublist_of`
    offers "a" (history sample_world).
Proof.
  split; [vm_compute; reflexivity|split; [vm_compute; reflexivity|]].
  exact (proj2 (proj2 (queue_conserves _ _ sample_fresh sample_reached)) "a").
Defined.

Lemma queue_round_robin_witness :
  captureOrder (store sample_world) !! 0%nat = Some "a" ∧
  ∃ l, history (script sample_world [DoRecord None; DoFinish; DoTake]) = history sample_world ++ l ∧
    ((length (all_takes l) <= 0)%nat ∨ "a" ∈ group <$> all_takes l).
Proof.
  assert (captureOrder (store sample_world) !! 0%nat = Some "a") as Ho by (vm_compute; reflexivity).
  split; [exact Ho|].
  exact (queue_round_robin _ _ _ _ _ sample_fresh sample_reached (script_run _ _) Ho).
Defined.

Lemma enqueue_outcome_witness :
  ∃ s', enqueue (sample_entry "c.service" "five") "c" (store sample_world) = Ok s' ∧
    admitted (sample_entry "c.service" "five") "c" (store sample_world) s'.
Proof. exact (enqueue_outcome _ _ _ _ sample_fresh sample_reached). Defined.

Lemma stats_bounded_witness :
  (dropped (store sample_world) !! "a.service" ≠ None) ∧
  stats_ok (store sample_world) ∧
  ∀ n, n ∈ retainedNames (store sample_world) → is_Some (dropped (store sample_world) !! n) →
    is_Some (dropped (addStatsLocked "x" no_stats (store sample_world)) !! n).
Proof.
  split; [vm_compute; discriminate|].
  exact (stats_bounded sample_groups _ "x" no_stats sample_reached).
Defined.
