(* ===== verification/JournalNames.v ===== *)
(** * Package journal: file names

    Translates [internal/journal/name.go], the reversible encoding of a unit
    name as a Windows file name. *)

From S2P Require Import Prelude GoStrings GoText JournalQueue.
From Stdlib Require Import Ascii.

#[local] Open Scope Z_scope.
#[local] Open Scope go_scope.

(** ** File names *)

Definition hex_digit (upper : bool) (n : Z) : ascii :=
  if n <? 10 then z2b (0x30 + n) else z2b ((if upper then 0x41 else 0x61) + (n - 10)).
(** The verbs [%02X] and [%02x] on a byte. *)
Definition hex2 (upper : bool) (c : ascii) : list ascii :=
  [hex_digit upper (b2z c / 16); hex_digit upper (b2z c mod 16)].
(** A digit of [strconv.ParseUint] in base 16. *)
Definition unhex (c : ascii) : option Z :=
  let z := b2z c in
  if (0x30 <=? z) && (z <=? 0x39) then Some (z - 0x30)
  else if (0x41 <=? z) && (z <=? 0x46) then Some (z - 0x37)
  else if (0x61 <=? z) && (z <=? 0x66) then Some (z - 0x57)
  else None.

Definition percent : ascii := "%"%char.
Definition dot : ascii := "."%char.

Definition safeFileByte (c : ascii) : bool :=
  let z := b2z c in
  ((0x61 <=? z) && (z <=? 0x7A)) || ((0x41 <=? z) && (z <=? 0x5A)) ||
  ((0x30 <=? z) && (z <=? 0x39)) ||
  bool_decide (c ∈ ["-"%char; "_"%char; "."%char; "@"%char]).

(** One round of the loop over the bytes of the unit name. *)
Definition encode_byte (c : ascii) : list ascii :=
  if safeFileByte c then [c] else percent :: hex2 true c.

(** The loop over trailing dots and spaces; two rounds always suffice. *)
Fixpoint encode_trailing (fuel : nat) (name : list ascii) : option (list ascii) :=
  match last name with
  | Some c =>
    if decide (c = dot ∨ c = " "%char) then
      match fuel with
      | O => None
      | S fuel => encode_trailing fuel (take (length name - 1) name ++ percent :: hex2 true c)
      end
    else Some name
  | None => Some name
  end.

(** The text up to the first dot. *)
Fixpoint stem_of (l : list ascii) : list ascii :=
  match l with
  | [] => []
  | c :: l' => if decide (c = dot) then [] else c :: stem_of l'
  end.

Section names.
Context {UC : UnicodeCase}.

Definition reservedDeviceName (stem : list ascii) : bool :=
  let s := bytes (ToLower (str stem)) in
  bool_decide (str s ∈ ["con"; "prn"; "aux"; "nul"]) ||
  (bool_decide (length s = 4%nat) &&
   bool_decide (str (take 3 s) ∈ ["com"; "lpt"]) &&
   match s !! 3%nat with
   | Some c => (0x31 <=? b2z c) && (b2z c <=? 0x39)
   | None => false
   end).

Definition encodeReservedFileName (name : list ascii) : option (list ascii) :=
  match encode_trailing 2 name with
  | None => None
  | Some name =>
    Some (if reservedDeviceName (stem_of name) then
            match name with
            | c :: rest => percent :: hex2 true c ++ rest
            | [] => name
            end
          else name)
  end.

Definition unitFileName (unit : string) : option string :=
  let unit := canonicalUnit unit in
  if decide (unit = "") then Some "_unknown.log"
  else
    let name := concat (encode_byte <$> bytes unit) in
    match (if decide (name = [] ∨ name = [dot] ∨ name = [dot; dot]) then Some (bytes "_unknown")
           else encodeReservedFileName name) with
    | Some name => Some (str (name ++ bytes ".log"))
    | None => None
    end.

End names.

(** The loop of [decodeUnitFileName]. *)
Fixpoint decode_name (l : list ascii) : list ascii :=
  match l with
  | [] => []
  | c :: l1 =>
    match l1 with
    | a :: b :: l3 =>
      if decide (c = percent) then
        match unhex a, unhex b with
        | Some x, Some y => z2b (x * 16 + y) :: decode_name l3
        | _, _ => c :: decode_name l1
        end
      else c :: decode_name l1
    | _ => c :: decode_name l1
    end
  end.
Definition decodeUnitFileName (filename : string) : option string :=
  match strip_prefix (reverse (bytes ".log")) (reverse (bytes filename)) with
  | None => None
  | Some r =>
    let name := reverse r in
    if decide (name = bytes "_unknown") then Some "" else Some (str (decode_name name))
  end.

(** *** The encoding is reversible *)

(** [Enc u name]: [name] spells [u], each byte raw or in hexadecimal. *)
Inductive Enc : list ascii → list ascii → Prop :=
| Enc_nil : Enc [] []
| Enc_raw c u name : safeFileByte c = true → Enc u name → Enc (c :: u) (c :: name)
| Enc_hex c u name : Enc u name → Enc (c :: u) (percent :: hex2 true c ++ name).

Definition hex_ok (upper : bool) (c : ascii) : Prop :=
  let a := hex_digit upper (b2z c / 16) in let b := hex_digit upper (b2z c mod 16) in
  unhex a = Some (b2z c / 16) ∧ unhex b = Some (b2z c mod 16) ∧
  a ≠ dot ∧ b ≠ dot ∧ b ≠ " "%char ∧ b ≠ percent.
Lemma hex_ok_all upper c : hex_ok upper c.
Proof.
  unfold hex_ok.
  destruct upper; revert c; refine (every_byte _ _); vm_compute; reflexivity.
Qed.
Lemma unhex_hex2 c : ∃ a b, hex2 true c = [a; b] ∧ unhex a = Some (b2z c / 16) ∧
  unhex b = Some (b2z c mod 16) ∧ a ≠ dot ∧ b ≠ dot ∧ b ≠ " "%char ∧ b ≠ percent.
Proof. do 2 eexists. split; [done|]. apply (hex_ok_all true). Qed.

Lemma safe_not_percent c : safeFileByte c = true → c ≠ percent.
Proof. intros H ->. by vm_compute in H. Qed.

Lemma decode_raw c l : c ≠ percent → decode_name (c :: l) = c :: decode_name l.
Proof.
  intros Hc. destruct l as [|a [|b l]]; simpl; [done|done|]. by rewrite decide_False by done.
Qed.
Lemma decode_hex c l : decode_name (percent :: hex2 true c ++ l) = c :: decode_name l.
Proof.
  destruct (unhex_hex2 c) as (a & b & -> & Ha & Hb & _). cbn [app decode_name].
  rewrite decide_True by done. rewrite Ha, Hb. f_equal. rewrite Z.mul_comm, <-Z.div_mod by lia.
  apply z2b_b2z.
Qed.
Lemma Enc_decode u name : Enc u name → decode_name name = u.
Proof.
  induction 1 as [|c u name Hc H IH|c u name H IH]; [done| |by rewrite decode_hex, IH].
  by rewrite decode_raw, IH by by apply safe_not_percent.
Qed.

Lemma Enc_encode u : Enc u (concat (encode_byte <$> u)).
Proof.
  induction u as [|c u IH]; [constructor|]. csimpl. unfold encode_byte at 1.
  destruct (safeFileByte c) eqn:E; [by constructor|]. by apply (Enc_hex c).
Qed.

Lemma Enc_app u1 n1 u2 n2 : Enc u1 n1 → Enc u2 n2 → Enc (u1 ++ u2) (n1 ++ n2).
Proof.
  induction 1 as [|c u name Hc H IH|c u name H IH]; intros H2; simpl; [done|constructor; auto|].
  apply (Enc_hex c). auto.
Qed.

(** A trailing dot of the spelling is a raw byte. *)
Lemma Enc_last_dot u n : Enc u n → last n = Some dot → ∃ u', u = u' ++ [dot] ∧
  Enc u' (take (length n - 1) n).
Proof.
  induction 1 as [|c u name Hc H IH|c u name H IH]; intros Hl; [done| |].
  - destruct name as [|c' name].
    + simpl in Hl. injection Hl as ->. inversion H; subst. exists []. split; [done|constructor].
    + rewrite last_cons_cons in Hl. destruct (IH Hl) as (u' & -> & Hu').
      exists (c :: u'). split; [done|].
      cbn [length Nat.sub take] in *. rewrite ?Nat.sub_0_r in *. by apply Enc_raw.
  - destruct (unhex_hex2 c) as (a & b & E & _ & _ & _ & Hb & _ & _). rewrite E in *. cbn [app] in *.
    destruct name as [|c' name]; [simpl in Hl; congruence|].
    rewrite !last_cons_cons in Hl. destruct (IH Hl) as (u' & -> & Hu').
    exists (c :: u'). split; [done|].
    cbn [length Nat.sub take] in *. rewrite ?Nat.sub_0_r in *.
    pose proof (Enc_hex c _ _ Hu') as He. by rewrite E in He.
Qed.

(** A spelling has no raw space. *)
Lemma Enc_no_space u n : Enc u n → last n ≠ Some " "%char.
Proof.
  induction 1 as [|c u name Hc H IH|c u name H IH]; [done| |].
  - destruct name; [|by rewrite last_cons_cons]. simpl. intros [= ->]. by vm_compute in Hc.
  - destruct (unhex_hex2 c) as (a & b & E & _ & _ & _ & _ & Hb & _). rewrite E. cbn [app].
    destruct name; [simpl; by intros [= ->]|by rewrite !last_cons_cons].
Qed.

Lemma encode_trailing_ok u n : Enc u n →
  ∃ n', encode_trailing 2 n = Some n' ∧ Enc u n' ∧ last n' ≠ Some dot ∧ (n' = [] ↔ n = []).
Proof.
  intros H. cbn [encode_trailing]. destruct (last n) as [c|] eqn:Hl.
  2:{ exists n. rewrite Hl. done. }
  case_decide as Hc; [|exists n; rewrite Hl; split_and!; try done; naive_solver].
  assert (c = dot) as ->.
  { destruct Hc as [->| ->]; [done|]. by destruct (Enc_no_space u n H). }
  destruct (Enc_last_dot u n H Hl) as (u' & -> & Hu').
  rewrite last_app. destruct (unhex_hex2 dot) as (a & b & E & _ & _ & _ & Hb & Hb' & _).
  change (last (percent :: hex2 true dot)) with (last (percent :: hex2 true dot)).
  rewrite E. cbn [last]. rewrite decide_False by naive_solver. rewrite <-E.
  eexists. split; [done|]. split_and!.
  - apply Enc_app; [done|]. apply (Enc_hex dot [] []). constructor.
  - rewrite last_app, E. simpl. congruence.
  - split; [by intros [_ ?]%app_nil|]. by intros ->.
Qed.

Section names_spec.
Context {UC : UnicodeCase}.

Lemma ToLower_percent l : ∃ l', bytes (ToLower (str (percent :: l))) = percent :: l'.
Proof.
  unfold ToLower. rewrite !bytes_str. change (percent :: l) with (z2b 0x25 :: l).
  rewrite runes_ascii by lia. csimpl. eexists. unfold rune_ToLower, ascii_lower. simpl. done.
Qed.

(** A name that starts with an escape is no device. *)
Lemma reserved_percent l : reservedDeviceName (percent :: l) = false.
Proof.
  unfold reservedDeviceName. destruct (ToLower_percent l) as [l' ->].
  rewrite bool_decide_false. 2:{ intros H. repeat (apply elem_of_cons in H as [H|H]; [done|]). by apply not_elem_of_nil in H. }
  rewrite (bool_decide_false (str (take 3 (percent :: l')) ∈ _)); [by rewrite andb_false_r|].
  intros H. destruct l' as [|a [|b l']]; simpl in H; set_solver.
Qed.

(** What every spelling of a file name guarantees. *)
Record file_stem (u n : list ascii) : Prop := {
  f_enc : Enc u n;
  f_device : reservedDeviceName (stem_of n) = false;
  f_last : last n ≠ Some dot ∧ last n ≠ Some " "%char;
  f_some : n ≠ [];
}.

Lemma encodeReserved_ok u n : Enc u n → n ≠ [] →
  ∃ n', encodeReservedFileName n = Some n' ∧ file_stem u n'.
Proof.
  intros H Hn. destruct (encode_trailing_ok u n H) as (n1 & E1 & H1 & Hl & Hne).
  unfold encodeReservedFileName. rewrite E1.
  destruct (reservedDeviceName (stem_of n1)) eqn:Er.
  2:{ exists n1. split; [done|]. split; [done|done| |naive_solver].
      split; [done|by apply (Enc_no_space u)]. }
  destruct n1 as [|c n1]; [naive_solver|].
  assert (c ≠ percent) as Hc.
  { intros ->. simpl in Er. by rewrite reserved_percent in Er. }
  inversion H1 as [|c0 u0 n0 Hs H0|c0 u0 n0 H0]; subst; [|done].
  pose proof (Enc_hex c u0 n1 H0) as He.
  eexists. split; [done|]. split; [done| |split|done].
  - apply reserved_percent.
  - destruct (unhex_hex2 c) as (a & b & E & _ & _ & _ & Hb & _). rewrite E. cbn [app].
    destruct n1 as [|x n1]; [simpl; congruence|]. by rewrite !last_cons_cons in *.
  - by apply (Enc_no_space (c :: u0)).
Qed.

(** The names that share the file of the unknown unit. *)
Definition unknown_names : list string := [""; "."; ".."; "_unknown"].

Lemma Enc_dot u n : Enc u n → (n = [dot] → u = [dot]) ∧ (n = [dot; dot] → u = [dot; dot]).
Proof. intros H%Enc_decode. split; intros ->; by vm_compute in H. Qed.

Ltac in_names := apply (bool_decide_unpack _); vm_compute; exact I.

Lemma unitFileName_ok unit : canonicalUnit unit ∉ unknown_names →
  ∃ n, unitFileName unit = Some (str (n ++ bytes ".log")) ∧
    file_stem (bytes (canonicalUnit unit)) n ∧ n ≠ bytes "_unknown".
Proof.
  intros Hu. unfold unitFileName. set (u := canonicalUnit unit) in *.
  assert (∀ v, v ∈ unknown_names → bytes u ≠ bytes v) as Hne.
  { intros v Hv Heq%(inj bytes). by subst v. }
  rewrite decide_False by (intros E; apply Hu; rewrite E; in_names).
  pose proof (Enc_encode (bytes u)) as He. set (n := concat (encode_byte <$> bytes u)) in *.
  destruct (Enc_dot _ _ He) as [Hd1 Hd2].
  assert (n ≠ []) as Hn0.
  { intros E. rewrite E in He. apply Enc_decode in He. apply (Hne ""); [in_names|by rewrite <-He]. }
  rewrite decide_False.
  2:{ intros [?|[E|E]]; [done|apply (Hne "."); [in_names|by apply Hd1]
        |apply (Hne ".."); [in_names|by apply Hd2]]. }
  destruct (encodeReserved_ok _ _ He Hn0) as (n' & -> & Hf).
  exists n'. split_and!; [done|done|]. intros ->. pose proof (Enc_decode _ _ (f_enc _ _ Hf)) as Hdec.
  apply (Hne "_unknown"); [in_names|]. rewrite <-Hdec. vm_compute. reflexivity.
Qed.

Lemma stem_log n : stem_of (n ++ bytes ".log") = stem_of n.
Proof.
  induction n as [|c n IH]; [done|]. cbn [app stem_of]. destruct (decide (c = dot)); [done|by rewrite IH].
Qed.

Lemma decode_log n : decodeUnitFileName (str (n ++ bytes ".log")) =
  if decide (n = bytes "_unknown") then Some "" else Some (str (decode_name n)).
Proof.
  unfold decodeUnitFileName. rewrite bytes_str, reverse_app.
  rewrite (proj2 (strip_prefix_Some _ _ (reverse n))) by done. by rewrite reverse_involutive.
Qed.

(** *** File names do not collide when case is ignored *)

Definition lower_byte (c : ascii) : ascii := z2b (ascii_lower (b2z c)).

Lemma lower_unhex c : unhex (lower_byte c) = unhex c.
Proof. revert c. refine (every_byte _ _). vm_compute. reflexivity. Qed.
Lemma lower_percent c : lower_byte c = percent ↔ c = percent.
Proof. revert c. refine (every_byte _ _). vm_compute. reflexivity. Qed.
Lemma lower_id c : ¬ (0x41 ≤ b2z c ≤ 0x5A) → lower_byte c = c.
Proof.
  intros H. unfold lower_byte, ascii_lower.
  destruct (Z.leb_spec 0x41 (b2z c)), (Z.leb_spec (b2z c) 0x5A); simpl; try lia; apply z2b_b2z.
Qed.

Lemma Enc_decode_lower u n : Enc u n → Forall (λ c, ¬ (0x41 ≤ b2z c ≤ 0x5A)) u →
  decode_name (lower_byte <$> n) = u.
Proof.
  induction 1 as [|c u name Hc H IH|c u name H IH]; intros Hu; [done| |].
  - inversion Hu; subst. rewrite fmap_cons, (lower_id c), decode_raw, IH by done || by apply safe_not_percent.
    done.
  - inversion Hu; subst. destruct (unhex_hex2 c) as (a & b & E & Ha & Hb & _). rewrite E.
    cbn [app]. rewrite !fmap_cons. replace (lower_byte percent) with percent by (vm_compute; reflexivity).
    cbn [decode_name]. rewrite decide_True, !lower_unhex, Ha, Hb, IH by done.
    f_equal. rewrite Z.mul_comm, <-Z.div_mod by lia. apply z2b_b2z.
Qed.

Lemma canonicalUnit_lower unit : Forall (λ c, ¬ (0x41 ≤ b2z c ≤ 0x5A)) (bytes (canonicalUnit unit)).
Proof.
  destruct (canonical_runes _ (ToLower_TrimSpace_canonical unit)) as (rs & Hr & _ & Hl & _).
  apply Forall_forall. intros c Hc Hup. unfold canonicalUnit in Hc.
  rewrite <-(z2b_b2z c), <-runes_ascii_byte, Hr in Hc by lia.
  rewrite <-list_fmap_compose, list_fmap_id in Hc. rewrite Forall_forall in Hl.
  specialize (Hl _ Hc). unfold rune_ToLower, ascii_lower in Hl.
  rewrite (proj2 (Z.ltb_lt _ _)), (proj2 (Z.leb_le _ _)), (proj2 (Z.leb_le (b2z c) _)) in Hl by lia.
  simpl in Hl. lia.
Qed.

(** The file of a unit names the unit: decoding the file name gives the
    canonical unit name back, whatever bytes the name has. The names [.],
    [..] and [_unknown] share the file of the empty name and are excluded. *)
Theorem unitFileName_roundtrip unit : canonicalUnit unit ∉ unknown_names →
  ∃ f, unitFileName unit = Some f ∧ decodeUnitFileName f = Some (canonicalUnit unit).
Proof.
  intros Hu. destruct (unitFileName_ok unit Hu) as (n & -> & Hf & Hn).
  eexists. split; [done|]. rewrite decode_log, decide_False by done.
  rewrite (Enc_decode _ _ (f_enc _ _ Hf)). by rewrite str_bytes.
Qed.

(** Two units never share a file on a file system that ignores case, and
    no file name is a Windows device: its stem is not reserved, and the part
    before [.log] neither is empty nor ends in a dot or a space. *)
Theorem unitFileName_distinct unit1 unit2 f1 f2 :
  canonicalUnit unit1 ∉ unknown_names → canonicalUnit unit2 ∉ unknown_names →
  unitFileName unit1 = Some f1 → unitFileName unit2 = Some f2 →
  (lower_byte <$> bytes f1 = lower_byte <$> bytes f2 → canonicalUnit unit1 = canonicalUnit unit2) ∧
  reservedDeviceName (stem_of (bytes f1)) = false ∧
  ∃ n, bytes f1 = n ++ bytes ".log" ∧ n ≠ [] ∧ last n ≠ Some dot ∧ last n ≠ Some " "%char.
Proof.
  intros H1 H2 E1 E2.
  destruct (unitFileName_ok _ H1) as (n1 & F1 & [Hf1 Hd1 [Hl1 Hl1'] Hn1] & _). rewrite E1 in F1. injection F1 as ->.
  destruct (unitFileName_ok _ H2) as (n2 & F2 & [Hf2 _ _ _] & _). rewrite E2 in F2. injection F2 as ->.
  rewrite !bytes_str, stem_log. split_and!; [|done|by eauto 10].
  rewrite !fmap_app. intros Heq%app_inv_tail. apply (inj bytes).
  rewrite <-(Enc_decode_lower _ _ Hf1), Heq by apply canonicalUnit_lower.
  apply Enc_decode_lower; [done|apply canonicalUnit_lower].
Qed.

End names_spec.

Lemma unitFileName_roundtrip_witness :
  unitFileName "foo:bar*.service" = Some "foo%3Abar%2A.service.log" ∧
  ∃ f, unitFileName "foo:bar*.service" = Some f ∧
    decodeUnitFileName f = Some (canonicalUnit "foo:bar*.service").
Proof.
  split; [vm_compute; reflexivity|].
  apply (unitFileName_roundtrip "foo:bar*.service"). apply (bool_decide_unpack _). vm_compute. exact I.
Defined.

Lemma unitFileName_distinct_witness :
  unitFileName "con.service" = Some "%63on.service.log" ∧
  reservedDeviceName (stem_of (bytes "%63on.service.log")) = false.
Proof.
  split; [vm_compute; reflexivity|].
  refine (proj1 (proj2 (unitFileName_distinct "con.service" "a" "%63on.service.log" "a.log" _ _ _ _))).
  - apply (bool_decide_unpack _). vm_compute. exact I.
  - apply (bool_decide_unpack _). vm_compute. exact I.
  - vm_compute. reflexivity.
  - vm_compute. reflexivity.
Defined.

(** The names excluded above do share a file. *)
Lemma unknown_collides : unitFileName "_unknown" = unitFileName "" ∧
  unitFileName "." = unitFileName "" ∧ unitFileName ".." = unitFileName "".
Proof. vm_compute. done. Qed.
