(* ===== verification/JournalStream.v ===== *)
(** * Package journal: the write buffer, captured fragments, invocation ids

    Translates [internal/journal/buffer.go] (the record buffer that survives
    partial writes), [fragments.go] (the splitting of captured output into
    bounded fragments) and [id.go] (invocation ids).

    The writer behind the buffer and the source of random bytes are arguments:
    a [Write] is answered by any count and error, a random read by any bytes. *)

From S2P Require Import Prelude GoStrings GoText JournalQueue JournalNames.
From Stdlib Require Import Ascii.

#[local] Open Scope Z_scope.
#[local] Open Scope go_scope.

(** ** The record buffer *)

Module Buffer.

Definition journalBufferSize : Z := 4096.

Record bufferedRecord := { remaining : Z; messageBytes : Z }.
Record recordBuffer := { data : list ascii; records : list bufferedRecord }.

Definition zlen {A} (l : list A) : Z := Z.of_nat (length l).

(** What the writer answers to a [Write]. *)
Record answer := { count : Z; failure : option error }.

Definition ErrShortWrite : error := ErrText "short write".

(** The loop that consumes the records covered by [left] written bytes. *)
Fixpoint consume (left : Z) (rs : list bufferedRecord) : list bufferedRecord :=
  match rs with
  | [] => []
  | r :: rs' =>
    if left <=? 0 then rs
    else if left <? remaining r
    then {| remaining := remaining r - left; messageBytes := messageBytes r |} :: rs'
    else consume (left - remaining r) rs'
  end.

Definition Flush (a : answer) (b : recordBuffer) : option error * recordBuffer :=
  match data b with
  | [] => (None, b)
  | _ =>
    let n := count a in
    if (n <? 0) || (zlen (data b) <? n) then (Some ErrShortWrite, b)
    else
      let err := match failure a with
                 | Some e => Some e
                 | None => if n <? zlen (data b) then Some ErrShortWrite else None
                 end in
      (err, {| data := drop (Z.to_nat n) (data b); records := consume n (records b) |})
  end.

Definition append (a : answer) (raw : list ascii) (msg : Z) (b : recordBuffer)
    : option error * recordBuffer :=
  let add b := {| data := data b ++ raw;
                  records := records b ++ [{| remaining := zlen raw; messageBytes := msg |}] |} in
  if (0 <? zlen (data b)) && (journalBufferSize <? zlen (data b) + zlen raw) then
    match Flush a b with
    | (Some err, b) => (Some err, b)
    | (None, b) => (None, add b)
    end
  else (None, add b).

Definition pendingLoss (b : recordBuffer) : Z * Z :=
  foldl (λ '(n, m) r, (uint64 (n + 1), uint64 (m + uint64 (messageBytes r)))) (0, 0) (records b).

(** *** Runs of the buffer

    [accepted] are the records taken by a successful [append], [written] the
    bytes the writer took. *)

Record run := {
  buffer : recordBuffer;
  accepted : list (list ascii * Z);
  written : list ascii;
}.

(** The bytes a flush hands over for good. *)
Definition taken (a : answer) (b : recordBuffer) : list ascii :=
  if (count a <? 0) || (zlen (data b) <? count a) then [] else take (Z.to_nat (count a)) (data b).
Definition flushes (raw : list ascii) (b : recordBuffer) : bool :=
  (0 <? zlen (data b)) && (journalBufferSize <? zlen (data b) + zlen raw).

Inductive bstep : run → run → Prop :=
| b_flush a b l w err b' : Flush a b = (err, b') →
    bstep {| buffer := b; accepted := l; written := w |}
          {| buffer := b'; accepted := l; written := w ++ taken a b |}
| b_append a raw msg b l w err b' : raw ≠ [] → append a raw msg b = (err, b') →
    bstep {| buffer := b; accepted := l; written := w |}
          {| buffer := b';
             accepted := match err with None => l ++ [(raw, msg)] | Some _ => l end;
             written := w ++ (if flushes raw b then taken a b else []) |}.

Definition empty_run : run :=
  {| buffer := {| data := []; records := [] |}; accepted := []; written := [] |}.

(** [pend w l rs]: [rs] are the records of [l] that [w] bytes do not cover,
    the first one cut where the bytes end. *)
Fixpoint pend (w : Z) (l : list (list ascii * Z)) : list bufferedRecord :=
  match l with
  | [] => []
  | (raw, msg) :: l' =>
    if zlen raw <=? w then pend (w - zlen raw) l'
    else {| remaining := zlen raw - w; messageBytes := msg |} ::
         ((λ p : list ascii * Z, {| remaining := zlen p.1; messageBytes := p.2 |}) <$> l')
  end.

Definition fresh_records (l : list (list ascii * Z)) : list bufferedRecord :=
  (λ p : list ascii * Z, {| remaining := zlen p.1; messageBytes := p.2 |}) <$> l.

Record buffer_ok (r : run) : Prop := {
  o_raw : Forall (λ p, p.1 ≠ []) (accepted r);
  o_bytes : written r ++ data (buffer r) = concat (accepted r).*1;
  o_records : records (buffer r) = pend (zlen (written r)) (accepted r);
}.

Lemma zlen_nonneg {A} (l : list A) : 0 <= zlen l.
Proof. unfold zlen. lia. Qed.
Lemma zlen_app {A} (l1 l2 : list A) : zlen (l1 ++ l2) = zlen l1 + zlen l2.
Proof. unfold zlen. rewrite length_app. lia. Qed.
Lemma zlen_pos {A} (l : list A) : l ≠ [] → 0 < zlen l.
Proof. unfold zlen. destruct l; [done|]. simpl. lia. Qed.

Lemma consume_fresh n l : 0 <= n → Forall (λ p, p.1 ≠ []) l → consume n (fresh_records l) = pend n l.
Proof.
  revert n. induction l as [|[raw msg] l IH]; intros n Hn Hl; [done|].
  inversion Hl as [|? ? Hraw Hl']; subst. simpl in *. pose proof (zlen_pos raw Hraw).
  destruct (Z.leb_spec n 0), (Z.leb_spec (zlen raw) n); try lia.
  - by replace n with 0 by lia; rewrite Z.sub_0_r.
  - destruct (Z.ltb_spec n (zlen raw)); [lia|]. apply IH; [lia|done].
  - by destruct (Z.ltb_spec n (zlen raw)); [|lia].
Qed.

(** Consuming [n] more bytes is the same as covering [w + n] bytes. *)
Lemma consume_pend w n l : 0 <= w → 0 <= n → Forall (λ p, p.1 ≠ []) l →
  consume n (pend w l) = pend (w + n) l.
Proof.
  revert w. induction l as [|[raw msg] l IH]; intros w Hw Hn Hl; [done|].
  inversion Hl as [|? ? Hraw Hl']; subst. simpl in *. pose proof (zlen_pos raw Hraw).
  destruct (Z.leb_spec (zlen raw) w).
  - rewrite (proj2 (Z.leb_le (zlen raw) (w + n))) by lia.
    replace (w + n - zlen raw) with (w - zlen raw + n) by lia. apply IH; [lia|done|done].
  - simpl. destruct (Z.leb_spec n 0).
    + replace n with 0 by lia. rewrite Z.add_0_r. by rewrite (proj2 (Z.leb_gt _ _)) by lia.
    + destruct (Z.ltb_spec n (zlen raw - w)).
      * rewrite (proj2 (Z.leb_gt _ _)) by lia. f_equal. f_equal. lia.
      * rewrite (proj2 (Z.leb_le _ _)) by lia.
        replace (w + n - zlen raw) with (n - (zlen raw - w)) by lia.
        apply consume_fresh; [lia|done].
Qed.

Lemma pend_app w l raw msg : 0 <= w → w <= zlen (concat l.*1) → raw ≠ [] →
  pend w (l ++ [(raw, msg)]) = pend w l ++ [{| remaining := zlen raw; messageBytes := msg |}].
Proof.
  revert w. induction l as [|[raw0 msg0] l IH]; intros w H0 Hw Hraw; csimpl in *.
  - pose proof (zlen_pos raw Hraw). change (zlen []) with 0 in Hw.
    destruct (Z.leb_spec (zlen raw) w); [lia|]. by replace (zlen raw - w) with (zlen raw) by lia.
  - rewrite zlen_app in Hw. destruct (Z.leb_spec (zlen raw0) w); [apply IH; [lia|lia|done]|].
    by rewrite fmap_app.
Qed.

Lemma taken_nil a b : data b = [] → taken a b = [].
Proof. intros E. unfold taken. rewrite E, take_nil. by destruct (_ || _). Qed.

(** A flush moves bytes from the buffer to the writer. *)
Lemma Flush_ok a b l w err b' : buffer_ok {| buffer := b; accepted := l; written := w |} →
  Flush a b = (err, b') →
  buffer_ok {| buffer := b'; accepted := l; written := w ++ taken a b |} ∧
  (err = None → data b' = []).
Proof.
  intros [Hl Hb Hr] HF. simpl in *. unfold Flush in HF.
  destruct (data b) as [|c d] eqn:Ed.
  { injection HF as <- <-. split; [|done]. rewrite taken_nil, app_nil_r by done.
    split; simpl; [done|by rewrite Ed|done]. }
  rewrite <-Ed in *. unfold taken. destruct ((count a <? 0) || (zlen (data b) <? count a)) eqn:Ebad.
  { injection HF as <- <-. rewrite app_nil_r. by split. }
  apply orb_false_iff in Ebad as [?%Z.ltb_ge ?%Z.ltb_ge]. injection HF as <- <-.
  split; [split; simpl; [done| |]|simpl].
  - by rewrite <-app_assoc, take_drop.
  - rewrite Hr, zlen_app. rewrite consume_pend by (done || apply zlen_nonneg). f_equal.
    unfold zlen in *. rewrite length_take. lia.
  - destruct (failure a); [done|]. destruct (Z.ltb_spec (count a) (zlen (data b))); [done|].
    intros _. apply drop_ge. unfold zlen in *. lia.
Qed.

Lemma add_ok b l w raw msg : raw ≠ [] → buffer_ok {| buffer := b; accepted := l; written := w |} →
  buffer_ok {| buffer := {| data := data b ++ raw;
      records := records b ++ [{| remaining := zlen raw; messageBytes := msg |}] |};
    accepted := l ++ [(raw, msg)]; written := w |}.
Proof.
  intros Hraw [Hl Hb Hr]. simpl in *. split; simpl.
  - apply Forall_app. split; [done|]. by apply Forall_singleton.
  - rewrite fmap_app, concat_app. simpl. by rewrite app_nil_r, app_assoc, Hb.
  - rewrite Hr. symmetry. apply pend_app; [apply zlen_nonneg| |done].
    rewrite <-Hb, zlen_app. pose proof (zlen_nonneg (data b)). lia.
Qed.

Lemma bstep_ok r r' : bstep r r' → buffer_ok r → buffer_ok r'.
Proof.
  intros [a b l w err b' HF|a raw msg b l w err b' Hraw HA] H.
  - by apply (Flush_ok _ _ _ _ _ _ H HF).
  - unfold append in HA. fold (flushes raw b) in HA. destruct (flushes raw b).
    + destruct (Flush a b) as [e1 b1] eqn:HF. destruct (Flush_ok _ _ _ _ _ _ H HF) as [H1 _].
      destruct e1 as [e|]; injection HA as <- <-; [done|]. by apply add_ok.
    + injection HA as <- <-. rewrite app_nil_r. by apply add_ok.
Qed.

(** The accepted records the writer has not completely taken. *)
Fixpoint unwritten (w : Z) (l : list (list ascii * Z)) : list (list ascii * Z) :=
  match l with
  | [] => []
  | (raw, msg) :: l' => if zlen raw <=? w then unwritten (w - zlen raw) l' else l
  end.
Lemma pend_unwritten w l : messageBytes <$> pend w l = (unwritten w l).*2.
Proof.
  revert w. induction l as [|[raw msg] l IH]; intros w; simpl; [done|].
  destruct (zlen raw <=? w); [apply IH|]. csimpl. by rewrite <-list_fmap_compose.
Qed.

Definition total (l : list Z) : Z := foldr Z.add 0 l.
Lemma pendingLoss_sum b : pendingLoss b =
  (uint64 (zlen (records b)), uint64 (total (messageBytes <$> records b))).
Proof.
  unfold pendingLoss.
  assert (∀ rs n m, foldl (λ '(n, m) r, (uint64 (n + 1), uint64 (m + uint64 (messageBytes r))))
    (uint64 n, uint64 m) rs = (uint64 (n + zlen rs), uint64 (m + total (messageBytes <$> rs)))) as H.
  { induction rs as [|r rs IH]; intros n m; csimpl; [by rewrite !Z.add_0_r|].
    rewrite uint64_add. replace (uint64 (uint64 m + uint64 (messageBytes r)))
      with (uint64 (m + messageBytes r)) by (unfold uint64; apply Z.add_mod; lia).
    rewrite IH. unfold zlen. simpl length. f_equal; f_equal; lia. }
  apply (H (records b) 0 0).
Qed.

(** C35: The write buffer loses, repeats and reorders nothing, however the
    writer fails or splits a write. After any sequence of appends and flushes
    the bytes the writer took followed by the buffered bytes are exactly the
    accepted records in order, and [pendingLoss] counts exactly the accepted
    records, and their message bytes, that are not completely written. *)
Theorem buffer_exact r : rtc bstep empty_run r →
  written r ++ data (buffer r) = concat (accepted r).*1 ∧
  let lost := unwritten (zlen (written r)) (accepted r) in
  pendingLoss (buffer r) = (uint64 (zlen lost), uint64 (total lost.*2)).
Proof.
  intros Hrun.
  assert (buffer_ok r) as [_ Hb Hr].
  { revert Hrun. apply (rtc_ind_r buffer_ok); [by split|].
    intros r1 r2 _ Hs H1. by eapply bstep_ok. }
  split; [done|]. simpl. rewrite pendingLoss_sum, <-pend_unwritten, Hr.
  f_equal. f_equal. unfold zlen. f_equal.
  rewrite <-(length_fmap messageBytes), pend_unwritten. by rewrite length_fmap.
Qed.

(** A record of three bytes, half of it written by a failing writer. *)
Definition sample_append := append {| count := 0; failure := None |} (bytes "abc") 2
  {| data := []; records := [] |}.
Definition sample_flush := Flush {| count := 2; failure := Some (ErrText "disk full") |} sample_append.2.
Lemma buffer_exact_witness :
  written {| buffer := sample_flush.2; accepted := [(bytes "abc", 2)]; written := bytes "ab" |} =
    bytes "ab" ∧ pendingLoss sample_flush.2 = (1, 2).
Proof.
  split; [reflexivity|].
  assert (rtc bstep empty_run
    {| buffer := sample_flush.2; accepted := [(bytes "abc", 2)]; written := bytes "ab" |}) as Hrun.
  { eapply rtc_l; [eapply (b_append {| count := 0; failure := None |} (bytes "abc") 2);
      [discriminate|reflexivity]|].
    eapply rtc_l; [|apply rtc_refl].
    apply (b_flush {| count := 2; failure := Some (ErrText "disk full") |} sample_append.2
      [(bytes "abc", 2)] [] (Some (ErrText "disk full"))). reflexivity. }
  exact (proj2 (buffer_exact _ Hrun)).
Defined.

End Buffer.

(** ** Captured fragments *)

Module Fragments.

Definition MaxCaptureFragment : Z := Z.shiftl 64 10.
Definition newline : Z := 10.

Record fragment := { text : list ascii; continuation : bool; partial : bool }.

(** [strings.TrimRight(s, "\r")]. *)
Definition trim_cr (l : list ascii) : list ascii := reverse (drop_in [CR] (reverse l)).

(** The loop over the runes of the stream, up to its end or a read error. *)
Fixpoint capture (rs : list Z) (buf : list ascii) (cont : bool) : list fragment :=
  match rs with
  | [] => match buf with
          | [] => []
          | _ => [{| text := buf; continuation := cont; partial := true |}]
          end
  | ch :: rs' =>
    if ch =? newline then
      let msg := trim_cr buf in
      (if bool_decide (msg ≠ []) || cont
       then [{| text := msg; continuation := cont; partial := false |}] else []) ++
      capture rs' [] false
    else if MaxCaptureFragment <? Z.of_nat (length buf + length (encode_rune ch)) then
      {| text := buf; continuation := cont; partial := true |} :: capture rs' (encode_rune ch) true
    else capture rs' (buf ++ encode_rune ch) cont
  end.
Definition captureFragments (stream : list ascii) : list fragment :=
  capture (runes stream).*1 [] false.

(** *** What the fragments of a logical line are *)

(** The lines of a stream, with whether a newline ends them. *)
Fixpoint lines (rs : list Z) : list (list Z * bool) :=
  match rs with
  | [] => [([], false)]
  | ch :: rs' =>
    if ch =? newline then ([], true) :: lines rs'
    else match lines rs' with
         | (l, t) :: ls => (ch :: l, t) :: ls
         | [] => []
         end
  end.

Definition encode (rs : list Z) : list ascii := concat (encode_rune <$> rs).

(** [fs] continues a line whose text is [l], its first fragment marked [cont]:
    every later one is a continuation, only the last one can end the line, and
    the texts spell the line without [k] trailing carriage returns. *)
Record spells (cont : bool) (l : list ascii) (terminated : bool) (fs : list fragment) : Prop := {
  sp_text : ∃ k, l = concat (text <$> fs) ++ replicate k CR ∧ (terminated = false → k = O);
  sp_cont : continuation <$> fs = match fs with [] => [] | _ :: fs' => cont :: replicate (length fs') true end;
  sp_partial : partial <$> fs = match fs with [] => [] | _ :: fs' => replicate (length fs') true ++ [negb terminated] end;
}.

(** A fragment is bounded and whole runes. *)
Definition bounded (f : fragment) : Prop :=
  Z.of_nat (length (text f)) <= MaxCaptureFragment ∧ ∃ rs, Forall scalar rs ∧ text f = encode rs.

Lemma trim_cr_spec l : ∃ k, l = trim_cr l ++ replicate k CR.
Proof.
  unfold trim_cr. assert (∃ k, reverse l = replicate k CR ++ drop_in [CR] (reverse l)) as [k Hk].
  { generalize (reverse l) as m. induction m as [|c m [k IH]]; simpl; [by exists O|].
    case_decide as Hc; [|by exists O]. apply list_elem_of_singleton in Hc as ->.
    exists (S k). simpl. by rewrite IH at 1. }
  exists k. apply (f_equal reverse) in Hk.
  by rewrite reverse_involutive, reverse_app, reverse_replicate in Hk.
Qed.

Lemma encode_app rs1 rs2 : encode (rs1 ++ rs2) = encode rs1 ++ encode rs2.
Proof. unfold encode. by rewrite fmap_app, concat_app. Qed.
Lemma encode_single r : encode [r] = encode_rune r.
Proof. unfold encode. csimpl. by rewrite app_nil_r. Qed.

Lemma encode_one_rune r : scalar r → one_rune r (encode_rune r) ∧ encode_rune r ≠ [].
Proof.
  intros Hr. pose proof (runes_encode_rune r [] Hr) as He. rewrite app_nil_r in He.
  destruct (encode_rune r) as [|c l] eqn:E; [done|].
  destruct (runes_step c l) as (r' & b & l' & _ & _ & [_ H1] & H2 & _).
  rewrite He in H2. injection H2 as <- <- _. by split.
Qed.

(** Text that ends in a carriage return loses a rune with it. *)
Lemma encode_cr rs t k : Forall scalar rs → encode rs = t ++ replicate k CR →
  ∃ rs', Forall scalar rs' ∧ t = encode rs'.
Proof.
  revert rs. induction k as [|k IH]; intros rs Hrs He.
  { exists rs. rewrite app_nil_r in He. done. }
  replace (replicate (S k) CR) with (replicate k CR ++ [CR]) in He
    by (rewrite <-replicate_S_end; done).
  destruct rs as [|r rs _] using rev_ind.
  { apply (f_equal length) in He. rewrite !length_app in He. simpl in He. lia. }
  apply Forall_app in Hrs as [Hrs Hr]. inversion Hr as [|? ? Hr' _]; subst.
  rewrite encode_app, encode_single, app_assoc in He.
  destruct (encode_one_rune r Hr') as [[[Hlow E]|[Hhigh Hall]] Hne].
  - rewrite E in He. apply app_inj_tail in He as [He _]. by apply (IH rs).
  - destruct (encode_rune r) as [|c l _] eqn:E using rev_ind; [done|].
    rewrite app_assoc in He. apply app_inj_tail in He as [_ ->].
    apply Forall_app in Hall as [_ Hc]. inversion Hc as [|? ? Hc' _]; subst. by vm_compute in Hc'.
Qed.

Lemma lines_cons rs : ∃ l t ls, lines rs = (l, t) :: ls.
Proof.
  induction rs as [|ch rs (l & t & ls & IH)]; simpl; [eauto|]. rewrite IH.
  destruct (ch =? newline); eauto.
Qed.

(** The text so far is bounded, whole runes, and not empty in a continuation. *)
Record buffer_inv (buf : list ascii) (cont : bool) : Prop := {
  bi_bounded : bounded {| text := buf; continuation := cont; partial := true |};
  bi_cont : cont = true → buf ≠ [];
}.

Lemma bounded_trim buf cont : buffer_inv buf cont →
  bounded {| text := trim_cr buf; continuation := cont; partial := false |}.
Proof.
  intros [[Hlen (rs & Hrs & He)] _]. simpl in *. destruct (trim_cr_spec buf) as [k Hk].
  split; simpl.
  - rewrite Hk, length_app in Hlen. lia.
  - rewrite Hk in He. by apply (encode_cr rs _ k).
Qed.

Lemma buffer_push buf cont ch : buffer_inv buf cont → scalar ch →
  Z.of_nat (length buf + length (encode_rune ch)) <= MaxCaptureFragment →
  buffer_inv (buf ++ encode_rune ch) cont.
Proof.
  intros [[Hlen (rs & Hrs & He)] Hc] Hch Hle. simpl in *. split; [split; simpl|].
  - rewrite length_app. done.
  - exists (rs ++ [ch]). rewrite encode_app, encode_single, <-He. split; [|done].
    apply Forall_app. split; [done|]. by apply Forall_singleton.
  - intros ->. specialize (Hc eq_refl). by destruct buf.
Qed.
Lemma buffer_new ch : scalar ch → buffer_inv (encode_rune ch) true.
Proof.
  intros Hch. split; [split; simpl|].
  - unfold encode_rune. repeat case_match; vm_compute; done.
  - exists [ch]. rewrite encode_single. split; [by apply Forall_singleton|done].
  - intros _. by apply encode_one_rune.
Qed.

Lemma spells_cons cont buf ch l t g : spells true (encode_rune ch ++ encode l) t g → g ≠ [] →
  spells cont (buf ++ encode (ch :: l)) t ({| text := buf; continuation := cont; partial := true |} :: g).
Proof.
  intros [(k & Hk & Hk0) Hc Hp] Hg. destruct g as [|f g]; [done|]. split.
  - exists k. split; [|done]. csimpl. unfold encode. csimpl. fold (encode l).
    by rewrite Hk, app_assoc.
  - rewrite fmap_cons. simpl in *. by rewrite Hc.
  - rewrite fmap_cons. simpl in *. by rewrite Hp.
Qed.

Definition line_spelled (p : list Z * bool) (g : list fragment) : Prop :=
  spells false (encode p.1) p.2 g.

Lemma spells_end cont buf : buf ≠ [] →
  spells cont (buf ++ encode []) false [{| text := buf; continuation := cont; partial := true |}].
Proof. intros Hb. split; [|done|done]. exists O. split; [|done]. simpl. by rewrite !app_nil_r. Qed.
Lemma spells_newline cont buf :
  spells cont (buf ++ encode []) true
    (if bool_decide (trim_cr buf ≠ []) || cont
     then [{| text := trim_cr buf; continuation := cont; partial := false |}] else []).
Proof.
  destruct (trim_cr_spec buf) as [k Hk]. change (encode []) with (@nil ascii).
  destruct (bool_decide _ || cont) eqn:E; (split; [|done|done]); exists k; (split; [|done]); simpl.
  - by rewrite !app_nil_r.
  - apply orb_false_iff in E as [E _]. apply bool_decide_eq_false in E.
    destruct (trim_cr buf); [|by destruct E]. by rewrite app_nil_r.
Qed.

Lemma capture_spells rs : Forall scalar rs → ∀ buf cont l t ls, buffer_inv buf cont →
  lines rs = (l, t) :: ls → ∃ g gs, capture rs buf cont = g ++ concat gs ∧
    spells cont (buf ++ encode l) t g ∧ (cont = true → g ≠ []) ∧
    Forall2 line_spelled ls gs ∧ Forall bounded (g ++ concat gs).
Proof.
  induction 1 as [|ch rs Hch Hrs IH]; intros buf cont l t ls Hb Hl; simpl in Hl.
  { injection Hl as <- <- <-. simpl. destruct buf as [|c buf].
    - exists [], []. split_and!; [done| |by intros Hc; destruct (bi_cont _ _ Hb Hc)|constructor|constructor].
      split; [exists O|..]; done.
    - eexists [_], []. split_and!; [done|by apply spells_end|done|constructor|].
      rewrite app_nil_r. apply Forall_singleton, Hb. }
  simpl capture. destruct (ch =? newline).
  - injection Hl as <- <- <-. destruct (lines_cons rs) as (l & t & ls & El).
    destruct (IH [] false l t ls) as (g & gs & Eg & Hg & _ & Hgs & Hall); [|done|].
    { split; [split; [done|by exists []]|done]. }
    eexists _, (g :: gs). rewrite Eg. split_and!; [done|apply spells_newline| | |].
    + intros ->. by rewrite orb_true_r.
    + rewrite El. by constructor.
    + apply Forall_app. split; [|done]. destruct (_ || _); [|done].
      by apply Forall_singleton, bounded_trim.
  - destruct (lines_cons rs) as (l0 & t0 & ls0 & El). rewrite El in Hl. injection Hl as <- <- <-.
    destruct (Z.ltb_spec MaxCaptureFragment (Z.of_nat (length buf + length (encode_rune ch)))).
    + destruct (IH (encode_rune ch) true l0 t0 ls0 (buffer_new ch Hch) El)
        as (g & gs & -> & Hg & Hne & Hgs & Hall).
      eexists (_ :: g), gs. split_and!; [done|by apply spells_cons, Hne|done|done|].
      constructor; [apply Hb|done].
    + destruct (IH (buf ++ encode_rune ch) cont l0 t0 ls0 (buffer_push _ _ _ Hb Hch H) El)
        as (g & gs & -> & Hg & Hne & Hgs & Hall).
      exists g, gs. split_and!; try done. unfold encode. csimpl. by rewrite app_assoc.
Qed.

(** C36: Captured output is stored faithfully and in bounded pieces. The
    fragments of a stream are those of its lines in order; the texts of a
    line's fragments spell the line (invalid bytes as replacement runes)
    without some trailing carriage returns, of which an unterminated line loses
    none; all but the first are marked as continuations and all but the last of
    a terminated line as partial; each is at most 64 KiB of whole runes. *)
Theorem captureFragments_faithful stream : ∃ gs,
  captureFragments stream = concat gs ∧
  Forall2 line_spelled (lines (runes stream).*1) gs ∧
  Forall bounded (captureFragments stream).
Proof.
  assert (Forall scalar (runes stream).*1) as Hs by (apply Forall_fmap; apply runes_scalar).
  destruct (lines_cons (runes stream).*1) as (l & t & ls & El).
  destruct (capture_spells _ Hs [] false l t ls) as (g & gs & Eg & Hg & _ & Hgs & Hall); [|done|].
  { split; [split; [done|by exists []]|done]. }
  exists (g :: gs). unfold captureFragments. rewrite Eg, El. split_and!; [done|by constructor|done].
Qed.

End Fragments.

(** ** Invocation ids *)

Module InvocationID.

Definition EnvInvocationID : string := "WINUNIT_INVOCATION_ID".

(** The verb [%x] on a byte slice. *)
Definition hex (l : list ascii) : list ascii := concat (hex2 false <$> l).
Definition dash : ascii := "-"%char.

Definition set_version (b : list ascii) : list ascii :=
  let b := alter (λ c, z2b (Z.lor (Z.land (b2z c) 0x0f) 0x40)) 6%nat b in
  alter (λ c, z2b (Z.lor (Z.land (b2z c) 0x3f) 0x80)) 8%nat b.

(** [rand] are the sixteen random bytes, or [None] if the source fails; the id
    is then the time [nanos]. *)
Definition NewInvocationID (rand : option (list ascii)) (nanos : Z) : string :=
  match rand with
  | None => pretty nanos
  | Some b =>
    let b := set_version b in
    str (hex (take 4 b) ++ dash :: hex (take 2 (drop 4 b)) ++ dash :: hex (take 2 (drop 6 b)) ++
         dash :: hex (take 2 (drop 8 b)) ++ dash :: hex (drop 10 b))
  end.

Definition is_dash (i : nat) : bool := bool_decide (i ∈ [8; 13; 18; 23]%nat).
(** The loop of [ValidInvocationID] over the runes from byte [i] on. *)
Fixpoint valid_from (i : nat) (ps : list (Z * list ascii)) : bool :=
  match ps with
  | [] => true
  | (r, b) :: ps' =>
    (is_dash i || ((0x30 <=? r) && (r <=? 0x39)) || ((0x61 <=? r) && (r <=? 0x66)) ||
     ((0x41 <=? r) && (r <=? 0x46))) && valid_from (i + length b) ps'
  end.
Definition ValidInvocationID (id : string) : bool :=
  let l := bytes id in
  bool_decide (length l = 36%nat) &&
  forallb (λ i, bool_decide (l !! i = Some dash)) [8; 13; 18; 23]%nat &&
  valid_from 0 (runes l).

Fixpoint inject (env : list string) (kv : string) : option (list string) :=
  match env with
  | [] => None
  | e :: env' =>
    if EqualFold (Cut e "=").1.1 EnvInvocationID then Some (kv :: env')
    else match inject env' kv with Some env' => Some (e :: env') | None => None end
  end.
Definition InjectEnv (env : list string) (id : string) : list string :=
  if decide (id = "") then env
  else
    let kv := EnvInvocationID +:+ "=" +:+ id in
    match inject env kv with Some env' => env' | None => env ++ [kv] end.

Definition hex_byte (c : ascii) : bool :=
  ((0x30 <=? b2z c) && (b2z c <=? 0x39)) || ((0x61 <=? b2z c) && (b2z c <=? 0x66)) ||
  ((0x41 <=? b2z c) && (b2z c <=? 0x46)).

Lemma hex2_ok c : Forall (λ d, hex_byte d = true) (hex2 false c).
Proof.
  revert c. refine (every_byte (λ c, Forall (λ d, hex_byte d = true) (hex2 false c)) _).
  vm_compute. reflexivity.
Qed.

(** On bytes that are all ASCII the loop checks byte by byte. *)
Lemma valid_from_ascii i l : Forall (λ c, b2z c < 0x80) l →
  valid_from i (runes l) = true ↔ ∀ j c, l !! j = Some c → is_dash (i + j) = true ∨ hex_byte c = true.
Proof.
  intros Hl. revert i. induction Hl as [|c l Hc Hl IH]; intros i; [done|].
  pose proof (b2z_range c). rewrite <-(z2b_b2z c) at 1. rewrite runes_ascii by lia. cbn [valid_from].
  rewrite andb_true_iff, IH. simpl length.
  split.
  - intros [H1 H2] [|j] c' Hj; simpl in Hj.
    + injection Hj as <-. rewrite Nat.add_0_r. rewrite !orb_true_iff in *. unfold hex_byte.
      rewrite !orb_true_iff. tauto.
    + specialize (H2 j c' Hj). by replace (i + S j)%nat with (i + 1 + j)%nat by lia.
  - intros H1. split.
    + specialize (H1 O c eq_refl). rewrite Nat.add_0_r in H1. unfold hex_byte in H1.
      rewrite !orb_true_iff in *. tauto.
    + intros j c' Hj. specialize (H1 (S j) c' Hj). by replace (i + 1 + j)%nat with (i + S j)%nat by lia.
Qed.

Lemma hex_digits_ok c : hex_byte (hex_digit false (b2z c / 16)) = true ∧
  hex_byte (hex_digit false (b2z c mod 16)) = true.
Proof. pose proof (hex2_ok c) as H. unfold hex2 in H. by repeat (apply Forall_cons in H as [? H]). Qed.

Lemma version_digit c : hex_digit false (b2z (z2b (Z.lor (Z.land (b2z c) 0x0f) 0x40)) / 16) = "4"%char.
Proof. revert c. refine (every_byte _ _). vm_compute. reflexivity. Qed.
Lemma variant_digit c : hex_digit false (b2z (z2b (Z.lor (Z.land (b2z c) 0x3f) 0x80)) / 16) ∈
  ["8"%char; "9"%char; "a"%char; "b"%char].
Proof. revert c. refine (every_byte _ _). vm_compute. reflexivity. Qed.

Lemma hex_byte_ascii c : hex_byte c = true → b2z c < 0x80.
Proof. unfold hex_byte. rewrite !orb_true_iff, !andb_true_iff, !Z.leb_le. lia. Qed.

(** Every generated invocation id is accepted: whatever the sixteen random
    bytes, the id has the form 8-4-4-4-12 of hexadecimal digits, with version 4
    and the RFC 4122 variant. *)
Theorem NewInvocationID_valid b nanos : length b = 16%nat →
  let id := NewInvocationID (Some b) nanos in
  ValidInvocationID id = true ∧ bytes id !! 14%nat = Some "4"%char ∧
  ∃ v, bytes id !! 19%nat = Some v ∧ v ∈ ["8"%char; "9"%char; "a"%char; "b"%char].
Proof.
  intros Hlen id. unfold ValidInvocationID.
  assert (∃ l, bytes id = l ∧ length l = 36%nat ∧ l !! 14%nat = Some "4"%char ∧
    (∃ v, l !! 19%nat = Some v ∧ v ∈ ["8"%char; "9"%char; "a"%char; "b"%char]) ∧
    (∀ j c, l !! j = Some c → is_dash j = true ∧ c = dash ∨ is_dash j = false ∧ hex_byte c = true))
    as (l & -> & Hl & H14 & H19 & Hall).
  { do 16 (destruct b as [|? b]; [done|]). destruct b; [|done].
    unfold id, NewInvocationID. rewrite bytes_str. eexists. split; [reflexivity|].
    split; [reflexivity|]. split; [cbn; f_equal; apply version_digit|].
    split; [cbn; eexists; split; [reflexivity|apply variant_digit]|].
    intros j c Hj. do 36 (destruct j as [|j]; [injection Hj as <-;
      first [left; split; [vm_compute; reflexivity|reflexivity]
            |right; split; [vm_compute; reflexivity|apply hex_digits_ok]]|]).
    done. }
  split; [|done]. rewrite Hl, bool_decide_true by done. cbn [andb].
  rewrite andb_true_iff. split.
  - apply forallb_forall. intros j Hj%list_elem_of_In. apply bool_decide_eq_true.
    assert (j < length l)%nat as [c Hc]%lookup_lt_is_Some_2.
    { rewrite Hl. repeat (apply elem_of_cons in Hj as [->|Hj]; [lia|]). by apply not_elem_of_nil in Hj. }
    destruct (Hall j c Hc) as [[_ ->]|[Hd _]]; [done|].
    unfold is_dash in Hd. by apply bool_decide_eq_false in Hd.
  - apply valid_from_ascii.
    + apply Forall_lookup_2. intros j c Hc. destruct (Hall j c Hc) as [[_ ->]|[_ ?]]; [done|].
      by apply hex_byte_ascii.
    + intros j c Hc. destruct (Hall j c Hc) as [[? _]|[_ ?]]; [by left|by right].
Qed.
Lemma NewInvocationID_valid_witness :
  NewInvocationID (Some (replicate 16 "x"%char)) 0 = "78787878-7878-4878-b878-787878787878" ∧
  ValidInvocationID (NewInvocationID (Some (replicate 16 "x"%char)) 0) = true.
Proof.
  split; [vm_compute; reflexivity|].
  exact (proj1 (NewInvocationID_valid (replicate 16 "x"%char) 0 eq_refl)).
Defined.

End InvocationID.
