(* ===== verification/Notify.v ===== *)
(** * Package notify: the readiness protocol

    Translates [internal/notify/protocol.go]: the payload that a service sends
    over its notify pipe, its parser and printer, and the name of the pipe. *)

From S2P Require Import Prelude GoStrings GoText.
From Stdlib Require Import Ascii.

#[local] Open Scope Z_scope.

Record Message := {
  Ready : bool; Watchdog : bool; Status : string; MainPID : Z; HasPID : bool;
}.
Definition no_message : Message :=
  {| Ready := false; Watchdog := false; Status := ""; MainPID := 0; HasPID := false |}.

(** ** Parsing *)

(** One round of the loop over the lines. *)
Definition parse_line (m : Message) (line : string) : Message :=
  if decide (line = "") then m
  else
    let '(key, val, ok) := Cut line "=" in
    if negb ok then m
    else if decide (key = "READY") then
      if decide (val = "1") then
        {| Ready := true; Watchdog := Watchdog m; Status := Status m; MainPID := MainPID m;
           HasPID := HasPID m |}
      else m
    else if decide (key = "WATCHDOG") then
      if decide (val = "1") then
        {| Ready := Ready m; Watchdog := true; Status := Status m; MainPID := MainPID m;
           HasPID := HasPID m |}
      else m
    else if decide (key = "STATUS") then
      {| Ready := Ready m; Watchdog := Watchdog m; Status := val; MainPID := MainPID m;
         HasPID := HasPID m |}
    else if decide (key = "MAINPID") then
      match Atoi val with
      | Some n =>
        if 0 <? n then
          {| Ready := Ready m; Watchdog := Watchdog m; Status := Status m; MainPID := n;
             HasPID := true |}
        else m
      | None => m
      end
    else m.
Definition Parse (data : string) : Message :=
  foldl parse_line no_message (Split (unix_newlines data) LF).

(** ** Printing *)

Definition Format (m : Message) : string :=
  (if Ready m then "READY=1" +:+ lf else "") +:+
  (if Watchdog m then "WATCHDOG=1" +:+ lf else "") +:+
  (if decide (Status m = "") then "" else "STATUS=" +:+ Status m +:+ lf) +:+
  (if HasPID m || (0 <? MainPID m) then "MAINPID=" +:+ pretty (MainPID m) +:+ lf else "").

Definition WatchdogUsec (d : Z) : string := pretty d.

(** ** The pipe *)

Definition pipePrefix : string := "\\.\pipe\winunitd\notify\".

(** The characters a pipe name or file name must not have. *)
Definition forbidden : list Z := [0x5C; 0x2F; 0x3A; 0x2A; 0x3F; 0x22; 0x3C; 0x3E; 0x7C].
Definition sanitizeUnitID (id : string) : string :=
  let id := TrimSpace id in
  if decide (id = "") then "unknown"
  else str (concat ((λ r, if decide (r ∈ forbidden) then ["_"%char] else encode_rune r)
                      <$> (runes (bytes id)).*1)).
Definition PipeName (unitID : string) : string := pipePrefix +:+ sanitizeUnitID unitID.

(** ** What the printer and the parser promise *)

(** The messages that a payload can carry: the status is one line, and the id of
    the main process is a Go [int]. *)
Record sendable (m : Message) : Prop := {
  s_status : LF ∉ bytes (Status m) ∧ CR ∉ bytes (Status m);
  s_range : - 2 ^ 63 <= MainPID m < 2 ^ 63;
}.

(** What the receiver makes of a message: a process id counts if it is positive. *)
Definition received (m : Message) : Message :=
  {| Ready := Ready m; Watchdog := Watchdog m; Status := Status m;
     MainPID := if 0 <? MainPID m then MainPID m else 0; HasPID := 0 <? MainPID m |}.

Lemma cut_field (key val : string) : "="%char ∉ bytes key → Cut (key +:+ "=" +:+ val) "=" = (key, val, true).
Proof.
  intros Hk. unfold Cut. rewrite !bytes_app.
  change (bytes "=") with ["="%char]. cbn [app]. rewrite cut_go_single by done.
  cbn [app]. by rewrite !str_bytes.
Qed.

(** The lines of a payload. *)
Definition format_lines (m : Message) : list string :=
  (if Ready m then ["READY=1"] else []) ++ (if Watchdog m then ["WATCHDOG=1"] else []) ++
  (if decide (Status m = "") then [] else ["STATUS=" +:+ Status m]) ++
  (if HasPID m || (0 <? MainPID m) then ["MAINPID=" +:+ pretty (MainPID m)] else []).

Lemma Format_lines m : Format m = str (concat ((λ s, bytes s ++ [LF]) <$> format_lines m)).
Proof.
  apply (inj bytes). rewrite bytes_str. unfold Format, format_lines.
  rewrite !fmap_app, !concat_app, !bytes_app.
  f_equal; [by destruct (Ready m)|]. f_equal; [by destruct (Watchdog m)|]. f_equal.
  - destruct (decide (Status m = "")); [done|].
    rewrite !fmap_cons, fmap_nil. cbn [concat]. by rewrite !bytes_app, app_nil_r, <-app_assoc.
  - destruct (HasPID m || _); [|done].
    rewrite !fmap_cons, fmap_nil. cbn [concat]. by rewrite !bytes_app, app_nil_r, <-app_assoc.
Qed.

Lemma pretty_one_line (n : Z) : LF ∉ bytes (pretty n) ∧ CR ∉ bytes (pretty n).
Proof. split; intros [?|(_ & _ & ? & ?)%digit_not_sign]%pretty_bytes; done. Qed.

Lemma format_lines_clean m : sendable m →
  Forall (λ s, LF ∉ bytes s ∧ CR ∉ bytes s) (format_lines m).
Proof.
  intros [[Hs1 Hs2] _]. unfold format_lines. rewrite !Forall_app. split_and!.
  - destruct (Ready m); repeat constructor; apply (bool_decide_unpack _); by vm_compute.
  - destruct (Watchdog m); repeat constructor; apply (bool_decide_unpack _); by vm_compute.
  - destruct (decide (Status m = "")); [constructor|]. apply Forall_singleton. rewrite !bytes_app.
    split; intros [H|H]%elem_of_app; try done; revert H; apply (bool_decide_unpack _); by vm_compute.
  - destruct (HasPID m || _); [|constructor].
    apply Forall_singleton. rewrite !bytes_app. destruct (pretty_one_line (MainPID m)) as [Hn1 Hn2].
    split; intros [H|H]%elem_of_app; try done; revert H; apply (bool_decide_unpack _); by vm_compute.
Qed.

Lemma parse_field m (key val : string) : "="%char ∉ bytes key →
  parse_line m (key +:+ "=" +:+ val) =
    if decide (key = "READY") then
      if decide (val = "1") then
        {| Ready := true; Watchdog := Watchdog m; Status := Status m; MainPID := MainPID m;
           HasPID := HasPID m |}
      else m
    else if decide (key = "WATCHDOG") then
      if decide (val = "1") then
        {| Ready := Ready m; Watchdog := true; Status := Status m; MainPID := MainPID m;
           HasPID := HasPID m |}
      else m
    else if decide (key = "STATUS") then
      {| Ready := Ready m; Watchdog := Watchdog m; Status := val; MainPID := MainPID m;
         HasPID := HasPID m |}
    else if decide (key = "MAINPID") then
      match Atoi val with
      | Some n =>
        if 0 <? n then
          {| Ready := Ready m; Watchdog := Watchdog m; Status := Status m; MainPID := n;
             HasPID := true |}
        else m
      | None => m
      end
    else m.
Proof.
  intros Hk. unfold parse_line. rewrite decide_False, cut_field by (done || by destruct key). done.
Qed.

Lemma Parse_Format_received m : sendable m → Parse (Format m) = received m.
Proof.
  intros Hm. pose proof (format_lines_clean m Hm) as Hall.
  unfold Parse. rewrite Format_lines, unix_newlines_id, Split_lines.
  - rewrite foldl_app. cbn [foldl]. unfold parse_line at 1. rewrite decide_True by done.
    destruct m as [r w st pid has], Hm as [_ Hr]. unfold format_lines, received. simpl in *.
    rewrite !foldl_app.
    replace (foldl parse_line no_message (if r then ["READY=1"] else [])) with
      {| Ready := r; Watchdog := false; Status := ""; MainPID := 0; HasPID := false |}
      by (by destruct r).
    replace (foldl parse_line _ (if w then ["WATCHDOG=1"] else [])) with
      {| Ready := r; Watchdog := w; Status := ""; MainPID := 0; HasPID := false |}
      by (by destruct w).
    replace (foldl parse_line _ (if decide (st = "") then [] else ["STATUS=" +:+ st])) with
      {| Ready := r; Watchdog := w; Status := st; MainPID := 0; HasPID := false |}.
    2:{ destruct (decide (st = "")) as [->|]; [done|]. cbn [foldl].
        change ("STATUS=" +:+ st) with ("STATUS" +:+ "=" +:+ st). rewrite parse_field; [done|].
        apply (bool_decide_unpack _). by vm_compute. }
    destruct (has || (0 <? pid)) eqn:Eh; cbn [foldl].
    + change ("MAINPID=" +:+ pretty pid) with ("MAINPID" +:+ "=" +:+ pretty pid).
      rewrite parse_field by (apply (bool_decide_unpack _); by vm_compute).
      cbn. rewrite Atoi_pretty by lia. by destruct (0 <? pid).
    + apply orb_false_iff in Eh as [_ ->]. done.
  - eapply Forall_impl; [exact Hall|]. by intros s [? _].
  - rewrite bytes_str. intros (x & Hx & (s & -> & Hs)%list_elem_of_fmap)%elem_of_concat.
    rewrite Forall_forall in Hall. destruct (Hall s Hs) as [_ Hcr].
    apply elem_of_app in Hx as [?|Hx]; [done|]. apply list_elem_of_singleton in Hx. by vm_compute in Hx.
Qed.

(** C37: The printed form of a message is read back.  A message whose status is
    a single line, with no LF or CR in it, and whose main process id is any 64-bit
    [int], is parsed back with the same readiness, watchdog and status, and with the
    process id if it is positive; otherwise no id is set, also when the sender set
    [HasPID].  So a message that sets [HasPID] exactly for a positive id, and gives 0
    else, is read back unchanged. *)
Theorem Parse_Format m : sendable m →
  Parse (Format m) = received m ∧
  (HasPID m = (0 <? MainPID m) → 0 <= MainPID m → Parse (Format m) = m).
Proof.
  intros Hm. split; [by apply Parse_Format_received|]. intros Hp H0. rewrite Parse_Format_received by done.
  destruct m as [r w st pid has]. unfold received. simpl in *. subst has. f_equal. destruct (Z.ltb_spec 0 pid); lia.
Qed.

Definition sample_message : Message :=
  {| Ready := true; Watchdog := false; Status := "serving 3 clients"; MainPID := 4242; HasPID := true |}.
Lemma Parse_Format_witness :
  bytes (Format sample_message) =
    bytes ("READY=1" +:+ lf +:+ "STATUS=serving 3 clients" +:+ lf +:+ "MAINPID=4242" +:+ lf) ∧
  Parse (Format sample_message) = sample_message.
Proof.
  split; [vm_compute; reflexivity|]. apply (Parse_Format sample_message).
  - split; [split; apply (bool_decide_unpack _); vm_compute; exact I|]. split; [vm_compute; discriminate|reflexivity].
  - reflexivity.
  - vm_compute. discriminate.
Defined.

(** The part of a pipe name after the prefix is one component. *)
Lemma sanitizeUnitID_clean id z : z ∈ forbidden → z2b z ∉ bytes (sanitizeUnitID id).
Proof.
  intros Hz. unfold sanitizeUnitID. destruct (decide (TrimSpace id = "")).
  { intros H. revert z Hz H. apply (Forall_forall (λ z, z2b z ∉ bytes "unknown")).
    apply (bool_decide_unpack _). by vm_compute. }
  rewrite bytes_str.
  assert (0 ≤ z < 0x80) as Hr.
  { revert z Hz. apply (Forall_forall (λ z, 0 ≤ z < 0x80)). repeat constructor; lia. }
  intros (x & Hx & (r & -> & Hin)%list_elem_of_fmap)%elem_of_concat.
  destruct (decide (r ∈ forbidden)) as [|Hf].
  - apply list_elem_of_singleton in Hx. revert z Hz Hr Hx.
    apply (Forall_forall (λ z, 0 ≤ z < 128 → z2b z = "_"%char → False)).
    repeat constructor; intros _ H; by vm_compute in H.
  - apply Hf. assert (scalar r) as Hs.
    { apply list_elem_of_fmap in Hin as (p & -> & Hp).
      pose proof (runes_scalar (bytes (TrimSpace id))) as Hsc. rewrite Forall_forall in Hsc. by apply Hsc. }
    pose proof (runes_encode_rune r [] Hs) as He. rewrite app_nil_r in He.
    apply (runes_ascii_byte (encode_rune r) z Hr) in Hx. rewrite He in Hx. csimpl in Hx.
    apply list_elem_of_singleton in Hx. by subst.
Qed.

(** ** The environment block: [internal/notify/env.go] *)

Definition EnvNotifyPipe : string := "WINUNIT_NOTIFY_PIPE".
Definition EnvWatchdogUsec : string := "WINUNIT_WATCHDOG_USEC".

Definition equalFoldASCII (a b : string) : bool :=
  bool_decide (length (bytes a) = length (bytes b)) && EqualFold a b.

(** Whether [setEnv] replaces the entry [e]. *)
Definition set_matches (e key : string) : bool :=
  let n := length (bytes key) in
  bool_decide (n + 1 <= length (bytes e))%nat && equalFoldASCII (prefix_to e n) key &&
  (bool_decide (length (bytes e) = n) || bool_decide (bytes e !! n = Some "="%char)).
Fixpoint set_first (env : list string) (key kv : string) : option (list string) :=
  match env with
  | [] => None
  | e :: env' =>
    if set_matches e key then Some (kv :: env')
    else match set_first env' key kv with Some env' => Some (e :: env') | None => None end
  end.
Definition setEnv (env : list string) (key value : string) : list string :=
  let kv := key +:+ "=" +:+ value in
  match set_first env key kv with Some env' => env' | None => env ++ [kv] end.

Definition Inject (env : list string) (pipe : string) (watchdog : Z) : list string :=
  if decide (pipe = "") then env
  else
    let env := setEnv env EnvNotifyPipe pipe in
    if 0 <? watchdog then setEnv env EnvWatchdogUsec (WatchdogUsec (Z.quot watchdog 1000)) else env.

Fixpoint LookupEnv (env : list string) (key : string) : string * bool :=
  match env with
  | [] => ("", false)
  | e :: env' =>
    let '(k, v, ok) := Cut e "=" in
    if ok && EqualFold k key then (v, true) else LookupEnv env' key
  end.

Definition ascii_only (s : string) : Prop := Forall (λ c, b2z c < 0x80) (bytes s).

(** A variable name: ASCII without an equals sign. *)
Record env_key (key : string) : Prop := {
  e_ascii : ascii_only key;
  e_plain : "="%char ∉ bytes key;
}.

Lemma runes_of_ascii l : Forall (λ c, b2z c < 0x80) l → (runes l).*1 = b2z <$> l.
Proof.
  induction 1 as [|c l Hc _ IH]; [done|]. pose proof (b2z_range c).
  rewrite <-(z2b_b2z c) at 1. rewrite runes_ascii by lia. csimpl. by rewrite IH.
Qed.
Lemma fold_ascii l : Forall (λ c, b2z c < 0x80) l → fold_rune <$> (runes l).*1 = (ascii_lower ∘ b2z) <$> l.
Proof.
  intros Hl. rewrite runes_of_ascii, <-list_fmap_compose by done. apply Forall_fmap_ext_1.
  eapply Forall_impl; [exact Hl|]. intros c Hc. simpl in *. unfold fold_rune.
  by rewrite (proj2 (Z.eqb_neq _ _)), (proj2 (Z.eqb_neq _ _)), (proj2 (Z.ltb_lt _ _)) by lia.
Qed.
Lemma EqualFold_ascii s t : ascii_only s →
  EqualFold s t = bool_decide ((ascii_lower ∘ b2z) <$> bytes s = (ascii_lower ∘ b2z) <$> bytes t).
Proof. intros Hs. unfold EqualFold. by rewrite fold_ascii. Qed.

Lemma lower_equals c : ascii_lower (b2z c) = 0x3D → c = "="%char.
Proof. revert c. refine (every_byte _ _). vm_compute. reflexivity. Qed.

(** On ASCII entries [setEnv] and [LookupEnv] agree on which entry holds a variable. *)
Lemma set_matches_lookup e key : ascii_only e → env_key key →
  set_matches e key = let '(k, _, ok) := Cut e "=" in ok && EqualFold k key.
Proof.
  intros He [Hk1 Hk2]. unfold set_matches, equalFoldASCII, Cut.
  change (bytes "=") with ["="%char].
  destruct (split_at_first "="%char (bytes e)) as [Hno|(l1 & l2 & Hb & Hl1)].
  { rewrite cut_go_none by done. cbn [andb]. apply not_true_iff_false. intros Ht.
    rewrite !andb_true_iff, orb_true_iff, !bool_decide_eq_true in Ht.
    destruct Ht as [[Hlen _] [Heq|Heq]]; [lia|]. by apply list_elem_of_lookup_2 in Heq. }
  rewrite Hb, cut_go_single by done. cbn [app andb].
  unfold ascii_only in *. rewrite Hb in He. apply Forall_app in He as [He1 He2].
  unfold prefix_to. rewrite Hb.
  rewrite (EqualFold_ascii (str l1)) by (unfold ascii_only; by rewrite bytes_str).
  rewrite EqualFold_ascii.
  2:{ unfold ascii_only. rewrite bytes_str. apply Forall_take. apply Forall_app. done. }
  rewrite !bytes_str. set (n := length (bytes key)).
  apply eq_bool_prop_intro. rewrite !Is_true_true, !andb_true_iff, orb_true_iff, !bool_decide_eq_true.
  rewrite length_app. cbn [length]. split.
  - intros [[Hlen [_ Hfold]] [Heq|Heq]]; [lia|].
    destruct (lt_eq_lt_dec n (length l1)) as [[Hlt|Heq']|Hgt].
    + rewrite lookup_app_l in Heq by done. by apply list_elem_of_lookup_2 in Heq.
    + by rewrite Heq', take_app_length in Hfold.
    + exfalso. apply Hk2. apply (f_equal (λ x, x !! length l1)) in Hfold.
      rewrite !list_lookup_fmap, lookup_take_lt, list_lookup_middle in Hfold by done.
      destruct (bytes key !! length l1) as [c|] eqn:Ec; [|done].
      apply list_elem_of_lookup_2 in Ec. simpl in Hfold. injection Hfold as Hc.
      symmetry in Hc. apply lower_equals in Hc. by subst.
  - intros Hfold. pose proof (f_equal length Hfold) as Hlen. rewrite !length_fmap in Hlen.
    fold n in Hlen. rewrite <-Hlen, take_app_length, list_lookup_middle by done.
    split_and!; [lia|done|done|by right].
Qed.

Lemma Cut_kv key value : env_key key → Cut (key +:+ "=" +:+ value) "=" = (key, value, true).
Proof. intros [_ Hk]. by apply cut_field. Qed.
Lemma EqualFold_refl key : env_key key → EqualFold key key = true.
Proof. intros [Hk _]. rewrite EqualFold_ascii by done. by apply bool_decide_true. Qed.

Lemma LookupEnv_set env key value : Forall ascii_only env → env_key key →
  LookupEnv (setEnv env key value) key = (value, true).
Proof.
  intros Henv Hk. unfold setEnv. induction Henv as [|e env He _ IH]; simpl.
  { by rewrite Cut_kv, EqualFold_refl. }
  rewrite (set_matches_lookup e key) by done. destruct (Cut e "=") as [[k v] ok] eqn:Ec.
  destruct (ok && EqualFold k key) eqn:Em; [simpl; by rewrite Cut_kv, EqualFold_refl|].
  destruct (set_first env key _); simpl; by rewrite Ec, Em.
Qed.

(** Setting a variable leaves the others alone. *)
Lemma LookupEnv_other env key value key' : Forall ascii_only env → env_key key → env_key key' →
  EqualFold key key' = false →
  LookupEnv (setEnv env key value) key' = LookupEnv env key'.
Proof.
  intros Henv Hk Hk' Hne. unfold setEnv. induction Henv as [|e env He _ IH]; simpl.
  { by rewrite Cut_kv, Hne. }
  pose proof (set_matches_lookup e key He Hk) as Hm. destruct (Cut e "=") as [[k v] ok] eqn:Ec.
  rewrite Hm. destruct (ok && EqualFold k key) eqn:Em.
  - simpl. rewrite Cut_kv, Hne by done. cbn [andb].
    apply andb_true_iff in Em as [-> Ek].
    replace (EqualFold k key') with false; [done|]. symmetry. apply not_true_iff_false. intros Ek'.
    unfold EqualFold in *. apply bool_decide_eq_true in Ek, Ek'. apply bool_decide_eq_false in Hne.
    apply Hne. rewrite fold_ascii by apply Hk. congruence.
  - destruct (set_first env key _); simpl; rewrite Ec; by destruct (ok && EqualFold k key').
Qed.

Lemma set_first_ascii env key kv env' : set_first env key kv = Some env' → Forall ascii_only env →
  ascii_only kv → Forall ascii_only env'.
Proof.
  revert env'. induction env as [|e env IH]; intros env' Hs Henv Hkv; simpl in Hs; [done|].
  inversion Henv; subst. destruct (set_matches e key); [injection Hs as <-; by constructor|].
  destruct (set_first env key kv) as [x|]; [|done]. injection Hs as <-. constructor; [done|].
  by apply IH.
Qed.
Lemma setEnv_ascii env key value : Forall ascii_only env → env_key key → ascii_only value →
  Forall ascii_only (setEnv env key value).
Proof.
  intros Henv [Hk _] Hv. assert (ascii_only (key +:+ "=" +:+ value)) as Hkv.
  { unfold ascii_only in *. rewrite !bytes_app, !Forall_app. split_and!; [done| |done].
    by repeat constructor. }
  unfold setEnv. destruct (set_first env key _) as [env'|] eqn:E; [by eapply set_first_ascii|].
  apply Forall_app. split; [done|]. by apply Forall_singleton.
Qed.

Lemma notify_keys : env_key EnvNotifyPipe ∧ env_key EnvWatchdogUsec.
Proof.
  split; split.
  - unfold ascii_only. apply (bool_decide_unpack _). by vm_compute.
  - apply (bool_decide_unpack _). by vm_compute.
  - unfold ascii_only. apply (bool_decide_unpack _). by vm_compute.
  - apply (bool_decide_unpack _). by vm_compute.
Qed.

(** A service finds its notify endpoint: after [Inject] the variables hold
    the pipe and, with a watchdog, its interval in microseconds, whatever the
    environment held under these names before, in any case; without a watchdog
    its variable is left alone. *)
Theorem Inject_LookupEnv env pipe watchdog : Forall ascii_only env → ascii_only pipe → pipe ≠ "" →
  LookupEnv (Inject env pipe watchdog) EnvNotifyPipe = (pipe, true) ∧
  LookupEnv (Inject env pipe watchdog) EnvWatchdogUsec =
    if 0 <? watchdog then (pretty (Z.quot watchdog 1000), true) else LookupEnv env EnvWatchdogUsec.
Proof.
  intros Henv Hp Hne. destruct notify_keys as [K1 K2]. unfold Inject. rewrite decide_False by done.
  pose proof (setEnv_ascii env _ pipe Henv K1 Hp) as Henv1.
  destruct (0 <? watchdog).
  - rewrite LookupEnv_set by done. rewrite LookupEnv_other by (done || by vm_compute).
    by rewrite LookupEnv_set.
  - rewrite LookupEnv_set by done. by rewrite LookupEnv_other by (done || by vm_compute).
Qed.
Lemma Inject_LookupEnv_witness :
  LookupEnv (Inject ["PATH=x"; "winunit_notify_pipe=old"] "p" 5000000) EnvNotifyPipe = ("p", true) ∧
  LookupEnv (Inject ["PATH=x"; "winunit_notify_pipe=old"] "p" 5000000) EnvWatchdogUsec = ("5000", true).
Proof.
  apply (Inject_LookupEnv ["PATH=x"; "winunit_notify_pipe=old"] "p" 5000000).
  - unfold ascii_only. apply (bool_decide_unpack _). vm_compute. exact I.
  - unfold ascii_only. apply (bool_decide_unpack _). vm_compute. exact I.
  - discriminate.
Defined.
