(* ===== verification/CalendarSearch.v ===== *)
(** * Package timers: the search for calendar instants

    Translates the search half of [internal/timers/calendar.go]: [Next] and
    [Previous] jump over civil dates and map each onto an instant of the zone,
    with the treatment of wall clocks that do not exist or exist twice.

    The result [None] stands for a loop that has not ended after [2 ^ 32]
    rounds; zero is Go's zero time, for no match. *)

From S2P Require Import Prelude GoStrings GoText GoTime Calendar.

#[local] Open Scope Z_scope.

(** ** Wall clocks *)

Definition maxSearchYears : Z := 8.
Definition rounds : nat := 32.

Section search.
Variable loc : Location.

(** One round of the loop of [firstOccurrence]; [x], [h], [mi] and [s] are the
    date and the clock of the instant it started from. *)
Definition earlier_occurrence (x : date) (h mi s : Z) (t : Z) : Z + Z :=
  let start := zone_bound loc t in
  if IsZero start then inr t
  else
    let previous := offset (lookup loc (unix (start - 1))) in
    let fold := previous - offset (lookup loc (unix t)) in
    if fold <=? 0 then inr t
    else
      let earlier := t - fold * second in
      if negb (bool_decide (date_of loc earlier = x)) then inr t
      else if negb (Hour loc earlier =? h) || negb (Minute loc earlier =? mi) ||
              negb (Second loc earlier =? s) then inr t
      else inl earlier.
Definition firstOccurrence (t : Z) : option Z :=
  loop rounds (earlier_occurrence (date_of loc t) (Hour loc t) (Minute loc t) (Second loc t)) t.

(** The search of [firstValidAfterGap] from second [sod] of the day on. *)
Fixpoint valid_after (k : nat) (y m d sod : Z) : option Z :=
  match k with
  | O => Some zero_time
  | S k =>
    let h := sod / 3600 in
    let mi := sod / 60 mod 60 in
    let s := sod mod 60 in
    let t := Date loc y m d h mi s 0 in
    if bool_decide (date_of loc t = {| year := y; month := m; day := d |}) &&
       (Hour loc t =? h) && (Minute loc t =? mi) && (Second loc t =? s)
    then firstOccurrence t
    else valid_after k y m d (sod + 1)
  end.
Definition firstValidAfterGap (y m d hour min sec : Z) : option Z :=
  let start := hour * 3600 + min * 60 + sec in
  valid_after (Z.to_nat (24 * 3600 - start)) y m d start.

Variable c : Calendar.

Definition wallOK (t : Z) : bool :=
  negb (IsZero t) && (Hour loc t =? CHour c) && (Minute loc t =? CMinute c) &&
  (Second loc t =? CSecond c).

Definition wallTimeOn (y m d : Z) : option Z :=
  let cand := Date loc y m d (CHour c) (CMinute c) (CSecond c) 0 in
  if negb (bool_decide (date_of loc cand = {| year := y; month := m; day := d |}))
  then Some zero_time
  else if wallOK cand then firstOccurrence cand
  else firstValidAfterGap y m d (CHour c) (CMinute c) (CSecond c).

(** ** Civil dates *)

Definition civilAt (y m d : Z) : Z :=
  let t := Date loc y m d 0 0 0 0 in
  if negb (bool_decide (date_of loc t = {| year := y; month := m; day := d |})) then zero_time else t.

Definition addMonths (y m delta : Z) : Z * Z :=
  let n := y * 12 + m - 1 + delta in
  if n <? 0 then (0, 1) else (Z.quot n 12, Z.rem n 12 + 1).

Definition monthEnd (y m : Z) : Z :=
  let t := Date loc y (m + 1) 0 0 0 0 0 in
  if negb (month (date_of loc t) =? m) then zero_time else t.

Definition matches_date (x : date) : bool :=
  (negb (0 <=? Year c) || (year x =? Year c)) &&
  (negb (0 <=? Month c) || (month x =? Month c)) &&
  (negb (0 <=? Day c) || (day x =? Day c)).
Definition dateMatches (t : Z) : bool := matches_date (date_of loc t).

Definition boundDay (end_ : bool) : Z :=
  if (Year c <? 0) && (Month c <? 0) && (Day c <? 0) then zero_time
  else
    let y := if 0 <=? Year c then Year c else if end_ then 9999 else 1 in
    let m := if 0 <=? Month c then Month c else if end_ then 12 else 1 in
    let d := if 0 <=? Day c then Day c else if end_ then 31 else 1 in
    let t := Date loc y m d 0 0 0 0 in
    if negb (dateMatches t) then zero_time else t.

Definition towards (backward : bool) : Z := if backward then -1 else 1.
(** Whether [t] is on the wanted side of [start], itself included. *)
Definition reaches (backward : bool) (start t : Z) : bool :=
  if backward then t <=? start else start <=? t.

(** The loop over years of [alignCivil]. *)
Fixpoint align_years (k : nat) (start : Z) (backward : bool) (y : Z) : Z :=
  match k with
  | O => zero_time
  | S k =>
    if (0 <=? Year c) && negb (y =? Year c) then zero_time
    else
      let t := civilAt y (Month c) (Day c) in
      if negb (IsZero t) && reaches backward start t then t
      else if 0 <=? Year c then zero_time
      else align_years k start backward (y + towards backward)
  end.
(** The loop over months of [alignCivil]. *)
Fixpoint align_months (k : nat) (start : Z) (backward : bool) (y m : Z) : Z :=
  match k with
  | O => zero_time
  | S k =>
    if (0 <=? Year c) && negb (y =? Year c) then zero_time
    else
      let '(y', m') := addMonths y m (towards backward) in
      if (0 <=? Month c) && negb (m =? Month c) then align_months k start backward y' m'
      else
        let t := civilAt y m (Day c) in
        if negb (IsZero t) && reaches backward start t then t
        else align_months k start backward y' m'
  end.

Definition alignCivil (start : Z) (backward : bool) : Z :=
  if dateMatches start then start
  else
    let x := date_of loc start in
    let '(y, m, d) := (year x, month x, day x) in
    if (0 <=? Month c) && (0 <=? Day c) then
      align_years (Z.to_nat (maxSearchYears + 4)) start backward
        (if 0 <=? Year c then Year c else y)
    else if 0 <=? Day c then
      let '(yr, mo, d) :=
        if 0 <=? Year c then
          if negb backward && (y <? Year c) then (Year c, 1, 0)
          else if backward && (Year c <? y) then (Year c, 12, 32)
          else (Year c, m, d)
        else (y, m, d) in
      let '(yr, mo) := if negb backward && (Day c <? d) then addMonths yr mo 1 else (yr, mo) in
      let '(yr, mo) := if backward && (d <? Day c) then addMonths yr mo (-1) else (yr, mo) in
      align_months (Z.to_nat (12 * (maxSearchYears + 2))) start backward yr mo
    else if 0 <=? Month c then
      let yr := if 0 <=? Year c then Year c else y in
      if negb backward then
        if (y <? yr) || ((y =? yr) && (m <? Month c)) then civilAt yr (Month c) 1
        else if (y =? yr) && (m =? Month c) then start
        else if 0 <=? Year c then zero_time
        else civilAt (y + 1) (Month c) 1
      else
        if (yr <? y) || ((y =? yr) && (Month c <? m)) then monthEnd yr (Month c)
        else if (y =? yr) && (m =? Month c) then start
        else if 0 <=? Year c then zero_time
        else monthEnd (y - 1) (Month c)
    else start.

(** The loops of [nextCivil] over years and over months. *)
Fixpoint next_years (k : nat) (backward : bool) (y : Z) : Z :=
  match k with
  | O => zero_time
  | S k =>
    let y := y + towards backward in
    if (0 <=? Year c) && negb (y =? Year c) then zero_time
    else
      let t := civilAt y (Month c) (Day c) in
      if negb (IsZero t) then t else next_years k backward y
  end.
Fixpoint next_months (k : nat) (backward : bool) (y m : Z) : Z :=
  match k with
  | O => zero_time
  | S k =>
    let '(y, m) := addMonths y m (towards backward) in
    if (0 <=? Year c) && negb (y =? Year c) then zero_time
    else if (0 <=? Month c) && negb (m =? Month c) then next_months k backward y m
    else
      let t := civilAt y m (Day c) in
      if negb (IsZero t) then t else next_months k backward y m
  end.

Definition nextCivil (t : Z) (backward : bool) : Z :=
  let x := date_of loc t in
  let '(y, m) := (year x, month x) in
  if (0 <=? Month c) && (0 <=? Day c) then next_years (Z.to_nat (maxSearchYears + 4)) backward y
  else if 0 <=? Day c then next_months (Z.to_nat (12 * (maxSearchYears + 2))) backward y m
  else if 0 <=? Month c then
    let next := AddDate loc t 0 0 (towards backward) in
    if dateMatches next then next
    else
      let y := y + towards backward in
      if (0 <=? Year c) && negb (y =? Year c) then zero_time
      else if backward then monthEnd y (Month c)
      else civilAt y (Month c) 1
  else AddDate loc t 0 0 (towards backward).

(** ** The search *)

(** Whether [t] is strictly on the wanted side of [from]. *)
Definition beyond (backward : bool) (from t : Z) : bool :=
  if backward then t <? from else from <? t.

Definition accept (from : Z) (backward : bool) (cand : Z) : bool :=
  negb (IsZero cand) && AllowsWeekday c (Weekday loc cand) && beyond backward from cand.

(** One round of the loop over civil dates; the inner [None] is a wall clock
    whose search does not end. *)
Definition search_round (from horizon : Z) (backward : bool) (t : Z) : Z + option Z :=
  if IsZero t then inr (Some zero_time)
  else if beyond backward horizon t then inr (Some zero_time)
  else
    let x := date_of loc t in
    if (0 <=? Year c) && (if backward then year x <? Year c else Year c <? year x)
    then inr (Some zero_time)
    else
      if dateMatches t then
        match wallTimeOn (year x) (month x) (day x) with
        | None => inr None
        | Some cand =>
          if accept from backward cand then inr (Some cand) else inl (nextCivil t backward)
        end
      else inl (nextCivil t backward).

(** Where the loop starts, unless the year rules out every match. *)
Definition search_start (from : Z) (backward : bool) : option Z :=
  let x := date_of loc from in
  let start := Date loc (year x) (month x) (day x) 0 0 0 0 in
  let bound := boundDay backward in
  let start := if negb (IsZero bound) && beyond backward start bound then bound else start in
  if (0 <=? Year c) &&
     (if backward then year (date_of loc start) <? Year c else Year c <? year (date_of loc start))
  then None else Some start.

Definition search (from : Z) (backward : bool) : option Z :=
  if (0 <=? Year c) && (0 <=? Month c) && (0 <=? Day c) then
    match wallTimeOn (Year c) (Month c) (Day c) with
    | None => None
    | Some cand => Some (if accept from backward cand then cand else zero_time)
    end
  else
    match search_start from backward with
    | None => Some zero_time
    | Some start =>
      let horizon := AddDate loc start (maxSearchYears * towards backward) 0 (2 * towards backward) in
      match loop rounds (search_round from horizon backward) (alignCivil start backward) with
      | Some r => r
      | None => None
      end
    end.

Definition Next (after : Z) : option Z := search after false.
Definition Previous (before : Z) : option Z := search before true.

End search.
