(* ===== verification/CalendarSpec.v ===== *)
(** * Calendar expressions: what parsing and searching guarantee

    The parser accepts only well-formed expressions, and in every time zone an
    instant that the search returns matches the expression. *)

From S2P Require Import Prelude GoStrings GoText GoTime Calendar CalendarSearch.
From Stdlib Require Import Ascii.

#[local] Open Scope Z_scope.

(** ** Well-formed expressions *)

Definition in_range (n lo hi : Z) : Prop := n = -1 ∨ lo <= n <= hi.

Record well_formed (c : Calendar) : Prop := {
  wf_year : in_range (Year c) 1 9999;
  wf_month : in_range (Month c) 1 12;
  wf_day : in_range (Day c) 1 31;
  wf_hour : 0 <= CHour c <= 23;
  wf_minute : 0 <= CMinute c <= 59;
  wf_second : 0 <= CSecond c <= 59;
  wf_weekdays : length (Weekdays c) = 7%nat;
  wf_restricted : RestrictWeekdays c = true → ∃ d, 0 <= d < 7 ∧ AllowsWeekday c d = true;
}.

Lemma parseBounded_range s lo hi n : parseBounded s lo hi = Some n → lo <= n <= hi.
Proof.
  unfold parseBounded. destruct (decide _); [done|]. destruct (forallb _ _); [|done].
  destruct (Atoi s) as [k|]; [|done]. destruct ((k <? lo) || (hi <? k)) eqn:E; [done|].
  intros [= <-]. apply orb_false_iff in E as [?%Z.ltb_ge ?%Z.ltb_ge]. done.
Qed.
Lemma parseWildcardInt_range s lo hi n : parseWildcardInt s lo hi = Some n → in_range n lo hi.
Proof.
  unfold parseWildcardInt. destruct (decide _); [intros [= <-]; by left|].
  intros H. right. by apply parseBounded_range in H.
Qed.

Lemma parseTimeOfDay_range s h m sec : parseTimeOfDay s = Ok (h, m, sec) →
  0 <= h <= 23 ∧ 0 <= m <= 59 ∧ 0 <= sec <= 59.
Proof.
  unfold parseTimeOfDay. destruct (Split s colon) as [|a [|b rest]]; try done.
  destruct (decide _); [|done].
  destruct (parseBounded a 0 23) as [h'|] eqn:Eh; [|done].
  destruct (parseBounded b 0 59) as [m'|] eqn:Em; [|done].
  apply parseBounded_range in Eh, Em.
  destruct rest as [|x rest]; [intros [= <- <- <-]; lia|].
  destruct (parseBounded x 0 59) as [s'|] eqn:Es; [|done]. apply parseBounded_range in Es.
  intros [= <- <- <-]. lia.
Qed.
Lemma parseDatePattern_range s y m d : parseDatePattern s = Ok (y, m, d) →
  in_range y 1 9999 ∧ in_range m 1 12 ∧ in_range d 1 31.
Proof.
  unfold parseDatePattern. destruct (Split s hyphen) as [|a [|b [|x [|]]]]; try done.
  destruct (parseWildcardInt a 1 9999) as [y'|] eqn:Ey; [|done].
  destruct (parseWildcardInt b 1 12) as [m'|] eqn:Em; [|done].
  destruct (parseWildcardInt x 1 31) as [d'|] eqn:Ed; [|done].
  apply parseWildcardInt_range in Ey, Em, Ed. by intros [= <- <- <-].
Qed.

Section weekdays.
Context {UC : UnicodeCase}.

Definition is_weekday (d : Z) : Prop := 0 <= d < 7.

Lemma weekdayName_range s d : weekdayName s = Some d → is_weekday d.
Proof.
  unfold weekdayName, is_weekday. intros H.
  repeat (destruct (decide _) in H; [injection H as <-; lia|]). done.
Qed.

Lemma elem_of_add_day days d x : x ∈ add_day days d ↔ x ∈ days ∨ x = d.
Proof.
  unfold add_day. destruct (decide (d ∈ days)); [naive_solver|].
  by rewrite elem_of_app, list_elem_of_singleton.
Qed.

(** A range of weekdays is the days from its first to its last through the week. *)
Lemma add_range_spec k days a b x : is_weekday a → is_weekday b → (b - a) mod 7 <= Z.of_nat k →
  x ∈ add_range k days a b ↔ x ∈ days ∨ is_weekday x ∧ (x - a) mod 7 <= (b - a) mod 7.
Proof.
  revert days a. unfold is_weekday. induction k as [|k IH]; intros days a Ha Hb Hk; cbn [add_range].
  - destruct (Z.eqb_spec a b) as [->|Hne]; [|zdiv]. rewrite elem_of_add_day.
    assert (x = b ↔ 0 <= x < 7 ∧ (x - b) mod 7 <= (b - b) mod 7) as -> by zdiv. done.
  - destruct (Z.eqb_spec a b) as [->|Hne].
    + rewrite elem_of_add_day.
      assert (x = b ↔ 0 <= x < 7 ∧ (x - b) mod 7 <= (b - b) mod 7) as -> by zdiv. done.
    + assert ((b - (a + 1) mod 7) mod 7 = (b - a) mod 7 - 1) as Eb by zdiv.
      rewrite IH by (done || zdiv). rewrite elem_of_add_day, Eb.
      assert (x = a ∨ 0 <= x < 7 ∧ (x - (a + 1) mod 7) mod 7 <= (b - a) mod 7 - 1 ↔
              0 <= x < 7 ∧ (x - a) mod 7 <= (b - a) mod 7); [|tauto].
      clear IH Eb. split; zdiv.
Qed.

Lemma parse_parts_ok parts days r : parse_parts parts days = Ok r → Forall is_weekday days →
  Forall is_weekday r.
Proof.
  revert days. induction parts as [|p parts IH]; intros days Hp Hd; cbn [parse_parts] in Hp.
  { by injection Hp as <-. }
  destruct (decide (TrimSpace p = "")); [done|].
  destruct (Cut (TrimSpace p) "..") as [[from to] [|]].
  - destruct (weekdayName from) as [a|] eqn:Ea; [|done].
    destruct (weekdayName to) as [b|] eqn:Eb; [|done].
    apply weekdayName_range in Ea, Eb. apply (IH _ Hp).
    apply Forall_forall. intros x [Hx|[Hx _]]%add_range_spec; [|done..|unfold is_weekday in *; zdiv].
    rewrite Forall_forall in Hd. by apply Hd.
  - destruct (weekdayName (TrimSpace p)) as [d|] eqn:Ed; [|done]. apply weekdayName_range in Ed.
    apply (IH _ Hp). apply Forall_forall. intros x [Hx| ->]%elem_of_add_day; [|done].
    rewrite Forall_forall in Hd. by apply Hd.
Qed.
Lemma parseWeekdays_ok s days : parseWeekdays s = Ok days → days ≠ [] ∧ Forall is_weekday days.
Proof.
  unfold parseWeekdays. destruct (parse_parts (Split s comma) []) as [r|e] eqn:E; [|done].
  apply parse_parts_ok in E; [|constructor]. destruct r; [done|]. by intros [= <-].
Qed.

Lemma length_set_days days w : length (set_days w days) = length w.
Proof.
  revert w. induction days as [|d days IH]; intros w; [done|]. simpl. by rewrite IH, length_insert.
Qed.
Lemma set_days_keeps days w i : w !! i = Some true →
  set_days w days !! i = Some true.
Proof.
  revert w. induction days as [|d days IH]; intros w Hi; [done|]. simpl. apply IH.
  destruct (decide (Z.to_nat d = i)) as [<-|Hne].
  - apply list_lookup_insert_eq. by apply lookup_lt_Some in Hi.
  - by rewrite list_lookup_insert_ne.
Qed.
Lemma set_days_sets days w d : length w = 7%nat → d ∈ days → is_weekday d →
  set_days w days !! Z.to_nat d = Some true.
Proof.
  revert w. induction days as [|x days IH]; intros w Hw Hd Hr; [by apply not_elem_of_nil in Hd|].
  simpl. apply elem_of_cons in Hd as [<-|Hd].
  - apply set_days_keeps, list_lookup_insert_eq. unfold is_weekday in Hr. lia.
  - apply IH; [by rewrite length_insert|done|done].
Qed.

Lemma set_date_ok c x : well_formed c → in_range x.1.1 1 9999 → in_range x.1.2 1 12 → in_range x.2 1 31 →
  well_formed (set_date c x).
Proof. intros [] ???. by split. Qed.
Lemma set_weekdays_ok c days : well_formed c → days ≠ [] → Forall is_weekday days →
  well_formed (set_weekdays c days).
Proof.
  intros [] Hne Hall. split; try done; simpl; [by rewrite length_set_days|].
  intros _. destruct days as [|d days]; [done|]. exists d. inversion Hall; subst. split; [done|].
  unfold AllowsWeekday. simpl negb. cbn [orb Weekdays set_weekdays].
  by rewrite (set_days_sets (d :: days)) by (done || by left).
Qed.

Lemma parse_fields_ok raw fs st st' : parse_fields raw fs st = Ok st' → well_formed (fs_cal st) →
  well_formed (fs_cal st').
Proof.
  revert st. induction fs as [|f fs IH]; intros st Hp Hst; cbn [parse_fields] in Hp.
  { by injection Hp as <-. }
  destruct (isDatePattern f).
  - destruct (sawDate st); [done|]. destruct (parseDatePattern f) as [[[y m] d]|] eqn:E; [|done].
    apply parseDatePattern_range in E as (? & ? & ?). apply (IH _ Hp). by apply set_date_ok.
  - destruct (looksLikeWeekdays f); [|done]. destruct (parseWeekdays f) as [days|] eqn:E; [|done].
    apply parseWeekdays_ok in E as [? ?]. apply (IH _ Hp). by apply set_weekdays_ok.
Qed.

Lemma wildcard_ok raw h m s : 0 <= h <= 23 → 0 <= m <= 59 → 0 <= s <= 59 → well_formed (wildcard raw h m s).
Proof. intros. split; try done; simpl; by left. Qed.

(** A text that is not blank has a field, so the parser never indexes an empty list. *)
Lemma fields_go_nonempty ps cur : (∃ p, p ∈ ps ∧ IsSpace p.1 = false ∧ p.2 ≠ []) ∨ cur ≠ [] →
  fields_go ps cur ≠ [].
Proof.
  revert cur. induction ps as [|[r b] ps IH]; intros cur H; simpl.
  - destruct H as [(p & Hp & _)|H]; [by apply not_elem_of_nil in Hp|]. by destruct cur.
  - destruct (IsSpace r) eqn:Er.
    + destruct cur; [|done]. apply IH. destruct H as [(p & Hp & Hs & Hb)|H]; [|done].
      apply elem_of_cons in Hp as [->|Hp]; [simpl in Hs; congruence|]. left. eauto.
    + apply IH. destruct H as [(p & Hp & Hs & Hb)|H]; [|right; by intros [? _]%app_nil].
      apply elem_of_cons in Hp as [->|Hp]; [right; by intros [_ ?]%app_nil|left; eauto].
Qed.
Lemma Fields_nonempty s : TrimSpace s ≠ "" → Fields (TrimSpace s) ≠ [].
Proof.
  intros Hs. unfold Fields. intros E%fmap_nil_inv. revert E. apply fields_go_nonempty. left.
  rewrite runes_TrimSpace. set (ps := trim_spaces (runes (bytes s))).
  destruct ps as [|p ps'] eqn:Eps.
  { exfalso. apply Hs. unfold TrimSpace. fold ps. by rewrite Eps. }
  exists p. split; [by left|]. split.
  - destruct (trim_spaces_trimmed (runes (bytes s))) as [Hh _]. fold ps in Hh. rewrite Eps in Hh.
    by eapply Hh.
  - assert (p ∈ runes (bytes (TrimSpace s))) as Hp by (rewrite runes_TrimSpace; fold ps; rewrite Eps; by left).
    clear -Hp. induction (bytes (TrimSpace s)) as [|r b l' Hb Hs Hr Hk IH] using runes_ind.
    + by apply not_elem_of_nil in Hp.
    + rewrite Hr in Hp. apply elem_of_cons in Hp as [->|Hp]; [done|by apply IH].
Qed.

Lemma parsed_result s :
  match ParseCalendar s with
  | Ok c => well_formed c ∧ Raw c = TrimSpace s
  | Fail e => e ≠ ErrText "index out of range"
  end.
Proof.
  unfold ParseCalendar. destruct (decide (TrimSpace s = "")); [done|].
  destruct (EqualFold (TrimSpace s) "daily"); [split; [by apply wildcard_ok|done]|].
  destruct (last (Fields (TrimSpace s))) as [tod|] eqn:El.
  2:{ apply last_None in El. by apply Fields_nonempty in El. }
  destruct (parseTimeOfDay tod) as [[[h m] sec]|e] eqn:Et; [|done].
  apply parseTimeOfDay_range in Et as (? & ? & ?).
  destruct (take _ _) as [|f fs]; [done|].
  assert (∀ fs st r, Raw (fs_cal st) = r → match parse_fields (TrimSpace s) fs st with
    | Ok st' => Raw (fs_cal st') = r
    | Fail e => e ≠ ErrText "index out of range" end) as Hraw.
  { clear. induction fs as [|f fs IH]; intros st r Hr; cbn [parse_fields]; [done|].
    destruct (isDatePattern f).
    - destruct (sawDate st); [done|]. destruct (parseDatePattern f); [by apply IH|done].
    - destruct (looksLikeWeekdays f); [|done]. destruct (parseWeekdays f); [by apply IH|done]. }
  match goal with |- context [parse_fields _ _ ?st] =>
    specialize (Hraw (f :: fs) st _ eq_refl); destruct (parse_fields (TrimSpace s) (f :: fs) st) as [st'|e] eqn:Ef end;
    [|done].
  apply parse_fields_ok in Ef; [|by apply wildcard_ok].
  destruct (_ && _); [done|]. by split.
Qed.
Lemma parsed_well_formed s c : ParseCalendar s = Ok c → well_formed c.
Proof. intros H. pose proof (parsed_result s) as Hr. rewrite H in Hr. apply Hr. Qed.

(** The parser of [OnCalendar=] yields only well-formed expressions: each
    date field is a wildcard or in its range, the clock is a time of day, and a
    restriction to weekdays names at least one; it never indexes out of range. *)
Theorem ParseCalendar_well_formed s :
  match ParseCalendar s with
  | Ok c => well_formed c ∧ Raw c = TrimSpace s
  | Fail e => e ≠ ErrText "index out of range"
  end.
Proof. apply parsed_result. Qed.

End weekdays.

(** ** Every instant found matches, in every zone *)

(** Conversion unfolds the civil calendar last. *)
#[local] Strategy 1000 [civil day_number at_local Date date_of local].

Section sound.
Variable loc : Location.

Definition tod (t : Z) : Z := local loc t mod 86400.
Definition clock (c : Calendar) : Z := CHour c * 3600 + CMinute c * 60 + CSecond c.
(** Whether a wall clock exists, as [time.Date] sees it. *)
Definition exists_clock (l : Z) : Prop := local loc (at_local loc l * second) = l.

(** [r] is the wall clock of [c] on its day, or the first one after it that
    exists where a gap swallowed it. *)
Definition realises (c : Calendar) (r : Z) : Prop :=
  clock c <= tod r ∧
  ∀ s, clock c <= s < tod r → ¬ exists_clock (local loc r / 86400 * 86400 + s).

Lemma tod_parts t : tod t = Hour loc t * 3600 + Minute loc t * 60 + Second loc t.
Proof. unfold tod, Hour, Minute, Second. zdiv. Qed.
Lemma clock_parts t h mi s : 0 <= mi < 60 → 0 <= s < 60 → tod t = h * 3600 + mi * 60 + s →
  Hour loc t = h ∧ Minute loc t = mi ∧ Second loc t = s.
Proof. unfold tod, Hour, Minute, Second. zdiv. Qed.
Lemma local_tod t : local loc t = day_of (date_of loc t) * 86400 + tod t.
Proof. unfold date_of, tod. rewrite day_of_civil. zdiv. Qed.

(** The earlier copy of a repeated wall clock shows the same clock. *)
Lemma firstOccurrence_sound t r : firstOccurrence loc t = Some r → r <= t ∧ local loc r = local loc t.
Proof.
  unfold firstOccurrence. set (same := λ r, r <= t ∧ local loc r = local loc t).
  apply (loop_inv _ same same); [|unfold same; lia]. unfold same. clear same r.
  intros a [Ha El]. unfold earlier_occurrence.
  destruct (IsZero _); [done|]. destruct (_ <=? 0) eqn:Ef; [done|]. apply Z.leb_gt in Ef.
  destruct (bool_decide _) eqn:Ed; [|done]. simpl negb.
  destruct (negb _ || _ || _) eqn:Ec; [done|].
  apply bool_decide_eq_true in Ed. rewrite !orb_false_iff, !negb_false_iff, !Z.eqb_eq in Ec.
  split; [unfold second; lia|]. rewrite !local_tod, !tod_parts. rewrite Ed. lia.
Qed.

(** A wall clock found by the search through a gap. *)
Lemma valid_after_sound k y m d s r : valid_after loc k y m d s = Some r → 0 <= s →
  s + Z.of_nat k <= 86400 →
  r = zero_time ∨ valid_date {| year := y; month := m; day := d |} ∧ ∃ s', s <= s' < 86400 ∧
    local loc r = day_number y m d * 86400 + s' ∧
    ∀ s0, s <= s0 < s' → ¬ exists_clock (day_number y m d * 86400 + s0).
Proof.
  revert s. induction k as [|k IH]; intros s Hr Hs Hk; cbn [valid_after] in Hr.
  { injection Hr as <-. by left. }
  assert (Date loc y m d (s / 3600) (s / 60 mod 60) (s mod 60) 0 =
    at_local loc (day_number y m d * 86400 + s) * second) as Et.
  { unfold Date. rewrite Z.add_0_r. do 2 f_equal. zdiv. }
  rewrite Et in Hr. set (t := at_local loc _ * second) in *.
  destruct (bool_decide _ && _ && _ && _) eqn:E.
  - rewrite !andb_true_iff, !Z.eqb_eq, bool_decide_eq_true in E. destruct E as [[[Ed Eh] Em] Es].
    apply firstOccurrence_sound in Hr as [_ Hl]. right. split; [rewrite <-Ed; apply civil_valid|].
    exists s. split; [lia|]. split; [|lia]. rewrite Hl, local_tod, Ed, tod_parts, Eh, Em, Es.
    unfold day_of. simpl. zdiv.
  - destruct (IH (s + 1) Hr) as [->|[Hv (s' & Hs' & Hl & Hno)]]; [lia|lia|by left|].
    right. split; [done|]. exists s'. split; [lia|]. split; [done|]. intros s0 Hs0.
    destruct (decide (s0 = s)) as [->|]; [|apply Hno; lia]. unfold exists_clock. fold t. intros Hex.
    apply not_true_iff_false in E. apply E. clear E.
    assert (date_of loc t = {| year := y; month := m; day := d |}) as Ed.
    { unfold date_of. rewrite Hex. replace ((_ * 86400 + s) / 86400) with (day_number y m d) by zdiv.
      by apply (civil_day_of {| year := y; month := m; day := d |}). }
    assert (tod t = s / 3600 * 3600 + s / 60 mod 60 * 60 + s mod 60) as Etod.
    { unfold tod. rewrite Hex. zdiv. }
    apply clock_parts in Etod as (Eh & Em & Es); [|zdiv|zdiv].
    by rewrite !andb_true_iff, !Z.eqb_eq, bool_decide_eq_true.
Qed.

Lemma wallTimeOn_sound c y m d r : well_formed c → wallTimeOn loc c y m d = Some r →
  r = zero_time ∨ date_of loc r = {| year := y; month := m; day := d |} ∧ realises c r.
Proof.
  intros [_ _ _ Hh Hm Hs _ _] Hr. unfold wallTimeOn in Hr.
  assert (∀ s, clock c <= s < 86400 → valid_date {| year := y; month := m; day := d |} →
    local loc r = day_number y m d * 86400 + s →
    (∀ s0, clock c <= s0 < s → ¬ exists_clock (day_number y m d * 86400 + s0)) →
    date_of loc r = {| year := y; month := m; day := d |} ∧ realises c r) as Hreal.
  { intros s Hs' Hv Hl Hno. assert (0 <= clock c) by (unfold clock; lia).
    assert (local loc r / 86400 = day_number y m d) as Ed by zdiv.
    assert (tod r = s) as Et by (unfold tod; zdiv).
    split; [unfold date_of; rewrite Ed; by apply (civil_day_of {| year := y; month := m; day := d |})|].
    split; [lia|]. intros s0 Hs0. rewrite Ed. apply Hno. lia. }
  set (t := Date loc y m d _ _ _ 0) in *.
  destruct (bool_decide _) eqn:Ed; [|injection Hr as <-; by left]. simpl in Hr.
  apply bool_decide_eq_true in Ed.
  assert (valid_date {| year := y; month := m; day := d |}) as Hv by (rewrite <-Ed; apply civil_valid).
  destruct (wallOK loc c t) eqn:Ew.
  - unfold wallOK in Ew. rewrite !andb_true_iff, !Z.eqb_eq in Ew. destruct Ew as [[[_ Eh] Em] Es].
    apply firstOccurrence_sound in Hr as [_ Hl]. right. apply (Hreal (clock c)); [unfold clock; lia|done| |lia].
    rewrite Hl, local_tod, Ed, tod_parts, Eh, Em, Es. unfold day_of, clock. simpl. lia.
  - apply valid_after_sound in Hr as [->|[_ (s' & Hs' & Hl & Hno)]]; [by left| |lia|lia].
    right. by apply (Hreal s').
Qed.

Definition matching (c : Calendar) (r : Z) : Prop :=
  matches_date c (date_of loc r) = true ∧ AllowsWeekday c (Weekday loc r) = true ∧ realises c r.

Lemma accept_true c from backward cand : accept loc c from backward cand = true →
  cand ≠ zero_time ∧ AllowsWeekday c (Weekday loc cand) = true ∧ beyond backward from cand = true.
Proof.
  unfold accept, IsZero, zero_time. rewrite !andb_true_iff, negb_true_iff, Z.eqb_neq. tauto.
Qed.

Lemma search_sound c from backward r : well_formed c → search loc c from backward = Some r →
  r = zero_time ∨ beyond backward from r = true ∧ matching c r.
Proof.
  intros Hc. unfold search.
  destruct ((0 <=? Year c) && (0 <=? Month c) && (0 <=? Day c)) eqn:Efix.
  - destruct (wallTimeOn loc c (Year c) (Month c) (Day c)) as [cand|] eqn:Ew; [|done].
    intros [= <-]. destruct (accept _ _ _ _ cand) eqn:Ea; [|by left].
    apply accept_true in Ea as (Hz & Hwd & Hb). right.
    apply wallTimeOn_sound in Ew as [?|[Hd Hr]]; [done| |done]. split; [done|]. split; [|done].
    rewrite Hd. unfold matches_date. simpl. by rewrite !Z.eqb_refl, !orb_true_r.
  - destruct (search_start loc c from backward) as [start|]; [|intros [= <-]; by left].
    destruct (loop _ _ _) as [res|] eqn:El; [|done]. intros ->. revert El.
    apply (loop_inv _ (λ _, True) (λ o, match o with
      | Some r => r = zero_time ∨ beyond backward from r = true ∧ matching c r | None => True end)); [|done].
    intros t _. unfold search_round. destruct (IsZero t); [by left|].
    destruct (beyond backward _ t); [by left|]. destruct ((0 <=? Year c) && (if backward then _ else _)); [by left|].
    destruct (dateMatches loc c t) eqn:Edm; [|done].
    destruct (wallTimeOn loc c _ _ _) as [cand|] eqn:Ew; [|done].
    destruct (accept _ _ _ _ cand) eqn:Ea; [|done]. apply accept_true in Ea as (Hz & Hwd & Hb).
    right. apply wallTimeOn_sound in Ew as [?|[Hd Hr]]; [done| |done]. split; [done|]. split; [|done].
    rewrite Hd. unfold dateMatches in Edm. by destruct (date_of loc t).
Qed.

End sound.
