(* ===== verification/CalendarTerm.v ===== *)
(** * Calendar search: termination

    In a zone whose offsets stay within a day of UTC and of each other every
    search ends: each round of the loop over civil dates moves at least a second
    towards a horizon eight years away, and the search for the first copy of a
    repeated wall clock meets ever larger offsets. *)

From S2P Require Import Prelude GoStrings GoText GoTime Calendar CalendarSearch CalendarSpec.

#[local] Open Scope Z_scope.

(** Conversion unfolds the civil calendar last. *)
#[local] Strategy 1000 [civil day_number at_local Date date_of local AddDate civilAt monthEnd].

Record steady (loc : Location) : Prop := {
  st_range : ∀ t, -86400 < offset (lookup loc t) < 86400;
  st_width : ∀ t t', offset (lookup loc t') - offset (lookup loc t) < 86400;
}.

(** ** Arithmetic of dates *)

Lemma day_number_add y m d k : day_number y m (d + k) = day_number y m d + k.
Proof. unfold day_number. lia. Qed.

Lemma month_start_leap y1 y2 m : -1 <= month_start y1 m - month_start y2 m <= 1.
Proof. unfold month_start. destruct (leap y1), (leap y2); repeat case_match; lia. Qed.

(** The same day of a later year, and the same day of a later month. *)
Lemma later_year y1 y2 m d : 1 <= m <= 12 → y1 < y2 → day_number y1 m d + 364 <= day_number y2 m d.
Proof.
  intros Hm Hy. rewrite !day_number_valid by done. pose proof (month_start_leap y1 y2 m).
  pose proof (year_start_mono y1 y2). lia.
Qed.
Lemma later_month y1 m1 y2 m2 d : 1 <= m1 <= 12 → 1 <= m2 <= 12 → 12 * y1 + m1 < 12 * y2 + m2 →
  day_number y1 m1 d + 28 <= day_number y2 m2 d.
Proof.
  intros H1 H2 H. rewrite !day_number_valid by done.
  pose proof (month_length_range y1 m1 H1). destruct (month_start_range y1 m1 H1), (month_start_range y2 m2 H2).
  destruct (decide (y1 = y2)) as [->|Hne].
  - pose proof (month_start_mono y2 m1 m2). lia.
  - pose proof (year_start_mono (y1 + 1) y2). rewrite year_start_succ in *. lia.
Qed.

(** Consecutive months, where [addMonths] does not run out of years. *)
Lemma addMonths_spec y m delta y' m' : 1 <= m <= 12 → addMonths y m delta = (y', m') →
  0 <= 12 * y + m - 1 + delta → 12 * y' + m' = 12 * y + m + delta ∧ 1 <= m' <= 12.
Proof.
  intros Hm. unfold addMonths. destruct (Z.ltb_spec (y * 12 + m - 1 + delta) 0) as [Hlt|Hge]; [lia|].
  intros [= <- <-] _. rewrite Z.quot_div_nonneg, Z.rem_mod_nonneg by lia. zdiv.
Qed.

Section steady.
Variable loc : Location.
Hypothesis Hloc : steady loc.

(** ** Instants follow wall clocks up to a day *)

Lemma local_near t : -86400 < local loc t - unix t < 86400.
Proof. unfold local. pose proof (st_range loc Hloc (unix t)). lia. Qed.
Lemma local_gap t1 t2 : -86400 < (unix t2 - unix t1) - (local loc t2 - local loc t1) < 86400.
Proof.
  unfold local. pose proof (st_width loc Hloc (unix t1) (unix t2)).
  pose proof (st_width loc Hloc (unix t2) (unix t1)). lia.
Qed.

(** [time.Date] is off by less than a day, whatever the wall clock. *)
Lemma at_local_near l : ∃ u, at_local loc l = l - offset (lookup loc u).
Proof.
  unfold at_local. destruct (Z.eqb_spec (offset (lookup loc l)) 0) as [E|]; [exists l; lia|].
  destruct (decide _); eauto.
Qed.
Lemma Date_near y m d t : -86400 < unix (Date loc y m d 0 0 0 0) - (day_number y m d * 86400) < 86400 ∧
  -86400 < (unix (Date loc y m d 0 0 0 0) - unix t) - (day_number y m d * 86400 - local loc t) < 86400.
Proof.
  unfold Date. rewrite unix_second by (unfold second; lia).
  destruct (at_local_near (day_number y m d * 86400 + 0 * 3600 + 0 * 60 + 0)) as [u ->].
  pose proof (st_range loc Hloc u). unfold local.
  pose proof (st_width loc Hloc u (unix t)). pose proof (st_width loc Hloc (unix t) u). lia.
Qed.

(** Moving by days keeps the clock. *)
Lemma AddDate_days t k : ∃ u, unix (AddDate loc t 0 0 k) = local loc t + k * 86400 - offset (lookup loc u).
Proof.
  unfold AddDate, Date.
  rewrite unix_second by (unfold nanos, second; apply Z.mod_pos_bound; lia).
  rewrite !Z.add_0_r, day_number_add.
  destruct (at_local_near ((day_number (year (date_of loc t)) (month (date_of loc t)) (day (date_of loc t)) + k) *
    86400 + Hour loc t * 3600 + Minute loc t * 60 + Second loc t)) as [u ->].
  exists u. rewrite (local_parts loc t). unfold day_of. lia.
Qed.

Lemma civilAt_date y m d : civilAt loc y m d ≠ zero_time →
  date_of loc (civilAt loc y m d) = {| year := y; month := m; day := d |} ∧
  civilAt loc y m d = Date loc y m d 0 0 0 0.
Proof.
  unfold civilAt. destruct (bool_decide _) eqn:E; [|done]. by apply bool_decide_eq_true in E.
Qed.

(** ** The first copy of a wall clock *)

Lemma firstOccurrence_ends t : ∃ r, firstOccurrence loc t = Some r.
Proof.
  unfold firstOccurrence.
  apply (loop_ends _ (λ a, local loc a = local loc t)
    (λ a, offset (lookup loc (unix t)) + 86400 - offset (lookup loc (unix a)))); [|done|].
  - intros a El. unfold earlier_occurrence. destruct (IsZero _); [done|].
    destruct (Z.leb_spec (offset (lookup loc (unix (zone_bound loc a - 1))) - offset (lookup loc (unix a))) 0)
      as [|Hf]; [done|].
    set (fold := _ - offset (lookup loc (unix a))) in *.
    destruct (bool_decide _) eqn:Ed; [|done]. simpl negb. destruct (negb _ || _ || _) eqn:Ec; [done|].
    apply bool_decide_eq_true in Ed. rewrite !orb_false_iff, !negb_false_iff, !Z.eqb_eq in Ec.
    assert (local loc (a - fold * second) = local loc t) as El'.
    { rewrite !local_tod, !tod_parts, Ed. lia. }
    split; [done|]. rewrite <-El in El'. unfold local in El'.
    assert (unix (a - fold * second) = unix a - fold) as Eu by (unfold unix, second; zdiv).
    rewrite Eu in *. pose proof (st_width loc Hloc (unix t) (unix a - fold)). lia.
  - change (2 ^ Z.of_nat rounds) with 4294967296. lia.
Qed.

Lemma valid_after_ends k y m d s : ∃ r, valid_after loc k y m d s = Some r.
Proof.
  revert s. induction k as [|k IH]; intros s; cbn [valid_after]; [eauto|].
  destruct (_ && _ && _ && _); [apply firstOccurrence_ends|apply IH].
Qed.
Lemma wallTimeOn_ends c y m d : ∃ r, wallTimeOn loc c y m d = Some r.
Proof.
  unfold wallTimeOn. destruct (negb _); [eauto|].
  destruct (wallOK _ _ _); [apply firstOccurrence_ends|apply valid_after_ends].
Qed.

(** ** The loop over civil dates *)

Variable c : Calendar.
Hypothesis Hc : well_formed c.

Lemma Month_range : 0 <= Month c → 1 <= Month c <= 12.
Proof. destruct (wf_month c Hc); lia. Qed.
Lemma Day_range : 0 <= Day c → 1 <= Day c <= 31.
Proof. destruct (wf_day c Hc); lia. Qed.
Lemma Year_range : 0 <= Year c → 1 <= Year c <= 9999.
Proof. destruct (wf_year c Hc); lia. Qed.

(** [n] comes after [m] in the direction of the search. *)
Definition follows (backward : bool) (m n : Z) : Prop := if backward then n < m else m < n.

(** A date of the walk has the fixed month and day of the expression. *)
Definition on_pattern (t : Z) : Prop :=
  (0 <= Month c → month (date_of loc t) = Month c) ∧ (0 <= Day c → day (date_of loc t) = Day c).

Lemma next_years_spec k backward y : let r := next_years loc c k backward y in
  r = zero_time ∨ ∃ y', follows backward y y' ∧ r = civilAt loc y' (Month c) (Day c) ∧ r ≠ zero_time.
Proof.
  revert y. induction k as [|k IH]; intros y; cbn [next_years]; [by left|]. cbv zeta.
  destruct ((0 <=? Year c) && _); [by left|].
  assert (follows backward y (y + towards backward)) as Hf by (destruct backward; simpl; lia).
  destruct (IsZero (civilAt loc (y + towards backward) _ _)) eqn:Ez; simpl negb; cbv iota.
  2:{ apply Z.eqb_neq in Ez. right. by exists (y + towards backward). }
  destruct (IH (y + towards backward)) as [->|(y' & Hy' & Hr)]; [by left|].
  right. exists y'. split; [|done]. destruct backward; simpl in *; lia.
Qed.

(** Going back by months never runs below year 0. *)
Definition months_left (backward : bool) (k : nat) (y m : Z) : Prop :=
  backward = true → 1 <= Year c ∨ Z.of_nat k <= 12 * y + m - 1.

Lemma addMonths_step backward k y m y' m' : 1 <= m <= 12 → 0 <= y ∨ backward = true → months_left backward (S k) y m →
  addMonths y m (towards backward) = (y', m') → (0 <= Year c → y' = Year c) →
  1 <= m' <= 12 ∧ 12 * y' + m' = 12 * y + m + towards backward ∧ months_left backward k y' m'.
Proof.
  intros Hm Hy Hk Ha HY.
  destruct (Z.le_gt_cases 0 (12 * y + m - 1 + towards backward)) as [Hge|Hlt].
  - destruct (addMonths_spec _ _ _ _ _ Hm Ha Hge) as [? ?]. split_and!; [lia|lia|lia|].
    intros ->. simpl in *. destruct (Hk eq_refl); [by left|right; lia].
  - exfalso. unfold addMonths in Ha. rewrite (proj2 (Z.ltb_lt _ _)) in Ha by lia. injection Ha as <- <-.
    destruct backward; simpl in *; [|destruct Hy; [lia|done]].
    destruct (Hk eq_refl) as [H1|H1]; [specialize (HY ltac:(lia)); lia|lia].
Qed.

Lemma next_months_spec k backward y m : 1 <= m <= 12 → 0 <= y ∨ backward = true → months_left backward k y m →
  let r := next_months loc c k backward y m in
  r = zero_time ∨ ∃ y' m', 1 <= m' <= 12 ∧ follows backward (12 * y + m) (12 * y' + m') ∧
    r = civilAt loc y' m' (Day c) ∧ r ≠ zero_time.
Proof.
  revert y m. induction k as [|k IH]; intros y m Hm Hy Hk; cbn [next_months]; [by left|].
  destruct (addMonths y m (towards backward)) as [y1 m1] eqn:Ea.
  destruct ((0 <=? Year c) && negb (y1 =? Year c)) eqn:EY; [by left|].
  destruct (addMonths_step backward k y m y1 m1) as (Hm1 & Hq & Hk1); try done.
  { intros H0. rewrite (proj2 (Z.leb_le _ _) H0) in EY. apply negb_false_iff, Z.eqb_eq in EY. done. }
  assert (0 <= y1 ∨ backward = true) as Hy1 by (destruct backward; simpl in *; [by right|left; destruct Hy; [lia|done]]).
  assert (let r := next_months loc c k backward y1 m1 in
    r = zero_time ∨ ∃ y' m', 1 <= m' <= 12 ∧ follows backward (12 * y + m) (12 * y' + m') ∧
    r = civilAt loc y' m' (Day c) ∧ r ≠ zero_time) as Hrec.
  { destruct (IH y1 m1 Hm1 Hy1 Hk1) as [->|(y' & m' & ? & Hf & ?)]; [by left|].
    right. exists y', m'. split_and!; try tauto. destruct backward; simpl in *; lia. }
  destruct ((0 <=? Month c) && _); [done|]. cbv zeta.
  destruct (IsZero (civilAt loc y1 m1 (Day c))) eqn:Ez; simpl negb; cbv iota; [done|].
  apply Z.eqb_neq in Ez. right. exists y1, m1. split_and!; try done; [lia|lia|]. destruct backward; simpl in *; lia.
Qed.

(** Instants of dates at least two days apart are in order. *)
Lemma dates_apart t t' n n' : day_of (date_of loc t) = n → day_of (date_of loc t') = n' →
  (n + 2 <= n' → unix t < unix t') ∧ (n' + 2 <= n → unix t' < unix t).
Proof.
  intros En En'. pose proof (local_gap t t') as Hg. rewrite !local_tod, En, En' in Hg.
  pose proof (Z.mod_pos_bound (local loc t) 86400). pose proof (Z.mod_pos_bound (local loc t') 86400).
  unfold tod in *. lia.
Qed.
Lemma day_of_date t y m d : date_of loc t = {| year := y; month := m; day := d |} →
  day_of (date_of loc t) = day_number y m d.
Proof. by intros ->. Qed.
Lemma day_of_pattern t y m d : year (date_of loc t) = y → month (date_of loc t) = m →
  day (date_of loc t) = d → day_of (date_of loc t) = day_number y m d.
Proof. intros <- <- <-. done. Qed.

Lemma date_month t : 1 <= month (date_of loc t) <= 12.
Proof. apply (civil_valid (local loc t / 86400)). Qed.

(** Progress when the walk jumps to the same day of another year. *)
Lemma next_years_progress k t backward : on_pattern t → 0 <= Month c → 0 <= Day c →
  let t' := next_years loc c k backward (year (date_of loc t)) in
  t' = zero_time ∨ on_pattern t' ∧ follows backward (unix t) (unix t').
Proof.
  intros [Hpm Hpd] HM HD. cbv zeta.
  destruct (next_years_spec k backward (year (date_of loc t))) as [->|(y' & Hf & -> & Hz)]; [by left|].
  right. destruct (civilAt_date _ _ _ Hz) as [Ed _]. split; [split; by rewrite Ed|].
  pose proof (Month_range HM) as HMr.
  destruct (dates_apart t _ _ _ (day_of_pattern t _ _ _ eq_refl (Hpm HM) (Hpd HD)) (day_of_date _ _ _ _ Ed))
    as [D1 D2].
  destruct backward; cbn [follows] in *; [apply D2|apply D1].
  - pose proof (later_year y' (year (date_of loc t)) (Month c) (Day c) HMr Hf). lia.
  - pose proof (later_year (year (date_of loc t)) y' (Month c) (Day c) HMr Hf). lia.
Qed.

(** Progress when it jumps to the same day of another month. *)
Lemma next_months_progress k t backward : on_pattern t → Month c < 0 → 0 <= Day c →
  0 <= year (date_of loc t) ∨ backward = true →
  months_left backward k (year (date_of loc t)) (month (date_of loc t)) →
  let t' := next_months loc c k backward (year (date_of loc t)) (month (date_of loc t)) in
  t' = zero_time ∨ on_pattern t' ∧ follows backward (unix t) (unix t').
Proof.
  intros [_ Hpd] HM HD Hy Hk. pose proof (date_month t) as Hm. cbv zeta.
  destruct (next_months_spec k backward _ _ Hm Hy Hk) as [->|(y' & m' & Hm' & Hf & -> & Hz)]; [by left|].
  right. destruct (civilAt_date _ _ _ Hz) as [Ed _]. split; [split; [lia|by rewrite Ed]|].
  destruct (dates_apart t _ _ _ (day_of_pattern t _ _ _ eq_refl eq_refl (Hpd HD)) (day_of_date _ _ _ _ Ed))
    as [D1 D2].
  destruct backward; cbn [follows] in *; [apply D2|apply D1].
  - pose proof (later_month y' m' _ _ (Day c) Hm' Hm Hf). lia.
  - pose proof (later_month _ _ y' m' (Day c) Hm Hm' Hf). lia.
Qed.

(** Progress by one day. *)
Lemma AddDate_progress t backward : follows backward (unix t) (unix (AddDate loc t 0 0 (towards backward))).
Proof.
  destruct (AddDate_days t (towards backward)) as [u ->]. unfold local.
  pose proof (st_width loc Hloc (unix t) u). pose proof (st_width loc Hloc u (unix t)).
  destruct backward; cbn [follows towards] in *; lia.
Qed.

Lemma month_end_number y m : 1 <= m <= 12 → day_number y (m + 1) 0 = day_number y m (month_length y m).
Proof.
  intros Hm. rewrite (day_number_valid y m) by done. unfold day_number, month_length.
  destruct (decide (m = 12)) as [->|].
  - change ((12 + 1 - 1) / 12) with 1. change ((12 + 1 - 1) mod 12 + 1) with 1.
    rewrite year_start_succ. change (12 + 1) with 13. rewrite month_start_year.
    change (month_start (y + 1) 1) with 0. lia.
  - rewrite Z.div_small, Z.mod_small by lia. rewrite Z.add_0_r.
    replace (m + 1 - 1 + 1) with (m + 1) by lia. lia.
Qed.

(** Progress when it jumps to the fixed month of the next or previous year. *)
Lemma month_jump_progress t backward : on_pattern t → 0 <= Month c → Day c < 0 →
  let y := year (date_of loc t) + towards backward in
  let t' := if backward then monthEnd loc y (Month c) else civilAt loc y (Month c) 1 in
  t' = zero_time ∨ on_pattern t' ∧ follows backward (unix t) (unix t').
Proof.
  intros [Hpm _] HM HD. pose proof (Month_range HM) as HMr. cbv zeta.
  pose proof (civil_valid (local loc t / 86400)) as [_ Hd]. fold (date_of loc t) in Hd.
  pose proof (Z.mod_pos_bound (local loc t) 86400) as Htod.
  set (x := date_of loc t) in *. rewrite (Hpm HM) in Hd.
  pose proof (month_length_range (year x) (Month c) HMr) as Hlen.
  destruct backward; cbn [towards follows].
  - unfold monthEnd. set (t' := Date loc _ _ 0 0 0 0 0).
    destruct (Z.eqb_spec (month (date_of loc t')) (Month c)) as [Em|]; simpl negb; cbv iota; [|by left].
    right. split; [split; [done|lia]|]. unfold t'.
    destruct (Date_near (year x + -1) (Month c + 1) 0 t) as [_ Hn]. rewrite (local_tod loc t) in Hn.
    fold x in Hn. unfold day_of, tod in Hn. rewrite (Hpm HM), (month_end_number _ _ HMr) in Hn.
    pose proof (month_length_range (year x + -1) (Month c) HMr).
    pose proof (later_year (year x + -1) (year x) (Month c) 1 HMr ltac:(lia)) as Hl.
    rewrite !(day_number_valid _ (Month c)) in * by done. lia.
  - destruct (decide (civilAt loc (year x + 1) (Month c) 1 = zero_time)) as [|Hz]; [by left|]. right.
    destruct (civilAt_date _ _ _ Hz) as [Ed Et]. split; [split; [intros _; by rewrite Ed|lia]|].
    rewrite Et.
    destruct (Date_near (year x + 1) (Month c) 1 t) as [_ Hn]. rewrite (local_tod loc t) in Hn.
    fold x in Hn. unfold day_of, tod in Hn. rewrite (Hpm HM) in Hn.
    pose proof (later_year (year x) (year x + 1) (Month c) 1 HMr ltac:(lia)) as Hl.
    rewrite !(day_number_valid _ (Month c)) in * by done. lia.
Qed.

(** Every round makes progress and stays on the pattern. *)
Lemma nextCivil_progress t backward : on_pattern t → 0 <= year (date_of loc t) ∨ backward = true →
  (backward = true → 1 <= Year c ∨ 11 <= year (date_of loc t)) →
  let t' := nextCivil loc c t backward in
  t' = zero_time ∨ on_pattern t' ∧ follows backward (unix t) (unix t').
Proof.
  intros Hp Hy0 Hlow. unfold nextCivil. cbv zeta.
  destruct (Z.leb_spec 0 (Month c)) as [HM|HM]; destruct (Z.leb_spec 0 (Day c)) as [HD|HD]; cbn [andb].
  - by apply next_years_progress.
  - destruct (dateMatches loc c (AddDate loc t 0 0 (towards backward))) eqn:Edm.
    + right. split; [|apply AddDate_progress]. unfold dateMatches, matches_date in Edm.
      rewrite !andb_true_iff, (proj2 (Z.leb_le _ _) HM) in Edm. destruct Edm as [[_ Edm%Z.eqb_eq] _].
      by split; [|lia].
    + destruct ((0 <=? Year c) && _); [by left|]. by apply month_jump_progress.
  - apply next_months_progress; try done. intros Hb. destruct (Hlow Hb) as [|]; [by left|right].
    pose proof (date_month t). change (Z.of_nat (Z.to_nat (12 * (maxSearchYears + 2)))) with 120. lia.
  - right. split; [split; lia|apply AddDate_progress].
Qed.

(** ** Where the walk starts *)

(** [t] is at most six days on the wrong side of [start]. *)
Definition close_to (backward : bool) (start t : Z) : Prop :=
  if backward then unix t <= unix start + 518400 else unix start - 518400 <= unix t.

Lemma reaches_close backward start t : reaches backward start t = true → close_to backward start t.
Proof.
  assert (∀ a b, a <= b → unix a <= unix b) as Hu by (intros; unfold unix; by apply Z.div_le_mono).
  unfold reaches, close_to. destruct backward; intros H%Z.leb_le%Hu; lia.
Qed.

Lemma align_years_start k start backward y : let t := align_years loc c k start backward y in
  t = zero_time ∨ on_pattern t ∧ close_to backward start t.
Proof.
  revert y. induction k as [|k IH]; intros y; cbn [align_years]; [by left|]. cbv zeta.
  destruct (_ && _); [by left|]. set (t := civilAt loc y (Month c) (Day c)).
  destruct (negb (IsZero t) && reaches backward start t) eqn:E.
  - apply andb_true_iff in E as [Hz%negb_true_iff%Z.eqb_neq Hr]. right.
    split; [|by apply reaches_close]. destruct (civilAt_date _ _ _ Hz) as [Ed _].
    split; unfold t; by rewrite Ed.
  - destruct (0 <=? Year c); [by left|apply IH].
Qed.

Lemma align_months_start k start backward y m : Month c < 0 →
  let t := align_months loc c k start backward y m in
  t = zero_time ∨ on_pattern t ∧ close_to backward start t.
Proof.
  intros HM. revert y m. induction k as [|k IH]; intros y m; cbn [align_months]; [by left|].
  destruct (_ && _); [by left|]. destruct (addMonths y m (towards backward)) as [y' m'].
  destruct (_ && _); [apply IH|]. cbv zeta. set (t := civilAt loc y m (Day c)).
  destruct (negb (IsZero t) && reaches backward start t) eqn:E; [|apply IH].
  apply andb_true_iff in E as [Hz%negb_true_iff%Z.eqb_neq Hr]. right.
  split; [|by apply reaches_close]. destruct (civilAt_date _ _ _ Hz) as [Ed _].
  split; [lia|]. unfold t. by rewrite Ed.
Qed.

(** An instant is within 31 days of the start of its month. *)
Lemma local_month t : let x := date_of loc t in
  day_number (year x) (month x) 1 * 86400 <= local loc t < (day_number (year x) (month x) 1 + 31) * 86400.
Proof.
  cbv zeta. pose proof (civil_valid (local loc t / 86400)) as [Hm Hd]. fold (date_of loc t) in Hm, Hd.
  pose proof (month_length_range (year (date_of loc t)) _ Hm).
  pose proof (Z.mod_pos_bound (local loc t) 86400 ltac:(lia)).
  rewrite (local_tod loc t), (day_of_pattern t _ _ _ eq_refl eq_refl eq_refl).
  rewrite !day_number_valid by done. unfold tod. lia.
Qed.

(** A jump to the start of the fixed month from before it, or to its end from
    behind it. *)
Lemma align_month_forward start y : 0 <= Month c → Day c < 0 →
  12 * year (date_of loc start) + month (date_of loc start) < 12 * y + Month c →
  let t := civilAt loc y (Month c) 1 in t = zero_time ∨ on_pattern t ∧ close_to false start t.
Proof.
  intros HM HD Hlt. cbv zeta. destruct (decide (civilAt loc y (Month c) 1 = zero_time)) as [|Hz]; [by left|].
  right. destruct (civilAt_date _ _ _ Hz) as [Ed Et]. split; [split; [intros _; by rewrite Ed|lia]|].
  rewrite Et. unfold close_to. destruct (Date_near y (Month c) 1 start) as [_ Hn].
  pose proof (later_month _ _ y (Month c) 1 (date_month start) (Month_range HM) Hlt) as Hl.
  pose proof (local_month start) as Hsm. cbv zeta in Hsm. lia.
Qed.
Lemma align_month_backward start y : 0 <= Month c → Day c < 0 →
  12 * y + Month c < 12 * year (date_of loc start) + month (date_of loc start) →
  let t := monthEnd loc y (Month c) in t = zero_time ∨ on_pattern t ∧ close_to true start t.
Proof.
  intros HM HD Hlt. pose proof (Month_range HM) as HMr. cbv zeta. unfold monthEnd.
  set (t := Date loc y (Month c + 1) 0 0 0 0 0).
  destruct (Z.eqb_spec (month (date_of loc t)) (Month c)) as [Em|]; simpl negb; cbv iota; [|by left].
  right. split; [split; [done|lia]|]. unfold close_to, t.
  destruct (Date_near y (Month c + 1) 0 start) as [_ Hn]. rewrite month_end_number in Hn by done.
  pose proof (later_month y (Month c) _ _ 1 HMr (date_month start) Hlt) as Hl.
  pose proof (month_length_range y (Month c) HMr). pose proof (local_month start) as Hsm. cbv zeta in Hsm.
  rewrite !(day_number_valid y) in * by done. lia.
Qed.

Lemma start_close backward start : close_to backward start start.
Proof. unfold close_to. destruct backward; lia. Qed.

Lemma alignCivil_start start backward : let t := alignCivil loc c start backward in
  t = zero_time ∨ on_pattern t ∧ close_to backward start t.
Proof.
  unfold alignCivil. destruct (dateMatches loc c start) eqn:Edm.
  { right. split; [|apply start_close]. unfold dateMatches, matches_date in Edm.
    rewrite !andb_true_iff in Edm. destruct Edm as [[_ E1] E2].
    split; intros H0; rewrite (proj2 (Z.leb_le _ _) H0) in *; by apply Z.eqb_eq. }
  cbv zeta. destruct (Z.leb_spec 0 (Month c)) as [HM|HM]; destruct (Z.leb_spec 0 (Day c)) as [HD|HD]; cbn [andb].
  - apply align_years_start.
  - set (x := date_of loc start). set (yr := if 0 <=? Year c then Year c else year x).
    pose proof (Month_range HM) as HMr. pose proof (date_month start) as Hm.
    assert (year x = yr → month x = Month c → let t := start in
      t = zero_time ∨ on_pattern t ∧ close_to backward start t) as Hsame.
    { intros _ E. right. split; [split; [done|lia]|apply start_close]. }
    destruct backward; cbn [negb].
    + destruct (Z.ltb_spec yr (year x)) as [H1|H1]; cbn [orb]; [apply align_month_backward; unfold x in *; lia|].
      destruct (Z.eqb_spec (year x) yr) as [E1|E1]; cbn [andb].
      * destruct (Z.ltb_spec (Month c) (month x)); [apply align_month_backward; unfold x in *; lia|].
        destruct (Z.eqb_spec (month x) (Month c)); [by apply Hsame|].
        destruct (0 <=? Year c); [by left|]. apply align_month_backward; unfold x in *; lia.
      * destruct (0 <=? Year c); [by left|]. apply align_month_backward; unfold x in *; lia.
    + destruct (Z.ltb_spec (year x) yr) as [H1|H1]; cbn [orb]; [apply align_month_forward; unfold x in *; lia|].
      destruct (Z.eqb_spec (year x) yr) as [E1|E1]; cbn [andb].
      * destruct (Z.ltb_spec (month x) (Month c)); [apply align_month_forward; unfold x in *; lia|].
        destruct (Z.eqb_spec (month x) (Month c)); [by apply Hsame|].
        destruct (0 <=? Year c); [by left|]. apply align_month_forward; unfold x in *; lia.
      * destruct (0 <=? Year c); [by left|]. apply align_month_forward; unfold x in *; lia.
  - repeat case_match; by apply align_months_start.
  - right. split; [split; lia|apply start_close].
Qed.

(** ** The search ends *)

Lemma year_least n y : year_start y <= n → y <= year (civil n).
Proof.
  intros H. change (year (civil n)) with (year_of n). pose proof (year_of_bounds n).
  destruct (decide (y <= year_of n)); [done|]. pose proof (year_start_mono (year_of n + 1) y). lia.
Qed.

(** The horizon is about eight years away. *)
Lemma eight_years y m d sgn : 1 <= m <= 12 → sgn = 1 ∨ sgn = -1 →
  0 <= sgn * (day_number (y + 8 * sgn) m (d + 2 * sgn) - day_number y m d) <= 2932.
Proof.
  intros Hm Hs. rewrite !day_number_valid by done. pose proof (month_start_leap (y + 8 * sgn) y m).
  destruct Hs as [-> | ->].
  - pose proof (year_start_mono y (y + 8 * 1)). pose proof (year_start_upper y (y + 8 * 1)). lia.
  - pose proof (year_start_mono (y + 8 * -1) y). pose proof (year_start_upper (y + 8 * -1) y). lia.
Qed.
Lemma horizon_near start backward :
  let h := AddDate loc start (maxSearchYears * towards backward) 0 (2 * towards backward) in
  -86400 < towards backward * (unix h - unix start) < 2933 * 86400.
Proof.
  cbv zeta. unfold AddDate, Date. rewrite unix_second by (unfold nanos, second; apply Z.mod_pos_bound; lia).
  rewrite Z.add_0_r. set (x := date_of loc start).
  destruct (at_local_near (day_number (year x + maxSearchYears * towards backward) (month x)
    (day x + 2 * towards backward) * 86400 + Hour loc start * 3600 + Minute loc start * 60
    + Second loc start)) as [u ->].
  pose proof (eight_years (year x) (month x) (day x) (towards backward) (date_month start)
    ltac:(destruct backward; [right|left]; done)) as H8.
  pose proof (st_width loc Hloc u (unix start)). pose proof (st_width loc Hloc (unix start) u).
  pose proof (local_tod loc start) as Hl. rewrite tod_parts in Hl. unfold local in Hl. fold x in Hl.
  change (day_of x) with (day_number (year x) (month x) (day x)) in Hl. unfold maxSearchYears in *.
  destruct backward; cbn [towards] in *; lia.
Qed.

(** The search starts in year 49 or later. *)
Definition early : Z := year_start 49 * 86400.
Lemma Date_late y m d : 50 <= y → 1 <= m → 1 <= d → early <= unix (Date loc y m d 0 0 0 0).
Proof.
  intros Hy Hm Hd. destruct (Date_near y m d 0) as [Hn _].
  assert (year_start 50 <= day_number y m d); [|unfold early; change (year_start 50) with (year_start 49 + 365) in *; lia].
  unfold day_number. pose proof (year_start_mono 50 (y + (m - 1) / 12)).
  assert (0 <= (m - 1) / 12) by (apply Z.div_pos; lia).
  pose proof (month_start_range (y + (m - 1) / 12) ((m - 1) mod 12 + 1)).
  pose proof (Z.mod_pos_bound (m - 1) 12). lia.
Qed.
Lemma search_start_early from backward start : 50 <= year (date_of loc from) →
  search_start loc c from backward = Some start → backward = true ∧ 0 <= Year c ∨ early <= unix start.
Proof.
  intros Hy. unfold search_start.
  pose proof (civil_valid (local loc from / 86400)) as [Hm Hd]. fold (date_of loc from) in Hm, Hd.
  set (x := date_of loc from) in *. cbv zeta.
  assert (early <= unix (Date loc (year x) (month x) (day x) 0 0 0 0)) as Hs by (apply Date_late; lia).
  destruct (negb (IsZero (boundDay loc c backward)) && beyond backward _ (boundDay loc c backward)) eqn:Eb.
  2:{ destruct ((0 <=? Year c) && (if backward then _ else _)); [done|]. intros <-%(inj Some). right. exact Hs. }
  destruct ((0 <=? Year c) && (if backward then _ else _)); [done|]. intros <-%(inj Some). apply andb_true_iff in Eb as [Hz%negb_true_iff%Z.eqb_neq Hb].
  destruct backward; cbn [beyond] in Hb; apply Z.ltb_lt in Hb.
  - destruct (Z.leb_spec 0 (Year c)) as [|HY]; [by left|]. right. revert Hz. clear Hb. unfold boundDay.
    destruct (_ && _); [done|]. cbv zeta. rewrite (proj2 (Z.leb_gt 0 (Year c)) HY).
    destruct (negb _); [done|]. intros _. apply Date_late; [lia| |].
    + destruct (Z.leb_spec 0 (Month c)) as [HM|]; [pose proof (Month_range HM)|]; lia.
    + destruct (Z.leb_spec 0 (Day c)) as [HD|]; [|lia]. pose proof (Day_range HD); lia.
  - right. etrans; [exact Hs|]. unfold unix. apply Z.div_le_mono; [unfold second|]; lia.
Qed.

(** What the loop keeps, and what decreases in it. *)
Definition walk_inv (start : Z) (backward : bool) (t : Z) : Prop :=
  t = zero_time ∨ on_pattern t ∧ close_to backward start t.
Definition remaining (horizon : Z) (backward : bool) (t : Z) : Z :=
  if IsZero t then 0 else Z.max 0 (towards backward * (unix horizon - unix t) + 1) + 1.

Lemma remaining_nonneg horizon backward t : 0 <= remaining horizon backward t.
Proof. unfold remaining. destruct (IsZero t); lia. Qed.

Lemma nextCivil_round start backward t :
  backward = true ∧ 0 <= Year c ∨ early <= unix start →
  let horizon := AddDate loc start (maxSearchYears * towards backward) 0 (2 * towards backward) in
  IsZero t = false → beyond backward horizon t = false → walk_inv start backward t →
  let t' := nextCivil loc c t backward in
  walk_inv start backward t' ∧ 0 <= remaining horizon backward t' < remaining horizon backward t.
Proof.
  intros Hs. cbv zeta. pose proof (horizon_near start backward) as Hh. cbv zeta in Hh.
  set (h := AddDate loc start _ 0 _) in *. intros Hz Hb [->|[Hp Hcl]]; [done|].
  assert (towards backward * (unix h - unix t) >= 0) as Hle.
  { destruct backward; cbn [beyond towards] in *; apply Z.ltb_ge in Hb;
      apply (Z.div_le_mono _ _ second) in Hb; [|done| |done]; unfold unix; lia. }
  assert (backward = true ∧ 0 <= Year c ∨ year_start 40 * 86400 <= local loc t) as Hlow.
  { destruct Hs as [?|Hs]; [by left|right]. pose proof (local_near t).
    change (year_start 40) with (year_start 49 - 3288). unfold early in Hs. unfold close_to in Hcl.
    destruct backward; cbn [towards] in *; lia. }
  assert (backward = true ∧ 0 <= Year c ∨ 40 <= year (date_of loc t)) as Hyr.
  { destruct Hlow as [?|Hlow]; [by left|right]. apply year_least. apply Z.div_le_lower_bound; lia. }
  destruct (nextCivil_progress t backward Hp) as [->|[Hp' Hf]].
  - destruct Hyr as [[-> _]|]; [by right|left; lia].
  - intros ->. destruct Hyr as [[_ HY]|]; [left; pose proof (Year_range HY); lia|right; lia].
  - split; [by left|]. unfold remaining at 1 2. cbn [IsZero]. change (IsZero zero_time) with true. cbv iota.
    unfold remaining. rewrite Hz. lia.
  - split; [right; split; [done|]; unfold close_to in *; destruct backward; cbn [follows] in Hf; lia|].
    split; [apply remaining_nonneg|]. unfold remaining. rewrite Hz.
    destruct (IsZero (nextCivil _ _ _ _)); destruct backward; cbn [follows towards] in *; lia.
Qed.

Lemma search_ends from backward : 50 <= year (date_of loc from) →
  ∃ r, search loc c from backward = Some r.
Proof.
  intros Hy. unfold search. destruct (_ && _ && _).
  { destruct (wallTimeOn_ends c (Year c) (Month c) (Day c)) as [cand ->]. eauto. }
  destruct (search_start loc c from backward) as [start|] eqn:Es; [|eauto].
  apply search_start_early in Es; [|done]. cbv zeta.
  pose proof (horizon_near start backward) as Hh. cbv zeta in Hh.
  set (h := AddDate loc start _ 0 _) in *.
  assert (∃ r, loop rounds (search_round loc c from h backward) (alignCivil loc c start backward) = Some r ∧
    r ≠ None) as (r & -> & Hr); [|destruct r; [eauto|done]].
  destruct (loop_ends (search_round loc c from h backward) (walk_inv start backward)
    (remaining h backward) rounds (alignCivil loc c start backward)) as [r Hr].
  - intros t Hw. unfold search_round. destruct (IsZero t) eqn:Ez; [done|].
    destruct (beyond backward h t) eqn:Eb; [done|]. destruct (_ && _); [done|].
    pose proof (nextCivil_round start backward t Es Ez Eb Hw).
    destruct (dateMatches _ _ _); [|done]. destruct (wallTimeOn _ _ _ _ _); [|done].
    by destruct (accept _ _ _ _ _).
  - apply alignCivil_start.
  - destruct (alignCivil_start start backward) as [->|[_ Hcl]]; [done|].
    unfold remaining. destruct (IsZero _); [done|]. change (2 ^ Z.of_nat rounds) with 4294967296.
    unfold close_to in Hcl. destruct backward; cbn [towards] in *; lia.
  - exists r. split; [done|]. revert Hr.
    apply (loop_inv _ (λ _, True) (λ o, o ≠ None)); [|done]. intros t _. unfold search_round.
    repeat (case_match; try done). 
    all: destruct (wallTimeOn_ends c (year (date_of loc t)) (month (date_of loc t)) (day (date_of loc t)));
      congruence.
Qed.

End steady.
