(* ===== verification/CalendarExact.v ===== *)
(** * Calendar search: the nearest occurrence

    In a zone without changes of its offset the search gives the occurrence
    nearest to the instant asked for, provided there is one within eight years;
    no day that the expression selects is skipped. *)

From S2P Require Import Prelude GoStrings GoText GoTime Calendar CalendarSearch CalendarSpec CalendarTerm.

#[local] Open Scope Z_scope.
#[local] Strategy 1000 [civil day_number at_local Date date_of local].

(** ** Days and dates *)

Lemma civil_number n y m d : civil n = {| year := y; month := m; day := d |} → n = day_number y m d.
Proof. intros E. pose proof (day_of_civil n) as H. rewrite E in H. by symmetry. Qed.

(** Days are ordered as their dates. *)
Lemma civil_lt n n' : n < n' →
  year (civil n) < year (civil n') ∨ year (civil n) = year (civil n') ∧
    (month (civil n) < month (civil n') ∨ month (civil n) = month (civil n') ∧ day (civil n) < day (civil n')).
Proof.
  intros H. apply (day_lt_date (civil n) (civil n')); [apply civil_valid..|]. by rewrite !day_of_civil.
Qed.
Lemma civil_le n n' :
  year (civil n) < year (civil n') ∨ year (civil n) = year (civil n') ∧
    (month (civil n) < month (civil n') ∨ month (civil n) = month (civil n') ∧ day (civil n) <= day (civil n')) →
  n <= n'.
Proof.
  intros H. destruct (Z.le_gt_cases n n') as [|Hgt]; [done|]. apply civil_lt in Hgt. lia.
Qed.
Lemma civil_month_day n : 1 <= month (civil n) <= 12 ∧ 1 <= day (civil n) <= 31.
Proof.
  destruct (civil_valid n) as [Hm Hd]. pose proof (month_length_range (year (civil n)) _ Hm). lia.
Qed.
(** Days less than eight years apart. *)
Lemma years_between n n' : n <= n' → n' <= n + 2930 → year (civil n') <= year (civil n) + 9.
Proof.
  intros H1 H2. change (year (civil n')) with (year_of n'). change (year (civil n)) with (year_of n).
  pose proof (year_of_bounds n). pose proof (year_of_bounds n').
  destruct (Z.le_gt_cases (year_of n') (year_of n + 9)) as [|Hgt]; [done|].
  pose proof (year_start_mono (year_of n + 1) (year_of n')). lia.
Qed.
Lemma civil_valid_date y m d : valid_date {| year := y; month := m; day := d |} →
  civil (day_number y m d) = {| year := y; month := m; day := d |}.
Proof. apply (civil_day_of {| year := y; month := m; day := d |}). Qed.

Section fixed.
Variable o : Z.
Hypothesis Ho : -86400 < o < 86400.
#[local] Notation loc := (fixed_zone o).

(** The midnight of a day. *)
Definition mid (n : Z) : Z := (n * 86400 - o) * second.

Lemma mid_lt n n' : mid n < mid n' ↔ n < n'.
Proof. unfold mid, second. lia. Qed.
Lemma mid_zero n : mid n = zero_time → n = 0.
Proof. unfold mid, second, zero_time. lia. Qed.
Lemma local_mid n : local loc (mid n) = n * 86400.
Proof. rewrite local_fixed. unfold mid. rewrite unix_seconds. lia. Qed.
Lemma date_mid n : date_of loc (mid n) = civil n.
Proof. unfold date_of. rewrite local_mid, Z.div_mul by lia. done. Qed.
Lemma Date_mid y m d : Date loc y m d 0 0 0 0 = mid (day_number y m d).
Proof. unfold Date, mid. rewrite at_local_fixed. lia. Qed.
Lemma AddDate_mid n years days : AddDate loc (mid n) years 0 days =
  mid (day_number (year (civil n) + years) (month (civil n)) (day (civil n) + days)).
Proof.
  unfold AddDate. rewrite date_mid. unfold Hour, Minute, Second. rewrite local_mid.
  replace (n * 86400 mod 86400) with 0 by zdiv. replace (n * 86400 mod 3600) with 0 by zdiv.
  replace (n * 86400 mod 60) with 0 by zdiv.
  replace (nanos (mid n)) with 0 by (unfold nanos, mid; symmetry; apply Z_mod_mult).
  change (0 / 3600) with 0. change (0 / 60) with 0. by rewrite Date_mid, Z.add_0_r.
Qed.
Lemma AddDate_days_mid n k : AddDate loc (mid n) 0 0 k = mid (n + k).
Proof. rewrite AddDate_mid, Z.add_0_r, day_number_add. f_equal. pose proof (day_of_civil n). unfold day_of in *. lia. Qed.

Lemma civilAt_mid y m d : valid_date {| year := y; month := m; day := d |} → civilAt loc y m d = mid (day_number y m d).
Proof.
  intros Hv. unfold civilAt. rewrite Date_mid, date_mid, civil_valid_date by done.
  by rewrite bool_decide_eq_true_2 by done.
Qed.
Lemma civilAt_found y m d : civilAt loc y m d ≠ zero_time →
  civilAt loc y m d = mid (day_number y m d) ∧ civil (day_number y m d) = {| year := y; month := m; day := d |}.
Proof.
  intros Hz. destruct (civilAt_date loc y m d Hz) as [Hd E]. rewrite E, Date_mid in Hd. rewrite date_mid in Hd.
  by rewrite E, Date_mid.
Qed.
Lemma monthEnd_mid y m : 1 <= m <= 12 → monthEnd loc y m = mid (day_number y m (month_length y m)).
Proof.
  intros Hm. unfold monthEnd. rewrite Date_mid, month_end_number, date_mid by done.
  assert (valid_date {| year := y; month := m; day := month_length y m |}) as Hv.
  { split; simpl; [done|]. pose proof (month_length_range y m Hm). lia. }
  by rewrite civil_valid_date, Z.eqb_refl by done.
Qed.

(** The occurrence on a day. *)
Variable c : Calendar.
Hypothesis Hc : well_formed c.
Definition occ (n : Z) : Z := (n * 86400 + clock c - o) * second.

Lemma clock_range : 0 <= clock c < 86400.
Proof. destruct Hc as [_ _ _ Hh Hm Hs _ _]. unfold clock. lia. Qed.
Lemma local_occ n : local loc (occ n) = n * 86400 + clock c.
Proof. rewrite local_fixed. unfold occ. rewrite unix_seconds. lia. Qed.

Lemma wallTimeOn_occ n : 0 < n → wallTimeOn loc c (year (civil n)) (month (civil n)) (day (civil n)) = Some (occ n).
Proof.
  intros Hn. pose proof clock_range as Hcl. unfold wallTimeOn.
  assert (Date loc (year (civil n)) (month (civil n)) (day (civil n)) (CHour c) (CMinute c) (CSecond c) 0 = occ n) as ->.
  { unfold Date, occ. rewrite at_local_fixed. pose proof (day_of_civil n) as Hd. unfold day_of in Hd. rewrite Hd.
    unfold clock. lia. }
  assert (date_of loc (occ n) = civil n) as Hd.
  { unfold date_of. rewrite local_occ. f_equal. zdiv. }
  rewrite Hd. rewrite bool_decide_eq_true_2 by (by destruct (civil n)). simpl negb.
  assert (wallOK loc c (occ n) = true) as ->.
  { unfold wallOK. assert (tod loc (occ n) = CHour c * 3600 + CMinute c * 60 + CSecond c) as Ht.
    { unfold tod. rewrite local_occ. unfold clock in *. zdiv. }
    destruct Hc as [_ _ _ Hh Hm Hs _ _]. apply clock_parts in Ht as (-> & -> & ->); [|lia..].
    rewrite !Z.eqb_refl, !andb_true_r. unfold IsZero, occ, second. apply negb_true_iff, Z.eqb_neq. lia. }
  unfold firstOccurrence, loop, earlier_occurrence. done.
Qed.

(** ** No day is skipped *)

Section walk.
Variable backward : bool.
#[local] Notation σ := (towards backward).

(** [t] is the midnight of a day of the expression's year, no further than [n]. *)
Definition in_year (y : Z) : Prop := 0 <= Year c → y = Year c.
Definition covers (t n : Z) : Prop :=
  t ≠ zero_time ∧ ∃ n0, t = mid n0 ∧ in_year (year (civil n0)) ∧ σ * n0 <= σ * n.

Lemma covers_mid n0 n : n0 ≠ 0 → in_year (year (civil n0)) → σ * n0 <= σ * n → covers (mid n0) n.
Proof. intros Hn Hy H. split; [intros E%mid_zero; done|]. by exists n0. Qed.

Lemma civilAt_covers y m d n : valid_date {| year := y; month := m; day := d |} → day_number y m d ≠ 0 →
  in_year y → σ * day_number y m d <= σ * n → covers (civilAt loc y m d) n.
Proof.
  intros Hv Hn Hy H. rewrite civilAt_mid by done. apply covers_mid; [done| |done]. by rewrite civil_valid_date.
Qed.
Lemma found_covers y m d n : civilAt loc y m d ≠ zero_time → in_year y → σ * day_number y m d <= σ * n →
  covers (civilAt loc y m d) n.
Proof.
  intros Hz Hy H. split; [done|]. destruct (civilAt_found _ _ _ Hz) as [-> Hd]. eexists. split; [done|]. by rewrite Hd.
Qed.

Lemma years_covers y m d y' : σ * y <= σ * y' → 1 <= m <= 12 → σ * day_number y m d <= σ * day_number y' m d.
Proof.
  intros Hy Hm. destruct (decide (y = y')) as [->|]; [lia|]. destruct backward; cbn [towards] in *.
  - pose proof (later_year y' y m d Hm). lia.
  - pose proof (later_year y y' m d Hm). lia.
Qed.

(** Fixed month and day: years one after the other. *)
Lemma next_years_covers k y y' : Year c < 0 → 1 <= Month c <= 12 → σ * y < σ * y' <= σ * y + Z.of_nat k →
  valid_date {| year := y'; month := Month c; day := Day c |} → day_number y' (Month c) (Day c) ≠ 0 →
  covers (next_years loc c k backward y) (day_number y' (Month c) (Day c)).
Proof.
  intros HY HM. revert y. induction k as [|k IH]; intros y Hy Hv Hn; [lia|]. cbn [next_years]. cbv zeta.
  rewrite (proj2 (Z.leb_gt 0 (Year c))) by done. simpl andb. cbv iota.
  destruct (decide (y + σ = y')) as [E|Hne].
  { rewrite E. destruct (civilAt_covers y' (Month c) (Day c) (day_number y' (Month c) (Day c))) as [Hz Hcov]; [done..|unfold in_year; lia|lia|].
    rewrite (proj2 (Z.eqb_neq _ 0) Hz : IsZero _ = false). simpl. by split. }
  unfold IsZero at 1. destruct (Z.eqb_spec (civilAt loc (y + σ) (Month c) (Day c)) 0) as [_|Hz]; simpl.
  - apply IH; [|done..]. destruct backward; cbn [towards] in *; lia.
  - apply found_covers; [done|unfold in_year; lia|]. apply years_covers; [|done]. destruct backward; cbn [towards] in *; lia.
Qed.

Lemma align_years_covers k start y y' : Year c < 0 → 1 <= Month c <= 12 → σ * y <= σ * y' < σ * y + Z.of_nat k →
  valid_date {| year := y'; month := Month c; day := Day c |} → day_number y' (Month c) (Day c) ≠ 0 →
  reaches backward start (mid (day_number y' (Month c) (Day c))) = true →
  covers (align_years loc c k start backward y) (day_number y' (Month c) (Day c)).
Proof.
  intros HY HM. revert y. induction k as [|k IH]; intros y Hy Hv Hn Hr; [lia|]. cbn [align_years]. cbv zeta.
  rewrite (proj2 (Z.leb_gt 0 (Year c))) by done. simpl andb at 1. cbv iota.
  destruct (decide (y = y')) as [->|Hne].
  { destruct (civilAt_covers y' (Month c) (Day c) (day_number y' (Month c) (Day c))) as [Hz Hcov]; [done..|unfold in_year; lia|lia|].
    rewrite (proj2 (Z.eqb_neq _ 0) Hz : IsZero _ = false). rewrite civilAt_mid in * by done. rewrite Hr. simpl. by split. }
  destruct (negb (IsZero (civilAt loc y (Month c) (Day c))) && reaches backward start (civilAt loc y (Month c) (Day c))) eqn:E.
  - apply andb_true_iff in E as [Hz _]. apply negb_true_iff, Z.eqb_neq in Hz.
    apply found_covers; [done|unfold in_year; lia|]. apply years_covers; [|done]. lia.
  - apply IH; [|done..]. destruct backward; cbn [towards] in *; lia.
Qed.

(** Fixed day: months one after the other. *)
Lemma months_covers y m y' m' d : σ * (12 * y + m) <= σ * (12 * y' + m') → 1 <= m <= 12 → 1 <= m' <= 12 →
  σ * day_number y m d <= σ * day_number y' m' d.
Proof.
  intros H Hm Hm'. destruct (decide (12 * y + m = 12 * y' + m')) as [E|].
  { assert (y = y' ∧ m = m') as [-> ->] by lia. lia. }
  destruct backward; cbn [towards] in *.
  - pose proof (later_month y' m' y m d Hm' Hm). lia.
  - pose proof (later_month y m y' m' d Hm Hm'). lia.
Qed.

Lemma months_step y m y' m' y1 m1 : 1 <= m <= 12 → 1 <= m' <= 12 → 0 <= y → 1 <= y' → (0 <= Year c → y = Year c ∧ y' = Year c) →
  σ * (12 * y + m) < σ * (12 * y' + m') → addMonths y m σ = (y1, m1) →
  12 * y1 + m1 = 12 * y + m + σ ∧ 1 <= m1 <= 12 ∧ 0 <= y1 ∧ (0 <= Year c → y1 = Year c ∧ y' = Year c).
Proof.
  intros Hm Hm' Hy Hy' HY Hlt Ha. apply addMonths_spec in Ha as [E H1]; [|done|destruct backward; cbn [towards] in *; lia].
  split; [done|]. split; [done|]. split; [destruct backward; cbn [towards] in *; lia|].
  intros H%HY. destruct backward; cbn [towards] in *; lia.
Qed.

Lemma next_months_covers k y m y' m' : Month c < 0 → 1 <= m <= 12 → 1 <= m' <= 12 → 0 <= y → 1 <= y' →
  (0 <= Year c → y = Year c ∧ y' = Year c) → σ * (12 * y + m) < σ * (12 * y' + m') <= σ * (12 * y + m) + Z.of_nat k →
  valid_date {| year := y'; month := m'; day := Day c |} → day_number y' m' (Day c) ≠ 0 →
  covers (next_months loc c k backward y m) (day_number y' m' (Day c)).
Proof.
  intros HM. revert y m. induction k as [|k IH]; intros y m Hm Hm' Hy Hy' HY Hlt Hv Hn; [lia|]. cbn [next_months].
  destruct (addMonths y m σ) as [y1 m1] eqn:Ea.
  destruct (months_step y m y' m' y1 m1 Hm Hm' Hy Hy' HY) as (E & Hm1 & Hy1 & HY1); [lia|done|].
  rewrite (proj2 (Z.leb_gt 0 (Month c))) by done. simpl andb at 2. cbv iota.
  assert ((0 <=? Year c) && negb (y1 =? Year c) = false) as ->.
  { destruct (Z.leb_spec 0 (Year c)); [|done]. destruct HY1 as [-> _]; [done|]. by rewrite Z.eqb_refl. }
  destruct (decide (12 * y1 + m1 = 12 * y' + m')) as [Eq|Hne].
  { assert (y1 = y' ∧ m1 = m') as [-> ->] by lia.
    destruct (civilAt_covers y' m' (Day c) (day_number y' m' (Day c))) as [Hz Hcov]; [done..|by intros [? ?]%HY1|lia|].
    rewrite (proj2 (Z.eqb_neq _ 0) Hz : IsZero _ = false). simpl. by split. }
  unfold IsZero at 1. destruct (Z.eqb_spec (civilAt loc y1 m1 (Day c)) 0) as [_|Hz]; simpl.
  - apply IH; try done. destruct backward; cbn [towards] in *; lia.
  - apply found_covers; [done|by intros [? ?]%HY1|]. apply months_covers; [|done..]. destruct backward; cbn [towards] in *; lia.
Qed.

Lemma align_months_covers k start y m y' m' : Month c < 0 → 1 <= m <= 12 → 1 <= m' <= 12 → 0 <= y → 1 <= y' →
  (0 <= Year c → y = Year c ∧ y' = Year c) → σ * (12 * y + m) <= σ * (12 * y' + m') < σ * (12 * y + m) + Z.of_nat k →
  valid_date {| year := y'; month := m'; day := Day c |} → day_number y' m' (Day c) ≠ 0 →
  reaches backward start (mid (day_number y' m' (Day c))) = true →
  covers (align_months loc c k start backward y m) (day_number y' m' (Day c)).
Proof.
  intros HM. revert y m. induction k as [|k IH]; intros y m Hm Hm' Hy Hy' HY Hlt Hv Hn Hr; [lia|]. cbn [align_months].
  assert ((0 <=? Year c) && negb (y =? Year c) = false) as ->.
  { destruct (Z.leb_spec 0 (Year c)); [|done]. destruct HY as [-> _]; [done|]. by rewrite Z.eqb_refl. }
  rewrite (proj2 (Z.leb_gt 0 (Month c))) by done. destruct (addMonths y m σ) as [y1 m1] eqn:Ea.
  cbn [andb]. cbv zeta. destruct (decide (12 * y + m = 12 * y' + m')) as [Eq|Hne].
  { assert (y = y' ∧ m = m') as [-> ->] by lia.
    destruct (civilAt_covers y' m' (Day c) (day_number y' m' (Day c))) as [Hz Hcov]; [done..|by intros [? ?]%HY|lia|].
    rewrite (proj2 (Z.eqb_neq _ 0) Hz : IsZero _ = false). rewrite civilAt_mid in * by done. rewrite Hr. simpl. by split. }
  destruct (months_step y m y' m' y1 m1 Hm Hm' Hy Hy' HY) as (E & Hm1 & Hy1 & HY1); [destruct backward; cbn [towards] in *; lia|done|].
  destruct (negb (IsZero (civilAt loc y m (Day c))) && reaches backward start (civilAt loc y m (Day c))) eqn:Eb.
  - apply andb_true_iff in Eb as [Hz _]. apply negb_true_iff, Z.eqb_neq in Hz.
    apply found_covers; [done|by intros [? ?]%HY|]. apply months_covers; [|done..]. lia.
  - apply IH; try done. destruct backward; cbn [towards] in *; lia.
Qed.

(** ** The steps of the walk *)

Definition selected (n : Z) : Prop := matches_date c (civil n) = true.
Lemma selected_parts n : selected n ↔ (0 <= Year c → year (civil n) = Year c) ∧
  (0 <= Month c → month (civil n) = Month c) ∧ (0 <= Day c → day (civil n) = Day c).
Proof.
  unfold selected, matches_date. rewrite !andb_true_iff, !orb_true_iff, !negb_true_iff, !Z.leb_gt, !Z.eqb_eq.
  destruct (Z.le_gt_cases 0 (Year c)), (Z.le_gt_cases 0 (Month c)), (Z.le_gt_cases 0 (Day c)); intuition lia.
Qed.
Lemma dateMatches_mid n : dateMatches loc c (mid n) = true ↔ selected n.
Proof. unfold dateMatches, selected. by rewrite date_mid. Qed.
Lemma reaches_mid n n' : reaches backward (mid n) (mid n') = true ↔ σ * n <= σ * n'.
Proof.
  unfold reaches, mid, second. destruct backward; rewrite Z.leb_le; cbn [towards]; lia.
Qed.
Lemma years_near n n' : σ * n <= σ * n' <= σ * n + 2930 → 0 <= σ * (year (civil n') - year (civil n)) <= 9.
Proof.
  intros H. destruct (decide (n = n')) as [->|]; [lia|]. destruct backward; cbn [towards] in *.
  - pose proof (years_between n' n). assert (n' < n) as Hlt by lia. pose proof (civil_lt _ _ Hlt). lia.
  - pose proof (years_between n n'). assert (n < n') as Hlt by lia. pose proof (civil_lt _ _ Hlt). lia.
Qed.
Lemma year_positive n : 0 < n → 1 <= year (civil n).
Proof. intros Hn. apply year_least. change (year_start 1) with 0. lia. Qed.
Lemma civil_parts n : day_number (year (civil n)) (month (civil n)) (day (civil n)) = n.
Proof. apply day_of_civil. Qed.
Lemma civil_date_valid n : valid_date {| year := year (civil n); month := month (civil n); day := day (civil n) |}.
Proof. pose proof (civil_valid n). by destruct (civil n). Qed.
(** In the direction of the walk dates move with days. *)
Lemma dates_follow n n' : σ * n <= σ * n' →
  σ * year (civil n) < σ * year (civil n') ∨ year (civil n) = year (civil n') ∧
    (σ * month (civil n) < σ * month (civil n') ∨
     month (civil n) = month (civil n') ∧ σ * day (civil n) <= σ * day (civil n')).
Proof.
  intros H. destruct (decide (n = n')) as [->|]; [lia|].
  destruct backward; cbn [towards] in *; [assert (n' < n) as Hlt by lia|assert (n < n') as Hlt by lia]; apply civil_lt in Hlt; lia.
Qed.
Lemma days_follow n n' :
  σ * year (civil n) < σ * year (civil n') ∨ year (civil n) = year (civil n') ∧
    (σ * month (civil n) < σ * month (civil n') ∨
     month (civil n) = month (civil n') ∧ σ * day (civil n) <= σ * day (civil n')) → σ * n <= σ * n'.
Proof.
  intros H. destruct backward; cbn [towards] in *;
    [assert (n' <= n); [apply civil_le; lia|lia]|assert (n <= n'); [apply civil_le; lia|lia]].
Qed.

(** The first day of a month, or its last. *)
Definition month_edge (y m : Z) : Z := if backward then monthEnd loc y m else civilAt loc y m 1.
Lemma month_edge_covers y n' : 0 < n' → 1 <= Month c <= 12 → month (civil n') = Month c →
  1 <= y → (backward = false → 2 <= y ∨ 2 <= Month c) → in_year y → σ * y <= σ * year (civil n') → covers (month_edge y (Month c)) n'.
Proof.
  intros Hn HM Hm Hy1 Hy2 Hyy Hy. pose proof (month_length_range y (Month c) HM) as Hml.
  destruct (civil_valid n') as [_ Hd']. rewrite Hm in Hd'.
  set (d := if backward then month_length y (Month c) else 1).
  assert (valid_date {| year := y; month := Month c; day := d |}) as Hv.
  { split; simpl; [done|]. unfold d. destruct backward; lia. }
  assert (month_edge y (Month c) = mid (day_number y (Month c) d)) as ->.
  { unfold month_edge, d in *. destruct backward; [by apply monthEnd_mid|by apply civilAt_mid]. }
  assert (0 < day_number y (Month c) d) as Hpos.
  { rewrite day_number_valid by done. destruct (month_start_range y (Month c) HM).
    pose proof (year_start_mono 1 y). change (year_start 1) with 0 in *. unfold d in *. destruct backward; [lia|].
    destruct (Hy2 eq_refl); [lia|]. pose proof (month_start_mono y 1 (Month c)).
    pose proof (month_length_range y 1). destruct (month_start_range y 1); lia. }
  assert (σ * day_number y (Month c) d <= σ * n') as Hle.
  { apply days_follow. rewrite civil_valid_date by done. cbn [year month day]. rewrite Hm.
    destruct (decide (y = year (civil n'))) as [E|]; [|left; destruct backward; cbn [towards] in *; lia].
    rewrite <- E in Hd'. right. split; [done|]. right. split; [done|]. unfold d. destruct backward; cbn [towards] in *; lia. }
  apply covers_mid; [lia|by rewrite civil_valid_date|done].
Qed.

(** From a day of the month to another of the same year all are of that month. *)
Lemma month_between n n' : 0 <= Month c → Day c < 0 → (0 <= Year c → year (civil n) = Year c) →
  month (civil n) = Month c → month (civil n') = Month c → year (civil n) = year (civil n') →
  σ * n < σ * n' → selected (n + σ).
Proof.
  intros HM HD HY Hm Hm' Ey Hlt.
  pose proof (dates_follow n (n + σ)) as H1. pose proof (dates_follow (n + σ) n') as H2.
  rewrite Hm in H1. rewrite Hm' in H2. apply selected_parts.
  destruct backward; cbn [towards] in *; (split; [intros ?%HY; lia|]); (split; intros; lia).
Qed.

(** One day on. *)
Lemma step_covers n n' : in_year (year (civil n)) → selected n' → 0 < n → 0 < n' → σ * n < σ * n' → covers (mid (n + σ)) n'.
Proof.
  intros Hy Hs Hn Hn' Hlt. apply covers_mid; [destruct backward; cbn [towards] in *; lia| |destruct backward; cbn [towards] in *; lia].
  intros HY. specialize (Hy HY). destruct (proj1 (selected_parts n') Hs) as [Hsy _]. specialize (Hsy HY).
  pose proof (dates_follow n (n + σ)) as H1. pose proof (dates_follow (n + σ) n') as H2.
  destruct backward; cbn [towards] in *; lia.
Qed.

Lemma nextCivil_covers n n' : on_pattern loc c (mid n) → (0 <= Year c → year (civil n) = Year c) →
  ¬ (0 <= Year c ∧ 0 <= Month c ∧ 0 <= Day c) → selected n' → 0 < n → 0 < n' → σ * n < σ * n' <= σ * n + 2930 →
  covers (nextCivil loc c (mid n) backward) n'.
Proof.
  intros [Hpm Hpd] HY Hall Hs Hn Hn' Hlt. rewrite date_mid in Hpm, Hpd.
  pose proof (proj1 (selected_parts n') Hs) as (Hsy & Hsm & Hsd).
  destruct (years_near n n') as [Hy0 Hy9]; [lia|]. pose proof (dates_follow n n' ltac:(lia)) as Hdf.
  pose proof (civil_month_day n) as [Hm12 Hd31]. pose proof (civil_month_day n') as [Hm12' Hd31'].
  pose proof (year_positive n Hn) as Hyn. pose proof (year_positive n' Hn') as Hyn'.
  unfold nextCivil. rewrite date_mid, AddDate_days_mid.
  destruct (Z.leb_spec 0 (Month c)) as [HM|HM], (Z.leb_spec 0 (Day c)) as [HD|HD]; simpl andb; cbv iota.
  - rewrite <- (civil_parts n'), Hsm, Hsd by done. apply next_years_covers; [lia|lia| | |].
    + change (Z.of_nat (Z.to_nat (maxSearchYears + 4))) with 12. specialize (Hpm HM). specialize (Hpd HD).
      specialize (Hsm HM). specialize (Hsd HD).
      destruct (decide (year (civil n) = year (civil n'))) as [E|]; [|destruct backward; cbn [towards] in *; lia].
      exfalso. assert (n = n'); [|destruct backward; cbn [towards] in *; lia].
      rewrite <- (civil_parts n), <- (civil_parts n'). congruence.
    + rewrite <- Hsm, <- Hsd by done. apply civil_date_valid.
    + rewrite <- Hsm, <- Hsd, civil_parts by done. lia.
  - cbv zeta. destruct (dateMatches loc c (mid (n + σ))) eqn:Edm; [apply step_covers; [done..|lia]|].
    destruct (decide (year (civil n) = year (civil n'))) as [Ey|Hne].
    { exfalso. apply not_true_iff_false in Edm. apply Edm, dateMatches_mid. clear Edm.
      apply (month_between n n'); auto; lia. }
    assert (Year c < 0) as HY0.
    { destruct (Z.le_gt_cases 0 (Year c)) as [H0|]; [|done]. specialize (HY H0). specialize (Hsy H0). lia. }
    rewrite (proj2 (Z.leb_gt 0 (Year c))) by done. simpl andb. cbv iota.
    apply (month_edge_covers (year (civil n) + σ) n'); [done|lia|auto| | |unfold in_year; lia|];
      destruct backward; cbn [towards] in *; try lia; done.
  - rewrite <- (civil_parts n'), Hsd by done. apply next_months_covers; [lia..| | | |].
    + intros H0. split; auto.
    + change (Z.of_nat (Z.to_nat (12 * (maxSearchYears + 2)))) with 120. specialize (Hpd HD). specialize (Hsd HD).
      destruct (decide (12 * year (civil n) + month (civil n) = 12 * year (civil n') + month (civil n'))) as [E|];
        [|destruct backward; cbn [towards] in *; lia].
      exfalso. assert (n = n'); [|destruct backward; cbn [towards] in *; lia].
      rewrite <- (civil_parts n), <- (civil_parts n'). f_equal; lia.
    + rewrite <- Hsd by done. apply civil_date_valid.
    + rewrite <- Hsd, civil_parts by done. lia.
  - apply step_covers; [done..|lia].
Qed.

(** Alignment on a month: its edge in the year of [start], or in the next. *)
Lemma align_month_covers n n' : 0 <= Month c → Day c < 0 → ¬ selected n → selected n' → 0 < n → 0 < n' →
  σ * n <= σ * n' → covers (alignCivil loc c (mid n) backward) n'.
Proof.
  intros HM HD Hns Hs Hn Hn' Hle. pose proof (dates_follow n n' Hle) as Hdf.
  pose proof (proj1 (selected_parts n') Hs) as (Hsy & Hsm & _). specialize (Hsm HM). rewrite Hsm in Hdf.
  assert (1 <= Month c <= 12) as HM12 by (by apply Month_range).
  pose proof (civil_month_day n) as [Hm12 _]. pose proof (year_positive n Hn). pose proof (year_positive n' Hn') as Hy1.
  unfold alignCivil. destruct (dateMatches loc c (mid n)) eqn:Edm; [by destruct Hns; apply dateMatches_mid|]. clear Edm.
  rewrite date_mid. cbv zeta. rewrite (proj2 (Z.leb_le 0 (Month c))), (proj2 (Z.leb_gt 0 (Day c))) by done. cbn [andb].
  set (yr := if 0 <=? Year c then Year c else year (civil n)).
  assert (year (civil n) = yr → month (civil n) = Month c → False) as Hno.
  { intros Ey Em. apply Hns, selected_parts. split; [|split; [done|lia]]. intros H0. unfold yr in Ey.
    by rewrite (proj2 (Z.leb_le 0 (Year c)) H0) in Ey. }
  assert (0 <= Year c → year (civil n') = yr) as Hyr.
  { intros H0. unfold yr. rewrite (proj2 (Z.leb_le 0 (Year c)) H0). auto. }
  assert (Year c < 0 → yr = year (civil n)) as Hyr'.
  { intros H0. unfold yr. by rewrite (proj2 (Z.leb_gt 0 (Year c)) H0). }
  assert (∀ y, in_year y → 1 <= y → (backward = false → 2 <= y ∨ 2 <= Month c) → σ * y <= σ * year (civil n') →
    covers (if backward then monthEnd loc y (Month c) else civilAt loc y (Month c) 1) n') as Hedge.
  { intros y ? ? ? ?. by apply (month_edge_covers y n'). }
  assert (in_year yr) as Hiny.
  { intros H0. unfold yr. by rewrite (proj2 (Z.leb_le 0 (Year c)) H0). }
  destruct backward; cbn [negb towards] in *.
  - destruct (Z.ltb_spec yr (year (civil n))) as [H1|H1]; cbn [orb].
    { apply Hedge; [done| |done|]; destruct (Z.le_gt_cases 0 (Year c)); lia. }
    destruct (Z.eqb_spec (year (civil n)) yr) as [H2|H2]; cbn [andb].
    + destruct (Z.ltb_spec (Month c) (month (civil n))) as [H3|H3].
      { apply Hedge; [done| |done|]; destruct (Z.le_gt_cases 0 (Year c)); lia. }
      destruct (Z.eqb_spec (month (civil n)) (Month c)) as [H4|H4]; [by destruct Hno|].
      destruct (Z.leb_spec 0 (Year c)) as [H5|H5]; [specialize (Hyr H5); lia|].
      apply Hedge; [unfold in_year; lia| |done|]; lia.
    + destruct (Z.leb_spec 0 (Year c)) as [H5|H5]; [specialize (Hyr H5); lia|]. specialize (Hyr' H5). lia.
  - destruct (Z.ltb_spec (year (civil n)) yr) as [H1|H1]; cbn [orb].
    { apply Hedge; [done|..]; destruct (Z.le_gt_cases 0 (Year c)); lia. }
    destruct (Z.eqb_spec (year (civil n)) yr) as [H2|H2]; cbn [andb].
    + destruct (Z.ltb_spec (month (civil n)) (Month c)) as [H3|H3].
      { apply Hedge; [done|..]; destruct (Z.le_gt_cases 0 (Year c)); lia. }
      destruct (Z.eqb_spec (month (civil n)) (Month c)) as [H4|H4]; [by destruct Hno|].
      destruct (Z.leb_spec 0 (Year c)) as [H5|H5]; [specialize (Hyr H5); lia|].
      apply Hedge; [unfold in_year; lia|..]; lia.
    + destruct (Z.leb_spec 0 (Year c)) as [H5|H5]; [specialize (Hyr H5); lia|]. specialize (Hyr' H5). lia.
Qed.

(** Alignment on a day of the month. *)
Lemma align_day_covers n n' : Month c < 0 → 0 <= Day c → (0 <= Year c → year (civil n) = Year c) → selected n' →
  ¬ selected n → 0 < n → 0 < n' → σ * n <= σ * n' <= σ * n + 2930 → covers (alignCivil loc c (mid n) backward) n'.
Proof.
  intros HM HD HY Hs Hns Hn Hn' Hle. pose proof (dates_follow n n' ltac:(lia)) as Hdf.
  destruct (years_near n n') as [Hy0 Hy9]; [lia|].
  pose proof (proj1 (selected_parts n') Hs) as (Hsy & _ & Hsd). specialize (Hsd HD). rewrite Hsd in Hdf.
  pose proof (civil_month_day n) as [Hm12 Hd31]. pose proof (civil_month_day n') as [Hm12' _].
  pose proof (year_positive n Hn) as Hy1. pose proof (year_positive n' Hn') as Hy1'.
  unfold alignCivil. destruct (dateMatches loc c (mid n)) eqn:Edm; [by destruct Hns; apply dateMatches_mid|]. clear Edm.
  rewrite date_mid. cbv zeta. rewrite (proj2 (Z.leb_gt 0 (Month c))), (proj2 (Z.leb_le 0 (Day c))) by done. cbn [andb].
  assert ((if 0 <=? Year c
     then if negb backward && (year (civil n) <? Year c) then (Year c, 1, 0)
          else if backward && (Year c <? year (civil n)) then (Year c, 12, 32)
          else (Year c, month (civil n), day (civil n))
     else (year (civil n), month (civil n), day (civil n))) = (year (civil n), month (civil n), day (civil n))) as ->.
  { destruct (Z.leb_spec 0 (Year c)) as [H0|]; [|done]. rewrite (HY H0), Z.ltb_irrefl. by destruct backward. }
  assert (∀ y m, 1 <= m <= 12 → 0 <= y → (0 <= Year c → y = Year c) →
    σ * (12 * year (civil n) + month (civil n)) <= σ * (12 * y + m) <= σ * (12 * year (civil n') + month (civil n')) →
    covers (align_months loc c (Z.to_nat (12 * (maxSearchYears + 2))) (mid n) backward y m) n') as Hgo.
  { intros y m Hm Hy HY' Hq. rewrite <- (civil_parts n'), Hsd. apply align_months_covers; try done.
    - intros H0. split; auto.
    - change (Z.of_nat (Z.to_nat (12 * (maxSearchYears + 2)))) with 120. destruct backward; cbn [towards] in *; lia.
    - rewrite <- Hsd. apply civil_date_valid.
    - rewrite <- Hsd, civil_parts. lia.
    - rewrite <- Hsd, civil_parts. apply reaches_mid. lia. }
  assert (∀ delta y m, delta = σ → addMonths (year (civil n)) (month (civil n)) delta = (y, m) →
    σ * (12 * year (civil n) + month (civil n)) < σ * (12 * year (civil n') + month (civil n')) →
    covers (align_months loc c (Z.to_nat (12 * (maxSearchYears + 2))) (mid n) backward y m) n') as Hskip.
  { intros delta y m -> Ha Hlt.
    destruct (months_step (year (civil n)) (month (civil n)) (year (civil n')) (month (civil n')) y m) as (E & Hm1 & Hy2 & HY2);
      try done; [lia|intros H0; split; auto|].
    apply Hgo; [done|done|intros H0; by apply HY2|]. destruct backward; cbn [towards] in *; lia. }
  destruct backward; cbn [negb andb towards] in *.
  - destruct (Z.ltb_spec (day (civil n)) (Day c)) as [H1|H1].
    + destruct (addMonths (year (civil n)) (month (civil n)) (-1)) as [y m] eqn:Ea. apply (Hskip (-1)); [done|done|lia].
    + apply Hgo; [lia|lia|done|lia].
  - destruct (Z.ltb_spec (Day c) (day (civil n))) as [H1|H1].
    + destruct (addMonths (year (civil n)) (month (civil n)) 1) as [y m] eqn:Ea. apply (Hskip 1); [done|done|lia].
    + apply Hgo; [lia|lia|done|lia].
Qed.

Lemma alignCivil_covers n n' : ¬ (0 <= Year c ∧ 0 <= Month c ∧ 0 <= Day c) →
  (0 <= Year c → Month c < 0 → year (civil n) = Year c) → selected n' → 0 < n → 0 < n' →
  σ * n <= σ * n' <= σ * n + 2930 → covers (alignCivil loc c (mid n) backward) n'.
Proof.
  intros Hall HY Hs Hn Hn' Hle. destruct (decide (dateMatches loc c (mid n) = true)) as [Ed|Hns].
  { unfold alignCivil. rewrite Ed. apply covers_mid; [lia| |lia]. intros H0.
    by apply (proj1 (selected_parts n) (proj1 (dateMatches_mid n) Ed)). }
  assert (¬ selected n) as Hns' by (by rewrite <- dateMatches_mid).
  destruct (Z.le_gt_cases 0 (Month c)) as [HM|HM].
  - destruct (Z.le_gt_cases 0 (Day c)) as [HD|HD]; [|apply align_month_covers; try done; lia].
    pose proof (proj1 (selected_parts n') Hs) as (_ & Hsm & Hsd). specialize (Hsm HM). specialize (Hsd HD).
    destruct (years_near n n') as [Hy0 Hy9]; [lia|]. pose proof (civil_month_day n') as [Hm12' _].
    assert (Year c < 0) as HY0 by lia. apply not_true_is_false in Hns.
    unfold alignCivil. rewrite Hns, date_mid. cbv zeta. rewrite !(proj2 (Z.leb_le 0 _)) by done. cbn [andb].
    rewrite (proj2 (Z.leb_gt 0 (Year c))) by done. rewrite <- (civil_parts n'), Hsm, Hsd.
    apply align_years_covers; [done|lia| | | |].
    + change (Z.of_nat (Z.to_nat (maxSearchYears + 4))) with 12. destruct backward; cbn [towards] in *; lia.
    + rewrite <- Hsm, <- Hsd. apply civil_date_valid.
    + rewrite <- Hsm, <- Hsd, civil_parts. lia.
    + rewrite <- Hsm, <- Hsd, civil_parts. apply reaches_mid. lia.
  - destruct (Z.le_gt_cases 0 (Day c)) as [HD|HD]; [by apply align_day_covers; auto|].
    apply not_true_is_false in Hns. unfold alignCivil. rewrite Hns. cbv zeta.
    rewrite (proj2 (Z.leb_gt 0 (Month c))), (proj2 (Z.leb_gt 0 (Day c))) by done. cbn [andb]. apply covers_mid; [lia| |lia].
    intros H0. by apply HY.
Qed.

(** ** The whole search *)

(** The day the search starts from is no further than any selected day. *)
Lemma bound_covers n : boundDay loc c backward ≠ zero_time → 50 <= year (civil n) <= 9990 →
  ∃ b, boundDay loc c backward = mid b ∧ (σ * n < σ * b → 0 <= Year c ∧ year (civil b) = Year c ∧
    ∀ n', selected n' → σ * b <= σ * n').
Proof.
  unfold boundDay. destruct (_ && _ && _); [done|]. rewrite Date_mid.
  set (y := if 0 <=? Year c then _ else _). set (m := if 0 <=? Month c then _ else _).
  set (d := if 0 <=? Day c then _ else _). set (b := day_number y m d).
  destruct (dateMatches loc c (mid b)) eqn:Edm; [|done]. pose proof (proj1 (dateMatches_mid b) Edm) as Hsb. simpl negb. intros _ Hn.
  exists b. split; [done|]. intros Hlt.
  pose proof (proj1 (selected_parts b) Hsb) as (Hby & Hbm & Hbd).
  assert (1 <= m <= 12) as Hm.
  { unfold m. destruct (Z.leb_spec 0 (Month c)); [by apply Month_range|destruct backward; lia]. }
  assert (1 <= d <= 31) as Hd.
  { unfold d. destruct (Z.leb_spec 0 (Day c)); [by apply Day_range|destruct backward; lia]. }
  assert (0 <= Year c) as HY.
  { destruct (Z.le_gt_cases 0 (Year c)) as [|HY]; [done|]. exfalso.
    assert (y = if backward then 9999 else 1) as Ey by (unfold y; by rewrite (proj2 (Z.leb_gt 0 (Year c)) HY)).
    assert (b = year_start y + month_start y m + (d - 1)) as Eb by (by apply day_number_valid). rewrite Ey in Eb.
    clearbody y m d b.
    destruct (month_start_range (if backward then 9999 else 1) m Hm) as [Hs1 Hs2].
    pose proof (year_length_pos (if backward then 9999 else 1)).
    pose proof (month_length_range (if backward then 9999 else 1) m Hm).
    change (year (civil n)) with (year_of n) in Hn. pose proof (year_of_bounds n) as Hb.
    destruct backward; cbn [towards] in *.
    - pose proof (year_start_mono (year_of n + 1) 9999). lia.
    - pose proof (year_start_mono 50 (year_of n)). change (year_start 1) with 0 in *.
      change (year_start 50) with 17897 in *. lia. }
  split; [done|]. split; [auto|]. intros n' (Hsy & Hsm & Hsd)%selected_parts. specialize (Hby HY). specialize (Hsy HY).
  assert (y = Year c) as Hy by (unfold y; by rewrite (proj2 (Z.leb_le 0 (Year c)) HY)).
  assert (month (civil b) = m) as Hbm'.
  { destruct (Z.le_gt_cases 0 (Month c)) as [HM|HM].
    - unfold m. rewrite (proj2 (Z.leb_le 0 (Month c)) HM). auto.
    - assert (m = if backward then 12 else 1) as Em by (unfold m; by rewrite (proj2 (Z.leb_gt 0 (Month c)) HM)).
      unfold b. rewrite civil_valid_date; [done|]. split; cbn [year month day]; [done|].
      assert (month_length y m = 31) as ->; [|done]. rewrite Em. unfold month_length.
      destruct backward; cbv [month_start]; simpl; destruct (leap y); lia. }
  assert (day (civil b) = d) as Hbd'.
  { pose proof (civil_parts b) as E. rewrite Hby, Hbm', <- Hy in E. unfold b in E at 2.
    rewrite !day_number_valid in E by done. lia. }
  pose proof (civil_month_day n') as [Hm12 Hd31]. apply days_follow. right. split; [lia|].
  rewrite Hbm', Hbd'. unfold m, d in *.
  destruct (Z.leb_spec 0 (Month c)), (Z.leb_spec 0 (Day c)); destruct backward; cbn [towards]; lia.
Qed.

(** Without a month the bound of a year is its first or its last selected day. *)
Lemma bound_year : 0 <= Year c → Month c < 0 → ∃ b, boundDay loc c backward = mid b ∧ year (civil b) = Year c ∧
  (backward = true → 0 < b).
Proof.
  intros HY HM. unfold boundDay. rewrite (proj2 (Z.ltb_ge (Year c) 0)) by done. cbn [andb]. rewrite Date_mid.
  rewrite (proj2 (Z.leb_le 0 (Year c)) HY), (proj2 (Z.leb_gt 0 (Month c)) HM).
  set (m := if backward then 12 else 1). set (d := if 0 <=? Day c then _ else _).
  assert (1 <= m <= 12) as Hm by (unfold m; destruct backward; lia).
  assert (1 <= d <= 31) as Hd.
  { unfold d. destruct (Z.leb_spec 0 (Day c)); [by apply Day_range|destruct backward; lia]. }
  assert (valid_date {| year := Year c; month := m; day := d |}) as Hv.
  { split; cbn [year month day]; [done|]. assert (month_length (Year c) m = 31) as ->; [|done]. unfold m, month_length.
    destruct backward; cbv [month_start]; simpl; destruct (leap (Year c)); lia. }
  set (b := day_number (Year c) m d). assert (civil b = {| year := Year c; month := m; day := d |}) as Ec by (by apply civil_valid_date).
  assert (selected b) as Hs.
  { apply selected_parts. rewrite Ec. cbn [year month day]. split; [done|]. split; [lia|]. intros HD. unfold d.
    by rewrite (proj2 (Z.leb_le 0 (Day c)) HD). }
  apply dateMatches_mid in Hs. rewrite Hs. exists b. split; [done|]. split; [by rewrite Ec|]. intros Eb.
  unfold b. rewrite day_number_valid by done. unfold m. rewrite Eb. pose proof (Year_range c Hc HY).
  pose proof (year_start_mono 1 (Year c)). change (year_start 1) with 0 in *.
  cbv [month_start]. destruct (leap (Year c)); lia.
Qed.

Lemma start_covers from : let nf := local loc from / 86400 in 50 <= year (civil nf) <= 9990 →
  match search_start loc c from backward with
  | None => ∀ n', selected n' → σ * nf <= σ * n' → False
  | Some start => ∃ N, start = mid N ∧ σ * nf <= σ * N ∧ (0 <= Year c → Month c < 0 → year (civil N) = Year c) ∧
      ∀ n', selected n' → σ * nf <= σ * n' → σ * N <= σ * n'
  end.
Proof.
  intros nf Hnf. unfold search_start. rewrite Date_mid. change (date_of loc from) with (civil nf). rewrite civil_parts.
  assert (0 < nf) as Hpos.
  { change (year (civil nf)) with (year_of nf) in Hnf. pose proof (year_of_bounds nf).
    pose proof (year_start_mono 50 (year_of nf)). change (year_start 50) with 17897 in *. lia. }
  assert (∀ b, beyond backward (mid nf) (mid b) = true ↔ σ * nf < σ * b) as Hbey.
  { intros b. unfold beyond. destruct backward; rewrite Z.ltb_lt, mid_lt; cbn [towards]; lia. }
  destruct (negb (IsZero (boundDay loc c backward)) && beyond backward (mid nf) (boundDay loc c backward)) eqn:Eb.
  - apply andb_true_iff in Eb as [Hz%negb_true_iff%Z.eqb_neq Hb].
    destruct (bound_covers nf Hz Hnf) as (b & Eb & Hfix). rewrite Eb in Hb |- *.
    destruct (Hfix (proj1 (Hbey b) Hb)) as (HY & Hyb & Hsel). rewrite date_mid, Hyb, Z.ltb_irrefl.
    replace (if backward then false else false) with false by (by destruct backward). rewrite andb_false_r.
    exists b. split; [done|]. split; [apply Hbey in Hb; lia|]. split; [done|]. intros n' Hs _. by apply Hsel.
  - rewrite date_mid. destruct ((0 <=? Year c) && _) eqn:Ey.
    + apply andb_true_iff in Ey as [HY%Z.leb_le Ey]. intros n' (Hsy & _)%selected_parts Hle. specialize (Hsy HY).
      pose proof (dates_follow nf n' Hle) as Hdf. rewrite Hsy in Hdf.
      destruct backward; apply Z.ltb_lt in Ey; cbn [towards] in *; lia.
    + exists nf. split; [done|]. split; [done|]. split; [|done]. intros HY HM.
      rewrite (proj2 (Z.leb_le 0 (Year c)) HY) in Ey. cbn [andb] in Ey.
      destruct (bound_year HY HM) as (b & Hb & Hyb & Hbpos). rewrite Hb in Eb.
      assert (σ * b <= σ * nf) as Hle.
      { apply andb_false_iff in Eb as [Hz|Hnb].
        - apply negb_false_iff, Z.eqb_eq, mid_zero in Hz. destruct backward; [specialize (Hbpos eq_refl); lia|cbn [towards]; lia].
        - apply not_true_iff_false in Hnb. rewrite Hbey in Hnb. lia. }
      pose proof (dates_follow b nf Hle) as Hdf. rewrite Hyb in Hdf.
      destruct backward; apply Z.ltb_ge in Ey; cbn [towards] in *; lia.
Qed.

(** An occurrence close to [from], in the direction of the search. *)
Definition near (from t : Z) : Prop := nanos t = 0 ∧ matching loc c t ∧ beyond backward from t = true ∧
  Z.abs (unix t - unix from) <= 2920 * 86400.

Lemma near_occ from t : 50 <= year (date_of loc from) → near from t → ∃ n, t = occ n ∧ selected n ∧ 0 < n ∧
  11 <= year (civil n) ∧ AllowsWeekday c (Weekday loc (occ n)) = true ∧ beyond backward from (occ n) = true ∧
  σ * (local loc from / 86400) <= σ * n <= σ * (local loc from / 86400) + 2920.
Proof.
  intros Hy (Hns & (Hm & Hw & Hcl & Hno) & Hb & Hd). set (n := local loc t / 86400). set (nf := local loc from / 86400).
  change (date_of loc from) with (civil nf) in Hy. pose proof clock_range as Hr.
  assert (tod loc t = clock c) as Ht.
  { destruct (Z.le_gt_cases (tod loc t) (clock c)) as [|Hgt]; [lia|]. exfalso. apply (Hno (clock c)); [lia|].
    unfold exists_clock. rewrite local_fixed, unix_seconds, at_local_fixed. lia. }
  assert (t = occ n) as Et.
  { unfold occ, n. unfold tod in Ht. rewrite <- Ht. rewrite !local_fixed. unfold nanos, unix, second in *. zdiv. }
  assert (σ * nf <= σ * n <= σ * nf + 2920) as Hle.
  { unfold nf, n. rewrite !local_fixed. unfold beyond, unix, second in *.
    destruct backward; apply Z.ltb_lt in Hb; cbn [towards]; zdiv. }
  assert (14900 < n) as Hn.
  { change (year (civil nf)) with (year_of nf) in Hy. pose proof (year_of_bounds nf).
    pose proof (year_start_mono 50 (year_of nf)). change (year_start 50) with 17897 in *.
    destruct backward; cbn [towards] in *; lia. }
  exists n. rewrite <- Et. split_and!; try done; try lia. apply year_least. change (year_start 11) with 3652. lia.
Qed.

Lemma fixed_steady : steady loc.
Proof. split; simpl; lia. Qed.

(** The walk is at a selected day's midnight, none passed over. *)
Definition ahead (from N t : Z) : Prop := ∀ n', selected n' → 0 < n' → 11 <= year (civil n') →
  σ * (local loc from / 86400) <= σ * n' <= σ * (local loc from / 86400) + 2920 →
  AllowsWeekday c (Weekday loc (occ n')) = true → beyond backward from (occ n') = true →
  ∃ n, t = mid n ∧ t ≠ zero_time ∧ 0 < n ∧ on_pattern loc c t ∧ in_year (year (civil n)) ∧ σ * N <= σ * n + 7 ∧
    σ * n <= σ * n'.
(** [r] is the nearest occurrence. *)
Definition nearest (from r : Z) : Prop := ∀ n', selected n' → 0 < n' → 11 <= year (civil n') →
  σ * (local loc from / 86400) <= σ * n' <= σ * (local loc from / 86400) + 2920 →
  AllowsWeekday c (Weekday loc (occ n')) = true → beyond backward from (occ n') = true →
  r ≠ zero_time ∧ if backward then occ n' <= r else r <= occ n'.

Lemma occ_follows n n' : σ * n <= σ * n' → if backward then occ n' <= occ n else occ n <= occ n'.
Proof. unfold occ, second. destruct backward; cbn [towards]; lia. Qed.

Lemma horizon_mid N : ∃ H, AddDate loc (mid N) (maxSearchYears * σ) 0 (2 * σ) = mid H ∧ σ * N + 2920 < σ * H.
Proof.
  rewrite AddDate_mid. eexists. split; [done|]. pose proof (civil_month_day N) as [Hm _].
  rewrite day_number_valid by done. pose proof (civil_parts N) as E. rewrite day_number_valid in E by done.
  pose proof (month_start_leap (year (civil N) + maxSearchYears * σ) (year (civil N)) (month (civil N))).
  unfold maxSearchYears in *. destruct backward; cbn [towards] in *.
  - pose proof (year_start_mono (year (civil N) + 8 * -1) (year (civil N))). lia.
  - pose proof (year_start_mono (year (civil N)) (year (civil N) + 8 * 1)). lia.
Qed.

Lemma round_ahead from N t H : ¬ (0 <= Year c ∧ 0 <= Month c ∧ 0 <= Day c) →
  σ * (local loc from / 86400) <= σ * N → σ * N + 2920 < σ * H → ahead from N t →
  match search_round loc c from (mid H) backward t with
  | inl t' => ahead from N t'
  | inr (Some r) => nearest from r
  | inr None => True
  end.
Proof.
  intros Hall HN HH Hah. unfold search_round.
  destruct (IsZero t) eqn:Ez.
  { intros n' Hs Hp Hy Hle Hw Hb. destruct (Hah n' Hs Hp Hy Hle Hw Hb) as (n & _ & Hz & _). by apply Z.eqb_eq in Ez. }
  destruct (beyond backward (mid H) t) eqn:Eh.
  { intros n' Hs Hp Hy Hle Hw Hb. destruct (Hah n' Hs Hp Hy Hle Hw Hb) as (n & -> & _ & _ & _ & _ & _ & Hn). exfalso.
    unfold beyond in Eh. destruct backward; rewrite Z.ltb_lt, mid_lt in Eh; cbn [towards] in *; lia. }
  destruct ((0 <=? Year c) && _) eqn:Ey.
  { intros n' Hs Hp Hy Hle Hw Hb. destruct (Hah n' Hs Hp Hy Hle Hw Hb) as (n & -> & _ & _ & _ & _ & _ & Hn). exfalso.
    apply andb_true_iff in Ey as [HY%Z.leb_le Ey]. rewrite date_mid in Ey. pose proof (dates_follow n n' Hn) as Hdf.
    destruct (proj1 (selected_parts n') Hs) as [Hsy _]. specialize (Hsy HY).
    destruct backward; apply Z.ltb_lt in Ey; cbn [towards] in *; lia. }
  assert (∀ n n', t = mid n → 0 < n → on_pattern loc c t → in_year (year (civil n)) → σ * N <= σ * n + 7 → selected n' → 0 < n' → 11 <= year (civil n') →
    σ * (local loc from / 86400) <= σ * n' <= σ * (local loc from / 86400) + 2920 → σ * n < σ * n' →
    ∃ n2, nextCivil loc c t backward = mid n2 ∧ nextCivil loc c t backward ≠ zero_time ∧ 0 < n2 ∧
      on_pattern loc c (nextCivil loc c t backward) ∧ in_year (year (civil n2)) ∧ σ * N <= σ * n2 + 7 ∧ σ * n2 <= σ * n') as Hnext.
  { intros n n' -> Hn Hpat HY HN7 Hs Hp Hy Hle Hlt. pose proof (dates_follow n n' ltac:(lia)) as Hdf.
    destruct (nextCivil_covers n n' Hpat HY Hall Hs Hn Hp ltac:(lia)) as (Hz & n2 & E2 & HY2 & Hn2).
    destruct (nextCivil_progress loc fixed_steady c Hc (mid n) backward Hpat) as [Hz2|[Hpat2 Hfol]]; [..|done|].
    - left. rewrite date_mid. pose proof (year_positive n Hn). lia.
    - intros Eb. rewrite date_mid. right. rewrite Eb in Hdf. cbn [towards] in Hdf. lia.
    - rewrite E2 in *. exists n2. unfold follows, mid in Hfol. rewrite !unix_seconds in Hfol.
      split_and!; try done; destruct backward; cbn [towards] in *; lia. }
  destruct (dateMatches loc c t) eqn:Edm.
  2:{ intros n' Hs Hp Hy Hle Hw Hb. destruct (Hah n' Hs Hp Hy Hle Hw Hb) as (n & -> & Hz & Hn & Hpat & HY & HN7 & Hnn).
      apply (Hnext n n'); try done. destruct (decide (n = n')) as [->|]; [|destruct backward; cbn [towards] in *; lia].
      pose proof (proj2 (dateMatches_mid n') Hs). congruence. }
  destruct (wallTimeOn loc c _ _ _) as [cand|] eqn:Ew; [|done].
  destruct (accept loc c from backward cand) eqn:Ea.
  - intros n' Hs Hp Hy Hle Hw Hb. destruct (Hah n' Hs Hp Hy Hle Hw Hb) as (n & -> & Hz & Hn & Hpat & HY & HN7 & Hnn).
    rewrite date_mid, wallTimeOn_occ in Ew by done. injection Ew as <-.
    apply accept_true in Ea as (Hcz & _). split; [done|]. by apply occ_follows.
  - intros n' Hs Hp Hy Hle Hw Hb. destruct (Hah n' Hs Hp Hy Hle Hw Hb) as (n & -> & Hz & Hn & Hpat & HY & HN7 & Hnn).
    rewrite date_mid, wallTimeOn_occ in Ew by done. injection Ew as <-.
    apply (Hnext n n'); try done. destruct (decide (n = n')) as [->|]; [|destruct backward; cbn [towards] in *; lia].
    exfalso. apply not_true_iff_false in Ea. apply Ea. unfold accept. rewrite Hw, Hb, !andb_true_r.
    apply negb_true_iff, Z.eqb_neq. unfold occ, second. pose proof clock_range. lia.
Qed.

Lemma search_nearest_day from r : 50 <= year (date_of loc from) <= 9990 → search loc c from backward = Some r → nearest from r.
Proof.
  intros Hy. unfold search. destruct ((0 <=? Year c) && (0 <=? Month c) && (0 <=? Day c)) eqn:Efix.
  { rewrite !andb_true_iff, !Z.leb_le in Efix. destruct Efix as [[HY HM] HD].
    destruct (wallTimeOn loc c (Year c) (Month c) (Day c)) as [cand|] eqn:Ew; [|done].
    intros [= <-] n' Hs Hp _ _ Hw Hb. destruct (proj1 (selected_parts n') Hs) as (Hsy & Hsm & Hsd).
    rewrite <- Hsy, <- Hsm, <- Hsd, wallTimeOn_occ in Ew by done. injection Ew as <-. unfold accept. rewrite Hw, Hb.
    assert (occ n' ≠ zero_time) as Hz by (unfold occ, second, zero_time; pose proof clock_range; lia).
    rewrite (proj2 (Z.eqb_neq _ 0) Hz : IsZero _ = false). simpl. split; [done|]. destruct backward; lia. }
  assert (¬ (0 <= Year c ∧ 0 <= Month c ∧ 0 <= Day c)) as Hall.
  { intros (HY & HM & HD). rewrite !(proj2 (Z.leb_le 0 _)) in Efix by done. done. }
  pose proof (start_covers from Hy) as Hstart. destruct (search_start loc c from backward) as [start|].
  2:{ intros [= <-] n' Hs _ _ Hle _ _. exfalso. apply (Hstart n' Hs). lia. }
  destruct Hstart as (N & -> & HN & HNy & Hsel). destruct (horizon_mid N) as (H & -> & HH).
  destruct (loop _ _ _) as [res|] eqn:El; [|done]. intros ->. revert El.
  apply (loop_inv _ (ahead from N) (λ o, match o with Some r => nearest from r | None => True end)).
  - intros t Ht. pose proof (round_ahead from N t H Hall HN HH Ht) as Hr.
    destruct (search_round loc c from (mid H) backward t) as [?|[?|]]; done.
  - intros n' Hs Hp Hy' Hle Hw Hb. specialize (Hsel n' Hs ltac:(lia)).
    assert (17000 < local loc from / 86400) as Hpos.
    { change (date_of loc from) with (civil (local loc from / 86400)) in Hy.
      change (year (civil (local loc from / 86400))) with (year_of (local loc from / 86400)) in Hy.
      pose proof (year_of_bounds (local loc from / 86400)). pose proof (year_start_mono 50 (year_of (local loc from / 86400))).
      change (year_start 50) with 17897 in *. lia. }
    assert (0 < N) as HNpos by (destruct backward; cbn [towards] in *; lia).
    destruct (alignCivil_covers N n' Hall HNy Hs ltac:(lia) Hp ltac:(lia)) as (Hz & n & En & Hyn & Hn).
    destruct (alignCivil_start loc fixed_steady c Hc (mid N) backward) as [?|[Hpat Hcl]]; [done|].
    exists n. rewrite En in *. unfold close_to, mid in Hcl. rewrite !unix_seconds in Hcl.
    split_and!; try done; destruct backward; cbn [towards] in *; lia.
Qed.

End walk.

End fixed.

Section parsed.
Context {UC : UnicodeCase}.

(** C18: In a zone with a constant offset the search for the next or the previous
    occurrence of a parsed [OnCalendar=] expression is exact: it ends, what it
    finds is an occurrence on the wanted side, and no occurrence within 2920
    days (eight years of 365) of the instant asked for is nearer; in particular it
    finds one whenever there is one in that time.  The instant lies in the years 50
    to 9990. *)
Theorem search_nearest o s c from backward : -86400 < o < 86400 → ParseCalendar s = Ok c →
  50 <= year (date_of (fixed_zone o) from) <= 9990 →
  ∃ r, search (fixed_zone o) c from backward = Some r ∧
    (r = zero_time ∨ beyond backward from r = true ∧ matching (fixed_zone o) c r) ∧
    ∀ t, nanos t = 0 → matching (fixed_zone o) c t → beyond backward from t = true →
      Z.abs (unix t - unix from) <= 2920 * 86400 →
      r ≠ zero_time ∧ if backward then t <= r else r <= t.
Proof.
  intros Ho Hp Hy. pose proof (parsed_well_formed s c Hp) as Hc.
  destruct (search_ends _ (fixed_steady o Ho) c Hc from backward ltac:(lia)) as [r Hr]. exists r. split; [done|].
  split; [by apply search_sound in Hr|]. intros t Hn Hm Hb Hd.
  destruct (near_occ o c Hc backward from t ltac:(lia)) as (n & -> & Hs & Hp' & Hy' & Hw & Hb' & Hle); [done|].
  by apply (search_nearest_day o Ho c Hc backward from r Hy Hr n).
Qed.

End parsed.

(** The next leap day from March 2026 on. *)
Definition leap_day : Calendar := match ParseCalendar "*-02-29 03:00" with Ok c => c | Fail _ => wildcard "" 0 0 0 end.
Definition march_2026 : Z := Date (fixed_zone 3600) 2026 3 7 12 0 0 0.
Definition february_2028 : Z := Date (fixed_zone 3600) 2028 2 29 3 0 0 0.
Lemma search_nearest_witness : ∃ r, search (fixed_zone 3600) leap_day march_2026 false = Some r ∧ r = february_2028 ∧
  ∀ t, nanos t = 0 → matching (fixed_zone 3600) leap_day t → beyond false march_2026 t = true →
    Z.abs (unix t - unix march_2026) <= 2920 * 86400 → r ≠ zero_time ∧ r <= t.
Proof.
  destruct (search_nearest 3600 "*-02-29 03:00" leap_day march_2026 false) as (r & Hr & _ & Hn);
    [split; reflexivity|vm_compute; reflexivity|split; apply (bool_decide_unpack _); vm_compute; exact I|].
  exists r. split; [exact Hr|]. split; [|exact Hn].
  assert (search (fixed_zone 3600) leap_day march_2026 false = Some february_2028) as E by (vm_compute; reflexivity).
  rewrite E in Hr. by apply (inj Some) in Hr.
Defined.

(** ** A day of a year long past

    The bound of a backward search takes the 31st for the last day of every
    month.  For a year and a short month there is none, the horizon then counts
    from the instant asked for, and a year more than eight years back is missed;
    with a long month it is found. *)
Definition previous_utc (s : string) (before : Z) : option Z :=
  match ParseCalendar s with Ok c => Previous (fixed_zone 0) c before | Fail _ => None end.
Lemma short_month_missed :
  previous_utc "2016-03-* 03:00" march_2026 = Some (Date (fixed_zone 0) 2016 3 31 3 0 0 0) ∧
  previous_utc "2016-04-* 03:00" march_2026 = Some zero_time.
Proof. split; vm_compute; reflexivity. Qed.
