(* ===== verification/CalendarZones.v ===== *)
(** * Calendar search in time zones

    In a zone whose offsets stay within a day of UTC and of each other a parsed
    [OnCalendar=] expression is searched to the end, and the instant found
    matches it, also across gaps and repeats of the clock.  Two zones show where
    that is not enough: Santiago, whose clocks skip midnight, where the search
    misses the very day, and Apia, which skipped a day, where it never ends. *)

From S2P Require Import Prelude GoStrings GoText GoTime Calendar CalendarSearch CalendarSpec CalendarTerm.

#[local] Open Scope Z_scope.

(** ** Zones given by a table are steady when their offsets are *)

Lemma walk_offset (P : Z → Prop) start o txs t : P o → Forall P txs.*2 → P (offset (walk start o txs t)).
Proof.
  revert start o. induction txs as [|[w o'] txs IH]; intros start o Ho Htxs; simpl in *; [done|].
  apply Forall_cons in Htxs as [? ?]. destruct (t <? w); [done|]. by apply IH.
Qed.
Lemma zone_table_steady lo hi o w1 o1 txs H : -86400 < lo → hi < 86400 → hi - lo < 86400 →
  Forall (λ x, lo <= x <= hi) (o :: o1 :: txs.*2) → steady (zone_table o w1 o1 txs H).
Proof.
  intros Hlo Hhi Hw HF. apply Forall_cons in HF as [Ho HF].
  assert (∀ t, lo <= offset (lookup (zone_table o w1 o1 txs H) t) <= hi) as Hb.
  { intros t. exact (walk_offset _ None o ((w1, o1) :: txs) t Ho HF). }
  split; intros t; [|intros t']; pose proof (Hb t); [|pose proof (Hb t')]; lia.
Qed.

(** ** Zones of the tz database around one transition *)

Definition utc (y m d h mi s : Z) : Z := Date (fixed_zone 0) y m d h mi s 0.

Definition new_york_2026 : Location :=
  zone_table (-18000) (unix (utc 2026 3 8 7 0 0)) (-14400) [(unix (utc 2026 11 1 6 0 0), -18000)] eq_refl.
Definition santiago_2026 : Location :=
  zone_table (-10800) (unix (utc 2026 4 5 3 0 0)) (-14400) [(unix (utc 2026 9 6 4 0 0), -10800)] eq_refl.
Definition apia_2011 : Location :=
  zone_table (-36000) (unix (utc 2011 12 30 10 0 0)) 50400 [] eq_refl.

Lemma new_york_steady : steady new_york_2026.
Proof. apply (zone_table_steady (-18000) (-14400)); try lia. cbn [fmap list_fmap snd]. repeat (apply Forall_cons_2; [lia|]). apply Forall_nil_2. Qed.
Lemma santiago_steady : steady santiago_2026.
Proof. apply (zone_table_steady (-14400) (-10800)); try lia. cbn [fmap list_fmap snd]. repeat (apply Forall_cons_2; [lia|]). apply Forall_nil_2. Qed.

(** The instant after [t] at which a parsed expression fires. *)
Definition next_of (loc : Location) (s : string) (t : Z) : option Z :=
  match ParseCalendar s with Ok c => Next loc c t | Fail _ => None end.
Definition previous_of (loc : Location) (s : string) (t : Z) : option Z :=
  match ParseCalendar s with Ok c => Previous loc c t | Fail _ => None end.

Section parsed.
Context {UC : UnicodeCase}.

(** Searching a parsed expression ends, in both directions, in every zone
    whose offsets stay within a day; the result is zero or lies beyond the
    starting instant, on a day the expression selects, at its wall clock or, where
    a gap swallowed that, at the first wall clock after it that exists. *)
Theorem search_finds_match loc s c from backward : steady loc → ParseCalendar s = Ok c →
  50 <= year (date_of loc from) →
  ∃ r, search loc c from backward = Some r ∧
    (r = zero_time ∨ beyond backward from r = true ∧ matching loc c r).
Proof.
  intros Hloc Hp Hy. pose proof (parsed_well_formed s c Hp) as Hc.
  destruct (search_ends loc Hloc c Hc from backward Hy) as [r Hr]. exists r. split; [done|].
  by apply search_sound in Hr.
Qed.

End parsed.

(** [Sun 02:30] in New York, asked on the eve of the change to summer time. *)
Definition sun_0230 : Calendar := match ParseCalendar "Sun 02:30" with Ok c => c | Fail _ => wildcard "" 0 0 0 end.
Lemma search_finds_match_witness :
  search new_york_2026 sun_0230 (utc 2026 3 7 12 0 0) false = Some (utc 2026 3 8 7 0 0) ∧
  ∃ r, search new_york_2026 sun_0230 (utc 2026 3 7 12 0 0) false = Some r ∧
    (r = zero_time ∨ beyond false (utc 2026 3 7 12 0 0) r = true ∧ matching new_york_2026 sun_0230 r).
Proof.
  split; [vm_compute; reflexivity|].
  apply (search_finds_match new_york_2026 "Sun 02:30" sun_0230 (utc 2026 3 7 12 0 0) false new_york_steady).
  - vm_compute. reflexivity.
  - apply (bool_decide_unpack _). vm_compute. exact I.
Defined.

(** ** A zone whose clocks skip midnight *)

(** In Santiago 2026-09-06 begins at 01:00. 03:00 exists on that day, yet the
    search from the day before finds it only a year, a month or a day later. *)
Lemma midnight_gap_misses_day :
  date_of santiago_2026 (utc 2026 9 6 6 0 0) = {| year := 2026; month := 9; day := 6 |} ∧
  Hour santiago_2026 (utc 2026 9 6 6 0 0) = 3 ∧ Minute santiago_2026 (utc 2026 9 6 6 0 0) = 0 ∧
  next_of santiago_2026 "*-09-06 03:00" (utc 2026 9 5 12 0 0) = Some (utc 2027 9 6 6 0 0) ∧
  next_of santiago_2026 "*-*-06 03:00" (utc 2026 9 5 12 0 0) = Some (utc 2026 10 6 6 0 0) ∧
  previous_of santiago_2026 "*-*-* 03:00" (utc 2026 9 7 5 30 0) = Some (utc 2026 9 5 7 0 0).
Proof. repeat split; vm_compute; reflexivity. Qed.

(** A time inside that gap does not move to 01:00 of the same date: [daily]
    has no instant on 2026-09-06 at all. *)
Lemma midnight_gap_not_moved :
  next_of santiago_2026 "daily" (utc 2026 9 5 12 0 0) = Some (utc 2026 9 7 3 0 0) ∧
  date_of santiago_2026 (utc 2026 9 6 4 0 0) = {| year := 2026; month := 9; day := 6 |} ∧
  Hour santiago_2026 (utc 2026 9 6 4 0 0) = 1.
Proof. repeat split; vm_compute; reflexivity. Qed.

(** ** A zone that skipped a day *)

(** Apia had no 2011-12-30: the day after the 29th is the 29th again, and the
    search for the next 03:00 never ends, however many rounds it is given. *)
Definition at_three : Calendar := match ParseCalendar "*-*-* 03:00" with Ok c => c | Fail _ => wildcard "" 0 0 0 end.
Definition apia_midnight : Z := utc 2011 12 29 10 0 0.
Definition apia_horizon : Z := AddDate apia_2011 apia_midnight maxSearchYears 0 2.
Lemma skipped_day_never_ends n :
  search_start apia_2011 at_three (utc 2011 12 29 22 0 0) false = Some apia_midnight ∧
  nextCivil apia_2011 at_three apia_midnight false = apia_midnight ∧
  loop n (search_round apia_2011 at_three (utc 2011 12 29 22 0 0) apia_horizon false)
    (alignCivil apia_2011 at_three apia_midnight false) = None.
Proof.
  split; [vm_compute; reflexivity|]. split; [vm_compute; reflexivity|].
  assert (alignCivil apia_2011 at_three apia_midnight false = apia_midnight) as -> by (vm_compute; reflexivity).
  apply loop_stuck. vm_compute. reflexivity.
Qed.
