(* ===== verification/UnitReport.v ===== *)
(** * Diagnostics of the unit parser

    [Issue] and the ways of selecting issues by severity of
    [internal/unit/types.go].  Every method of the parser appends to the
    parser's issues and never reads them; the library writes such a method as
    a function that returns its value together with the issues it appends. *)

From S2P Require Import Prelude.

#[local] Open Scope Z_scope.

Definition Severity := string.
Definition SeverityError : Severity := "error".
Definition SeverityWarning : Severity := "warning".

Record Issue := {
  IssuePath : string;
  IssueLine : Z;
  IssueSeverity : Severity;
  Message : error;
}.

#[global] Instance Issue_eq_dec : EqDecision Issue.
Proof. solve_decision. Defined.

Definition Errors (iss : list Issue) : list Issue :=
  filter (λ i, IssueSeverity i = SeverityError) iss.
Definition Warnings (iss : list Issue) : list Issue :=
  filter (λ i, IssueSeverity i = SeverityWarning) iss.
Fixpoint HasError (iss : list Issue) : bool :=
  match iss with
  | [] => false
  | i :: iss' => if decide (IssueSeverity i = SeverityError) then true else HasError iss'
  end.

(** ** Values with the issues found on the way *)

Definition reported (A : Type) : Type := A * list Issue.

Definition keep {A} (a : A) : reported A := (a, []).
Definition also {A B} (c : reported A) (k : A → reported B) : reported B :=
  let '(a, iss) := c in let '(b, iss') := k a in (b, iss ++ iss').

Declare Scope unit_scope.
Delimit Scope unit_scope with unit.
Notation "x <~ c ;; k" := (also c (λ x, k))
  (at level 60, c at next level, right associativity) : unit_scope.
Notation "c ;;; k" := (also c (λ _ : unit, k))
  (at level 60, right associativity) : unit_scope.

(** [p.errorf] and [p.warnf] for a parser whose path is [path]. *)
Definition error_at (path : string) (line : Z) (m : error) : reported unit :=
  ((), [{| IssuePath := path; IssueLine := line; IssueSeverity := SeverityError; Message := m |}]).
Definition warn_at (path : string) (line : Z) (m : error) : reported unit :=
  ((), [{| IssuePath := path; IssueLine := line; IssueSeverity := SeverityWarning; Message := m |}]).

(** ** Lemmas *)

Lemma HasError_app iss1 iss2 : HasError (iss1 ++ iss2) = HasError iss1 || HasError iss2.
Proof. induction iss1 as [|i iss1 IH]; [done|]. simpl. by case_decide. Qed.

Lemma HasError_spec iss : HasError iss = true ↔ ∃ i, i ∈ iss ∧ IssueSeverity i = SeverityError.
Proof.
  induction iss as [|i iss IH]; simpl.
  - split; [done|]. by intros (i & ?%not_elem_of_nil & _).
  - case_decide.
    + split; [intros _; exists i; split; [by left|done]|done].
    + rewrite IH. split; intros (j & Hj & Hs); exists j; (split; [|done]); [by right|].
      by apply elem_of_cons in Hj as [->|?].
Qed.

Lemma HasError_Errors iss : HasError iss = false ↔ Errors iss = [].
Proof.
  unfold Errors. induction iss as [|i iss IH]; simpl; [done|].
  rewrite filter_cons. by case_decide.
Qed.

Lemma snd_also {A B} (c : reported A) (k : A → reported B) : (also c k).2 = c.2 ++ (k c.1).2.
Proof. destruct c as [a iss]. simpl. by destruct (k a). Qed.

Lemma fst_also {A B} (c : reported A) (k : A → reported B) : (also c k).1 = (k c.1).1.
Proof. destruct c as [a iss]. simpl. by destruct (k a). Qed.

(** A computation whose issues are no errors. *)
Definition clean {A} (c : reported A) : Prop := HasError c.2 = false.

Lemma clean_also {A B} (c : reported A) (k : A → reported B) :
  clean (also c k) ↔ clean c ∧ clean (k c.1).
Proof. unfold clean. by rewrite snd_also, HasError_app, orb_false_iff. Qed.

Lemma clean_error path line m : ¬ clean (error_at path line m).
Proof. done. Qed.
Lemma clean_warn path line m : clean (warn_at path line m).
Proof. done. Qed.
Lemma clean_keep {A} (a : A) : clean (keep a).
Proof. done. Qed.

(** All issues of a computation satisfy [P]. *)
Definition issues_all {A} (P : Issue → Prop) (c : reported A) : Prop := Forall P c.2.

Lemma issues_all_also {A B} P (c : reported A) (k : A → reported B) :
  issues_all P c → issues_all P (k c.1) → issues_all P (also c k).
Proof. unfold issues_all. rewrite snd_also, Forall_app. done. Qed.

#[export] Hint Resolve clean_warn clean_keep : go.

(** [yields c a]: the computation returns [a], and none of its issues is an
    error. *)
Definition yields {A} (c : reported A) (a : A) : Prop := clean c ∧ c.1 = a.

Lemma yields_also {A B} (c : reported A) (k : A → reported B) b :
  yields (also c k) b ↔ ∃ a, yields c a ∧ yields (k a) b.
Proof.
  unfold yields. rewrite clean_also, fst_also. split.
  - intros [[H1 H2] H3]. by exists c.1.
  - by intros (a & [H1 <-] & [H2 H3]).
Qed.

Lemma yields_keep {A} (a b : A) : yields (keep a) b ↔ b = a.
Proof. unfold yields. split; [by intros [_ <-]|intros ->; done]. Qed.

Lemma yields_error {B} path line m (k : unit → reported B) b :
  yields (also (error_at path line m) k) b ↔ False.
Proof. rewrite yields_also. split; [|done]. intros (a & [H _] & _). by apply clean_error in H. Qed.

Lemma yields_warn {B} path line m (k : unit → reported B) b :
  yields (also (warn_at path line m) k) b ↔ yields (k ()) b.
Proof.
  rewrite yields_also. split; [by intros ([] & _ & ?)|]. intros ?. exists (). split; [|done]. by split.
Qed.
