(* ===== verification/UnitIni.v ===== *)
(** * The syntax of unit files: internal/unit/ini.go

    Lines, continuations, sections and entries, with the diagnostics for what
    is not of that shape; and the reader of booleans. *)

From S2P Require Import Prelude GoStrings GoText UnitReport.
From Stdlib Require Import Ascii.

#[local] Open Scope Z_scope.
#[local] Open Scope unit_scope.

Record iniEntry := { key : string; value : string; line : Z }.
Record iniSection := { sec_name : string; sec_line : Z; entries : list iniEntry }.
Record rawLine := { raw_line : Z; text : string }.

Definition backslash : ascii := "\"%char.

(** [unicode.IsSpace] of the last rune of the text before the backslash. *)
Definition isLineContinuation (s : string) : bool :=
  if negb (HasSuffix s "\") then false
  else
    let prefix := prefix_to s (String.length s - 1) in
    match last (runes (bytes prefix)) with
    | None => false
    | Some (r, _) => IsSpace r
    end.

Definition splitLines (s : string) : list string := Split (unix_newlines s) LF.

Definition stripBOM (src : string) : string :=
  match bytes src with
  | a :: b :: c :: l =>
    if (b2z a =? 0xEF) && (b2z b =? 0xBB) && (b2z c =? 0xBF) then str l else src
  | _ => src
  end.

(** The loops of [joinContinuations]: [n] is the number of the line at which
    the logical line [text] started, [i] that of the line read last. *)
Fixpoint join_from (path : string) (n i : Z) (text : string) (rest : list string) :
    list rawLine * list Issue :=
  if isLineContinuation text then
    match rest with
    | [] =>
      ([{| raw_line := n; text := TrimSuffix text "\" |}],
       (error_at path n (ErrText "line continuation at end of file")).2)
    | l :: rest' => join_from path n (i + 1) (TrimSuffix text "\" +:+ l) rest'
    end
  else
    match rest with
    | [] => ([{| raw_line := n; text := text |}], [])
    | l :: rest' =>
      let '(out, issues) := join_from path (i + 1) (i + 1) l rest' in
      ({| raw_line := n; text := text |} :: out, issues)
    end.

Definition joinContinuations (lines : list string) (path : string) : list rawLine * list Issue :=
  match lines with
  | [] => ([], [])
  | l :: rest => join_from path 1 1 l rest
  end.

(** What one logical line is.  [trim[1 : len(trim)-1]] panics only when the
    line is a single byte, which is not both a bracket and its closing one. *)
Inductive line_content :=
| Blank
| Header (name : string)
| Entry (key value : string)
| Malformed (m : error).

(** The text between the first and the last byte. *)
Definition inner (trim : string) : string := str (take (String.length trim - 2) (drop 1 (bytes trim))).

Definition read_header (trim : string) : line_content :=
  if negb (HasSuffix trim "]") then Malformed (ErrFmt "malformed section header %q" [trim])
  else
    let name := TrimSpace (inner trim) in
    if decide (name = "") then Malformed (ErrText "empty section name") else Header name.

Definition read_entry (text trim : string) (in_section : bool) : line_content :=
  if negb in_section then Malformed (ErrText "directive outside of a section")
  else
    let '(key, value, ok) := Cut text "=" in
    if negb ok then Malformed (ErrFmt "missing '=' in %q" [trim])
    else
      let key := TrimSpace key in
      let value := TrimSpace value in
      if decide (key = "") then Malformed (ErrText "empty directive name") else Entry key value.

Definition read_line (text : string) (in_section : bool) : line_content :=
  let trim := TrimSpace text in
  if decide (trim = "") then Blank
  else if HasPrefix trim "#" || HasPrefix trim ";" then Blank
  else if HasPrefix trim "[" then read_header trim
  else read_entry text trim in_section.

(** The loop of [parseINI].  [cur] is the section that entries are appended
    to: the last one of [file.sections]. *)
Definition closed (done : list iniSection) (cur : option iniSection) : list iniSection :=
  match cur with Some s => done ++ [s] | None => done end.

Definition add_entry (s : iniSection) (e : iniEntry) : iniSection :=
  {| sec_name := sec_name s; sec_line := sec_line s; entries := entries s ++ [e] |}.

Fixpoint parse_lines (path : string) (lines : list rawLine)
    (done : list iniSection) (cur : option iniSection) : reported (list iniSection) :=
  match lines with
  | [] => keep (closed done cur)
  | rl :: lines' =>
    match read_line (text rl) (bool_decide (is_Some cur)), cur with
    | Blank, _ => parse_lines path lines' done cur
    | Header name, _ =>
      parse_lines path lines' (closed done cur)
        (Some {| sec_name := name; sec_line := raw_line rl; entries := [] |})
    | Entry k v, Some s =>
      parse_lines path lines' done (Some (add_entry s {| key := k; value := v; line := raw_line rl |}))
    | Entry _ _, None => parse_lines path lines' done cur
    | Malformed m, _ => error_at path (raw_line rl) m ;;; parse_lines path lines' done cur
    end
  end.

Definition parseINI (src path : string) : reported (list iniSection) :=
  let lines := splitLines (stripBOM src) in
  joined <~ joinContinuations lines path ;;
  parse_lines path joined [] None.

Section bool.
Context {UC : UnicodeCase}.

Definition parseBool (s : string) : result bool :=
  let v := ToLower (TrimSpace s) in
  if decide (v ∈ ["1"; "yes"; "y"; "true"; "t"; "on"]) then Ok true
  else if decide (v ∈ ["0"; "no"; "n"; "false"; "f"; "off"]) then Ok false
  else Fail (ErrFmt "invalid boolean %q" [s]).

Definition parseUnitNames (s : string) : list string := Fields s.

End bool.

(** ** Lines *)

Lemma HasSuffix_snoc l c : HasSuffix (str (l ++ [c])) (str [c]) = true.
Proof. apply HasSuffix_spec. exists (str l). apply (inj bytes). by rewrite bytes_app, !bytes_str. Qed.

Lemma HasSuffix_other l c p : HasSuffix (str (l ++ [c])) (str [p]) = bool_decide (c = p).
Proof.
  unfold HasSuffix. rewrite !bytes_str, reverse_snoc. cbn [reverse rev_append strip_prefix].
  apply bool_decide_ext. change (reverse [p]) with [p]. cbn [strip_prefix].
  case_decide; subst; [naive_solver|]. rewrite is_Some_alt. naive_solver.
Qed.

Lemma HasPrefix_cons c l p : HasPrefix (str (c :: l)) (str [p]) = bool_decide (c = p).
Proof.
  unfold HasPrefix. rewrite !bytes_str. cbn [strip_prefix]. apply bool_decide_ext.
  case_decide; subst; [naive_solver|]. rewrite is_Some_alt. naive_solver.
Qed.

(** Lines of which none is continued stay as they are, with their numbers. *)
Fixpoint numbered (n : Z) (ls : list string) : list rawLine :=
  match ls with
  | [] => []
  | l :: ls' => {| raw_line := n; text := l |} :: numbered (n + 1) ls'
  end.

Lemma numbered_app n ls1 ls2 :
  numbered n (ls1 ++ ls2) = numbered n ls1 ++ numbered (n + Z.of_nat (length ls1)) ls2.
Proof.
  revert n. induction ls1 as [|l ls1 IH]; intros n; cbn.
  - f_equal. lia.
  - f_equal. rewrite IH. do 2 f_equal. lia.
Qed.

Lemma join_from_plain path n l ls : Forall (λ s, isLineContinuation s = false) (l :: ls) →
  join_from path n n l ls = (numbered n (l :: ls), []).
Proof.
  revert n l. induction ls as [|l' ls IH]; intros n l [Hl Hls]%Forall_cons; cbn; rewrite Hl; [done|].
  by rewrite IH.
Qed.

Lemma joinContinuations_plain path ls : Forall (λ s, isLineContinuation s = false) ls →
  joinContinuations ls path = (numbered 1 ls, []).
Proof. destruct ls as [|l ls]; [done|]. apply join_from_plain. Qed.

(** ** Printing

    A unit file for a list of sections: a header line, then a line for each
    entry. *)

Definition print_header (s : iniSection) : string := str ("["%char :: bytes (sec_name s) ++ ["]"%char]).
Definition print_entry (e : iniEntry) : string := str (bytes (key e) ++ "="%char :: bytes (value e)).
Definition print_section (s : iniSection) : list string := print_header s :: (print_entry <$> entries s).
Definition print_lines (doc : list iniSection) : list string := mjoin (print_section <$> doc).
Definition print_ini (doc : list iniSection) : string :=
  str (concat ((λ l, bytes l ++ [LF]) <$> print_lines doc)).

(** What the syntax can express: names and values without white space at the
    ends and without line breaks, keys that do not look like a comment, a
    header or an assignment, and lines that are not continued. *)
Definition one_line (s : string) : Prop := LF ∉ bytes s ∧ CR ∉ bytes s.

Definition printable_entry (e : iniEntry) : Prop :=
  tidy (key e) ∧ tidy (value e) ∧ one_line (key e) ∧ one_line (value e) ∧
  "="%char ∉ bytes (key e) ∧
  match bytes (key e) with
  | [] => False
  | c :: _ => c ∉ ["#"; ";"; "["]%char
  end ∧
  isLineContinuation (print_entry e) = false.

Definition printable_section (s : iniSection) : Prop :=
  tidy (sec_name s) ∧ sec_name s ≠ "" ∧ one_line (sec_name s) ∧ Forall printable_entry (entries s).

#[global] Instance printable_entry_dec e : Decision (printable_entry e).
Proof. unfold printable_entry, one_line. destruct (bytes (key e)); apply _. Defined.
#[global] Instance printable_section_dec s : Decision (printable_section s).
Proof. unfold printable_section, one_line. apply _. Defined.

(** The sections with the numbers of the lines they are printed on. *)
Fixpoint place_entries (n : Z) (es : list iniEntry) : list iniEntry :=
  match es with
  | [] => []
  | e :: es' => {| key := key e; value := value e; line := n |} :: place_entries (n + 1) es'
  end.
Definition place_section (n : Z) (s : iniSection) : iniSection :=
  {| sec_name := sec_name s; sec_line := n; entries := place_entries (n + 1) (entries s) |}.
Fixpoint place (n : Z) (doc : list iniSection) : list iniSection :=
  match doc with
  | [] => []
  | s :: doc' => place_section n s :: place (n + Z.of_nat (length (print_section s))) doc'
  end.

Lemma tidy_brackets name : tidy name → tidy (str ("["%char :: bytes name ++ ["]"%char])).
Proof.
  intros Ht. assert (tidy "") as H0 by (by apply (bool_decide_unpack _)).
  pose proof (tidy_around name "]"%char "" eq_refl eq_refl Ht H0) as H1.
  pose proof (tidy_around "" "["%char _ eq_refl eq_refl H0 H1) as H2.
  by rewrite bytes_str in H2.
Qed.

Lemma inner_brackets a l b : inner (str (a :: l ++ [b])) = str l.
Proof.
  unfold inner. f_equal. rewrite bytes_str. cbn [drop].
  assert (String.length (str (a :: l ++ [b])) = S (S (length l))) as ->.
  { rewrite <-(length_bytes (str _)), bytes_str. cbn. rewrite length_app. cbn. lia. }
  replace (S (S (length l)) - 2)%nat with (length l) by lia. by rewrite drop_0, take_app_length.
Qed.

Lemma read_line_header s b : printable_section s → read_line (print_header s) b = Header (sec_name s).
Proof.
  intros (Ht & Hne & _). unfold read_line, print_header.
  rewrite (TrimSpace_id _ (tidy_brackets _ Ht)).
  rewrite decide_False by (by intros ?%(f_equal bytes)).
  rewrite !(HasPrefix_cons _ _ _ : HasPrefix _ "#" = _), !(HasPrefix_cons _ _ _ : HasPrefix _ ";" = _).
  rewrite (HasPrefix_cons _ _ _ : HasPrefix _ "[" = _). rewrite !bool_decide_false by done.
  rewrite bool_decide_true by done. cbn [orb]. unfold read_header.
  rewrite app_comm_cons, (HasSuffix_snoc _ _ : HasSuffix _ "]" = true), <-app_comm_cons. cbn [negb].
  rewrite inner_brackets, str_bytes, (TrimSpace_id _ Ht). by rewrite decide_False.
Qed.

Lemma read_line_entry e : printable_entry e → read_line (print_entry e) true = Entry (key e) (value e).
Proof.
  intros (Hk & Hv & _ & _ & Heq & Hc & _). unfold read_line, print_entry.
  rewrite (TrimSpace_id _ (tidy_around _ "="%char _ eq_refl eq_refl Hk Hv)).
  destruct (bytes (key e)) as [|c l] eqn:Hl; [done|].
  rewrite decide_False by (by intros ?%(f_equal bytes)). cbn [app].
  rewrite (HasPrefix_cons _ _ _ : HasPrefix _ "#" = _), (HasPrefix_cons _ _ _ : HasPrefix _ ";" = _).
  rewrite (HasPrefix_cons _ _ _ : HasPrefix _ "[" = _).
  rewrite !not_elem_of_cons in Hc. rewrite !bool_decide_false by naive_solver. cbn [orb].
  unfold read_entry, Cut. rewrite !bytes_str, app_comm_cons. change (bytes "=") with ["="%char].
  rewrite cut_go_single by done. cbn [negb app]. rewrite <-Hl, !str_bytes, !TrimSpace_id by done.
  rewrite decide_False; [done|]. intros ?%(f_equal bytes). by rewrite Hl in *.
Qed.

(** Reading the printed lines of entries and sections. *)
Lemma parse_lines_entries path es rest n done s : Forall printable_entry es →
  parse_lines path (numbered n (print_entry <$> es) ++ rest) done (Some s) =
  parse_lines path rest done (Some {| sec_name := sec_name s; sec_line := sec_line s;
                                      entries := entries s ++ place_entries n es |}).
Proof.
  intros Hes. revert n s. induction Hes as [|e es He _ IH]; intros n s; cbn.
  - rewrite app_nil_r. by destruct s.
  - rewrite read_line_entry by done. rewrite IH. cbn. by rewrite <-app_assoc.
Qed.

Lemma parse_lines_section path s rest n done cur : printable_section s →
  parse_lines path (numbered n (print_section s) ++ rest) done cur =
  parse_lines path rest (closed done cur) (Some (place_section n s)).
Proof.
  intros Hs. unfold print_section. cbn [numbered app parse_lines text raw_line]. rewrite read_line_header by done.
  destruct Hs as (_ & _ & _ & Hes). by rewrite parse_lines_entries.
Qed.

Lemma parse_lines_doc path doc n m done cur : Forall printable_section doc →
  parse_lines path (numbered n (print_lines doc) ++ [{| raw_line := m; text := "" |}]) done cur =
  keep (closed done cur ++ place n doc).
Proof.
  intros Hdoc. revert n done cur. induction Hdoc as [|s doc Hs _ IH]; intros n done cur.
  - cbn. by rewrite app_nil_r.
  - unfold print_lines. rewrite fmap_cons. cbn [mjoin list_join]. rewrite numbered_app, <-app_assoc.
    rewrite parse_lines_section by done. fold (print_lines doc). rewrite IH. cbn. by rewrite <-app_assoc.
Qed.

Lemma one_line_print_lines doc : Forall printable_section doc → Forall one_line (print_lines doc).
Proof.
  intros Hdoc. unfold print_lines. apply Forall_join, Forall_fmap. eapply Forall_impl; [done|].
  intros s (_ & _ & [H1 H2] & Hes). constructor; [|apply Forall_fmap; eapply Forall_impl; [done|]].
  - unfold one_line, print_header. rewrite bytes_str. set_solver.
  - intros e (_ & _ & [? ?] & [? ?] & _). unfold one_line, compose, print_entry. rewrite bytes_str. set_solver.
Qed.

Lemma plain_print_lines doc : Forall printable_section doc →
  Forall (λ s, isLineContinuation s = false) (print_lines doc).
Proof.
  intros Hdoc. unfold print_lines. apply Forall_join, Forall_fmap. eapply Forall_impl; [done|].
  intros s (_ & _ & _ & Hes). constructor; [|apply Forall_fmap; eapply Forall_impl; [done|]].
  - unfold isLineContinuation, print_header. rewrite app_comm_cons.
    by rewrite (HasSuffix_other _ _ _ : HasSuffix _ "\" = _), bool_decide_false.
  - by intros e (_ & _ & _ & _ & _ & _ & ?).
Qed.

(** C24: the reader finds the sections and entries that a unit file consists of.  A
    file with a header line for each section, its name in brackets, and a line
    [Key=Value] for each of its entries is read as these sections and entries, each with the number of its line,
    and without an issue.  The names, keys and values are on one line and have no
    white space at their ends, a section's name is not empty, a key is not empty,
    does not start with #, ; or an opening bracket and has no = in it, and no line
    ends in a continuation. *)
Theorem parseINI_print path doc : Forall printable_section doc →
  parseINI (print_ini doc) path = (place 1 doc, []).
Proof.
  intros Hdoc. pose proof (one_line_print_lines doc Hdoc) as Hone. unfold parseINI, print_ini.
  assert (stripBOM (print_ini doc) = print_ini doc) as Hbom.
  { unfold stripBOM, print_ini. rewrite bytes_str. destruct doc as [|s doc]; [done|].
    cbn. repeat case_match; naive_solver. }
  unfold print_ini in Hbom. rewrite Hbom. unfold splitLines. rewrite unix_newlines_id, Split_lines.
  - rewrite joinContinuations_plain.
    + unfold also. rewrite numbered_app. cbn [numbered]. by rewrite parse_lines_doc.
    + apply Forall_app. split; [by apply plain_print_lines|]. by repeat constructor.
  - eapply Forall_impl; [done|]. by intros s [? ?].
  - rewrite bytes_str, elem_of_concat. intros (l & Hl & (t & -> & Ht)%list_elem_of_fmap).
    apply (proj1 (Forall_forall _ _) Hone) in Ht as [_ Ht]. set_solver.
Qed.

Lemma parseINI_print_witness :
  parseINI (print_ini [
    {| sec_name := "Unit"; sec_line := 0; entries := [{| key := "After"; value := "a.service b"; line := 0 |}] |};
    {| sec_name := "Service"; sec_line := 0; entries :=
         [{| key := "ExecStart"; value := "C:.exe"; line := 0 |}; {| key := "Environment"; value := ""; line := 0 |}] |}]) "p" =
  ([{| sec_name := "Unit"; sec_line := 1; entries := [{| key := "After"; value := "a.service b"; line := 2 |}] |};
    {| sec_name := "Service"; sec_line := 3; entries :=
         [{| key := "ExecStart"; value := "C:.exe"; line := 4 |}; {| key := "Environment"; value := ""; line := 5 |}] |}], []).
Proof.
  apply (parseINI_print "p" [
    {| sec_name := "Unit"; sec_line := 0; entries := [{| key := "After"; value := "a.service b"; line := 0 |}] |};
    {| sec_name := "Service"; sec_line := 0; entries :=
         [{| key := "ExecStart"; value := "C:.exe"; line := 0 |}; {| key := "Environment"; value := ""; line := 0 |}] |}]).
  apply (bool_decide_unpack _). by vm_compute.
Defined.

(** ** Line numbers *)

(** The issues name the file and a line of it that satisfies [P]. *)
Definition placed (path : string) (P : Z → Prop) (i : Issue) : Prop := IssuePath i = path ∧ P (IssueLine i).

Definition section_lines (P : Z → Prop) (s : iniSection) : Prop :=
  P (sec_line s) ∧ Forall (λ e, P (line e)) (entries s).

Lemma join_from_lines path n i text rest : n ≤ i →
  Forall (λ rl, n ≤ raw_line rl ≤ i + Z.of_nat (length rest)) (join_from path n i text rest).1 ∧
  Forall (placed path (λ k, n ≤ k ≤ i + Z.of_nat (length rest))) (join_from path n i text rest).2.
Proof.
  revert n i text. induction rest as [|l rest IH]; intros n i text Hi; cbn [join_from].
  - destruct (isLineContinuation text); cbn; split; repeat constructor; cbn; lia.
  - rewrite length_cons, Nat2Z.inj_succ. destruct (isLineContinuation text).
    + destruct (IH n (i + 1) (TrimSuffix text "\" +:+ l)) as [H1 H2]; [lia|].
      split; (eapply Forall_impl; [done|]).
      * cbn. lia.
      * intros ? [? ?]. split; [done|]. lia.
    + destruct (IH (i + 1) (i + 1) l) as [H1 H2]; [lia|]. destruct (join_from path _ _ _ _) as [out issues].
      split; cbn; [constructor; [cbn; lia|]|]; (eapply Forall_impl; [done|]).
      * cbn. lia.
      * intros ? [? ?]. split; [done|]. lia.
Qed.

Lemma closed_lines P ss cur : Forall (section_lines P) ss → from_option (section_lines P) True cur →
  Forall (section_lines P) (closed ss cur).
Proof. intros Hd Hc. destruct cur; [|done]. apply Forall_app. split; [done|]. by constructor. Qed.

Lemma parse_lines_lines path P lines done cur :
  Forall (λ rl, P (raw_line rl)) lines →
  Forall (section_lines P) done → from_option (section_lines P) True cur →
  Forall (section_lines P) (parse_lines path lines done cur).1 ∧
  Forall (placed path P) (parse_lines path lines done cur).2.
Proof.
  intros Hl. revert done cur. induction Hl as [|rl lines Hrl _ IH]; intros done cur Hd Hc; cbn [parse_lines].
  - split; [|done]. by apply closed_lines.
  - destruct (read_line _ _).
    + by apply IH.
    + apply IH; [by apply closed_lines|by split].
    + destruct cur as [s|]; [|by apply IH]. apply IH; [done|]. destruct Hc as [? ?].
      split; [done|]. cbn. apply Forall_app. by repeat constructor.
    + rewrite fst_also, snd_also. destruct (IH done cur Hd Hc) as [? ?]. split; [done|].
      by repeat constructor.
Qed.

(** Every section, entry and issue of a file has the number of one of its
    lines. *)
Lemma parseINI_lines path src (P := λ k, 1 ≤ k ≤ Z.of_nat (length (splitLines (stripBOM src)))) :
  Forall (section_lines P) (parseINI src path).1 ∧ Forall (placed path P) (parseINI src path).2.
Proof.
  unfold parseINI. rewrite fst_also, snd_also.
  assert (Forall (λ rl, P (raw_line rl)) (joinContinuations (splitLines (stripBOM src)) path).1 ∧
          Forall (placed path P) (joinContinuations (splitLines (stripBOM src)) path).2) as [H1 H2].
  { subst P. unfold joinContinuations. destruct (splitLines (stripBOM src)) as [|l ls]; [done|].
    destruct (join_from_lines path 1 1 l ls) as [H1 H2]; [lia|].
    split; (eapply Forall_impl; [done|]); rewrite length_cons.
    - cbn. lia.
    - intros ? [? ?]. split; [done|]. lia. }
  destruct (parse_lines_lines path P _ [] None H1) as [H3 H4]; [done..|].
  split; [done|]. by apply Forall_app.
Qed.
