(* ===== verification/GoFloat.v ===== *)
(** * float64

    Go's [float64] is IEEE 754 binary64; the Standard Library's [SpecFloat] is
    an executable specification of it.  The file has the operations that the
    parser of durations uses, and shows them exact on integers of at most 53
    bits. *)

From S2P Require Import Prelude GoStrings GoText.
From Stdlib Require Import Ascii Floats.SpecFloat.

#[local] Open Scope Z_scope.

Definition float64 := spec_float.
Definition prec : Z := 53.
Definition emax : Z := 1024.

Definition float_mul : float64 → float64 → float64 := SFmul prec emax.
Definition float_div : float64 → float64 → float64 := SFdiv prec emax.
(** [a > b]; false when one of them is not a number. *)
Definition float_gt (a b : float64) : bool := SFltb b a.
(** [float64(n)]. *)
Definition float_of_int (n : Z) : float64 := binary_normalize prec emax n 0 false.
Definition IsNaN (f : float64) : bool := match f with S754_nan => true | _ => false end.
Definition IsInf (f : float64) : bool := match f with S754_infinity _ => true | _ => false end.

(** [strconv.ParseFloat(s, 64)] of a text of digits and dots: at least one
    digit, at most one dot, and the nearest float64 of the decimal number; a
    number that rounds to infinity is an error. *)
Definition decimal (s : string) : option (Z * nat) :=
  let '(int, frac, _) := Cut s "." in
  match bytes int ++ bytes frac with
  | [] => None
  | l => match digits_go l 0 with
         | Some n => Some (n, length (bytes frac))
         | None => None
         end
  end.

Definition ParseFloat (s : string) : option float64 :=
  match decimal s with
  | None => None
  | Some (Z.pos m, k) =>
    match float_div (S754_finite false m 0) (S754_finite false (Z.to_pos (10 ^ Z.of_nat k)) 0) with
    | S754_infinity _ => None
    | f => Some f
    end
  | Some _ => Some (S754_zero false)
  end.

(** Truncation towards zero. *)
Definition float_trunc (f : float64) : option Z :=
  match f with
  | S754_zero _ => Some 0
  | S754_finite s m e =>
    let n := if 0 <=? e then Z.pos m * 2 ^ e else Z.pos m / 2 ^ (- e) in
    Some (if s then - n else n)
  | _ => None
  end.

(** [int64(f)]: the language leaves the result to the implementation where
    the truncated value does not fit. *)
Class FloatConversion := {
  out_of_range : float64 → Z;
  out_of_range_int64 : ∀ f, - 2 ^ 63 ≤ out_of_range f < 2 ^ 63;
}.

(** The conversion instruction of amd64. *)
#[global, refine] Instance amd64 : FloatConversion := {| out_of_range _ := - 2 ^ 63 |}.
Proof. done. Defined.

Definition int64_of_float `{!FloatConversion} (f : float64) : Z :=
  match float_trunc f with
  | Some n => if (- 2 ^ 63 <=? n) && (n <? 2 ^ 63) then n else out_of_range f
  | None => out_of_range f
  end.

Lemma int64_of_float_range `{!FloatConversion} f : - 2 ^ 63 ≤ int64_of_float f < 2 ^ 63.
Proof.
  unfold int64_of_float. pose proof (out_of_range_int64 f).
  destruct (float_trunc f) as [n|]; [|done].
  destruct (_ && _) eqn:E; [|done]. rewrite andb_true_iff, Z.leb_le, Z.ltb_lt in E. done.
Qed.

(** ** Exactness on integers *)

Lemma digits2_log2 p : Z.pos (digits2_pos p) = Z.log2 (Z.pos p) + 1.
Proof.
  induction p as [p IH|p IH|]; cbn [digits2_pos]; [| |done].
  - rewrite Pos2Z.inj_succ, IH, (Pos2Z.inj_xI p), Z.log2_succ_double by lia. lia.
  - rewrite Pos2Z.inj_succ, IH, (Pos2Z.inj_xO p), Z.log2_double by lia. lia.
Qed.

Lemma iter_pos_nat {A} (f : A → A) p x : iter_pos f p x = Nat.iter (Pos.to_nat p) f x.
Proof.
  revert x. induction p as [p IH|p IH|]; intros x; cbn [iter_pos]; [| |done].
  - rewrite !IH, <-Nat.iter_add, Pos2Nat.inj_xI, <-Nat.iter_succ_r. f_equal. lia.
  - rewrite !IH, <-Nat.iter_add, Pos2Nat.inj_xO. f_equal. lia.
Qed.

(** Shifting out zeros loses nothing. *)
Lemma shr_zeros q n : 0 < q →
  Nat.iter n shr_1 (shr_record_of_loc (q * 2 ^ Z.of_nat n) loc_Exact) = shr_record_of_loc q loc_Exact.
Proof.
  intros Hq. induction n as [|n IH]; [cbn; f_equal; lia|].
  rewrite Nat.iter_succ_r, <-IH. f_equal.
  rewrite Nat2Z.inj_succ, Z.pow_succ_r by lia.
  replace (q * (2 * 2 ^ Z.of_nat n)) with (2 * (q * 2 ^ Z.of_nat n)) by lia.
  destruct (q * 2 ^ Z.of_nat n) as [|p|p] eqn:E; [lia|done|].
  assert (0 < 2 ^ Z.of_nat n) by (apply Z.pow_pos_nonneg; lia). nia.
Qed.

(** The float64 of a positive integer of at most 53 bits. *)
Definition exact (n : Z) : float64 :=
  S754_finite false (Z.to_pos (n * 2 ^ (52 - Z.log2 n))) (Z.log2 n - 52).

Lemma shr_fexp_zeros q j e : 0 < q → Z.log2 q = 52 → 0 ≤ j → -1074 ≤ e + j →
  shr_fexp prec emax (q * 2 ^ j) e loc_Exact = (shr_record_of_loc q loc_Exact, e + j).
Proof.
  intros Hq Hlq Hj Hej. unfold shr_fexp.
  assert (Zdigits2 (q * 2 ^ j) = 53 + j) as ->.
  { assert (0 < q * 2 ^ j) as Hpos by (apply Z.mul_pos_pos; [done|apply Z.pow_pos_nonneg; lia]).
    pose proof (Z.log2_mul_pow2 q j Hq Hj) as Hl. destruct (q * 2 ^ j) as [|p|p]; [lia| |lia].
    cbn [Zdigits2]. rewrite digits2_log2. lia. }
  unfold fexp, emin, prec, emax. rewrite Z.max_l by lia.
  replace (53 + j + e - 53 - e) with j by lia. unfold shr. destruct j as [|p|p]; [|..|lia].
  - f_equal; [f_equal; lia|lia].
  - rewrite iter_pos_nat. rewrite <-(positive_nat_Z p) at 1. by rewrite shr_zeros.
Qed.

Lemma log2_53 n : 0 < n < 2 ^ 53 → 0 ≤ Z.log2 n ≤ 52.
Proof. intros Hn. split; [apply Z.log2_nonneg|]. apply Z.lt_succ_r, Z.log2_lt_pow2; lia. Qed.

(** Rounding such an integer times a power of two, when the product has at
    least 53 bits, keeps its value. *)
Lemma round_exact n k : 0 < n < 2 ^ 53 → 52 - Z.log2 n ≤ k →
  binary_round_aux prec emax false (n * 2 ^ k) (- k) loc_Exact = exact n.
Proof.
  intros Hn Hk. pose proof (log2_53 n Hn) as Hlog.
  set (q := n * 2 ^ (52 - Z.log2 n)).
  assert (0 < q) as Hq by (apply Z.mul_pos_pos; [lia|apply Z.pow_pos_nonneg; lia]).
  assert (Z.log2 q = 52) as Hlq by (unfold q; rewrite Z.log2_mul_pow2 by lia; lia).
  unfold binary_round_aux, exact. fold q.
  replace (n * 2 ^ k) with (q * 2 ^ (k - (52 - Z.log2 n))).
  2:{ unfold q. rewrite <-Z.mul_assoc, <-Z.pow_add_r by lia. do 2 f_equal. lia. }
  rewrite (shr_fexp_zeros q) by lia. cbn [shr_m shr_record_of_loc loc_of_shr_record round_nearest_even].
  replace q with (q * 2 ^ 0) at 1 by lia. rewrite (shr_fexp_zeros q) by lia.
  cbn [shr_m shr_record_of_loc]. replace (- k + (k - (52 - Z.log2 n)) + 0) with (Z.log2 n - 52) by lia.
  destruct q as [|p|p]; [lia| |lia]. by rewrite (proj2 (Z.leb_le _ _)) by (unfold emax, prec; lia).
Qed.

Lemma exact_pos n : 0 < n < 2 ^ 53 → Z.pos (Z.to_pos (n * 2 ^ (52 - Z.log2 n))) = n * 2 ^ (52 - Z.log2 n).
Proof.
  intros Hn. pose proof (log2_53 n Hn). apply Z2Pos.id.
  apply Z.mul_pos_pos; [lia|apply Z.pow_pos_nonneg; lia].
Qed.

Lemma float_mul_exact a b : 0 < a → 0 < b → a * b < 2 ^ 53 →
  float_mul (exact a) (exact b) = exact (a * b).
Proof.
  intros Ha Hb Hab. assert (0 < a < 2 ^ 53) as Ha' by nia. assert (0 < b < 2 ^ 53) as Hb' by nia.
  pose proof (log2_53 a Ha'). pose proof (log2_53 b Hb').
  unfold float_mul, exact at 1 2. cbn [SFmul xorb]. rewrite Pos2Z.inj_mul, !exact_pos by done.
  rewrite <-(round_exact (a * b) (104 - Z.log2 a - Z.log2 b)).
  - f_equal; [|lia]. replace (104 - Z.log2 a - Z.log2 b) with (52 - Z.log2 a + (52 - Z.log2 b)) by lia.
    rewrite Z.pow_add_r by lia. lia.
  - split; [lia|done].
  - pose proof (Z.log2_mul_below a b Ha Hb). lia.
Qed.

Lemma float_of_decimal m : Z.pos m < 2 ^ 53 →
  float_div (S754_finite false m 0) (S754_finite false 1 0) = exact (Z.pos m).
Proof.
  intros Hm. assert (0 < Z.pos m < 2 ^ 53) as Hm' by lia. pose proof (log2_53 _ Hm') as Hl.
  unfold float_div. cbn [SFdiv]. unfold SFdiv_core_binary. cbn [Zdigits2 digits2_pos].
  rewrite digits2_log2. unfold fexp, emin, prec, emax.
  rewrite Z.max_l, Z.min_l by lia.
  replace (0 - 0 - (Z.log2 (Z.pos m) + 1 + 0 - (1 + 0) - 53)) with (53 - Z.log2 (Z.pos m)) by lia.
  destruct (53 - Z.log2 (Z.pos m)) as [|s|s] eqn:Hs; [lia| |lia].
  rewrite Z.shiftl_mul_pow2, <-Hs by lia.
  rewrite (surjective_pairing (Z.div_eucl _ _)). 
  change (Z.div_eucl ?a 1).1 with (a / 1). change (Z.div_eucl ?a 1).2 with (a mod 1).
  rewrite Z.div_1_r, Z.mod_1_r. cbn [new_location Z.even xorb].
  replace (Z.log2 (Z.pos m) + 1 + 0 - (1 + 0) - 53) with (- (53 - Z.log2 (Z.pos m))) by lia.
  apply round_exact; [done|lia].
Qed.

(** Integers are ordered as their floats, and truncation gives them back. *)
Lemma float_trunc_exact n : 0 < n < 2 ^ 53 → float_trunc (exact n) = Some n.
Proof.
  intros Hn. pose proof (log2_53 n Hn). unfold exact, float_trunc. rewrite exact_pos by done.
  destruct (Z.leb_spec 0 (Z.log2 n - 52)).
  - replace (Z.log2 n) with 52 by lia. f_equal. lia.
  - replace (- (Z.log2 n - 52)) with (52 - Z.log2 n) by lia. rewrite Z.div_mul; [done|].
    apply Z.pow_nonzero; lia.
Qed.

Lemma float_gt_exact n m e : 0 < n < 2 ^ 53 → Z.log2 n - 52 < e →
  float_gt (exact n) (S754_finite false m e) = false.
Proof.
  intros Hn He. unfold float_gt, SFltb, exact. cbn [SFcompare].
  by rewrite (proj2 (Z.compare_gt_iff _ _)) by lia.
Qed.
