(* ===== verification/UnitDuration.v ===== *)
(** * Time spans: internal/unit/duration.go

    The reader of durations such as [5s] or [1h 30min], on floats as the code
    has it, with its range and its exactness on whole numbers. *)

From S2P Require Import Prelude GoStrings GoText GoFloat UnitTypes.
From Stdlib Require Import Ascii Floats.SpecFloat.

#[local] Open Scope Z_scope.
#[local] Open Scope go_scope.

Definition maxDuration : Duration := 2 ^ 63 - 1.

Definition durationUnits : gmap string Duration := list_to_map [
  ("us", Microsecond); ("usec", Microsecond);
  (str (encode_rune 0xB5) +:+ "s", Microsecond); (str (encode_rune 0x3BC) +:+ "s", Microsecond);
  ("ms", Millisecond); ("msec", Millisecond);
  ("s", Second); ("sec", Second); ("second", Second); ("seconds", Second);
  ("m", Minute); ("min", Minute); ("minute", Minute); ("minutes", Minute);
  ("h", Hour); ("hr", Hour); ("hour", Hour); ("hours", Hour);
  ("d", 24 * Hour); ("day", 24 * Hour); ("days", 24 * Hour);
  ("w", 7 * 24 * Hour); ("week", 7 * 24 * Hour); ("weeks", 7 * 24 * Hour)].

(** ** Reading bytes *)

(** [unicode.IsSpace(rune(s[i]))], [s[i] >= '0' && s[i] <= '9' || s[i] == '.']. *)
Definition byte_space (c : ascii) : bool := IsSpace (b2z c).
Definition number_byte (c : ascii) : bool :=
  ((0x30 <=? b2z c) && (b2z c <=? 0x39)) || bool_decide (c = "."%char).
Definition unit_rune (r : Z) : bool :=
  (r =? 0xB5) || (r =? 0x3BC) ||
  ((0x61 <=? r) && (r <=? 0x7A)) || ((0x41 <=? r) && (r <=? 0x5A)).

(** The bytes from the front that satisfy [f], and the rest. *)
Fixpoint span (f : ascii → bool) (l : list ascii) : list ascii * list ascii :=
  match l with
  | c :: l' => if f c then let '(a, b) := span f l' in (c :: a, b) else ([], l)
  | [] => ([], [])
  end.

(** The runes of a unit from the front, and the bytes after them. *)
Fixpoint span_unit (ps : list (Z * list ascii)) : list ascii * list ascii :=
  match ps with
  | (r, b) :: ps' =>
    if unit_rune r then let '(u, rest) := span_unit ps' in (b ++ u, rest)
    else ([], concat ps.*2)
  | [] => ([], [])
  end.

Section duration.
Context {UC : UnicodeCase} {FC : FloatConversion}.

Definition durationUnit (unit : string) (n : float64) : result Duration :=
  match durationUnits !! ToLower unit with
  | None => Fail (ErrFmt "unknown unit %q" [unit])
  | Some mult =>
    if float_gt (S754_zero false) n || IsNaN n || IsInf n then Fail (ErrText "duration overflow")
    else
      let maxN := float_div (float_of_int maxDuration) (float_of_int mult) in
      if float_gt n maxN then Fail (ErrText "duration overflow")
      else
        let ns := float_mul n (float_of_int mult) in
        if float_gt ns (float_of_int maxDuration) then Fail (ErrText "duration overflow")
        else
          let d := int64_of_float ns in
          if d <? 0 then Fail (ErrText "duration overflow") else Ok d
  end.

(** The loop of [ParseDuration] over what is left of the text.  Every round
    reads at least one digit, so the length of the text bounds the rounds;
    [None] is a run out of rounds. *)
Fixpoint spans (rounds : nat) (s : string) (l : list ascii) (total : Duration) (parsed : bool) :
    option (result Duration) :=
  match rounds with
  | O => None
  | S rounds' =>
    match (span byte_space l).2 with
    | [] => Some (if parsed then Ok total else Fail (ErrFmt "invalid duration %q" [s]))
    | l =>
      let '(numStr, l) := span number_byte l in
      match numStr with
      | [] => Some (Fail (ErrFmt "invalid duration %q" [s]))
      | _ =>
        let l := (span byte_space l).2 in
        let '(unit, l) := span_unit (runes l) in
        let unit := match unit with [] => "s" | _ => str unit end in
        match ParseFloat (str numStr) with
        | None => Some (Fail (ErrFmt "invalid duration %q" [s]))
        | Some nval =>
          match durationUnit unit nval with
          | Fail e => Some (Fail (ErrWrap ("invalid duration: " +:+ s) e))
          | Ok d =>
            if (0 <? d) && (maxDuration - d <? total)
            then Some (Fail (ErrFmt "invalid duration %q: duration overflow" [s]))
            else spans rounds' s l (total + d) true
          end
        end
      end
    end
  end.

Definition ParseDuration (s : string) : result Duration :=
  let s := TrimSpace s in
  if decide (s = "") then Fail (ErrText "empty duration")
  else if EqualFold s "infinity" then Ok maxDuration
  else match spans (S (String.length s)) s (bytes s) 0 false with
       | Some r => r
       | None => Fail (ErrText "unreachable")
       end.

(** ** Termination and range *)

Lemma span_app f l : (span f l).1 ++ (span f l).2 = l.
Proof. induction l as [|c l IH]; [done|]. cbn. destruct (f c); [|done]. destruct (span f l). cbn in *. by f_equal. Qed.

Lemma span_unit_app ps : (span_unit ps).1 ++ (span_unit ps).2 = concat ps.*2.
Proof.
  induction ps as [|[r b] ps IH]; [done|]. cbn [span_unit]. destruct (unit_rune r); [|done].
  destruct (span_unit ps). cbn in *. by rewrite <-app_assoc, IH.
Qed.

Lemma span_length f l : (length (span f l).2 ≤ length l)%nat.
Proof. rewrite <-(span_app f l) at 2. rewrite length_app. lia. Qed.

Lemma span_unit_length l : (length (span_unit (runes l)).2 ≤ length l)%nat.
Proof. rewrite <-(runes_concat l) at 2. rewrite <-span_unit_app, length_app. lia. Qed.

(** The rounds suffice, and every result is in range. *)
Lemma spans_range rounds s l total parsed : (length l < rounds)%nat → 0 ≤ total ≤ maxDuration →
  ∃ r, spans rounds s l total parsed = Some r ∧ ∀ d, r = Ok d → 0 ≤ d ≤ maxDuration.
Proof.
  revert l total parsed. induction rounds as [|rounds IH]; intros l total parsed Hl Ht; [lia|].
  cbn [spans]. pose proof (span_length byte_space l) as H1. destruct (span byte_space l).2 as [|c0 l0].
  { eexists. split; [done|]. destruct parsed; naive_solver. }
  destruct (span number_byte (c0 :: l0)) as [num l1] eqn:E1.
  pose proof (span_app number_byte (c0 :: l0)) as H2. rewrite E1 in H2. cbn in H2.
  destruct num as [|c1 num]; [eexists; split; [done|naive_solver]|].
  pose proof (span_length byte_space l1) as H3.
  destruct (span_unit (runes (span byte_space l1).2)) as [u l2] eqn:E2.
  pose proof (span_unit_length (span byte_space l1).2) as H4. rewrite E2 in H4. cbn in H4.
  destruct (ParseFloat _); [|eexists; split; [done|naive_solver]].
  destruct (durationUnit _ _) as [d|] eqn:Hd; [|eexists; split; [done|naive_solver]].
  assert (0 ≤ d) as Hd0.
  { unfold durationUnit in Hd. repeat case_match; simplify_eq; by apply Z.ltb_ge. }
  destruct (_ && _) eqn:E3; [eexists; split; [done|naive_solver]|].
  apply IH.
  - apply (f_equal length) in H2. cbn in *. rewrite length_app in H2. lia.
  - apply andb_false_iff in E3 as [E3|E3]; apply Z.ltb_ge in E3; lia.
Qed.

Lemma ParseDuration_range s d : ParseDuration s = Ok d → 0 ≤ d ≤ maxDuration.
Proof.
  unfold ParseDuration. intros Hd. case_decide; [done|]. case_match; [by simplify_eq|].
  destruct (spans_range (S (String.length (TrimSpace s))) (TrimSpace s) (bytes (TrimSpace s)) 0 false)
    as (r & Hr & Hrange); [rewrite length_bytes; lia|by unfold maxDuration|].
  rewrite Hr in Hd. by apply Hrange.
Qed.

(** ** Exactness on whole numbers

    Time spans written as whole numbers of ASCII unit words, separated by
    single spaces. *)

Definition span_bytes (p : Z * string) : list ascii := bytes (pretty p.1) ++ bytes p.2.
Definition print_spans (ps : list (Z * string)) : string :=
  match ps with
  | [] => ""
  | p :: ps' => str (span_bytes p ++ concat ((λ q, " "%char :: span_bytes q) <$> ps'))
  end.

Definition unit_of (u : string) : Duration :=
  match durationUnits !! u with Some mult => mult | None => 0 end.
Definition spans_total (ps : list (Z * string)) : Duration :=
  foldr (λ p acc, p.1 * unit_of p.2 + acc) 0 ps.

Definition lower_letter (c : ascii) : Prop := 0x61 ≤ b2z c ≤ 0x7A.

(** A whole number of a unit whose nanoseconds a float64 holds exactly. *)
Definition whole_span (p : Z * string) : Prop :=
  is_Some (durationUnits !! p.2) ∧ Forall lower_letter (bytes p.2) ∧
  0 ≤ p.1 ∧ p.1 * unit_of p.2 < 2 ^ 53.

(** The multipliers of the table, with the largest number each accepts. *)
Definition mult_ok (mult : Z) : Prop :=
  0 < mult < 2 ^ 53 ∧ float_of_int mult = exact mult ∧
  ∃ m e, float_div (float_of_int maxDuration) (float_of_int mult) = S754_finite false m e ∧
         - Z.log2 mult < e.

Lemma durationUnits_mult u mult : durationUnits !! u = Some mult → mult_ok mult.
Proof.
  intros Hu. apply elem_of_list_to_map_2 in Hu.
  repeat (apply elem_of_cons in Hu as [[= _ ->]|Hu];
    [split; [done|]; split; [by vm_compute|]; eexists _, _; split; [by vm_compute|by vm_compute]|]).
  by apply not_elem_of_nil in Hu.
Qed.

Lemma log2_bound n k : 0 < n → 0 < k → n * k < 2 ^ 53 → Z.log2 n + Z.log2 k ≤ 52.
Proof.
  intros Hn Hk Hnk. pose proof (Z.log2_mul_below n k Hn Hk).
  assert (Z.log2 (n * k) < 53) by (apply Z.log2_lt_pow2; lia). lia.
Qed.

Lemma durationUnit_whole u mult n : durationUnits !! u = Some mult → ToLower u = u →
  0 ≤ n → n * mult < 2 ^ 53 →
  durationUnit u (match n with Z.pos _ => exact n | _ => S754_zero false end) = Ok (n * mult).
Proof.
  intros Hu Hlow Hn Hb. destruct (durationUnits_mult u mult Hu) as ([Hm0 Hm1] & Hf & m & e & Hdiv & He).
  unfold durationUnit. rewrite Hlow, Hu, Hdiv, Hf.
  destruct n as [|p|p]; [done| |lia].
  assert (0 < Z.pos p < 2 ^ 53) as Hp by nia.
  pose proof (log2_bound (Z.pos p) mult ltac:(lia) Hm0 Hb) as Hlog.
  change (float_gt (S754_zero false) (exact (Z.pos p)) || IsNaN (exact (Z.pos p)) || IsInf (exact (Z.pos p)))
    with false. cbv iota zeta.
  rewrite float_gt_exact by lia. rewrite float_mul_exact by lia.
  assert (0 < Z.pos p * mult < 2 ^ 53) as Hp' by nia.
  pose proof (log2_53 (Z.pos p * mult) Hp').
  change (float_of_int maxDuration) with (S754_finite false (2 ^ 52) 11).
  rewrite float_gt_exact by lia. unfold int64_of_float. rewrite float_trunc_exact by done.
  rewrite (proj2 (Z.leb_le _ _)), (proj2 (Z.ltb_lt (_ * _) _)) by lia. cbn [andb].
  by rewrite (proj2 (Z.ltb_ge _ _)) by lia.
Qed.

Lemma ToLower_letters u : Forall lower_letter (bytes u) → ToLower u = u.
Proof.
  intros Hu. unfold ToLower. rewrite runes_ascii_all.
  2:{ eapply Forall_impl; [done|]. unfold lower_letter. cbn. lia. }
  rewrite <-!list_fmap_compose. apply (inj bytes). rewrite bytes_str.
  induction Hu as [|c l Hc _ IH]; [done|]. rewrite fmap_cons. cbn [concat]. rewrite IH. clear IH.
  unfold lower_letter in Hc. unfold compose, rune_ToLower, ascii_lower. cbn [fst].
  rewrite (proj2 (Z.ltb_lt _ _)), (proj2 (Z.leb_gt _ 0x5A)), andb_false_r by lia.
  unfold encode_rune. repeat case_match; rewrite ?z2b_b2z; try done; lia.
Qed.

Lemma span_all f l rest : Forall (λ c, f c = true) l →
  from_option (λ c, f c = false) True (head rest) → span f (l ++ rest) = (l, rest).
Proof.
  intros Hl Hr. induction Hl as [|c l Hc _ IH]; cbn.
  - destruct rest as [|c rest]; [done|]. cbn in *. by rewrite Hr.
  - by rewrite Hc, IH.
Qed.

Lemma span_unit_letters l rest : Forall lower_letter l →
  from_option (λ c, c = " "%char) True (head rest) → span_unit (runes (l ++ rest)) = (l, rest).
Proof.
  intros Hl Hr. induction Hl as [|c l Hc _ IH]; cbn [app].
  - destruct rest as [|c rest]; [done|]. cbn in Hr. subst c.
    rewrite runes_cons_ascii by done. cbn. by rewrite runes_concat.
  - unfold lower_letter in Hc. rewrite runes_cons_ascii by lia. cbn [span_unit]. rewrite IH.
    assert (unit_rune (b2z c) = true) as ->; [|done].
    unfold unit_rune. rewrite (proj2 (Z.leb_le 0x61 _)), (proj2 (Z.leb_le _ 0x7A)) by lia.
    cbn. by rewrite orb_true_r.
Qed.

(** The digits that a number is printed as. *)
Lemma pretty_digits n : 0 ≤ n → bytes (pretty n) ≠ [] ∧ digits_go (bytes (pretty n)) 0 = Some n ∧
  ∀ c, c ∈ bytes (pretty n) → is_Some (digit c).
Proof.
  intros Hn. destruct (decide (n = 0)) as [->|].
  - split_and!; [done|done|]. intros c Hc. apply list_elem_of_singleton in Hc as ->. by eexists.
  - destruct (pretty_pos_bytes n) as (l & -> & ? & ? & ?); [lia|]. done.
Qed.

Lemma ParseFloat_whole n : 0 ≤ n < 2 ^ 53 →
  ParseFloat (pretty n) = Some (match n with Z.pos _ => exact n | _ => S754_zero false end).
Proof.
  intros Hn. destruct (pretty_digits n) as (Hne & Hd & Hall); [lia|].
  assert (decimal (pretty n) = Some (n, 0%nat)) as Hdec.
  { unfold decimal, Cut. change (bytes ".") with ["."%char]. rewrite cut_go_none.
    - change (bytes "") with (@nil ascii). rewrite app_nil_r.
      destruct (bytes (pretty n)); [done|]. by rewrite Hd.
    - intros Hdot. destruct (Hall _ Hdot) as [x Hx]. by vm_compute in Hx. }
  unfold ParseFloat. rewrite Hdec. destruct n as [|p|p]; [done| |lia].
  change (Z.to_pos (10 ^ Z.of_nat 0)) with 1%positive. by rewrite float_of_decimal by lia.
Qed.

Lemma digit_bytes c : is_Some (digit c) → byte_space c = false ∧ number_byte c = true.
Proof. apply (every_byte (λ c, is_Some (digit c) → byte_space c = false ∧ number_byte c = true)). by vm_compute. Qed.

Lemma letter_bytes c : lower_letter c → byte_space c = false ∧ number_byte c = false.
Proof. apply (every_byte (λ c, 0x61 ≤ b2z c ≤ 0x7A → byte_space c = false ∧ number_byte c = false)). by vm_compute. Qed.

(** One span, in front of the end of the text or of a space. *)
Lemma spans_step rounds s p rest total parsed : whole_span p →
  from_option (λ c, c = " "%char) True (head rest) → 0 ≤ total →
  total + p.1 * unit_of p.2 ≤ maxDuration →
  spans (S rounds) s (span_bytes p ++ rest) total parsed =
  spans rounds s rest (total + p.1 * unit_of p.2) true.
Proof.
  destruct p as [n u]. intros ([mult Hu] & Hlet & Hn & Hb) Hrest Ht Hmax. cbn [fst snd] in *.
  assert (unit_of u = mult) as Hum by (unfold unit_of; by rewrite Hu). rewrite Hum in *. unfold span_bytes. cbn [fst snd].
  destruct (pretty_digits n Hn) as (Hne & _ & Hall). destruct (durationUnits_mult u mult Hu) as ([? ?] & _).
  assert (bytes u ≠ []) as Hue.
  { intros Hb0%(f_equal str). rewrite str_bytes in Hb0. subst u. by vm_compute in Hu. }
  assert (Forall (λ c, number_byte c = true) (bytes (pretty n))) as Hnum.
  { apply Forall_forall. intros c Hc. by apply digit_bytes, Hall. }
  cbn [spans]. rewrite <-app_assoc.
  destruct (bytes (pretty n)) as [|d ds] eqn:Hds; [done|].
  assert (span byte_space ((d :: ds) ++ bytes u ++ rest) = ([], (d :: ds) ++ bytes u ++ rest)) as ->.
  { cbn. destruct (digit_bytes d) as [-> _]; [|done]. apply Hall. by left. }
  cbn [snd]. cbn [app]. rewrite app_comm_cons.
  rewrite (span_all number_byte (d :: ds)); [|done|].
  2:{ destruct (bytes u) as [|c l]; [done|]. cbn. inv Hlet. by apply letter_bytes. }
  assert (span byte_space (bytes u ++ rest) = ([], bytes u ++ rest)) as ->.
  { destruct (bytes u) as [|c l]; [done|]. cbn. inv Hlet. by destruct (letter_bytes c) as [-> _]. }
  cbn [snd]. rewrite span_unit_letters by done.
  assert (match bytes u with [] => "s" | _ :: _ => str (bytes u) end = u) as ->.
  { rewrite str_bytes. by destruct (bytes u). }
  rewrite <-Hds, str_bytes, ParseFloat_whole by nia.
  rewrite (durationUnit_whole u mult) by (try done; by apply ToLower_letters).
  destruct (_ && _) eqn:E; [|done]. rewrite andb_true_iff, !Z.ltb_lt in E. lia.
Qed.

Lemma whole_nonneg p : whole_span p → 0 ≤ p.1 * unit_of p.2.
Proof.
  intros ([mult Hu] & _ & Hn & _). unfold unit_of. rewrite Hu.
  destruct (durationUnits_mult _ _ Hu) as ([? ?] & _). cbn. nia.
Qed.

Lemma spans_total_nonneg ps : Forall whole_span ps → 0 ≤ spans_total ps.
Proof. induction 1 as [|p ps Hp _ IH]; [done|]. cbn. apply whole_nonneg in Hp. unfold spans_total in IH. lia. Qed.

Lemma spans_space rounds s l total parsed :
  spans rounds s (" "%char :: l) total parsed = spans rounds s l total parsed.
Proof.
  destruct rounds as [|rounds]; [done|]. cbn [spans].
  replace (span byte_space (" "%char :: l)).2 with (span byte_space l).2; [done|].
  cbn. by destruct (span byte_space l).
Qed.

Lemma spans_whole rounds s ps total : Forall whole_span ps → (length ps < rounds)%nat →
  0 ≤ total → total + spans_total ps ≤ maxDuration →
  spans rounds s (concat ((λ q, " "%char :: span_bytes q) <$> ps)) total true =
  Some (Ok (total + spans_total ps)).
Proof.
  intros Hps. revert rounds total. induction Hps as [|p ps Hp Hps IH];
    intros rounds total Hr Ht Hmax; (destruct rounds as [|rounds]; [cbn in Hr; lia|]).
  - cbn. by rewrite Z.add_0_r.
  - cbn [spans_total foldr] in *. fold (spans_total ps) in *. rewrite fmap_cons. cbn [concat].
    pose proof (whole_nonneg p Hp). pose proof (spans_total_nonneg ps Hps).
    rewrite <-app_comm_cons, spans_space.
    rewrite spans_step; [|done|by destruct ps|done|lia].
    rewrite IH by (cbn in Hr; lia). do 2 f_equal. lia.
Qed.

Lemma span_bytes_ends p : whole_span p →
  Forall (λ c, b2z c < 0x80) (span_bytes p) ∧
  (∃ c l, span_bytes p = c :: l ∧ is_Some (digit c)) ∧
  (∃ c l, span_bytes p = l ++ [c] ∧ lower_letter c).
Proof.
  destruct p as [n u]. intros ([mult Hu] & Hlet & Hn & _). cbn [fst snd] in *. unfold span_bytes. cbn [fst snd].
  destruct (pretty_digits n Hn) as (Hne & _ & Hall).
  assert (bytes u ≠ []) as Hue.
  { intros Hb0%(f_equal str). rewrite str_bytes in Hb0. subst u. by vm_compute in Hu. }
  split_and!.
  - apply Forall_app. split.
    + apply Forall_forall. intros c [d Hd]%Hall. unfold digit in Hd. case_match eqn:E; [|done].
      rewrite andb_true_iff, !Z.leb_le in E. lia.
    + eapply Forall_impl; [done|]. unfold lower_letter. lia.
  - destruct (bytes (pretty n)) as [|c l]; [done|]. eexists c, _. split; [done|]. apply Hall. by left.
  - destruct (bytes u) as [|c l _] using rev_ind; [done|]. apply Forall_app in Hlet as [_ Hc]. inv Hc.
    eexists c, _. by rewrite app_assoc.
Qed.

(** C25: a time span written in whole numbers of units is read as exactly its
    number of nanoseconds, although the parser multiplies in floating point:
    the result is exact as long as every part stays below 2^53 nanoseconds and
    the sum within an int64. *)
Theorem ParseDuration_whole ps : ps ≠ [] → Forall whole_span ps → spans_total ps ≤ maxDuration →
  ParseDuration (print_spans ps) = Ok (spans_total ps).
Proof.
  intros Hne Hps Hmax. destruct ps as [|p ps]; [done|]. apply Forall_cons in Hps as [Hp Hps].
  set (l := span_bytes p ++ concat ((λ q, " "%char :: span_bytes q) <$> ps)).
  destruct (span_bytes_ends p) as (Hasc & (c & l1 & Hc & Hdig) & _); [done|].
  assert (tidy (str l)) as Htidy.
  { apply tidy_ascii.
    - apply Forall_app. split; [done|]. apply Forall_concat, Forall_fmap. eapply Forall_impl; [done|].
      intros q (? & _)%span_bytes_ends. by constructor.
    - unfold l. rewrite Hc. cbn. apply digit_bytes in Hdig as [? _]. done.
    - assert (∃ c' l', l = l' ++ [c'] ∧ lower_letter c') as (c' & l' & -> & Hlet).
      { unfold l. destruct ps as [|q qs _] using rev_ind.
        - cbn. rewrite app_nil_r. by apply span_bytes_ends in Hp as (_ & _ & ?).
        - apply Forall_app in Hps as [_ [Hq _]%Forall_cons]. apply span_bytes_ends in Hq as (_ & _ & (c' & l' & Hl & Hlet)).
          exists c'. eexists. split; [|done]. rewrite fmap_app, concat_app. cbn. rewrite Hl, app_nil_r.
          by rewrite app_comm_cons, !app_assoc. }
      rewrite last_snoc. cbn. by apply letter_bytes in Hlet as [? _]. }
  unfold ParseDuration, print_spans. fold l. rewrite (TrimSpace_id _ Htidy).
  rewrite decide_False by (unfold l; rewrite Hc; by intros ?%(f_equal bytes)).
  assert (EqualFold (str l) "infinity" = false) as ->.
  { unfold EqualFold. rewrite bytes_str. unfold l. rewrite Hc. cbn [app].
    rewrite runes_cons_ascii by (rewrite Hc in Hasc; by inv Hasc). apply bool_decide_false.
    rewrite !fmap_cons. intros [= Heq _]. revert Heq.
    apply (every_byte (λ c, is_Some (digit c) → fold_rune (b2z c) ≠ (ascii_lower ∘ b2z) "i"%char)); [by vm_compute|done]. }
  rewrite bytes_str. unfold l. rewrite <-(length_bytes (str _)), bytes_str.
  assert (length ps ≤ length (concat ((λ q, " "%char :: span_bytes q) <$> ps)))%nat as Hlen.
  { clear. induction ps as [|q ps IH]; [done|]. cbn. rewrite length_app. lia. }
  assert (0 < length (span_bytes p))%nat as Hlp by (rewrite Hc; cbn; lia).
  cbn [spans_total foldr] in Hmax. fold (spans_total ps) in Hmax.
  pose proof (whole_nonneg p Hp). pose proof (spans_total_nonneg ps Hps).
  rewrite length_app, spans_step; [|done|by destruct ps|done|lia].
  rewrite spans_whole; [|done|lia|lia|lia]. done.
Qed.

End duration.

#[global] Instance whole_span_dec p : Decision (whole_span p).
Proof. unfold whole_span, lower_letter. apply _. Defined.

Lemma ParseDuration_whole_witness :
  ParseDuration (UC := ascii_case) (FC := amd64) "1h 30min 250ms" = Ok 5400250000000.
Proof.
  apply (ParseDuration_whole (UC := ascii_case) (FC := amd64) [(1, "h"); (30, "min"); (250, "ms")]);
    [done|apply (bool_decide_unpack _); by vm_compute|by vm_compute].
Defined.
