(* ===== verification/GoJson.v ===== *)
(** * JSON arrays

    What [encoding/json] does for [json.Unmarshal] into a list of raw values
    and into a string: the syntax check of a whole text, the texts of the
    elements of an array, and the value of a string literal.  The nesting limit
    of the package is not modelled. *)

From S2P Require Import Prelude GoStrings GoText.
From Stdlib Require Import Ascii.

#[local] Open Scope Z_scope.

Definition json_space (c : ascii) : bool := bool_decide (b2z c ∈ [32; 9; 13; 10]).

Fixpoint skip_space (l : list ascii) : list ascii :=
  match l with
  | c :: l' => if json_space c then skip_space l' else l
  | [] => []
  end.

Definition hex_digit (c : ascii) : option Z :=
  let z := b2z c in
  if (48 <=? z) && (z <=? 57) then Some (z - 48)
  else if (97 <=? z) && (z <=? 102) then Some (z - 87)
  else if (65 <=? z) && (z <=? 70) then Some (z - 55)
  else None.

Definition quote : ascii := "034"%char.

(** The rest of a string literal after its opening quote: the text up to the
    closing quote, and what follows it. *)
Fixpoint string_body (l : list ascii) : option (list ascii * list ascii) :=
  match l with
  | [] => None
  | c :: l' =>
    if decide (c = quote) then Some ([], l')
    else if decide (c = "\"%char) then
      match l' with
      | e :: l'' =>
        if decide (e = "u"%char) then
          match l'' with
          | h1 :: h2 :: h3 :: h4 :: l3 =>
            match hex_digit h1, hex_digit h2, hex_digit h3, hex_digit h4 with
            | Some _, Some _, Some _, Some _ =>
              match string_body l3 with
              | Some (b, r) => Some (c :: e :: h1 :: h2 :: h3 :: h4 :: b, r)
              | None => None
              end
            | _, _, _, _ => None
            end
          | _ => None
          end
        else if decide (e ∈ [quote; "\"; "/"; "b"; "f"; "n"; "r"; "t"]%char) then
          match string_body l'' with Some (b, r) => Some (c :: e :: b, r) | None => None end
        else None
      | [] => None
      end
    else if b2z c <? 32 then None
    else match string_body l' with Some (b, r) => Some (c :: b, r) | None => None end
  end.

(** Numbers: an optional sign, an integer without leading zeros, a fraction
    and an exponent. *)
Fixpoint skip_digits (l : list ascii) : list ascii :=
  match l with
  | c :: l' => match digit c with Some _ => skip_digits l' | None => l end
  | [] => []
  end.
Definition some_digits (l : list ascii) : option (list ascii) :=
  match l with
  | c :: l' => match digit c with Some _ => Some (skip_digits l') | None => None end
  | [] => None
  end.
Definition skip_sign (cs l : list ascii) : list ascii :=
  match l with c :: l' => if decide (c ∈ cs) then l' else l | [] => [] end.

Definition number_exponent (l : list ascii) : option (list ascii) :=
  match l with
  | c :: l' => if decide (c ∈ ["e"; "E"]%char) then some_digits (skip_sign ["+"; "-"]%char l') else Some l
  | [] => Some []
  end.
Definition number_fraction (l : list ascii) : option (list ascii) :=
  match l with
  | c :: l' => if decide (c = "."%char) then some_digits l' ≫= number_exponent else number_exponent l
  | [] => Some []
  end.
Definition number (l : list ascii) : option (list ascii) :=
  match skip_sign ["-"%char] l with
  | c :: l' => if decide (c = "0"%char) then number_fraction l' else some_digits (c :: l') ≫= number_fraction
  | [] => None
  end.

Definition literal (l : list ascii) : option (list ascii) :=
  match strip_prefix (bytes "true") l, strip_prefix (bytes "false") l, strip_prefix (bytes "null") l with
  | Some r, _, _ | _, Some r, _ | _, _, Some r => Some r
  | _, _, _ => None
  end.

(** [value n l] is what follows the JSON value at the front of [l].  A value
    within an array takes two levels and at least one byte more than the array,
    so twice the length of the text is enough. *)
Fixpoint value (n : nat) (l : list ascii) : option (list ascii) :=
  match n with
  | O => None
  | S n' =>
    match l with
    | [] => None
    | c :: l' =>
      if decide (c = quote) then snd <$> string_body l'
      else if decide (c = "["%char) then
        match skip_space l' with
        | d :: l'' => if decide (d = "]"%char) then Some l'' else elements n' (d :: l'')
        | [] => None
        end
      else if decide (c = "{"%char) then
        match skip_space l' with
        | d :: l'' => if decide (d = "}"%char) then Some l'' else members n' (d :: l'')
        | [] => None
        end
      else if decide (c = "t"%char ∨ c = "f"%char ∨ c = "n"%char) then literal l
      else number l
    end
  end
with elements (n : nat) (l : list ascii) : option (list ascii) :=
  match n with
  | O => None
  | S n' =>
    match value n' l with
    | None => None
    | Some r =>
      match skip_space r with
      | c :: r' =>
        if decide (c = ","%char) then elements n' (skip_space r')
        else if decide (c = "]"%char) then Some r' else None
      | [] => None
      end
    end
  end
with members (n : nat) (l : list ascii) : option (list ascii) :=
  match n with
  | O => None
  | S n' =>
    match l with
    | q :: l' =>
      if decide (q = quote) then
        match string_body l' with
        | None => None
        | Some (_, r) =>
          match skip_space r with
          | c :: r' =>
            if decide (c = ":"%char) then
              match value n' (skip_space r') with
              | None => None
              | Some r2 =>
                match skip_space r2 with
                | d :: r3 =>
                  if decide (d = ","%char) then members n' (skip_space r3)
                  else if decide (d = "}"%char) then Some r3 else None
                | [] => None
                end
              end
            else None
          | [] => None
          end
        end
      else None
    | [] => None
    end
  end.

(** ** Elements of an array *)

(** The texts of the elements, from the first one on. *)
Fixpoint raw_elements (n : nat) (l : list ascii) : option (list (list ascii) * list ascii) :=
  match n with
  | O => None
  | S n' =>
    match value (2 * length l + 2) l with
    | None => None
    | Some r =>
      let item := take (length l - length r) l in
      match skip_space r with
      | c :: r' =>
        if decide (c = ","%char) then
          match raw_elements n' (skip_space r') with
          | Some (items, rest) => Some (item :: items, rest)
          | None => None
          end
        else if decide (c = "]"%char) then Some ([item], r') else None
      | [] => None
      end
    end
  end.

(** [json.Unmarshal([]byte(s), &raw)] for a text that starts with a bracket. *)
Definition Unmarshal_array (s : string) : option (list string) :=
  match skip_space (bytes s) with
  | c :: l =>
    if decide (c = "["%char) then
      match skip_space l with
      | d :: l' =>
        let parsed := if decide (d = "]"%char) then Some ([], l') else raw_elements (length l) (d :: l') in
        match parsed with
        | Some (items, rest) => match skip_space rest with [] => Some (str <$> items) | _ => None end
        | None => None
        end
      | [] => None
      end
    else None
  | [] => None
  end.

(** ** String literals *)

Definition escape_rune (e : Z) : Z :=
  if e =? b2z "b" then 8 else if e =? b2z "f" then 12 else if e =? b2z "n" then 10
  else if e =? b2z "r" then 13 else if e =? b2z "t" then 9 else e.

Definition hex4 (r1 r2 r3 r4 : Z) : option Z :=
  match hex_digit (z2b r1), hex_digit (z2b r2), hex_digit (z2b r3), hex_digit (z2b r4) with
  | Some a, Some b, Some c, Some d => Some (((a * 16 + b) * 16 + c) * 16 + d)
  | _, _, _, _ => None
  end.

(** A pair of surrogates is one rune; a lone one is replaced. *)
Definition high_surrogate (r : Z) : bool := (0xD800 <=? r) && (r <=? 0xDBFF).
Definition low_surrogate (r : Z) : bool := (0xDC00 <=? r) && (r <=? 0xDFFF).

Fixpoint unquote_runes (rs : list Z) : list Z :=
  match rs with
  | [] => []
  | 92 :: 117 :: a :: b :: c :: d :: rs' =>
    match hex4 a b c d with
    | None => RuneError :: unquote_runes rs'
    | Some r =>
      if high_surrogate r then
        match rs' with
        | 92 :: 117 :: a' :: b' :: c' :: d' :: rs'' =>
          match hex4 a' b' c' d' with
          | Some r' =>
            if low_surrogate r' then (0x10000 + (r - 0xD800) * 1024 + (r' - 0xDC00)) :: unquote_runes rs''
            else RuneError :: unquote_runes rs'
          | None => RuneError :: unquote_runes rs'
          end
        | _ => RuneError :: unquote_runes rs'
        end
      else if low_surrogate r then RuneError :: unquote_runes rs'
      else r :: unquote_runes rs'
    end
  | 92 :: e :: rs' => escape_rune e :: unquote_runes rs'
  | r :: rs' => r :: unquote_runes rs'
  end.

(** [json.Unmarshal(item, &str)] for an item that starts with a quote: bytes
    that are not UTF-8 are replaced. *)
Definition Unmarshal_string (item : string) : option string :=
  match bytes item with
  | c :: l =>
    if decide (c = quote) then
      match string_body l with
      | Some (body, []) => Some (str (concat (encode_rune <$> unquote_runes (runes body).*1)))
      | _ => None
      end
    else None
  | [] => None
  end.

(** ** The levels suffice *)

Lemma skip_space_length l : (length (skip_space l) ≤ length l)%nat.
Proof. induction l as [|c l IH]; [done|]. cbn. destruct (json_space c); cbn; lia. Qed.

Lemma string_body_length l b r : string_body l = Some (b, r) → (length r < length l)%nat.
Proof.
  remember (length l) as n eqn:Hn. revert l b r Hn. induction (lt_wf n) as [n _ IH].
  intros l b r -> Hb. destruct l as [|c l]; [done|]. cbn [string_body] in Hb.
  repeat case_match; simplify_eq; try (cbn; lia);
    match goal with H : string_body ?x = Some (_, ?y) |- (length ?y < _)%nat => pose proof (IH (length x) ltac:(cbn; lia) x _ _ eq_refl H); cbn in *; lia end.
Qed.

Lemma skip_digits_length l : (length (skip_digits l) ≤ length l)%nat.
Proof. induction l as [|c l IH]; [done|]. cbn. destruct (digit c); cbn; lia. Qed.

Lemma some_digits_length l r : some_digits l = Some r → (length r < length l)%nat.
Proof.
  destruct l as [|c l]; [done|]. cbn. destruct (digit c); [|done]. intros [= <-].
  pose proof (skip_digits_length l). lia.
Qed.

Lemma skip_sign_length cs l : (length (skip_sign cs l) ≤ length l)%nat.
Proof. destruct l; cbn; [lia|]. case_decide; cbn; lia. Qed.

Lemma number_exponent_length l r : number_exponent l = Some r → (length r ≤ length l)%nat.
Proof.
  destruct l as [|c l]; cbn; [by intros [= <-]|]. case_decide; [|by intros [= <-]].
  intros Hr%some_digits_length. pose proof (skip_sign_length ["+"; "-"]%char l). lia.
Qed.

Lemma number_fraction_length l r : number_fraction l = Some r → (length r ≤ length l)%nat.
Proof.
  destruct l as [|c l]; [by intros [= <-]|]. cbn [number_fraction]. case_decide.
  - intros (r1 & H1%some_digits_length & H2%number_exponent_length)%bind_Some. cbn. lia.
  - apply number_exponent_length.
Qed.

Lemma number_length l r : number l = Some r → (length r < length l)%nat.
Proof.
  unfold number. pose proof (skip_sign_length ["-"%char] l).
  destruct (skip_sign _ l) as [|c l']; [done|]. case_decide.
  - intros H1%number_fraction_length. cbn in *. lia.
  - intros (r1 & H1%some_digits_length & H2%number_fraction_length)%bind_Some. lia.
Qed.

Lemma literal_length l r : literal l = Some r → (length r < length l)%nat.
Proof.
  unfold literal. repeat case_match; intros; simplify_eq;
    match goal with H : strip_prefix _ ?x = Some ?y |- (length ?y < length ?x)%nat => apply strip_prefix_Some in H as -> end;
    rewrite length_app; cbn; lia.
Qed.

Lemma skip_space_cons l c l' : skip_space l = c :: l' → (length l' < length l)%nat.
Proof. intros Hl. pose proof (skip_space_length l) as H. rewrite Hl in H. cbn in H. lia. Qed.

Definition shorter (f : list ascii → option (list ascii)) : Prop :=
  ∀ l r, f l = Some r → (length r < length l)%nat.

Ltac lengths :=
  repeat match goal with
  | H : skip_space _ = _ :: _ |- _ => apply skip_space_cons in H
  | H : string_body _ = Some (_, _) |- _ => apply string_body_length in H
  | H : literal _ = Some _ |- _ => apply literal_length in H
  | H : number _ = Some _ |- _ => apply number_length in H
  | H : snd <$> string_body _ = Some _ |- _ => apply fmap_Some in H as ([? ?] & H & ->)
  | IH : shorter ?f, H : ?f _ = Some _ |- _ => apply IH in H
  | H : context [length (skip_space ?l)] |- _ => pose proof (skip_space_length l); generalize dependent (length (skip_space l)); intros
  end; cbn in *; lia.

Lemma value_shorter n : shorter (value n) ∧ shorter (elements n) ∧ shorter (members n).
Proof.
  induction n as [|n (IHv & IHe & IHm)]; [by split_and!|].
  split_and!; intros l r Hr; cbn [value elements members] in Hr.
  - repeat case_match; simplify_eq; lengths.
  - repeat case_match; simplify_eq; lengths.
  - repeat case_match; simplify_eq; lengths.
Qed.

(** With twice the length of the text, one more level changes nothing: the
    functions do not run out of levels. *)
Lemma value_levels k l n m : (length l ≤ k)%nat →
  ((2 * k < n)%nat → (2 * k < m)%nat → value n l = value m l) ∧
  ((2 * k + 1 < n)%nat → (2 * k + 1 < m)%nat → elements n l = elements m l ∧ members n l = members m l).
Proof.
  revert l n m. induction k as [|k IH]; intros l n m Hk.
  { destruct l; [|cbn in Hk; lia]. split.
    - intros. by destruct n, m; try lia.
    - intros. by destruct n as [|[|]], m as [|[|]]; try lia. }
  assert (∀ l n m, (length l ≤ S k)%nat → (2 * S k < n)%nat → (2 * S k < m)%nat → value n l = value m l) as Hv.
  { clear l n m Hk. intros l [|n] [|m] Hk Hn Hm; try lia. cbn [value]. destruct l as [|c l]; [done|].
    destruct (skip_space l) as [|d l'] eqn:Hs; [done|]. apply skip_space_cons in Hs. cbn in Hk.
    destruct (IH (d :: l') n m) as [_ [He Hm']]; [cbn; lia..|]. by rewrite He, Hm'. }
  split; [by apply Hv|]. intros Hn Hm. destruct n as [|n], m as [|m]; try lia.
  cbn [elements members]. split.
  - rewrite (Hv l n m) by lia. destruct (value m l) as [r|] eqn:Hr; [|done].
    apply value_shorter in Hr. destruct (skip_space r) as [|c r'] eqn:Hs; [done|]. apply skip_space_cons in Hs.
    pose proof (skip_space_length r'). destruct (IH (skip_space r') n m) as [_ [He _]]; [lia..|]. by rewrite He.
  - destruct l as [|q l]; [done|]. destruct (decide (q = quote)); [|done].
    destruct (string_body l) as [[b r]|] eqn:Hb; [|done]. apply string_body_length in Hb.
    destruct (skip_space r) as [|c r'] eqn:Hs; [done|]. apply skip_space_cons in Hs.
    pose proof (skip_space_length r'). cbn in Hk. rewrite (Hv (skip_space r') n m) by lia.
    destruct (value m (skip_space r')) as [r2|] eqn:Hr; [|done]. apply value_shorter in Hr.
    destruct (skip_space r2) as [|d r3] eqn:Hs2; [done|]. apply skip_space_cons in Hs2.
    pose proof (skip_space_length r3). destruct (IH (skip_space r3) n m) as [_ [_ He]]; [lia..|]. by rewrite He.
Qed.
