(* ===== verification/UnitExec.v ===== *)
(** * Command lines and environments: internal/unit/exec.go and env.go

    How [ExecStart=] becomes an argument vector, and [Environment=] a list of
    assignments.  Both range over the runes of the value, so that bytes that
    are not UTF-8 come out as the replacement rune. *)

From S2P Require Import Prelude GoStrings GoText GoJson UnitTypes.
From Stdlib Require Import Ascii.

#[local] Open Scope Z_scope.
#[local] Open Scope go_scope.

Definition dquote : Z := b2z quote.
Definition squote : Z := b2z "'"%char.

(** ** exec.go *)

(** The loop of [splitCommand]: [args] so far, the bytes of the current
    argument, and the two flags. *)
Record split_state := { args : list string; cur : list ascii; inQuote : bool; started : bool }.

Definition split_rune (st : split_state) (r : Z) : split_state :=
  if r =? dquote then {| args := args st; cur := cur st; inQuote := negb (inQuote st); started := true |}
  else if IsSpace r && negb (inQuote st) then
    if started st
    then {| args := args st ++ [str (cur st)]; cur := []; inQuote := inQuote st; started := false |}
    else st
  else {| args := args st; cur := cur st ++ encode_rune r; inQuote := inQuote st; started := true |}.

Definition split_start : split_state := {| args := []; cur := []; inQuote := false; started := false |}.

Definition splitCommand (s : string) : result (list string) :=
  let st := foldl split_rune split_start (runes (bytes s)).*1 in
  if inQuote st then Fail (ErrText "unterminated quote in ExecStart")
  else
    let args := if started st then args st ++ [str (cur st)] else args st in
    match args with
    | [] => Fail (ErrText "ExecStart is empty")
    | _ => Ok args
    end.

Definition isJSONArray (s : string) : bool := HasPrefix (TrimSpace s) "[".

Fixpoint json_strings (i : Z) (raw : list string) : result (list string) :=
  match raw with
  | [] => Ok []
  | item :: raw' =>
    let bad := Fail (ErrFmt "JSON-array ExecStart[%d] must be a string" [pretty i]) in
    if negb (HasPrefix item (str [quote])) then bad
    else match Unmarshal_string item with
         | None => bad
         | Some s => out <-? json_strings (i + 1) raw' ;; Ok (s :: out)
         end
  end.

Definition parseJSONArgv (s : string) : result (list string) :=
  match Unmarshal_array s with
  | None => Fail (ErrText "invalid JSON-array ExecStart: %w")
  | Some [] => Fail (ErrText "JSON-array ExecStart is empty")
  | Some raw =>
    out <-? json_strings 0 raw ;;
    match out with
    | s :: _ => if decide (s = "") then Fail (ErrText "ExecStart is empty") else Ok out
    | [] => Fail (ErrText "ExecStart is empty")
    end
  end.

Definition buildArgv (execRaw : string) (extraArgs : list string) : result (list string) :=
  let execRaw := TrimSpace execRaw in
  if bool_decide (execRaw = "") && bool_decide (extraArgs = []) then Fail (ErrText "ExecStart is empty")
  else
    argv <-? (if isJSONArray execRaw then parseJSONArgv execRaw
              else match extraArgs with
                   | _ :: _ => if decide (execRaw = "") then Fail (ErrText "ExecStart is empty") else Ok [execRaw]
                   | [] => splitCommand execRaw
                   end) ;;
    match argv with
    | a :: _ => if decide (a = "") then Fail (ErrText "ExecStart is empty") else Ok (argv ++ extraArgs)
    | [] => Fail (ErrText "ExecStart is empty")
    end.

Fixpoint unquoted_space (rs : list Z) (inQuote : bool) : bool :=
  match rs with
  | [] => false
  | r :: rs' =>
    if r =? dquote then unquoted_space rs' (negb inQuote)
    else if IsSpace r && negb inQuote then true
    else unquoted_space rs' inQuote
  end.
Definition execStartHasUnquotedWhitespace (s : string) : bool := unquoted_space (runes (bytes s)).*1 false.

(** [os.Stat]: [Some isDir], or [None] for an error. *)
Definition StatFunc := string → option bool.

Definition execStartArgFootgun (os_Stat : StatFunc) (execRaw : string) (stat : option StatFunc) : bool :=
  let execRaw := TrimSpace execRaw in
  if bool_decide (execRaw = "") || isJSONArray execRaw then false
  else if negb (execStartHasUnquotedWhitespace execRaw) then false
  else
    let stat := default os_Stat stat in
    match stat execRaw with
    | Some false => false
    | _ => true
    end.

(** ** env.go *)

Record env_state := { tokens : list string; ecur : list ascii; equote : option Z; estarted : bool }.

(** [inQuote] and [quote] are set and cleared together. *)
Definition env_rune (st : env_state) (r : Z) : env_state :=
  match equote st with
  | None =>
    if (r =? dquote) || (r =? squote)
    then {| tokens := tokens st; ecur := ecur st; equote := Some r; estarted := true |}
    else if IsSpace r then
      if estarted st
      then {| tokens := tokens st ++ [str (ecur st)]; ecur := []; equote := None; estarted := false |}
      else st
    else {| tokens := tokens st; ecur := ecur st ++ encode_rune r; equote := None; estarted := true |}
  | Some q =>
    if r =? q then {| tokens := tokens st; ecur := ecur st; equote := None; estarted := estarted st |}
    else {| tokens := tokens st; ecur := ecur st ++ encode_rune r; equote := Some q; estarted := true |}
  end.

Definition env_start : env_state := {| tokens := []; ecur := []; equote := None; estarted := false |}.

Definition splitEnvTokens (s : string) : result (list string) :=
  let st := foldl env_rune env_start (runes (bytes s)).*1 in
  match equote st with
  | Some _ => Fail (ErrText "unterminated quote in Environment")
  | None => Ok (if estarted st then tokens st ++ [str (ecur st)] else tokens st)
  end.

Fixpoint assignments (toks : list string) : result (list EnvVar) :=
  match toks with
  | [] => Ok []
  | tok :: toks' =>
    let '(name, value, ok) := Cut tok "=" in
    if negb ok || bool_decide (name = "") then Fail (ErrFmt "invalid Environment assignment %q" [tok])
    else out <-? assignments toks' ;; Ok ({| EnvName := name; EnvValue := value |} :: out)
  end.

Definition parseEnvironment (s : string) : result (list EnvVar) :=
  toks <-? splitEnvTokens s ;; assignments toks.

(** ** Argument vectors start with an executable *)

Lemma buildArgv_head execRaw extra argv : buildArgv execRaw extra = Ok argv →
  ∃ a rest, argv = a :: rest ∧ a ≠ "".
Proof.
  unfold buildArgv. intros Hb. repeat case_match; simplify_eq/=; eauto.
Qed.

(** ** Quoting

    An argument is quoted by a pair of double quotes; arguments are separated
    by single spaces.  A text is given by its runes. *)

Definition text_of (rs : list Z) : string := str (concat (encode_rune <$> rs)).

Definition quoted (q : Z) (rs : list Z) : list Z := q :: rs ++ [q].
Fixpoint separated (ws : list (list Z)) : list Z :=
  match ws with
  | [] => []
  | [w] => w
  | w :: ws' => w ++ 32 :: separated ws'
  end.

Lemma runes_text rs : Forall scalar rs → (runes (bytes (text_of rs))).*1 = rs.
Proof.
  intros Hrs. unfold text_of. rewrite bytes_str, runes_encode by done.
  rewrite <-list_fmap_compose. by apply list_fmap_id.
Qed.

Lemma split_quoted rs st : ¬ dquote ∈ rs → inQuote st = false →
  foldl split_rune st (quoted dquote rs) =
  {| args := args st; cur := cur st ++ concat (encode_rune <$> rs); inQuote := false; started := true |}.
Proof.
  intros Hq Hin. unfold quoted. cbn [foldl].
  assert (∀ c, foldl split_rune {| args := args st; cur := c; inQuote := true; started := true |} rs =
    {| args := args st; cur := c ++ concat (encode_rune <$> rs); inQuote := true; started := true |}) as Hrs.
  { induction rs as [|r rs IH]; intros c; [by rewrite app_nil_r|]. apply not_elem_of_cons in Hq as [Hr Hq].
    cbn [foldl]. unfold split_rune at 2. cbn. rewrite (proj2 (Z.eqb_neq _ _)), andb_false_r by done.
    rewrite IH by done. by rewrite <-app_assoc. }
  rewrite foldl_snoc. unfold split_rune at 3. rewrite Z.eqb_refl, Hin. cbn [negb]. rewrite Hrs.
  unfold split_rune. by rewrite Z.eqb_refl.
Qed.

Lemma split_separated ws st : Forall (λ w, ¬ dquote ∈ w) ws → ws ≠ [] →
  inQuote st = false → cur st = [] →
  ∃ st', foldl split_rune st (separated (quoted dquote <$> ws)) = st' ∧
    inQuote st' = false ∧ started st' = true ∧ args st' ++ [str (cur st')] = args st ++ (text_of <$> ws).
Proof.
  intros Hws Hne. revert st. induction Hws as [|w ws Hw Hws IH]; [done|]. intros st Hin Hcur.
  destruct ws as [|w' ws].
  - eexists. split; [done|]. cbn [separated fmap list_fmap]. rewrite split_quoted by done. cbn.
    split_and!; [done..|]. by rewrite Hcur.
  - change (separated (quoted dquote <$> w :: w' :: ws)) with
      (quoted dquote w ++ 32 :: separated (quoted dquote <$> w' :: ws)).
    rewrite foldl_app, split_quoted by done. cbn [foldl]. unfold split_rune at 2. cbn [inQuote started args cur].
    change (32 =? dquote) with false. change (IsSpace 32) with true. cbn [andb negb].
    edestruct IH as (st' & Hst & H1 & H2 & H3); [done| | |].
    3:{ exists st'. split; [exact Hst|]. split_and!; [done..|]. rewrite H3. cbn.
        rewrite Hcur. by rewrite <-app_assoc. }
    all: done.
Qed.

Definition print_command (ws : list (list Z)) : string := text_of (separated (quoted dquote <$> ws)).

Lemma scalar_dquote : scalar dquote.
Proof. unfold scalar. change dquote with 34. lia. Qed.

Lemma separated_scalar ws : Forall (Forall scalar) ws → Forall scalar (separated ws).
Proof.
  induction 1 as [|w ws Hw Hws IH]; [done|]. destruct ws as [|w' ws]; [done|].
  change (separated (w :: w' :: ws)) with (w ++ 32 :: separated (w' :: ws)).
  apply Forall_app. split; [done|]. constructor; [unfold scalar; lia|done].
Qed.

Lemma quoted_scalar q ws : scalar q → Forall (Forall scalar) ws → Forall (Forall scalar) (quoted q <$> ws).
Proof.
  intros Hq Hws. apply Forall_fmap. eapply Forall_impl; [done|]. intros w Hw. unfold compose, quoted.
  constructor; [done|]. apply Forall_app. split; [done|]. by constructor.
Qed.

(** Arguments that have no quote, quoted and separated by spaces, are read
    back as they are, blanks within them included. *)
Lemma splitCommand_print ws : ws ≠ [] → Forall (Forall scalar) ws → Forall (λ w, ¬ dquote ∈ w) ws →
  splitCommand (print_command ws) = Ok (text_of <$> ws).
Proof.
  intros Hne Hs Hq. unfold splitCommand, print_command.
  rewrite runes_text by (apply separated_scalar, quoted_scalar; [apply scalar_dquote|done]).
  destruct (split_separated ws split_start Hq Hne eq_refl eq_refl) as (st & -> & H1 & H2 & H3).
  rewrite H1, H2. cbn [args split_start] in H3. rewrite H3. cbn [app]. by destruct ws.
Qed.

(** The same for the tokens of an environment, and with it for assignments. *)
Lemma env_quoted rs st : ¬ dquote ∈ rs → equote st = None →
  foldl env_rune st (quoted dquote rs) =
  {| tokens := tokens st; ecur := ecur st ++ concat (encode_rune <$> rs); equote := None; estarted := true |}.
Proof.
  intros Hq Hin. unfold quoted. cbn [foldl].
  assert (∀ c, foldl env_rune {| tokens := tokens st; ecur := c; equote := Some dquote; estarted := true |} rs =
    {| tokens := tokens st; ecur := c ++ concat (encode_rune <$> rs); equote := Some dquote; estarted := true |}) as Hrs.
  { induction rs as [|r rs IH]; intros c; [by rewrite app_nil_r|]. apply not_elem_of_cons in Hq as [Hr Hq].
    cbn [foldl]. unfold env_rune at 2. cbn [equote]. rewrite (proj2 (Z.eqb_neq _ _)) by done.
    cbn [tokens ecur]. rewrite IH by done. by rewrite <-app_assoc. }
  rewrite foldl_snoc. unfold env_rune at 3. rewrite Z.eqb_refl, Hin. cbn [orb]. rewrite Hrs.
  unfold env_rune. cbn [equote]. by rewrite Z.eqb_refl.
Qed.

Lemma env_separated ws st : Forall (λ w, ¬ dquote ∈ w) ws → ws ≠ [] →
  equote st = None → ecur st = [] →
  ∃ st', foldl env_rune st (separated (quoted dquote <$> ws)) = st' ∧
    equote st' = None ∧ estarted st' = true ∧ tokens st' ++ [str (ecur st')] = tokens st ++ (text_of <$> ws).
Proof.
  intros Hws Hne. revert st. induction Hws as [|w ws Hw Hws IH]; [done|]. intros st Hin Hcur.
  destruct ws as [|w' ws].
  - eexists. split; [done|]. cbn [separated fmap list_fmap]. rewrite env_quoted by done. cbn.
    split_and!; [done..|]. by rewrite Hcur.
  - change (separated (quoted dquote <$> w :: w' :: ws)) with
      (quoted dquote w ++ 32 :: separated (quoted dquote <$> w' :: ws)).
    rewrite foldl_app, env_quoted by done. cbn [foldl]. unfold env_rune at 2. cbn [equote estarted tokens ecur].
    change ((32 =? dquote) || (32 =? squote)) with false. change (IsSpace 32) with true. cbn iota.
    edestruct IH as (st' & Hst & H1 & H2 & H3); [done| | |].
    3:{ exists st'. split; [exact Hst|]. split_and!; [done..|]. rewrite H3. cbn.
        rewrite Hcur. by rewrite <-app_assoc. }
    all: done.
Qed.

Lemma splitEnvTokens_print ws : Forall (Forall scalar) ws → Forall (λ w, ¬ dquote ∈ w) ws →
  splitEnvTokens (print_command ws) = Ok (text_of <$> ws).
Proof.
  intros Hs Hq. destruct (decide (ws = [])) as [->|Hne]; [done|]. unfold splitEnvTokens, print_command.
  rewrite runes_text by (apply separated_scalar, quoted_scalar; [apply scalar_dquote|done]).
  destruct (env_separated ws env_start Hq Hne eq_refl eq_refl) as (st & -> & H1 & H2 & H3).
  rewrite H1, H2. cbn [tokens env_start] in H3. by rewrite H3.
Qed.

Definition equals : Z := b2z "="%char.
Definition assignment (v : list Z * list Z) : list Z := v.1 ++ equals :: v.2.
Definition env_var (v : list Z * list Z) : EnvVar := {| EnvName := text_of v.1; EnvValue := text_of v.2 |}.
Definition print_environment (vs : list (list Z * list Z)) : string := print_command (assignment <$> vs).

Definition printable_var (v : list Z * list Z) : Prop :=
  Forall scalar v.1 ∧ Forall scalar v.2 ∧ v.1 ≠ [] ∧ equals ∉ v.1 ∧ dquote ∉ v.1 ∧ dquote ∉ v.2.

Lemma assignments_print vs : Forall printable_var vs →
  assignments (text_of <$> (assignment <$> vs)) = Ok (env_var <$> vs).
Proof.
  induction 1 as [|[n v] vs (Hn & Hv & Hne & Heq & _) _ IH]; [done|]. cbn [fst snd] in *.
  rewrite !fmap_cons. cbn [assignments].
  assert (Cut (text_of (assignment (n, v))) "=" = (text_of n, text_of v, true)) as ->.
  { unfold Cut, assignment, text_of. cbn [fst snd]. rewrite bytes_str, fmap_app, concat_app, fmap_cons. cbn [concat].
    change (encode_rune equals) with ["="%char]. change (bytes "=") with ["="%char]. cbn [app].
    rewrite cut_go_single; [done|]. rewrite <-(runes_ascii_byte _ equals) by (unfold equals; vm_compute; done).
    pose proof (runes_text n Hn) as Hr. unfold text_of in Hr. rewrite bytes_str in Hr. by rewrite Hr. }
  rewrite IH, bool_decide_false; [done|]. intros Ht%(f_equal (λ s, (runes (bytes s)).*1)).
  by rewrite runes_text in Ht.
Qed.

(** the value of [Environment=] that quotes each assignment of a list is
    read back as that list, white space and equals signs of the values
    included, for names and values of any text without double quotes. *)
Theorem parseEnvironment_print vs : Forall printable_var vs →
  parseEnvironment (print_environment vs) = Ok (env_var <$> vs).
Proof.
  intros Hvs. unfold parseEnvironment, print_environment. rewrite splitEnvTokens_print.
  - by apply assignments_print.
  - apply Forall_fmap. eapply Forall_impl; [done|]. intros v (? & ? & _). unfold compose, assignment.
    apply Forall_app. split; [done|]. constructor; [|done]. unfold scalar. change equals with 61. lia.
  - apply Forall_fmap. eapply Forall_impl; [done|]. intros v (_ & _ & _ & _ & ? & ?). unfold compose, assignment.
    rewrite elem_of_app, elem_of_cons. intros [?|[?|?]]; done.
Qed.

#[global] Instance printable_var_dec v : Decision (printable_var v).
Proof. unfold printable_var, scalar. apply _. Defined.

Definition code_points (s : string) : list Z := (runes (bytes s)).*1.

Lemma parseEnvironment_print_witness :
  parseEnvironment (print_environment [(code_points "OPTS", code_points "-a  b=c"); (code_points "EMPTY", [])]) =
  Ok [{| EnvName := "OPTS"; EnvValue := "-a  b=c" |}; {| EnvName := "EMPTY"; EnvValue := "" |}].
Proof.
  apply (parseEnvironment_print [(code_points "OPTS", code_points "-a  b=c"); (code_points "EMPTY", [])]).
  apply (bool_decide_unpack _). by vm_compute.
Defined.
