(* ===== verification/GoNet.v ===== *)
(** * Addresses: packages net and net/url

    [SplitHostPort], [JoinHostPort], [ParseIP], [IP.String] and
    [IP.IsLoopback] of package net, and the parts of [url.URL] that the watchdog
    endpoints use.  Parsing and printing of whole URLs are the two operations of
    [NetURL]; nothing is assumed of them. *)

From S2P Require Import Prelude GoStrings GoText GoJson.
From Stdlib Require Import Ascii.

#[local] Open Scope Z_scope.
#[local] Open Scope go_scope.

Definition colon_byte : ascii := ":"%char.

(** The text before and after the last occurrence of a byte. *)
Fixpoint cut_last (c : ascii) (l : list ascii) : option (list ascii * list ascii) :=
  match l with
  | [] => None
  | x :: l' =>
    match cut_last c l' with
    | Some (a, b) => Some (x :: a, b)
    | None => if decide (x = c) then Some ([], l') else None
    end
  end.

Definition addrErr (why addr : string) : error := ErrFmt "address %s: %s" [addr; why].

Definition SplitHostPort (hostport : string) : result (string * string) :=
  let l := bytes hostport in
  match cut_last colon_byte l with
  | None => Fail (addrErr "missing port in address" hostport)
  | Some (before, port) =>
    if decide (head l = Some "["%char) then
      match cut_go ["]"%char] l [] with
      | None => Fail (addrErr "missing ']' in address" hostport)
      | Some (open_host, after) =>
        match after with
        | [] => Fail (addrErr "missing port in address" hostport)
        | c :: after' =>
          if decide (length before = S (length open_host)) then
            if decide ("["%char ∈ drop 1 l) then Fail (addrErr "unexpected '[' in address" hostport)
            else if decide ("]"%char ∈ after) then Fail (addrErr "unexpected ']' in address" hostport)
            else Ok (str (drop 1 open_host), str port)
          else if decide (c = colon_byte) then Fail (addrErr "too many colons in address" hostport)
          else Fail (addrErr "missing port in address" hostport)
        end
      end
    else if decide (colon_byte ∈ before) then Fail (addrErr "too many colons in address" hostport)
    else if decide ("["%char ∈ l) then Fail (addrErr "unexpected '[' in address" hostport)
    else if decide ("]"%char ∈ l) then Fail (addrErr "unexpected ']' in address" hostport)
    else Ok (str before, str port)
  end.

Definition JoinHostPort (host port : string) : string :=
  if decide (colon_byte ∈ bytes host) then "[" +:+ host +:+ "]:" +:+ port
  else host +:+ ":" +:+ port.

(** ** IP addresses

    An address is its sixteen bytes; an IPv4 address is held in the mapped
    form. *)

Definition IP := list Z.
Definition v4_prefix : list Z := [0; 0; 0; 0; 0; 0; 0; 0; 0; 0; 255; 255].

(** A decimal field of an IPv4 address: one to three digits without a leading
    zero, at most 255. *)
Definition ipv4_field (l : list ascii) : option Z :=
  match l with
  | [] => None
  | c :: l' =>
    if bool_decide (c = "0"%char) && bool_decide (l' ≠ []) then None
    else match digits_go l 0 with
         | Some n => if n <=? 255 then Some n else None
         | None => None
         end
  end.

Definition ipv4_fields (l : list ascii) : option (list Z) :=
  match split_go "."%char l [] with
  | [a; b; c; d] =>
    match ipv4_field a, ipv4_field b, ipv4_field c, ipv4_field d with
    | Some w, Some x, Some y, Some z => Some [w; x; y; z]
    | _, _, _, _ => None
    end
  | _ => None
  end.

(** The hexadecimal digits at the front of a text: how many, their value, and
    the rest. *)
Fixpoint hex_group (l : list ascii) (acc : Z) (n : nat) : nat * Z * list ascii :=
  match l with
  | c :: l' => match hex_digit c with
               | Some d => hex_group l' (acc * 16 + d) (S n)
               | None => (n, acc, l)
               end
  | [] => (n, acc, [])
  end.

(** The loop of [parseIPv6]: [ip] holds the bytes so far, [ellipsis] their
    number when the double colon was seen. *)
Fixpoint ipv6_groups (rounds : nat) (s : list ascii) (ip : list Z) (ellipsis : option nat) :
    option (list Z * option nat) :=
  match rounds with
  | O => match s with [] => Some (ip, ellipsis) | _ => None end
  | S rounds' =>
    let '(off, acc, rest) := hex_group s 0 0 in
    if bool_decide (off = 0)%nat || bool_decide (4 < off)%nat then None
    else
      match rest with
      | [] => Some (ip ++ [acc / 256; acc mod 256], ellipsis)
      | c :: s' =>
        if decide (c = "."%char) then
          if bool_decide (ellipsis = None) && negb (bool_decide (length ip = 12%nat)) then None
          else if bool_decide (16 < length ip + 4)%nat then None
          else match ipv4_fields s with Some fs => Some (ip ++ fs, ellipsis) | None => None end
        else if decide (c = colon_byte) then
          let ip := ip ++ [acc / 256; acc mod 256] in
          match s' with
          | [] => None
          | d :: s'' =>
            if decide (d = colon_byte) then
              match ellipsis with
              | Some _ => None
              | None => match s'' with
                        | [] => Some (ip, Some (length ip))
                        | _ => ipv6_groups rounds' s'' ip (Some (length ip))
                        end
              end
            else ipv6_groups rounds' s' ip ellipsis
          end
        else None
      end
  end.

Definition ipv6_expand (r : list Z * option nat) : option IP :=
  let '(ip, ellipsis) := r in
  if decide (length ip < 16)%nat then
    match ellipsis with
    | None => None
    | Some k => Some (take k ip ++ replicate (16 - length ip) 0 ++ drop k ip)
    end
  else match ellipsis with Some _ => None | None => Some ip end.

Definition parseIPv6 (l : list ascii) : option IP :=
  match strip_prefix (bytes "::") l with
  | Some [] => Some (replicate 16 0)
  | Some s => ipv6_groups 8 s [] (Some 0%nat) ≫= ipv6_expand
  | None => ipv6_groups 8 l [] None ≫= ipv6_expand
  end.

(** The first dot, colon or percent sign selects the kind; an address with a
    zone is not an IP. *)
Fixpoint ip_kind (l : list ascii) : option ascii :=
  match l with
  | [] => None
  | c :: l' => if decide (c ∈ ["."; ":"; "%"]%char) then Some c else ip_kind l'
  end.

Definition ParseIP (s : string) : option IP :=
  let l := bytes s in
  match ip_kind l with
  | Some c =>
    if decide (c = "."%char) then (λ fs, v4_prefix ++ fs) <$> ipv4_fields l
    else if decide (c = ":"%char) then if decide ("%"%char ∈ l) then None else parseIPv6 l
    else None
  | None => None
  end.

Definition To4 (ip : IP) : option (list Z) :=
  if decide (take 12 ip = v4_prefix ∧ length ip = 16%nat) then Some (drop 12 ip) else None.

Definition IPv6loopback : IP := replicate 15 0 ++ [1].

Definition IsLoopback (ip : IP) : bool :=
  match To4 ip with
  | Some ip4 => bool_decide (head ip4 = Some 127)
  | None => bool_decide (ip = IPv6loopback)
  end.

Fixpoint join (sep : string) (ls : list string) : string :=
  match ls with
  | [] => ""
  | [l] => l
  | l :: ls' => l +:+ sep +:+ join sep ls'
  end.

(** Hexadecimal without leading zeros. *)
Definition hex_char (d : Z) : ascii := if d <? 10 then z2b (48 + d) else z2b (87 + d).
Definition hex (n : Z) : string :=
  let ds := [n / 4096; n / 256 mod 16; n / 16 mod 16; n mod 16] in
  str (hex_char <$> match ds with
                    | [0; 0; 0; d] => [d] | [0; 0; c; d] => [c; d] | [0; b; c; d] => [b; c; d] | _ => ds
                    end).

Fixpoint groups (ip : IP) : list Z :=
  match ip with
  | a :: b :: ip' => (a * 256 + b) :: groups ip'
  | _ => []
  end.

(** The first longest run of at least two zero groups, as its start and
    length. *)
Fixpoint zero_run (gs : list Z) : nat :=
  match gs with g :: gs' => if g =? 0 then S (zero_run gs') else O | [] => O end.
Fixpoint longest_run (i : nat) (gs : list Z) (best : nat * nat) : nat * nat :=
  match gs with
  | [] => best
  | _ :: gs' =>
    let n := zero_run gs in
    longest_run (S i) gs' (if bool_decide (2 ≤ n ∧ best.2 < n)%nat then (i, n) else best)
  end.

Definition IP_String (ip : IP) : string :=
  match To4 ip with
  | Some ip4 => join "." (pretty <$> ip4)
  | None =>
    let gs := groups ip in
    let '(i, n) := longest_run 0 gs (0%nat, 0%nat) in
    if decide (n = 0%nat) then join ":" (hex <$> gs)
    else join ":" (hex <$> take i gs) +:+ "::" +:+ join ":" (hex <$> drop (i + n) gs)
  end.

(** ** URLs *)

Record URL := {
  Scheme : string; Opaque : string; UserInfo : option string; Host : string;
  URLPath : string; RawPath : string; OmitHost : bool; ForceQuery : bool;
  RawQuery : string; Fragment : string; RawFragment : string;
}.

Class NetURL := {
  url_Parse : string → option URL;
  url_String : URL → string;
}.

#[global] Instance eta_URL : Settable URL := λ u, {|
  Scheme := Scheme u; Opaque := Opaque u; UserInfo := UserInfo u; Host := Host u;
  URLPath := URLPath u; RawPath := RawPath u; OmitHost := OmitHost u; ForceQuery := ForceQuery u;
  RawQuery := RawQuery u; Fragment := Fragment u; RawFragment := RawFragment u |}.

Definition validOptionalPort (l : list ascii) : bool := bool_decide (Forall (λ c, is_Some (digit c)) l).

(** [u.Hostname()] and [u.Port()]. *)
Definition url_splitHostPort (hostPort : string) : string * string :=
  let '(host, port) :=
    match cut_last colon_byte (bytes hostPort) with
    | Some (h, p) => if validOptionalPort p then (h, p) else (bytes hostPort, [])
    | None => (bytes hostPort, [])
    end in
  let host := match strip_prefix (bytes "[") host with
              | Some rest =>
                if decide (last rest = Some "]"%char) then take (length rest - 1) rest else host
              | None => host
              end in
  (str host, str port).

Definition Hostname (u : URL) : string := (url_splitHostPort (Host u)).1.
Definition Port (u : URL) : string := (url_splitHostPort (Host u)).2.

(** ** Lemmas *)

Definition byte_range (x : Z) : Prop := 0 ≤ x < 256.

Lemma ipv4_field_range l n : ipv4_field l = Some n → byte_range n.
Proof.
  unfold ipv4_field. intros Hn. destruct l as [|c l]; [done|]. destruct (_ && _); [done|].
  destruct (digits_go (c :: l) 0) as [m|] eqn:Hd; [|done]. apply digits_go_nonneg in Hd; [|done].
  destruct (Z.leb_spec m 255); simplify_eq. unfold byte_range. lia.
Qed.

Lemma ipv4_fields_range l fs : ipv4_fields l = Some fs → length fs = 4%nat ∧ Forall byte_range fs.
Proof.
  unfold ipv4_fields. intros Hf. repeat case_match; simplify_eq/=. split; [done|].
  repeat constructor; by eapply ipv4_field_range.
Qed.

Lemma hex_digit_range c d : hex_digit c = Some d → 0 ≤ d < 16.
Proof.
  unfold hex_digit. cbv zeta. intros Hd.
  destruct ((48 <=? b2z c) && _) eqn:E1; [|destruct ((97 <=? b2z c) && _) eqn:E2;
    [|destruct ((65 <=? b2z c) && _) eqn:E3; [|done]]]; simplify_eq;
    rewrite andb_true_iff, !Z.leb_le in *; lia.
Qed.

Lemma hex_group_range l acc n off a rest : hex_group l acc n = (off, a, rest) →
  0 ≤ acc < 16 ^ Z.of_nat n → (n ≤ off)%nat ∧ 0 ≤ a < 16 ^ Z.of_nat off.
Proof.
  revert acc n. induction l as [|c l IH]; intros acc n; cbn [hex_group]; [by intros [= <- <- <-]|].
  destruct (hex_digit c) as [d|] eqn:Hd; [|by intros [= <- <- <-]].
  intros Hg Hacc. apply hex_digit_range in Hd. destruct (IH _ _ Hg) as [? ?].
  - rewrite Nat2Z.inj_succ, Z.pow_succ_r by lia. lia.
  - split; [lia|done].
Qed.

Lemma hex_group_bytes l off acc rest : hex_group l 0 0 = (off, acc, rest) → (off ≤ 4)%nat →
  byte_range (acc / 256) ∧ byte_range (acc mod 256).
Proof.
  intros Hg Hoff. apply hex_group_range in Hg as [_ [H1 H2]]; [|done].
  assert (16 ^ Z.of_nat off ≤ 16 ^ 4) by (apply Z.pow_le_mono_r; lia). unfold byte_range.
  split; [|apply Z.mod_pos_bound; lia]. split; [apply Z.div_pos; lia|apply Z.div_lt_upper_bound; lia].
Qed.

Lemma ipv6_groups_range rounds s ip e ip' e' : ipv6_groups rounds s ip e = Some (ip', e') →
  Forall byte_range ip → (length ip + 2 * rounds = 16)%nat →
  from_option (λ k, k ≤ length ip)%nat True e →
  Forall byte_range ip' ∧ (length ip' ≤ 16)%nat ∧ from_option (λ k, k ≤ length ip')%nat True e'.
Proof.
  revert s ip e. induction rounds as [|rounds IH]; intros s ip e Hg Hip Hlen He; cbn [ipv6_groups] in Hg.
  { destruct s; simplify_eq. split_and!; [done|lia|done]. }
  destruct (hex_group s 0 0) as [[off acc] rest] eqn:Hh.
  destruct (_ || _) eqn:E; [done|]. rewrite orb_false_iff, !bool_decide_eq_false in E.
  destruct (hex_group_bytes _ _ _ _ Hh) as [Hb1 Hb2]; [lia|].
  assert (Forall byte_range (ip ++ [acc / 256; acc mod 256])) as Hip'
    by (rewrite Forall_app, !Forall_cons, Forall_nil; split_and!; done).
  assert (length (ip ++ [acc / 256; acc mod 256]) = (length ip + 2)%nat) as Hl2 by (rewrite length_app; done).
  destruct rest as [|c s']; simplify_eq.
  { rewrite Hl2. split_and!; [done|lia|]. destruct e'; cbn in *; [lia|done]. }
  destruct (decide (c = "."%char)).
  { destruct (_ && _); [done|]. destruct (bool_decide _) eqn:E2; [done|]. rewrite bool_decide_eq_false in E2.
    destruct (ipv4_fields s) as [fs|] eqn:Hf; [|done]. simplify_eq.
    apply ipv4_fields_range in Hf as [Hf1 Hf2]. rewrite length_app. split_and!; [by apply Forall_app|lia|].
    destruct e'; cbn in *; [lia|done]. }
  destruct (decide (c = colon_byte)); [|done]. destruct s' as [|d s'']; [done|].
  destruct (decide (d = colon_byte)).
  - destruct e; [done|]. destruct s'' as [|d' s''].
    + simplify_eq. rewrite Hl2. split_and!; [done|lia|cbn; lia].
    + eapply IH; [exact Hg|done|lia|cbn; lia].
  - eapply IH; [exact Hg|done|lia|]. destruct e; cbn in *; [lia|done].
Qed.

Lemma ipv6_expand_range ip e r : ipv6_expand (ip, e) = Some r → Forall byte_range ip →
  (length ip ≤ 16)%nat → from_option (λ k, k ≤ length ip)%nat True e →
  length r = 16%nat ∧ Forall byte_range r.
Proof.
  unfold ipv6_expand. intros Hr Hip Hlen He. case_decide; destruct e as [k|]; simplify_eq; cbn in He.
  - rewrite !length_app, length_take, length_drop, length_replicate. split; [lia|].
    rewrite !Forall_app. split_and!; [by apply Forall_take| |by apply Forall_drop].
    apply Forall_replicate. unfold byte_range. lia.
  - split; [lia|done].
Qed.

Lemma ParseIP_range s ip : ParseIP s = Some ip → length ip = 16%nat ∧ Forall byte_range ip.
Proof.
  assert (∀ l e r, ipv6_groups 8 l [] e ≫= ipv6_expand = Some r → from_option (λ k, k ≤ 0)%nat True e →
    length r = 16%nat ∧ Forall byte_range r) as H6.
  { intros l e r ([ip' e'] & Hg & Hx)%bind_Some He.
    apply ipv6_groups_range in Hg as (? & ? & ?); [|done..]. by eapply ipv6_expand_range. }
  unfold ParseIP. destruct (ip_kind (bytes s)) as [c|]; [|done]. case_decide.
  { intros (fs & [Hl Hf]%ipv4_fields_range & ->)%fmap_Some. rewrite length_app, Hl. split; [done|].
    apply Forall_app. split; [|done]. by repeat constructor. }
  case_decide; [|done]. case_decide; [done|]. unfold parseIPv6. intros Hp.
  destruct (strip_prefix (bytes "::") (bytes s)) as [[|c' l]|]; simplify_eq.
  - split; [done|]. change (Forall byte_range (replicate 16 0)). apply Forall_replicate. by unfold byte_range.
  - eapply H6; [exact Hp|cbn; lia].
  - by eapply H6; [exact Hp|].
Qed.
