(* ===== verification/UnitEndpoints.v ===== *)
(** * Probe endpoints: internal/unit/watchdog.go

    [WatchdogEndpoint=] and [ReadinessEndpoint=] name an address on the local
    machine.  The file translates the parsers of endpoints and the checks made
    again before a connection, and shows that what the parsers accept is a
    loopback address in a form that the checks accept unchanged. *)

From S2P Require Import Prelude GoStrings GoText GoJson GoNet UnitTypes.
From Stdlib Require Import Ascii.

#[local] Open Scope Z_scope.
#[local] Open Scope go_scope.

Definition defaultHTTPWatchdogStatus : Z := 200.

Definition canonicalizeLoopbackHost (host : string) : result string :=
  let host := TrimSpace host in
  if decide (host = "") then Fail (ErrText "WatchdogEndpoint host is empty")
  else if EqualFold host "localhost" then Ok "127.0.0.1"
  else match ParseIP host with
       | None => Fail (ErrFmt "WatchdogEndpoint host %q is not a loopback address" [host])
       | Some ip =>
         if negb (IsLoopback ip)
         then Fail (ErrFmt "WatchdogEndpoint host %q is not a loopback address" [host])
         else Ok (IP_String ip)
       end.

(** [nil] is [None]. *)
Definition validWatchdogPort (port : string) : option error :=
  match Atoi port with
  | Some n => if (n <? 1) || (65535 <? n)
              then Some (ErrFmt "invalid WatchdogEndpoint port %q" [port]) else None
  | None => Some (ErrFmt "invalid WatchdogEndpoint port %q" [port])
  end.

Definition Contains (s sub : string) : bool := bool_decide (is_Some (cut_go (bytes sub) (bytes s) [])).

Definition parseTCPWatchdogEndpoint (raw : string) : result string :=
  let raw := TrimSpace raw in
  if decide (raw = "") then Fail (ErrText "invalid WatchdogEndpoint: empty host:port")
  else if Contains raw "://" then Fail (ErrText "WatchdogMode=tcp requires host:port, not a URL")
  else match SplitHostPort raw with
       | Fail e => Fail (ErrWrap "invalid WatchdogEndpoint" e)
       | Ok (host, port) =>
         host <-? canonicalizeLoopbackHost host ;;
         match validWatchdogPort port with
         | Some e => Fail e
         | None => Ok (JoinHostPort host port)
         end
       end.

Definition parseHTTPWatchdogStatus (raw : string) : result Z :=
  match Atoi (TrimSpace raw) with
  | None => Fail (ErrText "not an HTTP status code")
  | Some n => if (n <? 100) || (599 <? n) then Fail (ErrFmt "%d is not an HTTP status code" [pretty n]) else Ok n
  end.

Definition requireLoopbackAddr (addr : string) : option error :=
  match SplitHostPort addr with
  | Fail e => Some (ErrWrap "invalid WatchdogEndpoint" e)
  | Ok (host, port) =>
    match canonicalizeLoopbackHost host with
    | Fail e => Some e
    | Ok _ => validWatchdogPort port
    end
  end.

(** The checks of [dialLoopback] before it connects, with the address it
    connects to. *)
Definition dial_target (address : string) : result string :=
  match requireLoopbackAddr address with
  | Some e => Fail e
  | None =>
    hp <-? SplitHostPort address ;;
    canon <-? canonicalizeLoopbackHost hp.1 ;;
    Ok (JoinHostPort canon hp.2)
  end.

Section url.
Context {NU : NetURL}.

Definition parseHTTPWatchdogEndpoint (raw : string) : result URL :=
  let raw := TrimSpace raw in
  if decide (raw = "") then Fail (ErrText "invalid WatchdogEndpoint: empty URL")
  else match url_Parse raw with
  | None => Fail (ErrText "WatchdogEndpoint must be an http or https URL")
  | Some u =>
    if negb (bool_decide (Scheme u = "http")) && negb (bool_decide (Scheme u = "https"))
    then Fail (ErrText "WatchdogEndpoint must be an http or https URL")
    else if decide (Host u = "") then Fail (ErrText "WatchdogEndpoint URL is missing a host")
    else if decide (UserInfo u ≠ None) then Fail (ErrText "WatchdogEndpoint must not include userinfo")
    else
      host <-? canonicalizeLoopbackHost (Hostname u) ;;
      let port := Port u in
      let port := if decide (port = "") then (if decide (Scheme u = "https") then "443" else "80") else port in
      match validWatchdogPort port with
      | Some e => Fail e
      | None =>
        let u := u <| Host := JoinHostPort host port |> <| UserInfo := None |> <| Fragment := "" |> in
        Ok (if decide (URLPath u = "") then u <| URLPath := "/" |> else u)
      end
  end.

Definition requireLoopbackURL (raw : string) : result URL :=
  match url_Parse raw with
  | None => Fail (ErrText "url.Parse")
  | Some u =>
    if negb (bool_decide (Scheme u = "http")) && negb (bool_decide (Scheme u = "https"))
    then Fail (ErrText "WatchdogEndpoint must be an http or https URL")
    else
      let host := Hostname u in
      let host := if decide (host = "") then Host u else host in
      _ <-? canonicalizeLoopbackHost host ;; Ok u
  end.

End url.

Definition WatchdogProbeTimeout (interval : Duration) : Duration :=
  if interval <=? 0 then Second else interval.

(** ** Loopback addresses *)

(** The hosts that [canonicalizeLoopbackHost] returns. *)
Definition dotted (fs : list Z) : string := join "." (pretty <$> fs).
Definition loopback_host (h : string) : Prop :=
  h = "::1" ∨ ∃ b c d, byte_range b ∧ byte_range c ∧ byte_range d ∧ h = dotted [127; b; c; d].

Lemma canonicalizeLoopbackHost_form host h : canonicalizeLoopbackHost host = Ok h → loopback_host h.
Proof.
  unfold canonicalizeLoopbackHost. intros Hh. case_decide; [done|]. destruct (EqualFold _ _).
  { simplify_eq. right. exists 0, 0, 1. unfold byte_range. split_and!; [lia..|done]. }
  destruct (ParseIP (TrimSpace host)) as [ip|] eqn:Hip; [|done]. apply ParseIP_range in Hip as [Hlen Hr].
  destruct (IsLoopback ip) eqn:Hl; [|done]. cbn in Hh. simplify_eq. unfold IsLoopback in Hl. unfold IP_String.
  destruct (To4 ip) as [ip4|] eqn:H4.
  - right. unfold To4 in H4. case_decide as Hp; [|done]. simplify_eq. apply bool_decide_eq_true in Hl.
    pose proof (length_drop ip 12) as Hl4. rewrite Hlen in Hl4.
    pose proof (Forall_drop _ 12 _ Hr) as Hr4.
    destruct (drop 12 ip) as [|a [|b [|c [|d [|]]]]]; try done. cbn in Hl. simplify_eq.
    exists b, c, d. rewrite !Forall_cons in Hr4. naive_solver.
  - left. apply bool_decide_eq_true in Hl as ->. by vm_compute.
Qed.

(** A byte in decimal: what its field is read as, and its digits. *)
Lemma ipv4_field_pretty b : byte_range b → ipv4_field (bytes (pretty b)) = Some b.
Proof.
  intros Hb. assert (Forall (λ n, ipv4_field (bytes (pretty n)) = Some n) (Z.of_nat <$> seq 0 256)) as Hall.
  { apply (bool_decide_unpack _). by vm_compute. }
  rewrite Forall_forall in Hall. apply Hall. apply list_elem_of_fmap. exists (Z.to_nat b).
  unfold byte_range in Hb. split; [lia|]. apply elem_of_seq. lia.
Qed.

Lemma pretty_byte_digits b c : byte_range b → c ∈ bytes (pretty b) → is_Some (digit c).
Proof.
  intros Hb. destruct (decide (b = 0)) as [->|]; [intros ->%list_elem_of_singleton; by eexists|].
  unfold byte_range in Hb. destruct (pretty_pos_bytes b) as (l & -> & _ & _ & Hl); [lia|]. apply Hl.
Qed.

Definition dot_bytes (l : list ascii) : Prop := ∀ c, c ∈ l → is_Some (digit c) ∨ c = "."%char.

Lemma dotted_bytes b c d :
  bytes (dotted [127; b; c; d]) =
  bytes "127" ++ "."%char :: bytes (pretty b) ++ "."%char :: bytes (pretty c) ++ "."%char :: bytes (pretty d).
Proof. unfold dotted. cbn [fmap list_fmap join]. rewrite !bytes_app. done. Qed.

Lemma dotted_ParseIP b c d : byte_range b → byte_range c → byte_range d →
  ParseIP (dotted [127; b; c; d]) = Some (v4_prefix ++ [127; b; c; d]).
Proof.
  intros Hb Hc Hd. unfold ParseIP. rewrite dotted_bytes. cbn [ip_kind bytes app]. 
  assert (∀ x, byte_range x → "."%char ∉ bytes (pretty x)) as Hdot.
  { intros x Hx Hin. destruct (pretty_byte_digits x _ Hx Hin) as [? Hd']. by vm_compute in Hd'. }
  change (ip_kind _) with (Some "."%char). cbn iota. rewrite decide_True by done.
  unfold ipv4_fields. rewrite split_go_app by (by apply (bool_decide_unpack _)).
  rewrite !split_go_app by auto. rewrite split_go_none by auto. cbn [app].
  rewrite !ipv4_field_pretty by done. done.
Qed.

Lemma dotted_all b c d : byte_range b → byte_range c → byte_range d →
  dot_bytes (bytes (dotted [127; b; c; d])) ∧ ∃ x l, bytes (dotted [127; b; c; d]) = l ++ [x] ∧ is_Some (digit x).
Proof.
  intros Hb Hc Hd. rewrite dotted_bytes. split.
  - intros x. rewrite !elem_of_app, !elem_of_cons, !elem_of_app, !elem_of_cons, !elem_of_app, !elem_of_cons.
    pose proof (pretty_byte_digits b x Hb). pose proof (pretty_byte_digits c x Hc).
    pose proof (pretty_byte_digits d x Hd).
    intros [Hx|?]; [|naive_solver]. left. repeat (apply elem_of_cons in Hx as [->|Hx]; [by eexists|]).
    by apply not_elem_of_nil in Hx.
  - pose proof (ipv4_field_pretty d Hd) as Hf. pose proof (pretty_byte_digits d) as Hp.
    destruct (bytes (pretty d)) as [|x l _] using rev_ind; [done|].
    eexists x, _. split; [by rewrite !app_comm_cons, !app_assoc|]. apply Hp; [done|]. set_solver.
Qed.

Lemma plain_byte c : is_Some (digit c) ∨ c ∈ ["."; ":"; "["; "]"; "+"; "-"]%char →
  b2z c < 0x80 ∧ IsSpace (b2z c) = false ∧ c ≠ "/"%char.
Proof.
  apply (every_byte (λ c, is_Some (digit c) ∨ c ∈ ["."; ":"; "["; "]"; "+"; "-"]%char →
    b2z c < 0x80 ∧ IsSpace (b2z c) = false ∧ c ≠ "/"%char)). by vm_compute.
Qed.

Lemma digit_not c x : is_Some (digit c) → digit x = None → c ≠ x.
Proof. intros [d Hd] Hx ->. by rewrite Hd in Hx. Qed.

(** A text of plain bytes has no white space around it. *)
Definition plain_text (l : list ascii) : Prop := ∀ c, c ∈ l → is_Some (digit c) ∨ c ∈ ["."; ":"; "["; "]"; "+"; "-"]%char.

Lemma plain_TrimSpace s : plain_text (bytes s) → TrimSpace s = s.
Proof.
  intros Hs. apply TrimSpace_id. rewrite <-(str_bytes s). apply tidy_ascii.
  - apply Forall_forall. intros c Hc. by apply plain_byte, Hs.
  - destruct (bytes s) as [|c l]; [done|]. apply plain_byte, Hs. by left.
  - destruct (bytes s) as [|c l _] using rev_ind; [done|]. rewrite last_snoc. apply plain_byte, Hs. set_solver.
Qed.

Lemma loopback_plain h : loopback_host h → plain_text (bytes h) ∧ h ≠ "".
Proof.
  intros [->|(b & c & d & Hb & Hc & Hd & ->)].
  - split; [|done]. unfold plain_text. apply Forall_forall, (bool_decide_unpack _). by vm_compute.
  - destruct (dotted_all b c d Hb Hc Hd) as [Hall (x & l & Hl & _)]. split.
    + intros y Hy. apply Hall in Hy as [?| ->]; [by left|right; set_solver].
    + intros He. rewrite He in Hl. by destruct l.
Qed.

(** Canonical hosts are read back unchanged. *)
Lemma canonicalizeLoopbackHost_id h : loopback_host h → canonicalizeLoopbackHost h = Ok h.
Proof.
  intros Hh. destruct (loopback_plain h Hh) as [Hp Hne]. unfold canonicalizeLoopbackHost.
  rewrite plain_TrimSpace, decide_False by done. destruct Hh as [->|(b & c & d & Hb & Hc & Hd & ->)]; [by vm_compute|].
  assert (EqualFold (dotted [127; b; c; d]) "localhost" = false) as ->.
  { unfold EqualFold. rewrite dotted_bytes. cbn [bytes app]. by apply bool_decide_false. }
  rewrite dotted_ParseIP by done. done.
Qed.

(** ** Ports and addresses *)

Lemma digits_go_all l acc n : digits_go l acc = Some n → ∀ c, c ∈ l → is_Some (digit c).
Proof.
  revert acc. induction l as [|x l IH]; intros acc Hd c; [by intros ?%not_elem_of_nil|].
  cbn in Hd. destruct (digit x) eqn:Hx; [|done]. intros [->|Hc]%elem_of_cons; [by eexists|]. by eapply IH.
Qed.

(** A port that is accepted is a number in its range, written with digits and
    at most a sign. *)
Lemma validWatchdogPort_form port : validWatchdogPort port = None →
  (∃ n, Atoi port = Some n ∧ 1 ≤ n ≤ 65535) ∧
  ∀ c, c ∈ bytes port → is_Some (digit c) ∨ c ∈ ["+"; "-"]%char.
Proof.
  unfold validWatchdogPort. destruct (Atoi port) as [n|] eqn:Hn; [|done].
  destruct (_ || _) eqn:E; [done|]. intros _. rewrite orb_false_iff, !Z.ltb_ge in E.
  split; [by exists n|]. unfold Atoi, ParseInt64 in Hn. destruct (bytes port) as [|c l]; [done|].
  cbv zeta in Hn.
  destruct (bool_decide (c = "-"%char) || bool_decide (c = "+"%char)) eqn:Es.
  - intros x [->|Hx]%elem_of_cons.
    + right. rewrite orb_true_iff, !bool_decide_eq_true in Es. set_solver.
    + left. destruct l as [|c' l]; [done|]. destruct (digits_go (c' :: l) 0) as [m|] eqn:Hd; [|done].
      by eapply digits_go_all.
  - intros x Hx. left. destruct (digits_go (c :: l) 0) as [m|] eqn:Hd; [|done]. by eapply digits_go_all.
Qed.

Lemma cut_last_app c l1 l2 : c ∉ l2 → cut_last c (l1 ++ c :: l2) = Some (l1, l2).
Proof.
  intros Hc. assert (cut_last c l2 = None) as Hn.
  { induction l2 as [|x l2 IH]; [done|]. apply not_elem_of_cons in Hc as [? ?]. cbn.
    rewrite IH by done. by rewrite decide_False. }
  induction l1 as [|x l1 IH]; cbn; [by rewrite Hn, decide_True|by rewrite IH].
Qed.

Definition brackets : list ascii := ["["; "]"]%char.

Lemma SplitHostPort_plain h port :
  (∀ x, x ∈ colon_byte :: brackets → x ∉ bytes h ∧ x ∉ bytes port) →
  SplitHostPort (h +:+ ":" +:+ port) = Ok (h, port).
Proof.
  intros Hno. unfold SplitHostPort. rewrite !bytes_app. change (bytes ":") with [colon_byte]. cbn [app].
  destruct (Hno colon_byte) as [Hc1 Hc2]; [set_solver|].
  destruct (Hno "["%char) as [Ho1 Ho2]; [set_solver|]. destruct (Hno "]"%char) as [He1 He2]; [set_solver|].
  rewrite cut_last_app by done. rewrite decide_False.
  - rewrite decide_False by done. rewrite !decide_False; [by rewrite !str_bytes|..];
      rewrite elem_of_app, elem_of_cons; intros [?|[?|?]]; done.
  - destruct (bytes h) as [|x l]; [done|]. cbn. intros [= ->]. set_solver.
Qed.

Lemma SplitHostPort_bracket h port :
  (∀ x, x ∈ brackets → x ∉ bytes h) → (∀ x, x ∈ colon_byte :: brackets → x ∉ bytes port) →
  SplitHostPort ("[" +:+ h +:+ "]:" +:+ port) = Ok (h, port).
Proof.
  intros Hh Hp. unfold SplitHostPort. rewrite !bytes_app.
  change (bytes "[") with ["["%char]. change (bytes "]:") with ["]"%char; colon_byte]. cbn [app].
  assert (colon_byte ∉ bytes port ∧ "["%char ∉ bytes port ∧ "]"%char ∉ bytes port) as (Hc & Ho & He)
    by (split_and!; apply Hp; set_solver).
  assert ("["%char ∉ bytes h ∧ "]"%char ∉ bytes h) as (Ho' & He') by (split; apply Hh; set_solver).
  replace ("["%char :: bytes h ++ "]"%char :: colon_byte :: bytes port) with
    (("["%char :: bytes h ++ ["]"%char]) ++ colon_byte :: bytes port) at 1
    by (cbn; by rewrite <-app_assoc).
  rewrite cut_last_app by done. cbn [head]. rewrite decide_True by done.
  rewrite app_comm_cons. rewrite cut_go_single by (apply not_elem_of_cons; done). cbn [app].
  rewrite decide_True by (cbn; rewrite length_app; cbn; lia). cbn [drop].
  rewrite !decide_False; [by rewrite !drop_0, !str_bytes|..].
  - apply not_elem_of_cons. done.
  - rewrite drop_0, elem_of_app, !elem_of_cons. intros [?|[?|[?|?]]]; done.
Qed.

Lemma split_join h port : loopback_host h → validWatchdogPort port = None →
  SplitHostPort (JoinHostPort h port) = Ok (h, port).
Proof.
  intros Hh Hport. apply validWatchdogPort_form in Hport as [_ Hp].
  assert (∀ x, x ∈ colon_byte :: brackets → x ∉ bytes port) as Hno.
  { intros x Hx Hin. destruct (Hp x Hin) as [[d Hd]|?]; [|set_solver].
    repeat (apply elem_of_cons in Hx as [->|Hx]; [by vm_compute in Hd|]). by apply not_elem_of_nil in Hx. }
  destruct Hh as [->|(b & c & d & Hb & Hc & Hd & ->)].
  - apply SplitHostPort_bracket; [|done]. intros x Hx. 
    repeat (apply elem_of_cons in Hx as [->|Hx]; [by apply (bool_decide_unpack _)|]). by apply not_elem_of_nil in Hx.
  - destruct (dotted_all b c d Hb Hc Hd) as [Hall _].
    assert (∀ x, x ∈ colon_byte :: brackets → x ∉ bytes (dotted [127; b; c; d])) as Hno'.
    { intros x Hx Hin. destruct (Hall x Hin) as [[y Hy]| ->]; [|set_solver].
      repeat (apply elem_of_cons in Hx as [->|Hx]; [by vm_compute in Hy|]). by apply not_elem_of_nil in Hx. }
    unfold JoinHostPort. rewrite decide_False by (apply Hno'; set_solver).
    apply SplitHostPort_plain. intros x Hx. split; auto.
Qed.

Lemma join_plain h port : loopback_host h → validWatchdogPort port = None →
  plain_text (bytes (JoinHostPort h port)) ∧ JoinHostPort h port ≠ "".
Proof.
  intros Hh Hport. apply validWatchdogPort_form in Hport as [_ Hp].
  destruct (loopback_plain h Hh) as [Hpl Hne].
  assert (∀ c, c ∈ bytes port → is_Some (digit c) ∨ c ∈ ["."; ":"; "["; "]"; "+"; "-"]%char) as Hp'.
  { intros c Hc. destruct (Hp c Hc); [by left|right; set_solver]. }
  assert (plain_text (bytes "[") ∧ plain_text (bytes "]:") ∧ plain_text (bytes ":")) as (H1 & H2 & H3)
    by (split_and!; unfold plain_text; apply Forall_forall, (bool_decide_unpack _); by vm_compute).
  unfold JoinHostPort. split.
  - case_decide; rewrite !bytes_app; intros c; rewrite !elem_of_app; intros Hc; decompose [or] Hc; auto.
  - case_decide; intros Ht%(f_equal bytes); rewrite !bytes_app in Ht; [done|].
    apply app_nil in Ht as [_ Ht]. done.
Qed.

Lemma cut_go_elem sep l b r : cut_go sep l b = Some r → ∀ c, c ∈ sep → c ∈ l.
Proof.
  revert b. induction l as [|x l IH]; intros b Hr c Hc; cbn in Hr.
  - destruct (strip_prefix sep []) eqn:E; [|done]. apply strip_prefix_Some in E. symmetry in E.
    apply app_nil in E as [-> _]. done.
  - destruct (strip_prefix sep (x :: l)) eqn:E.
    + apply strip_prefix_Some in E. rewrite E. set_solver.
    + right. by eapply IH.
Qed.

Lemma plain_not_url s : plain_text (bytes s) → Contains s "://" = false.
Proof.
  intros Hs. apply bool_decide_false. intros [r Hr]. apply cut_go_elem with (c := "/"%char) in Hr; [|set_solver].
  apply Hs, plain_byte in Hr. naive_solver.
Qed.

(** What the checks before a connection make of a canonical address. *)
Lemma dial_join h port : loopback_host h → validWatchdogPort port = None →
  dial_target (JoinHostPort h port) = Ok (JoinHostPort h port).
Proof.
  intros Hh Hp. unfold dial_target, requireLoopbackAddr. rewrite split_join by done.
  rewrite canonicalizeLoopbackHost_id, Hp by done. cbn [fst snd]. by rewrite canonicalizeLoopbackHost_id.
Qed.

(** A TCP endpoint is accepted only as the canonical address of a loopback
    host and a port; the connection is made to that very address, and reading
    it again changes nothing. *)
Lemma parseTCPWatchdogEndpoint_loopback raw addr : parseTCPWatchdogEndpoint raw = Ok addr →
  (∃ h port, loopback_host h ∧ validWatchdogPort port = None ∧ addr = JoinHostPort h port) ∧
  dial_target addr = Ok addr ∧ parseTCPWatchdogEndpoint addr = Ok addr.
Proof.
  unfold parseTCPWatchdogEndpoint at 1. intros Ha. case_decide; [done|]. destruct (Contains _ _); [done|].
  destruct (SplitHostPort _) as [[host port]|]; [|done].
  destruct (canonicalizeLoopbackHost host) as [h|] eqn:Hh; [|done].
  apply canonicalizeLoopbackHost_form in Hh. destruct (validWatchdogPort port) eqn:Hp; [done|]. simplify_eq.
  split; [by exists h, port|]. split; [by apply dial_join|].
  destruct (join_plain h port Hh Hp) as [Hpl Hne]. unfold parseTCPWatchdogEndpoint.
  rewrite plain_TrimSpace, decide_False, plain_not_url, split_join by done.
  by rewrite canonicalizeLoopbackHost_id, Hp.
Qed.

(** An HTTP endpoint is accepted only for such an address, without user
    information and fragment. *)
Lemma parseHTTPWatchdogEndpoint_loopback `{!NetURL} raw u : parseHTTPWatchdogEndpoint raw = Ok u →
  (∃ h port, loopback_host h ∧ validWatchdogPort port = None ∧ Host u = JoinHostPort h port) ∧
  (Scheme u = "http" ∨ Scheme u = "https") ∧ UserInfo u = None ∧ Fragment u = "" ∧ URLPath u ≠ "".
Proof.
  unfold parseHTTPWatchdogEndpoint. intros Hu. case_decide; [done|].
  destruct (url_Parse _) as [v|]; [|done]. destruct (negb _ && negb _) eqn:Hs; [done|].
  case_decide; [done|]. case_decide; [done|].
  destruct (canonicalizeLoopbackHost (Hostname v)) as [h|] eqn:Hh; [|done].
  apply canonicalizeLoopbackHost_form in Hh. cbv zeta in Hu.
  match type of Hu with context [validWatchdogPort ?p] => set (port := p) in Hu; clearbody port end.
  destruct (validWatchdogPort port) eqn:Hp; [done|]. simplify_eq.
  apply andb_false_iff in Hs. rewrite !negb_false_iff, !bool_decide_eq_true in Hs.
  case_decide; cbn; (split; [by exists h, port|]); split_and!; done.
Qed.

(** C22: a probe connects to the local machine only.  An address that the
    parser accepts for a TCP probe is the canonical form of a loopback address
    and a port, reading it again gives the same address, and the check before
    the connection accepts exactly that address.  A URL that it accepts for an
    HTTP probe has a loopback host with a port, scheme http or https, no user
    information and no fragment, and its host passes the same check. *)
Theorem probe_endpoints_local {NU : NetURL} raw :
  (∀ addr, parseTCPWatchdogEndpoint raw = Ok addr →
    (∃ h port, loopback_host h ∧ validWatchdogPort port = None ∧ addr = JoinHostPort h port) ∧
    parseTCPWatchdogEndpoint addr = Ok addr ∧ dial_target addr = Ok addr) ∧
  (∀ u, parseHTTPWatchdogEndpoint raw = Ok u →
    (∃ h port, loopback_host h ∧ validWatchdogPort port = None ∧ Host u = JoinHostPort h port) ∧
    (Scheme u = "http" ∨ Scheme u = "https") ∧ UserInfo u = None ∧ Fragment u = "" ∧ URLPath u ≠ "" ∧
    dial_target (Host u) = Ok (Host u)).
Proof.
  split.
  - intros addr (H1 & H2 & H3)%parseTCPWatchdogEndpoint_loopback. done.
  - intros u ((h & port & Hh & Hp & Hu) & Hs & Hi & Hf & Hpa)%parseHTTPWatchdogEndpoint_loopback.
    split_and!; try done; [by exists h, port|]. rewrite Hu. by apply dial_join.
Qed.

(** A URL that consists of a scheme, a host and a path. *)
Definition simple_urls : NetURL := {|
  url_Parse s :=
    match Cut s "://" with
    | (scheme, rest, true) =>
      let '(host, path, _) := Cut rest "/" in
      Some {| Scheme := scheme; Opaque := ""; UserInfo := None; Host := host; URLPath := "/" +:+ path; RawPath := "";
              OmitHost := false; ForceQuery := false; RawQuery := ""; Fragment := ""; RawFragment := "" |}
    | _ => None
    end;
  url_String u := Scheme u +:+ "://" +:+ Host u +:+ URLPath u;
|}.

Lemma probe_endpoints_local_witness :
  (parseTCPWatchdogEndpoint "LocalHost:8080" = Ok "127.0.0.1:8080" ∧ dial_target "127.0.0.1:8080" = Ok "127.0.0.1:8080") ∧
  (parseHTTPWatchdogEndpoint (NU := simple_urls) "http://localhost/health" = Ok {| Scheme := "http"; Opaque := "";
     UserInfo := None; Host := "127.0.0.1:80"; URLPath := "/health"; RawPath := ""; OmitHost := false;
     ForceQuery := false; RawQuery := ""; Fragment := ""; RawFragment := "" |} ∧
   dial_target "127.0.0.1:80" = Ok "127.0.0.1:80").
Proof.
  split; (split; [by vm_compute|]).
  - by apply (proj1 (probe_endpoints_local (NU := simple_urls) "LocalHost:8080")); vm_compute.
  - by apply (proj2 (probe_endpoints_local (NU := simple_urls) "http://localhost/health")
      {| Scheme := "http"; Opaque := ""; UserInfo := None; Host := "127.0.0.1:80"; URLPath := "/health"; RawPath := "";
         OmitHost := false; ForceQuery := false; RawQuery := ""; Fragment := ""; RawFragment := "" |}); vm_compute.
Defined.
