(* ===== verification/UnitLimits.v ===== *)
(** * Resource limits: internal/unit/resource.go and startlimit.go

    The readers of [MemoryMax=], [ProcessLimit=], [PriorityClass=],
    [CPUWeight=], [CPUQuota=], [IoPriority=] and [StartLimitBurst=], and the
    native values of [internal/unit/types.go] that they are turned into. *)

From S2P Require Import Prelude GoStrings GoText UnitTypes UnitDuration.
From Stdlib Require Import Ascii.

#[local] Open Scope Z_scope.
#[local] Open Scope go_scope.

Definition PriorityIdle : string := "idle".
Definition PriorityBelowNormal : string := "below-normal".
Definition PriorityNormal : string := "normal".
Definition PriorityAboveNormal : string := "above-normal".
Definition PriorityHigh : string := "high".

Definition WindowsPriorityClass (p : string) : Z :=
  if decide (p = PriorityIdle) then 0x40
  else if decide (p = PriorityBelowNormal) then 0x4000
  else if decide (p = PriorityNormal) then 0x20
  else if decide (p = PriorityAboveNormal) then 0x8000
  else if decide (p = PriorityHigh) then 0x80
  else 0.

Definition IoIdle : string := "idle".
Definition IoLow : string := "low".
Definition IoNormal : string := "normal".
Definition IoHigh : string := "high".

Definition WindowsIoPriority (p : string) : Z :=
  if decide (p = IoIdle) then 0
  else if decide (p = IoLow) then 1
  else if decide (p = IoNormal) then 2
  else if decide (p = IoHigh) then 3
  else 0.

(** [WindowsCPUWeight] and [WindowsCPURate] on 32-bit numbers. *)
Definition u32 (n : Z) : Z := n mod 2 ^ 32.
Definition native_weight (n : Z) : Z :=
  let w := u32 (n + 1110) / 1111 in
  if w <? 1 then 1 else if 9 <? w then 9 else w.
Definition WindowsCPURate (percent : Z) : Z := u32 (percent * 100).

Definition MaxUint64 : Z := 2 ^ 64 - 1.
Definition MaxUint32 : Z := 2 ^ 32 - 1.

(** [strings.ToUpper(suf)] against the suffixes: only the two cases of the
    ASCII letter map to it. *)
Definition memory_multiplier (suf : string) : option Z :=
  if decide (suf = "") then Some 1
  else if decide (suf = "k" ∨ suf = "K") then Some 1024
  else if decide (suf = "m" ∨ suf = "M") then Some (1024 * 1024)
  else if decide (suf = "g" ∨ suf = "G") then Some (1024 * 1024 * 1024)
  else None.

Definition digit_byte (c : ascii) : bool := (0x30 <=? b2z c) && (b2z c <=? 0x39).

Definition parseMemoryMax (s : string) : result Z :=
  let s := TrimSpace s in
  let bad := Fail (ErrFmt "invalid MemoryMax %q" [s]) in
  if decide (s = "") then Fail (ErrText "empty MemoryMax")
  else
    let l := match strip_prefix (bytes "+") (bytes s) with Some l => l | None => bytes s end in
    if decide (head l = Some "-"%char) then bad
    else
      let '(num, rest) := span digit_byte l in
      if decide (num = []) then bad
      else
        let suf := TrimSpace (str rest) in
        match ParseUint (str num) 64 with
        | None => bad
        | Some n =>
          match memory_multiplier suf with
          | None => bad
          | Some mul =>
            if n =? 0 then bad
            else if (1 <? mul) && (MaxUint64 / mul <? n) then bad
            else Ok (n * mul)
          end
        end.

Definition parseProcessLimit (s : string) : result Z :=
  let s := TrimSpace s in
  if decide (s = "") then Fail (ErrText "empty ProcessLimit")
  else match ParseInt64 s with
       | None => Fail (ErrFmt "invalid ProcessLimit %q" [s])
       | Some n =>
         if n <=? 0 then Fail (ErrFmt "invalid ProcessLimit %q" [s])
         else if MaxUint32 <? n then Fail (ErrFmt "invalid ProcessLimit %q" [s])
         else Ok n
       end.

Definition parseCPUWeight (s : string) : result Z :=
  let s := TrimSpace s in
  if decide (s = "") then Fail (ErrText "empty CPUWeight")
  else match ParseInt64 s with
       | None => Fail (ErrFmt "invalid CPUWeight %q" [s])
       | Some n => if (n <? 1) || (10000 <? n) then Fail (ErrFmt "invalid CPUWeight %q" [s]) else Ok n
       end.

Definition parseCPUQuota (s : string) : result Z :=
  let s := TrimSpace s in
  if decide (s = "") then Fail (ErrText "empty CPUQuota")
  else if negb (HasSuffix s "%") then Fail (ErrFmt "invalid CPUQuota %q" [s])
  else
    let num := TrimSpace (prefix_to s (String.length s - 1)) in
    match ParseInt64 num with
    | None => Fail (ErrFmt "invalid CPUQuota %q" [s])
    | Some n => if (n <? 1) || (100 <? n) then Fail (ErrFmt "invalid CPUQuota %q" [s]) else Ok n
    end.

Section lower.
Context {UC : UnicodeCase}.

Definition priority_classes : list string :=
  [PriorityIdle; PriorityBelowNormal; PriorityNormal; PriorityAboveNormal; PriorityHigh].
Definition io_priorities : list string := [IoIdle; IoLow; IoNormal; IoHigh].

Definition parsePriorityClass (s : string) : result string :=
  let raw := TrimSpace s in
  let v := ToLower raw in
  if decide (v ∈ priority_classes) then Ok v
  else if decide (v = "") then Fail (ErrText "empty PriorityClass")
  else Fail (ErrFmt "invalid PriorityClass %q (supported: idle, below-normal, normal, above-normal, high)" [raw]).

Definition parseIoPriority (s : string) : result string :=
  let raw := TrimSpace s in
  let v := ToLower raw in
  if decide (v ∈ io_priorities) then Ok v
  else if decide (v = "") then Fail (ErrText "empty IoPriority")
  else Fail (ErrFmt "invalid IoPriority %q (supported: idle, low, normal, high)" [raw]).

End lower.

Definition DefaultStartLimitInterval : Duration := 10 * Second.
Definition DefaultStartLimitBurst : Z := 5.

Definition parseStartLimitBurst (s : string) : result Z :=
  let s := TrimSpace s in
  if decide (s = "") then Fail (ErrText "empty StartLimitBurst")
  else match Atoi s with
       | Some n => if n <? 0 then Fail (ErrFmt "invalid StartLimitBurst %q" [s]) else Ok n
       | None => Fail (ErrFmt "invalid StartLimitBurst %q" [s])
       end.

(** ** Ranges *)

Lemma parseMemoryMax_range s n : parseMemoryMax s = Ok n → 0 < n ≤ MaxUint64.
Proof.
  unfold parseMemoryMax. intros Hn. case_decide; [done|]. case_decide; [done|].
  destruct (span digit_byte _) as [num rest]. case_decide; [done|].
  destruct (ParseUint _ _) as [m|] eqn:Hm; [|done]. apply ParseUint_range in Hm.
  destruct (memory_multiplier _) as [mul|] eqn:Hmul; [|done].
  assert (0 < mul) by (unfold memory_multiplier in Hmul; repeat case_decide; simplify_eq; lia).
  destruct (Z.eqb_spec m 0); [done|]. destruct (_ && _) eqn:E; [done|]. simplify_eq.
  split; [nia|]. apply andb_false_iff in E as [E|E].
  - apply Z.ltb_ge in E. assert (mul = 1) as -> by lia. unfold MaxUint64. lia.
  - apply Z.ltb_ge in E. pose proof (Z.mul_div_le MaxUint64 mul). nia.
Qed.

Lemma parseProcessLimit_range s n : parseProcessLimit s = Ok n → 0 < n ≤ MaxUint32.
Proof.
  unfold parseProcessLimit. intros Hn. case_decide; [done|]. destruct (ParseInt64 _) as [m|]; [|done].
  destruct (Z.leb_spec m 0); [done|]. destruct (Z.ltb_spec MaxUint32 m); [done|]. simplify_eq. lia.
Qed.

Lemma parseCPUWeight_range s n : parseCPUWeight s = Ok n → 1 ≤ n ≤ 10000.
Proof.
  unfold parseCPUWeight. intros Hn. case_decide; [done|]. destruct (ParseInt64 _) as [m|]; [|done].
  destruct (Z.ltb_spec m 1); [done|]. destruct (Z.ltb_spec 10000 m); [done|]. simplify_eq/=. lia.
Qed.

Lemma parseCPUQuota_range s n : parseCPUQuota s = Ok n → 1 ≤ n ≤ 100.
Proof.
  unfold parseCPUQuota. intros Hn. case_decide; [done|]. case_match; [done|].
  destruct (ParseInt64 _) as [m|]; [|done].
  destruct (Z.ltb_spec m 1); [done|]. destruct (Z.ltb_spec 100 m); [done|]. simplify_eq/=. lia.
Qed.

Lemma parseStartLimitBurst_range s n : parseStartLimitBurst s = Ok n → 0 ≤ n < 2 ^ 63.
Proof.
  unfold parseStartLimitBurst. intros Hn. case_decide; [done|].
  destruct (Atoi _) as [m|] eqn:Hm; [|done]. apply ParseInt64_range in Hm.
  destruct (Z.ltb_spec m 0); [done|]. simplify_eq. lia.
Qed.

(** The native weight is a weight of the operating system, and does not fall
    when the weight grows. *)
Lemma native_weight_range n : 1 ≤ native_weight n ≤ 9.
Proof. unfold native_weight. destruct (Z.ltb_spec (u32 (n + 1110) / 1111) 1), (Z.ltb_spec 9 (u32 (n + 1110) / 1111)); lia. Qed.

Lemma native_weight_mono n m : 1 ≤ n ≤ m → m ≤ 10000 → native_weight n ≤ native_weight m.
Proof.
  intros Hn Hm. unfold native_weight, u32. rewrite !Z.mod_small by lia.
  assert ((n + 1110) / 1111 ≤ (m + 1110) / 1111) by (apply Z.div_le_mono; lia).
  repeat match goal with |- context [?a <? ?b] => destruct (Z.ltb_spec a b) end; lia.
Qed.
