(* ===== verification/Triggers.v ===== *)
(** * Trigger values: packages registry, eventlog and pathwatch

    The readers of [RegistryChanged=], [EventLogTrigger=], [PathChanged=] and
    [PathExists=], and the scope rules of their values. *)

From S2P Require Import Prelude GoStrings GoText UnitTypes UnitNames.
From Stdlib Require Import Ascii.

#[local] Open Scope Z_scope.
#[local] Open Scope go_scope.

(** ** internal/registry/parse.go *)

Definition hasHivePrefix (s hive : string) : bool :=
  if bool_decide (String.length s < String.length hive)%nat then false
  else EqualFold (prefix_to s (String.length hive)) hive.

Definition ParseKey (raw : string) : result Key :=
  let s := TrimSpace raw in
  if decide (s = "") then Fail (ErrText "empty registry path")
  else if decide (":"%char ∈ bytes s)
  then Fail (ErrText "PowerShell drive syntax is not allowed (use HKLM\\... or HKCU\\...)")
  else
    hs <-? (if hasHivePrefix s "HKLM" then Ok (HKLM, suffix_from s 4)
            else if hasHivePrefix s "HKCU" then Ok (HKCU, suffix_from s 4)
            else Fail (ErrText "hive must be HKLM\\ or HKCU\\")) ;;
    let '(hive, s) := hs in
    if negb (HasPrefix s "\") then Fail (ErrText "hive must be HKLM\\ or HKCU\\")
    else
      let path := Trim s ["\"%char] in
      if decide (path = "") then Fail (ErrText "empty registry path")
      else Ok {| KeyHive := hive; KeyPath := path; KeyRaw := TrimSpace raw |}.

Definition AllowedInScope (k : Key) (userScope : bool) : bool :=
  match KeyHive k with HKLM => true | HKCU => userScope end.

Definition Hive_String (h : Hive) : string := match h with HKLM => "HKLM" | HKCU => "HKCU" end.

(** ** internal/eventlog/parse.go *)

Definition triggerSep : string := ":EventID=".

(** The text before and after the last occurrence of [sep]. *)
Fixpoint cut_last_str (sep l : list ascii) : option (list ascii * list ascii) :=
  match (match l with
         | [] => None
         | c :: l' => match cut_last_str sep l' with Some (a, b) => Some (c :: a, b) | None => None end
         end) with
  | Some r => Some r
  | None => match strip_prefix sep l with Some b => Some ([], b) | None => None end
  end.

Definition ParseTrigger (raw : string) : result Trigger :=
  let s := TrimSpace raw in
  if decide (s = "") then Fail (ErrText "empty EventLogTrigger")
  else match cut_last_str (bytes triggerSep) (bytes s) with
  | None => Fail (ErrText "EventLogTrigger must be <Channel>:EventID=<uint16>")
  | Some (before, after) =>
    let channel := TrimSpace (str before) in
    let idStr := TrimSpace (str after) in
    if decide (channel = "") then Fail (ErrText "empty channel")
    else if decide (idStr = "") then Fail (ErrText "EventID must be a number")
    else match ParseUint idStr 16 with
         | None => Fail (ErrText "EventID must be a number")
         | Some n =>
           if n =? 0 then Fail (ErrText "EventID=0 is not allowed")
           else Ok {| Channel := channel; EventID := n; TriggerRaw := TrimSpace raw |}
         end
  end.

Definition RestrictedInUserScope (t : Trigger) : bool :=
  if EqualFold (Channel t) "System" then true
  else if EqualFold (Channel t) "Security" then true
  else false.

Definition Query (t : Trigger) : string :=
  if EventID t =? 0 then "" else "*[System[(EventID=" +:+ pretty (EventID t) +:+ ")]]".

(** ** internal/pathwatch/parse.go *)

(** The same text as [unit.WindowsAbs]. *)
Definition windowsAbs (p : string) : bool := WindowsAbs p.

Definition parseAbs (raw directive : string) : result PathwatchSpec :=
  let s := TrimSpace raw in
  if decide (s = "") then Fail (ErrText "empty path")
  else if negb (windowsAbs s) then Fail (ErrFmt "%s must be an absolute Windows path" [directive])
  else Ok {| PathRaw := s |}.

Definition pathwatch_Parse (raw : string) : result PathwatchSpec := parseAbs raw "PathChanged".
Definition ParseExists (raw : string) : result PathwatchSpec := parseAbs raw "PathExists".

(** ** What the readers accept *)

Lemma ParseKey_form raw k : ParseKey raw = Ok k →
  KeyPath k ≠ "" ∧ KeyRaw k = TrimSpace raw ∧ ":"%char ∉ bytes (KeyRaw k).
Proof.
  unfold ParseKey. intros Hk. case_decide; [done|]. case_decide; [done|].
  destruct (if hasHivePrefix _ "HKLM" then _ else _) as [[hive s]|]; [|done].
  case_match; [done|]. case_decide; [done|]. by simplify_eq.
Qed.

Lemma ParseTrigger_form raw t : ParseTrigger raw = Ok t →
  Channel t ≠ "" ∧ 1 ≤ EventID t < 2 ^ 16 ∧ TriggerRaw t = TrimSpace raw.
Proof.
  unfold ParseTrigger. intros Ht. case_decide; [done|].
  destruct (cut_last_str _ _) as [[before after]|]; [|done].
  case_decide; [done|]. case_decide; [done|]. destruct (ParseUint _ 16) as [n|] eqn:Hn; [|done].
  apply ParseUint_range in Hn. destruct (Z.eqb_spec n 0); [done|]. simplify_eq. cbn. split_and!; [done|lia|lia|done].
Qed.

Lemma parseAbs_form raw directive sp : parseAbs raw directive = Ok sp →
  PathRaw sp = TrimSpace raw ∧ windowsAbs (PathRaw sp) = true.
Proof. unfold parseAbs. intros Hs. case_decide; [done|]. destruct (windowsAbs _) eqn:E; [|done]. by simplify_eq/=. Qed.
