(* ===== verification/UnitParse.v ===== *)
(** * The unit parser: sections and entries

    The first pass of [internal/unit/parse.go]: every entry of the file is
    stored in the builder of its section, with the number of its line.  A pair
    of fields such as [user] and [userL] is one field of type [located]; the
    parallel lists of values and lines are lists of such pairs. *)

From S2P Require Import Prelude GoStrings GoText UnitTypes UnitNames UnitReport UnitExec UnitIni.

#[local] Open Scope Z_scope.
#[local] Open Scope unit_scope.

Record located := { raw : string; ln : Z }.
Definition unset : located := {| raw := ""; ln := 0 |}.
Definition at_entry (e : iniEntry) : located := {| raw := value e; ln := line e |}.

(** ** The tables *)

Definition knownDirectives : gmap string (list string) := list_to_map [
  ("Unit", ["FormatVersion"; "Description"; "Requires"; "Wants"; "BindsTo"; "PartOf"; "After"; "Before";
            "RequiresInteractiveSession"; "StartLimitIntervalSec"; "StartLimitBurst"]);
  ("Service", ["Type"; "ReadinessMode"; "ReadinessEndpoint"; "ReadinessExpectedStatus";
               "ReadinessIntervalSec"; "ReadinessTimeoutSec"; "RemainAfterExit"; "ServiceName"; "TaskName";
               "ExecStart"; "ExecStartArg"; "ExecStop"; "ExecStopArg"; "WorkingDirectory"; "User";
               "Environment"; "Restart"; "RestartSec"; "RestartBackoff"; "RestartMaxDelaySec";
               "TimeoutStartSec"; "TimeoutStopSec"; "NotifyAccess"; "WatchdogSec"; "WatchdogMode";
               "WatchdogEndpoint"; "WatchdogExpectedStatus"; "MemoryMax"; "ProcessLimit"; "PriorityClass";
               "CPUWeight"; "WindowsCPUWeight"; "WindowsCPUQuota"; "CPUQuota"; "IoPriority";
               "WatchdogGraceSec"; "WatchdogTimeoutSec"; "WatchdogFailureThreshold"]);
  ("Timer", ["OnBootSec"; "OnStartupSec"; "OnUnitActiveSec"; "OnCalendar"; "Persistent"; "Unit"]);
  ("Registry", ["RegistryChanged"]);
  ("EventLog", ["EventLogTrigger"]);
  ("Path", ["PathChanged"; "PathExists"; "PathExistsAll"]);
  ("Install", ["WantedBy"])].

Definition sectionsByKind (k : Kind) : list string :=
  if decide (k = KindService) then ["Unit"; "Service"; "Install"]
  else if decide (k = KindTimer) then ["Unit"; "Timer"; "Install"]
  else if decide (k = KindTarget) then ["Unit"; "Install"]
  else if decide (k = KindRegistry) then ["Unit"; "Registry"; "Install"]
  else if decide (k = KindEventLog) then ["Unit"; "EventLog"; "Install"]
  else if decide (k = KindPath) then ["Unit"; "Path"; "Install"]
  else [].

(** capabilities.go: the accepted format versions. *)
Definition formatVersions : list Z := [1; 2].
Definition formatVersion (s : string) : option Z :=
  list_find (λ v, s = pretty v) formatVersions ≫= (λ p, Some p.2).

(** ** The builders *)

Record serviceBuilder := {
  s_readinessMode : located; s_readinessEndpoint : located; s_readinessStatus : located;
  s_readinessInterval : located; s_readinessTimeout : located; s_remainAfterExit : located;
  s_typ : located; s_exec : located; s_execStop : located; s_wd : located; s_restart : located;
  s_restartSec : located; s_restartBackoff : located; s_user : located;
  s_restartMaxDelay : located; s_timeoutStart : located; s_timeoutStop : located;
  s_serviceName : located; s_taskName : located; s_notifyAccess : located;
  s_watchdogSec : located; s_watchdogGrace : located; s_watchdogTimeout : located;
  s_watchdogThreshold : located; s_watchdogMode : located; s_watchdogEP : located;
  s_watchdogStat : located; s_memoryMax : located; s_processLimit : located;
  s_priorityClass : located; s_windowsCPUWeight : located; s_windowsCPUQuota : located;
  s_cpuWeight : located; s_cpuQuota : located; s_ioPriority : located; s_execSet : bool;
  s_execArgs : list string; s_execStopSet : bool; s_execStopArgs : list string; s_wdSet : bool;
  s_env : list EnvVar; s_restSet : bool
}.

#[global] Instance eta_serviceBuilder : Settable serviceBuilder := λ s, {|
  s_readinessMode := s_readinessMode s; s_readinessEndpoint := s_readinessEndpoint s;
  s_readinessStatus := s_readinessStatus s; s_readinessInterval := s_readinessInterval s;
  s_readinessTimeout := s_readinessTimeout s; s_remainAfterExit := s_remainAfterExit s;
  s_typ := s_typ s; s_exec := s_exec s; s_execStop := s_execStop s; s_wd := s_wd s;
  s_restart := s_restart s; s_restartSec := s_restartSec s;
  s_restartBackoff := s_restartBackoff s; s_user := s_user s;
  s_restartMaxDelay := s_restartMaxDelay s; s_timeoutStart := s_timeoutStart s;
  s_timeoutStop := s_timeoutStop s; s_serviceName := s_serviceName s;
  s_taskName := s_taskName s; s_notifyAccess := s_notifyAccess s;
  s_watchdogSec := s_watchdogSec s; s_watchdogGrace := s_watchdogGrace s;
  s_watchdogTimeout := s_watchdogTimeout s; s_watchdogThreshold := s_watchdogThreshold s;
  s_watchdogMode := s_watchdogMode s; s_watchdogEP := s_watchdogEP s;
  s_watchdogStat := s_watchdogStat s; s_memoryMax := s_memoryMax s;
  s_processLimit := s_processLimit s; s_priorityClass := s_priorityClass s;
  s_windowsCPUWeight := s_windowsCPUWeight s; s_windowsCPUQuota := s_windowsCPUQuota s;
  s_cpuWeight := s_cpuWeight s; s_cpuQuota := s_cpuQuota s; s_ioPriority := s_ioPriority s;
  s_execSet := s_execSet s; s_execArgs := s_execArgs s; s_execStopSet := s_execStopSet s;
  s_execStopArgs := s_execStopArgs s; s_wdSet := s_wdSet s; s_env := s_env s;
  s_restSet := s_restSet s
|}.

Definition new_serviceBuilder : serviceBuilder := {|
  s_readinessMode := unset; s_readinessEndpoint := unset; s_readinessStatus := unset;
  s_readinessInterval := unset; s_readinessTimeout := unset; s_remainAfterExit := unset;
  s_typ := {| raw := TypeSimple; ln := 0 |}; s_exec := unset; s_execStop := unset;
  s_wd := unset; s_restart := {| raw := RestartNo; ln := 0 |}; s_restartSec := unset;
  s_restartBackoff := unset; s_user := unset; s_restartMaxDelay := unset;
  s_timeoutStart := unset; s_timeoutStop := unset; s_serviceName := unset; s_taskName := unset;
  s_notifyAccess := unset; s_watchdogSec := unset; s_watchdogGrace := unset;
  s_watchdogTimeout := unset; s_watchdogThreshold := unset; s_watchdogMode := unset;
  s_watchdogEP := unset; s_watchdogStat := unset; s_memoryMax := unset;
  s_processLimit := unset; s_priorityClass := unset; s_windowsCPUWeight := unset;
  s_windowsCPUQuota := unset; s_cpuWeight := unset; s_cpuQuota := unset; s_ioPriority := unset;
  s_execSet := false; s_execArgs := []; s_execStopSet := false; s_execStopArgs := [];
  s_wdSet := false; s_env := []; s_restSet := false
|}.

Record timerBuilder := {
  t_onBoot : located; t_onStartup : located; t_onUnitActive : located;
  t_calendars : list located;
  t_persistent : located; t_persistentSet : bool;
  t_unit : located; t_unitSet : bool;
}.
#[global] Instance eta_timerBuilder : Settable timerBuilder := λ t, {|
  t_onBoot := t_onBoot t; t_onStartup := t_onStartup t; t_onUnitActive := t_onUnitActive t;
  t_calendars := t_calendars t; t_persistent := t_persistent t; t_persistentSet := t_persistentSet t;
  t_unit := t_unit t; t_unitSet := t_unitSet t |}.
Definition new_timerBuilder : timerBuilder := {|
  t_onBoot := unset; t_onStartup := unset; t_onUnitActive := unset; t_calendars := [];
  t_persistent := unset; t_persistentSet := false; t_unit := unset; t_unitSet := false |}.

Record pathBuilder := {
  h_existsAll : bool; h_existsAny : bool; h_changed : list located; h_exists : list located;
}.
#[global] Instance eta_pathBuilder : Settable pathBuilder := λ h, {|
  h_existsAll := h_existsAll h; h_existsAny := h_existsAny h;
  h_changed := h_changed h; h_exists := h_exists h |}.
Definition new_pathBuilder : pathBuilder :=
  {| h_existsAll := false; h_existsAny := false; h_changed := []; h_exists := [] |}.

(** The builders of [Registry] and [EventLog] are the lists of their values. *)
Definition registryBuilder := list located.
Definition eventLogBuilder := list located.

(** ** The parser *)

Record parser := {
  p_formatLine : Z; p_path : string; p_name : string; p_kind : Kind; p_unit : Unit;
  p_svc : option serviceBuilder; p_timer : option timerBuilder; p_reg : option registryBuilder;
  p_evt : option eventLogBuilder; p_pth : option pathBuilder;
  p_ris : located; p_risSet : bool;
  p_startLimitInterval : located; p_startLimitBurst : located;
  p_stat : option StatFunc;
}.
#[global] Instance eta_parser : Settable parser := λ p, {|
  p_formatLine := p_formatLine p; p_path := p_path p; p_name := p_name p; p_kind := p_kind p;
  p_unit := p_unit p; p_svc := p_svc p; p_timer := p_timer p; p_reg := p_reg p; p_evt := p_evt p;
  p_pth := p_pth p; p_ris := p_ris p; p_risSet := p_risSet p;
  p_startLimitInterval := p_startLimitInterval p; p_startLimitBurst := p_startLimitBurst p;
  p_stat := p_stat p |}.

Definition errorf (p : parser) (line : Z) (m : error) : reported unit := error_at (p_path p) line m.
Definition warnf (p : parser) (line : Z) (m : error) : reported unit := warn_at (p_path p) line m.

(** ** Entries *)

Definition applyService (path : string) (s : serviceBuilder) (e : iniEntry) : reported serviceBuilder :=
  let k := key e in
  if decide (k = "Type") then keep (s <| s_typ := at_entry e |>)
  else if decide (k = "RemainAfterExit") then keep (s <| s_remainAfterExit := at_entry e |>)
  else if decide (k = "ServiceName") then keep (s <| s_serviceName := at_entry e |>)
  else if decide (k = "TaskName") then keep (s <| s_taskName := at_entry e |>)
  else if decide (k = "ExecStart") then keep (s <| s_exec := at_entry e |> <| s_execSet := true |>)
  else if decide (k = "ExecStartArg") then keep (s <| s_execArgs := s_execArgs s ++ [value e] |>)
  else if decide (k = "ExecStop") then
    (if s_execStopSet s then error_at path (line e) (ErrText "multiple ExecStop commands are not supported")
     else keep ()) ;;;
    keep (s <| s_execStop := at_entry e |> <| s_execStopSet := true |>)
  else if decide (k = "ExecStopArg") then keep (s <| s_execStopArgs := s_execStopArgs s ++ [value e] |>)
  else if decide (k = "WorkingDirectory") then keep (s <| s_wd := at_entry e |> <| s_wdSet := true |>)
  else if decide (k = "Environment") then
    if decide (value e = "") then keep (s <| s_env := [] |>)
    else match parseEnvironment (value e) with
         | Fail err => error_at path (line e) err ;;; keep s
         | Ok vars => keep (s <| s_env := s_env s ++ vars |>)
         end
  else if decide (k = "Restart") then keep (s <| s_restart := at_entry e |> <| s_restSet := true |>)
  else if decide (k = "RestartBackoff") then keep (s <| s_restartBackoff := at_entry e |>)
  else if decide (k = "User") then
    if negb (ln (s_user s) =? 0) then error_at path (line e) (ErrText "User may be specified only once") ;;; keep s
    else keep (s <| s_user := at_entry e |>)
  else if decide (k = "RestartMaxDelaySec") then keep (s <| s_restartMaxDelay := at_entry e |>)
  else if decide (k = "ReadinessMode") then keep (s <| s_readinessMode := at_entry e |>)
  else if decide (k = "ReadinessEndpoint") then keep (s <| s_readinessEndpoint := at_entry e |>)
  else if decide (k = "ReadinessExpectedStatus") then keep (s <| s_readinessStatus := at_entry e |>)
  else if decide (k = "ReadinessIntervalSec") then keep (s <| s_readinessInterval := at_entry e |>)
  else if decide (k = "ReadinessTimeoutSec") then keep (s <| s_readinessTimeout := at_entry e |>)
  else if decide (k = "RestartSec") then keep (s <| s_restartSec := at_entry e |>)
  else if decide (k = "TimeoutStartSec") then keep (s <| s_timeoutStart := at_entry e |>)
  else if decide (k = "TimeoutStopSec") then keep (s <| s_timeoutStop := at_entry e |>)
  else if decide (k = "NotifyAccess") then keep (s <| s_notifyAccess := at_entry e |>)
  else if decide (k = "WatchdogGraceSec") then keep (s <| s_watchdogGrace := at_entry e |>)
  else if decide (k = "WatchdogTimeoutSec") then keep (s <| s_watchdogTimeout := at_entry e |>)
  else if decide (k = "WatchdogFailureThreshold") then keep (s <| s_watchdogThreshold := at_entry e |>)
  else if decide (k = "WatchdogSec") then keep (s <| s_watchdogSec := at_entry e |>)
  else if decide (k = "WatchdogMode") then keep (s <| s_watchdogMode := at_entry e |>)
  else if decide (k = "WatchdogEndpoint") then keep (s <| s_watchdogEP := at_entry e |>)
  else if decide (k = "WatchdogExpectedStatus") then keep (s <| s_watchdogStat := at_entry e |>)
  else if decide (k = "MemoryMax") then keep (s <| s_memoryMax := at_entry e |>)
  else if decide (k = "ProcessLimit") then keep (s <| s_processLimit := at_entry e |>)
  else if decide (k = "PriorityClass") then keep (s <| s_priorityClass := at_entry e |>)
  else if decide (k = "WindowsCPUWeight") then keep (s <| s_windowsCPUWeight := at_entry e |>)
  else if decide (k = "WindowsCPUQuota") then keep (s <| s_windowsCPUQuota := at_entry e |>)
  else if decide (k = "CPUWeight") then keep (s <| s_cpuWeight := at_entry e |>)
  else if decide (k = "CPUQuota") then keep (s <| s_cpuQuota := at_entry e |>)
  else if decide (k = "IoPriority") then keep (s <| s_ioPriority := at_entry e |>)
  else keep s.

Definition applyTimer (t : timerBuilder) (e : iniEntry) : timerBuilder :=
  let k := key e in
  if decide (k = "OnBootSec") then t <| t_onBoot := at_entry e |>
  else if decide (k = "OnStartupSec") then t <| t_onStartup := at_entry e |>
  else if decide (k = "OnUnitActiveSec") then t <| t_onUnitActive := at_entry e |>
  else if decide (k = "OnCalendar") then t <| t_calendars := t_calendars t ++ [at_entry e] |>
  else if decide (k = "Persistent") then t <| t_persistent := at_entry e |> <| t_persistentSet := true |>
  else if decide (k = "Unit") then t <| t_unit := at_entry e |> <| t_unitSet := true |>
  else t.

Definition applyRegistry (r : registryBuilder) (e : iniEntry) : registryBuilder :=
  if decide (key e = "RegistryChanged") then r ++ [at_entry e] else r.

Definition applyEventLog (ev : eventLogBuilder) (e : iniEntry) : eventLogBuilder :=
  if decide (key e = "EventLogTrigger") then ev ++ [at_entry e] else ev.

Definition applyPath (h : pathBuilder) (e : iniEntry) : pathBuilder :=
  let k := key e in
  if decide (k = "PathChanged") then h <| h_changed := h_changed h ++ [at_entry e] |>
  else if decide (k = "PathExists" ∨ k = "PathExistsAll") then
    let h := if decide (k = "PathExistsAll") then h <| h_existsAll := true |> else h <| h_existsAny := true |> in
    h <| h_exists := h_exists h ++ [at_entry e] |>
  else h.

Section apply.
Context {UC : UnicodeCase}.

(** The names of a list, normalized, without the empty ones. *)
Definition normalized (v : string) : list string :=
  filter (λ n, n ≠ "") (NormalizeName <$> parseUnitNames v).

Definition applyList (cur : list string) (v : string) : list string :=
  if decide (v = "") then [] else cur ++ normalized v.

Fixpoint apply_wanted (path : string) (line : Z) (ns cur : list string) : reported (list string) :=
  match ns with
  | [] => keep cur
  | n :: ns' =>
    match CheckLinkName n with
    | Some err => error_at path line (ErrWrap "invalid WantedBy: %v" err) ;;; apply_wanted path line ns' cur
    | None => apply_wanted path line ns' (cur ++ [n])
    end
  end.

Definition applyInstall (p : parser) (e : iniEntry) : reported parser :=
  if decide (key e = "WantedBy") then
    if decide (value e = "") then keep (p <| p_unit := (p_unit p) <| WantedBy := [] |> |>)
    else
      ws <~ apply_wanted (p_path p) (line e) (normalized (value e)) (WantedBy (p_unit p)) ;;
      keep (p <| p_unit := (p_unit p) <| WantedBy := ws |> |>)
  else keep p.

Definition applyUnit (p : parser) (e : iniEntry) : reported parser :=
  let k := key e in
  let u := p_unit p in
  if decide (k = "FormatVersion") then
    (if negb (p_formatLine p =? 0) then errorf p (line e) (ErrText "FormatVersion may be specified only once")
     else keep ()) ;;;
    let p := p <| p_formatLine := line e |> in
    match formatVersion (value e) with
    | Some v => keep (p <| p_unit := u <| FormatVersion := v |> |>)
    | None => errorf p (line e) (ErrFmt "unsupported FormatVersion %q (supported: %s)" [value e; "1, 2"]) ;;; keep p
    end
  else if decide (k = "Description") then keep (p <| p_unit := u <| Description := value e |> |>)
  else if decide (k = "Requires") then keep (p <| p_unit := u <| Requires := applyList (Requires u) (value e) |> |>)
  else if decide (k = "Wants") then keep (p <| p_unit := u <| Wants := applyList (Wants u) (value e) |> |>)
  else if decide (k = "BindsTo") then keep (p <| p_unit := u <| BindsTo := applyList (BindsTo u) (value e) |> |>)
  else if decide (k = "PartOf") then keep (p <| p_unit := u <| PartOf := applyList (PartOf u) (value e) |> |>)
  else if decide (k = "After") then keep (p <| p_unit := u <| After := applyList (After u) (value e) |> |>)
  else if decide (k = "Before") then keep (p <| p_unit := u <| Before := applyList (Before u) (value e) |> |>)
  else if decide (k = "RequiresInteractiveSession") then keep (p <| p_ris := at_entry e |> <| p_risSet := true |>)
  else if decide (k = "StartLimitIntervalSec") then keep (p <| p_startLimitInterval := at_entry e |>)
  else if decide (k = "StartLimitBurst") then keep (p <| p_startLimitBurst := at_entry e |>)
  else keep p.

Definition apply (p : parser) (section : string) (e : iniEntry) : reported parser :=
  if decide (section = "Unit") then applyUnit p e
  else if decide (section = "Service") then
    s <~ applyService (p_path p) (default new_serviceBuilder (p_svc p)) e ;; keep (p <| p_svc := Some s |>)
  else if decide (section = "Timer") then
    keep (p <| p_timer := Some (applyTimer (default new_timerBuilder (p_timer p)) e) |>)
  else if decide (section = "Registry") then
    keep (p <| p_reg := Some (applyRegistry (default [] (p_reg p)) e) |>)
  else if decide (section = "EventLog") then
    keep (p <| p_evt := Some (applyEventLog (default [] (p_evt p)) e) |>)
  else if decide (section = "Path") then
    keep (p <| p_pth := Some (applyPath (default new_pathBuilder (p_pth p)) e) |>)
  else if decide (section = "Install") then applyInstall p e
  else keep p.

(** ** Sections *)

Definition unknown_directive (p : parser) (name : string) (e : iniEntry) : reported unit :=
  errorf p (line e) (ErrFmt "unknown directive %q in section [%s]" [key e; name]).

(** The entries of a section whose directives are [known]. *)
Fixpoint apply_entries (name : string) (known : list string) (es : list iniEntry) (p : parser) : reported parser :=
  match es with
  | [] => keep p
  | e :: es' =>
    if decide (key e ∈ known) then p <~ apply p name e ;; apply_entries name known es' p
    else unknown_directive p name e ;;; apply_entries name known es' p
  end.

Fixpoint unknown_entries (p : parser) (name : string) (es : list iniEntry) : reported unit :=
  match es with
  | [] => keep ()
  | e :: es' => unknown_directive p name e ;;; unknown_entries p name es'
  end.

Definition open_section (p : parser) (name : string) : parser :=
  if decide (name = "Registry") then p <| p_reg := Some (default [] (p_reg p)) |>
  else if decide (name = "EventLog") then p <| p_evt := Some (default [] (p_evt p)) |>
  else if decide (name = "Path") then p <| p_pth := Some (default new_pathBuilder (p_pth p)) |>
  else p.

Definition apply_section (p : parser) (sec : iniSection) : reported parser :=
  let name := sec_name sec in
  (if decide (name ∈ sectionsByKind (p_kind p)) then keep ()
   else if decide (is_Some (knownDirectives !! name))
   then errorf p (sec_line sec) (ErrFmt "section [%s] is not valid in a %s unit" [name; p_kind p])
   else errorf p (sec_line sec) (ErrFmt "unknown section [%s]" [name])) ;;;
  match knownDirectives !! name with
  | None => unknown_entries p name (entries sec) ;;; keep p
  | Some known => apply_entries name known (entries sec) (open_section p name)
  end.

Fixpoint apply_sections (p : parser) (secs : list iniSection) : reported parser :=
  match secs with
  | [] => keep p
  | sec :: secs' => p <~ apply_section p sec ;; apply_sections p secs'
  end.

End apply.
