(* ===== verification/UnitFinish.v ===== *)
(** * The unit parser: services

    The second pass of [internal/unit/parse.go] for a service unit, with
    [restart_backoff.go], [user.go], [format.go], [readiness.go], [watchdog.go] and
    [watchdog_policy.go].  [spec] is the struct that [p.unit.Service] points to:
    each step takes its value and returns the next one, together with the issues
    it appends. *)

From S2P Require Import Prelude GoStrings GoText GoFloat GoNet UnitTypes UnitNames UnitReport UnitDuration UnitExec UnitEndpoints UnitLimits UnitIni UnitParse.
From Stdlib Require Import Ascii.

#[local] Open Scope Z_scope.
#[local] Open Scope unit_scope.

Definition NotifyAccessMain : string := "main".

(** A new spec: zero values, [Type=simple] and [Restart=no]. *)
Definition new_ServiceSpec : ServiceSpec := {|
  ReadinessMode := ""; ReadinessEndpoint := ""; ReadinessAddr := ""; ReadinessURL := "";
  ReadinessExpectedStatus := 0; ReadinessIntervalSec := 0; ReadinessTimeoutSec := 0;
  Type_ := TypeSimple; RemainAfterExit := false; ServiceName := ""; TaskName := "";
  ExecStart := []; ExecStop := []; WorkingDirectory := ""; User := ""; UserDeclared := false;
  Environment := []; Restart := RestartNo; RestartSec := 0; RestartBackoff := "";
  RestartMaxDelaySec := 0; TimeoutStartSec := 0; TimeoutStopSec := 0; NotifyAccess := "";
  WatchdogSec := 0; WatchdogMode_ := ""; WatchdogEndpoint := ""; WatchdogExpectedStatus := 0;
  WatchdogAddr := ""; WatchdogURL := ""; WatchdogGraceSec := 0; WatchdogTimeoutSec := 0;
  WatchdogFailureThreshold := 0; MemoryMax := 0; ProcessLimit := 0; PriorityClass := "";
  CPUWeight := 0; WindowsCPUWeight := 0; WindowsCPUQuota := 0; CPUQuota := 0; IoPriority := "";
  RestartSecSet := false; TimeoutStartSecSet := false; TimeoutStopSecSet := false;
  WatchdogSecSet := false; WatchdogEndpointSet := false; WatchdogExpectedStatusSet := false;
  MemoryMaxSet := false; ProcessLimitSet := false; PriorityClassSet := false;
  CPUWeightSet := false; CPUQuotaSet := false; IoPrioritySet := false
|}.

Section finish.
Context {UC : UnicodeCase} {FC : FloatConversion} {NU : NetURL}.
(** [os.Stat]. *)
Context (os_Stat : StatFunc).

Definition version2 (p : parser) : bool := FormatVersion (p_unit p) =? 2.
Definition present (l : located) : bool := negb (ln l =? 0).
Definition blank (s : string) : bool := bool_decide (TrimSpace s = "").

(** The steps that read one value: nothing when it is empty, an issue when
    it cannot be read. *)
Definition read_field {A} (p : parser) (l : located) (parse : string → result A)
    (msg : error → error) (set : A → ServiceSpec → ServiceSpec) (spec : ServiceSpec) : reported ServiceSpec :=
  if decide (raw l = "") then keep spec
  else match parse (raw l) with
       | Fail e => errorf p (ln l) (msg e) ;;; keep spec
       | Ok v => keep (set v spec)
       end.

(** An issue when the condition holds. *)
Definition error_if (b : bool) (p : parser) (line : Z) (m : error) : reported unit :=
  if b then errorf p line m else keep ().
Definition warn_if (b : bool) (p : parser) (line : Z) (m : error) : reported unit :=
  if b then warnf p line m else keep ().

(** ** Type and names *)

Definition service_types : list string := [TypeSimple; TypeOneshot; TypeNotify; TypeSCM; TypeScheduledTask].

Definition finish_type (p : parser) (s : serviceBuilder) (spec : ServiceSpec) : reported ServiceSpec :=
  let typ := ToLower (TrimSpace (raw (s_typ s))) in
  let typ := if decide (typ = "") then TypeSimple else typ in
  if decide (typ ∈ service_types) then keep (spec <| Type_ := typ |>)
  else
    errorf p (ln (s_typ s)) (ErrFmt "invalid Type %q (supported: simple, oneshot, notify, scm, scheduled-task)"
      [raw (s_typ s)]) ;;;
    keep spec.

Definition finish_remain (p : parser) (s : serviceBuilder) (spec : ServiceSpec) : reported ServiceSpec :=
  let l := s_remainAfterExit s in
  if negb (present l) then keep spec
  else
    spec <~ match parseBool (raw l) with
            | Fail e => errorf p (ln l) (ErrWrap "invalid RemainAfterExit: %s" e) ;;; keep spec
            | Ok v => keep (spec <| RemainAfterExit := v |>)
            end ;;
    error_if (negb (bool_decide (Type_ spec = TypeOneshot))) p (ln l)
      (ErrText "RemainAfterExit is only supported for Type=oneshot") ;;;
    keep spec.

Definition finish_service_name (p : parser) (s : serviceBuilder) (spec : ServiceSpec) : reported ServiceSpec :=
  let l := s_serviceName s in
  let name := TrimSpace (raw l) in
  if decide (Type_ spec = TypeSCM) then
    if decide (name = "") then errorf p (ln l) (ErrText "ServiceName is required for Type=scm") ;;; keep spec
    else keep (spec <| ServiceName := name |>)
  else
    warn_if (negb (bool_decide (name = ""))) p (ln l) (ErrText "ServiceName is only used with Type=scm") ;;;
    keep spec.

Definition finish_task_name (p : parser) (s : serviceBuilder) (spec : ServiceSpec) : reported ServiceSpec :=
  let l := s_taskName s in
  let name := TrimSpace (raw l) in
  if decide (Type_ spec = TypeScheduledTask) then
    if decide (name = "") then errorf p (ln l) (ErrText "TaskName is required for Type=scheduled-task") ;;; keep spec
    else keep (spec <| TaskName := name |>)
  else
    warn_if (negb (bool_decide (name = ""))) p (ln l) (ErrText "TaskName is only used with Type=scheduled-task") ;;;
    keep spec.

(** ** Commands *)

Definition nonempty {A} (l : list A) : bool := negb (bool_decide (length l = 0%nat)).

(** [ExecStart] of a managed process. *)
Definition finish_exec_start (p : parser) (s : serviceBuilder) (spec : ServiceSpec) : reported ServiceSpec :=
  let l := s_exec s in
  if negb (s_execSet s) || (blank (raw l) && negb (nonempty (s_execArgs s)))
  then errorf p (ln l) (ErrText "ExecStart is required") ;;; keep spec
  else
    error_if (negb (version2 p) && nonempty (s_execArgs s) && execStartArgFootgun os_Stat (raw l) (p_stat p)) p (ln l)
      (ErrText "ExecStart must be an executable path when ExecStartArg is set; unquoted arguments belong in ExecStartArg") ;;;
    match buildArgv (raw l) (s_execArgs s) with
    | Fail e => errorf p (ln l) e ;;; keep spec
    | Ok argv =>
      error_if (negb (WindowsAbs (default "" (head argv)))) p (ln l)
        (ErrText "ExecStart must be an absolute path (SearchPath=no)") ;;;
      keep (spec <| ExecStart := argv |>)
    end.

Definition finish_working_directory (p : parser) (s : serviceBuilder) (spec : ServiceSpec) : reported ServiceSpec :=
  let l := s_wd s in
  if negb (s_wdSet s) || blank (raw l)
  then warnf p (ln l) (ErrText "WorkingDirectory is omitted; winunitd will not default to System32") ;;; keep spec
  else
    error_if (negb (WindowsAbs (raw l))) p (ln l) (ErrText "WorkingDirectory must be an absolute path") ;;;
    keep (spec <| WorkingDirectory := raw l |>).

Definition finish_exec (p : parser) (s : serviceBuilder) (spec : ServiceSpec) : reported ServiceSpec :=
  let hasExec := (s_execSet s && (negb (blank (raw (s_exec s))) || nonempty (s_execArgs s))) || nonempty (s_execArgs s) in
  if decide (Type_ spec = TypeScheduledTask) then
    error_if (s_execSet s || nonempty (s_execArgs s)) p (ln (s_exec s))
      (ErrText "ExecStart is not valid for Type=scheduled-task") ;;;
    keep spec
  else if decide (Type_ spec = TypeSCM) then
    warn_if hasExec p (ln (s_exec s)) (ErrText "ExecStart is ignored for Type=scm") ;;; keep spec
  else
    spec <~ finish_exec_start p s spec ;; finish_working_directory p s spec.

Definition finish_exec_stop (p : parser) (s : serviceBuilder) (spec : ServiceSpec) : reported ServiceSpec :=
  let l := s_execStop s in
  if negb (s_execStopSet s || nonempty (s_execStopArgs s)) then keep spec
  else if type_IsExternalProxy (Type_ spec)
  then errorf p (ln l) (ErrFmt "ExecStop is not valid for Type=%s" [Type_ spec]) ;;; keep spec
  else if negb (s_execStopSet s) || blank (raw l)
  then errorf p (ln l) (ErrText "ExecStop requires an executable path") ;;; keep spec
  else
    error_if (negb (version2 p) && nonempty (s_execStopArgs s) && execStartArgFootgun os_Stat (raw l) (p_stat p)) p (ln l)
      (ErrText "ExecStop must be an executable path when ExecStopArg is set") ;;;
    match buildArgv (raw l) (s_execStopArgs s) with
    | Fail e => errorf p (ln l) (ErrWrap "invalid ExecStop: %s" e) ;;; keep spec
    | Ok argv =>
      error_if (negb (WindowsAbs (default "" (head argv)))) p (ln l)
        (ErrText "ExecStop must be an absolute path (SearchPath=no)") ;;;
      keep (spec <| ExecStop := argv |>)
    end.

(** ** Restarts *)

Definition restart_policies : list string := [RestartNo; RestartAlways; RestartOnFailure; RestartOnWatchdog].

Definition finish_restart (p : parser) (s : serviceBuilder) (spec : ServiceSpec) : reported ServiceSpec :=
  let rest := ToLower (TrimSpace (raw (s_restart s))) in
  let rest := if decide (rest = "") then RestartNo else rest in
  if decide (rest ∈ restart_policies) then keep (spec <| Restart := rest |>)
  else
    errorf p (ln (s_restart s)) (ErrFmt "invalid Restart %q (supported: no, always, on-failure, on-watchdog)"
      [raw (s_restart s)]) ;;;
    keep spec.

Definition finish_restart_sec (p : parser) (s : serviceBuilder) : ServiceSpec → reported ServiceSpec :=
  read_field p (s_restartSec s) ParseDuration (ErrWrap "invalid RestartSec: %s")
    (λ d spec, spec <| RestartSec := d |> <| RestartSecSet := true |>).

(** restart_backoff.go *)
Definition finishRestartBackoff (p : parser) (s : serviceBuilder) (spec : ServiceSpec) : reported ServiceSpec :=
  let backoff := s_restartBackoff s in
  let maxDelay := s_restartMaxDelay s in
  if negb (version2 p) then
    error_if (present backoff) p (ln backoff) (ErrText "RestartBackoff requires FormatVersion=2") ;;;
    error_if (present maxDelay) p (ln maxDelay) (ErrText "RestartMaxDelaySec requires FormatVersion=2") ;;;
    keep spec
  else if negb (present backoff) && negb (present maxDelay) then keep spec
  else
    let mode := ToLower (TrimSpace (raw backoff)) in
    let spec := spec <| RestartBackoff := mode |> in
    if negb (bool_decide (mode = "fixed")) && negb (bool_decide (mode = "exponential"))
    then errorf p (ln backoff) (ErrText "RestartBackoff must be fixed or exponential") ;;; keep spec
    else if decide (mode = "fixed") then
      error_if (present maxDelay) p (ln maxDelay) (ErrText "RestartMaxDelaySec requires RestartBackoff=exponential") ;;;
      keep spec
    else
      let bad := errorf p (ln maxDelay)
        (ErrText "RestartMaxDelaySec must be a positive finite duration for exponential backoff") ;;; keep spec in
      match ParseDuration (raw maxDelay) with
      | Fail _ => bad
      | Ok cap =>
        if (cap <=? 0) || (cap =? maxDuration) then bad
        else
          let base := if RestartSecSet spec then RestartSec spec else 100 * Millisecond in
          if (base <=? 0) || (cap <? base)
          then errorf p (ln (s_restartSec s))
                 (ErrText "exponential RestartSec must be positive and no greater than RestartMaxDelaySec") ;;; keep spec
          else keep (spec <| RestartMaxDelaySec := cap |>)
      end.

(** ** user.go *)

Definition systemAccountNames : list string := ["system"; "localsystem"; "s-1-5-18"].
Definition serviceAccountNames : list string :=
  ["localservice"; "local service"; "networkservice"; "network service"; "s-1-5-19"; "s-1-5-20"].

(** [unicode.IsControl]. *)
Definition IsControl (r : Z) : bool := (r <? 0x20) || ((0x7F <=? r) && (r <? 0xA0)).

Definition validSIDString (s : string) : bool :=
  match Split s "-"%char with
  | s0 :: s1 :: p2 :: parts =>
    EqualFold s0 "S" && bool_decide (s1 = "1") &&
    forallb (λ part, negb (bool_decide (part = "")) && forallb digit_byte (bytes part)) (p2 :: parts)
  | _ => false
  end.

(** The value is not of the form of an account name. *)
Definition bad_account (v : string) : bool :=
  bool_decide (1 < length (filter (λ c, c = backslash) (bytes v)))%nat || HasPrefix v "\" || HasSuffix v "\" ||
  existsb (λ r, IsControl r || (r =? 0x2F)) (runes (bytes v)).*1.

Definition finishUser (p : parser) (s : serviceBuilder) (spec : ServiceSpec) : reported ServiceSpec :=
  let l := s_user s in
  if negb (present l) then keep spec
  else
    let spec := spec <| UserDeclared := true |> in
    let v := TrimSpace (raw l) in
    if negb (version2 p) then errorf p (ln l) (ErrText "User requires FormatVersion=2") ;;; keep spec
    else if negb (bool_decide (Type_ spec = TypeSimple)) && negb (bool_decide (Type_ spec = TypeOneshot)) &&
            negb (bool_decide (Type_ spec = TypeNotify))
    then errorf p (ln l) (ErrText "User is supported only for Type=simple, oneshot and notify") ;;; keep spec
    else if decide (v = "")
    then errorf p (ln l) (ErrText "User must name an account: DOMAIN\name, a local name or a SID") ;;; keep spec
    else
      let name := TrimPrefix (ToLower v) "nt authority\" in
      if decide (name ∈ systemAccountNames) then keep spec
      else if decide (name ∈ serviceAccountNames)
      then errorf p (ln l) (ErrFmt "User=%s: LocalService and NetworkService are not supported" [v]) ;;; keep spec
      else if bad_account v
      then errorf p (ln l) (ErrFmt "User=%s is not an account name: use DOMAIN\name, a local name or a SID" [v]) ;;; keep spec
      else if HasPrefix name "s-" then
        if negb (validSIDString v) then errorf p (ln l) (ErrFmt "User=%s is not a valid SID" [v]) ;;; keep spec
        else keep (spec <| User := "S" +:+ suffix_from v 1 |>)
      else keep (spec <| User := v |>).

(** ** Timeouts *)

Definition finish_timeout_start (p : parser) (s : serviceBuilder) : ServiceSpec → reported ServiceSpec :=
  read_field p (s_timeoutStart s) ParseDuration (ErrWrap "invalid TimeoutStartSec: %s")
    (λ d spec, spec <| TimeoutStartSec := d |> <| TimeoutStartSecSet := true |>).

Definition finish_timeout_stop (p : parser) (s : serviceBuilder) : ServiceSpec → reported ServiceSpec :=
  read_field p (s_timeoutStop s) ParseDuration (ErrWrap "invalid TimeoutStopSec: %s")
    (λ d spec, spec <| TimeoutStopSec := d |> <| TimeoutStopSecSet := true |>).

Definition check_stop_timeout (p : parser) (s : serviceBuilder) (spec : ServiceSpec) : reported ServiceSpec :=
  error_if (nonempty (ExecStop spec) && TimeoutStopSecSet spec && (TimeoutStopSec spec <=? 0)) p (ln (s_timeoutStop s))
    (ErrText "ExecStop requires a positive TimeoutStopSec") ;;;
  keep spec.

(** ** format.go *)

Definition finishWindowsCPU (p : parser) (s : serviceBuilder) (spec : ServiceSpec) : reported ServiceSpec :=
  let weight := s_windowsCPUWeight s in
  let quota := s_windowsCPUQuota s in
  if negb (version2 p) then
    error_if (present weight) p (ln weight) (ErrText "WindowsCPUWeight requires FormatVersion=2") ;;;
    error_if (present quota) p (ln quota) (ErrText "WindowsCPUQuota requires FormatVersion=2") ;;;
    keep spec
  else
    error_if (present (s_cpuWeight s)) p (ln (s_cpuWeight s))
      (ErrText "CPUWeight is a legacy directive; convert to WindowsCPUWeight for FormatVersion=2") ;;;
    error_if (present (s_cpuQuota s)) p (ln (s_cpuQuota s))
      (ErrText "CPUQuota is a legacy directive; convert to WindowsCPUQuota for FormatVersion=2") ;;;
    spec <~ (if negb (present weight) then keep spec
             else
               let bad := errorf p (ln weight) (ErrText "WindowsCPUWeight must be an integer from 1 to 9") ;;; keep spec in
               match ParseUint (raw weight) 32 with
               | None => bad
               | Some n => if (n <? 1) || (9 <? n) then bad else keep (spec <| WindowsCPUWeight := n |>)
               end) ;;
    spec <~ (if negb (present quota) then keep spec
             else match parseCPUQuota (raw quota) with
                  | Fail _ =>
                    errorf p (ln quota) (ErrText "WindowsCPUQuota must be an integer percentage from 1%% to 100%%") ;;;
                    keep spec
                  | Ok n => keep (spec <| WindowsCPUQuota := n |>)
                  end) ;;
    error_if (present weight && present quota) p (ln quota)
      (ErrText "WindowsCPUWeight and WindowsCPUQuota cannot both be set") ;;;
    error_if (type_IsExternalProxy (Type_ spec) && (present weight || present quota)) p 0
      (ErrFmt "Windows CPU controls require a managed process; Type=%s has external ownership" [Type_ spec]) ;;;
    keep spec.

(** ** Limits of the job *)

Definition own (e : error) : error := e.

Definition read_memory (p : parser) (s : serviceBuilder) : ServiceSpec → reported ServiceSpec :=
  read_field p (s_memoryMax s) parseMemoryMax own (λ n spec, spec <| MemoryMax := n |> <| MemoryMaxSet := true |>).
Definition read_process_limit (p : parser) (s : serviceBuilder) : ServiceSpec → reported ServiceSpec :=
  read_field p (s_processLimit s) parseProcessLimit own
    (λ n spec, spec <| ProcessLimit := n |> <| ProcessLimitSet := true |>).
Definition read_priority (p : parser) (s : serviceBuilder) : ServiceSpec → reported ServiceSpec :=
  read_field p (s_priorityClass s) parsePriorityClass own
    (λ n spec, spec <| PriorityClass := n |> <| PriorityClassSet := true |>).
Definition read_cpu_weight (p : parser) (s : serviceBuilder) : ServiceSpec → reported ServiceSpec :=
  read_field p (s_cpuWeight s) parseCPUWeight own (λ n spec, spec <| CPUWeight := n |> <| CPUWeightSet := true |>).
Definition read_cpu_quota (p : parser) (s : serviceBuilder) : ServiceSpec → reported ServiceSpec :=
  read_field p (s_cpuQuota s) parseCPUQuota own (λ n spec, spec <| CPUQuota := n |> <| CPUQuotaSet := true |>).
Definition read_io_priority (p : parser) (s : serviceBuilder) : ServiceSpec → reported ServiceSpec :=
  read_field p (s_ioPriority s) parseIoPriority own (λ n spec, spec <| IoPriority := n |> <| IoPrioritySet := true |>).

Definition check_cpu (p : parser) (s : serviceBuilder) (spec : ServiceSpec) : reported ServiceSpec :=
  let line := ln (s_cpuQuota s) in
  let weight := ln (s_cpuWeight s) in
  let line := if (0 <? weight) && ((line =? 0) || (weight <? line)) then weight else line in
  error_if (CPUWeightSet spec && CPUQuotaSet spec) p line (ErrText "CPUWeight and CPUQuota cannot both be set") ;;;
  keep spec.

(** A limit of a process that the manager does not own is dropped. *)
Definition ignore_limit (p : parser) (l : located) (name : string) (is_set : ServiceSpec → bool)
    (clear : ServiceSpec → ServiceSpec) (spec : ServiceSpec) : reported ServiceSpec :=
  if is_set spec
  then warnf p (ln l) (ErrFmt "%s is ignored for Type=%s" [name; Type_ spec]) ;;; keep (clear spec)
  else keep spec.

Definition ignore_limits (p : parser) (s : serviceBuilder) (spec : ServiceSpec) : reported ServiceSpec :=
  spec <~ ignore_limit p (s_memoryMax s) "MemoryMax" MemoryMaxSet
            (λ sp, sp <| MemoryMax := 0 |> <| MemoryMaxSet := false |>) spec ;;
  spec <~ ignore_limit p (s_processLimit s) "ProcessLimit" ProcessLimitSet
            (λ sp, sp <| ProcessLimit := 0 |> <| ProcessLimitSet := false |>) spec ;;
  spec <~ ignore_limit p (s_priorityClass s) "PriorityClass" PriorityClassSet
            (λ sp, sp <| PriorityClass := "" |> <| PriorityClassSet := false |>) spec ;;
  spec <~ ignore_limit p (s_cpuWeight s) "CPUWeight" CPUWeightSet
            (λ sp, sp <| CPUWeight := 0 |> <| CPUWeightSet := false |>) spec ;;
  spec <~ ignore_limit p (s_cpuQuota s) "CPUQuota" CPUQuotaSet
            (λ sp, sp <| CPUQuota := 0 |> <| CPUQuotaSet := false |>) spec ;;
  ignore_limit p (s_ioPriority s) "IoPriority" IoPrioritySet
    (λ sp, sp <| IoPriority := "" |> <| IoPrioritySet := false |>) spec.

Definition finishJobLimits (p : parser) (s : serviceBuilder) (spec : ServiceSpec) : reported ServiceSpec :=
  spec <~ read_memory p s spec ;;
  spec <~ read_process_limit p s spec ;;
  spec <~ read_priority p s spec ;;
  spec <~ finishWindowsCPU p s spec ;;
  spec <~ read_cpu_weight p s spec ;;
  spec <~ read_cpu_quota p s spec ;;
  spec <~ check_cpu p s spec ;;
  spec <~ read_io_priority p s spec ;;
  if negb (type_IsExternalProxy (Type_ spec)) then keep spec else ignore_limits p s spec.

(** ** readiness.go *)

Definition finish_readiness_endpoint (p : parser) (s : serviceBuilder) (spec : ServiceSpec) : reported ServiceSpec :=
  let l := s_readinessEndpoint s in
  if decide (ReadinessMode spec = WatchdogModeTCP) then
    match parseTCPWatchdogEndpoint (ReadinessEndpoint spec) with
    | Fail e => errorf p (ln l) (ErrWrap "invalid ReadinessEndpoint: %v" e) ;;; keep spec
    | Ok addr => keep (spec <| ReadinessAddr := addr |>)
    end
  else if decide (ReadinessMode spec = WatchdogModeHTTP) then
    spec <~ match parseHTTPWatchdogEndpoint (ReadinessEndpoint spec) with
            | Fail e => errorf p (ln l) (ErrWrap "invalid ReadinessEndpoint: %v" e) ;;; keep spec
            | Ok u => keep (spec <| ReadinessURL := url_String u |>)
            end ;;
    keep (spec <| ReadinessExpectedStatus := defaultHTTPWatchdogStatus |>)
  else errorf p (ln (s_readinessMode s)) (ErrText "ReadinessMode must be tcp or http") ;;; keep spec.

Definition finish_readiness_status (p : parser) (s : serviceBuilder) (spec : ServiceSpec) : reported ServiceSpec :=
  let l := s_readinessStatus s in
  if negb (present l) then keep spec
  else
    match parseHTTPWatchdogStatus (raw l) with
    | Ok status =>
      if negb (bool_decide (ReadinessMode spec = WatchdogModeHTTP))
      then errorf p (ln l) (ErrText "ReadinessExpectedStatus requires HTTP mode and an integer from 100 to 599") ;;; keep spec
      else keep (spec <| ReadinessExpectedStatus := status |>)
    | Fail _ =>
      errorf p (ln l) (ErrText "ReadinessExpectedStatus requires HTTP mode and an integer from 100 to 599") ;;; keep spec
    end.

(** A duration that has to be positive and finite. *)
Definition finite_duration (d : Duration) : bool := negb ((d <=? 0) || (d =? maxDuration)).

Definition finish_readiness_duration (p : parser) (name : string) (l : located)
    (set : Duration → ServiceSpec → ServiceSpec) (spec : ServiceSpec) : reported ServiceSpec :=
  if negb (present l) then keep spec
  else
    let bad := errorf p (ln l) (ErrFmt "%s must be a positive finite duration" [name]) ;;; keep spec in
    match ParseDuration (raw l) with
    | Fail _ => bad
    | Ok d => if finite_duration d then keep (set d spec) else bad
    end.

Definition finishReadiness (p : parser) (s : serviceBuilder) (spec : ServiceSpec) : reported ServiceSpec :=
  if negb (present (s_readinessMode s) || present (s_readinessEndpoint s) || present (s_readinessStatus s) ||
           present (s_readinessInterval s) || present (s_readinessTimeout s))
  then keep spec
  else if negb (version2 p) || negb (bool_decide (Type_ spec = TypeSimple))
  then errorf p 0 (ErrText "readiness probes require FormatVersion=2 and Type=simple") ;;; keep spec
  else
    let spec := spec <| ReadinessMode := ToLower (TrimSpace (raw (s_readinessMode s))) |>
                     <| ReadinessEndpoint := TrimSpace (raw (s_readinessEndpoint s)) |> in
    spec <~ finish_readiness_endpoint p s spec ;;
    spec <~ finish_readiness_status p s spec ;;
    let spec := spec <| ReadinessIntervalSec := 100 * Millisecond |> <| ReadinessTimeoutSec := Second |> in
    spec <~ finish_readiness_duration p "ReadinessIntervalSec" (s_readinessInterval s)
              (λ d sp, sp <| ReadinessIntervalSec := d |>) spec ;;
    spec <~ finish_readiness_duration p "ReadinessTimeoutSec" (s_readinessTimeout s)
              (λ d sp, sp <| ReadinessTimeoutSec := d |>) spec ;;
    let spec := if TimeoutStartSecSet spec then spec
                else spec <| TimeoutStartSec := 90 * Second |> <| TimeoutStartSecSet := true |> in
    error_if (negb (finite_duration (TimeoutStartSec spec))) p (ln (s_timeoutStart s))
      (ErrText "startup probes require a positive finite TimeoutStartSec") ;;;
    keep spec.

(** ** watchdog.go *)

Definition finish_watchdog_mode (p : parser) (s : serviceBuilder) (spec : ServiceSpec) : reported ServiceSpec :=
  let mode := ToLower (TrimSpace (raw (s_watchdogMode s))) in
  if decide (mode = "") then
    keep (if WatchdogSecSet spec && (0 <? WatchdogSec spec) then spec <| WatchdogMode_ := WatchdogModeNotify |> else spec)
  else if decide (mode = WatchdogModeNotify) then keep (spec <| WatchdogMode_ := WatchdogModeNotify |>)
  else if decide (mode = WatchdogModeTCP) then keep (spec <| WatchdogMode_ := WatchdogModeTCP |>)
  else if decide (mode = WatchdogModeHTTP) then keep (spec <| WatchdogMode_ := WatchdogModeHTTP |>)
  else
    errorf p (ln (s_watchdogMode s)) (ErrFmt "invalid WatchdogMode %q (supported: notify, tcp, http)"
      [raw (s_watchdogMode s)]) ;;;
    keep spec.

Definition first_line (a b : Z) : Z := if a =? 0 then b else a.

Definition check_watchdog (p : parser) (s : serviceBuilder) (ep : string) (spec : ServiceSpec) : reported ServiceSpec :=
  if WatchdogProbeMode (Some spec) then
    error_if (negb (WatchdogSecSet spec) || (WatchdogSec spec <=? 0)) p
      (first_line (ln (s_watchdogMode s)) (ln (s_watchdogSec s)))
      (ErrFmt "WatchdogMode=%s requires WatchdogSec" [WatchdogMode_ spec]) ;;;
    error_if (bool_decide (ep = "")) p (first_line (ln (s_watchdogEP s)) (ln (s_watchdogMode s)))
      (ErrFmt "WatchdogMode=%s requires WatchdogEndpoint" [WatchdogMode_ spec]) ;;;
    keep spec
  else if decide (WatchdogMode_ spec = WatchdogModeNotify ∨ WatchdogMode_ spec = "") then
    error_if (negb (bool_decide (ep = ""))) p (ln (s_watchdogEP s))
      (ErrText "WatchdogEndpoint is only valid with WatchdogMode=tcp or http") ;;;
    keep spec
  else keep spec.

Definition finish_watchdog_endpoint (p : parser) (s : serviceBuilder) (ep : string) (spec : ServiceSpec) : reported ServiceSpec :=
  spec <~ (if bool_decide (WatchdogMode_ spec = WatchdogModeTCP) && negb (bool_decide (ep = "")) then
             match parseTCPWatchdogEndpoint ep with
             | Fail e => errorf p (ln (s_watchdogEP s)) e ;;; keep spec
             | Ok addr => keep (spec <| WatchdogAddr := addr |>)
             end
           else keep spec) ;;
  if bool_decide (WatchdogMode_ spec = WatchdogModeHTTP) && negb (bool_decide (ep = "")) then
    match parseHTTPWatchdogEndpoint ep with
    | Fail e => errorf p (ln (s_watchdogEP s)) e ;;; keep spec
    | Ok u => keep (spec <| WatchdogURL := url_String u |> <| WatchdogAddr := Host u |>)
    end
  else keep spec.

Definition finish_watchdog_status (p : parser) (s : serviceBuilder) (spec : ServiceSpec) : reported ServiceSpec :=
  let stat := TrimSpace (raw (s_watchdogStat s)) in
  let line := ln (s_watchdogStat s) in
  spec <~ (if decide (stat = "") then keep spec
           else if negb (bool_decide (WatchdogMode_ spec = WatchdogModeHTTP))
           then errorf p line (ErrText "WatchdogExpectedStatus is only valid with WatchdogMode=http") ;;; keep spec
           else match parseHTTPWatchdogStatus stat with
                | Fail e => errorf p line (ErrWrap "invalid WatchdogExpectedStatus: %s" e) ;;; keep spec
                | Ok n => keep (spec <| WatchdogExpectedStatus := n |> <| WatchdogExpectedStatusSet := true |>)
                end) ;;
  keep (if bool_decide (WatchdogMode_ spec = WatchdogModeHTTP) && negb (WatchdogExpectedStatusSet spec)
        then spec <| WatchdogExpectedStatus := defaultHTTPWatchdogStatus |> else spec).

Definition finishWatchdog (p : parser) (s : serviceBuilder) (spec : ServiceSpec) : reported ServiceSpec :=
  spec <~ finish_watchdog_mode p s spec ;;
  let ep := TrimSpace (raw (s_watchdogEP s)) in
  let spec := if decide (ep = "") then spec
              else spec <| WatchdogEndpoint := ep |> <| WatchdogEndpointSet := true |> in
  spec <~ check_watchdog p s ep spec ;;
  spec <~ finish_watchdog_endpoint p s ep spec ;;
  finish_watchdog_status p s spec.

(** ** watchdog_policy.go *)

Definition finish_grace (p : parser) (s : serviceBuilder) (spec : ServiceSpec) : reported ServiceSpec :=
  let l := s_watchdogGrace s in
  if negb (present l) then keep spec
  else
    let bad := errorf p (ln l) (ErrText "WatchdogGraceSec must be a finite nonnegative duration") ;;; keep spec in
    match ParseDuration (raw l) with
    | Fail _ => bad
    | Ok d => if d =? maxDuration then bad else keep (spec <| WatchdogGraceSec := d |>)
    end.

Definition finish_probe_timeout (p : parser) (s : serviceBuilder) (spec : ServiceSpec) : reported ServiceSpec :=
  let l := s_watchdogTimeout s in
  if negb (present l) then keep spec
  else
    let bad := errorf p (ln l) (ErrText "WatchdogTimeoutSec must be a positive finite duration") ;;; keep spec in
    match ParseDuration (raw l) with
    | Fail _ => bad
    | Ok d => if finite_duration d then keep (spec <| WatchdogTimeoutSec := d |>) else bad
    end.

Definition finish_threshold (p : parser) (s : serviceBuilder) (spec : ServiceSpec) : reported ServiceSpec :=
  let l := s_watchdogThreshold s in
  if negb (present l) then keep spec
  else
    let bad := errorf p (ln l) (ErrText "WatchdogFailureThreshold must be an integer from 1 to 1000") ;;; keep spec in
    match Atoi (raw l) with
    | None => bad
    | Some n => if (n <? 1) || (1000 <? n) then bad else keep (spec <| WatchdogFailureThreshold := n |>)
    end.

Definition finishWatchdogPolicy (p : parser) (s : serviceBuilder) (spec : ServiceSpec) : reported ServiceSpec :=
  if negb (present (s_watchdogGrace s) || present (s_watchdogTimeout s) || present (s_watchdogThreshold s))
  then keep spec
  else if negb (version2 p) || negb (WatchdogProbeMode (Some spec)) || IsExternalProxy (Some spec)
  then
    errorf p 0 (ErrText "WatchdogGraceSec, WatchdogTimeoutSec and WatchdogFailureThreshold require FormatVersion=2 and a managed tcp/http watchdog") ;;;
    keep spec
  else
    spec <~ finish_grace p s spec ;;
    spec <~ finish_probe_timeout p s spec ;;
    finish_threshold p s spec.

(** ** The service *)

(** What is left of a service that the manager does not run itself. *)
Definition finish_external (p : parser) (s : serviceBuilder) (spec : ServiceSpec) : reported ServiceSpec :=
  spec <~ finishWatchdogPolicy p s spec ;;
  let ignored l name := warn_if (negb (bool_decide (raw l = ""))) p (ln l)
                          (ErrFmt "%s is ignored for Type=%s" [name; Type_ spec]) in
  ignored (s_notifyAccess s) "NotifyAccess" ;;;
  ignored (s_watchdogSec s) "WatchdogSec" ;;;
  ignored (s_watchdogMode s) "WatchdogMode" ;;;
  keep spec.

Definition finish_notify_access (p : parser) (s : serviceBuilder) (spec : ServiceSpec) : reported ServiceSpec :=
  let l := s_notifyAccess s in
  let access := ToLower (TrimSpace (raw l)) in
  if decide (access = "") then
    keep (if decide (Type_ spec = TypeNotify) then spec <| NotifyAccess := NotifyAccessMain |> else spec)
  else if decide (access = NotifyAccessMain) then keep (spec <| NotifyAccess := NotifyAccessMain |>)
  else errorf p (ln l) (ErrFmt "invalid NotifyAccess %q (supported: main)" [raw l]) ;;; keep spec.

Definition finish_watchdog_sec (p : parser) (s : serviceBuilder) : ServiceSpec → reported ServiceSpec :=
  read_field p (s_watchdogSec s) ParseDuration (ErrWrap "invalid WatchdogSec: %s")
    (λ d spec, spec <| WatchdogSec := d |> <| WatchdogSecSet := true |>).

Definition finish_managed (p : parser) (s : serviceBuilder) (spec : ServiceSpec) : reported ServiceSpec :=
  spec <~ finish_notify_access p s spec ;;
  spec <~ finish_watchdog_sec p s spec ;;
  spec <~ finishWatchdog p s spec ;;
  finishWatchdogPolicy p s spec.

Definition finishService (p : parser) : reported ServiceSpec :=
  let spec := new_ServiceSpec in
  match p_svc p with
  | None => errorf p 0 (ErrText "service unit requires a [Service] section") ;;; keep spec
  | Some s =>
    spec <~ finish_type p s spec ;;
    spec <~ finish_remain p s spec ;;
    spec <~ finish_service_name p s spec ;;
    spec <~ finish_task_name p s spec ;;
    spec <~ finish_exec p s spec ;;
    let spec := spec <| Environment := s_env s |> in
    spec <~ finish_exec_stop p s spec ;;
    spec <~ finish_restart p s spec ;;
    spec <~ finish_restart_sec p s spec ;;
    spec <~ finishRestartBackoff p s spec ;;
    spec <~ finishUser p s spec ;;
    spec <~ finish_timeout_start p s spec ;;
    spec <~ finish_timeout_stop p s spec ;;
    spec <~ finishJobLimits p s spec ;;
    spec <~ check_stop_timeout p s spec ;;
    spec <~ finishReadiness p s spec ;;
    if type_IsExternalProxy (Type_ spec) then finish_external p s spec else finish_managed p s spec
  end.

End finish.
