(* ===== verification/UnitFile.v ===== *)
(** * The unit parser: whole files

    Timers and triggers, the directives of [Unit], and [Parse] with
    [VerifyPath] of [internal/unit/parse.go], [verify.go] and [capabilities.go].
    Reading the file and looking for a companion are arguments. *)

From S2P Require Import Prelude GoStrings GoText GoFloat GoNet Calendar UnitTypes UnitNames UnitReport UnitDuration UnitExec UnitLimits Triggers UnitIni UnitParse UnitFinish.
From Stdlib Require Import Ascii.

#[local] Open Scope Z_scope.
#[local] Open Scope unit_scope.

Record Report := { ReportUnit : option Unit; Issues : list Issue }.

Definition new_TimerSpec : TimerSpec := {|
  OnBootSec := 0; OnStartupSec := 0; OnUnitActiveSec := 0; OnCalendar := []; Persistent := false;
  TimerUnit := ""; OnBootSecSet := false; OnStartupSecSet := false; OnUnitActiveSecSet := false |}.

Definition new_Unit (name path : string) (kind : Kind) : Unit := {|
  FormatVersion := 1; Name := name; Path := path; UnitKind := kind; Description := "";
  Requires := []; Wants := []; BindsTo := []; PartOf := []; After := []; Before := [];
  RequiresInteractiveSession := false; StartLimitInterval := 0; StartLimitBurst := 0;
  Service := None; Timer := None; Registry := None; EventLog := None; PathWatch := None; WantedBy := [] |}.

Section file.
Context {UC : UnicodeCase} {FC : FloatConversion} {NU : NetURL}.
Context (os_Stat : StatFunc).

(** ** Values of a list *)

(** The loops over the values of a trigger directive: an empty value and one
    that cannot be read are reported, the others are collected. *)
Fixpoint collect {A} (p : parser) (ls : list located) (empty : error) (wrap : error → error)
    (parse : string → result A) : reported (list A) :=
  match ls with
  | [] => keep []
  | l :: ls' =>
    if blank (raw l) then errorf p (ln l) empty ;;; collect p ls' empty wrap parse
    else match parse (raw l) with
         | Fail e => errorf p (ln l) (wrap e) ;;; collect p ls' empty wrap parse
         | Ok v => vs <~ collect p ls' empty wrap parse ;; keep (v :: vs)
         end
  end.

(** ** Timers *)

Definition parseTimerDuration (p : parser) (l : located) (label : string) : reported (option Duration) :=
  if decide (raw l = "") then keep None
  else match ParseDuration (raw l) with
       | Fail e => errorf p (ln l) (ErrWrap ("invalid " +:+ label +:+ ": %s") e) ;;; keep None
       | Ok d => keep (Some d)
       end.

(** The loop over [OnCalendar=], which stops at the first expression beyond
    the limit. *)
Fixpoint finish_calendars (p : parser) (i : Z) (ls : list located) : reported (list Calendar) :=
  match ls with
  | [] => keep []
  | l :: ls' =>
    if MaxCalendarExpressions <=? i
    then errorf p (ln l) (ErrFmt "timer exceeds %d OnCalendar expressions" [pretty MaxCalendarExpressions]) ;;; keep []
    else if blank (raw l)
    then errorf p (ln l) (ErrText "invalid OnCalendar: empty calendar expression") ;;; finish_calendars p (i + 1) ls'
    else match ParseCalendar (raw l) with
         | Fail e => errorf p (ln l) (ErrWrap "invalid OnCalendar: %s" e) ;;; finish_calendars p (i + 1) ls'
         | Ok cal => cals <~ finish_calendars p (i + 1) ls' ;; keep (cal :: cals)
         end
  end.

Definition defaultTimerUnit (p : parser) (spec : TimerSpec) : TimerSpec :=
  spec <| TimerUnit := CompanionService (p_name p) |>.

Definition finish_persistent (p : parser) (t : timerBuilder) (spec : TimerSpec) : reported TimerSpec :=
  if negb (t_persistentSet t) then keep spec
  else match parseBool (raw (t_persistent t)) with
       | Fail e => errorf p (ln (t_persistent t)) (ErrWrap "invalid Persistent: %s" e) ;;; keep spec
       | Ok b => keep (spec <| Persistent := b |>)
       end.

Definition finish_timer_unit (p : parser) (t : timerBuilder) (spec : TimerSpec) : reported TimerSpec :=
  if negb (t_unitSet t) then keep (defaultTimerUnit p spec)
  else
    let name := NormalizeName (raw (t_unit t)) in
    if decide (name = "") then errorf p (ln (t_unit t)) (ErrText "Unit= is empty") ;;; keep spec
    else keep (spec <| TimerUnit := name |>).

Definition finishTimer (p : parser) : reported TimerSpec :=
  let spec := new_TimerSpec in
  match p_timer p with
  | None => errorf p 0 (ErrText "timer unit requires a [Timer] section") ;;; keep (defaultTimerUnit p spec)
  | Some t =>
    boot <~ parseTimerDuration p (t_onBoot t) "OnBootSec" ;;
    let spec := match boot with Some d => spec <| OnBootSec := d |> <| OnBootSecSet := true |> | None => spec end in
    startup <~ parseTimerDuration p (t_onStartup t) "OnStartupSec" ;;
    let spec := match startup with Some d => spec <| OnStartupSec := d |> <| OnStartupSecSet := true |> | None => spec end in
    active <~ parseTimerDuration p (t_onUnitActive t) "OnUnitActiveSec" ;;
    let spec := match active with Some d => spec <| OnUnitActiveSec := d |> <| OnUnitActiveSecSet := true |> | None => spec end in
    cals <~ finish_calendars p 0 (t_calendars t) ;;
    let spec := spec <| OnCalendar := cals |> in
    spec <~ finish_persistent p t spec ;;
    spec <~ finish_timer_unit p t spec ;;
    let hasTrigger := negb (bool_decide (raw (t_onBoot t) = "")) || negb (bool_decide (raw (t_onStartup t) = "")) ||
                      negb (bool_decide (raw (t_onUnitActive t) = "")) || nonempty (t_calendars t) in
    error_if (negb hasTrigger) p 0
      (ErrText "timer must specify at least one of OnBootSec, OnStartupSec, OnUnitActiveSec, OnCalendar") ;;;
    keep spec
  end.

(** ** Triggers *)

Definition finishRegistry (p : parser) : reported RegistrySpec :=
  let spec := {| RegistryChanged := []; RegistryUnit := CompanionService (p_name p) |} in
  match p_reg p with
  | None => errorf p 0 (ErrText "registry unit requires a [Registry] section") ;;; keep spec
  | Some r =>
    keys <~ collect p r (ErrText "empty registry path") (ErrWrap "invalid RegistryChanged: %s") ParseKey ;;
    error_if (negb (nonempty r)) p 0 (ErrText "registry must specify RegistryChanged") ;;;
    keep (spec <| RegistryChanged := keys |>)
  end.

Definition finishEventLog (p : parser) : reported EventLogSpec :=
  let spec := {| Triggers := []; EventLogUnit := CompanionService (p_name p) |} in
  match p_evt p with
  | None => errorf p 0 (ErrText "eventlog unit requires a [EventLog] section") ;;; keep spec
  | Some ev =>
    trs <~ collect p ev (ErrText "empty EventLogTrigger") (ErrWrap "invalid EventLogTrigger: %s") ParseTrigger ;;
    error_if (negb (nonempty ev)) p 0 (ErrText "eventlog must specify EventLogTrigger") ;;;
    keep (spec <| UnitTypes.Triggers := trs |>)
  end.

Definition finishPath (p : parser) : reported PathSpec :=
  let spec := {| ExistsAny := false; PathChanged := []; PathExists := []; PathUnit := CompanionService (p_name p) |} in
  match p_pth p with
  | None => errorf p 0 (ErrText "path unit requires a [Path] section") ;;; keep spec
  | Some h =>
    error_if (h_existsAll h && negb (version2 p)) p 0 (ErrText "PathExistsAll requires FormatVersion=2") ;;;
    error_if (h_existsAll h && h_existsAny h) p 0 (ErrText "PathExists and PathExistsAll cannot be combined") ;;;
    let spec := spec <| ExistsAny := version2 p && negb (h_existsAll h) |> in
    changed <~ collect p (h_changed h) (ErrText "empty path") (ErrWrap "invalid PathChanged: %s") pathwatch_Parse ;;
    exists_ <~ collect p (h_exists h) (ErrText "empty path") (ErrWrap "invalid PathExists: %s") ParseExists ;;
    error_if (negb (nonempty (h_changed h)) && negb (nonempty (h_exists h))) p 0
      (ErrText "path must specify PathChanged or PathExists") ;;;
    keep (spec <| PathChanged := changed |> <| PathExists := exists_ |>)
  end.

(** ** The directives of [Unit] *)

Definition finishInteractiveSession (p : parser) (u : Unit) : reported Unit :=
  if negb (p_risSet p) then keep u
  else match parseBool (raw (p_ris p)) with
       | Fail e => errorf p (ln (p_ris p)) (ErrWrap "invalid RequiresInteractiveSession: %s" e) ;;; keep u
       | Ok b => keep (u <| RequiresInteractiveSession := b |>)
       end.

Definition finishStartLimit (p : parser) (u : Unit) : reported Unit :=
  let u := u <| StartLimitInterval := DefaultStartLimitInterval |> <| StartLimitBurst := DefaultStartLimitBurst |> in
  let i := p_startLimitInterval p in
  let b := p_startLimitBurst p in
  u <~ (if decide (raw i = "") then keep u
        else match ParseDuration (raw i) with
             | Fail e => errorf p (ln i) (ErrWrap "invalid StartLimitIntervalSec: %s" e) ;;; keep u
             | Ok d => keep (u <| StartLimitInterval := d |>)
             end) ;;
  if decide (raw b = "") then keep u
  else match parseStartLimitBurst (raw b) with
       | Fail e => errorf p (ln b) e ;;; keep u
       | Ok n => keep (u <| StartLimitBurst := n |>)
       end.

(** [p.finish()], which fills the unit that the entries started. *)
Definition finish (p : parser) : reported Unit :=
  let u := p_unit p in
  u <~ (if decide (p_kind p = KindService) then
          spec <~ finishService os_Stat p ;; keep (u <| Service := Some spec |>)
        else if decide (p_kind p = KindTimer) then spec <~ finishTimer p ;; keep (u <| Timer := Some spec |>)
        else if decide (p_kind p = KindRegistry) then spec <~ finishRegistry p ;; keep (u <| Registry := Some spec |>)
        else if decide (p_kind p = KindEventLog) then spec <~ finishEventLog p ;; keep (u <| EventLog := Some spec |>)
        else if decide (p_kind p = KindPath) then spec <~ finishPath p ;; keep (u <| PathWatch := Some spec |>)
        else keep u) ;;
  u <~ finishInteractiveSession p u ;;
  finishStartLimit p u.

(** ** Parse *)

Definition new_parser (path name : string) (kind : Kind) (stat : option StatFunc) : parser := {|
  p_formatLine := 0; p_path := path; p_name := name; p_kind := kind; p_unit := new_Unit name path kind;
  p_svc := None; p_timer := None; p_reg := None; p_evt := None; p_pth := None;
  p_ris := unset; p_risSet := false; p_startLimitInterval := unset; p_startLimitBurst := unset; p_stat := stat |}.

Definition parse_unit (path name src : string) (kind : Kind) (stat : option StatFunc) : reported Unit :=
  doc <~ parseINI src path ;;
  p <~ apply_sections (new_parser path (NormalizeName name) kind stat) doc ;;
  finish p.

Definition parseReport (path name src : string) (stat : option StatFunc) : Report :=
  match KindFromName name with
  | Fail e => {| ReportUnit := None; Issues := (error_at path 0 e).2 |}
  | Ok kind =>
    let '(u, issues) := parse_unit path name src kind stat in
    {| ReportUnit := Some u; Issues := issues |}
  end.

Definition Parse (path name src : string) : Report := parseReport path name src None.
Definition ParseUnit (name src : string) : Report := Parse name name src.

(** ** verify.go *)

Definition MaxFileBytes : Z := 64 * 1024.

Definition companionKind (k : Kind) : bool :=
  bool_decide (k = KindRegistry) || bool_decide (k = KindEventLog) || bool_decide (k = KindPath).

(** [stat_sibling] tells whether a file of that name is next to [path]. *)
Definition companionIssues (stat_sibling : string → bool) (path name : string) : list Issue :=
  let companion := CompanionService name in
  if stat_sibling companion then [] else (error_at path 0 (ErrFmt "missing companion %s" [companion])).2.

(** [read] is the outcome of opening the file, of reading at most one byte
    more than the limit, and of closing it. *)
Definition VerifyPath (read : result string) (stat_sibling : string → bool) (path : string) : Report :=
  let data := match read with
              | Ok d => if MaxFileBytes <? Z.of_nat (String.length d)
                        then Fail (ErrFmt "unit file exceeds %d bytes" [pretty MaxFileBytes]) else Ok d
              | Fail e => Fail e
              end in
  match data with
  | Fail e => {| ReportUnit := None; Issues := (error_at path 0 e).2 |}
  | Ok d =>
    let rep := Parse path (UnitNameFromPath path) d in
    match ReportUnit rep with
    | Some u =>
      if companionKind (UnitKind u)
      then {| ReportUnit := Some u; Issues := Issues rep ++ companionIssues stat_sibling path (Name u) |}
      else rep
    | None => rep
    end
  end.

Definition UserScopeIssues (u : option Unit) (userScope : bool) : list Issue :=
  match u with
  | Some u =>
    match Service u with
    | Some s =>
      if userScope && UserDeclared s
      then (error_at (Path u) 0 (ErrText "User is only supported in system units; a user manager runs as its user")).2
      else []
    | None => []
    end
  | None => []
  end.

Definition RegistryScopeIssues (u : option Unit) (userScope : bool) : list Issue :=
  match u with
  | Some u =>
    match Registry u with
    | Some r =>
      flat_map (λ k, if AllowedInScope k userScope then []
                     else (error_at (Path u) 0 (ErrText "HKCU is not valid in the system manager (LocalSystem hive); use HKLM or a user manager")).2)
        (RegistryChanged r)
    | None => []
    end
  | None => []
  end.

Definition EventLogScopeIssues (u : option Unit) (userScope : bool) : list Issue :=
  match u with
  | Some u =>
    match EventLog u with
    | Some e =>
      if negb userScope then []
      else flat_map (λ tr, if RestrictedInUserScope tr
             then (error_at (Path u) 0 (ErrFmt "%s is not valid in a user manager; use Application or a custom log" [Channel tr])).2
             else []) (UnitTypes.Triggers e)
    | None => []
    end
  | None => []
  end.

End file.

(** [capabilities.go]. *)
Definition Directives : list (string * list string) :=
  (λ p, (p.1, sort_strings p.2)) <$> map_to_list knownDirectives.
