(* ===== verification/UnitSteps.v ===== *)
(** * The steps of a service without errors

    What each step of [UnitFinish] assigns when it reports no error, up to the
    limits of the job; the probes are in [UnitValid]. *)

From S2P Require Import Prelude GoStrings GoText GoFloat GoNet Calendar CalendarSpec UnitTypes UnitNames UnitReport UnitDuration UnitExec UnitEndpoints UnitLimits Triggers UnitIni UnitParse UnitFinish.
From Stdlib Require Import Ascii.

#[local] Open Scope Z_scope.
#[local] Open Scope unit_scope.

(** ** Reading without errors *)

Lemma yields_errorf {B} p line m (k : unit → reported B) b : yields (also (errorf p line m) k) b ↔ False.
Proof. apply yields_error. Qed.

Lemma yields_warnf {B} p line m (k : unit → reported B) b :
  yields (also (warnf p line m) k) b ↔ yields (k ()) b.
Proof. apply yields_warn. Qed.

Lemma yields_error_if {B} c p line m (k : unit → reported B) b :
  yields (also (error_if c p line m) k) b ↔ c = false ∧ yields (k ()) b.
Proof.
  unfold error_if. destruct c; [rewrite yields_errorf; naive_solver|].
  rewrite yields_also. setoid_rewrite yields_keep. split; [by intros ([] & _ & ?)|]. intros [_ ?]. by exists ().
Qed.

Lemma yields_warn_if {B} c p line m (k : unit → reported B) b :
  yields (also (warn_if c p line m) k) b ↔ yields (k ()) b.
Proof.
  unfold warn_if. destruct c; [apply yields_warnf|].
  rewrite yields_also. setoid_rewrite yields_keep. split; [by intros ([] & _ & ?)|]. intros ?. by exists ().
Qed.

(** Take a hypothesis [yields c a] apart along the structure of [c]. *)
Ltac run H :=
  repeat first
  [ rewrite yields_keep in H
  | rewrite yields_errorf in H
  | rewrite yields_warnf in H
  | rewrite yields_error_if in H
  | rewrite yields_warn_if in H ].
Ltac branch H :=
  run H; try done;
  match type of H with
  | yields (match ?x with _ => _ end) _ => destruct x eqn:?; branch H
  | _ ∧ _ => let H' := fresh in destruct H as [H' H]; branch H
  | _ => idtac
  end.

Section valid.
Context {UC : UnicodeCase} {FC : FloatConversion} {NU : NetURL}.
Context (os_Stat : StatFunc).

Lemma read_field_yields {A} p l (parse : string → result A) msg set spec spec' :
  yields (read_field p l parse msg set spec) spec' →
  spec' = spec ∨ ∃ v, parse (raw l) = Ok v ∧ spec' = set v spec.
Proof. unfold read_field. intros H. branch H; [by left|]. subst. right. by eexists. Qed.

(** ** The steps of a service

    Each step, when it adds no error, assigns certain fields; what it assigns
    is stated with the value of the others at that point. *)

Ltac solve_step H := branch H; subst; eauto 10.

Lemma finish_type_yields p s spec spec' : yields (finish_type p s spec) spec' →
  ∃ t, spec' = spec <| Type_ := t |> ∧ t ∈ service_types.
Proof. unfold finish_type. cbv zeta. intros H. solve_step H. Qed.

Lemma finish_remain_yields p s spec spec' : yields (finish_remain p s spec) spec' →
  ∃ b, spec' = spec <| RemainAfterExit := b |> ∧
       (b = RemainAfterExit spec ∨ Type_ spec = TypeOneshot).
Proof.
  unfold finish_remain. cbv zeta. intros H. branch H.
  - subst. exists (RemainAfterExit spec). split; [by destruct spec|by left].
  - apply yields_also in H as (sp & H1 & H). branch H. subst. branch H1. subst. exists a. split; [done|]. right.
    cbn in *. by apply negb_false_iff, bool_decide_eq_true in H0.
Qed.

Lemma finish_service_name_yields p s spec spec' : yields (finish_service_name p s spec) spec' →
  ∃ n, spec' = spec <| ServiceName := n |> ∧
       if decide (Type_ spec = TypeSCM) then n ≠ "" else n = ServiceName spec.
Proof.
  unfold finish_service_name. cbv zeta. intros H. case_decide; branch H; subst.
  - by eexists.
  - exists (ServiceName spec). split; [by destruct spec|done].
Qed.

Lemma finish_task_name_yields p s spec spec' : yields (finish_task_name p s spec) spec' →
  ∃ n, spec' = spec <| TaskName := n |> ∧
       if decide (Type_ spec = TypeScheduledTask) then n ≠ "" else n = TaskName spec.
Proof.
  unfold finish_task_name. cbv zeta. intros H. case_decide; branch H; subst.
  - by eexists.
  - exists (TaskName spec). split; [by destruct spec|done].
Qed.

(** A command that starts with an absolute path. *)
Definition absolute_command (argv : list string) : Prop :=
  ∃ a rest, argv = a :: rest ∧ a ≠ "" ∧ WindowsAbs a = true.

Lemma buildArgv_absolute r extra argv : buildArgv r extra = Ok argv →
  negb (WindowsAbs (default "" (head argv))) = false → absolute_command argv.
Proof.
  intros (a & rest & -> & Ha)%buildArgv_head Habs. exists a, rest. split_and!; [done..|].
  by apply negb_false_iff in Habs.
Qed.

Lemma finish_exec_yields p s spec spec' : yields (finish_exec os_Stat p s spec) spec' →
  ∃ argv wd, spec' = spec <| ExecStart := argv |> <| WorkingDirectory := wd |> ∧
    if type_IsExternalProxy (Type_ spec) then argv = ExecStart spec ∧ wd = WorkingDirectory spec
    else absolute_command argv ∧ (wd = WorkingDirectory spec ∨ WindowsAbs wd = true).
Proof.
  assert (spec = spec <| ExecStart := ExecStart spec |> <| WorkingDirectory := WorkingDirectory spec |>) as Heta
    by (by destruct spec).
  unfold finish_exec, type_IsExternalProxy. cbv zeta. intros H.
  destruct (decide (Type_ spec = TypeScheduledTask)) as [Ht|Ht].
  { rewrite (bool_decide_true (Type_ spec = TypeScheduledTask)), orb_true_r by done. branch H. subst. eauto. }
  destruct (decide (Type_ spec = TypeSCM)) as [Ht'|Ht'].
  { rewrite (bool_decide_true (Type_ spec = TypeSCM)) by done. branch H. subst. cbn [orb]. eauto. }
  rewrite !bool_decide_false by done. cbn [orb]. apply yields_also in H as (sp & H1 & H).
  unfold finish_exec_start in H1. cbv zeta in H1. branch H1. subst sp.
  unfold finish_working_directory in H. cbv zeta in H.
  match goal with Hb : buildArgv _ _ = Ok _ |- _ => rename Hb into Hargv end.
  eapply buildArgv_absolute in Hargv; [|done].
  branch H; subst; eexists _, _; (split; [|split; [done|]]); [by destruct spec|by left|done|right].
  by apply negb_false_iff.
Qed.

Lemma finish_exec_stop_yields p s spec spec' : yields (finish_exec_stop os_Stat p s spec) spec' →
  ∃ argv, spec' = spec <| ExecStop := argv |> ∧
    (argv = ExecStop spec ∨ type_IsExternalProxy (Type_ spec) = false ∧ absolute_command argv).
Proof.
  unfold finish_exec_stop. cbv zeta. intros H. branch H; subst.
  - exists (ExecStop spec). split; [by destruct spec|by left].
  - match goal with Hb : buildArgv _ _ = Ok _ |- _ => eapply buildArgv_absolute in Hb; [|done] end. eauto.
Qed.

Lemma finish_restart_yields p s spec spec' : yields (finish_restart p s spec) spec' →
  ∃ r, spec' = spec <| Restart := r |> ∧ r ∈ restart_policies.
Proof. unfold finish_restart. cbv zeta. intros H. solve_step H. Qed.

(** A duration that may be absent. *)
Definition optional_duration (is_set : bool) (d : Duration) : Prop :=
  if is_set then 0 ≤ d ≤ maxDuration else d = 0.

Lemma finish_restart_sec_yields p s spec spec' : yields (finish_restart_sec p s spec) spec' →
  optional_duration (RestartSecSet spec) (RestartSec spec) →
  ∃ d b, spec' = spec <| RestartSec := d |> <| RestartSecSet := b |> ∧ optional_duration b d.
Proof.
  intros [->|(v & Hv & ->)]%read_field_yields Hopt; [exists (RestartSec spec), (RestartSecSet spec); by destruct spec|].
  apply ParseDuration_range in Hv. exists v, true. done.
Qed.

Lemma finish_timeout_start_yields p s spec spec' : yields (finish_timeout_start p s spec) spec' →
  optional_duration (TimeoutStartSecSet spec) (TimeoutStartSec spec) →
  ∃ d b, spec' = spec <| TimeoutStartSec := d |> <| TimeoutStartSecSet := b |> ∧ optional_duration b d.
Proof.
  intros [->|(v & Hv & ->)]%read_field_yields Hopt; [exists (TimeoutStartSec spec), (TimeoutStartSecSet spec); by destruct spec|].
  apply ParseDuration_range in Hv. exists v, true. done.
Qed.

Lemma finish_timeout_stop_yields p s spec spec' : yields (finish_timeout_stop p s spec) spec' →
  optional_duration (TimeoutStopSecSet spec) (TimeoutStopSec spec) →
  ∃ d b, spec' = spec <| TimeoutStopSec := d |> <| TimeoutStopSecSet := b |> ∧ optional_duration b d.
Proof.
  intros [->|(v & Hv & ->)]%read_field_yields Hopt; [exists (TimeoutStopSec spec), (TimeoutStopSecSet spec); by destruct spec|].
  apply ParseDuration_range in Hv. exists v, true. done.
Qed.

Lemma finish_watchdog_sec_yields p s spec spec' : yields (finish_watchdog_sec p s spec) spec' →
  optional_duration (WatchdogSecSet spec) (WatchdogSec spec) →
  ∃ d b, spec' = spec <| WatchdogSec := d |> <| WatchdogSecSet := b |> ∧ optional_duration b d.
Proof.
  intros [->|(v & Hv & ->)]%read_field_yields Hopt; [exists (WatchdogSec spec), (WatchdogSecSet spec); by destruct spec|].
  apply ParseDuration_range in Hv. exists v, true. done.
Qed.

Lemma version2_true p : version2 p = true ↔ FormatVersion (p_unit p) = 2.
Proof. unfold version2. apply Z.eqb_eq. Qed.

(** The first delay of a restart. *)
Definition restart_base (spec : ServiceSpec) : Duration :=
  if RestartSecSet spec then RestartSec spec else 100 * Millisecond.

Definition valid_backoff (v : Z) (base : Duration) (mode : string) (cap : Duration) : Prop :=
  (mode = "" ∧ cap = 0) ∨
  (v = 2 ∧ mode = "fixed" ∧ cap = 0) ∨
  (v = 2 ∧ mode = "exponential" ∧ 0 < base ≤ cap ∧ cap < maxDuration).

Lemma finishRestartBackoff_yields p s spec spec' : yields (finishRestartBackoff p s spec) spec' →
  RestartBackoff spec = "" → RestartMaxDelaySec spec = 0 →
  ∃ mode cap, spec' = spec <| RestartBackoff := mode |> <| RestartMaxDelaySec := cap |> ∧
    valid_backoff (FormatVersion (p_unit p)) (restart_base spec) mode cap.
Proof.
  unfold finishRestartBackoff. cbv zeta. intros H Hb Hd.
  assert (spec = spec <| RestartBackoff := "" |> <| RestartMaxDelaySec := 0 |>) as Heta
    by (rewrite <-Hb at 1; rewrite <-Hd; by destruct spec).
  destruct (version2 p) eqn:Hv; cbn [negb] in H.
  2:{ branch H. subst. exists "", 0. split; [done|by left]. }
  apply version2_true in Hv. destruct (negb _ && negb _) eqn:Hp.
  { branch H. subst. exists "", 0. split; [done|by left]. }
  set (mode := ToLower _) in H. destruct (negb (bool_decide (mode = "fixed")) && _) eqn:Hm; [by branch H|].
  destruct (decide (mode = "fixed")) as [Hf|Hf].
  { branch H. subst spec'. exists mode, 0. split; [rewrite <-Hd; by destruct spec|]. right. left. done. }
  rewrite (bool_decide_false _ Hf) in Hm. cbn in Hm. apply negb_false_iff, bool_decide_eq_true in Hm.
  destruct (ParseDuration _) as [cap|] eqn:Hc; [|by branch H]. apply ParseDuration_range in Hc.
  destruct ((cap <=? 0) || _) eqn:E1; [by branch H|]. cbn [RestartSecSet RestartSec put eta eta_ServiceSpec] in H.
  fold (restart_base spec) in H. destruct ((restart_base spec <=? 0) || _) eqn:E2 in H; [by branch H|].
  branch H. subst spec'. exists mode, cap. split; [done|]. right. right.
  rewrite !orb_false_iff, !Z.leb_gt, ?Z.ltb_ge, ?Z.eqb_neq in *. split_and!; try done; lia.
Qed.

Definition user_types : list string := [TypeSimple; TypeOneshot; TypeNotify].

Lemma finishUser_yields p s spec spec' : yields (finishUser p s spec) spec' →
  User spec = "" → UserDeclared spec = false →
  ∃ u b, spec' = spec <| User := u |> <| UserDeclared := b |> ∧
    (u ≠ "" → b = true) ∧ (b = true → FormatVersion (p_unit p) = 2 ∧ Type_ spec ∈ user_types).
Proof.
  unfold finishUser. cbv zeta. intros H Hu Hd.
  assert (∀ b, spec <| UserDeclared := b |> = spec <| User := "" |> <| UserDeclared := b |>) as Heta.
  { intros b. rewrite <-Hu. by destruct spec. }
  destruct (negb (present (s_user s))).
  { branch H. subst. exists "", false. split; [rewrite <-Heta, <-Hd; by destruct spec|done]. }
  destruct (version2 p) eqn:Hv; cbn [negb] in H; [|by branch H]. apply version2_true in Hv.
  cbn [Type_ put eta eta_ServiceSpec] in H.
  destruct (negb _ && negb _ && negb _) eqn:Ht in H; [by branch H|].
  assert (Type_ spec ∈ user_types) as Hty.
  { rewrite !andb_false_iff, !negb_false_iff, !bool_decide_eq_true in Ht.
    unfold user_types. rewrite !elem_of_cons. tauto. }
  branch H; subst spec'.
  - exists "", true. split; [by rewrite Heta|done].
  - eexists _, true. split; [by rewrite Heta|done].
  - eexists _, true. split; [by rewrite Heta|done].
Qed.

(** ** Limits *)

Record job_limits := {
  j_memory : Z; j_memory_set : bool; j_processes : Z; j_processes_set : bool;
  j_priority : string; j_priority_set : bool; j_native_weight : Z; j_native_quota : Z;
  j_weight : Z; j_weight_set : bool; j_quota : Z; j_quota_set : bool; j_io : string; j_io_set : bool;
}.
#[local] Instance eta_job_limits : Settable job_limits := λ j, {|
  j_memory := j_memory j; j_memory_set := j_memory_set j; j_processes := j_processes j;
  j_processes_set := j_processes_set j; j_priority := j_priority j; j_priority_set := j_priority_set j;
  j_native_weight := j_native_weight j; j_native_quota := j_native_quota j; j_weight := j_weight j;
  j_weight_set := j_weight_set j; j_quota := j_quota j; j_quota_set := j_quota_set j; j_io := j_io j;
  j_io_set := j_io_set j |}.

Definition set_limits (j : job_limits) (spec : ServiceSpec) : ServiceSpec := {|
  ReadinessMode := ReadinessMode spec; ReadinessEndpoint := ReadinessEndpoint spec;
  ReadinessAddr := ReadinessAddr spec; ReadinessURL := ReadinessURL spec;
  ReadinessExpectedStatus := ReadinessExpectedStatus spec;
  ReadinessIntervalSec := ReadinessIntervalSec spec; ReadinessTimeoutSec := ReadinessTimeoutSec spec;
  Type_ := Type_ spec; RemainAfterExit := RemainAfterExit spec; ServiceName := ServiceName spec;
  TaskName := TaskName spec; ExecStart := ExecStart spec; ExecStop := ExecStop spec;
  WorkingDirectory := WorkingDirectory spec; User := User spec; UserDeclared := UserDeclared spec;
  Environment := Environment spec; Restart := Restart spec; RestartSec := RestartSec spec;
  RestartBackoff := RestartBackoff spec; RestartMaxDelaySec := RestartMaxDelaySec spec;
  TimeoutStartSec := TimeoutStartSec spec; TimeoutStopSec := TimeoutStopSec spec;
  NotifyAccess := NotifyAccess spec; WatchdogSec := WatchdogSec spec;
  WatchdogMode_ := WatchdogMode_ spec; WatchdogEndpoint := WatchdogEndpoint spec;
  WatchdogExpectedStatus := WatchdogExpectedStatus spec; WatchdogAddr := WatchdogAddr spec;
  WatchdogURL := WatchdogURL spec; WatchdogGraceSec := WatchdogGraceSec spec;
  WatchdogTimeoutSec := WatchdogTimeoutSec spec;
  WatchdogFailureThreshold := WatchdogFailureThreshold spec; MemoryMax := j_memory j;
  ProcessLimit := j_processes j; PriorityClass := j_priority j; CPUWeight := j_weight j;
  WindowsCPUWeight := j_native_weight j; WindowsCPUQuota := j_native_quota j; CPUQuota := j_quota j;
  IoPriority := j_io j; RestartSecSet := RestartSecSet spec;
  TimeoutStartSecSet := TimeoutStartSecSet spec; TimeoutStopSecSet := TimeoutStopSecSet spec;
  WatchdogSecSet := WatchdogSecSet spec; WatchdogEndpointSet := WatchdogEndpointSet spec;
  WatchdogExpectedStatusSet := WatchdogExpectedStatusSet spec; MemoryMaxSet := j_memory_set j;
  ProcessLimitSet := j_processes_set j; PriorityClassSet := j_priority_set j;
  CPUWeightSet := j_weight_set j; CPUQuotaSet := j_quota_set j; IoPrioritySet := j_io_set j
|}.

Definition limits_of (spec : ServiceSpec) : job_limits := {|
  j_memory := MemoryMax spec; j_memory_set := MemoryMaxSet spec; j_processes := ProcessLimit spec;
  j_processes_set := ProcessLimitSet spec; j_priority := PriorityClass spec;
  j_priority_set := PriorityClassSet spec; j_native_weight := WindowsCPUWeight spec;
  j_native_quota := WindowsCPUQuota spec; j_weight := CPUWeight spec; j_weight_set := CPUWeightSet spec;
  j_quota := CPUQuota spec; j_quota_set := CPUQuotaSet spec; j_io := IoPriority spec; j_io_set := IoPrioritySet spec |}.

Definition no_limits : job_limits := {|
  j_memory := 0; j_memory_set := false; j_processes := 0; j_processes_set := false; j_priority := "";
  j_priority_set := false; j_native_weight := 0; j_native_quota := 0; j_weight := 0; j_weight_set := false;
  j_quota := 0; j_quota_set := false; j_io := ""; j_io_set := false |}.

(** The limits of a managed process, and that there are none for another. *)
Record valid_limits (v : Z) (external : bool) (j : job_limits) : Prop := {
  vl_memory : if j_memory_set j then 0 < j_memory j ≤ MaxUint64 else j_memory j = 0;
  vl_processes : if j_processes_set j then 0 < j_processes j ≤ MaxUint32 else j_processes j = 0;
  vl_priority : if j_priority_set j then j_priority j ∈ priority_classes else j_priority j = "";
  vl_io : if j_io_set j then j_io j ∈ io_priorities else j_io j = "";
  vl_weight : if j_weight_set j then 1 ≤ j_weight j ≤ 10000 ∧ v ≠ 2 else j_weight j = 0;
  vl_quota : if j_quota_set j then 1 ≤ j_quota j ≤ 100 ∧ v ≠ 2 else j_quota j = 0;
  vl_cpu : j_weight_set j && j_quota_set j = false;
  vl_native_weight : j_native_weight j = 0 ∨ 1 ≤ j_native_weight j ≤ 9 ∧ v = 2;
  vl_native_quota : j_native_quota j = 0 ∨ 1 ≤ j_native_quota j ≤ 100 ∧ v = 2;
  vl_native : j_native_weight j = 0 ∨ j_native_quota j = 0;
  vl_external : external = true → j = no_limits;
}.

Lemma set_limits_of spec : set_limits (limits_of spec) spec = spec.
Proof. by destruct spec. Qed.

(** A value that was written has the line it was written on. *)
Definition has_line (l : located) : Prop := raw l = "" ∨ ln l ≠ 0.

Lemma finishWindowsCPU_yields p s spec spec' : yields (finishWindowsCPU p s spec) spec' →
  WindowsCPUWeight spec = 0 → WindowsCPUQuota spec = 0 → has_line (s_cpuWeight s) → has_line (s_cpuQuota s) →
  ∃ w q, spec' = spec <| WindowsCPUWeight := w |> <| WindowsCPUQuota := q |> ∧
    let v := FormatVersion (p_unit p) in
    (w = 0 ∨ 1 ≤ w ≤ 9 ∧ v = 2) ∧ (q = 0 ∨ 1 ≤ q ≤ 100 ∧ v = 2) ∧ (w = 0 ∨ q = 0) ∧
    (type_IsExternalProxy (Type_ spec) = true → w = 0 ∧ q = 0) ∧
    (v = 2 → raw (s_cpuWeight s) = "" ∧ raw (s_cpuQuota s) = "").
Proof.
  unfold finishWindowsCPU. cbv zeta. intros H Hw Hq Hlw Hlq.
  assert (∀ w, spec <| WindowsCPUWeight := w |> = spec <| WindowsCPUWeight := w |> <| WindowsCPUQuota := 0 |>) as Heta.
  { intros w. rewrite <-Hq. by destruct spec. }
  assert (spec = spec <| WindowsCPUWeight := 0 |>) as Heta' by (rewrite <-Hw; by destruct spec).
  destruct (version2 p) eqn:Hv; cbn [negb] in H.
  2:{ branch H. subst. exists 0, 0. split; [by rewrite <-Heta|]. apply not_true_iff_false in Hv.
      rewrite version2_true in Hv. split_and!; [by left|by left|by left|done|done]. }
  apply version2_true in Hv. branch H. apply yields_also in H as (sp1 & Hs1 & H).
  apply yields_also in H as (sp2 & Hs2 & H). branch H. subst sp2.
  assert (raw (s_cpuWeight s) = "" ∧ raw (s_cpuQuota s) = "") as Hraw.
  { unfold present in *. repeat match goal with X : negb (_ =? 0) = false |- _ => apply negb_false_iff, Z.eqb_eq in X end.
    unfold has_line in *. naive_solver. }
  assert (∃ w, sp1 = spec <| WindowsCPUWeight := w |> ∧
    if present (s_windowsCPUWeight s) then 1 ≤ w ≤ 9 else w = 0) as (w & -> & Hw1).
  { destruct (present (s_windowsCPUWeight s)); cbn [negb] in Hs1; [|branch Hs1; subst; eauto].
    destruct (ParseUint _ 32) as [n|]; [|by branch Hs1]. destruct ((n <? 1) || _) eqn:E; [by branch Hs1|].
    branch Hs1. subst. exists n. split; [done|]. rewrite orb_false_iff, !Z.ltb_ge in E. done. }
  assert (∃ q, spec' = spec <| WindowsCPUWeight := w |> <| WindowsCPUQuota := q |> ∧
    if present (s_windowsCPUQuota s) then 1 ≤ q ≤ 100 else q = 0) as (q & -> & Hq1).
  { destruct (present (s_windowsCPUQuota s)); cbn [negb] in Hs2; [|branch Hs2; subst; rewrite Heta; eauto].
    destruct (parseCPUQuota _) as [n|] eqn:E; [|by branch Hs2]. branch Hs2. subst. exists n. split; [done|].
    by apply parseCPUQuota_range in E. }
  exists w, q. split; [done|]. cbn [Type_ put eta eta_ServiceSpec] in *.
  destruct (present (s_windowsCPUWeight s)), (present (s_windowsCPUQuota s)); try done;
    split_and!; try tauto; intros; simplify_eq/=; try tauto;
    repeat match goal with X : ?e && _ = false, Y : ?e = true |- _ => rewrite Y in X; done end.
Qed.

Lemma finishWindowsCPU_limits p s j spec spec' : yields (finishWindowsCPU p s (set_limits j spec)) spec' →
  j_native_weight j = 0 → j_native_quota j = 0 → has_line (s_cpuWeight s) → has_line (s_cpuQuota s) →
  ∃ w q, spec' = set_limits (j <| j_native_weight := w |> <| j_native_quota := q |>) spec ∧
    let v := FormatVersion (p_unit p) in
    (w = 0 ∨ 1 ≤ w ≤ 9 ∧ v = 2) ∧ (q = 0 ∨ 1 ≤ q ≤ 100 ∧ v = 2) ∧ (w = 0 ∨ q = 0) ∧
    (type_IsExternalProxy (Type_ spec) = true → w = 0 ∧ q = 0) ∧
    (v = 2 → raw (s_cpuWeight s) = "" ∧ raw (s_cpuQuota s) = "").
Proof.
  intros H Hw Hq Hlw Hlq. apply finishWindowsCPU_yields in H as (w & q & -> & Hall); [|done..].
  exists w, q. split; [by destruct j|exact Hall].
Qed.

(** A value that is read or left alone, with its flag. *)
Lemma read_value_yields {A} p l (parse : string → result A) (set_value : A → bool → ServiceSpec → ServiceSpec)
    (P : A → Prop) (none : A) spec spec' :
  yields (read_field p l parse own (λ v sp, set_value v true sp) spec) spec' →
  (∀ v, parse (raw l) = Ok v → P v) → spec = set_value none false spec →
  ∃ v b, spec' = set_value v b spec ∧ (if b : bool then P v ∧ raw l ≠ "" else v = none).
Proof.
  intros H HP Heta. unfold read_field in H. case_decide as Hr.
  - branch H. subst. exists none, false. by split.
  - branch H. subst. exists a, true. split; [done|]. split; [by apply HP|done].
Qed.

Lemma ignore_limit_yields p l name is_set clear spec spec' :
  yields (ignore_limit p l name is_set clear spec) spec' → spec' = if is_set spec then clear spec else spec.
Proof. unfold ignore_limit. intros H. destruct (is_set spec); by branch H. Qed.

Lemma ignore_limits_yields p s spec spec' : yields (ignore_limits p s spec) spec' →
  valid_limits (FormatVersion (p_unit p)) false (limits_of spec) →
  WindowsCPUWeight spec = 0 → WindowsCPUQuota spec = 0 → spec' = set_limits no_limits spec.
Proof.
  unfold ignore_limits. intros H Hv Hw Hq.
  apply yields_also in H as (s1 & ->%ignore_limit_yields & H). apply yields_also in H as (s2 & ->%ignore_limit_yields & H).
  apply yields_also in H as (s3 & ->%ignore_limit_yields & H). apply yields_also in H as (s4 & ->%ignore_limit_yields & H).
  apply yields_also in H as (s5 & ->%ignore_limit_yields & H). apply ignore_limit_yields in H as ->.
  destruct Hv. destruct spec as []. unfold set_limits. cbn in *. subst.
  repeat match goal with b : bool |- _ => match goal with X : if b then _ else _ |- _ => destruct b end end;
    cbn; subst; done.
Qed.

(** The steps of [finishJobLimits] on a service whose limits are [j]. *)
Ltac limit_step H parse P set_limit none :=
  destruct (read_value_yields _ _ parse set_limit P none _ _ H) as (v & b & -> & Hv);
  [..|exists v, b; split; [|done]].
Lemma read_memory_yields p s j spec spec' : yields (read_memory p s (set_limits j spec)) spec' →
  j_memory j = 0 → j_memory_set j = false →
  ∃ v b, spec' = set_limits (j <| j_memory := v |> <| j_memory_set := b |>) spec ∧
    (if b then 0 < v ≤ MaxUint64 ∧ raw (s_memoryMax s) ≠ "" else v = 0).
Proof.
  intros H H1 H2. destruct j; cbn in *; subst.
  limit_step H parseMemoryMax (λ n, 0 < n ≤ MaxUint64)
    (λ n b sp, sp <| MemoryMax := n |> <| MemoryMaxSet := b |>) 0; [|done..].
  intros v. apply parseMemoryMax_range.
Qed.

Lemma read_process_limit_yields p s j spec spec' : yields (read_process_limit p s (set_limits j spec)) spec' →
  j_processes j = 0 → j_processes_set j = false →
  ∃ v b, spec' = set_limits (j <| j_processes := v |> <| j_processes_set := b |>) spec ∧
    (if b then 0 < v ≤ MaxUint32 ∧ raw (s_processLimit s) ≠ "" else v = 0).
Proof.
  intros H H1 H2. destruct j; cbn in *; subst.
  limit_step H parseProcessLimit (λ v, 0 < v ≤ MaxUint32) (λ n b sp, sp <| ProcessLimit := n |> <| ProcessLimitSet := b |>) 0; [|done..].
  apply parseProcessLimit_range.
Qed.

Lemma read_priority_yields p s j spec spec' : yields (read_priority p s (set_limits j spec)) spec' →
  j_priority j = "" → j_priority_set j = false →
  ∃ v b, spec' = set_limits (j <| j_priority := v |> <| j_priority_set := b |>) spec ∧
    (if b then v ∈ priority_classes ∧ raw (s_priorityClass s) ≠ "" else v = "").
Proof.
  intros H H1 H2. destruct j; cbn in *; subst.
  limit_step H parsePriorityClass (λ v, v ∈ priority_classes) (λ n b sp, sp <| PriorityClass := n |> <| PriorityClassSet := b |>) ""; [|done..].
  unfold parsePriorityClass. cbv zeta. intros v. by repeat case_decide; intros [= <-].
Qed.

Lemma read_cpu_weight_yields p s j spec spec' : yields (read_cpu_weight p s (set_limits j spec)) spec' →
  j_weight j = 0 → j_weight_set j = false →
  ∃ v b, spec' = set_limits (j <| j_weight := v |> <| j_weight_set := b |>) spec ∧
    (if b then 1 ≤ v ≤ 10000 ∧ raw (s_cpuWeight s) ≠ "" else v = 0).
Proof.
  intros H H1 H2. destruct j; cbn in *; subst.
  limit_step H parseCPUWeight (λ v, 1 ≤ v ≤ 10000) (λ n b sp, sp <| CPUWeight := n |> <| CPUWeightSet := b |>) 0; [|done..].
  apply parseCPUWeight_range.
Qed.

Lemma read_cpu_quota_yields p s j spec spec' : yields (read_cpu_quota p s (set_limits j spec)) spec' →
  j_quota j = 0 → j_quota_set j = false →
  ∃ v b, spec' = set_limits (j <| j_quota := v |> <| j_quota_set := b |>) spec ∧
    (if b then 1 ≤ v ≤ 100 ∧ raw (s_cpuQuota s) ≠ "" else v = 0).
Proof.
  intros H H1 H2. destruct j; cbn in *; subst.
  limit_step H parseCPUQuota (λ v, 1 ≤ v ≤ 100) (λ n b sp, sp <| CPUQuota := n |> <| CPUQuotaSet := b |>) 0; [|done..].
  apply parseCPUQuota_range.
Qed.

Lemma read_io_priority_yields p s j spec spec' : yields (read_io_priority p s (set_limits j spec)) spec' →
  j_io j = "" → j_io_set j = false →
  ∃ v b, spec' = set_limits (j <| j_io := v |> <| j_io_set := b |>) spec ∧
    (if b then v ∈ io_priorities ∧ raw (s_ioPriority s) ≠ "" else v = "").
Proof.
  intros H H1 H2. destruct j; cbn in *; subst.
  limit_step H parseIoPriority (λ v, v ∈ io_priorities) (λ n b sp, sp <| IoPriority := n |> <| IoPrioritySet := b |>) ""; [|done..].
  unfold parseIoPriority. cbv zeta. intros v. by repeat case_decide; intros [= <-].
Qed.

Lemma finishJobLimits_yields p s spec spec' : yields (finishJobLimits p s spec) spec' →
  limits_of spec = no_limits → has_line (s_cpuWeight s) → has_line (s_cpuQuota s) →
  ∃ j, spec' = set_limits j spec ∧
    valid_limits (FormatVersion (p_unit p)) (type_IsExternalProxy (Type_ spec)) j.
Proof.
  intros H Hno Hlw Hlq. rewrite <-(set_limits_of spec), Hno in H. unfold finishJobLimits in H.
  apply yields_also in H as (s1 & H1 & H). apply read_memory_yields in H1 as (m & mb & -> & Hm); [|done..].
  apply yields_also in H as (s2 & H2 & H). apply read_process_limit_yields in H2 as (pr & prb & -> & Hpr); [|done..].
  apply yields_also in H as (s3 & H3 & H). apply read_priority_yields in H3 as (pc & pcb & -> & Hpc); [|done..].
  apply yields_also in H as (s4 & H4 & H).
  apply finishWindowsCPU_limits in H4 as (nw & nq & -> & Hnw & Hnq & Hn & Hext & Hleg); [|done..].
  apply yields_also in H as (s5 & H5 & H). apply read_cpu_weight_yields in H5 as (w & wb & -> & Hw); [|done..].
  apply yields_also in H as (s6 & H6 & H). apply read_cpu_quota_yields in H6 as (q & qb & -> & Hq); [|done..].
  apply yields_also in H as (s7 & H7 & H). unfold check_cpu in H7. branch H7. subst s7.
  apply yields_also in H as (s8 & H8 & H). apply read_io_priority_yields in H8 as (io & iob & -> & Hio); [|done..].
  match type of H with context [set_limits ?x spec] => set (j := x) in * end.
  assert (valid_limits (FormatVersion (p_unit p)) false j) as Hj.
  { split; cbn; [by destruct mb; [apply Hm|]|by destruct prb; [apply Hpr|]|by destruct pcb; [apply Hpc|]
      |by destruct iob; [apply Hio|]| | |done..].
    - destruct wb; [|done]. destruct Hw as [? Hraw]. split; [done|]. intros Hv. by destruct (Hleg Hv).
    - destruct qb; [|done]. destruct Hq as [? Hraw]. split; [done|]. intros Hv. by destruct (Hleg Hv). }
  change (Type_ (set_limits j spec)) with (Type_ spec) in H.
  destruct (type_IsExternalProxy (Type_ spec)) eqn:Ht; cbn [negb] in H.
  - assert (j_native_weight j = 0 ∧ j_native_quota j = 0) as [Hz1 Hz2] by (by apply Hext).
    clearbody j. apply ignore_limits_yields in H as ->; [|by destruct j|done..].
    exists no_limits. split; [by destruct spec|]. by split; cbn; auto.
  - branch H. subst. exists j. split; [done|]. by destruct Hj.
Qed.

End valid.
