(* ===== verification/UnitValid.v ===== *)
(** * What the unit parser accepts

    A report without errors describes a valid unit: the theorem of this file
    collects everything that the rest of the program may rely on, for each kind
    of unit. *)

From S2P Require Import Prelude GoStrings GoText GoFloat GoNet Calendar CalendarSpec UnitTypes UnitNames UnitReport UnitDuration UnitExec UnitEndpoints UnitLimits Triggers UnitIni UnitParse UnitFinish UnitFile UnitSteps.
From Stdlib Require Import Ascii.

#[local] Open Scope Z_scope.
#[local] Open Scope unit_scope.

Section valid.
Context {UC : UnicodeCase} {FC : FloatConversion} {NU : NetURL}.
Context (os_Stat : StatFunc).

(** ** Readiness probes *)

Record readiness := {
  r_mode : WatchdogMode; r_endpoint : string; r_addr : string; r_url : string; r_status : Z;
  r_interval : Duration; r_timeout : Duration; r_start : Duration; r_start_set : bool;
}.
#[local] Instance eta_readiness : Settable readiness := λ r, {|
  r_mode := r_mode r; r_endpoint := r_endpoint r; r_addr := r_addr r; r_url := r_url r;
  r_status := r_status r; r_interval := r_interval r; r_timeout := r_timeout r; r_start := r_start r;
  r_start_set := r_start_set r |}.

Definition set_readiness (r : readiness) (spec : ServiceSpec) : ServiceSpec := {|
  ReadinessMode := r_mode r; ReadinessEndpoint := r_endpoint r; ReadinessAddr := r_addr r;
  ReadinessURL := r_url r; ReadinessExpectedStatus := r_status r; ReadinessIntervalSec := r_interval r;
  ReadinessTimeoutSec := r_timeout r; Type_ := Type_ spec; RemainAfterExit := RemainAfterExit spec;
  ServiceName := ServiceName spec; TaskName := TaskName spec; ExecStart := ExecStart spec;
  ExecStop := ExecStop spec; WorkingDirectory := WorkingDirectory spec; User := User spec;
  UserDeclared := UserDeclared spec; Environment := Environment spec; Restart := Restart spec;
  RestartSec := RestartSec spec; RestartBackoff := RestartBackoff spec;
  RestartMaxDelaySec := RestartMaxDelaySec spec; TimeoutStartSec := r_start r;
  TimeoutStopSec := TimeoutStopSec spec; NotifyAccess := NotifyAccess spec;
  WatchdogSec := WatchdogSec spec; WatchdogMode_ := WatchdogMode_ spec;
  WatchdogEndpoint := WatchdogEndpoint spec; WatchdogExpectedStatus := WatchdogExpectedStatus spec;
  WatchdogAddr := WatchdogAddr spec; WatchdogURL := WatchdogURL spec;
  WatchdogGraceSec := WatchdogGraceSec spec; WatchdogTimeoutSec := WatchdogTimeoutSec spec;
  WatchdogFailureThreshold := WatchdogFailureThreshold spec; MemoryMax := MemoryMax spec;
  ProcessLimit := ProcessLimit spec; PriorityClass := PriorityClass spec; CPUWeight := CPUWeight spec;
  WindowsCPUWeight := WindowsCPUWeight spec; WindowsCPUQuota := WindowsCPUQuota spec;
  CPUQuota := CPUQuota spec; IoPriority := IoPriority spec; RestartSecSet := RestartSecSet spec;
  TimeoutStartSecSet := r_start_set r; TimeoutStopSecSet := TimeoutStopSecSet spec;
  WatchdogSecSet := WatchdogSecSet spec; WatchdogEndpointSet := WatchdogEndpointSet spec;
  WatchdogExpectedStatusSet := WatchdogExpectedStatusSet spec; MemoryMaxSet := MemoryMaxSet spec;
  ProcessLimitSet := ProcessLimitSet spec; PriorityClassSet := PriorityClassSet spec;
  CPUWeightSet := CPUWeightSet spec; CPUQuotaSet := CPUQuotaSet spec;
  IoPrioritySet := IoPrioritySet spec
|}.
Definition readiness_of (spec : ServiceSpec) : readiness := {|
  r_mode := ReadinessMode spec; r_endpoint := ReadinessEndpoint spec; r_addr := ReadinessAddr spec;
  r_url := ReadinessURL spec; r_status := ReadinessExpectedStatus spec;
  r_interval := ReadinessIntervalSec spec; r_timeout := ReadinessTimeoutSec spec;
  r_start := TimeoutStartSec spec; r_start_set := TimeoutStartSecSet spec |}.
Lemma set_readiness_of spec : set_readiness (readiness_of spec) spec = spec.
Proof. by destruct spec. Qed.

(** An address and a URL on the local machine. *)
Definition loopback_addr (addr : string) : Prop :=
  (∃ h port, loopback_host h ∧ validWatchdogPort port = None ∧ addr = JoinHostPort h port) ∧
  dial_target addr = Ok addr.
Definition loopback_url (u : URL) : Prop :=
  loopback_addr (Host u) ∧ (Scheme u = "http" ∨ Scheme u = "https") ∧ UserInfo u = None ∧ Fragment u = "" ∧ URLPath u ≠ "".

Lemma tcp_loopback raw addr : parseTCPWatchdogEndpoint raw = Ok addr → loopback_addr addr.
Proof. intros (H1 & H2 & _)%parseTCPWatchdogEndpoint_loopback. done. Qed.

Lemma http_loopback raw u : parseHTTPWatchdogEndpoint raw = Ok u → loopback_url u.
Proof.
  intros ((h & port & Hh & Hp & Hu) & Hs & Hi & Hf & Hpa)%parseHTTPWatchdogEndpoint_loopback.
  split_and!; try done. split; [by exists h, port|]. rewrite Hu. by apply dial_join.
Qed.

Definition positive_finite (d : Duration) : Prop := 0 < d < maxDuration.
Definition http_status (n : Z) : Prop := 100 ≤ n ≤ 599.

Lemma parseHTTPWatchdogStatus_range s n : parseHTTPWatchdogStatus s = Ok n → http_status n.
Proof.
  unfold parseHTTPWatchdogStatus. destruct (Atoi _) as [m|]; [|done].
  destruct (Z.ltb_spec m 100), (Z.ltb_spec 599 m); cbn; intros [= <-]. by split.
Qed.

Lemma finite_duration_spec s d : ParseDuration s = Ok d → finite_duration d = true → positive_finite d.
Proof.
  intros Hd%ParseDuration_range. unfold finite_duration, positive_finite.
  rewrite negb_true_iff, orb_false_iff, Z.leb_gt, Z.eqb_neq. lia.
Qed.

(** Where a probe of mode [mode] connects to and which status it expects. *)
Definition probe_target (mode addr url : string) (status : Z) : Prop :=
  (mode = WatchdogModeTCP ∧ loopback_addr addr ∧ url = "" ∧ status = 0) ∨
  (mode = WatchdogModeHTTP ∧ (∃ u, url = url_String u ∧ loopback_url u ∧ (addr = "" ∨ addr = Host u)) ∧ http_status status).

Definition no_probe (r : readiness) : Prop :=
  r_mode r = "" ∧ r_endpoint r = "" ∧ r_addr r = "" ∧ r_url r = "" ∧ r_status r = 0 ∧ r_interval r = 0 ∧ r_timeout r = 0.

Definition valid_readiness (v : Z) (typ : ServiceType) (r : readiness) : Prop :=
  no_probe r ∨
  v = 2 ∧ typ = TypeSimple ∧ probe_target (r_mode r) (r_addr r) (r_url r) (r_status r) ∧
  positive_finite (r_interval r) ∧ positive_finite (r_timeout r) ∧ r_start_set r = true ∧ positive_finite (r_start r).

Lemma finish_readiness_endpoint_yields p s r spec spec' :
  yields (finish_readiness_endpoint p s (set_readiness r spec)) spec' → r_addr r = "" → r_url r = "" → r_status r = 0 →
  ∃ addr url status, spec' = set_readiness (r <| r_addr := addr |> <| r_url := url |> <| r_status := status |>) spec ∧
    probe_target (r_mode r) addr url status.
Proof.
  unfold finish_readiness_endpoint. cbv zeta. intros H Ha Hu Hs.
  change (ReadinessMode (set_readiness r spec)) with (r_mode r) in H.
  destruct (decide (r_mode r = WatchdogModeTCP)) as [Hm|_].
  { branch H. subst. exists a, "", 0. split; [destruct r; cbn in *; by subst|]. left.
    split_and!; try done. by eapply tcp_loopback. }
  destruct (decide (r_mode r = WatchdogModeHTTP)) as [Hm|_]; [|by branch H].
  apply yields_also in H as (sp & H1 & H). branch H. subst spec'. branch H1. subst sp.
  exists "", (url_String a), 200. split; [destruct r; cbn in *; by subst|]. right.
  split_and!; [done| |unfold http_status; lia]. exists a. split_and!; [done|by eapply http_loopback|by left].
Qed.

Lemma finish_readiness_status_yields p s r spec spec' :
  yields (finish_readiness_status p s (set_readiness r spec)) spec' →
  probe_target (r_mode r) (r_addr r) (r_url r) (r_status r) →
  ∃ status, spec' = set_readiness (r <| r_status := status |>) spec ∧
    probe_target (r_mode r) (r_addr r) (r_url r) status.
Proof.
  unfold finish_readiness_status. cbv zeta. intros H Hp.
  change (ReadinessMode (set_readiness r spec)) with (r_mode r) in H. branch H; subst.
  - exists (r_status r). split; [by destruct r|done].
  - match goal with X : parseHTTPWatchdogStatus _ = Ok ?n |- _ => apply parseHTTPWatchdogStatus_range in X; exists n end.
    split; [done|]. match goal with X : negb _ = false |- _ => apply negb_false_iff, bool_decide_eq_true in X; rename X into Hm end.
    rewrite Hm in *. destruct Hp as [[? _]|(_ & Hu & _)]; [done|]. right. done.
Qed.

Lemma finish_readiness_duration_yields p name l set spec spec' :
  yields (finish_readiness_duration p name l set spec) spec' →
  spec' = spec ∨ ∃ d, positive_finite d ∧ spec' = set d spec.
Proof.
  unfold finish_readiness_duration. cbv zeta. intros H. branch H; subst; [by left|]. right.
  eexists. split; [by eapply finite_duration_spec|done].
Qed.

Lemma finishReadiness_yields p s spec spec' : yields (finishReadiness p s spec) spec' →
  no_probe (readiness_of spec) → optional_duration (TimeoutStartSecSet spec) (TimeoutStartSec spec) →
  ∃ r, spec' = set_readiness r spec ∧ valid_readiness (FormatVersion (p_unit p)) (Type_ spec) r ∧
    optional_duration (r_start_set r) (r_start r).
Proof.
  unfold finishReadiness. intros H Hno Hopt. destruct (negb (_ || _)).
  { branch H. subst. exists (readiness_of spec). split; [by rewrite set_readiness_of|]. split; [by left|done]. }
  destruct (version2 p) eqn:Hv; [|by branch H]. apply version2_true in Hv.
  destruct (negb true || _) eqn:Ht; [by branch H|]. cbn [negb orb] in Ht. apply negb_false_iff, bool_decide_eq_true in Ht.
  cbv zeta in H. destruct Hno as (_ & _ & Ha & Hu & Hs & _).
  apply yields_also in H as (s1 & H1 & H).
  set (r0 := (readiness_of spec) <| r_mode := ToLower (TrimSpace (raw (s_readinessMode s))) |>
               <| r_endpoint := TrimSpace (raw (s_readinessEndpoint s)) |>) in *.
  match type of H1 with yields (finish_readiness_endpoint _ _ ?sp) _ =>
    replace sp with (set_readiness r0 spec) in H1 by (by destruct spec) end.
  apply finish_readiness_endpoint_yields in H1 as (addr & url & st & -> & Hp); [|done..].
  apply yields_also in H as (s2 & H2 & H).
  apply finish_readiness_status_yields in H2 as (st' & -> & Hp'); [|exact Hp]. clear Hp. cbn in Hp'.
  apply yields_also in H as (s3 & H3 & H).
  set (r1 := r0 <| r_addr := addr |> <| r_url := url |> <| r_status := st' |>
                <| r_interval := 100 * Millisecond |> <| r_timeout := Second |>).
  match type of H3 with yields (finish_readiness_duration _ _ _ _ ?sp) _ =>
    replace sp with (set_readiness r1 spec) in H3 by (by destruct spec) end.
  assert (∃ d, positive_finite d ∧ s3 = set_readiness (r1 <| r_interval := d |>) spec) as (iv & Hiv & ->).
  { apply finish_readiness_duration_yields in H3 as [->|(d & Hd & ->)]; [|by exists d].
    exists (100 * Millisecond). split; [by vm_compute|done]. }
  apply yields_also in H as (s4 & H4 & H).
  assert (∃ d, positive_finite d ∧ s4 = set_readiness (r1 <| r_interval := iv |> <| r_timeout := d |>) spec)
    as (tm & Htm & ->).
  { apply finish_readiness_duration_yields in H4 as [->|(d & Hd & ->)]; [|by exists d].
    exists Second. split; [by vm_compute|done]. }
  branch H. subst spec'. match goal with X : negb (finite_duration _) = false |- _ =>
    apply negb_false_iff in X; rename X into Hfin end.
  set (r2 := r1 <| r_interval := iv |> <| r_timeout := tm |>) in *.
  change (TimeoutStartSecSet (set_readiness r2 spec)) with (TimeoutStartSecSet spec) in *.
  destruct (TimeoutStartSecSet spec) eqn:Hset.
  - exists r2. split; [done|]. cbn in Hopt. cbn in Hfin |- *. rewrite Hset. split; [|done].
    right. split_and!; try done; unfold finite_duration in Hfin; unfold positive_finite;
      rewrite negb_true_iff, orb_false_iff, Z.leb_gt, Z.eqb_neq in Hfin; cbn; lia.
  - exists (r2 <| r_start := 90 * Second |> <| r_start_set := true |>). split; [done|]. split; [|done].
    right. split_and!; done.
Qed.

(** ** Watchdogs *)

Record watchdog := {
  w_sec : Duration; w_sec_set : bool; w_mode : WatchdogMode; w_endpoint : string; w_endpoint_set : bool;
  w_addr : string; w_url : string; w_status : Z; w_status_set : bool; w_grace : Duration;
  w_timeout : Duration; w_threshold : Z;
}.
#[local] Instance eta_watchdog : Settable watchdog := λ w, {|
  w_sec := w_sec w; w_sec_set := w_sec_set w; w_mode := w_mode w; w_endpoint := w_endpoint w;
  w_endpoint_set := w_endpoint_set w; w_addr := w_addr w; w_url := w_url w; w_status := w_status w;
  w_status_set := w_status_set w; w_grace := w_grace w; w_timeout := w_timeout w;
  w_threshold := w_threshold w |}.

Definition set_watchdog (w : watchdog) (spec : ServiceSpec) : ServiceSpec := {|
  ReadinessMode := ReadinessMode spec; ReadinessEndpoint := ReadinessEndpoint spec;
  ReadinessAddr := ReadinessAddr spec; ReadinessURL := ReadinessURL spec;
  ReadinessExpectedStatus := ReadinessExpectedStatus spec;
  ReadinessIntervalSec := ReadinessIntervalSec spec; ReadinessTimeoutSec := ReadinessTimeoutSec spec;
  Type_ := Type_ spec; RemainAfterExit := RemainAfterExit spec; ServiceName := ServiceName spec;
  TaskName := TaskName spec; ExecStart := ExecStart spec; ExecStop := ExecStop spec;
  WorkingDirectory := WorkingDirectory spec; User := User spec; UserDeclared := UserDeclared spec;
  Environment := Environment spec; Restart := Restart spec; RestartSec := RestartSec spec;
  RestartBackoff := RestartBackoff spec; RestartMaxDelaySec := RestartMaxDelaySec spec;
  TimeoutStartSec := TimeoutStartSec spec; TimeoutStopSec := TimeoutStopSec spec;
  NotifyAccess := NotifyAccess spec; WatchdogSec := w_sec w; WatchdogMode_ := w_mode w;
  WatchdogEndpoint := w_endpoint w; WatchdogExpectedStatus := w_status w; WatchdogAddr := w_addr w;
  WatchdogURL := w_url w; WatchdogGraceSec := w_grace w; WatchdogTimeoutSec := w_timeout w;
  WatchdogFailureThreshold := w_threshold w; MemoryMax := MemoryMax spec;
  ProcessLimit := ProcessLimit spec; PriorityClass := PriorityClass spec; CPUWeight := CPUWeight spec;
  WindowsCPUWeight := WindowsCPUWeight spec; WindowsCPUQuota := WindowsCPUQuota spec;
  CPUQuota := CPUQuota spec; IoPriority := IoPriority spec; RestartSecSet := RestartSecSet spec;
  TimeoutStartSecSet := TimeoutStartSecSet spec; TimeoutStopSecSet := TimeoutStopSecSet spec;
  WatchdogSecSet := w_sec_set w; WatchdogEndpointSet := w_endpoint_set w;
  WatchdogExpectedStatusSet := w_status_set w; MemoryMaxSet := MemoryMaxSet spec;
  ProcessLimitSet := ProcessLimitSet spec; PriorityClassSet := PriorityClassSet spec;
  CPUWeightSet := CPUWeightSet spec; CPUQuotaSet := CPUQuotaSet spec;
  IoPrioritySet := IoPrioritySet spec
|}.
Definition watchdog_of (spec : ServiceSpec) : watchdog := {|
  w_sec := WatchdogSec spec; w_sec_set := WatchdogSecSet spec; w_mode := WatchdogMode_ spec;
  w_endpoint := WatchdogEndpoint spec; w_endpoint_set := WatchdogEndpointSet spec;
  w_addr := WatchdogAddr spec; w_url := WatchdogURL spec; w_status := WatchdogExpectedStatus spec;
  w_status_set := WatchdogExpectedStatusSet spec; w_grace := WatchdogGraceSec spec;
  w_timeout := WatchdogTimeoutSec spec; w_threshold := WatchdogFailureThreshold spec |}.
Lemma set_watchdog_of spec : set_watchdog (watchdog_of spec) spec = spec.
Proof. by destruct spec. Qed.


Definition no_watchdog : watchdog := {|
  w_sec := 0; w_sec_set := false; w_mode := ""; w_endpoint := ""; w_endpoint_set := false; w_addr := "";
  w_url := ""; w_status := 0; w_status_set := false; w_grace := 0; w_timeout := 0; w_threshold := 0 |}.

(** Where a watchdog of each mode looks, and when it is active. *)
Definition valid_mode (w : watchdog) : Prop :=
  w_mode w ∈ [""; WatchdogModeNotify] ∧
    w_endpoint w = "" ∧ w_addr w = "" ∧ w_url w = "" ∧ w_status w = 0 ∧
    (w_sec_set w = true → 0 < w_sec w → w_mode w = WatchdogModeNotify) ∨
  w_sec_set w = true ∧ 0 < w_sec w ∧ w_endpoint w ≠ "" ∧ probe_target (w_mode w) (w_addr w) (w_url w) (w_status w).

Definition no_policy (w : watchdog) : Prop := w_grace w = 0 ∧ w_timeout w = 0 ∧ w_threshold w = 0.

Definition valid_policy (v : Z) (w : watchdog) : Prop :=
  no_policy w ∨
  v = 2 ∧ (w_mode w = WatchdogModeTCP ∨ w_mode w = WatchdogModeHTTP) ∧
  0 ≤ w_grace w < maxDuration ∧ (w_timeout w = 0 ∨ positive_finite (w_timeout w)) ∧
  (w_threshold w = 0 ∨ 1 ≤ w_threshold w ≤ 1000).

Definition valid_watchdog (v : Z) (external : bool) (w : watchdog) : Prop :=
  optional_duration (w_sec_set w) (w_sec w) ∧ valid_mode w ∧ valid_policy v w ∧ (external = true → w = no_watchdog).

Lemma finish_watchdog_mode_yields p s w spec spec' :
  yields (finish_watchdog_mode p s (set_watchdog w spec)) spec' → w_mode w = "" →
  ∃ m, spec' = set_watchdog (w <| w_mode := m |>) spec ∧
    m ∈ [""; WatchdogModeNotify; WatchdogModeTCP; WatchdogModeHTTP] ∧
    (w_sec_set w = true → 0 < w_sec w → m ≠ "").
Proof.
  unfold finish_watchdog_mode. cbv zeta. intros H Hm.
  change (WatchdogSecSet (set_watchdog w spec)) with (w_sec_set w) in H.
  change (WatchdogSec (set_watchdog w spec)) with (w_sec w) in H.
  branch H; subst; [|by eexists; split; [done|split; [set_solver|]]..].
  destruct (w_sec_set w && (0 <? w_sec w)) eqn:E.
  - by eexists; split; [done|split; [set_solver|]].
  - exists "". split; [destruct w; cbn in *; by subst|]. split; [set_solver|].
    intros Hs Hp. rewrite Hs in E. by apply Z.ltb_ge in E; lia.
Qed.

Lemma finish_watchdog_endpoint_yields p s ep w spec spec' :
  yields (finish_watchdog_endpoint p s ep (set_watchdog w spec)) spec' → w_addr w = "" → w_url w = "" → w_status w = 0 →
  ∃ addr url, spec' = set_watchdog (w <| w_addr := addr |> <| w_url := url |>) spec ∧
    (if decide (ep ≠ "" ∧ w_mode w = WatchdogModeTCP) then loopback_addr addr ∧ url = ""
     else if decide (ep ≠ "" ∧ w_mode w = WatchdogModeHTTP)
     then ∃ u, url = url_String u ∧ loopback_url u ∧ addr = Host u
     else addr = "" ∧ url = "").
Proof.
  unfold finish_watchdog_endpoint. intros H Ha Hu Hs. apply yields_also in H as (s1 & H1 & H).
  change (WatchdogMode_ (set_watchdog w spec)) with (w_mode w) in H1.
  destruct (decide (ep ≠ "" ∧ w_mode w = WatchdogModeTCP)) as [[Hep Hm]|Hn].
  { rewrite Hm, (bool_decide_false (ep = "")) in H1 by done. rewrite bool_decide_true in H1 by done. cbn [negb andb] in H1.
    branch H1. subst s1. rewrite bool_decide_false in H by (cbn; rewrite Hm; done). branch H. subst.
    exists a, "". split; [destruct w; cbn in *; by subst|]. split; [by eapply tcp_loopback|done]. }
  assert (s1 = set_watchdog w spec) as ->.
  { destruct (bool_decide_reflect (w_mode w = WatchdogModeTCP)), (bool_decide_reflect (ep = ""));
      cbn [negb andb] in H1; branch H1; naive_solver. }
  change (WatchdogMode_ (set_watchdog w spec)) with (w_mode w) in H.
  destruct (decide (ep ≠ "" ∧ w_mode w = WatchdogModeHTTP)) as [[Hep Hm]|Hn'].
  - rewrite Hm, (bool_decide_false (ep = "")) in H by done. rewrite bool_decide_true in H by done. cbn [negb andb] in H.
    branch H. subst. eexists _, _. split; [done|]. exists a. split_and!; [done|by eapply http_loopback|done].
  - exists "", "". split; [|done]. destruct (bool_decide_reflect (w_mode w = WatchdogModeHTTP)), (bool_decide_reflect (ep = ""));
      cbn [negb andb] in H; branch H; subst; try tauto; destruct w; cbn in *; by subst.
Qed.

Lemma finish_watchdog_status_yields p s w spec spec' :
  yields (finish_watchdog_status p s (set_watchdog w spec)) spec' → w_status w = 0 → w_status_set w = false →
  ∃ st b, spec' = set_watchdog (w <| w_status := st |> <| w_status_set := b |>) spec ∧
    (if decide (w_mode w = WatchdogModeHTTP) then http_status st else st = 0).
Proof.
  unfold finish_watchdog_status. cbv zeta. intros H Hs Hb. apply yields_also in H as (s1 & H1 & H). branch H. subst spec'.
  change (WatchdogMode_ (set_watchdog w spec)) with (w_mode w) in H1.
  assert ((s1 = set_watchdog w spec) ∨
    ∃ n, http_status n ∧ w_mode w = WatchdogModeHTTP ∧ s1 = set_watchdog (w <| w_status := n |> <| w_status_set := true |>) spec)
    as [->|(n & Hn & Hm & ->)].
  { branch H1; subst; [by left|]. right. eexists. split; [by eapply parseHTTPWatchdogStatus_range|].
    split; [|done]. by eapply bool_decide_eq_true, negb_false_iff. }
  - change (WatchdogMode_ (set_watchdog w spec)) with (w_mode w).
    change (WatchdogExpectedStatusSet (set_watchdog w spec)) with (w_status_set w). rewrite Hb.
    destruct (bool_decide_reflect (w_mode w = WatchdogModeHTTP)) as [Hm|Hm]; cbn [negb andb].
    + exists 200, false. rewrite decide_True by done. split; [destruct w; cbn in *; by subst|unfold http_status; lia].
    + exists 0, false. rewrite decide_False by done. split; [destruct w; cbn in *; by subst|done].
  - exists n, true. rewrite decide_True by done. split; [|done].
    change (WatchdogExpectedStatusSet (set_watchdog _ spec)) with true. by rewrite andb_false_r.
Qed.

(** The watchdog before its mode is read: at most its interval is set. *)
Definition only_interval (d : Duration) (b : bool) : watchdog := no_watchdog <| w_sec := d |> <| w_sec_set := b |>.

Lemma finishWatchdog_yields p s d b spec spec' :
  yields (finishWatchdog p s (set_watchdog (only_interval d b) spec)) spec' →
  ∃ w, spec' = set_watchdog w spec ∧ w_sec w = d ∧ w_sec_set w = b ∧ valid_mode w ∧ no_policy w.
Proof.
  unfold finishWatchdog. intros H. apply yields_also in H as (s1 & H1 & H).
  apply finish_watchdog_mode_yields in H1 as (m & -> & Hm & Hact); [|done]. cbv zeta in H. cbn in Hact.
  set (ep := TrimSpace (raw (s_watchdogEP s))) in *.
  apply yields_also in H as (s2 & H2 & H).
  set (w1 := (only_interval d b) <| w_mode := m |> <| w_endpoint := ep |> <| w_endpoint_set := negb (bool_decide (ep = "")) |>).
  match type of H2 with yields (check_watchdog _ _ _ ?sp) _ =>
    replace sp with (set_watchdog w1 spec) in H2
      by (subst w1; clearbody ep; case_decide; [rewrite bool_decide_true by done; by subst|by rewrite bool_decide_false]) end.
  assert (s2 = set_watchdog w1 spec ∧
    (if decide (m = WatchdogModeTCP ∨ m = WatchdogModeHTTP) then b = true ∧ 0 < d ∧ ep ≠ "" else ep = "")) as [-> Hchk].
  { clear H. unfold check_watchdog in H2. cbn [WatchdogProbeMode] in H2.
    change (WatchdogMode_ (set_watchdog w1 spec)) with m in H2.
    change (WatchdogSecSet (set_watchdog w1 spec)) with b in H2.
    change (WatchdogSec (set_watchdog w1 spec)) with d in H2. clearbody w1 ep.
    rewrite !elem_of_cons in Hm.
    destruct Hm as [->|[->|[->|[->|[]%not_elem_of_nil]]]]; cbn in H2; branch H2; subst; (split; [done|]);
      rewrite ?negb_false_iff, ?orb_false_iff, ?Z.leb_gt, ?bool_decide_eq_true, ?bool_decide_eq_false, ?negb_false_iff in *;
      case_decide; naive_solver. }
  clear H2. apply yields_also in H as (s3 & H3 & H).
  apply finish_watchdog_endpoint_yields in H3 as (addr & url & -> & Hend); [|done..].
  apply finish_watchdog_status_yields in H as (st & sb & -> & Hst); [|done..].
  eexists. split; [done|]. cbn. split_and!; [done..| |done]. unfold valid_mode. cbn in *.
  rewrite !elem_of_cons in Hm.
  destruct Hm as [->|[->|[->|[->|[]%not_elem_of_nil]]]]; cbn in Hchk, Hend, Hst.
  - left. subst ep. rewrite Hchk in *. destruct Hend as [-> ->]. split_and!; try done; [set_solver|].
    intros Hb Hd. by destruct (Hact Hb Hd).
  - left. rewrite Hchk in *. destruct Hend as [-> ->]. split_and!; try done. set_solver.
  - right. destruct Hchk as (-> & ? & Hep). rewrite decide_True in Hend by done.
    destruct Hend as [? ->]. split_and!; try done. left. done.
  - right. destruct Hchk as (-> & ? & Hep). rewrite decide_False in Hend by naive_solver. rewrite decide_True in Hend by done.
    destruct Hend as (u & -> & Hu & ->). split_and!; try done. right. split_and!; [done| |done]. exists u. split_and!; [done..|by right].
Qed.

Lemma finish_grace_yields p s w spec spec' : yields (finish_grace p s (set_watchdog w spec)) spec' → w_grace w = 0 →
  ∃ d, spec' = set_watchdog (w <| w_grace := d |>) spec ∧ 0 ≤ d < maxDuration.
Proof.
  unfold finish_grace. cbv zeta. intros H Hz. branch H; subst.
  - exists 0. split; [destruct w; cbn in *; by subst|by vm_compute].
  - eexists. split; [done|]. match goal with X : ParseDuration _ = Ok _, Y : (_ =? _) = false |- _ =>
      apply ParseDuration_range in X; apply Z.eqb_neq in Y end. lia.
Qed.

Lemma finish_probe_timeout_yields p s w spec spec' : yields (finish_probe_timeout p s (set_watchdog w spec)) spec' →
  w_timeout w = 0 →
  ∃ d, spec' = set_watchdog (w <| w_timeout := d |>) spec ∧ (d = 0 ∨ positive_finite d).
Proof.
  unfold finish_probe_timeout. cbv zeta. intros H Hz. branch H; subst.
  - exists 0. split; [destruct w; cbn in *; by subst|by left].
  - eexists. split; [done|]. right. by eapply finite_duration_spec.
Qed.

Lemma finish_threshold_yields p s w spec spec' : yields (finish_threshold p s (set_watchdog w spec)) spec' →
  w_threshold w = 0 →
  ∃ n, spec' = set_watchdog (w <| w_threshold := n |>) spec ∧ (n = 0 ∨ 1 ≤ n ≤ 1000).
Proof.
  unfold finish_threshold. cbv zeta. intros H Hz. branch H; subst.
  - exists 0. split; [destruct w; cbn in *; by subst|by left].
  - eexists. split; [done|]. match goal with X : _ || _ = false |- _ => rewrite orb_false_iff, !Z.ltb_ge in X end. by right.
Qed.

Lemma finishWatchdogPolicy_yields p s w spec spec' : yields (finishWatchdogPolicy p s (set_watchdog w spec)) spec' →
  no_policy w →
  ∃ g t n, spec' = set_watchdog (w <| w_grace := g |> <| w_timeout := t |> <| w_threshold := n |>) spec ∧
    (g = 0 ∧ t = 0 ∧ n = 0 ∨
     FormatVersion (p_unit p) = 2 ∧ (w_mode w = WatchdogModeTCP ∨ w_mode w = WatchdogModeHTTP) ∧
     0 ≤ g < maxDuration ∧ (t = 0 ∨ positive_finite t) ∧ (n = 0 ∨ 1 ≤ n ≤ 1000)).
Proof.
  unfold finishWatchdogPolicy. intros H (Hg & Ht & Hn). destruct (negb (_ || _)).
  { branch H. subst. exists 0, 0, 0. split; [destruct w; cbn in *; by subst|by left]. }
  destruct (version2 p) eqn:Hv; [|by branch H]. apply version2_true in Hv.
  destruct (WatchdogProbeMode _) eqn:Hm in H; [|by branch H]. cbn in Hm.
  apply orb_true_iff in Hm. rewrite !bool_decide_eq_true in Hm.
  destruct (IsExternalProxy _) in H; [by branch H|]. cbn [negb orb] in H.
  apply yields_also in H as (s1 & H1 & H). apply finish_grace_yields in H1 as (g & -> & Hg'); [|done].
  apply yields_also in H as (s2 & H2 & H). apply finish_probe_timeout_yields in H2 as (t & -> & Ht'); [|done].
  apply finish_threshold_yields in H as (n & -> & Hn'); [|done].
  exists g, t, n. split; [done|]. right. done.
Qed.

Definition valid_notify (typ : ServiceType) (access : string) : Prop :=
  (access = "" ∨ access = NotifyAccessMain) ∧ (typ = TypeNotify → access = NotifyAccessMain).

Lemma finish_notify_access_yields p s spec spec' : yields (finish_notify_access p s spec) spec' → NotifyAccess spec = "" →
  ∃ a, spec' = spec <| NotifyAccess := a |> ∧ valid_notify (Type_ spec) a.
Proof.
  unfold finish_notify_access. cbv zeta. intros H Hn. unfold valid_notify. branch H; subst.
  - destruct (decide (Type_ spec = TypeNotify)).
    + exists NotifyAccessMain. split; [done|]. naive_solver.
    + exists (NotifyAccess spec). split; [by destruct spec|]. naive_solver.
  - eexists. split; [done|]. naive_solver.
Qed.

(** What is left at the end of a service. *)
Lemma finish_managed_yields p s spec spec' : yields (finish_managed p s spec) spec' →
  NotifyAccess spec = "" → watchdog_of spec = no_watchdog →
  ∃ a w, spec' = set_watchdog w (spec <| NotifyAccess := a |>) ∧ valid_notify (Type_ spec) a ∧
    valid_watchdog (FormatVersion (p_unit p)) false w.
Proof.
  unfold finish_managed. intros H Hn Hw. apply yields_also in H as (s1 & H1 & H).
  apply finish_notify_access_yields in H1 as (a & -> & Ha); [|done].
  apply yields_also in H as (s2 & H2 & H).
  apply finish_watchdog_sec_yields in H2 as (d & b & -> & Hd).
  2:{ pose proof (f_equal w_sec Hw) as E1. pose proof (f_equal w_sec_set Hw) as E2. cbn in *. by rewrite E2. }
  apply yields_also in H as (s3 & H3 & H).
  set (sp := spec <| NotifyAccess := a |>) in *.
  assert (sp <| WatchdogSec := d |> <| WatchdogSecSet := b |> = set_watchdog (only_interval d b) sp) as Hsp.
  { transitivity (set_watchdog ((watchdog_of spec) <| w_sec := d |> <| w_sec_set := b |>) sp); [done|]. by rewrite Hw. }
  rewrite Hsp in H3. apply finishWatchdog_yields in H3 as (w & -> & Hsec & Hset & Hmode & Hpol).
  apply finishWatchdogPolicy_yields in H as (g & t & n & -> & Hp); [|done].
  eexists a, _. split; [done|]. split; [done|]. split_and!; cbn; [by rewrite Hsec, Hset|exact Hmode| |done].
  destruct Hp as [(-> & -> & ->)|?]; [by left|by right].
Qed.

Lemma finish_external_yields p s spec spec' : yields (finish_external p s spec) spec' →
  watchdog_of spec = no_watchdog → spec' = spec.
Proof.
  unfold finish_external. intros H Hw. apply yields_also in H as (s1 & H1 & H). cbv zeta in H. branch H. subst s1.
  rewrite <-(set_watchdog_of spec), Hw in H1.
  apply finishWatchdogPolicy_yields in H1 as (g & t & n & -> & [(-> & -> & ->)|(_ & [?|?] & _)]); [|done..].
  transitivity (set_watchdog no_watchdog spec); [done|]. rewrite <-Hw. apply set_watchdog_of.
Qed.

(** ** Services *)

Record valid_service (v : Z) (spec : ServiceSpec) (external := type_IsExternalProxy (Type_ spec)) : Prop := {
  vs_type : Type_ spec ∈ service_types;
  vs_remain : RemainAfterExit spec = true → Type_ spec = TypeOneshot;
  vs_service_name : Type_ spec = TypeSCM ↔ ServiceName spec ≠ "";
  vs_task_name : Type_ spec = TypeScheduledTask ↔ TaskName spec ≠ "";
  vs_start : if external then ExecStart spec = [] ∧ WorkingDirectory spec = ""
             else absolute_command (ExecStart spec) ∧
                  (WorkingDirectory spec = "" ∨ WindowsAbs (WorkingDirectory spec) = true);
  vs_stop : ExecStop spec = [] ∨
            external = false ∧ absolute_command (ExecStop spec) ∧ (TimeoutStopSecSet spec = true → 0 < TimeoutStopSec spec);
  vs_environment : Forall (λ e, EnvName e ≠ "") (Environment spec);
  vs_restart : Restart spec ∈ restart_policies;
  vs_restart_sec : optional_duration (RestartSecSet spec) (RestartSec spec);
  vs_backoff : valid_backoff v (restart_base spec) (RestartBackoff spec) (RestartMaxDelaySec spec);
  vs_user : (User spec ≠ "" → UserDeclared spec = true) ∧
            (UserDeclared spec = true → v = 2 ∧ Type_ spec ∈ user_types);
  vs_timeout_start : optional_duration (TimeoutStartSecSet spec) (TimeoutStartSec spec);
  vs_timeout_stop : optional_duration (TimeoutStopSecSet spec) (TimeoutStopSec spec);
  vs_limits : valid_limits v external (limits_of spec);
  vs_readiness : valid_readiness v (Type_ spec) (readiness_of spec);
  vs_watchdog : valid_watchdog v external (watchdog_of spec);
  vs_notify : if external then NotifyAccess spec = "" else valid_notify (Type_ spec) (NotifyAccess spec);
}.

(** What the entries leave in the builder of a service. *)
Definition valid_builder (s : serviceBuilder) : Prop :=
  has_line (s_cpuWeight s) ∧ has_line (s_cpuQuota s) ∧ Forall (λ e, EnvName e ≠ "") (s_env s).

(** The fields of a service in groups: what is run, how it is restarted and
    stopped, and the groups above. *)
Definition command_of (sp : ServiceSpec) :=
  (Type_ sp, RemainAfterExit sp, ServiceName sp, TaskName sp, ExecStart sp, ExecStop sp, WorkingDirectory sp, Environment sp).
Definition restart_of (sp : ServiceSpec) :=
  (Restart sp, RestartSec sp, RestartSecSet sp, RestartBackoff sp, RestartMaxDelaySec sp, User sp, UserDeclared sp,
   TimeoutStopSec sp, TimeoutStopSecSet sp).

Definition valid_command (sp : ServiceSpec) (external := type_IsExternalProxy (Type_ sp)) : Prop :=
  Type_ sp ∈ service_types ∧
  (RemainAfterExit sp = true → Type_ sp = TypeOneshot) ∧
  (Type_ sp = TypeSCM ↔ ServiceName sp ≠ "") ∧
  (Type_ sp = TypeScheduledTask ↔ TaskName sp ≠ "") ∧
  (if external then ExecStart sp = [] ∧ WorkingDirectory sp = ""
   else absolute_command (ExecStart sp) ∧ (WorkingDirectory sp = "" ∨ WindowsAbs (WorkingDirectory sp) = true)) ∧
  (ExecStop sp = [] ∨ external = false ∧ absolute_command (ExecStop sp)) ∧
  Forall (λ e, EnvName e ≠ "") (Environment sp).

Definition valid_restart (v : Z) (sp : ServiceSpec) : Prop :=
  Restart sp ∈ restart_policies ∧ optional_duration (RestartSecSet sp) (RestartSec sp) ∧
  valid_backoff v (restart_base sp) (RestartBackoff sp) (RestartMaxDelaySec sp) ∧
  ((User sp ≠ "" → UserDeclared sp = true) ∧ (UserDeclared sp = true → v = 2 ∧ Type_ sp ∈ user_types)) ∧
  optional_duration (TimeoutStopSecSet sp) (TimeoutStopSec sp).

Lemma command_stage p s (k : ServiceSpec → reported ServiceSpec) spec :
  yields (sp <~ finish_type p s new_ServiceSpec ;; sp <~ finish_remain p s sp ;;
          sp <~ finish_service_name p s sp ;; sp <~ finish_task_name p s sp ;;
          sp <~ finish_exec os_Stat p s sp ;;
          sp <~ finish_exec_stop os_Stat p s (sp <| Environment := s_env s |>) ;; k sp) spec →
  Forall (λ e, EnvName e ≠ "") (s_env s) →
  ∃ sp, yields (k sp) spec ∧ valid_command sp ∧ restart_of sp = restart_of new_ServiceSpec ∧
    limits_of sp = no_limits ∧ readiness_of sp = readiness_of new_ServiceSpec ∧ watchdog_of sp = no_watchdog ∧
    NotifyAccess sp = "".
Proof.
  intros H Henv.
  apply yields_also in H as (s1 & H1 & H). apply finish_type_yields in H1 as (t & -> & Ht).
  apply yields_also in H as (s2 & H2 & H). apply finish_remain_yields in H2 as (re & -> & Hre). cbn in Hre.
  apply yields_also in H as (s3 & H3 & H). apply finish_service_name_yields in H3 as (sn & -> & Hsn). cbn in Hsn.
  apply yields_also in H as (s4 & H4 & H). apply finish_task_name_yields in H4 as (tn & -> & Htn). cbn in Htn.
  apply yields_also in H as (s5 & H5 & H). apply finish_exec_yields in H5 as (argv & wd & -> & Hex). cbn in Hex.
  apply yields_also in H as (s6 & H6 & H). apply finish_exec_stop_yields in H6 as (stop & -> & Hstop). cbn in Hstop.
  eexists. split; [exact H|]. split; [|by split_and!].
  unfold valid_command. cbn. refine (conj Ht (conj _ (conj _ (conj _ (conj Hex (conj Hstop Henv)))))).
  - intros ->. by destruct Hre.
  - clear -Hsn. destruct (decide (t = TypeSCM)); [|subst]; tauto.
  - clear -Htn. destruct (decide (t = TypeScheduledTask)); [|subst]; tauto.
Qed.

Definition fresh_stop (sp : ServiceSpec) : Prop :=
  User sp = "" ∧ UserDeclared sp = false ∧ TimeoutStopSec sp = 0 ∧ TimeoutStopSecSet sp = false.

Lemma restart_stage p s (k : ServiceSpec → reported ServiceSpec) sp0 spec (v := FormatVersion (p_unit p)) :
  yields (sp <~ finish_restart p s sp0 ;; sp <~ finish_restart_sec p s sp ;; sp <~ finishRestartBackoff p s sp ;; k sp) spec →
  restart_of sp0 = restart_of new_ServiceSpec →
  ∃ sp, yields (k sp) spec ∧
    (Restart sp ∈ restart_policies ∧ optional_duration (RestartSecSet sp) (RestartSec sp) ∧
     valid_backoff v (restart_base sp) (RestartBackoff sp) (RestartMaxDelaySec sp)) ∧
    fresh_stop sp ∧ command_of sp = command_of sp0 ∧ limits_of sp = limits_of sp0 ∧
    readiness_of sp = readiness_of sp0 ∧ watchdog_of sp = watchdog_of sp0 ∧ NotifyAccess sp = NotifyAccess sp0.
Proof.
  intros H Hf. unfold restart_of in Hf. cbn in Hf. injection Hf as F1 F2 F3 F4 F5 F6 F7 F8 F9.
  apply yields_also in H as (s1 & H1 & H). apply finish_restart_yields in H1 as (rst & -> & Hrst).
  apply yields_also in H as (s2 & H2 & H).
  apply finish_restart_sec_yields in H2 as (rs & rsb & -> & Hrs); [|cbn; by rewrite F3].
  apply yields_also in H as (s3 & H3 & H). apply finishRestartBackoff_yields in H3 as (bm & bc & -> & Hback); [|done..].
  unfold restart_base in Hback. cbn in Hback.
  eexists. split; [exact H|]. split; [|by split_and!].
  split_and!; [done|done|unfold restart_base; exact Hback].
Qed.

Lemma stop_stage p s (k : ServiceSpec → reported ServiceSpec) sp0 spec (v := FormatVersion (p_unit p)) :
  yields (sp <~ finishUser p s sp0 ;; sp <~ finish_timeout_start p s sp ;; sp <~ finish_timeout_stop p s sp ;; k sp) spec →
  fresh_stop sp0 → readiness_of sp0 = readiness_of new_ServiceSpec →
  Restart sp0 ∈ restart_policies ∧ optional_duration (RestartSecSet sp0) (RestartSec sp0) ∧
    valid_backoff v (restart_base sp0) (RestartBackoff sp0) (RestartMaxDelaySec sp0) →
  ∃ sp, yields (k sp) spec ∧ valid_restart v sp ∧ command_of sp = command_of sp0 ∧
    limits_of sp = limits_of sp0 ∧ no_probe (readiness_of sp) ∧ watchdog_of sp = watchdog_of sp0 ∧
    NotifyAccess sp = NotifyAccess sp0 ∧ optional_duration (TimeoutStartSecSet sp) (TimeoutStartSec sp).
Proof.
  intros H (F1 & F2 & F3 & F4) Hr (R1 & R2 & R3). unfold restart_base in R3.
  assert (no_probe (readiness_of sp0) ∧ TimeoutStartSecSet sp0 = false ∧ TimeoutStartSec sp0 = 0) as (Hno & G1 & G2).
  { rewrite Hr. split; [done|]. split; [exact (f_equal r_start_set Hr)|exact (f_equal r_start Hr)]. }
  clear Hr. apply yields_also in H as (s4 & H4 & H).
  apply finishUser_yields in H4 as (us & ub & -> & Hus1 & Hus2); [|done..]. cbn in Hus2.
  apply yields_also in H as (s5 & H5 & H).
  apply finish_timeout_start_yields in H5 as (ts & tsb & -> & Hts); [|cbn; by rewrite G1].
  apply yields_also in H as (s6 & H6 & H).
  apply finish_timeout_stop_yields in H6 as (tp & tpb & -> & Htp); [|cbn; by rewrite F4].
  eexists. split; [exact H|]. split; [|by split_and!].
  split_and!; [done|done|unfold restart_base; exact R3|done..].
Qed.

Lemma command_frame sp sp' : command_of sp = command_of sp' → valid_command sp' → valid_command sp.
Proof.
  unfold command_of. intros E. injection E as E1 E2 E3 E4 E5 E6 E7 E8.
  unfold valid_command. by rewrite E1, E2, E3, E4, E5, E6, E7, E8.
Qed.

Lemma restart_frame v sp sp' : restart_of sp = restart_of sp' → Type_ sp = Type_ sp' → valid_restart v sp' → valid_restart v sp.
Proof.
  unfold restart_of. intros E E0. injection E as E1 E2 E3 E4 E5 E6 E7 E8 E9.
  unfold valid_restart, restart_base. by rewrite E0, E1, E2, E3, E4, E5, E6, E7, E8, E9.
Qed.

Lemma finishService_valid p spec :
  yields (finishService os_Stat p) spec → from_option valid_builder True (p_svc p) →
  valid_service (FormatVersion (p_unit p)) spec.
Proof.
  unfold finishService. cbv zeta. intros H Hb. destruct (p_svc p) as [s|]; [|by branch H]. destruct Hb as (Hlw & Hlq & Henv).
  apply command_stage in H as (sp1 & H & Hc & Hf1 & Hf2 & Hf3 & Hf4 & Hf5); [|done].
  apply restart_stage in H as (sp1' & H & Hrs0 & Hfs & Ec' & El' & Er' & Ew' & En'); [|done].
  apply stop_stage in H as (sp2 & H & Hrs & Ec & El & Er & Ew & En & Hts); [|done|by rewrite Er'|done].
  rewrite Ec' in Ec. rewrite El' in El. rewrite Ew' in Ew. rewrite En' in En. clear sp1' Hrs0 Hfs Ec' El' Er' Ew' En'.
  rewrite Hf2 in El. rewrite Hf4 in Ew. rewrite Hf5 in En. apply (command_frame sp2 sp1 Ec) in Hc. clear sp1 Hf1 Hf2 Hf3 Hf4 Hf5 Ec.
  apply yields_also in H as (s13 & H13 & H). apply finishJobLimits_yields in H13 as (j & -> & Hj); [|done..].
  apply yields_also in H as (s14 & H14 & H). unfold check_stop_timeout in H14. branch H14. subst s14.
  match goal with X : _ && _ && _ = false |- _ => rename X into Hchk; cbn in Hchk end.
  apply yields_also in H as (s15 & H15 & H).
  apply finishReadiness_yields in H15 as (r & -> & Hr & Hrs'); [|done..]. cbn in Hr.
  match type of H with yields (if type_IsExternalProxy ?x then _ else _) _ => change x with (Type_ sp2) in H end.
  assert (∃ a w, spec = set_watchdog w ((set_readiness r (set_limits j sp2)) <| NotifyAccess := a |>) ∧
    valid_watchdog (FormatVersion (p_unit p)) (type_IsExternalProxy (Type_ sp2)) w ∧
    (if type_IsExternalProxy (Type_ sp2) then a = "" else valid_notify (Type_ sp2) a)) as (a & w & -> & Hw & Ha).
  { destruct (type_IsExternalProxy (Type_ sp2)).
    - apply finish_external_yields in H as ->; [|exact Ew]. exists "", no_watchdog. split_and!; try done.
      + rewrite <-Ew, <-En. by destruct sp2.
      + split_and!; [done|left|by left|done]. split_and!; try done. cbn. set_solver.
    - apply finish_managed_yields in H as (a & w & -> & Ha & Hw); [|done..]. by exists a, w. }
  destruct Hc as (C1 & C2 & C3 & C4 & C5 & C6 & C7), Hrs as (R1 & R2 & R3 & R4 & R5).
  split; [exact C1|exact C2|exact C3|exact C4|exact C5| |exact C7|exact R1|exact R2|exact R3|exact R4|exact Hrs'|exact R5
    |by destruct j|by destruct r|by destruct w|exact Ha].
  cbn. destruct C6 as [C6|[C6 C6']]; [by left|]. right. split_and!; [done..|]. intros Hset.
  rewrite Hset in Hchk. destruct C6' as (x & rest & Hx & _). rewrite Hx in Hchk. cbn in Hchk. by apply Z.leb_gt in Hchk.
Qed.

End valid.
