(* ===== verification/UnitAccepted.v ===== *)
(** * What the unit parser accepts: units

    The invariant of the first pass, what timers and triggers contain when they
    are read without errors, and the theorem on whole files: a report without
    errors describes a valid unit. *)

From S2P Require Import Prelude GoStrings GoText GoFloat GoNet Calendar CalendarSpec UnitTypes UnitNames UnitReport UnitDuration UnitExec UnitEndpoints UnitLimits Triggers UnitIni UnitParse UnitFinish UnitFile UnitSteps UnitValid.
From Stdlib Require Import Ascii.

#[local] Open Scope Z_scope.
#[local] Open Scope unit_scope.

(** ** Names *)

Section names.
Context {UC : UnicodeCase}.

Lemma drop_spaces_keeps ps p : p ∈ ps → IsSpace p.1 = false → p ∈ drop_spaces ps.
Proof.
  induction ps as [|[r b] ps IH]; [done|]. intros [->|Hp]%elem_of_cons Hs; simpl.
  - simpl in Hs. rewrite Hs. by left.
  - case_match; [auto|by right].
Qed.

Lemma trim_spaces_keeps ps p : p ∈ ps → IsSpace p.1 = false → p ∈ trim_spaces ps.
Proof.
  intros Hp Hs. unfold trim_spaces. apply elem_of_reverse, drop_spaces_keeps; [|done].
  by apply elem_of_reverse, drop_spaces_keeps.
Qed.

Lemma encode_rune_nonempty r : encode_rune r ≠ [].
Proof. unfold encode_rune. cbv zeta. repeat case_match; done. Qed.

Lemma NormalizeName_nonempty s p : p ∈ runes (bytes s) → IsSpace p.1 = false → NormalizeName s ≠ "".
Proof.
  intros Hp Hs. assert (ToLower (TrimSpace s) ≠ "") as Hne.
  { intros He%(f_equal bytes). unfold ToLower in He. rewrite bytes_str, runes_TrimSpace in He.
    pose proof (trim_spaces_keeps _ _ Hp Hs) as Ht. destruct (trim_spaces (runes (bytes s))) as [|[r' b] ps]; [by apply not_elem_of_nil in Ht|].
    rewrite !fmap_cons in He. cbn in He. apply app_nil in He as [He _]. by apply encode_rune_nonempty in He. }
  unfold NormalizeName. rewrite decide_False by done. destruct (KindFromName _); [done|].
  intros He%(f_equal bytes). rewrite bytes_app in He. by apply app_nil in He as [_ He].
Qed.

(** The name of a unit as the rest of the program uses it. *)
Definition unit_name (n : string) : Prop := n ≠ "" ∧ NormalizeName n = n.

Lemma CompanionService_name name : unit_name (CompanionService name).
Proof.
  split; [|apply NormalizeName_idempotent]. unfold CompanionService. cbv zeta.
  set (base := match drop_extension _ with Some _ => _ | None => _ end).
  apply (NormalizeName_nonempty _ (b2z ".", ["."%char])); [|done]. rewrite bytes_app.
  change (bytes ".service") with ("."%char :: bytes "service"). rewrite runes_app_ascii, runes_cons_ascii by done.
  apply elem_of_app. right. by left.
Qed.

Lemma normalized_names v : Forall unit_name (normalized v).
Proof.
  unfold normalized. apply Forall_forall. intros n [Hn Hin]%list_elem_of_filter.
  apply list_elem_of_fmap in Hin as (m & -> & _). split; [done|]. apply NormalizeName_idempotent.
Qed.

Lemma applyList_names cur v : Forall unit_name cur → Forall unit_name (applyList cur v).
Proof. intros Hc. unfold applyList. case_decide; [done|]. apply Forall_app. split; [done|apply normalized_names]. Qed.

(** A name a unit may be wanted by. *)
Definition link_name (n : string) : Prop := unit_name n ∧ CheckLinkName n = None.

Lemma apply_wanted_names path line ns cur : Forall unit_name ns → Forall link_name cur →
  Forall link_name (apply_wanted path line ns cur).1.
Proof.
  intros Hns. revert cur. induction Hns as [|n ns Hn _ IH]; intros cur Hc; [done|]. cbn [apply_wanted].
  destruct (CheckLinkName n) eqn:E; [rewrite fst_also; by apply IH|].
  apply IH, Forall_app. split; [done|]. by constructor.
Qed.
End names.

(** ** Timers and triggers *)

Section triggers.
Context {UC : UnicodeCase} {FC : FloatConversion} {NU : NetURL}.

Record valid_timer (t : TimerSpec) : Prop := {
  vt_boot : optional_duration (OnBootSecSet t) (OnBootSec t);
  vt_startup : optional_duration (OnStartupSecSet t) (OnStartupSec t);
  vt_active : optional_duration (OnUnitActiveSecSet t) (OnUnitActiveSec t);
  vt_calendars : Forall well_formed (OnCalendar t);
  vt_few : Z.of_nat (length (OnCalendar t)) ≤ MaxCalendarExpressions;
  vt_trigger : OnBootSecSet t = true ∨ OnStartupSecSet t = true ∨ OnUnitActiveSecSet t = true ∨ OnCalendar t ≠ [];
  vt_unit : unit_name (TimerUnit t);
}.

Definition valid_registry (r : RegistrySpec) : Prop :=
  RegistryChanged r ≠ [] ∧ Forall (λ k, KeyPath k ≠ "" ∧ ":"%char ∉ bytes (KeyRaw k)) (RegistryChanged r) ∧
  unit_name (RegistryUnit r).

Definition valid_eventlog (e : EventLogSpec) : Prop :=
  UnitTypes.Triggers e ≠ [] ∧ Forall (λ t, Channel t ≠ "" ∧ 1 ≤ EventID t < 2 ^ 16) (UnitTypes.Triggers e) ∧
  unit_name (EventLogUnit e).

Definition valid_path (v : Z) (h : PathSpec) : Prop :=
  (PathChanged h ≠ [] ∨ PathExists h ≠ []) ∧ (ExistsAny h = true → v = 2) ∧
  Forall (λ sp, windowsAbs (PathRaw sp) = true) (PathChanged h ++ PathExists h) ∧
  unit_name (PathUnit h).

(** The values of a list that is read without errors are those of its
    entries, in their order. *)
Lemma collect_yields {A} p ls empty wrap (parse : string → result A) vs :
  yields (collect p ls empty wrap parse) vs → Forall2 (λ l v, parse (raw l) = Ok v) ls vs.
Proof.
  revert vs. induction ls as [|l ls IH]; intros vs H; cbn [collect] in H.
  - branch H. by subst.
  - branch H. apply yields_also in H as (vs' & H & H'). branch H'. subst. by constructor; auto.
Qed.

Lemma Forall2_parsed {A} (P : A → Prop) (parse : string → result A) (ls : list located) vs :
  (∀ s v, parse s = Ok v → P v) → Forall2 (λ l v, parse (raw l) = Ok v) ls vs → Forall P vs.
Proof. intros HP. induction 1; eauto. Qed.

Lemma finish_calendars_yields p i ls cals : 0 ≤ i ≤ MaxCalendarExpressions →
  yields (finish_calendars p i ls) cals →
  Forall2 (λ l c, ParseCalendar (raw l) = Ok c) ls cals ∧ i + Z.of_nat (length ls) ≤ MaxCalendarExpressions.
Proof.
  revert i cals. induction ls as [|l ls IH]; intros i cals Hi H; cbn [finish_calendars] in H.
  - branch H. subst. split; [constructor|simpl; lia].
  - destruct (Z.leb_spec MaxCalendarExpressions i); [by branch H|].
    branch H. apply yields_also in H as (vs' & H & H'). branch H'. subst.
    destruct (IH (i + 1) vs') as [H1 H2]; [lia|done|]. rewrite length_cons. split; [by constructor|lia].
Qed.

Lemma parseTimerDuration_yields p l label o : yields (parseTimerDuration p l label) o →
  match o with Some d => 0 ≤ d ≤ maxDuration | None => raw l = "" end.
Proof.
  unfold parseTimerDuration. intros H. branch H; subst; [done|]. by eapply ParseDuration_range.
Qed.

Lemma finishTimer_valid p spec : yields (finishTimer p) spec → valid_timer spec.
Proof.
  unfold finishTimer. cbv zeta. intros H. destruct (p_timer p) as [t|]; [|by branch H].
  apply yields_also in H as (boot & Hb%parseTimerDuration_yields & H).
  apply yields_also in H as (startup & Hs%parseTimerDuration_yields & H).
  apply yields_also in H as (active & Ha%parseTimerDuration_yields & H).
  apply yields_also in H as (cals & [Hc Hlen]%finish_calendars_yields & H); [|done].
  apply yields_also in H as (spec1 & H1 & H). apply yields_also in H as (spec2 & H2 & H). branch H. subst spec.
  match type of H1 with yields (finish_persistent _ _ ?x) _ => set (spec0 := x) in H1 end.
  assert (∃ b, spec1 = spec0 <| Persistent := b |>) as [b ->].
  { unfold finish_persistent in H1. branch H1; subst; eauto. }
  assert (∃ n, unit_name n ∧ spec2 = spec0 <| Persistent := b |> <| TimerUnit := n |>) as (n & Hn & ->).
  { unfold finish_timer_unit in H2. branch H2; subst; eexists; (split; [|reflexivity]).
    - apply CompanionService_name.
    - split; [done|apply NormalizeName_idempotent]. }
  assert (length (t_calendars t) = length cals) as Hl by by eapply Forall2_length.
  clear H1 H2. subst spec0. split.
  - destruct boot, startup, active; cbn; try done.
  - destruct boot, startup, active; cbn; try done.
  - destruct boot, startup, active; cbn; try done.
  - destruct boot, startup, active; cbn; eapply Forall2_parsed; try done; apply parsed_well_formed.
  - destruct boot, startup, active; cbn; lia.
  - destruct boot, startup, active; cbn; auto. do 3 right. intros ->.
    destruct (t_calendars t); [|done]. rewrite Hb, Hs, Ha in *. done.
  - destruct boot, startup, active; done.
Qed.

Lemma collect_nonempty {A} (P : A → Prop) p ls empty wrap (parse : string → result A) vs :
  (∀ s v, parse s = Ok v → P v) → yields (collect p ls empty wrap parse) vs →
  Forall P vs ∧ (nonempty ls = true → vs ≠ []).
Proof.
  intros HP H%collect_yields. split; [by eapply Forall2_parsed|]. by destruct H.
Qed.

Lemma finishRegistry_valid p spec : yields (finishRegistry p) spec → valid_registry spec.
Proof.
  unfold finishRegistry. intros H. destruct (p_reg p) as [r|]; [|by branch H].
  apply yields_also in H as (ks & Hk & H). branch H. subst.
  apply (collect_nonempty (λ k, KeyPath k ≠ "" ∧ ":"%char ∉ bytes (KeyRaw k))) in Hk as [Hall Hne];
    [|intros s v (?&?&?)%ParseKey_form; done].
  split_and!; [by apply Hne, negb_false_iff|done|apply CompanionService_name].
Qed.

Lemma finishEventLog_valid p spec : yields (finishEventLog p) spec → valid_eventlog spec.
Proof.
  unfold finishEventLog. intros H. destruct (p_evt p) as [r|]; [|by branch H].
  apply yields_also in H as (ks & Hk & H). branch H. subst.
  apply (collect_nonempty (λ t, Channel t ≠ "" ∧ 1 ≤ EventID t < 2 ^ 16)) in Hk as [Hall Hne];
    [|intros s v (?&?&?)%ParseTrigger_form; done].
  split_and!; [by apply Hne, negb_false_iff|done|apply CompanionService_name].
Qed.

Lemma finishPath_valid p spec : yields (finishPath p) spec → valid_path (FormatVersion (p_unit p)) spec.
Proof.
  unfold finishPath. intros H. destruct (p_pth p) as [h|]; [|by branch H]. branch H.
  apply yields_also in H as (cs & Hc & H). apply yields_also in H as (es & He & H). branch H. subst.
  apply (collect_nonempty (λ sp, windowsAbs (PathRaw sp) = true)) in Hc as [Hcs Hcn], He as [Hes Hen];
    [|intros s v [??]%parseAbs_form; done..].
  split_and!; [| |by apply Forall_app|apply CompanionService_name].
  - destruct (nonempty (h_changed h)); [by left; apply Hcn|right]. apply Hen. by destruct (nonempty (h_exists h)).
  - cbn. intros [Hv _]%andb_prop. by apply Z.eqb_eq in Hv.
Qed.
End triggers.

(** ** The first pass *)

Section entries.
Context {UC : UnicodeCase}.

Lemma assignments_named toks vars : assignments toks = Ok vars → Forall (λ e, EnvName e ≠ "") vars.
Proof.
  revert vars. induction toks as [|tok toks IH]; intros vars H; cbn in H; [by simplify_eq|].
  destruct (Cut tok "=") as [[n v] ok]. destruct ok; [|done]. cbn in H. case_bool_decide; [done|].
  destruct (assignments toks) as [out|]; [|done]. cbn in H. simplify_eq. constructor; [done|]. by apply IH.
Qed.

Lemma parseEnvironment_named s vars : parseEnvironment s = Ok vars → Forall (λ e, EnvName e ≠ "") vars.
Proof. unfold parseEnvironment. destruct (splitEnvTokens s) as [toks|]; [|done]. apply assignments_named. Qed.

Lemma new_builder_valid : valid_builder new_serviceBuilder.
Proof. split_and!; [by left|by left|constructor]. Qed.

Lemma applyService_valid path s e : line e ≠ 0 → valid_builder s → valid_builder (applyService path s e).1.
Proof.
  intros Hl Hv. assert (Hv' := Hv). destruct Hv' as (Hw & Hq & He). unfold applyService. cbv zeta.
  repeat match goal with
  | |- context [decide (key e = _)] =>
    destruct (decide (key e = _)) as [_|_];
    [rewrite ?fst_also; first [exact Hv|split_and!; first [exact Hw|exact Hq|exact He|by right]|idtac]|]
  end; [..|done].
  - case_decide; [split_and!; [exact Hw|exact Hq|constructor]|].
    destruct (parseEnvironment (value e)) as [vars|] eqn:E; [|done].
    split_and!; [exact Hw|exact Hq|]. cbn. apply Forall_app. split; [exact He|]. by eapply parseEnvironment_named.
  - destruct (negb _); done.
Qed.

(** What is known of the unit while its entries are read. *)
Record started (path name : string) (kind : Kind) (u : Unit) : Prop := {
  st_name : Name u = name; st_path : Path u = path; st_kind : UnitKind u = kind;
  st_version : FormatVersion u ∈ formatVersions;
  st_names : Forall unit_name (Requires u ++ Wants u ++ BindsTo u ++ PartOf u ++ After u ++ Before u);
  st_wanted : Forall link_name (WantedBy u);
  st_service : Service u = None; st_timer : Timer u = None; st_registry : Registry u = None;
  st_eventlog : EventLog u = None; st_pathwatch : PathWatch u = None;
}.

(** The invariant of the parser. *)
Record reading (path name : string) (kind : Kind) (p : parser) : Prop := {
  rd_path : p_path p = path; rd_name : p_name p = name; rd_kind : p_kind p = kind;
  rd_unit : started path name kind (p_unit p);
  rd_service : from_option valid_builder True (p_svc p);
}.

Lemma formatVersion_known s v : formatVersion s = Some v → v ∈ formatVersions.
Proof.
  unfold formatVersion. destruct (list_find _ _) as [[i w]|] eqn:E; [|done]. cbn. intros [= <-].
  apply list_find_Some in E as (E & _). by eapply list_elem_of_lookup_2.
Qed.

Section invariant.
Context (path name : string) (kind : Kind).

Lemma reading_unit p u : reading path name kind p → started path name kind u →
  reading path name kind (p <| p_unit := u |>).
Proof. by intros [????] ?. Qed.

Lemma applyUnit_reading p e : reading path name kind p → reading path name kind (applyUnit p e).1.
Proof.
  intros Hp. assert (Hp' := Hp). destruct Hp' as [E1 E2 E3 Hu Es]. assert (Hu' := Hu).
  destruct Hu' as [U1 U2 U3 U4 U5 U6 U7 U8 U9 U10 U11]. rewrite !Forall_app in U5. destruct U5 as (N1 & N2 & N3 & N4 & N5 & N6).
  assert (∀ l, reading path name kind (p <| p_formatLine := l |>)) as Hline by (intros l; by split).
  unfold applyUnit. cbv zeta.
  repeat match goal with
  | |- context [decide (key e = _)] => destruct (decide (key e = _)) as [_|_]
  end; rewrite ?fst_also; try done;
    try (apply reading_unit; [done|]; split; try done; rewrite ?Forall_app; split_and!; try done; by apply applyList_names).
  - destruct (formatVersion (value e)) as [v|] eqn:E.
    + apply (reading_unit (p <| p_formatLine := line e |>)); [done|]. split; try done.
      * by eapply formatVersion_known.
      * by rewrite !Forall_app.
    + rewrite fst_also. done.
Qed.

Lemma applyInstall_reading p e : reading path name kind p → reading path name kind (applyInstall p e).1.
Proof.
  intros Hp. assert (Hp' := Hp). destruct Hp' as [E1 E2 E3 [] Es].
  unfold applyInstall. case_decide; [|done]. case_decide.
  - apply reading_unit; [done|]. by split.
  - rewrite fst_also. apply reading_unit; [done|]. split; try done. cbn. by apply apply_wanted_names, st_wanted0; apply normalized_names.
Qed.

Lemma apply_reading p section e : line e ≠ 0 → reading path name kind p →
  reading path name kind (apply p section e).1.
Proof.
  intros Hl Hp. unfold apply.
  repeat match goal with |- context [decide (section = _)] => destruct (decide (section = _)) as [_|_] end;
    [by apply applyUnit_reading|rewrite fst_also|..|by apply applyInstall_reading|done].
  all: destruct Hp as [E1 E2 E3 Hu Es]; split; try done.
  cbn. apply applyService_valid; [done|]. destruct (p_svc p); [done|apply new_builder_valid].
Qed.

Lemma apply_entries_reading sec known es p : Forall (λ e, line e ≠ 0) es → reading path name kind p →
  reading path name kind (apply_entries sec known es p).1.
Proof.
  intros Hes. revert p. induction Hes as [|e es Hl _ IH]; intros p Hp; [done|]. cbn [apply_entries].
  case_decide; rewrite fst_also; apply IH; [by apply apply_reading|done].
Qed.

Lemma apply_section_reading p sec : Forall (λ e, line e ≠ 0) (entries sec) → reading path name kind p →
  reading path name kind (apply_section p sec).1.
Proof.
  intros Hes Hp. unfold apply_section. cbv zeta. rewrite fst_also.
  destruct (knownDirectives !! sec_name sec); [|by rewrite fst_also]. apply apply_entries_reading; [done|].
  unfold open_section. destruct Hp. repeat case_decide; by split.
Qed.

Lemma apply_sections_reading p secs : Forall (λ sec, Forall (λ e, line e ≠ 0) (entries sec)) secs →
  reading path name kind p → reading path name kind (apply_sections p secs).1.
Proof.
  intros Hs. revert p. induction Hs as [|sec secs Hl _ IH]; intros p Hp; [done|]. cbn [apply_sections].
  rewrite fst_also. apply IH. by apply apply_section_reading.
Qed.

Lemma new_parser_reading stat : reading path name kind (new_parser path name kind stat).
Proof. split; try done. split; try done. cbn. by left. Qed.
End invariant.
End entries.

(** ** Whole files *)

Section accepted.
Context {UC : UnicodeCase} {FC : FloatConversion} {NU : NetURL}.
Context (os_Stat : StatFunc).

(** The section [o] of a unit is there, and valid, exactly for the kind it
    belongs to. *)
Definition section_for {A} (valid : A → Prop) (own : bool) (o : option A) : Prop :=
  if own then ∃ a, o = Some a ∧ valid a else o = None.

Record valid_unit (path name : string) (u : Unit) : Prop := {
  vu_name : Name u = NormalizeName name;
  vu_path : Path u = path;
  vu_kind : KindFromName name = Ok (UnitKind u);
  vu_version : FormatVersion u ∈ formatVersions;
  vu_names : Forall unit_name (Requires u ++ Wants u ++ BindsTo u ++ PartOf u ++ After u ++ Before u);
  vu_wanted : Forall link_name (WantedBy u);
  vu_interval : 0 ≤ StartLimitInterval u ≤ maxDuration;
  vu_burst : 0 ≤ StartLimitBurst u < 2 ^ 63;
  vu_service : section_for (valid_service (FormatVersion u)) (bool_decide (UnitKind u = KindService)) (Service u);
  vu_timer : section_for valid_timer (bool_decide (UnitKind u = KindTimer)) (Timer u);
  vu_registry : section_for valid_registry (bool_decide (UnitKind u = KindRegistry)) (Registry u);
  vu_eventlog : section_for valid_eventlog (bool_decide (UnitKind u = KindEventLog)) (EventLog u);
  vu_pathwatch : section_for (valid_path (FormatVersion u)) (bool_decide (UnitKind u = KindPath)) (PathWatch u);
}.

Lemma finishInteractiveSession_yields p u u' : yields (finishInteractiveSession p u) u' →
  ∃ b, u' = u <| RequiresInteractiveSession := b |>.
Proof.
  unfold finishInteractiveSession. intros H. branch H; subst; eauto.
  exists (RequiresInteractiveSession u). by destruct u.
Qed.

Lemma finishStartLimit_yields p u u' : yields (finishStartLimit p u) u' →
  ∃ i n, u' = u <| StartLimitInterval := i |> <| StartLimitBurst := n |> ∧ 0 ≤ i ≤ maxDuration ∧ 0 ≤ n < 2 ^ 63.
Proof.
  unfold finishStartLimit. cbv zeta. intros H. apply yields_also in H as (u1 & H1 & H).
  assert (∃ i, u1 = u <| StartLimitInterval := i |> <| StartLimitBurst := DefaultStartLimitBurst |> ∧
               0 ≤ i ≤ maxDuration) as (i & -> & Hi).
  { branch H1; subst; eexists; (split; [reflexivity|]); [by unfold DefaultStartLimitInterval, maxDuration|].
    by eapply ParseDuration_range. }
  exists i. branch H; subst; eexists; (split; [reflexivity|]); (split; [done|]).
  - by unfold DefaultStartLimitBurst.
  - by eapply parseStartLimitBurst_range.
Qed.

(** The second pass fills the section of the unit's kind. *)
Lemma finish_valid path name kind p u : KindFromName name = Ok kind →
  reading path (NormalizeName name) kind p → yields (finish os_Stat p) u → valid_unit path name u.
Proof.
  intros Hk [_ _ Hkind Hu Hb] H. unfold finish in H. cbv zeta in H. rewrite Hkind in H.
  apply yields_also in H as (u1 & H1 & H). apply yields_also in H as (u2 & H2 & H).
  apply finishInteractiveSession_yields in H2 as [b ->].
  apply finishStartLimit_yields in H as (i & n & -> & Hi & Hn).
  destruct Hu as [U1 U2 U3 U4 U5 U6 U7 U8 U9 U10 U11].
  repeat match type of H1 with
  | yields (if decide (kind = ?k) then _ else _) _ =>
    destruct (decide (kind = k)) as [->|?];
    [apply yields_also in H1 as (spec & Hs & H1); rewrite yields_keep in H1; subst u1|]
  end; [..|rewrite yields_keep in H1; subst u1].
  all: split; cbn; rewrite ?U3, ?U7, ?U8, ?U9, ?U10, ?U11; try done.
  all: rewrite ?bool_decide_eq_false_2 by done; try done.
  all: eexists; split; [done|].
  - by apply finishService_valid in Hs.
  - by apply finishTimer_valid in Hs.
  - by apply finishRegistry_valid in Hs.
  - by apply finishEventLog_valid in Hs.
  - by apply finishPath_valid in Hs.
Qed.

(** Entries have a line. *)
Lemma parseINI_has_lines path src :
  Forall (λ sec, Forall (λ e, line e ≠ 0) (entries sec)) (parseINI src path).1.
Proof.
  destruct (parseINI_lines path src) as [Hl _]. eapply Forall_impl; [exact Hl|].
  intros sec [_ Hes]. eapply Forall_impl; [exact Hes|]. cbn. lia.
Qed.

(** C9: a unit file that is read without errors describes a valid unit: its
    name is the normalized name of the file and its kind the one of the file's
    suffix, the format version is supported, every dependency is a normalized
    unit name and every [WantedBy=] name may be linked, the start limit is in
    range, and the unit has the section of its kind and no other, and that
    section is valid: for a service the type, command, restart policy,
    timeouts, limits, probes and watchdog fit together; for a timer there is a
    trigger, at most 64 well-formed calendar expressions and a unit to start;
    registry, event log and path units have a trigger and well-formed ones
    only. *)
Theorem parseReport_valid path name src stat u :
  ReportUnit (parseReport os_Stat path name src stat) = Some u →
  HasError (Issues (parseReport os_Stat path name src stat)) = false →
  valid_unit path name u.
Proof.
  unfold parseReport. destruct (KindFromName name) as [kind|] eqn:Hk; [|done].
  destruct (parse_unit os_Stat path name src kind stat) as [u' iss] eqn:Hp. cbn. intros [= ->] Hc.
  assert (yields (parse_unit os_Stat path name src kind stat) u) as H by by rewrite Hp.
  unfold parse_unit in H. apply yields_also in H as (doc & [_ Hdoc] & H).
  apply yields_also in H as (p & [_ Hsec] & H). subst.
  eapply finish_valid; [done| |done]. apply apply_sections_reading; [apply parseINI_has_lines|apply new_parser_reading].
Qed.

(** The section belongs to the kind, and its directives to the section. *)
Definition known_section (kind : Kind) (sec : iniSection) : Prop :=
  sec_name sec ∈ sectionsByKind kind ∧
  ∃ known, knownDirectives !! sec_name sec = Some known ∧ Forall (λ e, key e ∈ known) (entries sec).

Lemma apply_entries_known sec known es p : clean (apply_entries sec known es p) → Forall (λ e, key e ∈ known) es.
Proof.
  revert p. induction es as [|e es IH]; intros p H; [done|]. cbn [apply_entries] in H.
  case_decide; [|by apply clean_also in H as [? _]]. apply clean_also in H as [_ H]. constructor; [done|by eapply IH].
Qed.

Lemma sectionsByKind_known kind sec : sec ∈ sectionsByKind kind → is_Some (knownDirectives !! sec).
Proof.
  unfold sectionsByKind. intros H.
  assert (sec ∈ ["Unit"; "Service"; "Timer"; "Registry"; "EventLog"; "Path"; "Install"]) as Hin.
  { repeat case_decide; revert H; rewrite !elem_of_cons, ?elem_of_nil; tauto. }
  clear H. repeat (apply elem_of_cons in Hin as [->|Hin]; [apply (bool_decide_unpack _); by vm_compute|]). by apply not_elem_of_nil in Hin.
Qed.

Lemma apply_section_known p sec : clean (apply_section p sec) → known_section (p_kind p) sec.
Proof.
  unfold apply_section. cbv zeta. intros [H1 H2]%clean_also.
  destruct (decide (sec_name sec ∈ sectionsByKind (p_kind p))) as [Hin|]; [|by case_decide].
  split; [done|]. destruct (sectionsByKind_known _ _ Hin) as [known Hk]. rewrite Hk in H2.
  exists known. split; [done|]. by eapply apply_entries_known.
Qed.

Lemma apply_sections_known path name kind p secs : Forall (λ sec, Forall (λ e, line e ≠ 0) (entries sec)) secs →
  reading path name kind p → clean (apply_sections p secs) → Forall (known_section kind) secs.
Proof.
  intros Hs. revert p. induction Hs as [|sec secs Hl _ IH]; intros p Hp H; [done|]. cbn [apply_sections] in H.
  apply clean_also in H as [H1 H2]. constructor.
  - rewrite <-(rd_kind _ _ _ _ Hp). by apply apply_section_known.
  - eapply IH; [|exact H2]. by apply apply_section_reading.
Qed.

(** C23: a unit file with an unknown section or directive is refused.  When a report has no
    errors, every line of the file was read without an error, every section belongs
    to the kind of the unit, and every directive is one of those of its section.
    (A known directive that does not apply, such as [ExecStart=] for [Type=scm], is
    accepted with a warning.) *)
Theorem parseReport_known path name src stat kind :
  KindFromName name = Ok kind →
  HasError (Issues (parseReport os_Stat path name src stat)) = false →
  HasError (parseINI src path).2 = false ∧ Forall (known_section kind) (parseINI src path).1.
Proof.
  intros Hk. unfold parseReport. rewrite Hk.
  destruct (parse_unit os_Stat path name src kind stat) as [u iss] eqn:Hp. cbn. intros Hc.
  assert (clean (parse_unit os_Stat path name src kind stat)) as H by by rewrite Hp.
  unfold parse_unit in H. apply clean_also in H as [Hl H]. apply clean_also in H as [H _]. split; [exact Hl|].
  eapply apply_sections_known; [apply parseINI_has_lines|apply (new_parser_reading path (NormalizeName name))|exact H].
Qed.
End accepted.

(** ** An example: a service that answers on its port. *)

Definition text (ls : list string) : string := str (concat ((λ l, bytes l ++ [LF]) <$> ls)).
Definition example_source : string := text [
  "[Unit]"; "FormatVersion=2"; "After=Network.target db"; "StartLimitIntervalSec=1min 30s"; "";
  "[Service]"; "ExecStart=C:\srv\app.exe --port 8080"; "WorkingDirectory=C:\srv"; "Environment=MODE=prod";
  "Restart=on-failure"; "RestartSec=2s"; "RestartBackoff=exponential"; "RestartMaxDelaySec=1min";
  "WatchdogSec=30s"; "WatchdogMode=tcp"; "WatchdogEndpoint=localhost:8080"; "MemoryMax=512M"; "";
  "[Install]"; "WantedBy=default.target"].

(** No URL is read in the example. *)
Definition no_urls : NetURL := {| url_Parse _ := None; url_String := Host |}.
Definition example_report : Report :=
  parseReport (NU := no_urls) (λ _, None) "C:\units\App.service" "App.service" example_source None.
Definition example_unit : Unit := default (new_Unit "" "" KindService) (ReportUnit example_report).

Lemma parseReport_valid_witness :
  Service example_unit <> None ∧ valid_unit (NU := no_urls) "C:\units\App.service" "App.service" example_unit.
Proof.
  split; [by vm_compute|].
  apply (parseReport_valid (NU := no_urls) (λ _, None) "C:\units\App.service" "App.service" example_source None example_unit);
    by vm_compute.
Defined.

Lemma parseReport_known_witness :
  HasError (parseINI example_source "C:\units\App.service").2 = false ∧
  Forall (known_section KindService) (parseINI example_source "C:\units\App.service").1.
Proof.
  apply (parseReport_known (NU := no_urls) (λ _, None) "C:\units\App.service" "App.service" example_source None);
    by vm_compute.
Defined.
