(* ===== verification/UnitLines.v ===== *)
(** * Where the unit parser reports

    Every issue of a report names the file, and a line that the file has or 0
    for the file as a whole. *)

From S2P Require Import Prelude GoStrings GoText GoFloat GoNet Calendar UnitTypes UnitNames UnitReport UnitDuration UnitExec UnitEndpoints UnitLimits Triggers UnitIni UnitParse UnitFinish UnitFile.
From Stdlib Require Import Ascii.

#[local] Open Scope Z_scope.
#[local] Open Scope unit_scope.

Create HintDb lines.

(** The located values of the builders. *)
Definition service_values (s : serviceBuilder) : list located :=
  [s_readinessMode s; s_readinessEndpoint s; s_readinessStatus s; s_readinessInterval s; s_readinessTimeout s;
   s_remainAfterExit s; s_typ s; s_exec s; s_execStop s; s_wd s; s_restart s; s_restartSec s; s_restartBackoff s;
   s_user s; s_restartMaxDelay s; s_timeoutStart s; s_timeoutStop s; s_serviceName s; s_taskName s; s_notifyAccess s;
   s_watchdogSec s; s_watchdogGrace s; s_watchdogTimeout s; s_watchdogThreshold s; s_watchdogMode s; s_watchdogEP s;
   s_watchdogStat s; s_memoryMax s; s_processLimit s; s_priorityClass s; s_windowsCPUWeight s; s_windowsCPUQuota s;
   s_cpuWeight s; s_cpuQuota s; s_ioPriority s].
Definition timer_values (t : timerBuilder) : list located :=
  [t_onBoot t; t_onStartup t; t_onUnitActive t; t_persistent t; t_unit t] ++ t_calendars t.
Definition path_values (h : pathBuilder) : list located := h_changed h ++ h_exists h.

Definition parser_values (p : parser) : list located :=
  from_option service_values [] (p_svc p) ++ from_option timer_values [] (p_timer p) ++
  default [] (p_reg p) ++ default [] (p_evt p) ++ from_option path_values [] (p_pth p) ++
  [p_ris p; p_startLimitInterval p; p_startLimitBurst p].

Section lines.
Context {UC : UnicodeCase} {FC : FloatConversion} {NU : NetURL}.
Context (os_Stat : StatFunc) (P : Z → Prop) (HP0 : P 0).

Notation on_line := (λ l, P (ln l)).
Notation reports p c := (issues_all (placed (p_path p) P) c).

Lemma reports_keep {A} path (a : A) : issues_all (placed path P) (keep a).
Proof. constructor. Qed.
Lemma reports_error_at path l m : P l → issues_all (placed path P) (error_at path l m).
Proof. by repeat constructor. Qed.
Lemma reports_errorf p l m : P l → reports p (errorf p l m).
Proof. apply reports_error_at. Qed.
Lemma reports_warnf p l m : P l → reports p (warnf p l m).
Proof. by repeat constructor. Qed.
Lemma reports_error_if b p l m : P l → reports p (error_if b p l m).
Proof. destruct b; [apply reports_errorf|intros _; apply reports_keep]. Qed.
Lemma reports_warn_if b p l m : P l → reports p (warn_if b p l m).
Proof. destruct b; [apply reports_warnf|intros _; apply reports_keep]. Qed.
Lemma reports_read_field {A} p l (parse : string → result A) msg set spec :
  P (ln l) → reports p (read_field p l parse msg set spec).
Proof.
  intros Hl. unfold read_field. case_decide; [apply reports_keep|]. case_match; [apply reports_keep|].
  apply issues_all_also; [by apply reports_errorf|apply reports_keep].
Qed.

(** ** Services *)

Section service.
Context (p : parser) (s : serviceBuilder) (Hs : Forall on_line (service_values s)).

Lemma service_line l : l ∈ service_values s → P (ln l).
Proof. intros Hl. by eapply (proj1 (Forall_forall _ _)) in Hs. Qed.

Ltac value_line := apply service_line; unfold service_values; repeat first [left|right].
Ltac place :=
  cbv zeta;
  repeat first
  [ apply reports_keep
  | apply reports_errorf | apply reports_warnf | apply reports_error_if | apply reports_warn_if
  | apply reports_read_field
  | solve [auto with lines nocore]
  | exact HP0
  | solve [value_line]
  | apply issues_all_also
  | match goal with
    | |- issues_all _ (match ?x with _ => _ end) => destruct x
    | |- P (if ?b then _ else _) => destruct b
    end ].

Lemma finish_type_reports spec : reports p (finish_type p s spec).
Proof. unfold finish_type. place. Qed.
Lemma finish_remain_reports spec : reports p (finish_remain p s spec).
Proof. unfold finish_remain. place. Qed.
Lemma finish_service_name_reports spec : reports p (finish_service_name p s spec).
Proof. unfold finish_service_name. place. Qed.
Lemma finish_task_name_reports spec : reports p (finish_task_name p s spec).
Proof. unfold finish_task_name. place. Qed.
Lemma finish_exec_reports spec : reports p (finish_exec os_Stat p s spec).
Proof. unfold finish_exec, finish_exec_start, finish_working_directory. place. Qed.
Lemma finish_exec_stop_reports spec : reports p (finish_exec_stop os_Stat p s spec).
Proof. unfold finish_exec_stop. place. Qed.
Lemma finish_restart_reports spec : reports p (finish_restart p s spec).
Proof. unfold finish_restart. place. Qed.
Lemma finishRestartBackoff_reports spec : reports p (finishRestartBackoff p s spec).
Proof. unfold finishRestartBackoff. place. Qed.
Lemma finishUser_reports spec : reports p (finishUser p s spec).
Proof. unfold finishUser. place. Qed.
Lemma check_stop_timeout_reports spec : reports p (check_stop_timeout p s spec).
Proof. unfold check_stop_timeout. place. Qed.
Lemma finishWindowsCPU_reports spec : reports p (finishWindowsCPU p s spec).
Proof. unfold finishWindowsCPU. place. Qed.
Lemma check_cpu_reports spec : reports p (check_cpu p s spec).
Proof. unfold check_cpu. place. Qed.
Lemma ignore_limits_reports spec : reports p (ignore_limits p s spec).
Proof. unfold ignore_limits, ignore_limit. place. Qed.
#[local] Hint Resolve finishWindowsCPU_reports check_cpu_reports ignore_limits_reports : lines.
Lemma finishJobLimits_reports spec : reports p (finishJobLimits p s spec).
Proof.
  unfold finishJobLimits, read_memory, read_process_limit, read_priority, read_cpu_weight, read_cpu_quota, read_io_priority.
  place.
Qed.
Lemma finish_readiness_endpoint_reports spec : reports p (finish_readiness_endpoint p s spec).
Proof. unfold finish_readiness_endpoint. place. Qed.
Lemma finish_readiness_status_reports spec : reports p (finish_readiness_status p s spec).
Proof. unfold finish_readiness_status. place. Qed.
Lemma finish_readiness_duration_reports n l set spec : P (ln l) → reports p (finish_readiness_duration p n l set spec).
Proof. intros Hl. unfold finish_readiness_duration. place; exact Hl. Qed.
#[local] Hint Resolve finish_readiness_endpoint_reports finish_readiness_status_reports : lines.
Lemma finishReadiness_reports spec : reports p (finishReadiness p s spec).
Proof.
  unfold finishReadiness. place; apply finish_readiness_duration_reports; value_line.
Qed.
Lemma finish_watchdog_mode_reports spec : reports p (finish_watchdog_mode p s spec).
Proof. unfold finish_watchdog_mode. place. Qed.
Lemma check_watchdog_reports ep spec : reports p (check_watchdog p s ep spec).
Proof. unfold check_watchdog, first_line. place. Qed.
Lemma finish_watchdog_endpoint_reports ep spec : reports p (finish_watchdog_endpoint p s ep spec).
Proof. unfold finish_watchdog_endpoint. place. Qed.
Lemma finish_watchdog_status_reports spec : reports p (finish_watchdog_status p s spec).
Proof. unfold finish_watchdog_status. place. Qed.
#[local] Hint Resolve finish_watchdog_mode_reports check_watchdog_reports finish_watchdog_endpoint_reports
  finish_watchdog_status_reports : lines.
Lemma finishWatchdog_reports spec : reports p (finishWatchdog p s spec).
Proof. unfold finishWatchdog. place. Qed.
Lemma finishWatchdogPolicy_reports spec : reports p (finishWatchdogPolicy p s spec).
Proof. unfold finishWatchdogPolicy, finish_grace, finish_probe_timeout, finish_threshold. place. Qed.
#[local] Hint Resolve finishWatchdog_reports finishWatchdogPolicy_reports : lines.
Lemma finish_external_reports spec : reports p (finish_external p s spec).
Proof. unfold finish_external. place. Qed.
Lemma finish_managed_reports spec : reports p (finish_managed p s spec).
Proof. unfold finish_managed, finish_notify_access, finish_watchdog_sec. place. Qed.
#[local] Hint Resolve finish_type_reports finish_remain_reports finish_service_name_reports finish_task_name_reports
  finish_exec_reports finish_exec_stop_reports finish_restart_reports finishRestartBackoff_reports finishUser_reports
  finishJobLimits_reports check_stop_timeout_reports finishReadiness_reports finish_external_reports
  finish_managed_reports : lines.
Lemma finishService_reports : p_svc p = Some s → reports p (finishService os_Stat p).
Proof.
  intros E. unfold finishService, finish_restart_sec, finish_timeout_start, finish_timeout_stop. rewrite E. place.
Qed.
End service.

(** ** Timers, triggers and the unit *)

Ltac place :=
  cbv zeta;
  repeat first
  [ apply reports_keep
  | apply reports_errorf | apply reports_warnf | apply reports_error_at | apply reports_error_if
  | exact HP0 | assumption
  | apply issues_all_also
  | match goal with |- issues_all _ (match ?x with _ => _ end) => destruct x end ].

Lemma collect_reports {A} p ls empty wrap (parse : string → result A) : Forall on_line ls →
  reports p (collect p ls empty wrap parse).
Proof. induction 1 as [|l ls Hl _ IH]; cbn [collect]; place. Qed.

Lemma finish_calendars_reports p i ls : Forall on_line ls → reports p (finish_calendars p i ls).
Proof.
  intros Hls. revert i. induction Hls as [|l ls Hl _ IH]; intros i; cbn [finish_calendars]; place; apply IH.
Qed.

Lemma finishTimer_reports p : Forall on_line (from_option timer_values [] (p_timer p)) → reports p (finishTimer p).
Proof.
  intros Ht. unfold finishTimer. cbv zeta. destruct (p_timer p) as [t|]; [|place].
  cbn in Ht. rewrite !Forall_cons in Ht. destruct Ht as (H1 & H2 & H3 & H4 & H5 & Hc).
  unfold parseTimerDuration, finish_persistent, finish_timer_unit. place. by apply finish_calendars_reports.
Qed.

Lemma finishRegistry_reports p : Forall on_line (default [] (p_reg p)) → reports p (finishRegistry p).
Proof. intros Hr. unfold finishRegistry. destruct (p_reg p); place. by apply collect_reports. Qed.
Lemma finishEventLog_reports p : Forall on_line (default [] (p_evt p)) → reports p (finishEventLog p).
Proof. intros Hr. unfold finishEventLog. destruct (p_evt p); place. by apply collect_reports. Qed.
Lemma finishPath_reports p : Forall on_line (from_option path_values [] (p_pth p)) → reports p (finishPath p).
Proof.
  intros Hr. unfold finishPath. destruct (p_pth p) as [h|]; [|place]. apply Forall_app in Hr as [Hc He].
  place; by apply collect_reports.
Qed.

(** The lines of all values of the parser. *)
Definition lined (p : parser) : Prop := Forall on_line (parser_values p).

Lemma lined_parts p : lined p ↔
  Forall on_line (from_option service_values [] (p_svc p)) ∧ Forall on_line (from_option timer_values [] (p_timer p)) ∧
  Forall on_line (default [] (p_reg p)) ∧ Forall on_line (default [] (p_evt p)) ∧
  Forall on_line (from_option path_values [] (p_pth p)) ∧
  on_line (p_ris p) ∧ on_line (p_startLimitInterval p) ∧ on_line (p_startLimitBurst p).
Proof. unfold lined, parser_values. rewrite !Forall_app, !Forall_cons, Forall_nil. tauto. Qed.

Lemma finish_reports p : lined p → reports p (finish os_Stat p).
Proof.
  intros (Hs & Ht & Hr & He & Hh & H1 & H2 & H3)%lined_parts. unfold finish, finishInteractiveSession, finishStartLimit. place.
  - destruct (p_svc p) as [s|] eqn:E; [by eapply finishService_reports|]. unfold finishService. rewrite E. place.
  - by apply finishTimer_reports.
  - by apply finishRegistry_reports.
  - by apply finishEventLog_reports.
  - by apply finishPath_reports.
Qed.

(** ** Entries *)

Lemma applyService_values path s e : P (line e) → Forall on_line (service_values s) →
  Forall on_line (service_values (applyService path s e).1).
Proof.
  intros He Hs. assert (Hs' := Hs). unfold service_values in Hs'. rewrite !Forall_cons in Hs'. destruct_and! Hs'.
  unfold applyService. cbv zeta.
  repeat match goal with
  | |- context [decide (key e = _)] =>
    destruct (decide (key e = _)) as [_|_];
    [rewrite ?fst_also; first [exact Hs|unfold service_values; repeat (apply Forall_cons; split; [assumption|]); apply Forall_nil; exact I|idtac]|]
  end; [..|done].
  - case_decide; [exact Hs|]. destruct (parseEnvironment (value e)); [exact Hs|done].
  - destruct (negb _); [done|]. unfold service_values. repeat (apply Forall_cons; split; [assumption|]). by apply Forall_nil.
Qed.

Lemma applyService_reports path s e : P (line e) → issues_all (placed path P) (applyService path s e).
Proof.
  intros He. unfold applyService. cbv zeta.
  repeat match goal with
  | |- issues_all _ (if decide _ then _ else _) => case_decide; [place|]
  end. place.
Qed.

Lemma applyUnit_lined p e : P (line e) → lined p →
  lined (applyUnit p e).1 ∧ p_path (applyUnit p e).1 = p_path p ∧ reports p (applyUnit p e).
Proof.
  intros He Hp. assert (Hp' := Hp). apply lined_parts in Hp' as (Hs & Ht & Hr & Hv & Hh & H1 & H2 & H3).
  unfold applyUnit. cbv zeta. case_decide.
  - rewrite !fst_also. split_and!; [..|place].
    + destruct (formatVersion (value e)); rewrite ?fst_also; by apply lined_parts.
    + destruct (formatVersion (value e)); by rewrite ?fst_also.
  - repeat case_decide; (split_and!; [|done|apply reports_keep]); try done; by apply lined_parts.
Qed.

Lemma apply_wanted_reports path l ns cur : P l → issues_all (placed path P) (apply_wanted path l ns cur).
Proof. intros Hl. revert cur. induction ns; intros cur; cbn [apply_wanted]; place; auto. Qed.

Lemma applyInstall_lined p e : P (line e) → lined p →
  lined (applyInstall p e).1 ∧ p_path (applyInstall p e).1 = p_path p ∧ reports p (applyInstall p e).
Proof.
  intros He Hp. unfold applyInstall. repeat case_decide; rewrite ?fst_also; (split_and!; [done|done|place]).
  by apply apply_wanted_reports.
Qed.

Lemma timer_entry t e : P (line e) → Forall on_line (timer_values t) → Forall on_line (timer_values (applyTimer t e)).
Proof.
  intros He. unfold timer_values. rewrite Forall_app, !Forall_cons. intros [(H1 & H2 & H3 & H4 & H5 & _) Hc].
  unfold applyTimer. cbv zeta. repeat case_decide; cbn; rewrite ?Forall_cons, ?Forall_app, ?Forall_cons; by split_and!.
Qed.

Lemma path_entry h e : P (line e) → Forall on_line (path_values h) → Forall on_line (path_values (applyPath h e)).
Proof.
  intros He. unfold path_values. rewrite Forall_app. intros [H1 H2].
  unfold applyPath. cbv zeta. repeat case_decide; cbn; rewrite !Forall_app, ?Forall_cons; by split_and!.
Qed.

Lemma apply_lined p sec e : P (line e) → lined p →
  lined (apply p sec e).1 ∧ p_path (apply p sec e).1 = p_path p ∧ reports p (apply p sec e).
Proof.
  intros He Hp. assert (Hp' := Hp). apply lined_parts in Hp' as (Hs & Ht & Hr & Hv & Hh & H1 & H2 & H3). unfold apply.
  repeat match goal with |- context [decide (sec = _)] => destruct (decide (sec = _)) as [_|_] end;
    [by apply applyUnit_lined|rewrite fst_also; split_and!; [|done|place; by apply applyService_reports]
    |split_and!; [|done|apply reports_keep]..|by apply applyInstall_lined|split_and!; [done|done|apply reports_keep]].
  all: apply lined_parts; split_and!; try done; cbn.
  - apply applyService_values; [done|]. destruct (p_svc p); [done|]. by repeat constructor.
  - apply timer_entry; [done|]. destruct (p_timer p); [done|]. by repeat constructor.
  - unfold applyRegistry. case_decide; [|done]. apply Forall_app. split; [done|]. by repeat constructor.
  - unfold applyEventLog. case_decide; [|done]. apply Forall_app. split; [done|]. by repeat constructor.
  - apply path_entry; [done|]. destruct (p_pth p); [done|]. by repeat constructor.
Qed.

(** ** Sections *)

(** What the first pass keeps: the path, and that every line satisfies [P]. *)
Definition passes (p : parser) (c : reported parser) : Prop := lined c.1 ∧ p_path c.1 = p_path p ∧ reports p c.

Lemma passes_keep p : lined p → passes p (keep p).
Proof. intros Hp. split_and!; [done|done|apply reports_keep]. Qed.
Lemma passes_after p (c : reported unit) k : reports p c → passes p (k ()) → passes p (also c k).
Proof.
  intros Hc (H1 & H2 & H3). unfold passes. rewrite fst_also. destruct c.1.
  split_and!; [done|done|]. by apply issues_all_also; destruct c as [[] iss].
Qed.
Lemma passes_also p c k : passes p c → (∀ q, lined q → passes q (k q)) → passes p (also c k).
Proof.
  intros (H1 & H2 & H3) Hk. destruct (Hk c.1 H1) as (K1 & K2 & K3). rewrite H2 in K2, K3.
  unfold passes. rewrite fst_also. split_and!; [done|done|]. by apply issues_all_also.
Qed.

Lemma apply_entries_passes sec known es p : Forall (λ e, P (line e)) es → lined p →
  passes p (apply_entries sec known es p).
Proof.
  intros Hes. revert p. induction Hes as [|e es He _ IH]; intros p Hp; cbn [apply_entries]; [by apply passes_keep|].
  case_decide.
  - apply passes_also; [by apply apply_lined|done].
  - apply passes_after; [by apply reports_errorf|by apply IH].
Qed.

Lemma unknown_entries_reports p sec es : Forall (λ e, P (line e)) es → reports p (unknown_entries p sec es).
Proof. induction 1; cbn [unknown_entries]; unfold unknown_directive; place. Qed.

Lemma open_section_lined p sec : lined p → lined (open_section p sec) ∧ p_path (open_section p sec) = p_path p.
Proof.
  intros Hp. assert (Hp' := Hp). apply lined_parts in Hp' as (Hs & Ht & Hr & Hv & Hh & H1 & H2 & H3).
  unfold open_section. repeat case_decide; (split; [|done]); try done; apply lined_parts; split_and!; try done.
  cbn. by destruct (p_pth p).
Qed.

Lemma apply_section_passes p sec : section_lines P sec → lined p → passes p (apply_section p sec).
Proof.
  intros [Hl Hes] Hp. unfold apply_section. cbv zeta. apply passes_after; [place|].
  destruct (knownDirectives !! sec_name sec) as [known|].
  - destruct (open_section_lined p (sec_name sec) Hp) as [Ho Hpath].
    destruct (apply_entries_passes (sec_name sec) known (entries sec) _ Hes Ho) as (H1 & H2 & H3).
    rewrite Hpath in H2, H3. done.
  - apply passes_after; [by apply unknown_entries_reports|by apply passes_keep].
Qed.

Lemma apply_sections_passes p secs : Forall (section_lines P) secs → lined p → passes p (apply_sections p secs).
Proof.
  intros Hs. revert p. induction Hs as [|sec secs Hl _ IH]; intros p Hp; cbn [apply_sections]; [by apply passes_keep|].
  apply passes_also; [by apply apply_section_passes|done].
Qed.
End lines.

(** every issue of a report names the file that was read, and a line of
    it, or 0 when the issue is about the file as a whole. *)
Theorem parseReport_lines `{!UnicodeCase, !FloatConversion, !NetURL} os_Stat path name src stat :
  Forall (placed path (λ k, 0 ≤ k ≤ Z.of_nat (length (splitLines (stripBOM src)))))
    (Issues (parseReport os_Stat path name src stat)).
Proof.
  set (P := λ k, 0 ≤ k ≤ _). assert (P 0) as HP0 by (unfold P; lia). unfold parseReport.
  destruct (KindFromName name) as [kind|]; [|by apply reports_error_at].
  destruct (parse_unit os_Stat path name src kind stat) as [u iss] eqn:E.
  change (issues_all (placed path P) (u, iss)). rewrite <-E. unfold parse_unit.
  destruct (parseINI_lines path src) as [Hl Hi]. apply issues_all_also.
  { eapply Forall_impl; [exact Hi|]. intros i [? ?]. split; [done|]. unfold P. lia. }
  destruct (apply_sections_passes P HP0 (new_parser path (NormalizeName name) kind stat) (parseINI src path).1)
    as (Hlined & Hpath & Hrep).
  - eapply Forall_impl; [exact Hl|]. intros sec [Hs He]. split; [unfold P; lia|].
    eapply Forall_impl; [exact He|]. cbn. unfold P. lia.
  - by apply lined_parts.
  - apply issues_all_also; [exact Hrep|]. change path with (p_path (new_parser path (NormalizeName name) kind stat)) at 1.
    rewrite <-Hpath. by apply finish_reports.
Qed.
