(* ===== verification/TimerSchedule.v ===== *)
(** * Timer schedules

    [internal/timers/schedule.go] and the readings of [internal/timers/clock.go]:
    the next deadline of a timer from its boot, startup, unit-active and calendar
    triggers, and what is recorded when one is consumed.

    An instant is its wall reading, a duration an integer of nanoseconds.  The
    functions of [Clock] are their readings at the moment of the call; a nil
    function is [None] and stands for the platform's reading. *)

From S2P Require Import Prelude GoStrings GoText GoTime Calendar CalendarSearch CalendarSpec CalendarTerm.

#[local] Open Scope Z_scope.
#[local] Strategy 1000 [civil day_number at_local Date date_of local AddDate civilAt monthEnd search].

(** ** Durations *)

(** [Time.Sub] saturates. *)
Definition Sub (t u : Z) : Z := Z.max min_duration (Z.min max_duration (t - u)).

(** ** Clocks *)

Record platform := { time_Now : Z; platformSinceBoot : Z }.
Record Clock := { Now : option Z; SinceBoot : option Z; SinceStart : option Z; Startup : Z }.

Section clock.
Variable host : platform.
Variable c : Clock.

Definition now : Z := default (time_Now host) (Now c).
Definition sinceBoot : Z := default (platformSinceBoot host) (SinceBoot c).
Definition startup : Z := if negb (IsZero (Startup c)) then Startup c else now.
Definition sinceStart : Z :=
  match SinceStart c with
  | Some d => if d <? 0 then 0 else d
  | None => let d := Sub now startup in if d <? 0 then 0 else d
  end.
End clock.

(** What [DefaultClock] reads: [boot0] is the time since boot at its creation. *)
Definition DefaultClock (created host : platform) : Clock := {|
  Now := Some (time_Now host);
  SinceBoot := Some (platformSinceBoot host);
  SinceStart := Some (let d := duration (platformSinceBoot host - platformSinceBoot created) in
                      if d <? 0 then 0 else d);
  Startup := time_Now created;
|}.

(** ** Timer units and their state *)

Record Spec := {
  ConfigRevision : string; SName : string; SUnit : string;
  OnBootSec : Z; OnStartupSec : Z; OnUnitActiveSec : Z;
  OnCalendar : list Calendar; Persistent : bool;
  OnBootSecSet : bool; OnStartupSecSet : bool; OnUnitActiveSecSet : bool;
}.

Record Activation := {
  ID : string; AUnit : string; Result : string; Scheduled : Z; Actual : Z;
}.
Definition no_activation : Activation :=
  {| ID := ""; AUnit := ""; Result := ""; Scheduled := zero_time; Actual := zero_time |}.

Record Runtime := {
  RActivation : Activation;
  LastScheduled : Z; LastActual : Z; LastSuccess : Z; LastUnitActive : Z;
  FiredBoot : bool; FiredStartup : bool;
}.
Definition zero_runtime : Runtime := {|
  RActivation := no_activation; LastScheduled := zero_time; LastActual := zero_time;
  LastSuccess := zero_time; LastUnitActive := zero_time; FiredBoot := false; FiredStartup := false |}.

#[global] Instance Calendar_eq_dec : EqDecision Calendar.
Proof. solve_decision. Defined.
#[global] Instance Spec_eq_dec : EqDecision Spec.
Proof. solve_decision. Defined.
#[global] Instance Activation_eq_dec : EqDecision Activation.
Proof. solve_decision. Defined.
#[global] Instance Runtime_eq_dec : EqDecision Runtime.
Proof. solve_decision. Defined.

(** ** Deadlines *)

Section schedule.
Variable loc : Location.
Variable host : platform.

Definition bootDue (spec : Spec) (clk : Clock) (t : Z) : Z :=
  let elapsed := sinceBoot host clk in
  if OnBootSec spec <=? elapsed then t else t + duration (OnBootSec spec - elapsed).
Definition startupDue (spec : Spec) (clk : Clock) (t : Z) : Z :=
  let elapsed := sinceStart host clk in
  if OnStartupSec spec <=? elapsed then t else t + duration (OnStartupSec spec - elapsed).

(** The outer [None] is a search that does not end. *)
Definition persistentCatchup (cal : Calendar) (rt : Runtime) (t : Z) : option (option Z) :=
  if IsZero (LastActual rt) then Some None
  else
    prev ← Previous loc cal t;
    Some (if IsZero prev || negb (LastActual rt <? prev) then None else Some t).

(** The variables [earliest], [found] and [wall] that [consider] updates. *)
Record deadlines := { earliest : Z; found : bool; wall : Z }.
Definition no_deadline : deadlines := {| earliest := zero_time; found := false; wall := zero_time |}.
Definition consider (now : Z) (d : deadlines) (t : Z) (wallBased : bool) : deadlines :=
  if IsZero t then d
  else
    let t := if t <? now then now else t in
    let d := if negb (found d) || (t <? earliest d)
             then {| earliest := t; found := true; wall := wall d |} else d in
    if wallBased && (IsZero (wall d) || (t <? wall d))
    then {| earliest := earliest d; found := found d; wall := t |} else d.

Definition consider_calendar (spec : Spec) (rt : Runtime) (now : Z) (d : deadlines) (cal : Calendar)
    : option deadlines :=
  catchup ← (if Persistent spec then persistentCatchup cal rt now else Some None);
  match catchup with
  | Some t => Some (consider now d t true)
  | None => t ← Next loc cal now; Some (consider now d t true)
  end.
Fixpoint consider_calendars (spec : Spec) (rt : Runtime) (now : Z) (d : deadlines) (cals : list Calendar)
    : option deadlines :=
  match cals with
  | [] => Some d
  | cal :: cals => d ← consider_calendar spec rt now d cal; consider_calendars spec rt now d cals
  end.

Definition nextDeadline (spec : Spec) (rt : Runtime) (clk : Clock) : option (Z * Z * bool) :=
  let t := now host clk in
  let d := no_deadline in
  let d := if OnBootSecSet spec && negb (FiredBoot rt) then consider t d (bootDue spec clk t) false else d in
  let d := if OnStartupSecSet spec && negb (FiredStartup rt)
           then consider t d (startupDue spec clk t) false else d in
  let d := if OnUnitActiveSecSet spec && negb (IsZero (LastUnitActive rt)) then
             let due := LastUnitActive rt + OnUnitActiveSec spec in
             if IsZero (LastActual rt) || (LastActual rt <? due) then consider t d due true else d
           else d in
  d ← consider_calendars spec rt t d (OnCalendar spec);
  Some (earliest d, wall d, found d).

Definition NextDeadline (spec : Spec) (rt : Runtime) (clk : Clock) : option (Z * bool) :=
  r ← nextDeadline spec rt clk; Some (r.1.1, r.2).

Definition fired (boot startup : bool) (scheduled actual : Z) (rt : Runtime) : Runtime := {|
  RActivation := RActivation rt; LastScheduled := scheduled; LastActual := actual;
  LastSuccess := LastSuccess rt; LastUnitActive := LastUnitActive rt;
  FiredBoot := boot; FiredStartup := startup |}.
Definition MarkFired (spec : Spec) (rt : Runtime) (clk : Clock) (scheduled actual : Z) : Runtime :=
  fired
    (if OnBootSecSet spec && negb (FiredBoot rt) && negb (actual <? bootDue spec clk actual)
     then true else FiredBoot rt)
    (if OnStartupSecSet spec && negb (FiredStartup rt) && negb (actual <? startupDue spec clk actual)
     then true else FiredStartup rt)
    scheduled actual rt.

End schedule.

(** ** Deadlines are the earliest trigger *)

Section deadlines.
Variable loc : Location.
Variable host : platform.

(** What one expression contributes. *)
Definition calendar_trigger (spec : Spec) (rt : Runtime) (t : Z) (cal : Calendar) : option Z :=
  catchup ← (if Persistent spec then persistentCatchup loc cal rt t else Some None);
  match catchup with Some t' => Some t' | None => Next loc cal t end.

Definition relative_triggers (spec : Spec) (rt : Runtime) (clk : Clock) : list (Z * bool) :=
  let t := now host clk in
  (if OnBootSecSet spec && negb (FiredBoot rt) then [(bootDue host spec clk t, false)] else []) ++
  (if OnStartupSecSet spec && negb (FiredStartup rt) then [(startupDue host spec clk t, false)] else []) ++
  (if OnUnitActiveSecSet spec && negb (IsZero (LastUnitActive rt)) &&
      (IsZero (LastActual rt) || (LastActual rt <? LastUnitActive rt + OnUnitActiveSec spec))
   then [(LastUnitActive rt + OnUnitActiveSec spec, true)] else []).

(** Every pending trigger with whether it follows the wall clock. *)
Definition triggers (spec : Spec) (rt : Runtime) (clk : Clock) : option (list (Z * bool)) :=
  cals ← mapM (calendar_trigger spec rt (now host clk)) (OnCalendar spec);
  Some (relative_triggers spec rt clk ++ ((λ t, (t, true)) <$> cals)).

(** [d] holds the least of the triggers [cs], and the least that follow the
    wall clock; a trigger in the past counts as due now, a zero one as absent. *)
Record best (t : Z) (cs : list (Z * bool)) (d : deadlines) : Prop := {
  best_found : found d = true ↔ ∃ x, x ∈ cs ∧ x.1 ≠ zero_time;
  best_least : ∀ x, x ∈ cs → x.1 ≠ zero_time → earliest d <= Z.max t x.1;
  best_from : found d = true → ∃ x, x ∈ cs ∧ x.1 ≠ zero_time ∧ earliest d = Z.max t x.1;
  best_wall_least : ∀ x, x ∈ cs → x.1 ≠ zero_time → x.2 = true → wall d ≠ zero_time ∧ wall d <= Z.max t x.1;
  best_wall_from : wall d ≠ zero_time → ∃ x, x ∈ cs ∧ x.1 ≠ zero_time ∧ x.2 = true ∧ wall d = Z.max t x.1;
}.

Lemma best_nil t : best t [] no_deadline.
Proof. split; simpl; try done; [split; [done|]|..]; by intros (? & ?%not_elem_of_nil & ?) || intros ? ?%not_elem_of_nil. Qed.

Lemma best_consider t cs d t' b : zero_time < t → best t cs d → best t (cs ++ [(t', b)]) (consider t d t' b).
Proof.
  intros Ht [Hf Hl Hfr Hwl Hwf]. unfold zero_time in *.
  assert (∀ (P : Z * bool → Prop), (∃ x, x ∈ cs ++ [(t', b)] ∧ P x) ↔ (∃ x, x ∈ cs ∧ P x) ∨ P (t', b)) as Hex.
  { intros P. set_solver. }
  assert (∀ (P : Z * bool → Prop), (∀ x, x ∈ cs ++ [(t', b)] → P x) ↔ (∀ x, x ∈ cs → P x) ∧ P (t', b)) as Hall.
  { intros P. set_solver. }
  unfold consider. unfold IsZero, zero_time. destruct (Z.eqb_spec t' 0) as [->|Hz].
  { split; rewrite ?Hex, ?Hall; simpl.
    - rewrite Hf. naive_solver.
    - by split.
    - naive_solver.
    - by split.
    - naive_solver. }
  assert ((if t' <? t then t else t') = Z.max t t') as -> by (destruct (Z.ltb_spec t' t); lia).
  set (m := Z.max t t'). assert (0 < m) by lia.
  set (d' := if negb (found d) || (m <? earliest d) then _ else d).
  assert (found d' = true ∧ wall d' = wall d ∧ (found d = true → earliest d' <= earliest d) ∧ earliest d' <= m ∧
    (earliest d' = m ∨ found d = true ∧ earliest d' = earliest d)) as (E1 & E2 & E3 & E4 & E5).
  { unfold d'. destruct (found d) eqn:Efd; simpl; [|repeat split; try done; simpl; lia || by left].
    destruct (Z.ltb_spec m (earliest d)); simpl; repeat split; try done; try lia; by left || by right. }
  set (d'' := if b && _ then _ else d').
  assert (found d'' = true ∧ earliest d'' = earliest d' ∧
    (b = true → wall d'' ≠ 0 ∧ wall d'' <= m ∧ (wall d ≠ 0 → wall d'' <= wall d) ∧
       (wall d'' = m ∨ wall d'' = wall d)) ∧ (b = false → wall d'' = wall d)) as (F1 & F2 & F3 & F4).
  { unfold d''. destruct b; simpl; [|by repeat split].
    destruct (Z.eqb_spec (wall d') 0) as [E|E]; simpl; [repeat split; simpl; try done; lia || by left|].
    destruct (Z.ltb_spec m (wall d')); simpl; repeat split; try done; lia || by left || by right. }
  clearbody d''. clearbody d'.
  split; rewrite ?Hex, ?Hall; simpl.
  - naive_solver.
  - rewrite F2. split; [|lia]. intros x Hx Hx0. specialize (Hl x Hx Hx0).
    assert (found d = true) by (apply Hf; eauto). specialize (E3 ltac:(done)). lia.
  - rewrite F2. intros _. destruct E5 as [->|[Hfd ->]]; [by right|left; by apply Hfr].
  - split.
    + intros x Hx Hx0 Hxb. destruct (Hwl x Hx Hx0 Hxb) as [? ?]. destruct b; [|by rewrite F4].
      destruct (F3 eq_refl) as (? & ? & Hle & _). specialize (Hle ltac:(done)). split; [done|lia].
    + intros _ ->. destruct (F3 eq_refl) as (? & ? & _). done.
  - intros Hw. destruct b; [|left; rewrite F4 in * by done; by apply Hwf].
    destruct (F3 eq_refl) as (? & ? & _ & [->|E]); [by right|left]. rewrite E in *. by apply Hwf.
Qed.

Lemma consider_calendar_trigger spec rt t d cal : consider_calendar loc spec rt t d cal =
  (t' ← calendar_trigger spec rt t cal; Some (consider t d t' true)).
Proof.
  unfold consider_calendar, calendar_trigger. by destruct (if Persistent spec then _ else _) as [[]|].
Qed.
Lemma best_calendars spec rt t cals cs d : zero_time < t → best t cs d →
  match mapM (calendar_trigger spec rt t) cals with
  | Some ts => ∃ d', consider_calendars loc spec rt t d cals = Some d' ∧
      best t (cs ++ ((λ t, (t, true)) <$> ts)) d'
  | None => consider_calendars loc spec rt t d cals = None
  end.
Proof.
  intros Ht. revert cs d. induction cals as [|cal cals IH]; intros cs d Hb; simpl.
  - exists d. by rewrite app_nil_r.
  - rewrite consider_calendar_trigger.
    assert (∀ t', match mapM (calendar_trigger spec rt t) cals with
      | Some ts => ∃ d', consider_calendars loc spec rt t (consider t d t' true) cals = Some d' ∧
          best t (cs ++ ((λ t, (t, true)) <$> (t' :: ts))) d'
      | None => consider_calendars loc spec rt t (consider t d t' true) cals = None end) as H.
    { intros t'. specialize (IH _ _ (best_consider t cs d t' true Ht Hb)).
      destruct (mapM _ cals) as [ts|]; [|done]. destruct IH as (d' & ? & Hd'). exists d'. split; [done|].
      by rewrite fmap_cons, cons_middle, app_assoc. }
    destruct (calendar_trigger spec rt t cal) as [t'|]; simpl; [|done].
    specialize (H t'). by destruct (mapM _ cals).
Qed.

Lemma nextDeadline_best spec rt clk : zero_time < now host clk →
  match triggers spec rt clk with
  | Some cs => ∃ d, nextDeadline loc host spec rt clk = Some (earliest d, wall d, found d) ∧
      best (now host clk) cs d
  | None => nextDeadline loc host spec rt clk = None
  end.
Proof.
  intros Ht. unfold triggers, nextDeadline, relative_triggers.
  set (d1 := if OnBootSecSet spec && _ then consider _ _ _ _ else _).
  set (d2 := if OnStartupSecSet spec && _ then consider _ _ _ _ else _).
  set (d3 := if OnUnitActiveSecSet spec && _ then _ else d2).
  set (cs1 := if OnBootSecSet spec && _ then [_] else []).
  set (cs2 := if OnStartupSecSet spec && _ then [_] else []).
  set (cs3 := if OnUnitActiveSecSet spec && _ && _ then [_] else []).
  assert (best (now host clk) cs1 d1) as H1.
  { unfold cs1, d1. destruct (OnBootSecSet spec && _); [apply (best_consider _ []); [done|]|]; apply best_nil. }
  assert (best (now host clk) (cs1 ++ cs2) d2) as H2.
  { unfold cs2, d2. clearbody cs1 d1. destruct (OnStartupSecSet spec && _); [by apply best_consider|by rewrite app_nil_r]. }
  assert (best (now host clk) (cs1 ++ cs2 ++ cs3) d3) as H3.
  { rewrite app_assoc. unfold cs3, d3. clearbody cs1 cs2 d2.
    destruct (OnUnitActiveSecSet spec && negb (IsZero (LastUnitActive rt))); simpl; [|by rewrite app_nil_r].
    destruct (_ || _); [by apply best_consider|by rewrite app_nil_r]. }
  clearbody d3. pose proof (best_calendars spec rt _ (OnCalendar spec) _ _ Ht H3) as H.
  destruct (mapM _ _) as [ts|]; simpl; [|by rewrite H]. destruct H as (d' & -> & ?). eauto.
Qed.

(** ** Schedules of parsed expressions *)

Definition plannable (spec : Spec) (clk : Clock) : Prop :=
  Forall well_formed (OnCalendar spec) ∧ zero_time < now host clk ∧ 50 <= year (date_of loc (now host clk)).

Lemma calendar_trigger_ends spec rt t cal : steady loc → well_formed cal → 50 <= year (date_of loc t) →
  ∃ r, calendar_trigger spec rt t cal = Some r.
Proof.
  intros Hloc Hc Hy. destruct (search_ends loc Hloc cal Hc t true Hy) as [prev Hp].
  destruct (search_ends loc Hloc cal Hc t false Hy) as [next Hn].
  unfold calendar_trigger, persistentCatchup, Previous, Next. rewrite Hp, Hn.
  clear Hp Hn. destruct (Persistent spec); [|by exists next].
  destruct (IsZero (LastActual rt)); [by exists next|]. cbn [mbind option_bind].
  destruct (_ || _); [by exists next|by exists t].
Qed.
Lemma triggers_total spec rt clk : steady loc → plannable spec clk → ∃ cs, triggers spec rt clk = Some cs.
Proof.
  intros Hloc (Hw & Ht & Hy). unfold triggers.
  assert (∃ ts, mapM (calendar_trigger spec rt (now host clk)) (OnCalendar spec) = Some ts) as [ts ->]; [|eauto].
  apply mapM_is_Some. eapply Forall_impl; [exact Hw|]. intros cal Hc. by apply calendar_trigger_ends.
Qed.

(** Nothing is due any more at the instant at which a deadline was consumed. *)
Lemma calendar_trigger_later spec rt t cal r : well_formed cal → LastActual rt = t → t ≠ zero_time →
  calendar_trigger spec rt t cal = Some r → r = zero_time ∨ t < r.
Proof.
  intros Hc Ha Hz. unfold calendar_trigger.
  assert ((if Persistent spec then persistentCatchup loc cal rt t else Some None) ≠ None →
    (if Persistent spec then persistentCatchup loc cal rt t else Some None) = Some None) as Hcatch.
  { destruct (Persistent spec); [|done]. unfold persistentCatchup. destruct (IsZero (LastActual rt)); [done|].
    destruct (Previous loc cal t) as [prev|] eqn:Ep; [|done]. intros _. simpl.
    apply search_sound in Ep as [->|[Hb _]]; [done| |done]. cbn [beyond] in Hb. apply Z.ltb_lt in Hb.
    rewrite Ha. destruct (Z.ltb_spec t prev); [lia|]. by rewrite orb_true_r. }
  destruct (if Persistent spec then _ else _) as [catchup|]; [|done].
  specialize (Hcatch ltac:(done)). simplify_eq. simpl. intros [?|[Hb _]]%search_sound; [by left| |done].
  right. by apply Z.ltb_lt in Hb.
Qed.
Lemma triggers_later spec rt clk scheduled cs x : plannable spec clk →
  let t := now host clk in
  triggers spec (MarkFired host spec rt clk scheduled t) clk = Some cs →
  x ∈ cs → x.1 ≠ zero_time → t < x.1.
Proof.
  intros (Hw & Ht & _) t. unfold triggers. fold t. destruct (mapM _ _) as [ts|] eqn:Em; [|done].
  simpl. intros <-%(inj Some) Hx Hz. rewrite !elem_of_app in Hx. fold t in Hx.
  destruct Hx as [Hx|Hx].
  - unfold relative_triggers in Hx. rewrite !elem_of_app in Hx. fold t in Hx. cbn [MarkFired fired FiredBoot FiredStartup LastActual LastUnitActive] in Hx.
    destruct Hx as [Hx|[Hx|Hx]].
    + destruct (OnBootSecSet spec); [|by apply not_elem_of_nil in Hx].
      destruct (FiredBoot rt); [by apply not_elem_of_nil in Hx|]. simpl in Hx.
      destruct (Z.ltb_spec t (bootDue host spec clk t)); simpl in Hx; [|by apply not_elem_of_nil in Hx].
      apply list_elem_of_singleton in Hx as ->. done.
    + destruct (OnStartupSecSet spec); [|by apply not_elem_of_nil in Hx].
      destruct (FiredStartup rt); [by apply not_elem_of_nil in Hx|]. simpl in Hx.
      destruct (Z.ltb_spec t (startupDue host spec clk t)); simpl in Hx; [|by apply not_elem_of_nil in Hx].
      apply list_elem_of_singleton in Hx as ->. done.
    + assert (IsZero t = false) as Et by (apply Z.eqb_neq; unfold zero_time in *; lia). rewrite Et in Hx.
      cbn [orb] in Hx. destruct (Z.ltb_spec t (LastUnitActive rt + OnUnitActiveSec spec)).
      2:{ rewrite andb_false_r in Hx. by apply not_elem_of_nil in Hx. }
      destruct (_ && _); [|by apply not_elem_of_nil in Hx].
      apply list_elem_of_singleton in Hx as ->. done.
  - apply list_elem_of_fmap in Hx as (r & -> & Hr). simpl in *.
    apply mapM_Some in Em. apply list_elem_of_lookup in Hr as [i Hi].
    destruct (Forall2_lookup_r _ _ _ _ _ Em Hi) as (cal & Hcal & Hct).
    rewrite Forall_lookup in Hw.
    destruct (calendar_trigger_later spec (MarkFired host spec rt clk scheduled t) t cal r (Hw _ _ Hcal) eq_refl
      ltac:(unfold zero_time in *; lia) Hct); [done|lia].
Qed.

(** C17: Planning a timer yields a result, and it is the earliest of the timer's
    pending triggers - boot, startup, unit-active and calendar ones with
    their catch-up - where a trigger in the past is due now; the wall deadline is
    the earliest of those that follow the wall clock.  The zone is one whose offsets
    stay within a day of UTC and differ by less than a day (so no day is skipped),
    the calendar expressions are well formed, as parsed ones are, and the clock
    shows year 50 or later. *)
Theorem nextDeadline_earliest spec rt clk : steady loc → plannable spec clk →
  ∃ next wl ok cs, nextDeadline loc host spec rt clk = Some (next, wl, ok) ∧
    triggers spec rt clk = Some cs ∧
    best (now host clk) cs {| earliest := next; found := ok; wall := wl |}.
Proof.
  intros Hloc Hp. destruct (triggers_total spec rt clk Hloc Hp) as [cs Hcs].
  destruct Hp as (_ & Ht & _). pose proof (nextDeadline_best spec rt clk Ht) as H. rewrite Hcs in H.
  destruct H as (d & Hd & Hb). exists (earliest d), (wall d), (found d), cs. split; [done|]. split; [done|].
  by destruct d.
Qed.

(** C19: Once a deadline has been consumed the timer moves on: whatever was
    due, the deadline planned right after it, at the same instant, lies strictly
    later, so an occurrence is not delivered twice.  The zone, the calendar
    expressions and the clock are as for planning: offsets within a day of UTC that
    differ by less than a day, well-formed expressions, year 50 or later. *)
Theorem consumed_moves_on spec rt clk scheduled : steady loc → plannable spec clk →
  ∃ next wl ok, nextDeadline loc host spec (MarkFired host spec rt clk scheduled (now host clk)) clk = Some (next, wl, ok) ∧
    (ok = true → now host clk < next) ∧ (wl ≠ zero_time → now host clk < wl).
Proof.
  intros Hloc Hp. set (rt' := MarkFired host spec rt clk scheduled (now host clk)).
  destruct (triggers_total spec rt' clk Hloc Hp) as [cs Hcs].
  pose proof (nextDeadline_best spec rt' clk ltac:(apply Hp)) as H. rewrite Hcs in H.
  destruct H as (d & Hd & Hb). exists (earliest d), (wall d), (found d). split; [done|].
  split; intros Hf; [destruct (best_from _ _ _ Hb Hf) as (x & Hx & Hz & ->)
    |destruct (best_wall_from _ _ _ Hb Hf) as (x & Hx & Hz & _ & ->)];
    pose proof (triggers_later spec rt clk scheduled cs x Hp Hcs Hx Hz); lia.
Qed.

End deadlines.

(** A timer with every kind of trigger in UTC, read five minutes after boot on
    2026-03-07. *)
Definition utc_zone : Location := fixed_zone 0.
Lemma utc_steady : steady utc_zone.
Proof. split; simpl; lia. Qed.
Definition noon : Z := Date utc_zone 2026 3 7 12 0 0 0.
Definition sample_host : platform := {| time_Now := noon; platformSinceBoot := 300 * second |}.
Definition sample_clock : Clock :=
  {| Now := None; SinceBoot := None; SinceStart := Some (60 * second); Startup := noon - 60 * second |}.
Definition nightly : Calendar := wildcard "*-*-* 03:00" 3 0 0.
Definition sample_timer : Spec := {|
  ConfigRevision := "1"; SName := "a.timer"; SUnit := "a.service";
  OnBootSec := 240 * second; OnStartupSec := 90 * second; OnUnitActiveSec := 600 * second;
  OnCalendar := [nightly]; Persistent := true;
  OnBootSecSet := true; OnStartupSecSet := true; OnUnitActiveSecSet := true |}.
Lemma nightly_well_formed : well_formed nightly.
Proof. by apply wildcard_ok. Qed.
Lemma sample_plannable : plannable utc_zone sample_host sample_timer sample_clock.
Proof.
  split; [apply Forall_cons_2; [apply nightly_well_formed|apply Forall_nil_2]|].
  split; apply (bool_decide_unpack _); vm_compute; exact I.
Qed.

(** The boot trigger is due at once. *)
Lemma nextDeadline_earliest_witness :
  nextDeadline utc_zone sample_host sample_timer zero_runtime sample_clock
    = Some (noon, Date utc_zone 2026 3 8 3 0 0 0, true) ∧
  ∃ next wl ok cs, nextDeadline utc_zone sample_host sample_timer zero_runtime sample_clock = Some (next, wl, ok) ∧
    triggers utc_zone sample_host sample_timer zero_runtime sample_clock = Some cs ∧
    best (now sample_host sample_clock) cs {| earliest := next; found := ok; wall := wl |}.
Proof.
  split; [vm_compute; reflexivity|].
  exact (nextDeadline_earliest utc_zone sample_host sample_timer zero_runtime sample_clock utc_steady sample_plannable).
Defined.
(** After it the startup trigger is next, thirty seconds later. *)
Lemma consumed_moves_on_witness :
  nextDeadline utc_zone sample_host sample_timer
    (MarkFired sample_host sample_timer zero_runtime sample_clock noon (now sample_host sample_clock)) sample_clock
    = Some (noon + 30 * second, Date utc_zone 2026 3 8 3 0 0 0, true) ∧
  ∃ next wl ok, nextDeadline utc_zone sample_host sample_timer
    (MarkFired sample_host sample_timer zero_runtime sample_clock noon (now sample_host sample_clock)) sample_clock
    = Some (next, wl, ok) ∧
    (ok = true → now sample_host sample_clock < next) ∧ (wl ≠ zero_time → now sample_host sample_clock < wl).
Proof.
  split; [vm_compute; reflexivity|].
  exact (consumed_moves_on utc_zone sample_host sample_timer zero_runtime sample_clock noon utc_steady sample_plannable).
Defined.
