(* ===== verification/ContainerHeap.v ===== *)
(** * The Standard Library's heap

    [container/heap] of Go: a binary heap kept in any collection that offers
    length, comparison, swap, push and pop.  The collection is an interface
    ([heap_interface]) with the laws the package relies on ([HeapLaws]); the
    theorems are proved against the laws. *)

From S2P Require Import Prelude.

#[local] Open Scope nat_scope.

Class heap_interface (H X : Type) := {
  Len : H → nat;
  Less : H → nat → nat → bool;
  Swap : nat → nat → H → H;
  Push : X → H → H;
  Pop : H → X * H;
}.

Section operations.
Context {H X : Type} `{heap_interface H X}.

Definition parent (j : nat) : nat := (j - 1) / 2.

(** Each round moves to a smaller position, so [j] rounds are enough. *)
Fixpoint up (fuel : nat) (h : H) (j : nat) : H :=
  match fuel with
  | O => h
  | S fuel =>
    let i := parent j in
    if bool_decide (i = j) || negb (Less h j i) then h
    else up fuel (Swap i j h) i
  end.

Definition smaller_child (h : H) (i n : nat) : nat :=
  let j1 := 2 * i + 1 in
  let j2 := j1 + 1 in
  if bool_decide (j2 < n) && Less h j2 j1 then j2 else j1.
(** Each round moves to a greater position below [n]; returns where it ends. *)
Fixpoint down_loop (fuel : nat) (h : H) (i n : nat) : H * nat :=
  match fuel with
  | O => (h, i)
  | S fuel =>
    if bool_decide (n <= 2 * i + 1) then (h, i)
    else
      let j := smaller_child h i n in
      if negb (Less h j i) then (h, i) else down_loop fuel (Swap i j h) j n
  end.
Definition down (h : H) (i0 n : nat) : H * bool :=
  let '(h, i) := down_loop n h i0 n in (h, bool_decide (i0 < i)).

Fixpoint Init_loop (i : nat) (h : H) (n : nat) : H :=
  match i with O => h | S i => Init_loop i (down h i n).1 n end.
Definition Init (h : H) : H := Init_loop (Len h / 2) h (Len h).

Definition heap_Push (x : X) (h : H) : H :=
  let h := Push x h in up (Len h) h (Len h - 1).
Definition heap_Pop (h : H) : X * H :=
  let n := Len h - 1 in
  Pop (down (Swap 0 n h) 0 n).1.
Definition heap_Remove (h : H) (i : nat) : X * H :=
  let n := Len h - 1 in
  Pop (if bool_decide (n = i) then h
       else let '(h, moved) := down (Swap i n h) i n in
            if moved then h else up (Len h) h i).

End operations.

(** ** Laws *)

(** [l] with the elements at [i] and [j] exchanged. *)
Definition exchange {X} (i j : nat) (l : list X) : list X :=
  match l !! i, l !! j with Some a, Some b => <[i:=b]> (<[j:=a]> l) | _, _ => l end.

Class HeapLaws (H X : Type) `{heap_interface H X} (elems : H → list X) (le : X → X → Prop) := {
  le_trans : ∀ x y z, le x y → le y z → le x z;
  le_total : ∀ x y, le x y ∨ le y x;
  Len_elems : ∀ h, Len h = length (elems h);
  Less_le : ∀ h i j x y, elems h !! i = Some x → elems h !! j = Some y →
    if Less h i j then ¬ le y x else le y x;
  Swap_elems : ∀ h i j, i < Len h → j < Len h → elems (Swap i j h) = exchange i j (elems h);
  Push_elems : ∀ h x, elems (Push x h) = elems h ++ [x];
  Pop_elems : ∀ h x l, elems h = l ++ [x] → ∃ h', Pop h = (x, h') ∧ elems h' = l;
}.

Lemma length_exchange {X} i j (l : list X) : length (exchange i j l) = length l.
Proof. unfold exchange. repeat case_match; by rewrite ?length_insert. Qed.
Lemma lookup_exchange {X} i j k (l : list X) : i < length l → j < length l →
  exchange i j l !! k = if decide (k = i) then l !! j else if decide (k = j) then l !! i else l !! k.
Proof.
  intros Hi Hj. unfold exchange.
  destruct (lookup_lt_is_Some_2 l i Hi) as [a Ha], (lookup_lt_is_Some_2 l j Hj) as [b Hb]. rewrite Ha, Hb.
  destruct (decide (k = i)) as [->|Hki]; [by rewrite list_lookup_insert_eq by (by rewrite length_insert)|].
  rewrite list_lookup_insert_ne by done.
  destruct (decide (k = j)) as [->|]; [by rewrite list_lookup_insert_eq|by rewrite list_lookup_insert_ne].
Qed.
Lemma exchange_Permutation {X} i j (l : list X) : exchange i j l ≡ₚ l.
Proof.
  unfold exchange. destruct (l !! i) as [a|] eqn:Ha; [|done]. destruct (l !! j) as [b|] eqn:Hb; [|done].
  by apply (Permutation_insert_swap l j i b a).
Qed.

(** ** The heap order *)

Lemma parent_lt j : 0 < j → parent j < j.
Proof. intros Hj. unfold parent. apply Nat.Div0.div_lt_upper_bound; lia. Qed.
Lemma parent_children c i : 0 < c → parent c = i ↔ c = 2 * i + 1 ∨ c = 2 * i + 2.
Proof.
  intros Hc. unfold parent. pose proof (Nat.div_mod_eq (c - 1) 2). pose proof (Nat.mod_upper_bound (c - 1) 2). lia.
Qed.

Section order.
Context {H X : Type} `{Hi : heap_interface H X} (elems : H → list X) (le : X → X → Prop).
Context {HL : HeapLaws H X elems le}.

Definition le_at (l : list X) (p c : nat) : Prop :=
  ∀ x y, l !! p = Some x → l !! c = Some y → le x y.
(** The first [n] elements are a heap. *)
Definition ordered (l : list X) (n : nat) : Prop := ∀ c, 0 < c < n → le_at l (parent c) c.
(** ... but for [j], which may be less than its parent. *)
Definition ordered_above (l : list X) (n j : nat) : Prop :=
  (∀ c, 0 < c < n → c ≠ j → le_at l (parent c) c) ∧
  (∀ c, 0 < c < n → 0 < j → parent c = j → le_at l (parent j) c).
(** ... but for [i], which may be less than its parent or greater than a child. *)
Definition ordered_around (l : list X) (n i : nat) : Prop :=
  (∀ c, 0 < c < n → c ≠ i → parent c ≠ i → le_at l (parent c) c) ∧
  (∀ c, 0 < c < n → 0 < i → parent c = i → le_at l (parent i) c).

Lemma le_at_trans l a b c : b < length l → le_at l a b → le_at l b c → le_at l a c.
Proof.
  intros [y Hy]%lookup_lt_is_Some_2 H1 H2 x z Hx Hz. eapply le_trans; [by apply (H1 x y)|by apply (H2 y z)].
Qed.
Lemma le_at_exchange l i j p c : i < length l → j < length l →
  le_at l (if decide (p = i) then j else if decide (p = j) then i else p)
          (if decide (c = i) then j else if decide (c = j) then i else c) →
  le_at (exchange i j l) p c.
Proof.
  intros Hil Hjl Hle x y. rewrite !lookup_exchange by done. intros Hx Hy. apply Hle.
  - by destruct (decide (p = i)), (decide (p = j)).
  - by destruct (decide (c = i)), (decide (c = j)).
Qed.
Lemma Less_true h i j : i < Len h → j < Len h → Less h i j = true → le_at (elems h) i j.
Proof.
  intros _ _ HL1 x y Hx Hy. pose proof (Less_le h i j x y Hx Hy) as Hl. rewrite HL1 in Hl.
  by destruct (le_total x y).
Qed.
Lemma Less_false h i j : Less h i j = false → le_at (elems h) j i.
Proof. intros HL1 x y Hx Hy. pose proof (Less_le h i j y x Hy Hx) as Hl. by rewrite HL1 in Hl. Qed.

Lemma ordered_above_done l n j : ordered_above l n j → (0 < j → le_at l (parent j) j) → ordered l n.
Proof. intros [H1 _] H2 c Hc. destruct (decide (c = j)) as [->|]; [apply H2; lia|by apply H1]. Qed.
Lemma ordered_is_above l n j : ordered l n → ordered_above l n j.
Proof.
  intros Ho. split; [auto|]. intros c Hc Hj Hp.
  destruct (decide (parent c < length l)) as [Hlt|Hge].
  - apply (le_at_trans l _ (parent c)); [done| |by apply Ho]. rewrite Hp. apply Ho.
    pose proof (parent_lt c). lia.
  - intros x y _ Hy. apply lookup_lt_Some in Hy. pose proof (parent_lt c). lia.
Qed.

(** What holds of every state an operation reaches by swaps below [n]. *)
Lemma up_preserves (P : H → Prop) n : (∀ i j h, i < n → j < n → P h → P (Swap i j h)) →
  ∀ fuel h j, j < n → P h → P (up fuel h j).
Proof.
  intros HP. induction fuel as [|fuel IH]; intros h j Hj Hh; simpl; [done|].
  destruct (bool_decide (parent j = j)) eqn:E; simpl; [done|]. apply bool_decide_eq_false in E.
  assert (parent j < j) by (destruct (decide (j = 0)) as [->|]; [done|apply parent_lt; lia]).
  destruct (negb _); [done|]. apply IH; [lia|]. apply HP; [lia..|done].
Qed.
Lemma smaller_child_cases h i n : 2 * i + 1 < n →
  let j := smaller_child h i n in
  i < j < n ∧ (j = 2 * i + 1 ∨ j = 2 * i + 2).
Proof.
  intros Hn. unfold smaller_child. destruct (bool_decide (2 * i + 1 + 1 < n)) eqn:E; simpl; [|lia].
  apply bool_decide_eq_true in E. destruct (Less h _ _); lia.
Qed.
Lemma down_preserves (P : H → Prop) n : (∀ i j h, i < n → j < n → P h → P (Swap i j h)) →
  ∀ fuel h i, P h → P (down_loop fuel h i n).1.
Proof.
  intros HP. induction fuel as [|fuel IH]; intros h i Hh; simpl; [done|].
  destruct (bool_decide (n <= _)) eqn:E; [done|]. apply bool_decide_eq_false in E.
  destruct (smaller_child_cases h i n ltac:(lia)) as [Hj _].
  destruct (negb _); [done|]. apply IH, HP; [lia..|done].
Qed.

(** Positions of a heap related by an exchange of [i] and [j]. *)
Ltac positions :=
  repeat match goal with
  | H : context [decide (?a = ?b)] |- _ => destruct (decide (a = b)); try subst; try lia
  | |- context [decide (?a = ?b)] => destruct (decide (a = b)); try subst; try lia
  end.

Lemma up_round l n j : j < n → n <= length l → 0 < j → ordered_above l n j → le_at l j (parent j) →
  ordered_above (exchange (parent j) j l) n (parent j).
Proof.
  intros Hj Hn Hj0 [H1 H2] Hle. pose proof (parent_lt j Hj0) as Hp.
  split; intros c Hc.
  - intros Hcp. apply le_at_exchange; [lia..|]. pose proof (parent_lt c ltac:(lia)).
    destruct (decide (c = j)) as [->|Hcj]; [by positions|].
    destruct (decide (parent c = parent j)) as [E|Hne].
    { positions. apply (le_at_trans l _ (parent j)); [lia|done|].
      rewrite <- E. by apply H1. }
    destruct (decide (parent c = j)) as [E|Hne'].
    { positions. by apply H2. }
    positions. by apply H1.
  - intros Hpp Ec. apply le_at_exchange; [lia..|]. pose proof (parent_lt (parent j) Hpp).
    destruct (decide (parent (parent j) = parent j)); [lia|]. destruct (decide (parent (parent j) = j)); [lia|].
    pose proof (parent_lt c ltac:(lia)). destruct (decide (c = parent j)); [lia|].
    destruct (decide (c = j)) as [->|Hcj]; [apply H1; lia|].
    apply (le_at_trans l _ (parent j)); [lia|apply H1; lia|]. rewrite <- Ec. by apply H1.
Qed.

Lemma up_ordered fuel h j n : j < n → n <= Len h → j <= fuel → ordered_above (elems h) n j →
  ordered (elems (up fuel h j)) n.
Proof.
  revert h j. induction fuel as [|fuel IH]; intros h j Hj Hn Hf Ho; simpl.
  { apply (ordered_above_done _ _ j); [done|lia]. }
  destruct (bool_decide (parent j = j)) eqn:E; simpl.
  { apply bool_decide_eq_true in E. apply (ordered_above_done _ _ j); [done|].
    intros Hj0. pose proof (parent_lt j Hj0). lia. }
  apply bool_decide_eq_false in E.
  assert (0 < j) as Hj0 by (destruct j; [done|lia]). pose proof (parent_lt j Hj0).
  destruct (Less h j (parent j)) eqn:EL; simpl.
  - apply IH; [lia| |lia|]; [by rewrite Len_elems, Swap_elems, length_exchange, <- Len_elems by lia|].
    rewrite Swap_elems by lia. rewrite Len_elems in *. apply up_round; [done..|].
    apply Less_true; [rewrite Len_elems; lia..|done].
  - apply (ordered_above_done _ _ j); [done|]. intros _. by apply Less_false.
Qed.

Lemma smaller_child_least h i n c : 2 * i + 1 < n → n <= Len h → 0 < c < n → parent c = i →
  le_at (elems h) (smaller_child h i n) c.
Proof.
  intros Hn HL1 Hc Hp. apply parent_children in Hp; [|lia]. unfold smaller_child.
  assert (∀ k, le_at (elems h) k k) as Hrefl.
  { intros k x y Hx Hy. simplify_eq. by destruct (le_total x x). }
  destruct (bool_decide (2 * i + 1 + 1 < n)) eqn:E; cbn [andb].
  - apply bool_decide_eq_true in E. replace (2 * i + 1 + 1) with (2 * i + 2) in * by lia.
    destruct (Less h (2 * i + 2) (2 * i + 1)) eqn:EL; destruct Hp as [-> | ->]; try apply Hrefl.
    + apply Less_true; [lia..|done].
    + by apply Less_false.
  - apply bool_decide_eq_false in E. destruct Hp as [-> | ->]; [apply Hrefl|lia].
Qed.

Lemma down_round l n i j : i < j < n → n <= length l → parent j = i → ordered_around l n i →
  le_at l j i → (∀ c, 0 < c < n → parent c = i → le_at l j c) →
  ordered_around (exchange i j l) n j ∧ le_at (exchange i j l) (parent j) j ∧
  (0 < i → le_at (exchange i j l) (parent i) i).
Proof.
  intros Hij Hn Hp [H1 H2] Hle Hmin. split; [split; intros c Hc|split].
  - intros Hcj Hpj. apply le_at_exchange; [lia..|]. pose proof (parent_lt c ltac:(lia)).
    destruct (decide (c = i)) as [->|Hci].
    { positions; apply H2; lia. }
    destruct (decide (parent c = i)) as [E|Hne]; positions; [by apply Hmin|by apply H1].
  - intros _ Hpc. apply le_at_exchange; [lia..|]. pose proof (parent_lt c ltac:(lia)).
    rewrite Hp. positions. apply H1; lia.
  - rewrite Hp. apply le_at_exchange; [lia..|]. by positions.
  - intros Hi0. apply le_at_exchange; [lia..|]. pose proof (parent_lt i Hi0). positions. apply H2; lia.
Qed.

(** Either [down] leaves the element where it is, not greater than its
    children, or it makes a heap. *)
Lemma down_ordered fuel h i n : n <= Len h → n - i <= fuel → ordered_around (elems h) n i →
  let '(h', i') := down_loop fuel h i n in
  i' = i ∧ h' = h ∧ ordered_above (elems h) n i ∨ i < i' ∧ ordered (elems h') n.
Proof.
  revert h i. induction fuel as [|fuel IH]; intros h i Hn Hf Ho; cbn [down_loop].
  { left. split; [done|]. split; [done|]. split; [|exact (proj2 Ho)].
    intros c Hc Hci. apply (proj1 Ho); [done..|]. pose proof (parent_lt c). lia. }
  destruct (bool_decide (n <= 2 * i + 1)) eqn:E.
  { apply bool_decide_eq_true in E. left. split; [done|]. split; [done|]. split; [|exact (proj2 Ho)].
    intros c Hc Hci. apply (proj1 Ho); [done..|]. intros Hp. apply parent_children in Hp; lia. }
  apply bool_decide_eq_false in E.
  destruct (smaller_child_cases h i n ltac:(lia)) as [Hj Hjc].
  set (j := smaller_child h i n) in *.
  assert (parent j = i) as Hp by (apply parent_children; lia).
  assert (∀ c, 0 < c < n → parent c = i → le_at (elems h) j c) as Hmin.
  { intros c Hc Hpc. apply smaller_child_least; [lia..|done|done]. }
  destruct (Less h j i) eqn:EL; cbn [negb].
  - pose proof Hn as Hn'. rewrite Len_elems in Hn'.
    destruct (down_round (elems h) n i j Hj Hn' Hp Ho) as (Ho' & Hpj & Hpi);
      [apply Less_true; [lia..|done]|done|].
    rewrite <- Swap_elems in Ho', Hpj, Hpi by lia.
    specialize (IH (Swap i j h) j). destruct (down_loop fuel (Swap i j h) j n) as [h' i'].
    destruct IH as [(-> & -> & Ha)|[Hlt Ho'']]; [| lia|done|right; split; [lia|]|right; split; [lia|done]].
    + by rewrite Len_elems, Swap_elems, length_exchange, <- Len_elems by lia.
    + apply (ordered_above_done _ _ j); [done|]. by intros _.
  - left. split; [done|]. split; [done|]. split; [|exact (proj2 Ho)]. intros c Hc Hci.
    destruct (decide (parent c = i)) as [Hpc|]; [|by apply (proj1 Ho)].
    rewrite Hpc. apply (le_at_trans _ _ j); [rewrite <- Len_elems; lia| |by apply Hmin].
    by apply Less_false.
Qed.

(** ** The operations *)

Lemma Init_empty h : Len h = 0 → Init h = h.
Proof. intros Hh. unfold Init. by rewrite Hh. Qed.

(** [h] holds the elements of [l], those from [n] on in place. *)
Definition rearranged (n : nat) (l : list X) (h : H) : Prop :=
  elems h ≡ₚ l ∧ ∀ k, n <= k → elems h !! k = l !! k.
Lemma rearranged_Len n l h : rearranged n l h → Len h = length l.
Proof. intros [Hp _]. by rewrite Len_elems, Hp. Qed.
Lemma rearranged_Swap n l i j h : n <= length l → i < n → j < n →
  rearranged n l h → rearranged n l (Swap i j h).
Proof.
  intros Hn Hi1 Hj1 Hr. pose proof (rearranged_Len _ _ _ Hr) as HLen. destruct Hr as [Hp Hk].
  split; rewrite Swap_elems by lia; [by rewrite exchange_Permutation|]. intros k Hnk.
  rewrite lookup_exchange by (rewrite <- Len_elems; lia). destruct (decide _); [lia|]. destruct (decide _); [lia|auto].
Qed.
Lemma rearranged_refl n h : rearranged n (elems h) h.
Proof. by split. Qed.

Lemma heap_Push_ordered h x : ordered (elems h) (Len h) →
  let h' := heap_Push x h in
  ordered (elems h') (Len h') ∧ elems h' ≡ₚ x :: elems h.
Proof.
  intros Ho. unfold heap_Push. set (h1 := Push x h).
  assert (Len h1 = S (Len h)) as HL1 by (rewrite !Len_elems; unfold h1; rewrite Push_elems, length_app; simpl; lia).
  assert (rearranged (Len h1) (elems h1) (up (Len h1) h1 (Len h1 - 1))) as Hr.
  { apply (up_preserves (rearranged (Len h1) (elems h1)) (Len h1)); [|lia|apply rearranged_refl].
    intros i j h2 Hi2 Hj2 Hr. apply rearranged_Swap; [by rewrite Len_elems|done..]. }
  split.
  - pose proof (rearranged_Len _ _ _ Hr) as ->. rewrite <- Len_elems. apply up_ordered; [lia..|].
    split; intros c Hc; rewrite HL1 in *.
    + intros Hne a b. unfold h1. rewrite Push_elems. pose proof (parent_lt c ltac:(lia)).
      rewrite !lookup_app_l by (rewrite <- Len_elems; lia). apply Ho. lia.
    + intros _ Hp. pose proof (parent_lt c ltac:(lia)). lia.
  - rewrite (proj1 Hr). unfold h1. rewrite Push_elems. by rewrite Permutation_app_comm.
Qed.

(** Taking the last element away leaves the others. *)
Lemma Pop_last n l h x : S n = length l → l !! n = Some x → rearranged n l h → ordered (elems h) n →
  ∃ h', Pop h = (x, h') ∧ ordered (elems h') (Len h') ∧ l ≡ₚ x :: elems h'.
Proof.
  intros Hn Hx [Hp Hk] Ho.
  assert (elems h = take n (elems h) ++ [x]) as E.
  { pose proof (Hk n ltac:(lia)) as E. rewrite Hx in E. rewrite <- (take_drop n (elems h)) at 1. f_equal.
    assert (length (elems h) = S n) as El by (by rewrite Hp).
    rewrite (drop_S _ x) by done. by rewrite drop_ge by lia. }
  destruct (Pop_elems h x _ E) as (h' & HP & He). exists h'. split; [done|].
  rewrite Len_elems, He. split.
  - intros c Hc a b. rewrite length_take in Hc. pose proof (parent_lt c ltac:(lia)).
    rewrite !lookup_take_lt by lia. apply Ho. lia.
  - by rewrite <- Hp, E at 1; rewrite Permutation_app_comm.
Qed.

Lemma down_rearranged l h i n : n <= length l → rearranged n l h → rearranged n l (down h i n).1.
Proof.
  intros Hn Hr. unfold down.
  pose proof (down_preserves (rearranged n l) n (λ i j h Hi1 Hj1, rearranged_Swap n l i j h Hn Hi1 Hj1) n h i Hr) as Hd.
  by destruct (down_loop n h i n).
Qed.

Lemma swap_last_around l n i x : S n = length l → i < n → l !! i = Some x → ordered l (S n) →
  ordered_around (exchange i n l) n i ∧ exchange i n l !! n = Some x.
Proof.
  intros Hn Hin Hx Ho. split; [split; intros c Hc|].
  - intros Hci Hpi. apply le_at_exchange; [lia..|]. pose proof (parent_lt c ltac:(lia)). positions. apply Ho. lia.
  - intros Hi0 Hp. apply le_at_exchange; [lia..|]. pose proof (parent_lt c ltac:(lia)). pose proof (parent_lt i Hi0).
    positions. apply (ordered_is_above l (S n)); [done|lia..].
  - rewrite lookup_exchange by lia. destruct (decide (n = i)); [lia|]. by destruct (decide (n = n)).
Qed.

Lemma heap_Remove_ordered h i x : ordered (elems h) (Len h) → elems h !! i = Some x →
  ∃ h', heap_Remove h i = (x, h') ∧ ordered (elems h') (Len h') ∧ elems h ≡ₚ x :: elems h'.
Proof.
  intros Ho Hx. pose proof (lookup_lt_Some _ _ _ Hx) as Hlt. rewrite Len_elems in Ho.
  unfold heap_Remove. rewrite Len_elems. remember (length (elems h) - 1) as n eqn:En.
  assert (S n = length (elems h)) as Hn by lia. rewrite <- Hn in Ho.
  destruct (bool_decide (n = i)) eqn:Eni.
  { apply bool_decide_eq_true in Eni as ->.
    apply (Pop_last i); [done..|apply rearranged_refl|]. intros c Hc. apply Ho. lia. }
  apply bool_decide_eq_false in Eni.
  destruct (swap_last_around (elems h) n i x Hn ltac:(lia) Hx Ho) as [Har Hl].
  assert (elems (Swap i n h) = exchange i n (elems h)) as Esw by (apply Swap_elems; rewrite Len_elems; lia).
  rewrite <- Esw in Har, Hl. set (h1 := Swap i n h) in *.
  assert (S n = length (elems h1)) as Hn1 by (by rewrite Esw, length_exchange).
  assert (∀ h', rearranged n (elems h1) h' → ordered (elems h') n →
    ∃ h2, Pop h' = (x, h2) ∧ ordered (elems h2) (Len h2) ∧ elems h ≡ₚ x :: elems h2) as Hfin.
  { intros h' Hr' Ho'. destruct (Pop_last n (elems h1) h' x Hn1 Hl Hr' Ho') as (h2 & ? & ? & Hp).
    exists h2. split; [done|]. split; [done|]. by rewrite <- Hp, Esw, exchange_Permutation. }
  pose proof (down_rearranged (elems h1) h1 i n ltac:(lia) (rearranged_refl n h1)) as Hr.
  unfold down in *. pose proof (down_ordered n h1 i n ltac:(rewrite Len_elems; lia) ltac:(lia) Har) as Hd.
  destruct (down_loop n h1 i n) as [h' i']. simpl in Hr. destruct Hd as [(-> & -> & Hab)|[Hlt' Ho']].
  - rewrite bool_decide_eq_false_2 by lia. apply Hfin.
    + apply (up_preserves (rearranged n (elems h1)) n); [|lia|done].
      intros a b h2 Ha Hb. apply rearranged_Swap; lia.
    + apply up_ordered; [lia|rewrite Len_elems; lia|rewrite Len_elems; lia|done].
  - rewrite bool_decide_eq_true_2 by done. by apply Hfin.
Qed.

(** The first element of a heap is a least one. *)
Lemma ordered_root l n : ordered l n → n <= length l → ∀ c, c < n → le_at l 0 c.
Proof.
  intros Ho Hn c. induction c as [c IH] using lt_wf_ind. intros Hc.
  destruct (decide (c = 0)) as [->|Hc0].
  { intros x y Hx Hy. simplify_eq. by destruct (le_total x x). }
  pose proof (parent_lt c ltac:(lia)). apply (le_at_trans l _ (parent c)); [lia|apply IH; lia|apply Ho; lia].
Qed.

Lemma heap_Pop_ordered h x : ordered (elems h) (Len h) → elems h !! 0 = Some x →
  ∃ h', heap_Pop h = (x, h') ∧ ordered (elems h') (Len h') ∧ elems h ≡ₚ x :: elems h' ∧
    Forall (le x) (elems h').
Proof.
  intros Ho Hx. pose proof (lookup_lt_Some _ _ _ Hx) as Hlt.
  assert (∀ h', elems h ≡ₚ x :: elems h' → Forall (le x) (elems h')) as Hmin.
  { intros h' Hp. apply Forall_forall. intros y Hy.
    assert (y ∈ elems h) as [k Hk]%list_elem_of_lookup by (rewrite Hp; by right).
    apply (ordered_root (elems h) (Len h) Ho ltac:(by rewrite Len_elems) k);
      [rewrite Len_elems; by eapply lookup_lt_Some|done..]. }
  destruct (decide (Len h - 1 = 0)) as [E|Hne].
  - assert (heap_Pop h = Pop (Swap 0 0 h)) as ->.
    { unfold heap_Pop. rewrite E. done. }
    assert (elems h = [x]) as Eh.
    { rewrite Len_elems in E. destruct (elems h) as [|? [|]]; simpl in *; by simplify_eq || lia. }
    assert (elems (Swap 0 0 h) = [] ++ [x]) as Es.
    { rewrite Swap_elems by (rewrite Len_elems; lia). by rewrite Eh. }
    destruct (Pop_elems _ _ _ Es) as (h' & HP & He). exists h'. rewrite HP, Len_elems, He, Eh.
    split; [done|]. split; [intros c; simpl; lia|]. split; [done|]. constructor.
  - destruct (heap_Remove_ordered h 0 x Ho Hx) as (h' & Hr & Ho' & Hp).
    assert (heap_Pop h = heap_Remove h 0) as ->.
    { unfold heap_Pop, heap_Remove. rewrite bool_decide_eq_false_2 by done. cbv zeta.
      unfold down. destruct (down_loop _ _ _ _) as [h1 i1].
      destruct (bool_decide (0 < i1)); [done|]. simpl. destruct (Len h1); done. }
    exists h'. split; [done|]. split; [done|]. split; [done|]. by apply Hmin.
Qed.

End order.
