(* ===== verification/DeadlineHeap.v ===== *)
(** * The queue of timer deadlines

    [deadlineHeap] of [internal/timers/engine.go], the collection the engine
    hands to [container/heap].  An item is a heap object: its name, time and
    generation never change, its index follows its position.  [iid] is the
    object's identity; [index] maps identities to the [index] fields. *)

From S2P Require Import Prelude GoTime ContainerHeap.

#[local] Open Scope Z_scope.

Record pqItem := { iid : nat; iname : string; iwhen : Z; igen : nat }.
#[global] Instance pqItem_eq_dec : EqDecision pqItem.
Proof. solve_decision. Defined.

Record deadlineHeap := { slots : list pqItem; index : gmap nat Z }.

Definition less (a b : pqItem) : bool :=
  if iwhen a =? iwhen b then bool_decide (¬ String.le (iname b) (iname a)) else iwhen a <? iwhen b.

Definition pq_Len (h : deadlineHeap) : nat := length (slots h).
Definition pq_Less (h : deadlineHeap) (i j : nat) : bool :=
  match slots h !! i, slots h !! j with Some a, Some b => less a b | _, _ => false end.
Definition pq_Swap (i j : nat) (h : deadlineHeap) : deadlineHeap :=
  match slots h !! i, slots h !! j with
  | Some a, Some b => {|
      slots := exchange i j (slots h);
      index := <[iid a := Z.of_nat j]> (<[iid b := Z.of_nat i]> (index h)) |}
  | _, _ => h
  end.
Definition pq_Push (it : pqItem) (h : deadlineHeap) : deadlineHeap := {|
  slots := slots h ++ [it];
  index := <[iid it := Z.of_nat (length (slots h))]> (index h) |}.
Definition no_item : pqItem := {| iid := 0; iname := ""; iwhen := zero_time; igen := 0 |}.
Definition pq_Pop (h : deadlineHeap) : pqItem * deadlineHeap :=
  match last (slots h) with
  | Some it => (it, {| slots := removelast (slots h); index := <[iid it := -1]> (index h) |})
  | None => (no_item, h)
  end.

#[global] Instance deadline_interface : heap_interface deadlineHeap pqItem := {|
  Len := pq_Len; Less := pq_Less; Swap := pq_Swap; Push := pq_Push; Pop := pq_Pop |}.

(** Not later in the queue's order. *)
Definition sooner (a b : pqItem) : Prop := less b a = false.

Lemma sooner_spec a b : sooner a b ↔ iwhen a < iwhen b ∨ iwhen a = iwhen b ∧ String.le (iname a) (iname b).
Proof.
  unfold sooner, less. destruct (Z.eqb_spec (iwhen b) (iwhen a)) as [E|E].
  - rewrite bool_decide_eq_false. split; [intros H; right; split; [done|]; by apply dec_stable|]. intros [?|[_ ?]]; [lia|tauto].
  - rewrite Z.ltb_ge. split; [left; lia|]. intros [?|[? _]]; lia.
Qed.

#[global] Instance deadline_laws : HeapLaws deadlineHeap pqItem slots sooner.
Proof.
  split.
  - intros x y z. rewrite !sooner_spec. intros [?|[? ?]] [?|[? ?]]; [left; lia..|]. right. split; [lia|by etrans].
  - intros x y. rewrite !sooner_spec. destruct (Z.lt_trichotomy (iwhen x) (iwhen y)) as [?|[?|?]]; [by left; left| |by right; left].
    destruct (total String.le (iname x) (iname y)); [left; by right|right; by right].
  - done.
  - intros h i j x y Hx Hy. simpl. unfold pq_Less. rewrite Hx, Hy. unfold sooner.
    destruct (less x y) eqn:E; [|done]. done.
  - intros h i j Hi Hj. simpl in *. unfold pq_Swap, exchange, pq_Len in *.
    destruct (lookup_lt_is_Some_2 _ _ Hi) as [a ->], (lookup_lt_is_Some_2 _ _ Hj) as [b ->]. done.
  - done.
  - intros h x l E. simpl. unfold pq_Pop. rewrite E, last_snoc. eexists. split; [done|]. simpl. by rewrite removelast_last.
Qed.

(** ** Indices *)

(** Every queued item knows its position; no item is queued twice. *)
Definition indexed (h : deadlineHeap) : Prop :=
  (∀ i it, slots h !! i = Some it → index h !! iid it = Some (Z.of_nat i)) ∧ NoDup (iid <$> slots h).

Lemma indexed_inj h it it' : indexed h → it ∈ slots h → it' ∈ slots h → iid it = iid it' → it = it'.
Proof.
  intros [Hi _] [i Hit]%list_elem_of_lookup [i' Hit']%list_elem_of_lookup E.
  pose proof (Hi i it Hit) as H1. pose proof (Hi i' it' Hit') as H2. rewrite E, H2 in H1.
  by simplify_eq.
Qed.
Lemma indexed_Swap h i j : indexed h → indexed (pq_Swap i j h).
Proof.
  intros [Hi Hn]. unfold pq_Swap. destruct (slots h !! i) as [a|] eqn:Ha; [|done].
  destruct (slots h !! j) as [b|] eqn:Hb; [|done].
  pose proof (lookup_lt_Some _ _ _ Ha). pose proof (lookup_lt_Some _ _ _ Hb).
  split; simpl; [|by rewrite exchange_Permutation].
  intros k it. rewrite lookup_exchange by done.
  assert (∀ k it, slots h !! k = Some it → iid it = iid a → k = i) as Hia.
  { intros k' it' Hk E. pose proof (Hi _ _ Hk) as H1. rewrite E, (Hi _ _ Ha) in H1. by simplify_eq. }
  assert (∀ k it, slots h !! k = Some it → iid it = iid b → k = j) as Hib.
  { intros k' it' Hk E. pose proof (Hi _ _ Hk) as H1. rewrite E, (Hi _ _ Hb) in H1. by simplify_eq. }
  destruct (decide (k = i)) as [->|Hki].
  - rewrite Hb. intros [= <-]. destruct (decide (iid a = iid b)) as [E|Hne].
    + rewrite (Hia _ _ Hb (eq_sym E)). by rewrite E, lookup_insert_eq.
    + by rewrite lookup_insert_ne, lookup_insert_eq.
  - destruct (decide (k = j)) as [->|Hkj].
    + rewrite Ha. intros [= <-]. by rewrite lookup_insert_eq.
    + intros Hk. rewrite !lookup_insert_ne; [by apply Hi| |].
      * intros E. by destruct Hkj; eapply Hib.
      * intros E. by destruct Hki; eapply Hia.
Qed.
Lemma indexed_Push h it : indexed h → iid it ∉ iid <$> slots h → indexed (pq_Push it h).
Proof.
  intros [Hi Hn] Hit. split; simpl.
  - intros k x Hk. destruct (decide (k < length (slots h))%nat).
    + rewrite lookup_app_l in Hk by done. rewrite lookup_insert_ne; [by apply Hi|].
      intros E. apply Hit. rewrite E. apply list_elem_of_fmap. exists x. split; [done|]. by eapply list_elem_of_lookup_2.
    + rewrite lookup_app_r in Hk by lia. destruct (k - length (slots h))%nat eqn:E; simpl in Hk; [|done].
      simplify_eq. rewrite lookup_insert_eq. f_equal. lia.
  - rewrite fmap_app. apply NoDup_app. split; [done|]. split; [|apply NoDup_singleton].
    intros x Hx ->%list_elem_of_singleton. done.
Qed.
Lemma indexed_Pop h it h' : indexed h → pq_Pop h = (it, h') → indexed h'.
Proof.
  intros [Hi Hn]. unfold pq_Pop. destruct (last (slots h)) as [x|] eqn:E; [|by intros [= <- <-]].
  intros [= <- <-]. apply last_Some in E as [l E]. rewrite E in *. rewrite fmap_app in Hn.
  apply NoDup_app in Hn as (Hn & Hd & _). split; simpl; rewrite removelast_last; [|done].
  intros k y Hk. rewrite lookup_insert_ne; [apply Hi; by apply lookup_app_l_Some|].
  intros Ex. apply (Hd (iid y)); [|rewrite <- Ex; by left]. apply list_elem_of_fmap. exists y.
  split; [done|by eapply list_elem_of_lookup_2].
Qed.

(** ** The queue *)

(** A queue in order whose items know their positions. *)
Definition queue_ok (h : deadlineHeap) : Prop := ordered sooner (slots h) (Len h) ∧ indexed h.

Lemma queue_Push h it : queue_ok h → iid it ∉ iid <$> slots h →
  queue_ok (heap_Push it h) ∧ slots (heap_Push it h) ≡ₚ it :: slots h.
Proof.
  intros [Ho Hx] Hit. destruct (heap_Push_ordered slots sooner h it Ho) as [Ho' Hp].
  split; [|done]. split; [done|]. unfold heap_Push. set (h1 := Push it h).
  apply (up_preserves indexed (Len h1)).
  - intros i j h2 _ _. apply indexed_Swap.
  - unfold h1. simpl. unfold pq_Len, pq_Push. simpl. rewrite length_app. simpl. lia.
  - by apply indexed_Push.
Qed.

Lemma down_indexed h i n : indexed h → indexed (down h i n).1.
Proof.
  intros Hx. unfold down.
  pose proof (down_preserves indexed n (λ i j h _ _, indexed_Swap h i j) n h i Hx) as Hd.
  by destruct (down_loop n h i n).
Qed.
Lemma queue_Remove h i it : queue_ok h → slots h !! i = Some it →
  ∃ h', heap_Remove h i = (it, h') ∧ queue_ok h' ∧ slots h ≡ₚ it :: slots h'.
Proof.
  intros [Ho Hx] Hit. destruct (heap_Remove_ordered slots sooner h i it Ho Hit) as (h' & Hr & Ho' & Hp).
  exists h'. split; [done|]. split; [|done]. split; [done|]. unfold heap_Remove in Hr.
  refine (indexed_Pop _ it h' _ Hr). destruct (bool_decide _); [done|].
  pose proof (down_indexed (Swap i (Len h - 1) h) i (Len h - 1) (indexed_Swap _ _ _ Hx)) as Hd.
  destruct (down _ i _) as [h1 [|]] eqn:E; [done|].
  apply (up_preserves indexed (S i)); [|lia|done]. intros a b h2 _ _. apply indexed_Swap.
Qed.
Lemma queue_Pop h it : queue_ok h → slots h !! 0%nat = Some it →
  ∃ h', heap_Pop h = (it, h') ∧ queue_ok h' ∧ slots h ≡ₚ it :: slots h' ∧ Forall (sooner it) (slots h').
Proof.
  intros [Ho Hx] Hit. destruct (heap_Pop_ordered slots sooner h it Ho Hit) as (h' & Hr & Ho' & Hp & Hm).
  exists h'. split; [done|]. split; [|done]. split; [done|]. unfold heap_Pop in Hr.
  refine (indexed_Pop _ it h' _ Hr). apply down_indexed. by apply indexed_Swap.
Qed.
Lemma queue_empty : queue_ok {| slots := []; index := ∅ |}.
Proof. split; [intros c [_ Hc]; by apply Nat.nlt_0_r in Hc|]. split; simpl; [done|constructor]. Qed.
