(* ===== verification/TimerState.v ===== *)
(** * Persistent timer state

    [internal/timers/state.go]: one record per timer, with the last times and
    the last activation.  The JSON encoding, the textual time stamps and the
    file system are parameters; what they promise is stated where it is used. *)

From S2P Require Import Prelude GoStrings GoText GoTime TimerSchedule.
From Stdlib Require Import Ascii.

#[local] Open Scope Z_scope.

Record persisted := {
  PActivation : option Activation; Version : Z;
  PLastScheduled : string; PLastActual : string; PLastSuccess : string;
}.

Definition newline : string := String LF EmptyString.
Definition maxState : Z := 16384.
(** The size of a text in bytes. *)
Definition size_of (s : string) : Z := Z.of_nat (length (bytes s)).

(** The characters that a target's name must not contain. *)
Definition forbidden : list ascii := ["\"; "/"; ":"; "000"; "013"; "010"]%char.
Definition validateActivation (a : Activation) : option error :=
  if bool_decide (ID a = "") || (128 <? size_of (ID a)) || (255 <? size_of (AUnit a)) ||
     existsb (λ c, bool_decide (c ∈ forbidden)) (bytes (AUnit a)) ||
     IsZero (Scheduled a) || IsZero (Actual a)
  then Some (ErrText "invalid timer activation intent")
  else if bool_decide (Result a = "pending") || bool_decide (Result a = "success") || bool_decide (Result a = "failed")
  then None
  else Some (ErrText "invalid timer activation result").

Section store.
(** [time.RFC3339Nano] in UTC, and the JSON encoding of a record. *)
Variable Format : Z → string.
Variable ParseTime : string → option Z.
Variable Marshal : persisted → result string.
Variable Unmarshal : string → result persisted.

Definition formatStamp (t : Z) : string := if IsZero t then "" else Format t.
Definition parse_stamp (raw : string) : result Z :=
  if bool_decide (raw = "") then Ok zero_time
  else match ParseTime raw with Some t => Ok t | None => Fail (ErrText "invalid timer state timestamp") end.

#[local] Open Scope go_scope.
(** [Save] up to the file it writes. *)
Definition Save (r : Runtime) : result string :=
  let p act := {|
    PActivation := act; Version := 2; PLastScheduled := formatStamp (LastScheduled r);
    PLastActual := formatStamp (LastActual r); PLastSuccess := formatStamp (LastSuccess r) |} in
  let encode act := data <-? Marshal (p act) ;; Ok (data +:+ newline) in
  if bool_decide (RActivation r = no_activation) then encode None
  else match validateActivation (RActivation r) with
       | Some e => Fail e
       | None => encode (Some (RActivation r))
       end.

(** [LoadChecked] from the file it reads; [None] is a missing file. *)
Definition decode_state (data : string) : result Runtime :=
  if (maxState <? size_of data) then Fail (ErrText "timer state exceeds 16 KiB")
  else if bool_decide (TrimSpace data = "null") then Fail (ErrText "timer state must be an object")
  else
    p <-? Unmarshal data ;;
    if negb (bool_decide (Version p = 0) || bool_decide (Version p = 1) || bool_decide (Version p = 2))
    then Fail (ErrFmt "unsupported timer state version %d" [pretty (Version p)])
    else
      act <-? match PActivation p with
              | None => Ok no_activation
              | Some a =>
                if negb (bool_decide (Version p = 2)) then Fail (ErrText "activation intent requires timer state version 2")
                else match validateActivation a with Some e => Fail e | None => Ok a end
              end ;;
      s <-? parse_stamp (PLastScheduled p) ;;
      a <-? parse_stamp (PLastActual p) ;;
      c <-? parse_stamp (PLastSuccess p) ;;
      Ok {| RActivation := act; LastScheduled := s; LastActual := a; LastSuccess := c;
            LastUnitActive := zero_time; FiredBoot := false; FiredStartup := false |}.
Definition LoadChecked (file : option string) : result Runtime :=
  match file with None => Ok zero_runtime | Some data => decode_state data end.

End store.

(** What a record keeps of a timer's state. *)
Definition stored_part (r : Runtime) : Runtime := {|
  RActivation := RActivation r; LastScheduled := LastScheduled r; LastActual := LastActual r;
  LastSuccess := LastSuccess r; LastUnitActive := zero_time; FiredBoot := false; FiredStartup := false |}.
Definition valid_activation (a : Activation) : Prop := a = no_activation ∨ validateActivation a = None.
#[global] Instance valid_activation_dec a : Decision (valid_activation a) := _.

(** ** Records *)

Section records.
Variable Format : Z → string.
Variable ParseTime : string → option Z.
Variable Marshal : persisted → result string.
Variable Unmarshal : string → result persisted.
(** The zone that an activation's times are in. *)
Variable loc : Location.

(** The instants that [time.RFC3339Nano] represents exactly in UTC: years 1 to 9999.
    The text is in ASCII. *)
Definition stamp_ok (t : Z) : Prop := 0 <= t < year_start 10000 * 86400 * second.
Hypothesis Format_ParseTime : ∀ t, 0 < t < year_start 10000 * 86400 * second →
  ParseTime (Format t) = Some t ∧ Format t ≠ "" ∧ ValidString (Format t) = true.

(** The instants that [time.RFC3339Nano] represents exactly in [loc], since it
    writes the offset in minutes. *)
Definition whole_minutes (t : Z) : Prop := offset (lookup loc (unix t)) mod 60 = 0.
(** What JSON keeps of an activation: [encoding/json] replaces the bytes of a string
    that are not UTF-8. *)
Record encodable (a : Activation) : Prop := {
  en_id : ValidString (ID a) = true; en_unit : ValidString (AUnit a) = true; en_result : ValidString (Result a) = true;
  en_scheduled : whole_minutes (Scheduled a); en_actual : whole_minutes (Actual a);
}.
(** Such a record is encoded as a JSON object that decodes to it. *)
Hypothesis Marshal_Unmarshal : ∀ p data, (∀ a, PActivation p = Some a → encodable a) →
  ValidString (PLastScheduled p) = true → ValidString (PLastActual p) = true → ValidString (PLastSuccess p) = true →
  Marshal p = Ok data →
  Unmarshal (data +:+ newline) = Ok p ∧ TrimSpace (data +:+ newline) ≠ "null".

Lemma parse_formatStamp t : stamp_ok t → parse_stamp ParseTime (formatStamp Format t) = Ok t.
Proof.
  intros Ht. unfold formatStamp, parse_stamp, IsZero, zero_time, stamp_ok in *.
  destruct (Z.eqb_spec t 0) as [->|Hz]; [by rewrite bool_decide_true|].
  destruct (Format_ParseTime t) as (Hp & Hne & _); [lia|]. by rewrite bool_decide_false, Hp.
Qed.

Lemma valid_formatStamp t : stamp_ok t → ValidString (formatStamp Format t) = true.
Proof.
  intros Ht. unfold formatStamp, IsZero, zero_time, stamp_ok in *. destruct (Z.eqb_spec t 0); [done|].
  apply Format_ParseTime. lia.
Qed.

Lemma validateActivation_result a : validateActivation a = None → ValidString (Result a) = true.
Proof.
  unfold validateActivation. destruct (_ || IsZero (Actual a)); [done|].
  destruct (bool_decide (Result a = "pending")) eqn:E1; [by apply bool_decide_eq_true in E1 as ->|].
  destruct (bool_decide (Result a = "success")) eqn:E2; [by apply bool_decide_eq_true in E2 as ->|].
  destruct (bool_decide (Result a = "failed")) eqn:E3; [by apply bool_decide_eq_true in E3 as ->|done].
Qed.

Lemma decode_encoded act r data : stamp_ok (LastScheduled r) → stamp_ok (LastActual r) → stamp_ok (LastSuccess r) →
  match act with Some a => validateActivation a = None ∧ a = RActivation r ∧ encodable a | None => RActivation r = no_activation end →
  Marshal {| PActivation := act; Version := 2; PLastScheduled := formatStamp Format (LastScheduled r);
    PLastActual := formatStamp Format (LastActual r); PLastSuccess := formatStamp Format (LastSuccess r) |} = Ok data →
  size_of (data +:+ newline) <= maxState →
  decode_state ParseTime Unmarshal (data +:+ newline) = Ok (stored_part r).
Proof.
  intros Hs Ha Hc Hact Hm Hlen. unfold decode_state. rewrite (proj2 (Z.ltb_ge _ _)) by lia.
  assert (∀ a, act = Some a → encodable a) as He by (intros a ->; apply Hact).
  pose proof Hm as Hu. apply Marshal_Unmarshal in Hu as [-> Hn]; [|by try apply valid_formatStamp..].
  rewrite bool_decide_false by done. simpl.
  rewrite !parse_formatStamp by done. unfold stored_part.
  destruct act as [a|]; [destruct Hact as (-> & <- & _)|rewrite Hact]; done.
Qed.

(** C31: A saved record reads back as what it was saved from: the activation
    and the three times, while the marks that live in memory start anew.  The three
    times lie in years 1 to 9999 or are unset, the activation's id and unit are valid
    UTF-8, its times are in a zone whose offset is in whole minutes at them, and the
    record is not longer than 16 KiB.  A record with an activation that is not well
    formed is never written. *)
Theorem Save_LoadChecked r data :
  stamp_ok (LastScheduled r) → stamp_ok (LastActual r) → stamp_ok (LastSuccess r) →
  ValidString (ID (RActivation r)) = true → ValidString (AUnit (RActivation r)) = true →
  whole_minutes (Scheduled (RActivation r)) → whole_minutes (Actual (RActivation r)) →
  Save Format Marshal r = Ok data → size_of data <= maxState →
  LoadChecked ParseTime Unmarshal (Some data) = Ok (stored_part r) ∧ valid_activation (RActivation r).
Proof.
  intros Hs Ha Hc Hi Hu Hm1 Hm2. unfold Save, LoadChecked, valid_activation. case_bool_decide as Hact.
  - destruct (Marshal _) as [d|] eqn:Hm; [|done]. intros [= <-] Hlen. split; [|by left].
    by apply (decode_encoded None).
  - destruct (validateActivation (RActivation r)) eqn:Hv; [done|].
    destruct (Marshal _) as [d|] eqn:Hm; [|done]. intros [= <-] Hlen. split; [|by right].
    apply (decode_encoded (Some (RActivation r))); try done.
    split; [done|]. split; [done|]. split; [done..|by apply validateActivation_result|done|done].
Qed.
End records.

(** Reading a timer's record fails, without a state, on every malformed one:
    whatever the bytes decode to, a state is returned only if the file is within
    16 KiB, its version is known, an activation comes with version 2 and is well
    formed, and every time stamp parses. *)
Theorem LoadChecked_refuses ParseTime Unmarshal data r :
  LoadChecked ParseTime Unmarshal (Some data) = Ok r →
  size_of data <= maxState ∧
  ∃ p, Unmarshal data = Ok p ∧ (Version p = 0 ∨ Version p = 1 ∨ Version p = 2) ∧
    PActivation p = (if bool_decide (PActivation p = None) then None else Some (RActivation r)) ∧
    (PActivation p ≠ None → Version p = 2 ∧ validateActivation (RActivation r) = None) ∧
    parse_stamp ParseTime (PLastScheduled p) = Ok (LastScheduled r) ∧
    parse_stamp ParseTime (PLastActual p) = Ok (LastActual r) ∧
    parse_stamp ParseTime (PLastSuccess p) = Ok (LastSuccess r).
Proof.
  simpl. unfold decode_state. destruct (Z.ltb_spec maxState (size_of data)) as [|Hlen]; [done|]. case_bool_decide; [done|].
  destruct (Unmarshal data) as [p|] eqn:Hu; [|done].
  destruct (bool_decide (Version p = 0) || bool_decide (Version p = 1) || bool_decide (Version p = 2)) eqn:Hv; [|done].
  rewrite !orb_true_iff, !bool_decide_eq_true in Hv. cbn [negb]. intros Hr.
  split; [lia|]. exists p. split; [done|]. split; [tauto|].
  destruct (PActivation p) as [a|]; simpl in *.
  - destruct (bool_decide (Version p = 2)) eqn:Hv2; [|done]. apply bool_decide_eq_true in Hv2. simpl in Hr.
    destruct (validateActivation a) eqn:Ha; [done|].
    destruct (parse_stamp _ (PLastScheduled p)); [|done]. destruct (parse_stamp _ (PLastActual p)); [|done].
    destruct (parse_stamp _ (PLastSuccess p)); [|done]. by simplify_eq/=.
  - destruct (parse_stamp _ (PLastScheduled p)); [|done]. destruct (parse_stamp _ (PLastActual p)); [|done].
    destruct (parse_stamp _ (PLastSuccess p)); [|done]. by simplify_eq/=.
Qed.

(** ** Concrete records: decimal stamps and one encoded record *)

Definition decimal_time (s : string) : option Z := digits_go (bytes s) 0.
Lemma decimal_stamps t : 0 < t → decimal_time (pretty t) = Some t ∧ pretty t ≠ ("" : string) ∧ ValidString (pretty t) = true.
Proof.
  intros Ht. destruct (pretty_pos_bytes t) as (l & Hb & Hne & Hd & Hall); [done|]. unfold decimal_time.
  rewrite Hb. split; [done|]. split; [intros E; apply (f_equal bytes) in E; rewrite Hb in E; by destruct l|].
  apply ValidString_ascii. rewrite Hb. apply Forall_forall. intros c [d Hc]%Hall. unfold digit in Hc.
  repeat case_match; simplify_eq. rewrite andb_true_iff, !Z.leb_le in *. lia.
Qed.

Definition sample_activation : Activation := {|
  ID := "ns-1"; AUnit := "a.service"; Result := "pending"; Scheduled := noon; Actual := noon + second |}.
Definition sample_runtime : Runtime := {|
  RActivation := sample_activation; LastScheduled := noon; LastActual := noon + second;
  LastSuccess := zero_time; LastUnitActive := noon; FiredBoot := true; FiredStartup := false |}.
Definition sample_record : persisted := {|
  PActivation := Some sample_activation; Version := 2; PLastScheduled := pretty noon;
  PLastActual := pretty (noon + second); PLastSuccess := "" |}.
#[global] Instance persisted_eq_dec : EqDecision persisted.
Proof. solve_decision. Defined.
Definition one_marshal (p : persisted) : result string :=
  if decide (p = sample_record) then Ok "{1}" else Fail (ErrText "unsupported").
Definition one_unmarshal (s : string) : result persisted :=
  if decide (s = "{1}" +:+ newline) then Ok sample_record else Fail (ErrText "unsupported").
Lemma one_marshal_law p data : (∀ a, PActivation p = Some a → encodable utc_zone a) →
  ValidString (PLastScheduled p) = true → ValidString (PLastActual p) = true → ValidString (PLastSuccess p) = true →
  one_marshal p = Ok data →
  one_unmarshal (data +:+ newline) = Ok p ∧ TrimSpace (data +:+ newline) ≠ "null".
Proof.
  intros _ _ _ _. unfold one_marshal. destruct (decide _) as [->|]; [|done]. intros [= <-].
  split; [done|]. vm_compute. discriminate.
Qed.

Lemma Save_LoadChecked_witness :
  Save pretty one_marshal sample_runtime = Ok ("{1}" +:+ newline) ∧
  LoadChecked decimal_time one_unmarshal (Some ("{1}" +:+ newline)) = Ok (stored_part sample_runtime) ∧
  valid_activation sample_activation.
Proof.
  assert (Save pretty one_marshal sample_runtime = Ok ("{1}" +:+ newline)) as Hs by (vm_compute; reflexivity).
  split; [exact Hs|].
  apply (Save_LoadChecked pretty decimal_time one_marshal one_unmarshal utc_zone
    (λ t Ht, decimal_stamps t (proj1 Ht)) one_marshal_law sample_runtime ("{1}" +:+ newline)).
  - split; [|reflexivity]; vm_compute; discriminate.
  - split; [|reflexivity]; vm_compute; discriminate.
  - split; [|reflexivity]; vm_compute; discriminate.
  - vm_compute. reflexivity.
  - vm_compute. reflexivity.
  - vm_compute. reflexivity.
  - vm_compute. reflexivity.
  - exact Hs.
  - vm_compute. discriminate.
Defined.

Lemma LoadChecked_refuses_witness :
  LoadChecked decimal_time one_unmarshal (Some ("{1}" +:+ newline)) = Ok (stored_part sample_runtime) ∧
  size_of ("{1}" +:+ newline) <= maxState.
Proof.
  assert (LoadChecked decimal_time one_unmarshal (Some ("{1}" +:+ newline)) = Ok (stored_part sample_runtime)) as Hl
    by (vm_compute; reflexivity).
  split; [exact Hl|].
  exact (proj1 (LoadChecked_refuses decimal_time one_unmarshal ("{1}" +:+ newline) (stored_part sample_runtime) Hl)).
Defined.
