(* ===== verification/TimerEngine.v ===== *)
(** * The timer engine

    [internal/timers/engine.go] with its workers ([calendar_work.go],
    [storage_work.go]) and the callback that the manager installs
    ([onTimerElapsed] of [internal/manager/timer.go]).

    The engine's state is what its mutex protects; each critical section is one
    function on it.  Arms are heap objects: [objs] maps their addresses to their
    fields and [arms] is the Go map of the armed ones, so that "the same arm" is
    the same address.  Goroutines are the [threads] of the state, each at the
    point between two critical sections.  A clock is read once per section.  The
    64-bit counters of arms, schedules and activations are not bounded. *)

From S2P Require Import Prelude GoStrings GoText GoTime Calendar TimerSchedule ContainerHeap DeadlineHeap.

#[local] Open Scope Z_scope.

Definition maxWait : Z := 30 * second.
Definition maxTimerCallbacks : nat := 32.
Definition MaxArmedTimers : nat := 1024.
Definition admissionRetryDelay : Z := 250 * 1000000.

(** ** Data *)

Record Fire := { ActivationID : string; FName : string; FUnit : string; Token : nat }.
Record pendingRetry := { event : Fire; after : Z }.

Record armed := {
  item : option pqItem;
  planning : bool;
  loading : bool;
  storageError : string;
  firing : bool;
  retry : option pendingRetry;
  token : nat;
  spec : Spec;
  rt : Runtime;
  next : Z;
  wallNext : Z;
  ok : bool;
  gen : nat;
  schedGen : nat;
}.

(** Where [persist] stands: before it takes [storageIO], about to save on
    behalf of the arm it found, and with the outcome of the save. *)
Inductive persist_phase :=
| PWait
| PSave (q : nat)
| PCheck (q : nat) (failure : option string).

(** Where a callback goroutine stands: saving the intent, saved, in the
    manager's callback, saving a result, recording it, finishing. *)
Inductive callback_phase :=
| CbPersist (ph : persist_phase)
| CbSaved
| CbFire
| CbResult (q : nat) (r : Runtime) (ph : persist_phase)
| CbRecord (q : nat) (r : Runtime)
| CbFinish.

(** What [planCalendars] captured of the arm it plans. *)
Record plan_job := {
  pj_arm : nat; pj_name : string; pj_gen : nat; pj_clockGen : nat; pj_spec : Spec; pj_rt : Runtime;
}.

Inductive load_phase :=
| LPick
| LWait (q : nat) (name : string)
| LRead (q : nat) (name : string).

Inductive thread :=
| TCallback (p : nat) (ev : Fire) (r : Runtime) (ph : callback_phase)
| TPlanner (job : option plan_job)
| TLoader (ph : load_phase).

Record Engine := mkEngine {
  running : bool;
  scheduling : bool;
  scheduleCursor : string;
  eloading : bool;
  stored : bool;
  namespace : string;
  nextActivation : nat;
  arms : gmap string nat;
  objs : gmap nat armed;
  pq : deadlineHeap;
  wakeup : bool;
  clockGen : nat;
  activeFires : nat;
  nextArm : nat;
  nextGen : nat;
  alloc : nat;
  storageIO : bool;
  threads : list thread;
}.

(** ** Assignments to fields *)

Definition with_item (it : option pqItem) (a : armed) : armed := {|
  item := it; planning := planning a; loading := loading a; storageError := storageError a;
  firing := firing a; retry := retry a; token := token a; spec := spec a; rt := rt a; next := next a;
  wallNext := wallNext a; ok := ok a; gen := gen a; schedGen := schedGen a |}.
Definition with_storage (l : bool) (err : string) (a : armed) : armed := {|
  item := item a; planning := planning a; loading := l; storageError := err;
  firing := firing a; retry := retry a; token := token a; spec := spec a; rt := rt a; next := next a;
  wallNext := wallNext a; ok := ok a; gen := gen a; schedGen := schedGen a |}.
Definition with_firing (b : bool) (a : armed) : armed := {|
  item := item a; planning := planning a; loading := loading a; storageError := storageError a;
  firing := b; retry := retry a; token := token a; spec := spec a; rt := rt a; next := next a;
  wallNext := wallNext a; ok := ok a; gen := gen a; schedGen := schedGen a |}.
Definition with_retry (r : option pendingRetry) (a : armed) : armed := {|
  item := item a; planning := planning a; loading := loading a; storageError := storageError a;
  firing := firing a; retry := r; token := token a; spec := spec a; rt := rt a; next := next a;
  wallNext := wallNext a; ok := ok a; gen := gen a; schedGen := schedGen a |}.
Definition with_rt (r : Runtime) (a : armed) : armed := {|
  item := item a; planning := planning a; loading := loading a; storageError := storageError a;
  firing := firing a; retry := retry a; token := token a; spec := spec a; rt := r; next := next a;
  wallNext := wallNext a; ok := ok a; gen := gen a; schedGen := schedGen a |}.
(** A refresh of the arm: a new token and specification, nothing in flight. *)
Definition with_arm (t : nat) (s : Spec) (a : armed) : armed := {|
  item := item a; planning := planning a; loading := loading a; storageError := storageError a;
  firing := false; retry := None; token := t; spec := s; rt := rt a; next := next a;
  wallNext := wallNext a; ok := ok a; gen := gen a; schedGen := schedGen a |}.
(** The reset at the start of [rescheduleLocked]. *)
Definition with_gen (g : nat) (a : armed) : armed := {|
  item := item a; planning := false; loading := loading a; storageError := storageError a;
  firing := firing a; retry := retry a; token := token a; spec := spec a; rt := rt a; next := zero_time;
  wallNext := zero_time; ok := false; gen := g; schedGen := schedGen a |}.
Definition with_planning (a : armed) : armed := {|
  item := item a; planning := true; loading := loading a; storageError := storageError a;
  firing := firing a; retry := retry a; token := token a; spec := spec a; rt := rt a; next := next a;
  wallNext := wallNext a; ok := ok a; gen := gen a; schedGen := schedGen a |}.
(** An accepted deadline. *)
Definition with_deadline (n w : Z) (o : bool) (sg : nat) (a : armed) : armed := {|
  item := item a; planning := false; loading := loading a; storageError := storageError a;
  firing := firing a; retry := retry a; token := token a; spec := spec a; rt := rt a; next := n;
  wallNext := w; ok := o; gen := gen a; schedGen := sg |}.
(** The increment of [gen] on an arm that is dropped. *)
Definition with_dropped (a : armed) : armed := {|
  item := item a; planning := planning a; loading := loading a; storageError := storageError a;
  firing := firing a; retry := retry a; token := token a; spec := spec a; rt := rt a; next := next a;
  wallNext := wallNext a; ok := ok a; gen := S (gen a); schedGen := schedGen a |}.
Definition with_schedGen (sg : nat) (a : armed) : armed := {|
  item := item a; planning := planning a; loading := loading a; storageError := storageError a;
  firing := firing a; retry := retry a; token := token a; spec := spec a; rt := rt a; next := next a;
  wallNext := wallNext a; ok := ok a; gen := gen a; schedGen := sg |}.

Definition runtime_activation (act : Activation) (r : Runtime) : Runtime := {|
  RActivation := act; LastScheduled := LastScheduled r; LastActual := LastActual r;
  LastSuccess := LastSuccess r; LastUnitActive := LastUnitActive r;
  FiredBoot := FiredBoot r; FiredStartup := FiredStartup r |}.
Definition runtime_actual (t : Z) (r : Runtime) : Runtime := {|
  RActivation := RActivation r; LastScheduled := LastScheduled r; LastActual := t;
  LastSuccess := LastSuccess r; LastUnitActive := LastUnitActive r;
  FiredBoot := FiredBoot r; FiredStartup := FiredStartup r |}.
Definition runtime_success (t : Z) (r : Runtime) : Runtime := {|
  RActivation := RActivation r; LastScheduled := LastScheduled r; LastActual := LastActual r;
  LastSuccess := t; LastUnitActive := LastUnitActive r;
  FiredBoot := FiredBoot r; FiredStartup := FiredStartup r |}.
Definition runtime_unit_active (t : Z) (r : Runtime) : Runtime := {|
  RActivation := RActivation r; LastScheduled := LastScheduled r; LastActual := LastActual r;
  LastSuccess := LastSuccess r; LastUnitActive := t;
  FiredBoot := FiredBoot r; FiredStartup := FiredStartup r |}.
Definition activation_result (res : string) (act : Activation) : Activation := {|
  ID := ID act; AUnit := AUnit act; Result := res; Scheduled := Scheduled act; Actual := Actual act |}.
Definition activation_actual (t : Z) (act : Activation) : Activation := {|
  ID := ID act; AUnit := AUnit act; Result := Result act; Scheduled := Scheduled act; Actual := t |}.

(** One assignment per field that the code changes. *)
Definition set_running (v : bool) (e : Engine) : Engine :=
  mkEngine v (scheduling e) (scheduleCursor e) (eloading e) (stored e) (namespace e) (nextActivation e)
    (arms e) (objs e) (pq e) (wakeup e) (clockGen e) (activeFires e) (nextArm e) (nextGen e) (alloc e)
    (storageIO e) (threads e).
Definition set_scheduling (v : bool) (e : Engine) : Engine :=
  mkEngine (running e) v (scheduleCursor e) (eloading e) (stored e) (namespace e) (nextActivation e)
    (arms e) (objs e) (pq e) (wakeup e) (clockGen e) (activeFires e) (nextArm e) (nextGen e) (alloc e)
    (storageIO e) (threads e).
Definition set_scheduleCursor (v : string) (e : Engine) : Engine :=
  mkEngine (running e) (scheduling e) v (eloading e) (stored e) (namespace e) (nextActivation e) (arms
    e) (objs e) (pq e) (wakeup e) (clockGen e) (activeFires e) (nextArm e) (nextGen e) (alloc e)
    (storageIO e) (threads e).
Definition set_eloading (v : bool) (e : Engine) : Engine :=
  mkEngine (running e) (scheduling e) (scheduleCursor e) v (stored e) (namespace e) (nextActivation e)
    (arms e) (objs e) (pq e) (wakeup e) (clockGen e) (activeFires e) (nextArm e) (nextGen e) (alloc e)
    (storageIO e) (threads e).
Definition set_nextActivation (v : nat) (e : Engine) : Engine :=
  mkEngine (running e) (scheduling e) (scheduleCursor e) (eloading e) (stored e) (namespace e) v (arms
    e) (objs e) (pq e) (wakeup e) (clockGen e) (activeFires e) (nextArm e) (nextGen e) (alloc e)
    (storageIO e) (threads e).
Definition set_arms (v : gmap string nat) (e : Engine) : Engine :=
  mkEngine (running e) (scheduling e) (scheduleCursor e) (eloading e) (stored e) (namespace e)
    (nextActivation e) v (objs e) (pq e) (wakeup e) (clockGen e) (activeFires e) (nextArm e) (nextGen e)
    (alloc e) (storageIO e) (threads e).
Definition set_objs (v : gmap nat armed) (e : Engine) : Engine :=
  mkEngine (running e) (scheduling e) (scheduleCursor e) (eloading e) (stored e) (namespace e)
    (nextActivation e) (arms e) v (pq e) (wakeup e) (clockGen e) (activeFires e) (nextArm e) (nextGen e)
    (alloc e) (storageIO e) (threads e).
Definition set_pq (v : deadlineHeap) (e : Engine) : Engine :=
  mkEngine (running e) (scheduling e) (scheduleCursor e) (eloading e) (stored e) (namespace e)
    (nextActivation e) (arms e) (objs e) v (wakeup e) (clockGen e) (activeFires e) (nextArm e) (nextGen
    e) (alloc e) (storageIO e) (threads e).
Definition set_wakeup (v : bool) (e : Engine) : Engine :=
  mkEngine (running e) (scheduling e) (scheduleCursor e) (eloading e) (stored e) (namespace e)
    (nextActivation e) (arms e) (objs e) (pq e) v (clockGen e) (activeFires e) (nextArm e) (nextGen e)
    (alloc e) (storageIO e) (threads e).
Definition set_clockGen (v : nat) (e : Engine) : Engine :=
  mkEngine (running e) (scheduling e) (scheduleCursor e) (eloading e) (stored e) (namespace e)
    (nextActivation e) (arms e) (objs e) (pq e) (wakeup e) v (activeFires e) (nextArm e) (nextGen e)
    (alloc e) (storageIO e) (threads e).
Definition set_activeFires (v : nat) (e : Engine) : Engine :=
  mkEngine (running e) (scheduling e) (scheduleCursor e) (eloading e) (stored e) (namespace e)
    (nextActivation e) (arms e) (objs e) (pq e) (wakeup e) (clockGen e) v (nextArm e) (nextGen e) (alloc
    e) (storageIO e) (threads e).
Definition set_nextArm (v : nat) (e : Engine) : Engine :=
  mkEngine (running e) (scheduling e) (scheduleCursor e) (eloading e) (stored e) (namespace e)
    (nextActivation e) (arms e) (objs e) (pq e) (wakeup e) (clockGen e) (activeFires e) v (nextGen e)
    (alloc e) (storageIO e) (threads e).
Definition set_nextGen (v : nat) (e : Engine) : Engine :=
  mkEngine (running e) (scheduling e) (scheduleCursor e) (eloading e) (stored e) (namespace e)
    (nextActivation e) (arms e) (objs e) (pq e) (wakeup e) (clockGen e) (activeFires e) (nextArm e) v
    (alloc e) (storageIO e) (threads e).
Definition set_alloc (v : nat) (e : Engine) : Engine :=
  mkEngine (running e) (scheduling e) (scheduleCursor e) (eloading e) (stored e) (namespace e)
    (nextActivation e) (arms e) (objs e) (pq e) (wakeup e) (clockGen e) (activeFires e) (nextArm e)
    (nextGen e) v (storageIO e) (threads e).
Definition set_storageIO (v : bool) (e : Engine) : Engine :=
  mkEngine (running e) (scheduling e) (scheduleCursor e) (eloading e) (stored e) (namespace e)
    (nextActivation e) (arms e) (objs e) (pq e) (wakeup e) (clockGen e) (activeFires e) (nextArm e)
    (nextGen e) (alloc e) v (threads e).
Definition set_threads (v : list thread) (e : Engine) : Engine :=
  mkEngine (running e) (scheduling e) (scheduleCursor e) (eloading e) (stored e) (namespace e)
    (nextActivation e) (arms e) (objs e) (pq e) (wakeup e) (clockGen e) (activeFires e) (nextArm e)
    (nextGen e) (alloc e) (storageIO e) v.

Definition upd (p : nat) (f : armed → armed) (e : Engine) : Engine := set_objs (alter f p (objs e)) e.
Definition spawn (t : thread) (e : Engine) : Engine := set_threads (t :: threads e) e.
Definition kickLocked (e : Engine) : Engine := set_wakeup true e.

(** The arm [e.armed[name]], if any, with its address. *)
Definition lookup_arm (e : Engine) (name : string) : option (nat * armed) :=
  p ← arms e !! name; a ← objs e !! p; Some (p, a).

(** ** Deadlines in the queue *)

Definition removeDeadlineLocked (p : nat) (e : Engine) : Engine :=
  match objs e !! p ≫= item with
  | None => e
  | Some it =>
    let i := default (-1) (index (pq e) !! iid it) in
    let e := if (0 <=? i) && (i <? Z.of_nat (pq_Len (pq e))) && bool_decide (slots (pq e) !! Z.to_nat i = Some it)
             then set_pq (heap_Remove (pq e) (Z.to_nat i)).2 e else e in
    upd p (with_item None) e
  end.

Definition installDeadlineLocked (p : nat) (when : Z) (g : nat) (e : Engine) : Engine :=
  let e := removeDeadlineLocked p e in
  match objs e !! p with
  | None => e
  | Some a =>
    let it := {| iid := alloc e; iname := SName (spec a); iwhen := when; igen := g |} in
    let e := upd p (with_item (Some it)) (set_alloc (S (alloc e)) e) in
    set_pq (heap_Push it (pq e)) e
  end.

(** The item still stands for its timer's present schedule. *)
Definition item_current (e : Engine) (it : pqItem) : bool :=
  match lookup_arm e (iname it) with Some (_, a) => bool_decide (igen it = gen a) | None => false end.
(** Pops stale items off the front; each round shortens the queue. *)
Fixpoint drop_stale (fuel : nat) (e : Engine) : Engine :=
  match fuel, slots (pq e) with
  | S fuel, it :: _ => if item_current e it then e else drop_stale fuel (set_pq (heap_Pop (pq e)).2 e)
  | _, _ => e
  end.
Definition dropStaleLocked (e : Engine) : Engine := drop_stale (pq_Len (pq e)) e.

Definition wallSensitive (s : Spec) : bool := negb (bool_decide (OnCalendar s = [])) || OnUnitActiveSecSet s.

(** ** Critical sections *)

Section sections.
Variable loc : Location.
Variable host : platform.
(** The clock's reading in the section. *)
Variable clk : Clock.

Definition monotonicDueLocked (s : Spec) (r : Runtime) : bool :=
  (OnBootSecSet s && negb (FiredBoot r) && (OnBootSec s <=? sinceBoot host clk)) ||
  (OnStartupSecSet s && negb (FiredStartup r) && (OnStartupSec s <=? sinceStart host clk)).

(** The least remaining wait of the relative triggers, if there is one. *)
Definition consider_wait (d : option Z) (rem : Z) : option Z :=
  match d with Some w => Some (if rem <? w then rem else w) | None => Some rem end.
Definition monotonicWaitLocked (s : Spec) (r : Runtime) : option Z :=
  let d := None in
  let d := if OnBootSecSet s && negb (FiredBoot r)
           then consider_wait d (duration (OnBootSec s - sinceBoot host clk)) else d in
  if OnStartupSecSet s && negb (FiredStartup r)
  then consider_wait d (duration (OnStartupSec s - sinceStart host clk)) else d.

Definition itemWaitLocked (a : armed) (t : Z) : Z :=
  match retry a with
  | Some r => duration (after r - sinceStart host clk)
  | None =>
    let wait := monotonicWaitLocked (spec a) (rt a) in
    if negb (IsZero (wallNext a)) && (match wait with None => true | Some w => Sub (wallNext a) t <? w end)
    then Sub (wallNext a) t else default 0 wait
  end.
Definition itemDueLocked (a : armed) (t : Z) : bool :=
  match retry a with
  | Some r => after r <=? sinceStart host clk
  | None => monotonicDueLocked (spec a) (rt a) || (negb (IsZero (wallNext a)) && negb (t <? wallNext a))
  end.

(** [go e.planCalendars()] and [go e.loadPending()], one of each at a time. *)
Definition start_planner (e : Engine) : Engine :=
  if running e && negb (scheduling e) then spawn (TPlanner None) (set_scheduling true e) else e.
Definition start_loader (e : Engine) : Engine :=
  if negb (eloading e) then spawn (TLoader LPick) (set_eloading true e) else e.

(** Without expressions [nextDeadline] always returns. *)
Definition rescheduleLocked (p : nat) (e : Engine) : Engine :=
  let e := removeDeadlineLocked p e in
  let e := set_nextGen (S (nextGen e)) e in
  let e := upd p (with_gen (nextGen e)) e in
  match objs e !! p with
  | None => e
  | Some a =>
    if loading a || negb (bool_decide (storageError a = "")) then e
    else
      match retry a with
      | None =>
        if negb (bool_decide (OnCalendar (spec a) = [])) then start_planner (upd p with_planning e)
        else
          match nextDeadline loc host (spec a) (rt a) clk with
          | None => e
          | Some (n, w, found) =>
            let e := upd p (with_deadline n w found (clockGen e)) e in
            if found then installDeadlineLocked p n (gen a) e else e
          end
      | Some r =>
        let n := now host clk + Z.max 0 (duration (after r - sinceStart host clk)) in
        installDeadlineLocked p n (gen a) (upd p (with_deadline n zero_time true (clockGen e)) e)
      end
  end.

(** Whether the queue's item may be dispatched at all, and whether it is due. *)
Definition dispatchable (e : Engine) (it : pqItem) : bool :=
  match lookup_arm e (iname it) with
  | Some (_, a) =>
    bool_decide (igen it = gen a) && negb (firing a) && bool_decide (activeFires e < maxTimerCallbacks)%nat
  | None => false
  end.
Definition due_now (e : Engine) (t : Z) (it : pqItem) : bool :=
  dispatchable e it && match lookup_arm e (iname it) with Some (_, a) => itemDueLocked a t | None => false end.
(** The position of the least due item. *)
Fixpoint scan_due (e : Engine) (t : Z) (l : list pqItem) (i : nat) (best : option nat) : option nat :=
  match l with
  | [] => best
  | it :: l =>
    scan_due e t l (S i)
      (if due_now e t it
       then match best with Some b => if pq_Less (pq e) i b then Some i else best | None => Some i end
       else best)
  end.

Record dueTimer := { instance : nat; generation : nat; scheduled : Z }.

Definition popDueLocked (t : Z) (e : Engine) : option dueTimer * Engine :=
  let e := dropStaleLocked e in
  match scan_due e t (slots (pq e)) 0 None with
  | None => (None, e)
  | Some best =>
    let '(it, h) := heap_Remove (pq e) best in
    let e := set_pq h e in
    match lookup_arm e (iname it) with
    | None => (None, e)
    | Some (p, a) =>
      let e := if bool_decide (item a = Some it) then upd p (with_item None) e else e in
      let scheduled :=
        match retry a with
        | Some _ => iwhen it
        | None =>
          match monotonicWaitLocked (spec a) (rt a) with
          | Some wait =>
            let relative := t + wait in
            if (wait <=? 0) && (IsZero (wallNext a) || (relative <? wallNext a)) then relative else wallNext a
          | None => wallNext a
          end
        end in
      (Some {| instance := p; generation := igen it; scheduled := scheduled |}, e)
    end
  end.

(** A new persistent activation. *)
Definition activation_id (e : Engine) : string := namespace e +:+ "-" +:+ pretty (N.of_nat (nextActivation e)).
(** The event that is delivered and the state that goes with it: a retried one
    again, or a new one, with a new activation for a persistent calendar timer. *)
Definition accept_due (due : dueTimer) (actual : Z) (a : armed) (e : Engine) : Fire * Runtime * Engine :=
  match retry a with
  | Some pr =>
    (event pr,
     if bool_decide (ActivationID (event pr) = "") then rt a
     else runtime_activation (activation_actual actual (RActivation (rt a))) (runtime_actual actual (rt a)),
     e)
  | None =>
    let r := MarkFired host (spec a) (rt a) clk (scheduled due) actual in
    let name := SName (spec a) in
    if Persistent (spec a) && negb (bool_decide (OnCalendar (spec a) = [])) then
      let e := set_nextActivation (S (nextActivation e)) e in
      let id := activation_id e in
      ({| ActivationID := id; FName := name; FUnit := SUnit (spec a); Token := token a |},
       runtime_activation {| ID := id; AUnit := SUnit (spec a); Result := "pending";
                             Scheduled := scheduled due; Actual := actual |} r,
       e)
    else ({| ActivationID := ""; FName := name; FUnit := SUnit (spec a); Token := token a |}, r, e)
  end.
Definition consumeLocked (due : dueTimer) (actual : Z) (e : Engine) : Engine :=
  let p := instance due in
  match objs e !! p with
  | None => e
  | Some a =>
    if negb (running e) || negb (bool_decide (arms e !! SName (spec a) = Some p)) ||
       negb (bool_decide (gen a = generation due))
    then e
    else if firing a || negb (bool_decide (activeFires e < maxTimerCallbacks)%nat)
    then installDeadlineLocked p (scheduled due) (generation due) e
    else
      let '(ev, r, e) := accept_due due actual a e in
      let e := upd p (λ a, with_firing true (with_rt r (with_retry None a))) e in
      let e := spawn (TCallback p ev r (CbPersist PWait)) (set_activeFires (S (activeFires e)) e) in
      kickLocked (if bool_decide (token a = Token ev) then rescheduleLocked p e else e)
  end.

(** Each round starts a callback or, once stopped, shortens the queue. *)
Fixpoint fire_due (fuel : nat) (t : Z) (e : Engine) : Engine :=
  match fuel with
  | O => e
  | S fuel =>
    match popDueLocked t e with
    | (None, e) => e
    | (Some due, e) => fire_due fuel t (consumeLocked due t e)
    end
  end.
Definition fireDueLocked (t : Z) (e : Engine) : Engine :=
  fire_due (S (maxTimerCallbacks + pq_Len (pq e))) t e.
Definition fireDue (e : Engine) : Engine := fireDueLocked (now host clk) e.

(** [order] is the order in which [range] visits the armed timers. *)
Definition clock_changed_arm (t : Z) (e : Engine) (name : string) : Engine :=
  match lookup_arm e name with
  | None => e
  | Some (p, a) =>
    if negb (wallSensitive (spec a)) then e
    else if bool_decide (is_Some (item a)) && itemDueLocked a t then upd p (with_schedGen (clockGen e)) e
    else rescheduleLocked p e
  end.
Definition ClockChanged (order : list string) (e : Engine) : Engine :=
  if negb (running e) then e
  else
    let e := fireDueLocked (now host clk) (set_clockGen (S (clockGen e)) e) in
    kickLocked (foldl (clock_changed_arm (now host clk)) e order).

(** How long the loop may sleep; [None] is a wait without a timer. *)
Definition shortest_wait (e : Engine) (t : Z) (d : option Z) (it : pqItem) : option Z :=
  match lookup_arm e (iname it) with
  | Some (_, a) =>
    if dispatchable e it then
      let w := Z.max 0 (itemWaitLocked a t) in
      Some (match d with Some d => if w <? d then w else d | None => w end)
    else d
  | None => d
  end.
Definition waitDuration (notified : bool) (e : Engine) : option Z * Engine :=
  let e := dropStaleLocked e in
  (match foldl (shortest_wait e (now host clk)) None (slots (pq e)) with
   | None => if notified then None else Some maxWait
   | Some d => Some (if negb notified && (maxWait <? d) then maxWait else d)
   end, e).

(** ** Operations of the manager *)

Definition fresh_arm (t : nat) (s : Spec) : armed := {|
  item := None; planning := false; loading := false; storageError := ""; firing := false; retry := None;
  token := t; spec := s; rt := zero_runtime; next := zero_time; wallNext := zero_time; ok := false;
  gen := 0; schedGen := 0 |}.

Definition Arm (s : Spec) (e : Engine) : nat * Engine :=
  if bool_decide (SName s = "") || bool_decide (MaxCalendarExpressions < Z.of_nat (length (OnCalendar s)))%Z ||
     negb (running e) then (0%nat, e)
  else
    match lookup_arm e (SName s) with
    | None =>
      if bool_decide (MaxArmedTimers <= size (arms e))%nat then (0%nat, e)
      else
        let e := set_nextArm (S (nextArm e)) e in
        let p := alloc e in
        let e := set_alloc (S p) e in
        let e := set_arms (<[SName s := p]> (arms e)) (set_objs (<[p := fresh_arm (nextArm e) s]> (objs e)) e) in
        let e := if stored e then start_loader (upd p (with_storage true "") e) else e in
        (nextArm e, kickLocked (rescheduleLocked p e))
    | Some (p, a) =>
      let e := set_nextArm (S (nextArm e)) e in
      let e := upd p (with_arm (nextArm e) s) e in
      let e := if negb (bool_decide (storageError a = "")) || bool_decide (Result (RActivation (rt a)) = "pending")
               then start_loader (upd p (with_storage true "") e) else e in
      (nextArm e, kickLocked (rescheduleLocked p e))
    end.

Definition drop_arm (name : string) (e : Engine) : Engine :=
  match lookup_arm e name with
  | None => e
  | Some (p, _) =>
    let e := upd p with_dropped (removeDeadlineLocked p e) in
    set_arms (delete name (arms e)) e
  end.
Definition Disarm (name : string) (e : Engine) : Engine :=
  if bool_decide (name = "") then e else kickLocked (drop_arm name e).
Definition Retain (keep : gset string) (order : list string) (e : Engine) : Engine :=
  kickLocked (foldl (λ e name, if bool_decide (name ∈ keep) then e else drop_arm name e) e order).

Definition unit_active_arm (unit : string) (when : Z) (e : Engine) (name : string) : Engine :=
  match lookup_arm e name with
  | None => e
  | Some (p, a) =>
    if negb (bool_decide (SUnit (spec a) = unit)) || negb (OnUnitActiveSecSet (spec a)) then e
    else kickLocked (rescheduleLocked p (upd p (with_rt (runtime_unit_active when (rt a))) e))
  end.
Definition UnitActive (unit : string) (when : Z) (order : list string) (e : Engine) : Engine :=
  if bool_decide (unit = "") then e
  else foldl (unit_active_arm unit (if IsZero when then now host clk else when)) e order.

Definition Retry (ev : Fire) (e : Engine) : Engine :=
  match lookup_arm e (FName ev) with
  | None => e
  | Some (p, a) =>
    if negb (running e) || negb (bool_decide (token a = Token ev)) then e
    else
      let pr := {| event := ev; after := duration (sinceStart host clk + admissionRetryDelay) |} in
      kickLocked (rescheduleLocked p (upd p (with_retry (Some pr)) e))
  end.

Definition Stop (e : Engine) : Engine := set_running false e.

Definition Current (name : string) (t : nat) (e : Engine) : bool :=
  match lookup_arm e name with
  | Some (_, a) =>
    running e && negb (loading a) && bool_decide (storageError a = "") && bool_decide (token a = t)
  | None => false
  end.

Definition Armed (name : string) (e : Engine) : bool :=
  negb (bool_decide (name = "")) && bool_decide (is_Some (arms e !! name)).

Record Snapshot := {
  ScheduleState : string; SnActivation : Activation; StorageState : string; StorageError : string;
  SnConfigRevision : string; SnUnit : string; SnNext : Z; SnLast : Z;
}.
Definition Status (name : string) (e : Engine) : option Snapshot :=
  match lookup_arm e name with
  | None => None
  | Some (_, a) =>
    let out sched stor n := {|
      ScheduleState := sched; SnActivation := RActivation (rt a); StorageState := stor;
      StorageError := storageError a; SnConfigRevision := ConfigRevision (spec a);
      SnUnit := SUnit (spec a); SnNext := n; SnLast := LastActual (rt a) |} in
    Some (if negb (bool_decide (storageError a = "")) then out "failed" "failed" zero_time
          else if loading a then out "waiting" "loading" zero_time
          else if planning a || (wallSensitive (spec a) && negb (bool_decide (schedGen a = clockGen e)))
          then out "planning" "ready" zero_time
          else out "ready" "ready" (if ok a then next a else zero_time))
  end.

(** ** Workers *)

(** [persist]: the check under the lock before the save. *)
Definition persist_check (ev : Fire) (e : Engine) : option nat :=
  match lookup_arm e (FName ev) with
  | Some (q, a) =>
    if running e && bool_decide (token a = Token ev) && bool_decide (storageError a = "") &&
       (bool_decide (ActivationID ev = "") || bool_decide (ID (RActivation (rt a)) = ActivationID ev))
    then Some q else None
  | None => None
  end.
(** [persist] after the save: whether the caller may go on. *)
Definition persist_done (ev : Fire) (q : nat) (failure : option string) (e : Engine) : bool * Engine :=
  match objs e !! q with
  | Some a =>
    if negb (running e) || negb (bool_decide (arms e !! FName ev = Some q)) || negb (bool_decide (token a = Token ev))
    then (false, e)
    else
      match failure with
      | Some message =>
        (false, kickLocked (rescheduleLocked q (upd q (with_storage (loading a) message) e)))
      | None => (true, e)
      end
  | None => (false, e)
  end.

Definition no_outcome : string :=
  "activation callback did not record an outcome; re-arm to recover pending intent".
(** The end of the callback goroutine; an event carries the name of its arm. *)
Definition callback_done (p : nat) (ev : Fire) (e : Engine) : Engine :=
  let e := set_activeFires (pred (activeFires e)) e in
  kickLocked
    (match objs e !! p with
     | Some a =>
       if bool_decide (arms e !! FName ev = Some p) && bool_decide (token a = Token ev) then
         let err := if bool_decide (storageError a = "") && bool_decide (Result (RActivation (rt a)) = "pending") &&
                       bool_decide (retry a = None)
                    then no_outcome else storageError a in
         let e := upd p (λ a, with_storage (loading a) err (with_firing false a)) e in
         if running e then rescheduleLocked p e else e
       else e
     | None => e
     end).

(** [RecordResult] up to its save: the state to be saved, unless it returns. *)
Definition record_result (ev : Fire) (success : bool) (e : Engine) : option (nat * Runtime) :=
  match lookup_arm e (FName ev) with
  | None => None
  | Some (p, a) =>
    if bool_decide (FName ev = "") || negb (running e) || loading a || negb (bool_decide (storageError a = "")) ||
       negb (bool_decide (token a = Token ev)) then None
    else
      let r := rt a in
      let saved r := Some (p, if success then runtime_success (now host clk) r else r) in
      if bool_decide (ActivationID ev = "") then
        if bool_decide (Result (RActivation r) = "pending") || negb success then None else saved r
      else if negb (bool_decide (ID (RActivation r) = ActivationID ev)) ||
              negb (bool_decide (Result (RActivation r) = "pending")) then None
      else saved (runtime_activation (activation_result (if success then "success" else "failed") (RActivation r)) r)
  end.
(** [RecordResult] after its save. *)
Definition record_done (p : nat) (ev : Fire) (r : Runtime) (e : Engine) : Engine :=
  match objs e !! p with
  | Some a =>
    if running e && bool_decide (arms e !! FName ev = Some p) && bool_decide (token a = Token ev) &&
       (bool_decide (ActivationID ev = "") || bool_decide (ID (RActivation (rt a)) = ActivationID ev))
    then upd p (λ a, with_retry None (with_rt
           (runtime_activation (RActivation r) (runtime_success (LastSuccess r) (rt a))) a)) e
    else e
  | None => e
  end.

(** [planCalendars]: the arm to plan, the first by name after the cursor among
    the entries in the order of the loop, or the first of all. *)
Definition sooner_name (n1 n2 : string) : bool := negb (bool_decide (String.le n2 n1)).
Definition pick_plan (e : Engine) (acc : option (nat * armed) * option (nat * armed)) (name : string)
    : option (nat * armed) * option (nat * armed) :=
  match lookup_arm e name with
  | None => acc
  | Some (p, a) =>
    if negb (planning a) then acc
    else
      let better o := match o with Some (_, b) => sooner_name name (SName (spec b)) | None => true end in
      (if sooner_name (scheduleCursor e) name && better acc.1 then Some (p, a) else acc.1,
       if better acc.2 then Some (p, a) else acc.2)
  end.
Definition plan_pick (order : list string) (e : Engine) : option plan_job * Engine :=
  let '(nxt, first) := if running e then foldl (pick_plan e) (None, None) order else (None, None) in
  match (match nxt with Some x => Some x | None => first end) with
  | None => (None, set_scheduling false e)
  | Some (p, a) =>
    (Some {| pj_arm := p; pj_name := SName (spec a); pj_gen := gen a; pj_clockGen := clockGen e;
             pj_spec := spec a; pj_rt := rt a |},
     set_scheduleCursor (SName (spec a)) e)
  end.
(** The result computed outside the lock is accepted only if nothing changed. *)
Definition plan_publish (j : plan_job) (when wl : Z) (found : bool) (e : Engine) : Engine :=
  match objs e !! pj_arm j with
  | Some a =>
    if running e && bool_decide (arms e !! pj_name j = Some (pj_arm j)) && bool_decide (gen a = pj_gen j) &&
       bool_decide (clockGen e = pj_clockGen j) && planning a then
      let e := upd (pj_arm j) (with_deadline when wl found (pj_clockGen j)) e in
      kickLocked (if found then installDeadlineLocked (pj_arm j) when (pj_gen j) e else e)
    else e
  | None => e
  end.

(** [loadPending]: the first arm the loop finds that waits for its state. *)
Definition load_pick (order : list string) (e : Engine) : option (nat * string) * Engine :=
  let waiting name := match lookup_arm e name with Some (p, a) => if loading a then Some (p, SName (spec a)) else None | None => None end in
  match (if running e then head (omap waiting order) else None) with
  | None => (None, set_eloading false e)
  | Some x => (Some x, e)
  end.
Definition load_current (q : nat) (name : string) (e : Engine) : bool :=
  match objs e !! q with
  | Some a => running e && bool_decide (arms e !! name = Some q) && loading a
  | None => false
  end.
Definition mismatch : string := "pending activation does not match the current persistent calendar target".
Definition load_publish (q : nat) (name : string) (res : Runtime + string) (e : Engine) : Engine :=
  if negb (load_current q name e) then e
  else
    let e := upd q (λ a,
      match res with
      | inr message => with_storage false message a
      | inl r =>
        let a := with_rt (runtime_unit_active (LastUnitActive (rt a)) r) (with_storage false "" a) in
        if bool_decide (Result (RActivation r) = "pending") then
          if negb (Persistent (spec a)) || bool_decide (OnCalendar (spec a) = []) ||
             negb (bool_decide (SUnit (spec a) = AUnit (RActivation r)))
          then with_storage false mismatch a
          else with_retry (Some {| event := {| ActivationID := ID (RActivation r); FName := name;
                 FUnit := AUnit (RActivation r); Token := token a |}; after := sinceStart host clk |}) a
        else a
      end) e in
    kickLocked (rescheduleLocked q e).

End sections.
