(* ===== verification/TimerEngineInv.v ===== *)
(** * The timer engine: structure and schedules

    The queue holds exactly the deadlines of the armed timers, each under its
    arm's present generation; an armed timer that is neither waiting for its
    state nor suspended by an error is planned, queued with the deadline that its
    specification and state give, or has no deadline.  Proved of every critical
    section, for a set of arms whose schedule is being changed. *)

From S2P Require Import Prelude GoStrings GoText GoTime Calendar TimerSchedule ContainerHeap DeadlineHeap TimerEngine.

#[local] Open Scope Z_scope.

(** ** What scheduling leaves alone *)

Definition view (a : armed) :=
  (loading a, storageError a, firing a, retry a, token a, spec a, rt a).

(** [e'] differs from [e] in the schedule of the arm [p] and in the queue. *)
Record touches (p : nat) (e e' : Engine) : Prop := {
  t_running : running e' = running e;
  t_stored : stored e' = stored e;
  t_arms : arms e' = arms e;
  t_others : ∀ q, q ≠ p → objs e' !! q = objs e !! q;
  t_view : view <$> objs e' !! p = view <$> objs e !! p;
  t_eloading : eloading e' = eloading e;
  t_scheduling : scheduling e = true → scheduling e' = true;
  t_activeFires : activeFires e' = activeFires e;
  t_nextArm : nextArm e' = nextArm e;
  t_storageIO : storageIO e' = storageIO e;
  t_clockGen : clockGen e' = clockGen e;
  t_namespace : namespace e' = namespace e ∧ nextActivation e' = nextActivation e;
  t_threads : threads e' = threads e ∧ scheduling e' = scheduling e ∨
    threads e' = TPlanner None :: threads e ∧ scheduling e = false ∧ scheduling e' = true ∧ running e = true;
}.

Lemma touches_refl p e : touches p e e.
Proof. split; try done. by left. Qed.
Lemma touches_trans p e1 e2 e3 : touches p e1 e2 → touches p e2 e3 → touches p e1 e3.
Proof.
  intros H1 H2. split.
  - by rewrite (t_running _ _ _ H2), (t_running _ _ _ H1).
  - by rewrite (t_stored _ _ _ H2), (t_stored _ _ _ H1).
  - by rewrite (t_arms _ _ _ H2), (t_arms _ _ _ H1).
  - intros q Hq. by rewrite (t_others _ _ _ H2), (t_others _ _ _ H1).
  - by rewrite (t_view _ _ _ H2), (t_view _ _ _ H1).
  - by rewrite (t_eloading _ _ _ H2), (t_eloading _ _ _ H1).
  - intros Hs. by apply (t_scheduling _ _ _ H2), (t_scheduling _ _ _ H1).
  - by rewrite (t_activeFires _ _ _ H2), (t_activeFires _ _ _ H1).
  - by rewrite (t_nextArm _ _ _ H2), (t_nextArm _ _ _ H1).
  - by rewrite (t_storageIO _ _ _ H2), (t_storageIO _ _ _ H1).
  - by rewrite (t_clockGen _ _ _ H2), (t_clockGen _ _ _ H1).
  - destruct (t_namespace _ _ _ H1) as [E1 E2], (t_namespace _ _ _ H2) as [E3 E4]. by rewrite E3, E4, E1, E2.
  - destruct (t_threads _ _ _ H1) as [[T1 S1]|(T1 & S1 & S1' & R1)], (t_threads _ _ _ H2) as [[T2 S2]|(T2 & S2 & S2' & R2)].
    + left. by rewrite T2, S2, T1, S1.
    + right. rewrite T2, S2', T1. rewrite S1 in S2. rewrite (t_running _ _ _ H1) in R2. done.
    + right. by rewrite T2, S2, T1, S1'.
    + congruence.
Qed.

(** An update of [p] that keeps the view. *)
Lemma upd_touches p f e : (∀ a, view (f a) = view a) → touches p e (upd p f e).
Proof.
  intros Hf. split; try done; simpl; [| |by left].
  - intros q Hq. by rewrite lookup_alter_ne.
  - rewrite lookup_alter_eq. destruct (objs e !! p); simpl; [by rewrite Hf|done].
Qed.
Lemma set_pq_touches p h e : touches p e (set_pq h e).
Proof. split; try done. by left. Qed.
Lemma set_alloc_touches p n e : touches p e (set_alloc n e).
Proof. split; try done. by left. Qed.
Lemma set_nextGen_touches p n e : touches p e (set_nextGen n e).
Proof. split; try done. by left. Qed.
Lemma kick_touches p e : touches p e (kickLocked e).
Proof. split; try done. by left. Qed.
Lemma start_planner_touches p e : touches p e (start_planner e).
Proof.
  unfold start_planner. destruct (running e) eqn:Er, (scheduling e) eqn:Es; simpl; try apply touches_refl.
  split; try done; simpl. right. done.
Qed.

Lemma removeDeadline_touches p e : touches p e (removeDeadlineLocked p e).
Proof.
  unfold removeDeadlineLocked. destruct (objs e !! p ≫= item); [|apply touches_refl].
  eapply touches_trans; [|by apply upd_touches]. case_match; [apply set_pq_touches|apply touches_refl].
Qed.
Lemma installDeadline_touches p when g e : touches p e (installDeadlineLocked p when g e).
Proof.
  unfold installDeadlineLocked. eapply touches_trans; [apply removeDeadline_touches|].
  set (e1 := removeDeadlineLocked p e). destruct (objs e1 !! p); [|apply touches_refl].
  apply (touches_trans _ _ (set_alloc (S (alloc e1)) e1)); [apply set_alloc_touches|].
  eapply touches_trans; [|apply set_pq_touches]. by apply upd_touches.
Qed.
Lemma reschedule_touches loc host clk p e : touches p e (rescheduleLocked loc host clk p e).
Proof.
  unfold rescheduleLocked. eapply touches_trans; [apply removeDeadline_touches|].
  set (e1 := removeDeadlineLocked p e).
  apply (touches_trans _ _ (set_nextGen (S (nextGen e1)) e1)); [apply set_nextGen_touches|].
  set (e2 := set_nextGen (S (nextGen e1)) e1).
  apply (touches_trans _ _ (upd p (with_gen (nextGen e2)) e2)); [by apply upd_touches|].
  set (e3 := upd p (with_gen (nextGen e2)) e2).
  destruct (objs e3 !! p) as [a|]; [|apply touches_refl].
  destruct (_ || _); [apply touches_refl|]. destruct (retry a).
  - eapply touches_trans; [|apply installDeadline_touches]. by apply upd_touches.
  - destruct (negb _).
    + eapply touches_trans; [|apply start_planner_touches]. by apply upd_touches.
    + destruct (nextDeadline _ _ _ _ _) as [[[n w] []]|]; [| |apply touches_refl].
      * eapply touches_trans; [|apply installDeadline_touches]. by apply upd_touches.
      * by apply upd_touches.
Qed.

(** ** The queue and the arms *)

(** A retried event is one of the arm it waits in. *)
Definition retry_ok (a : armed) : Prop :=
  ∀ pr, retry a = Some pr → Token (event pr) = token a ∧ FName (event pr) = SName (spec a).

Record structure (e : Engine) : Prop := {
  s_queue : queue_ok (pq e);
  s_iids : ∀ it, it ∈ slots (pq e) → (iid it < alloc e)%nat;
  s_objs : ∀ p a, objs e !! p = Some a → (p < alloc e)%nat;
  s_arms : ∀ name p, arms e !! name = Some p → ∃ a, objs e !! p = Some a ∧ SName (spec a) = name;
  s_items : ∀ p a it, objs e !! p = Some a → item a = Some it →
    it ∈ slots (pq e) ∧ arms e !! iname it = Some p ∧ igen it = gen a;
  s_slots : ∀ it, it ∈ slots (pq e) → ∃ p a, objs e !! p = Some a ∧ item a = Some it;
  s_size : (size (arms e) <= MaxArmedTimers)%nat;
  s_retry : ∀ p a, objs e !! p = Some a → retry_ok a;
}.

(** Arms of different names are different objects. *)
Lemma arms_inj e n1 n2 p : structure e → arms e !! n1 = Some p → arms e !! n2 = Some p → n1 = n2.
Proof.
  intros He H1 H2. destruct (s_arms e He _ _ H1) as (a & Ha & <-), (s_arms e He _ _ H2) as (b & Hb & <-).
  by simplify_eq.
Qed.

(** A queued item is current, so nothing in the queue is ever stale. *)
Lemma structure_current e it : structure e → it ∈ slots (pq e) → item_current e it = true.
Proof.
  intros He Hit. destruct (s_slots e He it Hit) as (p & a & Ha & Hi).
  destruct (s_items e He p a it Ha Hi) as (_ & Hn & Hg). unfold item_current, lookup_arm. rewrite Hn. simpl.
  rewrite Ha. simpl. by apply bool_decide_eq_true.
Qed.
Lemma dropStale_none e : structure e → dropStaleLocked e = e.
Proof.
  intros He. unfold dropStaleLocked. destruct (pq_Len (pq e)); simpl; [done|].
  destruct (slots (pq e)) as [|it l] eqn:E; [done|]. by rewrite structure_current by (done || rewrite E; by left).
Qed.

Lemma remove_spec e p a : structure e → objs e !! p = Some a →
  let e' := removeDeadlineLocked p e in
  structure e' ∧ objs e' !! p = Some (with_item None a) ∧ (∀ it, it ∈ slots (pq e') → item a ≠ Some it) ∧
  alloc e' = alloc e ∧ nextGen e' = nextGen e.
Proof.
  intros He Ha. cbv zeta. unfold removeDeadlineLocked. rewrite Ha. cbn [mbind option_bind].
  destruct (item a) as [it|] eqn:Ei.
  2:{ assert (with_item None a = a) as -> by (destruct a; simpl in *; by subst). by split_and!. }
  destruct (s_items e He p a it Ha Ei) as (Hit & Hn & Hg).
  pose proof (s_queue e He) as Hq. apply list_elem_of_lookup in Hit as [i Hi].
  pose proof (proj1 (proj2 Hq) i it Hi) as Hx. rewrite Hx.
  change (default (-1) (Some (Z.of_nat i))) with (Z.of_nat i).
  pose proof (lookup_lt_Some _ _ _ Hi) as Hlt.
  rewrite (proj2 (Z.leb_le _ _)) by lia. rewrite (proj2 (Z.ltb_lt _ _)) by (unfold pq_Len; lia).
  rewrite Nat2Z.id, bool_decide_true by done. cbn [andb].
  destruct (queue_Remove (pq e) i it Hq Hi) as (h' & -> & Hq' & Hp). simpl snd.
  assert (∀ it', it' ∈ slots h' → it' ≠ it) as Hne.
  { intros it' Hit' ->. assert (NoDup (iid <$> slots (pq e))) as Hnd by apply Hq. rewrite Hp, fmap_cons in Hnd.
    apply NoDup_cons in Hnd as [Hnin _]. apply Hnin. apply list_elem_of_fmap. eauto. }
  split; [|split; [by simpl; rewrite lookup_alter_eq, Ha|split; [by intros it' ?%Hne [= ->]|done]]].
  split; simpl.
  - done.
  - intros it' Hit'. apply (s_iids e He). rewrite Hp. by right.
  - intros q b. destruct (decide (q = p)) as [->|Hqp]; [intros _; by eapply (s_objs e He)|].
    rewrite lookup_alter_ne by done. apply (s_objs e He).
  - intros name q Hq1. destruct (s_arms e He name q Hq1) as (b & Hb & Hs).
    destruct (decide (q = p)) as [->|Hqp]; [|rewrite lookup_alter_ne by done; eauto].
    rewrite lookup_alter_eq, Ha. simplify_eq. by eexists.
  - intros q b it' Hb Hit'. destruct (decide (q = p)) as [->|Hqp].
    { rewrite lookup_alter_eq, Ha in Hb. simpl in Hb. by simplify_eq. }
    rewrite lookup_alter_ne in Hb by done. destruct (s_items e He q b it' Hb Hit') as (Hin & Hn' & Hg').
    split; [|done]. rewrite Hp in Hin. apply elem_of_cons in Hin as [->|?]; [|done].
    destruct Hqp. congruence.
  - intros it' Hit'. destruct (s_slots e He it') as (q & b & Hb & Hib); [rewrite Hp; by right|].
    exists q. destruct (decide (q = p)) as [->|Hqp]; [|exists b; by rewrite lookup_alter_ne].
    destruct (Hne it' Hit'). congruence.
  - apply (s_size e He).
  - intros q b. destruct (decide (q = p)) as [->|Hqp]; [|rewrite lookup_alter_ne by done; apply (s_retry e He)].
    rewrite lookup_alter_eq, Ha. intros [= <-]. exact (s_retry e He p a Ha).
Qed.

Lemma remove_shorter e p a it : structure e → objs e !! p = Some a → item a = Some it →
  (length (slots (pq (removeDeadlineLocked p e))) < length (slots (pq e)))%nat.
Proof.
  intros He Ha Ei. destruct (s_items e He p a it Ha Ei) as ([i Hi]%list_elem_of_lookup & _).
  unfold removeDeadlineLocked. rewrite Ha. cbn [mbind option_bind]. rewrite Ei.
  rewrite (proj1 (proj2 (s_queue e He)) i it Hi). change (default (-1) (Some (Z.of_nat i))) with (Z.of_nat i).
  pose proof (lookup_lt_Some _ _ _ Hi) as Hlt. rewrite (proj2 (Z.leb_le _ _)) by lia.
  rewrite (proj2 (Z.ltb_lt _ _)) by (unfold pq_Len; lia). rewrite Nat2Z.id, bool_decide_true by done. cbn [andb].
  destruct (queue_Remove (pq e) i it (s_queue e He) Hi) as (h' & -> & _ & Hp). simpl. rewrite Hp. simpl. lia.
Qed.

Lemma objs_upd e p f a : objs e !! p = Some a → objs (upd p f e) !! p = Some (f a).
Proof. intros Ha. simpl. by rewrite lookup_alter_eq, Ha. Qed.
(** Updating an arm without touching its place in the queue. *)
Definition keeps_place (f : armed → armed) (a : armed) : Prop :=
  item (f a) = item a ∧ SName (spec (f a)) = SName (spec a) ∧ (gen (f a) = gen a ∨ item a = None) ∧
  (retry_ok a → retry_ok (f a)).
Lemma same_place f a : item (f a) = item a → spec (f a) = spec a → gen (f a) = gen a →
  (retry_ok a → retry_ok (f a)) → keeps_place f a.
Proof. intros H1 H2 H3 H4. split; [done|]. split; [by rewrite H2|]. split; [by left|done]. Qed.
Lemma upd_structure e p f a : structure e → objs e !! p = Some a → keeps_place f a → structure (upd p f e).
Proof.
  intros He Ha (Hi & Hs & Hg & Hret). split; simpl; try apply He.
  - intros q b. destruct (decide (q = p)) as [->|Hqp]; [intros _; by eapply (s_objs e He)|].
    rewrite lookup_alter_ne by done. apply (s_objs e He).
  - intros name q Hq1. destruct (s_arms e He name q Hq1) as (b & Hb & Hs').
    destruct (decide (q = p)) as [->|Hqp]; [|rewrite lookup_alter_ne by done; eauto].
    rewrite lookup_alter_eq, Ha. simplify_eq. by eexists.
  - intros q b it Hb Hit. destruct (decide (q = p)) as [->|Hqp].
    + rewrite lookup_alter_eq, Ha in Hb. simpl in Hb. simplify_eq. rewrite Hi in Hit.
      destruct (s_items e He p a it Ha Hit) as (? & ? & ?). split; [done|]. split; [done|].
      destruct Hg; congruence.
    + rewrite lookup_alter_ne in Hb by done. by apply (s_items e He q b it).
  - intros it Hit. destruct (s_slots e He it Hit) as (q & b & Hb & Hib). exists q.
    destruct (decide (q = p)) as [->|Hqp]; [|exists b; by rewrite lookup_alter_ne].
    simplify_eq. exists (f a). rewrite lookup_alter_eq, Ha. by rewrite Hi.
  - intros q b. destruct (decide (q = p)) as [->|Hqp]; [|rewrite lookup_alter_ne by done; apply (s_retry e He)].
    rewrite lookup_alter_eq, Ha. intros [= <-]. by apply Hret, (s_retry e He p).
Qed.

(** Changes of the other fields. *)
Lemma same_structure e e' : structure e → pq e' = pq e → (alloc e <= alloc e')%nat → objs e' = objs e →
  arms e' = arms e → structure e'.
Proof.
  intros He Hp Ha Ho Hr. split; rewrite ?Hp, ?Ho, ?Hr; try apply He.
  - intros it Hit. pose proof (s_iids e He it Hit). lia.
  - intros p a Hpa. pose proof (s_objs e He p a Hpa). lia.
Qed.

Lemma install_spec e p a when : structure e → objs e !! p = Some a → arms e !! SName (spec a) = Some p →
  let e' := installDeadlineLocked p when (gen a) e in
  structure e' ∧ ∃ it, objs e' !! p = Some (with_item (Some it) a) ∧ iwhen it = when ∧ nextGen e' = nextGen e.
Proof.
  intros He Ha Hn. cbv zeta. unfold installDeadlineLocked.
  destruct (remove_spec e p a He Ha) as (He1 & Ha1 & Hno & Hal & Hng).
  pose proof (removeDeadline_touches p e) as Ht. set (e1 := removeDeadlineLocked p e) in *. rewrite Ha1.
  set (it := {| iid := alloc e1; iname := SName (spec a); iwhen := when; igen := gen a |}).
  change (SName (spec (with_item None a))) with (SName (spec a)). fold it.
  assert (iid it ∉ iid <$> slots (pq e1)) as Hfresh.
  { intros (it' & E & Hit')%list_elem_of_fmap. pose proof (s_iids e1 He1 it' Hit'). simpl in E. lia. }
  destruct (queue_Push (pq e1) it (s_queue e1 He1) Hfresh) as [Hq Hp].
  split; [|exists it; split; [by simpl; rewrite lookup_alter_eq, Ha1|by split]].
  split; simpl.
  - done.
  - intros it'. rewrite Hp. intros [->|Hit']%elem_of_cons; [simpl; lia|]. pose proof (s_iids e1 He1 it' Hit'). lia.
  - intros q b. destruct (decide (q = p)) as [->|Hqp].
    + intros _. pose proof (s_objs e1 He1 p _ Ha1). lia.
    + rewrite lookup_alter_ne by done. intros Hb. pose proof (s_objs e1 He1 q b Hb). lia.
  - intros name q Hq1. destruct (s_arms e1 He1 name q Hq1) as (b & Hb & Hs').
    destruct (decide (q = p)) as [->|Hqp]; [|rewrite lookup_alter_ne by done; eauto].
    rewrite lookup_alter_eq, Ha1. simplify_eq. by eexists.
  - intros q b it' Hb Hit'. rewrite Hp. destruct (decide (q = p)) as [->|Hqp].
    + rewrite lookup_alter_eq, Ha1 in Hb. simpl in Hb. simplify_eq. simpl in Hit'. simplify_eq.
      split; [by left|]. split; [|done]. by rewrite (t_arms _ _ _ Ht).
    + rewrite lookup_alter_ne in Hb by done. destruct (s_items e1 He1 q b it' Hb Hit') as (? & ? & ?).
      split; [by right|done].
  - intros it'. rewrite Hp. intros [->|Hit']%elem_of_cons.
    + exists p. eexists. by rewrite lookup_alter_eq, Ha1.
    + destruct (s_slots e1 He1 it' Hit') as (q & b & Hb & Hib). exists q.
      destruct (decide (q = p)) as [->|Hqp]; [|exists b; by rewrite lookup_alter_ne].
      simplify_eq.
  - apply (s_size e1 He1).
  - intros q b. destruct (decide (q = p)) as [->|Hqp]; [|rewrite lookup_alter_ne by done; apply (s_retry e1 He1)].
    rewrite lookup_alter_eq, Ha1. intros [= <-]. exact (s_retry e He p a Ha).
Qed.

(** ** Schedules *)

Section schedules.
Variable loc : Location.
Variable host : platform.

(** The deadline is what [nextDeadline] gave at some reading of the clock. *)
Definition computed (a : armed) : Prop :=
  ∃ clk, nextDeadline loc host (spec a) (rt a) clk = Some (next a, wallNext a, ok a).

(** An armed timer waits for the loader, is suspended by a storage error, waits
    for the planner, or has a deadline in the queue unless it has none. *)
Definition status (e : Engine) (a : armed) : Prop :=
  if loading a || negb (bool_decide (storageError a = "")) then
    item a = None ∧ planning a = false ∧ (loading a = true → eloading e = true)
  else if planning a then
    item a = None ∧ retry a = None ∧ OnCalendar (spec a) ≠ [] ∧ scheduling e = true
  else
    (if ok a then ∃ it, item a = Some it ∧ iwhen it = next a else item a = None) ∧
    match retry a with Some _ => ok a = true ∧ wallNext a = zero_time | None => computed a end.

(** Every armed timer outside [D], as long as the engine runs. *)
Definition clean (D : gset nat) (e : Engine) : Prop :=
  running e = true → ∀ name p a, arms e !! name = Some p → objs e !! p = Some a → p ∉ D → status e a.

Lemma status_mono e e' a : (scheduling e = true → scheduling e' = true) → (eloading e = true → eloading e' = true) →
  status e a → status e' a.
Proof. unfold status. intros Hs Hl. repeat case_match; naive_solver. Qed.

Lemma clean_mono D D' e : D ⊆ D' → clean D e → clean D' e.
Proof. intros HD Hc Hr name p a Hn Ha Hp. apply (Hc Hr name p a Hn Ha). set_solver. Qed.

Lemma touches_clean p D e e' : touches p e e' → p ∈ D → clean D e → clean D e'.
Proof.
  intros Ht HpD Hc Hr name q a Hn Ha HqD. rewrite (t_running _ _ _ Ht) in Hr. rewrite (t_arms _ _ _ Ht) in Hn.
  rewrite (t_others _ _ _ Ht) in Ha by (intros ->; done).
  apply (status_mono e); [apply Ht|by rewrite (t_eloading _ _ _ Ht)|]. by apply (Hc Hr name q).
Qed.

Lemma nextDeadline_relative s r clk : OnCalendar s = [] → ∃ x, nextDeadline loc host s r clk = Some x.
Proof. intros E. unfold nextDeadline. rewrite E. simpl. eauto. Qed.

(** The deadline depends on the marks and the last times only. *)
Lemma nextDeadline_same s r r' clk : LastActual r' = LastActual r → LastUnitActive r' = LastUnitActive r →
  FiredBoot r' = FiredBoot r → FiredStartup r' = FiredStartup r →
  nextDeadline loc host s r' clk = nextDeadline loc host s r clk.
Proof.
  intros H1 H2 H3 H4. unfold nextDeadline. rewrite H1, H2, H3, H4.
  assert (∀ cals t d, consider_calendars loc s r' t d cals = consider_calendars loc s r t d cals) as Hc.
  { induction cals as [|cal cals IH]; intros t d; simpl; [done|].
    assert (consider_calendar loc s r' t d cal = consider_calendar loc s r t d cal) as ->.
    { unfold consider_calendar, persistentCatchup. by rewrite H1. }
    destruct (consider_calendar loc s r t d cal); simpl; [apply IH|done]. }
  by rewrite Hc.
Qed.

(** A clean arm after a change of one arm. *)
Lemma clean_one D e p : clean ({[p]} ∪ D) e →
  (∀ name a, arms e !! name = Some p → objs e !! p = Some a → running e = true → status e a) →
  clean (D ∖ {[p]}) e.
Proof.
  intros Hc Hp Hr name q a Hn Ha Hq. destruct (decide (q = p)) as [->|Hne]; [eauto|].
  apply (Hc Hr name q a Hn Ha). set_solver.
Qed.

Lemma start_planner_structure e : structure e → structure (start_planner e).
Proof.
  intros He. unfold start_planner. destruct (_ && _); [|done]. by apply (same_structure e).
Qed.
Lemma start_planner_runs e : running e = true → scheduling (start_planner e) = true.
Proof. unfold start_planner. intros ->. by destruct (scheduling e) eqn:E; simpl; rewrite ?E. Qed.
Lemma start_planner_objs e : objs (start_planner e) = objs e ∧ nextGen (start_planner e) = nextGen e.
Proof. unfold start_planner. by destruct (_ && _). Qed.

(** What [rescheduleLocked] makes of its arm. *)
Lemma reschedule_arm clk e p a : structure e → objs e !! p = Some a → arms e !! SName (spec a) = Some p →
  (running e = true → loading a = true → eloading e = true) →
  let e' := rescheduleLocked loc host clk p e in
  structure e' ∧ nextGen e' = S (nextGen e) ∧
  ∃ a', objs e' !! p = Some a' ∧ gen a' = S (nextGen e) ∧ (running e' = true → status e' a').
Proof.
  intros He Ha Hn Hl. cbv zeta. pose proof (reschedule_touches loc host clk p e) as Ht. revert Ht.
  unfold rescheduleLocked. destruct (remove_spec e p a He Ha) as (He1 & Ha1 & _ & _ & Hg1).
  pose proof (removeDeadline_touches p e) as Ht1. set (e1 := removeDeadlineLocked p e) in *.
  set (e2 := upd p _ (set_nextGen _ e1)).
  set (a2 := with_gen (S (nextGen e)) (with_item None a)).
  assert (objs e2 !! p = Some a2) as Ha2.
  { unfold e2. simpl. by rewrite lookup_alter_eq, Ha1, Hg1. }
  assert (structure e2) as He2.
  { apply (upd_structure (set_nextGen (S (nextGen e1)) e1) p _ (with_item None a)); [by apply (same_structure e1)|done|].
    split; [done|]. split; [done|]. split; [by right|done]. }
  assert (nextGen e2 = S (nextGen e)) as Hg2 by (unfold e2; simpl; by rewrite Hg1).
  assert (arms e2 !! SName (spec a2) = Some p) as Hn2 by (unfold e2; simpl; by rewrite (t_arms _ _ _ Ht1)).
  assert (∀ n w o sg when, structure (installDeadlineLocked p when (gen a2) (upd p (with_deadline n w o sg) e2)) ∧
    ∃ it, objs (installDeadlineLocked p when (gen a2) (upd p (with_deadline n w o sg) e2)) !! p
        = Some (with_item (Some it) (with_deadline n w o sg a2)) ∧ iwhen it = when ∧
      nextGen (installDeadlineLocked p when (gen a2) (upd p (with_deadline n w o sg) e2)) = S (nextGen e)) as Hinst.
  { intros n w o sg when.
    destruct (install_spec (upd p (with_deadline n w o sg) e2) p (with_deadline n w o sg a2) when) as [Hs (it & Hit & Hw & Hng)].
    - apply (upd_structure e2 p _ a2); [done..|]. by apply same_place.
    - by apply objs_upd.
    - done.
    - split; [done|]. exists it. split; [done|]. split; [done|]. exact (eq_trans Hng Hg2). }
  rewrite Ha2. change (loading a2) with (loading a). change (storageError a2) with (storageError a).
  change (retry a2) with (retry a). change (spec a2) with (spec a) in *. change (rt a2) with (rt a).
  destruct (loading a || negb (bool_decide (storageError a = ""))) eqn:Els; intros Ht.
  { split; [done|]. split; [done|]. exists a2. split; [done|]. split; [done|]. intros Hr. unfold status.
    change (loading a2) with (loading a). change (storageError a2) with (storageError a). rewrite Els.
    split; [done|]. split; [done|]. rewrite (t_running _ _ _ Ht) in Hr. rewrite (t_eloading _ _ _ Ht). auto. }
  destruct (retry a) as [pr|] eqn:Er.
  { destruct (Hinst (now host clk + Z.max 0 (duration (after pr - sinceStart host clk))) zero_time true (clockGen e2)
      (now host clk + Z.max 0 (duration (after pr - sinceStart host clk)))) as [Hs (it & Hit & Hw & Hng)].
    split; [done|]. split; [done|]. eexists. split; [exact Hit|]. split; [done|]. intros _. unfold status. simpl.
    rewrite Els, Er. split; [by exists it|done]. }
  destruct (bool_decide (OnCalendar (spec a) = [])) eqn:Ecal; simpl negb; cbv iota.
  - apply bool_decide_eq_true in Ecal. destruct (nextDeadline_relative (spec a) (rt a) clk Ecal) as [[[n w] o] Hnd].
    rewrite Hnd in *. destruct o.
    + destruct (Hinst n w true (clockGen e2) n) as [Hs (it & Hit & Hw & Hng)].
      split; [done|]. split; [done|]. eexists. split; [exact Hit|]. split; [done|]. intros _. unfold status. simpl.
      rewrite Els, Er. split; [by exists it|by exists clk].
    + split; [|split; [done|]].
      { apply (upd_structure e2 p _ a2); [done..|]. by apply same_place. }
      eexists. split; [by apply objs_upd|]. split; [done|]. intros _. unfold status. simpl.
      rewrite Els, Er. split; [done|by exists clk].
  - destruct (start_planner_objs (upd p with_planning e2)) as [Ho Hng].
    split; [|split; [by rewrite Hng|]].
    { apply start_planner_structure. apply (upd_structure e2 p _ a2); [done..|]. by apply same_place. }
    exists (with_planning a2). split; [by rewrite Ho; apply objs_upd|]. split; [done|].
    intros Hr. unfold status. simpl. rewrite Els, Er. split; [done|]. split; [done|].
    apply bool_decide_eq_false in Ecal. split; [done|]. apply start_planner_runs.
    revert Hr. rewrite (t_running _ _ _ Ht). simpl. by rewrite (t_running _ _ _ Ht1).
Qed.

Lemma reschedule_clean clk D e p a : structure e → objs e !! p = Some a → arms e !! SName (spec a) = Some p →
  (running e = true → loading a = true → eloading e = true) → clean ({[p]} ∪ D) e →
  let e' := rescheduleLocked loc host clk p e in structure e' ∧ clean (D ∖ {[p]}) e'.
Proof.
  intros He Ha Hn Hl Hc. cbv zeta. destruct (reschedule_arm clk e p a He Ha Hn Hl) as (He' & _ & a' & Ha' & _ & Hst).
  split; [done|]. apply clean_one.
  - eapply touches_clean; [apply reschedule_touches|set_solver|done].
  - intros name b Hnb Hb Hr. rewrite Ha' in Hb. simplify_eq. by apply Hst.
Qed.

(** ** Critical sections keep the structure and the schedules *)

Definition core (e : Engine) : Prop := structure e ∧ clean ∅ e.

Lemma clean_same D e e' : clean D e → (running e' = true → running e = true) → arms e' = arms e → objs e' = objs e →
  (scheduling e = true → scheduling e' = true) → (eloading e = true → eloading e' = true) → clean D e'.
Proof.
  intros Hc Hr Ha Ho Hs Hl Hr' name p a. rewrite Ha, Ho. intros Hn Hp Hd.
  apply (status_mono e); [done..|]. by apply (Hc (Hr Hr') name p).
Qed.
Lemma core_same e e' : core e → (running e' = true → running e = true) → arms e' = arms e → objs e' = objs e →
  pq e' = pq e → (alloc e <= alloc e')%nat →
  (scheduling e = true → scheduling e' = true) → (eloading e = true → eloading e' = true) → core e'.
Proof. intros [Hs Hc] ???????. split; [by apply (same_structure e)|by apply (clean_same ∅ e)]. Qed.
Lemma kick_core e : core e → core (kickLocked e).
Proof. intros He. by apply (core_same e). Qed.

Lemma upd_clean D e p f : clean D e → clean ({[p]} ∪ D) (upd p f e).
Proof.
  intros Hc Hr name q a Hn Ha Hq. simpl in *. rewrite lookup_alter_ne in Ha by set_solver.
  apply (status_mono e); [done..|]. apply (Hc Hr name q a Hn Ha). set_solver.
Qed.

Lemma lookup_arm_Some e name p a : lookup_arm e name = Some (p, a) ↔ arms e !! name = Some p ∧ objs e !! p = Some a.
Proof.
  unfold lookup_arm. destruct (arms e !! name) as [q|]; simpl; [|naive_solver].
  destruct (objs e !! q) as [b|] eqn:E; simpl; naive_solver.
Qed.
Lemma lookup_arm_name e name p a : structure e → lookup_arm e name = Some (p, a) → SName (spec a) = name.
Proof.
  intros He [Hn Ha]%lookup_arm_Some. destruct (s_arms e He name p Hn) as (b & Hb & Hs). by simplify_eq.
Qed.

(** An update of one arm followed by its rescheduling. *)
Lemma update_reschedule clk e p a f : structure e → clean {[p]} e → objs e !! p = Some a →
  arms e !! SName (spec a) = Some p → keeps_place f a → (running e = true → loading (f a) = true → eloading e = true) →
  core (rescheduleLocked loc host clk p (upd p f e)).
Proof.
  intros He Hc Ha Hn Hk Hl.
  destruct (reschedule_clean clk ∅ (upd p f e) p (f a)) as [Hs Hcl].
  - by apply (upd_structure e p f a).
  - by apply objs_upd.
  - by rewrite (proj1 (proj2 Hk)).
  - done.
  - rewrite union_empty_r_L. intros Hr name q b Hnq Hb Hq. simpl in *. rewrite lookup_alter_ne in Hb by set_solver.
    apply (status_mono e); [done..|]. by apply (Hc Hr name q).
  - split; [done|]. revert Hcl. apply clean_mono. set_solver.
Qed.
Lemma core_dirty p e : core e → clean {[p]} e.
Proof. intros [_ Hc]. by apply (clean_mono ∅). Qed.

Lemma core_loading e name p a : core e → arms e !! name = Some p → objs e !! p = Some a →
  running e = true → loading a = true → eloading e = true.
Proof.
  intros He Hp Ha Er Hl. pose proof (proj2 He Er name p a Hp Ha ltac:(set_solver)) as Hst.
  unfold status in Hst. rewrite Hl in Hst. by apply Hst.
Qed.
(** ... of an arm in a sound state, by an update that does not start a load. *)
Lemma core_update clk e name p a f : core e → lookup_arm e name = Some (p, a) → keeps_place f a →
  (loading (f a) = true → loading a = true) →
  core (kickLocked (rescheduleLocked loc host clk p (upd p f e))).
Proof.
  intros He E Hk Hl. pose proof (lookup_arm_name e name p a (proj1 He) E) as Hn.
  apply lookup_arm_Some in E as [Hp Ha]. apply kick_core, (update_reschedule clk e p a); try done.
  - apply He.
  - by apply core_dirty.
  - by rewrite Hn.
  - intros Hr Hlf. apply (core_loading e name p a); auto.
Qed.

Lemma unit_active_core clk unit when e name : core e → core (unit_active_arm loc host clk unit when e name).
Proof.
  intros He. unfold unit_active_arm. destruct (lookup_arm e name) as [[p a]|] eqn:E; [|done].
  destruct (_ || _); [done|]. by apply (core_update clk e name p a _ He E); [apply same_place|].
Qed.
Lemma Retry_core clk ev e : core e → core (Retry loc host clk ev e).
Proof.
  intros He. unfold Retry. destruct (lookup_arm e (FName ev)) as [[p a]|] eqn:E; [|done].
  destruct (bool_decide (token a = Token ev)) eqn:Et; [|by destruct (running e)]. apply bool_decide_eq_true in Et.
  destruct (_ || _); [done|]. apply (core_update clk e _ p a _ He E); [|done]. apply same_place; try done.
  intros _ pr. simpl. intros [= <-]. simpl. split; [done|]. symmetry. by apply (lookup_arm_name e _ p a (proj1 He) E).
Qed.
Lemma persist_done_core clk ev q failure e : core e → core (persist_done loc host clk ev q failure e).2.
Proof.
  intros He. unfold persist_done. destruct (objs e !! q) as [a|] eqn:Ea; [|done].
  destruct (bool_decide (arms e !! FName ev = Some q)) eqn:En; [|by destruct (running e)].
  apply bool_decide_eq_true in En. destruct (_ || _); [done|]. destruct failure as [m|]; [|done]. simpl.
  apply (core_update clk e (FName ev) q a); [done|by apply lookup_arm_Some|by apply same_place|done].
Qed.

Lemma core_stopped e : structure e → running e = false → core e.
Proof. intros He Hr. split; [done|]. intros Hr'. congruence. Qed.

Lemma callback_done_core clk p ev e : core e → core (callback_done loc host clk p ev e).
Proof.
  intros He. unfold callback_done. set (e1 := set_activeFires _ e).
  assert (core e1) as He1 by (by apply (core_same e)).
  destruct (objs e1 !! p) as [a|] eqn:Ea; [|by apply kick_core].
  destruct (bool_decide (arms e1 !! FName ev = Some p)) eqn:En; [|by apply kick_core].
  apply bool_decide_eq_true in En. destruct (bool_decide (token a = Token ev)); [|by apply kick_core].
  simpl andb. cbv iota zeta. set (f := λ a : armed, with_storage _ _ _).
  change (running (upd p f e1)) with (running e1). destruct (running e1) eqn:Er.
  - apply (core_update clk e1 (FName ev) p a); [done|by apply lookup_arm_Some|by apply same_place|done].
  - apply kick_core, core_stopped; [|done]. apply (upd_structure e1 p f a); [apply He1|done|by apply same_place].
Qed.

(** A change of the state that planning does not read. *)
Lemma upd_core e name p a f : core e → lookup_arm e name = Some (p, a) → keeps_place f a →
  (∀ e, status e a → status e (f a)) → core (upd p f e).
Proof.
  intros [Hs Hc] [Hn Ha]%lookup_arm_Some Hk Hst. split; [by apply (upd_structure e p f a)|].
  intros Hr nm q b Hnq Hb Hq. simpl in *. destruct (decide (q = p)) as [->|Hne].
  - rewrite lookup_alter_eq, Ha in Hb. simpl in Hb. simplify_eq.
    apply (status_mono e); [done..|]. apply Hst. by apply (Hc Hr nm p).
  - rewrite lookup_alter_ne in Hb by done. apply (status_mono e); [done..|]. by apply (Hc Hr nm q).
Qed.

Lemma record_done_core q ev r e :
  (∀ a, objs e !! q = Some a → arms e !! FName ev = Some q → token a = Token ev → retry a = None) →
  core e → core (record_done q ev r e).
Proof.
  intros Hret He. unfold record_done. destruct (objs e !! q) as [a|] eqn:Ea; [|done].
  destruct (running e && bool_decide (arms e !! FName ev = Some q) && bool_decide (token a = Token ev) && _) eqn:Eg; [|done].
  rewrite !andb_true_iff, !bool_decide_eq_true in Eg. destruct Eg as [[[_ En] Et] _].
  specialize (Hret a eq_refl En Et).
  apply (upd_core e (FName ev) q a); [done|by apply lookup_arm_Some|by apply same_place|].
  intros e0. unfold status. simpl. rewrite Hret. destruct (_ || _); [done|]. destruct (planning a); [done|].
  intros [H1 [clk H2]]. split; [done|]. exists clk. simpl. etrans; [|exact H2]. by apply nextDeadline_same.
Qed.

Lemma start_loader_core e : structure e → structure (start_loader e) ∧ eloading (start_loader e) = true ∧
  (∀ D, clean D e → clean D (start_loader e)) ∧ objs (start_loader e) = objs e ∧ arms (start_loader e) = arms e ∧
  running (start_loader e) = running e.
Proof.
  intros He. unfold start_loader. destruct (eloading e) eqn:E; simpl; [done|].
  split_and!; try done; [by apply (same_structure e)|]. intros D Hc. by apply (clean_same D e).
Qed.

Lemma load_publish_core clk q name res e : core e → core (load_publish loc host clk q name res e).
Proof.
  intros He. unfold load_publish, load_current. destruct (objs e !! q) as [a|] eqn:Ea; [|done].
  destruct (running e && bool_decide (arms e !! name = Some q) && loading a) eqn:Eg; [|done].
  rewrite !andb_true_iff, !bool_decide_eq_true in Eg. destruct Eg as [[_ En] Hl]. simpl negb. cbv iota.
  apply (core_update clk e name q a); [done|by apply lookup_arm_Some| |by intros _].
  destruct res as [r|m]; [|by apply same_place]. cbv beta zeta.
  assert (SName (spec a) = name) as Hname by (eapply (lookup_arm_name e); [apply He|by apply lookup_arm_Some]).
  apply same_place; cbv beta zeta; (destruct (bool_decide _); [|done]); simpl; (destruct (_ || _ || _); [done|]); try done.
  intros _ pr. simpl. intros [= <-]. by simpl.
Qed.

(** Adding and dropping arms. *)
Lemma fresh_structure e s t : structure e → arms e !! SName s = None → (size (arms e) < MaxArmedTimers)%nat →
  structure (set_arms (<[SName s := alloc e]> (arms e))
    (set_objs (<[alloc e := fresh_arm t s]> (objs e)) (set_alloc (S (alloc e)) e))).
Proof.
  intros He Hn Hsz.
  assert (objs e !! alloc e = None) as Hnew.
  { destruct (objs e !! alloc e) as [a|] eqn:E; [|done]. pose proof (s_objs e He _ _ E). lia. }
  split; simpl.
  - apply He.
  - intros it Hit. pose proof (s_iids e He it Hit). lia.
  - intros p a. destruct (decide (p = alloc e)) as [->|Hp]; [lia|]. rewrite lookup_insert_ne by done.
    intros Ha. pose proof (s_objs e He _ _ Ha). lia.
  - intros name p. destruct (decide (name = SName s)) as [->|Hnm].
    + rewrite lookup_insert_eq. intros [= <-]. rewrite lookup_insert_eq. by eexists.
    + rewrite lookup_insert_ne by done. intros Hp. destruct (s_arms e He name p Hp) as (a & Ha & Hs).
      exists a. rewrite lookup_insert_ne; [done|congruence].
  - intros p a it. destruct (decide (p = alloc e)) as [->|Hp].
    + rewrite lookup_insert_eq. intros [= <-]. done.
    + rewrite lookup_insert_ne by done. intros Ha Hit. destruct (s_items e He p a it Ha Hit) as (? & Hnm & ?).
      split; [done|]. split; [|done]. rewrite lookup_insert_ne; [done|]. intros E. congruence.
  - intros it Hit. destruct (s_slots e He it Hit) as (p & a & Ha & Hi). exists p, a. by rewrite lookup_insert_ne by congruence.
  - rewrite map_size_insert_None by done. lia.
  - intros p a. destruct (decide (p = alloc e)) as [->|Hp]; [rewrite lookup_insert_eq; by intros [= <-]|].
    rewrite lookup_insert_ne by done. apply (s_retry e He).
Qed.

Lemma drop_structure e name p : structure e → arms e !! name = Some p →
  (∀ a, objs e !! p = Some a → item a = None) → structure (set_arms (delete name (arms e)) e).
Proof.
  intros He Hn Hi. split; simpl; try apply He.
  - intros nm q [_ Hq]%lookup_delete_Some. by apply (s_arms e He).
  - intros q a it Ha Hit. destruct (s_items e He q a it Ha Hit) as (? & Hnm & ?). split; [done|]. split; [|done].
    rewrite lookup_delete_ne; [done|]. intros E. rewrite <- E, Hn in Hnm. simplify_eq. by rewrite (Hi a Ha) in Hit.
  - rewrite map_size_delete. pose proof (s_size e He). destruct (arms e !! name); simpl; lia.
Qed.
Lemma drop_arm_core name e : core e → core (drop_arm name e).
Proof.
  intros He. unfold drop_arm. destruct (lookup_arm e name) as [[p a]|] eqn:E; [|done].
  apply lookup_arm_Some in E as [Hn Ha]. destruct He as [Hs Hc].
  destruct (remove_spec e p a Hs Ha) as (Hs1 & Ha1 & _). pose proof (removeDeadline_touches p e) as Ht.
  set (e1 := removeDeadlineLocked p e) in *. set (e2 := upd p with_dropped e1).
  assert (structure e2) as Hs2.
  { apply (upd_structure e1 p _ (with_item None a)); [done..|]. split; [done|]. split; [done|]. split; [by right|done]. }
  split.
  - apply (drop_structure e2 name p); [done|by simpl; rewrite (t_arms _ _ _ Ht)|].
    intros b. unfold e2. rewrite (objs_upd e1 p _ _ Ha1). by intros [= <-].
  - intros Hr nm q b Hq Hb _. simpl in *. apply lookup_delete_Some in Hq as [Hne Hq].
    assert (q ≠ p) as Hqp.
    { intros ->. rewrite (t_arms _ _ _ Ht) in Hq. destruct Hne. by apply (arms_inj e name nm p). }
    rewrite lookup_alter_ne in Hb by done. rewrite (t_arms _ _ _ Ht) in Hq. rewrite (t_others _ _ _ Ht) in Hb by done.
    rewrite (t_running _ _ _ Ht) in Hr. apply (status_mono e); [apply Ht|by simpl; rewrite (t_eloading _ _ _ Ht)|].
    apply (Hc Hr nm q b Hq Hb). set_solver.
Qed.

Lemma foldl_core (f : Engine → string → Engine) order e : (∀ e name, core e → core (f e name)) → core e →
  core (foldl f e order).
Proof. intros Hf. revert e. induction order as [|n l IH]; intros e He; simpl; auto. Qed.

Lemma Arm_core clk s e : core e → core (Arm loc host clk s e).2.
Proof.
  intros He. unfold Arm. destruct (_ || _ || _); [done|].
  destruct (lookup_arm e (SName s)) as [[p a]|] eqn:E.
  - pose proof (lookup_arm_name e _ p a (proj1 He) E) as Hn. pose proof E as [Hp Ha]%lookup_arm_Some. cbv zeta.
    set (e1 := set_nextArm _ e). assert (core e1) as He1 by (by apply (core_same e)).
    set (f := with_arm _ s).
    assert (keeps_place f a) as Hf by (split; [done|split; [by rewrite Hn|split; [by left|done]]]).
    destruct (_ || _); simpl snd.
    + assert (structure (upd p f e1)) as Hs2 by (apply (upd_structure e1 p f a); [apply He1|done|done]).
      assert (structure (upd p (with_storage true "") (upd p f e1))) as Hs3.
      { apply (upd_structure (upd p f e1) p _ (f a)); [done|by apply objs_upd|by apply same_place]. }
      destruct (start_loader_core _ Hs3) as (Hs4 & Hl4 & Hc4 & Ho4 & Ha4 & Hr4).
      set (e4 := start_loader _) in *. set (b := with_storage true "" (f a)).
      assert (objs e4 !! p = Some b) as Hb by (rewrite Ho4; by apply objs_upd, objs_upd).
      destruct (reschedule_clean clk ∅ e4 p b) as [Hs5 Hc5]; [done|done|by rewrite Ha4|done| |].
      * rewrite union_empty_r_L. apply Hc4. rewrite <- (union_idemp_L {[p]}).
        apply upd_clean. rewrite <- (union_empty_r_L {[p]}). apply upd_clean, He1.
      * apply kick_core. split; [done|]. revert Hc5. apply clean_mono. set_solver.
    + apply (core_update clk e1 (SName s) p a); [done|by apply lookup_arm_Some|done|done].
  - destruct (bool_decide (MaxArmedTimers <= size (arms e))%nat) eqn:Esz; [done|]. apply bool_decide_eq_false in Esz.
    assert (arms e !! SName s = None) as Hnone.
    { destruct (arms e !! SName s) as [p|] eqn:En; [|done]. destruct (s_arms e (proj1 He) _ _ En) as (a & Ha & _).
      by rewrite (proj2 (lookup_arm_Some e (SName s) p a)) in E. }
    cbv zeta. simpl snd. set (e1 := set_nextArm _ e). change (alloc e) with (alloc e1).
    assert (core e1) as He1 by (by apply (core_same e)).
    pose proof (fresh_structure e1 s (nextArm e1) (proj1 He1) Hnone ltac:(simpl; lia)) as Hs2.
    set (p := alloc e1) in *. set (e2 := set_arms _ (set_objs _ (set_alloc _ e1))) in *.
    assert (clean {[p]} e2) as Hc2.
    { intros Hr nm q b Hq Hb Hqp. simpl in *. rewrite lookup_insert_ne in Hb by set_solver.
      destruct (decide (nm = SName s)) as [->|Hne]; [rewrite lookup_insert_eq in Hq; set_solver|].
      rewrite lookup_insert_ne in Hq by done. apply (status_mono e1); [done..|].
      apply (proj2 He1 Hr nm q b Hq Hb). set_solver. }
    assert (objs e2 !! p = Some (fresh_arm (nextArm e1) s)) as Ha2 by (simpl; by rewrite lookup_insert_eq).
    assert (arms e2 !! SName s = Some p) as Hp2 by (simpl; by rewrite lookup_insert_eq).
    change (stored e2) with (stored e). destruct (stored e).
    + assert (structure (upd p (with_storage true "") e2)) as Hs3 by (eapply upd_structure; [done|done|by apply same_place]).
      destruct (start_loader_core _ Hs3) as (Hs4 & Hl4 & Hc4 & Ho4 & Ha4 & Hr4).
      set (e4 := start_loader _) in *.
      destruct (reschedule_clean clk ∅ e4 p (with_storage true "" (fresh_arm (nextArm e1) s))) as [Hs5 Hc5];
        [done|by rewrite Ho4; apply objs_upd|by rewrite Ha4|done| |].
      * rewrite union_empty_r_L. apply Hc4. rewrite <- (union_idemp_L {[p]}). by apply upd_clean.
      * apply kick_core. split; [done|]. revert Hc5. apply clean_mono. set_solver.
    + destruct (reschedule_clean clk ∅ e2 p _ Hs2 Ha2 Hp2) as [Hs5 Hc5]; [done|by rewrite union_empty_r_L|].
      apply kick_core. split; [done|]. revert Hc5. apply clean_mono. set_solver.
Qed.

End schedules.
