(* ===== verification/TimerEngineDue.v ===== *)
(** * The timer engine: planning and dispatch

    The planner's results, the dispatch of due timers and the loop's waits keep
    the structure and the schedules of [TimerEngineInv]; dispatching ends, and
    leaves nothing due that could be dispatched. *)

From S2P Require Import Prelude GoStrings GoText GoTime Calendar TimerSchedule ContainerHeap DeadlineHeap TimerEngine TimerEngineInv.

#[local] Open Scope Z_scope.

Section dispatch.
Variable loc : Location.
Variable host : platform.
#[local] Notation core := (core loc host).
#[local] Notation status := (status loc host).
#[local] Notation clean := (clean loc host).

(** ** Planning *)

(** What planning reads of a timer's state. *)
Definition same_schedule (r r' : Runtime) : Prop :=
  LastActual r = LastActual r' ∧ LastUnitActive r = LastUnitActive r' ∧
  FiredBoot r = FiredBoot r' ∧ FiredStartup r = FiredStartup r'.

(** The job is about the present schedule, or its generation is past. *)
Definition job_ok (e : Engine) (j : plan_job) : Prop :=
  (pj_gen j <= nextGen e)%nat ∧
  ∀ a, objs e !! pj_arm j = Some a → arms e !! pj_name j = Some (pj_arm j) → gen a = pj_gen j →
    spec a = pj_spec j ∧ same_schedule (rt a) (pj_rt j).

Lemma plan_publish_core clk j when wl found e : job_ok e j →
  nextDeadline loc host (pj_spec j) (pj_rt j) clk = Some (when, wl, found) →
  core e → core (plan_publish j when wl found e).
Proof.
  intros [_ Hj] Hnd He. unfold plan_publish. destruct (objs e !! pj_arm j) as [a|] eqn:Ea; [|done].
  destruct (running e && bool_decide (arms e !! pj_name j = Some (pj_arm j)) && bool_decide (gen a = pj_gen j) &&
    bool_decide (clockGen e = pj_clockGen j) && planning a) eqn:Eg; [|done].
  rewrite !andb_true_iff, !bool_decide_eq_true in Eg. destruct Eg as [[[[Er En] Hg] _] Hpl].
  destruct (Hj a eq_refl En Hg) as [Hsp (S1 & S2 & S3 & S4)].
  pose proof (proj2 He Er _ _ a En Ea ltac:(set_solver)) as Hst. unfold TimerEngineInv.status in Hst. rewrite Hpl in Hst.
  destruct (loading a || negb (bool_decide (storageError a = ""))) eqn:Els; [by destruct Hst as (_ & ? & _)|].
  destruct Hst as (Hi & Hret & _ & _).
  destruct (s_arms e (proj1 He) _ _ En) as (b & Hb & Hn). simplify_eq.
  set (p := pj_arm j) in *. set (f := with_deadline when wl found (pj_clockGen j)).
  assert (computed loc host (f a)) as Hcomp.
  { exists clk. simpl. rewrite Hsp, <- Hnd. by apply nextDeadline_same. }
  assert (structure (upd p f e)) as Hs1 by (apply (upd_structure e p f a); [apply He|done|by apply same_place]).
  assert (clean {[p]} (upd p f e)) as Hc1.
  { rewrite <- (union_empty_r_L {[p]}). apply upd_clean, He. }
  cbv zeta. destruct found.
  - rewrite <- Hg. change (gen a) with (gen (f a)).
    destruct (install_spec (upd p f e) p (f a) when Hs1) as [Hs2 (it & Hit & Hw & _)]; [by apply objs_upd|by simpl; rewrite Hn|].
    apply kick_core. split; [done|]. apply (clean_mono _ _ (∅ ∖ {[p]})); [set_solver|]. apply clean_one.
    + rewrite union_empty_r_L. eapply touches_clean; [apply installDeadline_touches|set_solver|done].
    + intros nm b Hnb Hb _. rewrite Hit in Hb. simplify_eq. unfold TimerEngineInv.status. simpl. rewrite Els, Hret.
      split; [by exists it|done].
  - apply kick_core. split; [done|]. apply (clean_mono _ _ (∅ ∖ {[p]})); [set_solver|]. apply clean_one.
    + by rewrite union_empty_r_L.
    + intros nm b Hnb Hb _. rewrite (objs_upd e p f a Ea) in Hb. simplify_eq. unfold TimerEngineInv.status. simpl.
      rewrite Els, Hret. done.
Qed.

(** The planner finds a waiting arm if there is one. *)
Lemma pick_plan_finds e order acc : (∃ name p a, name ∈ order ∧ lookup_arm e name = Some (p, a) ∧ planning a = true) ∨
  is_Some acc.2 → is_Some (foldl (pick_plan e) acc order).2.
Proof.
  revert acc. induction order as [|name order IH]; intros acc H; simpl.
  - destruct H as [(? & ? & ? & ?%not_elem_of_nil & _)|?]; done.
  - apply IH. unfold pick_plan.
    assert (is_Some acc.2 → is_Some (pick_plan e acc name).2) as Hkeep.
    { unfold pick_plan. repeat case_match; simpl; eauto. }
    destruct H as [(nm & p & a & [->|Hin]%elem_of_cons & Hl & Hpl)|H]; [right|left; by exists nm, p, a|right; by apply Hkeep].
    rewrite Hl, Hpl. simpl. case_match; [eauto|].
    destruct acc.2 as [[q b]|]; [eauto|done].
Qed.
Lemma plan_pick_core order e : order ≡ₚ keys (arms e) → core e → core (plan_pick order e).2.
Proof.
  intros Ho He. unfold plan_pick. destruct (running e) eqn:Er.
  2:{ simpl. apply core_stopped; [|done]. apply (same_structure e); [apply He|done..]. }
  destruct (foldl (pick_plan e) (None, None) order) as [nxt first] eqn:Ef.
  destruct (match nxt with Some x => Some x | None => first end) as [[p a]|] eqn:Ep; simpl; [by apply (core_same loc host e)|].
  destruct nxt; [done|]. subst first.
  split; [by apply (same_structure e); [apply He|..]|]. intros _ nm q b Hq Hb _. simpl in *.
  pose proof (proj2 He Er nm q b Hq Hb ltac:(set_solver)) as Hst. unfold TimerEngineInv.status in *.
  destruct (_ || _); [done|]. destruct (planning b) eqn:Epl; [|done]. exfalso.
  destruct (pick_plan_finds e order (None, None)) as [x Hx]; [|by rewrite Ef in Hx].
  left. exists nm, q, b. split; [|split; [by apply lookup_arm_Some|done]].
  rewrite Ho. apply elem_of_keys. eauto.
Qed.
(** A picked job is about the present schedule. *)
Lemma pick_plan_armed e order acc x : (∀ y, acc.1 = Some y ∨ acc.2 = Some y → ∃ nm, lookup_arm e nm = Some y) →
  (foldl (pick_plan e) acc order).1 = Some x ∨ (foldl (pick_plan e) acc order).2 = Some x →
  ∃ nm, lookup_arm e nm = Some x.
Proof.
  revert acc. induction order as [|name order IH]; intros acc Hacc; simpl; [by apply Hacc|].
  apply IH. intros y. unfold pick_plan. destruct (lookup_arm e name) as [[p a]|] eqn:E; [|apply Hacc].
  destruct (negb (planning a)); [apply Hacc|]. simpl.
  intros [H|H]; (case_match; [simplify_eq; eauto|]); apply Hacc; [by left|by right].
Qed.
Lemma plan_pick_job order e j e' : structure e → (∀ name p a, lookup_arm e name = Some (p, a) → gen a <= nextGen e)%nat →
  plan_pick order e = (Some j, e') → job_ok e' j.
Proof.
  intros He Hgen. unfold plan_pick.
  destruct (if running e then foldl (pick_plan e) (None, None) order else (None, None)) as [nxt first] eqn:Ef.
  destruct (match nxt with Some x => Some x | None => first end) as [[p a]|] eqn:Ep; [|done].
  intros [= <- <-]. assert (∃ nm, lookup_arm e nm = Some (p, a)) as [nm Hl].
  { destruct (running e); [|by simplify_eq]. apply (pick_plan_armed e order (None, None)); [by intros y [|]|].
    rewrite Ef. simpl. destruct nxt; [by left|by right]. }
  split; simpl; [by eapply Hgen|]. intros b Hb Hn _. apply lookup_arm_Some in Hl as [_ Ha]. by simplify_eq.
Qed.

Lemma load_pick_core order e : order ≡ₚ keys (arms e) → core e → core (load_pick order e).2.
Proof.
  intros Ho He. unfold load_pick. set (waiting := λ name, _). destruct (running e) eqn:Er.
  2:{ simpl. apply core_stopped; [|done]. apply (same_structure e); [apply He|done..]. }
  destruct (head (omap waiting order)) as [x|] eqn:Eh; simpl; [done|].
  split; [by apply (same_structure e); [apply He|..]|]. intros _ nm q b Hq Hb _. simpl in *.
  pose proof (proj2 He Er nm q b Hq Hb ltac:(set_solver)) as Hst. unfold TimerEngineInv.status in *.
  assert (loading b = false) as Hl.
  { destruct (loading b) eqn:El; [|done]. apply head_None in Eh.
    assert ((q, SName (spec b)) ∈ omap waiting order) as Hin; [|by rewrite Eh in Hin; apply not_elem_of_nil in Hin].
    apply list_elem_of_omap. exists nm. split; [rewrite Ho; apply elem_of_keys; eauto|]. unfold waiting.
    by rewrite (proj2 (lookup_arm_Some e nm q b)), El. }
  rewrite Hl in *. destruct (_ || _); [|done]. destruct Hst as (? & ? & _). done.
Qed.

(** ** Dispatch *)

Variable clk : Clock.

(** [scan_due] finds the least due item, if there is one. *)
Definition found_due (e : Engine) (t : Z) (l : list pqItem) (o : option nat) : Prop :=
  match o with
  | Some b => ∃ it, slots (pq e) !! b = Some it ∧ due_now host clk e t it = true ∧
      ∀ it', it' ∈ l → due_now host clk e t it' = true → sooner it it'
  | None => ∀ it', it' ∈ l → due_now host clk e t it' = false
  end.
Lemma scan_due_spec e t pre l best : slots (pq e) = pre ++ l → found_due e t pre best →
  found_due e t (slots (pq e)) (scan_due host clk e t l (length pre) best).
Proof.
  revert pre best. induction l as [|it l IH]; intros pre best Hs Hf; simpl; [by rewrite Hs, app_nil_r|].
  replace (S (length pre)) with (length (pre ++ [it])) by (rewrite length_app; simpl; lia).
  apply IH; [by rewrite <- app_assoc|].
  assert (slots (pq e) !! length pre = Some it) as Hit by (rewrite Hs; by apply list_lookup_middle).
  destruct (due_now host clk e t it) eqn:Ed.
  - destruct best as [b|]; simpl in *.
    + destruct Hf as (x & Hx & Hdx & Hmin). unfold pq_Less. rewrite Hit, Hx.
      destruct (less it x) eqn:El; simpl.
      * exists it. split; [done|]. split; [done|]. intros y [Hy| ->%list_elem_of_singleton]%elem_of_app Hdy.
        -- assert (sooner it x) as Hix. { destruct (le_total it x) as [?|H]; [done|]. unfold sooner in H. by rewrite El in H. }
           eapply le_trans; [exact Hix|by apply Hmin].
        -- by destruct (le_total it it).
      * exists x. split; [done|]. split; [done|]. intros y [Hy| ->%list_elem_of_singleton]%elem_of_app Hdy; [by apply Hmin|done].
    + exists it. split; [done|]. split; [done|]. intros y [Hy| ->%list_elem_of_singleton]%elem_of_app Hdy.
      * rewrite Hf in Hdy by done. done.
      * by destruct (le_total it it).
  - destruct best as [b|]; simpl in *.
    + destruct Hf as (x & Hx & Hdx & Hmin). exists x. split; [done|]. split; [done|].
      intros y [Hy| ->%list_elem_of_singleton]%elem_of_app Hdy; [by apply Hmin|congruence].
    + intros y [Hy| ->%list_elem_of_singleton]%elem_of_app; [by apply Hf|done].
Qed.

(** Popping takes the least due timer out of the queue, as [removeDeadlineLocked] would. *)
Lemma popDue_spec t e : structure e →
  match popDueLocked host clk t e with
  | (None, e') => e' = e ∧ ∀ it, it ∈ slots (pq e) → due_now host clk e t it = false
  | (Some due, e') => ∃ a it, objs e !! instance due = Some a ∧ item a = Some it ∧ it ∈ slots (pq e) ∧
      arms e !! SName (spec a) = Some (instance due) ∧ generation due = gen a ∧
      firing a = false ∧ (activeFires e < maxTimerCallbacks)%nat ∧ itemDueLocked host clk a t = true ∧
      e' = removeDeadlineLocked (instance due) e ∧
      ∀ it', it' ∈ slots (pq e) → due_now host clk e t it' = true → sooner it it'
  end.
Proof.
  intros He. unfold popDueLocked. rewrite dropStale_none by done.
  pose proof (scan_due_spec e t [] (slots (pq e)) None eq_refl ltac:(by intros ? ?%not_elem_of_nil)) as Hscan.
  simpl length in Hscan. destruct (scan_due _ _ _ _ _ _ _) as [b|]; [|done].
  destruct Hscan as (it & Hb & Hdue & Hmin). pose proof (list_elem_of_lookup_2 _ _ _ Hb) as Hin.
  destruct (s_slots e He it Hin) as (p & a & Ha & Hi). destruct (s_items e He p a it Ha Hi) as (_ & Hn & Hg).
  destruct (queue_Remove (pq e) b it (s_queue e He) Hb) as (h' & Hr & _ & _). rewrite Hr.
  assert (lookup_arm (set_pq h' e) (iname it) = Some (p, a)) as -> by (by apply lookup_arm_Some).
  rewrite (bool_decide_true (item a = Some it)) by done.
  assert (SName (spec a) = iname it) as Hname by (by apply (lookup_arm_name e _ p); [|apply lookup_arm_Some]).
  unfold due_now, dispatchable in Hdue. rewrite (proj2 (lookup_arm_Some e (iname it) p a)) in Hdue by done.
  rewrite !andb_true_iff, !bool_decide_eq_true, negb_true_iff in Hdue. destruct Hdue as [[[_ Hf] Hact] Hd].
  exists a, it. simpl. rewrite Hname. split_and!; try done.
  unfold removeDeadlineLocked. rewrite Ha. cbn [mbind option_bind]. rewrite Hi.
  rewrite (proj1 (proj2 (s_queue e He)) b it Hb). change (default (-1) (Some (Z.of_nat b))) with (Z.of_nat b).
  pose proof (lookup_lt_Some _ _ _ Hb). rewrite (proj2 (Z.leb_le _ _)) by lia.
  rewrite (proj2 (Z.ltb_lt _ _)) by (unfold pq_Len; lia). rewrite Nat2Z.id, bool_decide_true by done.
  cbn [andb]. by rewrite Hr.
Qed.

Lemma accept_due_spec due actual a e : retry_ok a →
  let '(ev, r, e') := accept_due host clk due actual a e in
  Token ev = token a ∧ FName ev = SName (spec a) ∧ (e' = e ∨ e' = set_nextActivation (S (nextActivation e)) e).
Proof.
  intros Hr. unfold accept_due. destruct (retry a) as [pr|] eqn:E.
  - destruct (Hr pr E) as [? ?]. split; [done|]. split; [done|by left].
  - destruct (_ && _); simpl; (split; [done|]); (split; [done|]); [by right|by left].
Qed.

(** Consuming what was just popped starts exactly one callback. *)
Lemma consume_popped due t e a : core e → objs e !! instance due = Some a →
  arms e !! SName (spec a) = Some (instance due) → generation due = gen a → firing a = false →
  (activeFires e < maxTimerCallbacks)%nat →
  let e1 := removeDeadlineLocked (instance due) e in
  let e' := consumeLocked loc host clk due t e1 in
  (running e = false → e' = e1) ∧
  (running e = true → ∃ ev r e2, accept_due host clk due t (with_item None a) e1 = (ev, r, e2) ∧
    e' = kickLocked (rescheduleLocked loc host clk (instance due)
      (spawn (TCallback (instance due) ev r (CbPersist PWait)) (set_activeFires (S (activeFires e))
        (upd (instance due) (λ a, with_firing true (with_rt r (with_retry None a))) e2))))).
Proof.
  intros He Ha Hn Hg Hf Hact. cbv zeta. set (p := instance due) in *.
  destruct (remove_spec e p a (proj1 He) Ha) as (Hs1 & Ha1 & _). pose proof (removeDeadline_touches p e) as Ht.
  set (e1 := removeDeadlineLocked p e) in *. unfold consumeLocked. fold p. rewrite Ha1.
  change (SName (spec (with_item None a))) with (SName (spec a)). change (gen (with_item None a)) with (gen a).
  change (firing (with_item None a)) with (firing a). change (token (with_item None a)) with (token a).
  rewrite (t_running _ _ _ Ht), (t_arms _ _ _ Ht), (t_activeFires _ _ _ Ht).
  rewrite (bool_decide_true (arms e !! _ = _)), (bool_decide_true (gen a = _)), Hf by done.
  rewrite (bool_decide_true (_ < _)%nat) by done. simpl negb. rewrite !orb_false_r.
  split; intros ->; cbn [negb orb]; [done|].
  assert (retry_ok (with_item None a)) as Hro by (exact (s_retry e (proj1 He) p a Ha)).
  pose proof (accept_due_spec due t (with_item None a) e1 Hro) as Hacc.
  destruct (accept_due host clk due t (with_item None a) e1) as [[ev r] e2].
  destruct Hacc as (Htok & _ & He2). exists ev, r, e2. split; [done|].
  rewrite (bool_decide_true (token a = Token ev)) by done.
  assert (activeFires (upd p (λ a0, with_firing true (with_rt r (with_retry None a0))) e2) = activeFires e) as ->; [|done].
  destruct He2 as [-> | ->]; simpl; by rewrite (t_activeFires _ _ _ Ht).
Qed.

Lemma consume_core due t e a : core e → objs e !! instance due = Some a →
  arms e !! SName (spec a) = Some (instance due) → generation due = gen a → firing a = false →
  (activeFires e < maxTimerCallbacks)%nat →
  let e' := consumeLocked loc host clk due t (removeDeadlineLocked (instance due) e) in
  core e' ∧ running e' = running e ∧ (running e = true → activeFires e' = S (activeFires e)).
Proof.
  intros He Ha Hn Hg Hf Hact. cbv zeta.
  destruct (consume_popped due t e a He Ha Hn Hg Hf Hact) as [Hst Hrun]. cbv zeta in Hst, Hrun.
  set (p := instance due) in *. destruct (remove_spec e p a (proj1 He) Ha) as (Hs1 & Ha1 & _).
  pose proof (removeDeadline_touches p e) as Ht. set (e1 := removeDeadlineLocked p e) in *.
  destruct (running e) eqn:Er.
  2:{ rewrite Hst by done. pose proof (t_running _ _ _ Ht) as Er1. rewrite Er in Er1. split; [by apply core_stopped|done]. }
  destruct (Hrun eq_refl) as (ev & r & e2 & Hacc & ->).
  pose proof (accept_due_spec due t (with_item None a) e1 (s_retry e (proj1 He) p a Ha)) as Hspec.
  rewrite Hacc in Hspec. destruct Hspec as (_ & _ & He2).
  set (f := λ a, with_firing true (with_rt r (with_retry None a))).
  set (e3 := spawn (TCallback p ev r (CbPersist PWait)) (set_activeFires (S (activeFires e)) e2)).
  change (spawn (TCallback p ev r (CbPersist PWait)) (set_activeFires (S (activeFires e)) (upd p f e2))) with (upd p f e3).
  assert (structure e3 ∧ objs e3 = objs e1 ∧ arms e3 = arms e ∧ clean {[p]} e3 ∧ running e3 = true ∧
    activeFires e3 = S (activeFires e)) as (Hs3 & Ho3 & Ha3 & Hc3 & Hr3 & Hf3).
  { assert (clean {[p]} e1) as Hc1 by (eapply touches_clean; [exact Ht|set_solver|by apply core_dirty]).
    destruct He2 as [-> | ->]; (split_and!; [by apply (same_structure e1)|done|by simpl; rewrite (t_arms _ _ _ Ht)
      |by apply (clean_same loc host _ e1)|by simpl; rewrite (t_running _ _ _ Ht)|done]). }
  pose proof (reschedule_touches loc host clk p (upd p f e3)) as Ht'.
  split; [|split].
  - apply kick_core. apply (update_reschedule loc host clk e3 p (with_item None a) f); try done; [by rewrite Ho3|by rewrite Ha3| |].
    + by apply same_place.
    + intros _ Hl. change (loading a = true) in Hl. assert (eloading e3 = eloading e) as ->.
      { destruct He2 as [-> | ->]; exact (t_eloading _ _ _ Ht). }
      by apply (core_loading loc host e (SName (spec a)) p a).
  - simpl. by rewrite (t_running _ _ _ Ht').
  - intros _. simpl. by rewrite (t_activeFires _ _ _ Ht').
Qed.

(** Dispatching keeps the invariant, ends, and leaves nothing due. *)
Lemma fire_due_core fuel t e : core e → core (fire_due loc host clk fuel t e).
Proof.
  revert e. induction fuel as [|fuel IH]; intros e He; simpl; [done|].
  pose proof (popDue_spec t e (proj1 He)) as Hpop. destruct (popDueLocked host clk t e) as [[due|] e1].
  - destruct Hpop as (a & it & Ha & _ & _ & Hn & Hg & Hf & Hact & _ & -> & _).
    apply IH. by apply (consume_core due t e a).
  - by destruct Hpop as [-> _].
Qed.

Definition none_due (t : Z) (e : Engine) : Prop := ∀ it, it ∈ slots (pq e) → due_now host clk e t it = false.
Lemma fire_due_ends fuel t e : core e →
  (if running e then maxTimerCallbacks - activeFires e < fuel else length (slots (pq e)) < fuel)%nat →
  none_due t (fire_due loc host clk fuel t e).
Proof.
  revert e. induction fuel as [|fuel IH]; intros e He Hfuel; [destruct (running e); lia|]. simpl.
  pose proof (popDue_spec t e (proj1 He)) as Hpop. destruct (popDueLocked host clk t e) as [[due|] e1].
  - destruct Hpop as (a & it & Ha & Hi & Hin & Hn & Hg & Hf & Hact & _ & -> & _).
    destruct (consume_core due t e a He Ha Hn Hg Hf Hact) as (Hc & Hr & Hcount). apply IH; [done|]. rewrite Hr.
    destruct (running e) eqn:Er; [rewrite Hcount by done; lia|].
    destruct (consume_popped due t e a He Ha Hn Hg Hf Hact) as [-> _]; [|done].
    pose proof (remove_shorter e (instance due) a it (proj1 He) Ha Hi). lia.
  - by destruct Hpop as [-> ?].
Qed.

Lemma fireDueLocked_core t e : core e → core (fireDueLocked loc host clk t e) ∧
  none_due t (fireDueLocked loc host clk t e).
Proof.
  intros He. split; [by apply fire_due_core|]. apply fire_due_ends; [done|]. unfold pq_Len.
  destruct (running e); lia.
Qed.

Lemma clock_changed_arm_core t e name : core e → core (clock_changed_arm loc host clk t e name).
Proof.
  intros He. unfold clock_changed_arm. destruct (lookup_arm e name) as [[p a]|] eqn:E; [|done].
  destruct (negb _); [done|]. destruct (_ && _).
  - by apply (upd_core loc host e name p a); [done..|apply same_place|].
  - pose proof (lookup_arm_name e name p a (proj1 He) E) as Hn. apply lookup_arm_Some in E as [Hp Ha].
    destruct (reschedule_clean loc host clk ∅ e p a) as [Hs Hc]; [apply He|done|by rewrite Hn| | |].
    + intros Hr Hl. by apply (core_loading loc host e name p a).
    + rewrite union_empty_r_L. by apply core_dirty.
    + split; [done|]. revert Hc. apply clean_mono. set_solver.
Qed.

Lemma ClockChanged_core order e : core e → core (ClockChanged loc host clk order e).
Proof.
  intros He. unfold ClockChanged. destruct (negb _); [done|]. apply kick_core, foldl_core.
  - intros e' name. apply clock_changed_arm_core.
  - apply fireDueLocked_core. by apply (core_same loc host e).
Qed.

Lemma waitDuration_core notified e : core e → core (waitDuration host clk notified e).2.
Proof. intros He. simpl. by rewrite dropStale_none by apply He. Qed.

(** The loop does not sleep past a timer: what it waits is no longer than the
    wait of any timer that may be dispatched, and at most [maxWait] unless clock
    changes are notified. *)
Lemma shortest_wait_spec e t l d : ∀ w, foldl (shortest_wait host clk e t) d l = Some w →
  (∀ w0, d = Some w0 → w <= w0) ∧
  ∀ it p a, it ∈ l → dispatchable e it = true → lookup_arm e (iname it) = Some (p, a) →
    w <= Z.max 0 (itemWaitLocked host clk a t).
Proof.
  revert d. induction l as [|it l IH]; intros d w; simpl.
  - intros ->. split; [by intros ? [= <-]|]. by intros ? ? ? ?%not_elem_of_nil.
  - intros Hw. destruct (IH _ _ Hw) as [H1 H2]. split.
    + intros w0 ->. unfold shortest_wait in H1. repeat case_match; try (specialize (H1 _ eq_refl)); lia.
    + intros it' p a [->|Hin]%elem_of_cons Hd Hl; [|by eapply H2].
      unfold shortest_wait in H1. rewrite Hl, Hd in H1.
      specialize (H1 _ eq_refl). revert H1. destruct d; [|done]. case_match; lia.
Qed.
Lemma shortest_wait_found e t l d : (is_Some d ∨ ∃ it, it ∈ l ∧ dispatchable e it = true) →
  is_Some (foldl (shortest_wait host clk e t) d l).
Proof.
  revert d. induction l as [|it l IH]; intros d H; simpl.
  - destruct H as [?|(? & ?%not_elem_of_nil & _)]; done.
  - apply IH. unfold shortest_wait. destruct (lookup_arm e (iname it)) as [[p a]|] eqn:El.
    + destruct (dispatchable e it) eqn:Ed; [left; eauto|].
      destruct H as [?|(it' & [->|?]%elem_of_cons & Hd)]; [by left|congruence|right; eauto].
    + destruct H as [?|(it' & [->|?]%elem_of_cons & Hd)]; [by left| |right; eauto].
      unfold dispatchable in Hd. by rewrite El in Hd.
Qed.

End dispatch.
