(* ===== verification/TimerCalls.v ===== *)
(** * The timer engine: goroutines

    Which goroutines exist, what each may rely on, and how the critical sections
    of the others preserve it: at most 32 callbacks, one per arm, one planner, one
    loader, one owner of the storage lock; a planner's job and a callback's event
    belong to the arm they were taken from for as long as its generation and its
    token last. *)

From S2P Require Import Prelude GoStrings GoText GoTime Calendar TimerSchedule TimerState ContainerHeap DeadlineHeap TimerEngine TimerEngineInv TimerEngineDue.

#[local] Open Scope nat_scope.

(** ** Counting threads *)

Definition is_callback (t : thread) : bool := match t with TCallback _ _ _ _ => true | _ => false end.
Definition is_planner (t : thread) : bool := match t with TPlanner _ => true | _ => false end.
Definition is_loader (t : thread) : bool := match t with TLoader _ => true | _ => false end.
Definition persist_holds (ph : persist_phase) : bool := match ph with PWait => false | _ => true end.
(** Whether a thread owns [storageIO]. *)
Definition is_holder (t : thread) : bool :=
  match t with
  | TCallback _ _ _ (CbPersist ph) => persist_holds ph
  | TCallback _ _ _ (CbResult _ _ ph) => persist_holds ph
  | TLoader (LRead _ _) => true
  | _ => false
  end.
Definition token_of (t : thread) : option nat := match t with TCallback _ ev _ _ => Some (Token ev) | _ => None end.

Fixpoint count (P : thread → bool) (l : list thread) : nat :=
  match l with [] => 0 | t :: l => Nat.b2n (P t) + count P l end.
Lemma count_threads_app P l1 l2 : count P (l1 ++ l2) = count P l1 + count P l2.
Proof. induction l1; simpl; lia. Qed.
#[global] Instance count_proper P : Proper ((≡ₚ) ==> (=)) (count P).
Proof. intros l1 l2 H. induction H; simpl; lia. Qed.
Lemma count_in P t l : t ∈ l → P t = true → 1 <= count P l.
Proof.
  intros Hin HP. induction l as [|x l IH]; [by apply not_elem_of_nil in Hin|]. simpl.
  apply elem_of_cons in Hin as [<-|Hin]; [rewrite HP; simpl; lia|]. specialize (IH Hin). lia.
Qed.

Definition tokens (l : list thread) : list nat := omap token_of l.
#[global] Instance tokens_proper : Proper ((≡ₚ) ==> (≡ₚ)) tokens.
Proof. intros l1 l2 H. unfold tokens. by rewrite H. Qed.
Lemma tokens_app l1 l2 : tokens (l1 ++ l2) = tokens l1 ++ tokens l2.
Proof. apply omap_app. Qed.
Lemma elem_of_tokens l p ev r ph : TCallback p ev r ph ∈ l → Token ev ∈ tokens l.
Proof. intros Hin. apply list_elem_of_omap. by exists (TCallback p ev r ph). Qed.

(** A worker that holds nothing yet. *)
Definition idle (t : thread) : Prop := t = TPlanner None ∨ t = TLoader LPick.
Lemma idle_tokens l : Forall idle l → tokens l = [].
Proof. induction 1 as [|t l [-> | ->] _ IH]; simpl; done. Qed.
Lemma idle_holders l : Forall idle l → count is_holder l = 0 ∧ count is_callback l = 0.
Proof. induction 1 as [|t l [-> | ->] _ IH]; simpl; done. Qed.

(** ** What a callback relies on *)

Definition result_of (ph : callback_phase) : option Runtime :=
  match ph with CbResult _ r _ => Some r | CbRecord _ r => Some r | _ => None end.
(** The check of [persist] has found the event's activation in the arm. *)
Definition checked (ph : callback_phase) : bool :=
  match ph with CbPersist PWait | CbFinish => false | _ => true end.
(** The intent has been saved and not yet been delivered. *)
Definition saved (ph : callback_phase) : bool :=
  match ph with CbPersist (PCheck _ None) | CbSaved => true | _ => false end.
(** A save is about to be made. *)
Definition saving (ph : callback_phase) : bool :=
  match ph with CbPersist (PSave _) | CbResult _ _ (PSave _) => true | _ => false end.

(** The event belongs to the arm as it stands. *)
Definition live (e : Engine) (p : nat) (ev : Fire) (a : armed) : Prop :=
  arms e !! FName ev = Some p ∧ token a = Token ev.

Definition arm_id (a : armed) : string := ID (RActivation (rt a)).

Record call_ok (e : Engine) (d : gmap string Runtime) (p : nat) (ev : Fire) (r : Runtime) (ph : callback_phase)
    (a : armed) : Prop := {
  co_obj : objs e !! p = Some a;
  co_name : FName ev = SName (spec a);
  co_token : Token ev <= nextArm e;
  co_owner : ∀ q b, objs e !! q = Some b → token b = Token ev → q = p;
  co_firing : live e p ev a → firing a = true;
  co_retry : live e p ev a → ph ≠ CbFinish → retry a = None;
  co_state : live e p ev a → arm_id a = ID (RActivation r);
  co_checked : live e p ev a → checked ph = true → ActivationID ev ≠ "" → arm_id a = ActivationID ev;
  co_result : live e p ev a → ∀ r', result_of ph = Some r' → ID (RActivation r') = arm_id a;
  co_saved : live e p ev a → saved ph = true → stored e = true → ActivationID ev ≠ "" →
    ∃ x, d !! FName ev = Some x ∧ ID (RActivation x) = ActivationID ev;
}.

(** ** Sections that leave callbacks alone *)

(** [e'] may have new arms and new tokens, but an arm whose callback runs keeps
    what the callback relies on; the arm [o], if any, is exempt. *)
Record gentle (o : option nat) (e e' : Engine) : Prop := {
  g_nextArm : nextArm e <= nextArm e';
  g_stored : stored e' = stored e;
  g_old : ∀ p a, objs e !! p = Some a → ∃ a', objs e' !! p = Some a' ∧ SName (spec a') = SName (spec a) ∧
    (token a' = token a ∧
       (o ≠ Some p → firing a' = firing a ∧
         (firing a = true → loading a' = loading a ∧ retry a' = retry a ∧ arm_id a' = arm_id a)) ∨
     nextArm e < token a' ∧ (o ≠ Some p → firing a' = false));
  g_new : ∀ p a', objs e' !! p = Some a' → objs e !! p = None → nextArm e < token a' ∧ (o ≠ Some p → firing a' = false);
  g_arms : ∀ nm p, arms e' !! nm = Some p → arms e !! nm = Some p ∨ objs e !! p = None;
}.

Lemma gentle_refl o e : gentle o e e.
Proof. split; try done; [|naive_solver|by left]. intros p a Ha. exists a. split; [done|]. split; [done|]. by left. Qed.
Lemma gentle_trans o e1 e2 e3 : gentle o e1 e2 → gentle o e2 e3 → gentle o e1 e3.
Proof.
  intros H1 H2. split.
  - pose proof (g_nextArm _ _ _ H1). pose proof (g_nextArm _ _ _ H2). lia.
  - by rewrite (g_stored _ _ _ H2), (g_stored _ _ _ H1).
  - intros p a Ha. destruct (g_old _ _ _ H1 p a Ha) as (a' & Ha' & Hn & Hc).
    destruct (g_old _ _ _ H2 p a' Ha') as (a'' & Ha'' & Hn' & Hc'). exists a''. split; [done|]. split; [by rewrite Hn'|].
    pose proof (g_nextArm _ _ _ H1).
    destruct Hc' as [[Ht' Hk']|[Ht' Hf']]; [|right; split; [lia|done]].
    destruct Hc as [[Ht Hk]|[Ht Hf]].
    + left. split; [by rewrite Ht'|]. intros Ho. destruct (Hk Ho) as [Hf Hk1], (Hk' Ho) as [Hf' Hk1'].
      split; [by rewrite Hf'|]. intros Hfa. rewrite Hf in Hk1'.
      destruct (Hk1 Hfa) as (E1 & E2 & E3), (Hk1' Hfa) as (E4 & E5 & E6). by rewrite E4, E5, E6, E1, E2, E3.
    + right. split; [lia|]. intros Ho. rewrite (proj1 (Hk' Ho)). auto.
  - intros p a'' Ha'' Hnone. pose proof (g_nextArm _ _ _ H1).
    destruct (objs e2 !! p) as [a'|] eqn:Ha'.
    + destruct (g_new _ _ _ H1 p a' Ha' Hnone) as [Ht Hf].
      destruct (g_old _ _ _ H2 p a' Ha') as (b & Hb & _ & Hc). rewrite Ha'' in Hb. simplify_eq.
      destruct Hc as [[Ht' Hk']|[Ht' Hf']]; [|split; [lia|done]]. split; [lia|]. intros Ho. rewrite (proj1 (Hk' Ho)). auto.
    + destruct (g_new _ _ _ H2 p a'' Ha'' Ha') as [Ht Hf]. split; [lia|done].
  - intros nm p Hp. destruct (g_arms _ _ _ H2 nm p Hp) as [Hp'|Hnone]; [by apply (g_arms _ _ _ H1)|]. right.
    destruct (objs e1 !! p) as [a|] eqn:Ha; [|done]. destruct (g_old _ _ _ H1 p a Ha) as (a' & Ha' & _). congruence.
Qed.

(** A callback keeps what it relies on, unless its own arm is exempt. *)
Lemma call_ok_gentle o e e' d p ev r ph a : gentle o e e' → call_ok e d p ev r ph a →
  (o = Some p → ¬ live e p ev a) → ∃ a', call_ok e' d p ev r ph a'.
Proof.
  intros Hg Hc Ho. destruct (g_old _ _ _ Hg p a (co_obj _ _ _ _ _ _ _ Hc)) as (a' & Ha' & Hn & Hcase).
  pose proof (co_token _ _ _ _ _ _ _ Hc) as Htok.
  assert (live e' p ev a' → live e p ev a ∧ loading a' = loading a ∧ retry a' = retry a ∧ arm_id a' = arm_id a ∧ firing a' = firing a) as Hlive.
  { intros [Hp Ht]. destruct Hcase as [[Ht' Hk]|[Ht' _]]; [|lia].
    assert (live e p ev a) as Hl.
    { split; [|congruence]. destruct (g_arms _ _ _ Hg _ _ Hp) as [?|Hnone]; [done|].
      rewrite (co_obj _ _ _ _ _ _ _ Hc) in Hnone. done. }
    assert (o ≠ Some p) as Hop by (intros E; by apply (Ho E)).
    destruct (Hk Hop) as [Hf Hk1]. rewrite (co_firing _ _ _ _ _ _ _ Hc Hl) in Hk1.
    destruct (Hk1 eq_refl) as (? & ? & ?). done. }
  exists a'. split.
  - done.
  - rewrite Hn. apply Hc.
  - pose proof (g_nextArm _ _ _ Hg). lia.
  - intros q b Hb Htb. destruct (objs e !! q) as [b0|] eqn:Eb.
    + destruct (g_old _ _ _ Hg q b0 Eb) as (b' & Hb' & _ & Hcb). rewrite Hb in Hb'. simplify_eq.
      destruct Hcb as [[Ht _]|[Ht _]]; [|lia]. apply (co_owner _ _ _ _ _ _ _ Hc q b0 Eb). congruence.
    + destruct (g_new _ _ _ Hg q b Hb Eb). lia.
  - intros (Hl & _ & _ & _ & ->)%Hlive. by apply Hc.
  - intros (Hl & _ & -> & _)%Hlive. by apply Hc.
  - intros (Hl & _ & _ & -> & _)%Hlive. by apply Hc.
  - intros (Hl & _ & _ & -> & _)%Hlive. by apply Hc.
  - intros (Hl & _ & _ & -> & _)%Hlive. by apply Hc.
  - intros (Hl & _)%Hlive. rewrite (g_stored _ _ _ Hg). by apply Hc.
Qed.

(** Liveness is lost for good. *)
Lemma live_gentle o e e' d p ev r ph a a' : gentle o e e' → call_ok e d p ev r ph a → objs e' !! p = Some a' →
  live e' p ev a' → live e p ev a.
Proof.
  intros Hg Hc Ha' [Hp Ht]. destruct (g_old _ _ _ Hg p a (co_obj _ _ _ _ _ _ _ Hc)) as (b & Hb & _ & Hcase).
  rewrite Ha' in Hb. simplify_eq. pose proof (co_token _ _ _ _ _ _ _ Hc).
  destruct Hcase as [[Ht' _]|[Ht' _]]; [|lia]. split; [|congruence].
  destruct (g_arms _ _ _ Hg _ _ Hp) as [?|Hnone]; [done|]. by rewrite (co_obj _ _ _ _ _ _ _ Hc) in Hnone.
Qed.

(** ** Sections that leave the planner's jobs alone *)

Record regen (e e' : Engine) : Prop := {
  r_nextGen : nextGen e <= nextGen e';
  r_arms : ∀ nm p a', lookup_arm e' nm = Some (p, a') →
    (∃ a, lookup_arm e nm = Some (p, a) ∧ gen a' = gen a ∧ spec a' = spec a ∧ same_schedule (rt a') (rt a)) ∨
    nextGen e < gen a' <= nextGen e';
}.
Lemma same_schedule_refl r : same_schedule r r.
Proof. done. Qed.
Lemma regen_refl e : regen e e.
Proof. split; [done|]. intros nm p a Ha. left. by exists a. Qed.
Lemma regen_trans e1 e2 e3 : regen e1 e2 → regen e2 e3 → regen e1 e3.
Proof.
  intros H1 H2. pose proof (r_nextGen _ _ H1). pose proof (r_nextGen _ _ H2). split; [lia|]. intros nm p a3 H3.
  destruct (r_arms _ _ H2 nm p a3 H3) as [(a2 & Hl2 & E1 & E2 & (S1 & S2 & S3 & S4))|?]; [|right; lia].
  destruct (r_arms _ _ H1 nm p a2 Hl2) as [(a1 & Hl1 & F1 & F2 & (U1 & U2 & U3 & U4))|?]; [|right; rewrite E1; lia].
  left. exists a1. split; [done|]. split; [congruence|]. split; [congruence|]. unfold same_schedule.
  by rewrite S1, S2, S3, S4.
Qed.
Definition gens_ok (e : Engine) : Prop := ∀ nm p a, lookup_arm e nm = Some (p, a) → gen a <= nextGen e.
Lemma regen_gens e e' : regen e e' → gens_ok e → gens_ok e'.
Proof.
  intros Hr Hg nm p a' Ha'. destruct (r_arms _ _ Hr nm p a' Ha') as [(a & Ha & -> & _)|?]; [|lia].
  pose proof (r_nextGen _ _ Hr). pose proof (Hg nm p a Ha). lia.
Qed.
Lemma regen_job e e' j : regen e e' → job_ok e j → job_ok e' j.
Proof.
  intros Hr [Hg Hj]. pose proof (r_nextGen _ _ Hr). split; [lia|]. intros a' Ha' Hn Hgen.
  destruct (r_arms _ _ Hr (pj_name j) (pj_arm j) a') as [(a & [Hn' Ha]%lookup_arm_Some & E1 & E2 & (S1 & S2 & S3 & S4))|?];
    [by apply lookup_arm_Some| |lia].
  destruct (Hj a Ha Hn') as [F1 (U1 & U2 & U3 & U4)]; [congruence|]. split; [congruence|].
  unfold same_schedule. by rewrite S1, S2, S3, S4.
Qed.

(** ** Sections that start at most a planner and a loader *)

Definition starts (e e' : Engine) : Prop :=
  ∃ new, threads e' = new ++ threads e ∧ Forall idle new ∧
    count is_planner new + Nat.b2n (scheduling e) = Nat.b2n (scheduling e') ∧
    count is_loader new + Nat.b2n (eloading e) = Nat.b2n (eloading e').
(** Tokens have been given out by [nextArm], each to one arm. *)
Definition owned (e : Engine) : Prop :=
  (∀ p a, objs e !! p = Some a → token a <= nextArm e) ∧
  ∀ p q a b, objs e !! p = Some a → objs e !! q = Some b → token a = token b → p = q.
Record quiet (o : option nat) (e e' : Engine) : Prop := {
  q_gentle : gentle o e e';
  q_regen : regen e e';
  q_starts : starts e e';
  q_owned : owned e → owned e';
  q_storageIO : storageIO e' = storageIO e;
  q_active : activeFires e' = activeFires e;
}.
Lemma starts_refl e : starts e e.
Proof. by exists []. Qed.
Lemma starts_trans e1 e2 e3 : starts e1 e2 → starts e2 e3 → starts e1 e3.
Proof.
  intros (n1 & T1 & I1 & P1 & L1) (n2 & T2 & I2 & P2 & L2).
  exists (n2 ++ n1). rewrite T2, T1, app_assoc, !count_threads_app. split; [done|]. split; [by apply Forall_app|]. lia.
Qed.
Lemma quiet_refl o e : quiet o e e.
Proof. split; [apply gentle_refl|apply regen_refl|apply starts_refl|done..]. Qed.
Lemma quiet_trans o e1 e2 e3 : quiet o e1 e2 → quiet o e2 e3 → quiet o e1 e3.
Proof.
  intros [G1 R1 S1 O1 I1 A1] [G2 R2 S2 O2 I2 A2].
  split; [by eapply gentle_trans|by eapply regen_trans|by eapply starts_trans|auto|by rewrite I2|by rewrite A2].
Qed.

(** ** All goroutines: [X] is the one at work, if any *)

Record calls (X : list thread) (e : Engine) (d : gmap string Runtime) : Prop := {
  k_active : count is_callback (X ++ threads e) = activeFires e;
  k_max : activeFires e <= maxTimerCallbacks;
  k_planner : count is_planner (X ++ threads e) = Nat.b2n (scheduling e);
  k_loader : count is_loader (X ++ threads e) = Nat.b2n (eloading e);
  k_holder : count is_holder (X ++ threads e) = Nat.b2n (storageIO e);
  k_gens : gens_ok e;
  k_jobs : ∀ j, TPlanner (Some j) ∈ X ++ threads e → job_ok e j;
  k_tokens : NoDup (tokens (X ++ threads e));
  k_owned : owned e;
  k_calls : ∀ p ev r ph, TCallback p ev r ph ∈ X ++ threads e → ∃ a, call_ok e d p ev r ph a;
  k_firing : ∀ nm p a, lookup_arm e nm = Some (p, a) → firing a = true →
    loading a = false ∧ token a ∈ tokens (X ++ threads e);
  k_excl : ∀ p1 ev1 r1 ph1 p2 ev2 r2 ph2 a,
    TCallback p1 ev1 r1 ph1 ∈ X ++ threads e → TCallback p2 ev2 r2 ph2 ∈ X ++ threads e →
    saved ph1 = true → saving ph2 = true → FName ev1 = FName ev2 →
    objs e !! p1 = Some a → ¬ live e p1 ev1 a;
}.

(** The threads at rest keep their claims when the engine changes gently, but
    for the exempt arm, and the disk keeps the records of those that saved.  The
    threads at work, [X], become [X1], and idle workers may have been added. *)
Lemma calls_step o X X1 X' new e e' d d' :
  calls X e d → gentle o e e' → regen e e' → (owned e → owned e') →
  X' ++ threads e' ≡ₚ X1 ++ new ++ threads e → Forall idle new →
  count is_callback X1 + activeFires e = count is_callback X + activeFires e' → activeFires e' <= maxTimerCallbacks →
  count is_planner X1 + count is_planner new + Nat.b2n (scheduling e) = count is_planner X + Nat.b2n (scheduling e') →
  count is_loader X1 + count is_loader new + Nat.b2n (eloading e) = count is_loader X + Nat.b2n (eloading e') →
  count is_holder X1 + Nat.b2n (storageIO e) = count is_holder X + Nat.b2n (storageIO e') →
  NoDup (tokens (X1 ++ threads e)) →
  (∀ j, TPlanner (Some j) ∈ X1 → job_ok e' j) →
  (∀ p ev r ph, TCallback p ev r ph ∈ X1 → ∃ a, call_ok e' d' p ev r ph a) →
  (∀ p ev r ph a, TCallback p ev r ph ∈ threads e → call_ok e d p ev r ph a →
    (o = Some p → ¬ live e p ev a) ∧ (saved ph = true → live e p ev a → d' !! FName ev = d !! FName ev)) →
  (∀ nm p a, lookup_arm e nm = Some (p, a) → firing a = true → o ≠ Some p →
    token a ∈ tokens (X ++ threads e) → token a ∈ tokens (X1 ++ threads e)) →
  (∀ nm p a', o = Some p → lookup_arm e' nm = Some (p, a') → firing a' = true →
    loading a' = false ∧ token a' ∈ tokens (X1 ++ threads e)) →
  (∀ p ev r ph p2 ev2 r2 ph2 a, TCallback p ev r ph ∈ X1 → TCallback p2 ev2 r2 ph2 ∈ X1 ++ threads e →
    saved ph = true → saving ph2 = true → FName ev = FName ev2 → objs e' !! p = Some a → ¬ live e' p ev a) →
  (∀ p ev r ph p2 ev2 r2 ph2 a, TCallback p ev r ph ∈ threads e → TCallback p2 ev2 r2 ph2 ∈ X1 →
    saved ph = true → saving ph2 = true → FName ev = FName ev2 → call_ok e d p ev r ph a → ¬ live e p ev a) →
  calls X' e' d'.
Proof.
  intros HK HG HR Hown HT HI Hcb Hmax Hpl Hld Hho Htk Hjobs Hcalls Hrest Hkeep Hfire Hex1 Hex2.
  destruct (idle_holders new HI) as [Hnh Hnc]. pose proof (idle_tokens new HI) as Hnt.
  assert (∀ p ev r ph, TCallback p ev r ph ∈ X' ++ threads e' → TCallback p ev r ph ∈ X1 ++ threads e) as Hin.
  { intros p ev r ph. rewrite HT, !elem_of_app. intros [?|[Hn|?]]; [by left| |by right].
    rewrite Forall_forall in HI. by destruct (HI _ Hn). }
  assert (tokens (X' ++ threads e') ≡ₚ tokens (X1 ++ threads e)) as Htok by (by rewrite HT, !tokens_app, Hnt).
  pose proof (k_active _ _ _ HK) as K1. pose proof (k_planner _ _ _ HK) as K3. pose proof (k_loader _ _ _ HK) as K4.
  pose proof (k_holder _ _ _ HK) as K5. rewrite count_threads_app in K1, K3, K4, K5.
  split.
  - rewrite HT, !count_threads_app. lia.
  - done.
  - rewrite HT, !count_threads_app. lia.
  - rewrite HT, !count_threads_app. lia.
  - rewrite HT, !count_threads_app. lia.
  - apply (regen_gens e); [done|apply HK].
  - intros j. rewrite HT, !elem_of_app. intros [?|[Hn|?]]; [by apply Hjobs| |].
    + rewrite Forall_forall in HI. by destruct (HI _ Hn).
    + apply (regen_job e); [done|]. apply (k_jobs _ _ _ HK). apply elem_of_app. by right.
  - by rewrite Htok.
  - apply Hown, HK.
  - intros p ev r ph [?|Hr]%Hin%elem_of_app; [by apply Hcalls|].
    destruct (k_calls _ _ _ HK p ev r ph) as [a Ha]; [apply elem_of_app; by right|].
    destruct (Hrest p ev r ph a Hr Ha) as [Hex Hd].
    destruct (call_ok_gentle o e e' d p ev r ph a HG Ha Hex) as [a' Ha']. exists a'.
    destruct Ha'. split; try done. intros Hl Hs. rewrite Hd; [by apply co_saved0|done|].
    by apply (live_gentle o e e' d p ev r ph a a').
  - intros nm p a' Ha' Hf. rewrite Htok. destruct (decide (o = Some p)) as [Hop|Hop]; [by apply (Hfire nm p)|].
    apply lookup_arm_Some in Ha' as [Hp Hpa]. destruct (objs e !! p) as [a|] eqn:Ea.
    + destruct (g_old _ _ _ HG p a Ea) as (b & Hb & _ & Hc). rewrite Hpa in Hb. simplify_eq.
      destruct Hc as [[Ht Hk]|[_ Hk]]; [|by rewrite Hk in Hf]. destruct (Hk Hop) as [Hfe Hk1]. rewrite Hfe in Hf.
      destruct (Hk1 Hf) as (-> & _). rewrite Ht.
      assert (lookup_arm e nm = Some (p, a)) as Hla.
      { apply lookup_arm_Some. split; [|done]. destruct (g_arms _ _ _ HG _ _ Hp) as [?|?]; [done|congruence]. }
      destruct (k_firing _ _ _ HK nm p a Hla Hf) as [? Hin']. split; [done|]. by apply (Hkeep nm p a).
    + destruct (g_new _ _ _ HG p a' Hpa Ea) as [_ Hff]. by rewrite Hff in Hf.
  - intros p1 ev1 r1 ph1 p2 ev2 r2 ph2 a Hc1%Hin Hc2%Hin Hs1 Hs2 Hnm Ha.
    apply elem_of_app in Hc1 as [Hc1|Hc1]; [by eapply Hex1|].
    destruct (k_calls _ _ _ HK p1 ev1 r1 ph1) as [a1 Ha1]; [apply elem_of_app; by right|].
    intros Hl. assert (live e p1 ev1 a1) as Hl1 by (by eapply live_gentle).
    apply elem_of_app in Hc2 as [Hc2|Hc2]; [by eapply Hex2|].
    apply (k_excl _ _ _ HK p1 ev1 r1 ph1 p2 ev2 r2 ph2 a1); try done; [apply elem_of_app; by right..|by apply Ha1].
Qed.

(** A quiet change; the threads at work keep their claims, too. *)
Lemma calls_quiet X e e' d : calls X e d → quiet None e e' → calls X e' d.
Proof.
  intros HK HQ. destruct HQ as [HG HR (new & HT & HI & HP & HL) HO HS HA].
  apply (calls_step None X X X new e e' d d HK HG HR HO); try done; rewrite ?HS, ?HA; try lia.
  - rewrite HT. solve_Permutation.
  - apply HK.
  - apply HK.
  - intros j Hj. apply (regen_job e); [done|]. apply (k_jobs _ _ _ HK). apply elem_of_app. by left.
  - intros p ev r ph Hin. destruct (k_calls _ _ _ HK p ev r ph) as [a Ha]; [apply elem_of_app; by left|].
    by apply (call_ok_gentle None e e' d p ev r ph a).
  - intros p ev r ph p2 ev2 r2 ph2 a H1 H2 Hs1 Hs2 Hn Ha Hl.
    destruct (k_calls _ _ _ HK p ev r ph) as [a1 Ha1]; [apply elem_of_app; by left|].
    apply (k_excl _ _ _ HK p ev r ph p2 ev2 r2 ph2 a1); try done; [apply elem_of_app; by left|by apply Ha1|].
    by eapply live_gentle.
  - intros p ev r ph p2 ev2 r2 ph2 a H1 H2 Hs1 Hs2 Hn Ha.
    apply (k_excl _ _ _ HK p ev r ph p2 ev2 r2 ph2 a); try done; [apply elem_of_app; by right|apply elem_of_app; by left|by apply Ha].
Qed.

(** The thread at work is one of the list, and goes back to it. *)
Lemma calls_perm X X' T e d : calls X e d → X' ++ T ≡ₚ X ++ threads e → calls X' (set_threads T e) d.
Proof.
  intros HK HP. split; cbn [threads set_threads]; try rewrite HP; try apply HK.
  - intros j. rewrite HP. apply HK.
  - intros p ev r ph. rewrite HP. intros Hin. destruct (k_calls _ _ _ HK p ev r ph Hin) as [a Ha]. exists a.
    by destruct Ha; split.
  - intros nm p a Ha Hf. rewrite HP. by apply (k_firing _ _ _ HK nm p a).
  - intros p1 ev1 r1 ph1 p2 ev2 r2 ph2 a. rewrite !HP. apply HK.
Qed.

(** ** The sections are quiet *)

Lemma gentle_touches p e e' : touches p e e' → gentle None e e'.
Proof.
  intros Ht. split.
  - by rewrite (t_nextArm _ _ _ Ht).
  - apply Ht.
  - intros q a Ha. destruct (decide (q = p)) as [->|Hne].
    + pose proof (t_view _ _ _ Ht) as Hv. rewrite Ha in Hv. destruct (objs e' !! p) as [a'|]; [|done]. simpl in Hv.
      exists a'. unfold view in Hv. simplify_eq. split; [done|]. split; [congruence|]. left. split; [done|].
      intros _. split; [done|]. intros _. unfold arm_id. by repeat split; congruence.
    + exists a. rewrite (t_others _ _ _ Ht) by done. split; [done|]. split; [done|]. by left.
  - intros q a' Ha' Hnone. destruct (decide (q = p)) as [->|Hne].
    + pose proof (t_view _ _ _ Ht) as Hv. by rewrite Ha', Hnone in Hv.
    + rewrite (t_others _ _ _ Ht), Hnone in Ha' by done. done.
  - intros nm q. rewrite (t_arms _ _ _ Ht). by left.
Qed.
Lemma starts_touches p e e' : touches p e e' → starts e e'.
Proof.
  intros Ht. unfold starts. rewrite (t_eloading _ _ _ Ht).
  destruct (t_threads _ _ _ Ht) as [[-> ->]|(-> & -> & -> & _)]; [by exists []|].
  exists [TPlanner None]. simpl. split; [done|]. split; [|lia]. apply Forall_singleton. by left.
Qed.
Lemma owned_touches p e e' : touches p e e' → owned e → owned e'.
Proof.
  intros Ht [H1 H2].
  assert (∀ q a', objs e' !! q = Some a' → ∃ a, objs e !! q = Some a ∧ token a' = token a) as Hold.
  { intros q a' Ha'. destruct (decide (q = p)) as [->|Hne].
    - pose proof (t_view _ _ _ Ht) as Hv. rewrite Ha' in Hv. destruct (objs e !! p) as [a|]; [|done]. exists a.
      simpl in Hv. unfold view in Hv. simplify_eq. split; [done|congruence].
    - exists a'. by rewrite <- (t_others _ _ _ Ht). }
  split.
  - intros q a' Ha'. destruct (Hold q a' Ha') as (a & Ha & ->). rewrite (t_nextArm _ _ _ Ht). eauto.
  - intros q1 q2 a1 a2 Ha1 Ha2 E. destruct (Hold _ _ Ha1) as (b1 & Hb1 & E1), (Hold _ _ Ha2) as (b2 & Hb2 & E2).
    apply (H2 q1 q2 b1 b2); congruence.
Qed.

Lemma gentle_upd o e p f a : objs e !! p = Some a → SName (spec (f a)) = SName (spec a) →
  token (f a) = token a →
  (o ≠ Some p → firing (f a) = firing a ∧
    (firing a = true → loading (f a) = loading a ∧ retry (f a) = retry a ∧ arm_id (f a) = arm_id a)) →
  gentle o e (upd p f e).
Proof.
  intros Ha Hn Ht Hk. split; simpl; try done.
  - intros q b Hb. destruct (decide (q = p)) as [->|Hne].
    + rewrite Ha in Hb. simplify_eq. exists (f b). rewrite lookup_alter_eq, Ha. split; [done|]. split; [done|]. by left.
    + exists b. rewrite lookup_alter_ne by done. split; [done|]. split; [done|]. by left.
  - intros q b Hb Hnone. destruct (decide (q = p)) as [->|Hne]; [by rewrite lookup_alter_eq, Hnone in Hb|].
    rewrite lookup_alter_ne in Hb by done. congruence.
  - by left.
Qed.
Lemma owned_upd e p f a : objs e !! p = Some a → token (f a) = token a → owned e → owned (upd p f e).
Proof.
  intros Ha Ht [H1 H2].
  assert (∀ q b, objs (upd p f e) !! q = Some b → ∃ b0, objs e !! q = Some b0 ∧ token b = token b0) as Hold.
  { intros q b Hb. simpl in Hb. destruct (decide (q = p)) as [->|Hne].
    - rewrite lookup_alter_eq, Ha in Hb. simpl in Hb. simplify_eq. eauto.
    - rewrite lookup_alter_ne in Hb by done. eauto. }
  split.
  - intros q b Hb. destruct (Hold q b Hb) as (b0 & Hb0 & ->). eauto.
  - intros q1 q2 a1 a2 Ha1 Ha2 E. destruct (Hold _ _ Ha1) as (b1 & Hb1 & E1), (Hold _ _ Ha2) as (b2 & Hb2 & E2).
    apply (H2 q1 q2 b1 b2); congruence.
Qed.

Section sections.
Variable loc : Location.
Variable host : platform.
#[local] Notation core := (core loc host).

Lemma regen_reschedule clk e e0 p a0 : structure e0 → objs e0 !! p = Some a0 → arms e0 !! SName (spec a0) = Some p →
  (running e0 = true → loading a0 = true → eloading e0 = true) → nextGen e0 = nextGen e →
  (∀ nm q, arms e0 !! nm = Some q → q ≠ p → arms e !! nm = Some q ∧ objs e0 !! q = objs e !! q) →
  regen e (rescheduleLocked loc host clk p e0).
Proof.
  intros Hs Ha Hn Hl Hg Hold.
  destruct (reschedule_arm loc host clk e0 p a0 Hs Ha Hn Hl) as (_ & Hg' & a' & Ha' & Hga & _).
  pose proof (reschedule_touches loc host clk p e0) as Ht. split; [lia|].
  intros nm q b [Hq Hb]%lookup_arm_Some. destruct (decide (q = p)) as [->|Hne].
  - rewrite Ha' in Hb. simplify_eq. right. lia.
  - left. exists b. rewrite (t_arms _ _ _ Ht) in Hq. rewrite (t_others _ _ _ Ht) in Hb by done.
    destruct (Hold nm q Hq Hne) as [? E]. rewrite E in Hb. split; [by apply lookup_arm_Some|done].
Qed.

Lemma kick_quiet o e e' : quiet o e e' → quiet o e (kickLocked e').
Proof. intros HQ. split; [by destruct HQ as [[]]|by destruct HQ as [_ []]|exact (q_starts _ _ _ HQ)|apply HQ..]. Qed.

(** An update of one arm followed by its rescheduling. *)
Lemma update_quiet clk o e name p a f : core e → lookup_arm e name = Some (p, a) → keeps_place f a →
  (loading (f a) = true → loading a = true) → token (f a) = token a →
  (o ≠ Some p → firing (f a) = firing a ∧
    (firing a = true → loading (f a) = loading a ∧ retry (f a) = retry a ∧ arm_id (f a) = arm_id a)) →
  quiet o e (kickLocked (rescheduleLocked loc host clk p (upd p f e))).
Proof.
  intros He Hl Hk Hlo Ht Hc. apply kick_quiet. pose proof (lookup_arm_name e name p a (proj1 He) Hl) as Hn.
  pose proof Hl as [Hp Ha]%lookup_arm_Some. pose proof (reschedule_touches loc host clk p (upd p f e)) as Htt.
  assert (SName (spec (f a)) = SName (spec a)) as Hn' by apply Hk.
  split.
  - eapply gentle_trans; [by apply (gentle_upd o e p f a)|].
    pose proof (gentle_touches _ _ _ Htt) as HG. destruct HG as [G1 G2 G3 G4 G5]. split; try done.
    + intros q b Hb. destruct (G3 q b Hb) as (b' & ? & ? & Hcase). exists b'. split; [done|]. split; [done|].
      destruct Hcase as [[? Hkk]|[? Hkk]]; [left|right]; (split; [done|]); intros _; by apply Hkk.
    + intros q b Hb Hb0. destruct (G4 q b Hb Hb0) as [? Hkk]. split; [done|]. intros _. by apply Hkk.
  - apply (regen_reschedule clk e (upd p f e) p (f a)).
    + apply (upd_structure e p f a); [apply He|done..].
    + by apply objs_upd.
    + by rewrite Hn', Hn.
    + intros Hr Hlf. apply (core_loading loc host e name p a); auto.
    + done.
    + intros nm q Hq Hne. split; [done|]. simpl. by rewrite lookup_alter_ne.
  - apply (starts_trans _ (upd p f e)); [|by eapply starts_touches]. by exists [].
  - intros Ho. eapply owned_touches; [exact Htt|]. by apply (owned_upd e p f a).
  - by rewrite (t_storageIO _ _ _ Htt).
  - by rewrite (t_activeFires _ _ _ Htt).
Qed.

Lemma unit_active_quiet clk unit when e name : core e → quiet None e (unit_active_arm loc host clk unit when e name).
Proof.
  intros He. unfold unit_active_arm. destruct (lookup_arm e name) as [[p a]|] eqn:E; [|apply quiet_refl].
  destruct (_ || _); [apply quiet_refl|]. by apply (update_quiet clk None e name p a); [done..|apply same_place| | |].
Qed.

Lemma persist_done_quiet clk ev q failure e : core e → quiet None e (persist_done loc host clk ev q failure e).2.
Proof.
  intros He. unfold persist_done. destruct (objs e !! q) as [a|] eqn:Ea; [|apply quiet_refl].
  destruct (bool_decide (arms e !! FName ev = Some q)) eqn:En; [|destruct (running e); apply quiet_refl].
  apply bool_decide_eq_true in En. destruct (_ || _); [apply quiet_refl|]. destruct failure as [m|]; [|apply quiet_refl]. simpl.
  by apply (update_quiet clk None e (FName ev) q a); [done|apply lookup_arm_Some|apply same_place| | |].
Qed.

Lemma load_publish_quiet clk q name res e : core e →
  (∀ nm p a, lookup_arm e nm = Some (p, a) → firing a = true → loading a = false) →
  quiet None e (load_publish loc host clk q name res e).
Proof.
  intros He Hfl. unfold load_publish, load_current. destruct (objs e !! q) as [a|] eqn:Ea; [|apply quiet_refl].
  destruct (running e && bool_decide (arms e !! name = Some q) && loading a) eqn:Eg; [|apply quiet_refl].
  rewrite !andb_true_iff, !bool_decide_eq_true in Eg. destruct Eg as [[_ En] Hl]. simpl negb. cbv iota.
  assert (lookup_arm e name = Some (q, a)) as Hla by (by apply lookup_arm_Some).
  assert (SName (spec a) = name) as Hname by (eapply (lookup_arm_name e); [apply He|done]).
  apply (update_quiet clk None e name q a); [done|done| |by intros _| |].
  - destruct res as [r|m]; [|by apply same_place]. cbv beta zeta.
    apply same_place; cbv beta zeta; (destruct (bool_decide _); [|done]); simpl; (destruct (_ || _ || _); [done|]); try done.
    intros _ pr. simpl. intros [= <-]. by simpl.
  - destruct res as [r|m]; [|done]. cbv beta zeta. (destruct (bool_decide _); [|done]); simpl. by destruct (_ || _ || _).
  - intros _. split.
    + destruct res as [r|m]; [|done]. cbv beta zeta. (destruct (bool_decide _); [|done]); simpl. by destruct (_ || _ || _).
    + intros Hf. rewrite (Hfl name q a Hla Hf) in Hl. done.
Qed.

Lemma drop_arm_quiet name e : core e → quiet None e (drop_arm name e).
Proof.
  intros He. unfold drop_arm. destruct (lookup_arm e name) as [[p a]|] eqn:E; [|apply quiet_refl].
  apply lookup_arm_Some in E as [Hn Ha]. pose proof (removeDeadline_touches p e) as Ht.
  destruct (remove_spec e p a (proj1 He) Ha) as (Hs1 & Ha1 & _ & _ & Hg1).
  set (e1 := removeDeadlineLocked p e) in *. split.
  - eapply gentle_trans; [by eapply gentle_touches|]. eapply gentle_trans.
    + by apply (gentle_upd None e1 p with_dropped (with_item None a)).
    + split; try done; simpl; [|naive_solver|].
      * intros q b Hb. exists b. split; [done|]. split; [done|]. by left.
      * intros nm q [_ ?]%lookup_delete_Some. by left.
  - split; simpl; [lia|]. intros nm q b [Hq Hb]%lookup_arm_Some. simpl in *. apply lookup_delete_Some in Hq as [Hne Hq].
    rewrite (t_arms _ _ _ Ht) in Hq. assert (q ≠ p) as Hqp.
    { intros ->. destruct Hne. by apply (arms_inj e name nm p (proj1 He)). }
    rewrite lookup_alter_ne in Hb by done. rewrite (t_others _ _ _ Ht) in Hb by done.
    left. exists b. split; [by apply lookup_arm_Some|done].
  - apply (starts_trans _ e1); [by eapply starts_touches|]. by exists [].
  - intros Ho. apply (owned_touches p e e1 Ht) in Ho. exact (owned_upd e1 p with_dropped _ Ha1 eq_refl Ho).
  - simpl. by rewrite (t_storageIO _ _ _ Ht).
  - simpl. by rewrite (t_activeFires _ _ _ Ht).
Qed.

Lemma foldl_quiet (f : Engine → string → Engine) order e :
  (∀ e name, core e → core (f e name)) → (∀ e name, core e → quiet None e (f e name)) → core e →
  quiet None e (foldl f e order).
Proof.
  intros Hc Hq. revert e. induction order as [|n l IH]; intros e He; simpl; [apply quiet_refl|].
  eapply quiet_trans; [by apply Hq|]. auto.
Qed.

(** Changes of the fields that callbacks and jobs do not read. *)
Lemma quiet_same o e e' : arms e' = arms e → objs e' = objs e → stored e' = stored e → nextArm e' = nextArm e →
  nextGen e' = nextGen e → threads e' = threads e → scheduling e' = scheduling e → eloading e' = eloading e →
  activeFires e' = activeFires e → storageIO e' = storageIO e → quiet o e e'.
Proof.
  intros E1 E2 E3 E4 E5 E6 E7 E8 E9 E10. split.
  - split; rewrite ?E1, ?E2, ?E3, ?E4; try done; [|naive_solver|by left].
    intros p a Ha. exists a. split; [done|]. split; [done|]. by left.
  - split; [lia|]. intros nm p a. unfold lookup_arm. rewrite E1, E2. intros Ha. left. by exists a.
  - exists []. by rewrite E6, E7, E8.
  - unfold owned. by rewrite E2, E4.
  - done.
  - done.
Qed.

Lemma clock_changed_arm_quiet clk t e name : core e → quiet None e (clock_changed_arm loc host clk t e name).
Proof.
  intros He. unfold clock_changed_arm. destruct (lookup_arm e name) as [[p a]|] eqn:E; [|apply quiet_refl].
  destruct (negb _); [apply quiet_refl|]. pose proof E as [Hp Ha]%lookup_arm_Some.
  pose proof (lookup_arm_name e name p a (proj1 He) E) as Hn. destruct (_ && _).
  - split.
    + by apply (gentle_upd None e p _ a).
    + split; [done|]. intros nm q b [Hq Hb]%lookup_arm_Some. simpl in *. left.
      destruct (decide (q = p)) as [->|Hne].
      * rewrite lookup_alter_eq, Ha in Hb. simpl in Hb. simplify_eq. exists a. split; [by apply lookup_arm_Some|done].
      * rewrite lookup_alter_ne in Hb by done. exists b. split; [by apply lookup_arm_Some|done].
    + by exists [].
    + by apply (owned_upd e p _ a).
    + done.
    + done.
  - pose proof (reschedule_touches loc host clk p e) as Htt. split.
    + by eapply gentle_touches.
    + apply (regen_reschedule clk e e p a); try done; [apply He|by rewrite Hn|].
      intros Hr Hl. by apply (core_loading loc host e name p a).
    + by eapply starts_touches.
    + by eapply owned_touches.
    + apply Htt.
    + apply Htt.
Qed.

Lemma plan_publish_quiet j when wl found e : core e → quiet None e (plan_publish j when wl found e).
Proof.
  intros He. unfold plan_publish. destruct (objs e !! pj_arm j) as [a|] eqn:Ea; [|apply quiet_refl].
  destruct (running e && bool_decide (arms e !! pj_name j = Some (pj_arm j)) && bool_decide (gen a = pj_gen j) &&
    bool_decide (clockGen e = pj_clockGen j) && planning a) eqn:Eg; [|apply quiet_refl].
  rewrite !andb_true_iff, !bool_decide_eq_true in Eg. destruct Eg as [[[[Er En] Hg] _] Hpl].
  set (p := pj_arm j) in *. set (f := with_deadline when wl found (pj_clockGen j)). cbv zeta. apply kick_quiet.
  assert (touches p e (upd p f e)) as Ht1 by (by apply upd_touches).
  assert (structure (upd p f e)) as Hs1 by (apply (upd_structure e p f a); [apply He|done|by apply same_place]).
  destruct (s_arms e (proj1 He) _ _ En) as (b & Hb & Hn). simplify_eq.
  assert (∀ e', touches p e e' → nextGen e' = nextGen e → (∃ a', objs e' !! p = Some a' ∧ gen a' = gen a) → quiet None e e') as Hq.
  { intros e' Ht Hng (a' & Ha' & Hga). split; [by eapply gentle_touches| |by eapply starts_touches|by eapply owned_touches|apply Ht..].
    split; [lia|]. intros nm q c [Hq Hc]%lookup_arm_Some. left. rewrite (t_arms _ _ _ Ht) in Hq.
    destruct (decide (q = p)) as [->|Hne].
    - rewrite Ha' in Hc. simplify_eq. exists a. split; [by apply lookup_arm_Some|]. split; [done|].
      pose proof (t_view _ _ _ Ht) as Hv. rewrite Ha', Ea in Hv. simpl in Hv. unfold view in Hv. simplify_eq.
      split; [congruence|]. unfold same_schedule. split_and!; congruence.
    - rewrite (t_others _ _ _ Ht) in Hc by done. exists c. split; [by apply lookup_arm_Some|done]. }
  destruct found.
  - rewrite <- Hg. change (gen a) with (gen (f a)).
    destruct (install_spec (upd p f e) p (f a) when Hs1) as [_ (it & Hit & _ & Hng)]; [by apply objs_upd|by simpl; rewrite Hn|].
    apply Hq; [eapply touches_trans; [exact Ht1|apply installDeadline_touches]|done|by eexists].
  - apply Hq; [done|done|]. exists (f a). split; [by apply objs_upd|done].
Qed.

(** An arm that receives the next token. *)
Record rearms (p : nat) (b : armed) (e e' : Engine) : Prop := {
  ra_obj : objs e' !! p = Some b;
  ra_others : ∀ q, q ≠ p → objs e' !! q = objs e !! q;
  ra_name : ∀ a, objs e !! p = Some a → SName (spec b) = SName (spec a);
  ra_token : token b = S (nextArm e) ∧ nextArm e' = S (nextArm e);
  ra_firing : firing b = false;
  ra_arms : ∀ nm q, arms e' !! nm = Some q → arms e !! nm = Some q ∨ q = p ∧ objs e !! p = None;
  ra_armed : arms e' !! SName (spec b) = Some p;
  ra_stored : stored e' = stored e;
  ra_gen : nextGen e' = nextGen e;
  ra_starts : starts e e';
  ra_storageIO : storageIO e' = storageIO e ∧ activeFires e' = activeFires e;
  ra_structure : structure e';
  ra_loading : running e' = true → loading b = true → eloading e' = true;
}.
Lemma rearms_quiet clk p b e e' : rearms p b e e' → quiet None e (kickLocked (rescheduleLocked loc host clk p e')).
Proof.
  intros Hr. apply kick_quiet. pose proof (reschedule_touches loc host clk p e') as Ht.
  destruct (ra_token _ _ _ _ Hr) as [Htb Hna]. split.
  - eapply gentle_trans; [|by eapply gentle_touches]. split.
    + lia.
    + apply Hr.
    + intros q a Ha. destruct (decide (q = p)) as [->|Hne].
      * exists b. split; [apply Hr|]. split; [by apply (ra_name _ _ _ _ Hr)|]. right. split; [lia|]. intros _. apply Hr.
      * exists a. rewrite (ra_others _ _ _ _ Hr) by done. split; [done|]. split; [done|]. by left.
    + intros q a Ha Hnone. destruct (decide (q = p)) as [->|Hne].
      * rewrite (ra_obj _ _ _ _ Hr) in Ha. simplify_eq. split; [lia|]. intros _. apply Hr.
      * rewrite (ra_others _ _ _ _ Hr) in Ha by done. congruence.
    + intros nm q Hq. destruct (ra_arms _ _ _ _ Hr nm q Hq) as [?|[-> ?]]; [by left|by right].
  - apply (regen_reschedule clk e e' p b); try apply Hr.
    intros nm q Hq Hne. split; [|by apply (ra_others _ _ _ _ Hr)].
    destruct (ra_arms _ _ _ _ Hr nm q Hq) as [?|[-> _]]; done.
  - eapply starts_trans; [apply Hr|by eapply starts_touches].
  - intros [H1 H2]. eapply owned_touches; [exact Ht|].
    assert (∀ q a, objs e' !! q = Some a → q = p ∧ a = b ∨ q ≠ p ∧ objs e !! q = Some a) as Hcase.
    { intros q a Ha. destruct (decide (q = p)) as [->|Hne]; [left|right].
      - rewrite (ra_obj _ _ _ _ Hr) in Ha. by simplify_eq.
      - by rewrite (ra_others _ _ _ _ Hr) in Ha by done. }
    split.
    + intros q a [[-> ->]|[_ Ha]]%Hcase; [lia|]. pose proof (H1 q a Ha). lia.
    + intros q1 q2 a1 a2 [[-> ->]|[_ Ha1]]%Hcase [[-> ->]|[_ Ha2]]%Hcase E; [done| | |by eapply H2].
      * pose proof (H1 _ _ Ha2). lia.
      * pose proof (H1 _ _ Ha1). lia.
  - rewrite (t_storageIO _ _ _ Ht). apply Hr.
  - rewrite (t_activeFires _ _ _ Ht). apply Hr.
Qed.

Lemma starts_loader e : starts e (start_loader e).
Proof.
  unfold start_loader. destruct (eloading e) eqn:E; simpl; [apply starts_refl|].
  exists [TLoader LPick]. simpl. rewrite E. split; [done|]. split; [|done]. apply Forall_singleton. by right.
Qed.
(** ... with or without a load of its state. *)
Lemma rearms_load p b e e' : rearms p b e e' →
  rearms p (with_storage true "" b) e (start_loader (upd p (with_storage true "") e')).
Proof.
  intros Hr. set (e2 := upd p (with_storage true "") e').
  assert (structure e2) as Hs2 by (apply (upd_structure e' p _ b); [apply Hr|apply Hr|by apply same_place]).
  destruct (start_loader_core loc host _ Hs2) as (Hs3 & Hl3 & _ & Ho3 & Ha3 & Hr3).
  assert (∀ {A} (f : Engine → A), (∀ b e, f (set_eloading b e) = f e) → (∀ t e, f (spawn t e) = f e) →
    f (start_loader e2) = f e2) as Hsame.
  { intros A f H1 H2. unfold start_loader. destruct (negb _); [by rewrite H2, H1|done]. }
  split.
  - rewrite Ho3. apply objs_upd. apply Hr.
  - intros q Hq. rewrite Ho3. simpl. rewrite lookup_alter_ne by done. by apply (ra_others _ _ _ _ Hr).
  - apply Hr.
  - destruct (ra_token _ _ _ _ Hr). split; [done|]. by rewrite (Hsame _ nextArm).
  - apply Hr.
  - rewrite Ha3. apply Hr.
  - rewrite Ha3. apply Hr.
  - rewrite (Hsame _ stored) by done. apply Hr.
  - rewrite (Hsame _ nextGen) by done. apply Hr.
  - eapply starts_trans; [apply Hr|]. eapply starts_trans; [|apply starts_loader]. by exists [].
  - rewrite (Hsame _ storageIO), (Hsame _ activeFires) by done. apply Hr.
  - done.
  - done.
Qed.

Lemma Arm_quiet clk s e : core e → quiet None e (Arm loc host clk s e).2.
Proof.
  intros He. unfold Arm. destruct (_ || _ || _); [apply quiet_refl|].
  destruct (lookup_arm e (SName s)) as [[p a]|] eqn:E.
  - pose proof (lookup_arm_name e _ p a (proj1 He) E) as Hn. pose proof E as [Hp Ha]%lookup_arm_Some. cbv zeta.
    set (e1 := set_nextArm _ e). set (f := with_arm _ s).
    assert (rearms p (f a) e (upd p f e1)) as Hre.
    { split; try done.
      - by apply (objs_upd e1).
      - intros q Hq. simpl. by rewrite lookup_alter_ne.
      - intros b Hb. rewrite Ha in Hb. by simplify_eq.
      - by left.
      - by exists [].
      - apply (upd_structure e1 p f a); [by apply (same_structure e); [apply He|..]|done|].
        split; [done|]. split; [by rewrite Hn|]. split; [by left|done].
      - simpl. intros Hr Hl. by apply (core_loading loc host e (SName s) p a). }
    destruct (_ || _); simpl snd; [by eapply rearms_quiet, rearms_load|by eapply rearms_quiet].
  - destruct (bool_decide (MaxArmedTimers <= size (arms e))%nat) eqn:Esz; [apply quiet_refl|]. apply bool_decide_eq_false in Esz.
    assert (arms e !! SName s = None) as Hnone.
    { destruct (arms e !! SName s) as [p|] eqn:En; [|done]. destruct (s_arms e (proj1 He) _ _ En) as (a & Ha & _).
      by rewrite (proj2 (lookup_arm_Some e (SName s) p a)) in E. }
    cbv zeta. simpl snd. set (e1 := set_nextArm _ e). change (alloc e) with (alloc e1).
    assert (structure e1) as Hs1 by (apply (same_structure e); [apply He|done..]).
    pose proof (fresh_structure e1 s (nextArm e1) Hs1 Hnone ltac:(simpl; lia)) as Hs2.
    set (p := alloc e1) in *. set (e2 := set_arms _ (set_objs _ (set_alloc _ e1))) in *.
    assert (objs e !! p = None) as Hnew.
    { destruct (objs e !! p) as [a|] eqn:Ea; [|done]. pose proof (s_objs e (proj1 He) _ _ Ea). unfold p in *. simpl in *. lia. }
    assert (rearms p (fresh_arm (nextArm e1) s) e e2) as Hre.
    { split; try done.
      - simpl. by rewrite lookup_insert_eq.
      - intros q Hq. simpl. by rewrite lookup_insert_ne.
      - intros a Ha. congruence.
      - intros nm q. simpl. destruct (decide (nm = SName s)) as [->|Hne].
        + rewrite lookup_insert_eq. intros [= <-]. by right.
        + rewrite lookup_insert_ne by done. by left.
      - simpl. by rewrite lookup_insert_eq.
      - by exists []. }
    change (stored e2) with (stored e). destruct (stored e); [by eapply rearms_quiet, rearms_load|by eapply rearms_quiet].
Qed.

End sections.
