(* ===== verification/TimerSystem.v ===== *)
(** * The timer engine as a transition system

    Every operation of the manager, every round of the engine's loop and every
    stretch of a goroutine between two critical sections is one step.  The clock
    shows anything at any step; the order in which a loop ranges over the armed
    timers is any order; a save or a load may fail at any time.  The manager's
    callback does with an event what [onTimerElapsed] does: nothing, a retry, or
    the record of a result.

    [disk] is the record that a load would find for each timer ([TimerState]
    relates it to the file's bytes).  [trace] collects the
    deliveries, newest first, each with what the disk held when it was decided.  Taking [storageIO] and the check that follows are one step. *)

From S2P Require Import Prelude GoStrings GoText GoTime Calendar CalendarSearch CalendarSpec TimerSchedule TimerState ContainerHeap DeadlineHeap TimerEngine.

#[local] Open Scope Z_scope.

(** A delivery with the record that the disk held for its timer. *)
Record delivery := { dl_event : Fire; dl_found : option Runtime }.

Record system := { engine : Engine; disk : gmap string Runtime; trace : list delivery }.

Definition with_engine (e : Engine) (s : system) : system :=
  {| engine := e; disk := disk s; trace := trace s |}.

(** [NewEngine], with or without a store, over the records of earlier runs. *)
Definition NewEngine (persistent : bool) (ns : string) : Engine := {|
  running := true; scheduling := false; scheduleCursor := ""; eloading := false; stored := persistent;
  namespace := ns; nextActivation := 0; arms := ∅; objs := ∅; pq := Init {| slots := []; index := ∅ |};
  wakeup := false; clockGen := 0; activeFires := 0; nextArm := 0; nextGen := 0; alloc := 0;
  storageIO := false; threads := [] |}.
Definition initial (persistent : bool) (ns : string) (d : gmap string Runtime) : system :=
  {| engine := NewEngine persistent ns; disk := d; trace := [] |}.

(** What a save leaves on disk: nothing without a store, the record when it
    succeeds, either of them when it fails. *)
Inductive saves (e : Engine) (name : string) (r : Runtime) (d : gmap string Runtime)
    : option string → gmap string Runtime → Prop :=
| save_none : stored e = false → saves e name r d None d
| save_ok : stored e = true → valid_activation (RActivation r) →
    saves e name r d None (<[name := stored_part r]> d)
| save_failed message : stored e = true → message ≠ "" → saves e name r d (Some message) d
| save_doubtful message : stored e = true → message ≠ "" → valid_activation (RActivation r) →
    saves e name r d (Some message) (<[name := stored_part r]> d).

(** What a load finds. *)
Definition load (e : Engine) (name : string) (d : gmap string Runtime) : Runtime :=
  if stored e then default zero_runtime (d !! name) else zero_runtime.

Section steps.
Variable loc : Location.
Variable host : platform.

(** One stretch of the thread [t], run on the engine without it: the engine and
    the disk after it, what [t] becomes, and what is recorded. *)
Inductive thread_step (d : gmap string Runtime) : thread → Engine →
    Engine → gmap string Runtime → option thread → list delivery → Prop :=
| persist_take p ev r e q :
    storageIO e = false → persist_check ev e = Some q →
    thread_step d (TCallback p ev r (CbPersist PWait)) e (set_storageIO true e) d
      (Some (TCallback p ev r (CbPersist (PSave q)))) []
| persist_refuse p ev r e :
    storageIO e = false → persist_check ev e = None →
    thread_step d (TCallback p ev r (CbPersist PWait)) e e d (Some (TCallback p ev r CbFinish)) []
| persist_save p ev r e q failure d' :
    saves e (FName ev) r d failure d' →
    thread_step d (TCallback p ev r (CbPersist (PSave q))) e e d'
      (Some (TCallback p ev r (CbPersist (PCheck q failure)))) []
| persist_leave p ev r e q failure clk go e' :
    persist_done loc host clk ev q failure e = (go, e') →
    thread_step d (TCallback p ev r (CbPersist (PCheck q failure))) e (set_storageIO false e') d
      (Some (TCallback p ev r (if go then CbSaved else CbFinish))) []
| deliver p ev r e :
    Current (FName ev) (Token ev) e = true →
    thread_step d (TCallback p ev r CbSaved) e e d (Some (TCallback p ev r CbFire)) [{| dl_event := ev; dl_found := d !! FName ev |}]
| not_delivered p ev r e :
    Current (FName ev) (Token ev) e = false →
    thread_step d (TCallback p ev r CbSaved) e e d (Some (TCallback p ev r CbFinish)) []
| elapsed_ignored p ev r e :
    thread_step d (TCallback p ev r CbFire) e e d (Some (TCallback p ev r CbFinish)) []
| elapsed_retry p ev r e clk :
    thread_step d (TCallback p ev r CbFire) e (Retry loc host clk ev e) d (Some (TCallback p ev r CbFinish)) []
| elapsed_unrecorded p ev r e clk success :
    record_result host clk ev success e = None →
    thread_step d (TCallback p ev r CbFire) e e d (Some (TCallback p ev r CbFinish)) []
| elapsed_result p ev r e clk success q r' :
    record_result host clk ev success e = Some (q, r') →
    thread_step d (TCallback p ev r CbFire) e e d (Some (TCallback p ev r (CbResult q r' PWait))) []
| result_take p ev r e q0 r' q :
    storageIO e = false → persist_check ev e = Some q →
    thread_step d (TCallback p ev r (CbResult q0 r' PWait)) e (set_storageIO true e) d
      (Some (TCallback p ev r (CbResult q0 r' (PSave q)))) []
| result_refuse p ev r e q0 r' :
    storageIO e = false → persist_check ev e = None →
    thread_step d (TCallback p ev r (CbResult q0 r' PWait)) e e d (Some (TCallback p ev r CbFinish)) []
| result_save p ev r e q0 r' q failure d' :
    saves e (FName ev) r' d failure d' →
    thread_step d (TCallback p ev r (CbResult q0 r' (PSave q))) e e d'
      (Some (TCallback p ev r (CbResult q0 r' (PCheck q failure)))) []
| result_leave p ev r e q0 r' q failure clk go e' :
    persist_done loc host clk ev q failure e = (go, e') →
    thread_step d (TCallback p ev r (CbResult q0 r' (PCheck q failure))) e (set_storageIO false e') d
      (Some (TCallback p ev r (if go then CbRecord q0 r' else CbFinish))) []
| result_record p ev r e q0 r' :
    thread_step d (TCallback p ev r (CbRecord q0 r')) e (record_done q0 ev r' e) d
      (Some (TCallback p ev r CbFinish)) []
| finish p ev r e clk :
    thread_step d (TCallback p ev r CbFinish) e (callback_done loc host clk p ev e) d None []
| plan_picks e order j e' :
    order ≡ₚ keys (arms e) → plan_pick order e = (Some j, e') →
    thread_step d (TPlanner None) e e' d (Some (TPlanner (Some j))) []
| plan_ends e order e' :
    order ≡ₚ keys (arms e) → plan_pick order e = (None, e') →
    thread_step d (TPlanner None) e e' d None []
| plan_publishes e j clk when wl found :
    nextDeadline loc host (pj_spec j) (pj_rt j) clk = Some (when, wl, found) →
    thread_step d (TPlanner (Some j)) e (plan_publish j when wl found e) d (Some (TPlanner None)) []
| load_picks e order q name e' :
    order ≡ₚ keys (arms e) → load_pick order e = (Some (q, name), e') →
    thread_step d (TLoader LPick) e e' d (Some (TLoader (LWait q name))) []
| load_ends e order e' :
    order ≡ₚ keys (arms e) → load_pick order e = (None, e') →
    thread_step d (TLoader LPick) e e' d None []
| load_takes e q name :
    storageIO e = false → load_current q name e = true →
    thread_step d (TLoader (LWait q name)) e (set_storageIO true e) d (Some (TLoader (LRead q name))) []
| load_stale e q name :
    storageIO e = false → load_current q name e = false →
    thread_step d (TLoader (LWait q name)) e e d (Some (TLoader LPick)) []
| load_reads e q name clk :
    thread_step d (TLoader (LRead q name)) e
      (set_storageIO false (load_publish loc host clk q name (inl (load e name d)) e)) d
      (Some (TLoader LPick)) []
| load_fails e q name clk message :
    stored e = true → message ≠ "" →
    thread_step d (TLoader (LRead q name)) e
      (set_storageIO false (load_publish loc host clk q name (inr message) e)) d
      (Some (TLoader LPick)) [].

(** A call of the manager, a round of the loop, or a notification. *)
Inductive call_step : Engine → Engine → Prop :=
| do_Arm e clk s : call_step e (Arm loc host clk s e).2
| do_Disarm e name : call_step e (Disarm name e)
| do_Retain e keep order : order ≡ₚ keys (arms e) → call_step e (Retain keep order e)
| do_UnitActive e clk unit when order : order ≡ₚ keys (arms e) → call_step e (UnitActive loc host clk unit when order e)
| do_ClockChanged e clk order e1 : e1 = fireDueLocked loc host clk (now host clk) (set_clockGen (S (clockGen e)) e) →
    order ≡ₚ keys (arms e1) → call_step e (ClockChanged loc host clk order e)
| do_fireDue e clk : call_step e (fireDue loc host clk e)
| do_wait e clk notified : call_step e (waitDuration host clk notified (set_wakeup false e)).2
| do_Stop e : call_step e (Stop e).

Inductive timer_step : system → system → Prop :=
| step_call s e : call_step (engine s) e → timer_step s (with_engine e s)
| step_thread s t ts e d t' ls :
    threads (engine s) ≡ₚ t :: ts →
    thread_step (disk s) t (set_threads ts (engine s)) e d t' ls →
    timer_step s {| engine := set_threads (option_list t' ++ threads e) e; disk := d; trace := ls ++ trace s |}.

(** The states reached from a start, whatever earlier runs left on disk. *)
Definition reachable (s : system) : Prop :=
  ∃ persistent ns d, rtc timer_step (initial persistent ns d) s.

(** ** A scheduler

    One choice among the steps: the thread named moves on, saves succeed when the
    record is valid, the manager's callback succeeds. *)

Definition save (e : Engine) (name : string) (r : Runtime) (d : gmap string Runtime)
    : option string * gmap string Runtime :=
  if negb (stored e) then (None, d)
  else if bool_decide (valid_activation (RActivation r)) then (None, <[name := stored_part r]> d)
  else (Some "invalid timer activation intent", d).
Lemma save_saves e name r d : saves e name r d (save e name r d).1 (save e name r d).2.
Proof.
  unfold save. destruct (stored e) eqn:E; simpl; [|by constructor].
  case_bool_decide; [by apply save_ok|by apply save_failed].
Qed.

Definition advance_callback (clk : Clock) (d : gmap string Runtime) (p : nat) (ev : Fire) (r : Runtime)
    (ph : callback_phase) (e : Engine) : option (Engine * gmap string Runtime * option thread * list delivery) :=
  let go e d ph ls := Some (e, d, Some (TCallback p ev r ph), ls) in
  match ph with
  | CbPersist PWait =>
    if storageIO e then None
    else match persist_check ev e with
         | Some q => go (set_storageIO true e) d (CbPersist (PSave q)) []
         | None => go e d CbFinish []
         end
  | CbPersist (PSave q) =>
    go e (save e (FName ev) r d).2 (CbPersist (PCheck q (save e (FName ev) r d).1)) []
  | CbPersist (PCheck q failure) =>
    let '(b, e') := persist_done loc host clk ev q failure e in
    go (set_storageIO false e') d (if b then CbSaved else CbFinish) []
  | CbSaved =>
    if Current (FName ev) (Token ev) e
    then go e d CbFire [{| dl_event := ev; dl_found := d !! FName ev |}] else go e d CbFinish []
  | CbFire =>
    match record_result host clk ev true e with
    | Some (q, r') => go e d (CbResult q r' PWait) []
    | None => go e d CbFinish []
    end
  | CbResult q0 r' PWait =>
    if storageIO e then None
    else match persist_check ev e with
         | Some q => go (set_storageIO true e) d (CbResult q0 r' (PSave q)) []
         | None => go e d CbFinish []
         end
  | CbResult q0 r' (PSave q) =>
    go e (save e (FName ev) r' d).2 (CbResult q0 r' (PCheck q (save e (FName ev) r' d).1)) []
  | CbResult q0 r' (PCheck q failure) =>
    let '(b, e') := persist_done loc host clk ev q failure e in
    go (set_storageIO false e') d (if b then CbRecord q0 r' else CbFinish) []
  | CbRecord q0 r' => go (record_done q0 ev r' e) d CbFinish []
  | CbFinish => Some (callback_done loc host clk p ev e, d, None, [])
  end.

Definition advance (clk : Clock) (d : gmap string Runtime) (t : thread) (e : Engine)
    : option (Engine * gmap string Runtime * option thread * list delivery) :=
  match t with
  | TCallback p ev r ph => advance_callback clk d p ev r ph e
  | TPlanner None =>
    let '(o, e') := plan_pick (keys (arms e)) e in Some (e', d, (λ j, TPlanner (Some j)) <$> o, [])
  | TPlanner (Some j) =>
    match nextDeadline loc host (pj_spec j) (pj_rt j) clk with
    | Some (when, wl, found) => Some (plan_publish j when wl found e, d, Some (TPlanner None), [])
    | None => None
    end
  | TLoader LPick =>
    let '(o, e') := load_pick (keys (arms e)) e in Some (e', d, (λ x, TLoader (LWait x.1 x.2)) <$> o, [])
  | TLoader (LWait q name) =>
    if storageIO e then None
    else if load_current q name e then Some (set_storageIO true e, d, Some (TLoader (LRead q name)), [])
    else Some (e, d, Some (TLoader LPick), [])
  | TLoader (LRead q name) =>
    Some (set_storageIO false (load_publish loc host clk q name (inl (load e name d)) e), d,
          Some (TLoader LPick), [])
  end.

Lemma advance_callback_step clk d p ev r ph e e' d' t' ls :
  advance_callback clk d p ev r ph e = Some (e', d', t', ls) → thread_step d (TCallback p ev r ph) e e' d' t' ls.
Proof.
  destruct ph as [[|q|q f]| | |q0 r' [|q|q f]|q0 r'|]; simpl.
  - destruct (storageIO e) eqn:Eio; [done|]. destruct (persist_check ev e) as [q|] eqn:Eq; intros [= <- <- <- <-];
      [by apply persist_take|by apply persist_refuse].
  - intros [= <- <- <- <-]. apply persist_save, save_saves.
  - destruct (persist_done loc host clk ev q f e) as [b e1] eqn:E. intros [= <- <- <- <-].
    by apply (persist_leave d p ev r e q f clk).
  - destruct (Current _ _ _) eqn:E; intros [= <- <- <- <-]; [by apply deliver|by apply not_delivered].
  - destruct (record_result host clk ev true e) as [[q r']|] eqn:E; intros [= <- <- <- <-];
      [by apply (elapsed_result d p ev r e clk true)|apply elapsed_ignored].
  - destruct (storageIO e) eqn:Eio; [done|]. destruct (persist_check ev e) as [q|] eqn:Eq; intros [= <- <- <- <-];
      [by apply result_take|by apply result_refuse].
  - intros [= <- <- <- <-]. apply result_save, save_saves.
  - destruct (persist_done loc host clk ev q f e) as [b e1] eqn:E. intros [= <- <- <- <-].
    by apply (result_leave d p ev r e q0 r' q f clk).
  - intros [= <- <- <- <-]. apply result_record.
  - intros [= <- <- <- <-]. apply finish.
Qed.

Lemma advance_step clk d t e e' d' t' ls : advance clk d t e = Some (e', d', t', ls) →
  thread_step d t e e' d' t' ls.
Proof.
  destruct t as [p ev r ph|[j|]|[|q name|q name]]; simpl.
  - apply advance_callback_step.
  - destruct (nextDeadline loc host (pj_spec j) (pj_rt j) clk) as [[[w wl] f]|] eqn:E; [|done].
    intros [= <- <- <- <-]. by econstructor.
  - destruct (plan_pick (keys (arms e)) e) as [[j|] e1] eqn:E; intros [= <- <- <- <-];
      [by eapply plan_picks|by eapply plan_ends].
  - destruct (load_pick (keys (arms e)) e) as [[[q n]|] e1] eqn:E; intros [= <- <- <- <-];
      [by eapply load_picks|by eapply load_ends].
  - destruct (storageIO e) eqn:Eio; [done|]. destruct (load_current q name e) eqn:Ec; intros [= <- <- <- <-]; by constructor.
  - intros [= <- <- <- <-]. constructor.
Qed.

(** Moves: an arm, a round of the loop, or the [i]th thread. *)
Inductive move := MArm (clk : Clock) (s : Spec) | MFire (clk : Clock) | MThread (clk : Clock) (i : nat).
Definition play (s : system) (m : move) : option system :=
  match m with
  | MArm clk sp => Some (with_engine (Arm loc host clk sp (engine s)).2 s)
  | MFire clk => Some (with_engine (fireDue loc host clk (engine s)) s)
  | MThread clk i =>
    match threads (engine s) !! i with
    | None => None
    | Some t =>
      match advance clk (disk s) t (set_threads (delete i (threads (engine s))) (engine s)) with
      | Some (e, d, t', ls) =>
        Some {| engine := set_threads (option_list t' ++ threads e) e; disk := d; trace := ls ++ trace s |}
      | None => None
      end
    end
  end.
Fixpoint plays (s : system) (ms : list move) : option system :=
  match ms with
  | [] => Some s
  | m :: ms => match play s m with Some s' => plays s' ms | None => None end
  end.

Lemma play_step s m s' : play s m = Some s' → timer_step s s'.
Proof.
  destruct m as [clk sp|clk|clk i]; simpl.
  - intros [= <-]. constructor. constructor.
  - intros [= <-]. constructor. constructor.
  - destruct (threads (engine s) !! i) as [t|] eqn:Et; [|done].
    destruct (advance clk (disk s) t _) as [[[[e d] t'] ls]|] eqn:Ea; [|done]. intros [= <-].
    eapply step_thread; [|by eapply advance_step]. by apply delete_Permutation.
Qed.
Lemma plays_steps ms s s' : plays s ms = Some s' → rtc timer_step s s'.
Proof.
  revert s. induction ms as [|m ms IH]; intros s; simpl; [by intros [= <-]|].
  destruct (play s m) as [s1|] eqn:E; [|done]. intros Hp. eapply rtc_l; [by eapply play_step|auto].
Qed.

End steps.
