(* ===== verification/TimerSafety.v ===== *)
(** * The timer engine: callbacks under every section

    How the claims of [TimerCalls] fare when the engine's threads move: a timer
    that fires, a retry, a result, a storage operation that begins or ends, the
    planner and the loader.  [TimerRuns] draws the conclusions for whole runs. *)

From S2P Require Import Prelude GoStrings GoText GoTime Calendar CalendarSearch CalendarSpec TimerSchedule TimerState ContainerHeap DeadlineHeap TimerEngine TimerEngineInv TimerEngineDue TimerCalls TimerSystem.

#[local] Open Scope nat_scope.

Section runs.
Variable loc : Location.
Variable host : platform.
#[local] Notation core := (core loc host).

Lemma gentle_weaken o e e' : gentle None e e' → gentle o e e'.
Proof.
  intros [G1 G2 G3 G4 G5]. split; try done.
  - intros q b Hb. destruct (G3 q b Hb) as (b' & ? & ? & Hcase). exists b'. split; [done|]. split; [done|].
    destruct Hcase as [[? Hkk]|[? Hkk]]; [left|right]; (split; [done|]); intros _; by apply Hkk.
  - intros q b Hb Hb0. destruct (G4 q b Hb Hb0) as [? Hkk]. split; [done|]. intros _. by apply Hkk.
Qed.

(** Nothing but flags and phases changes. *)
Lemma calls_move X X1 e e' d d' : calls X e d →
  arms e' = arms e → objs e' = objs e → stored e' = stored e → nextArm e' = nextArm e → nextGen e' = nextGen e →
  threads e' = threads e → activeFires e' = activeFires e →
  count is_callback X1 = count is_callback X →
  count is_planner X1 + Nat.b2n (scheduling e) = count is_planner X + Nat.b2n (scheduling e') →
  count is_loader X1 + Nat.b2n (eloading e) = count is_loader X + Nat.b2n (eloading e') →
  count is_holder X1 + Nat.b2n (storageIO e) = count is_holder X + Nat.b2n (storageIO e') →
  tokens X1 = tokens X →
  (∀ j, TPlanner (Some j) ∈ X1 → job_ok e' j) →
  (∀ p ev r ph, TCallback p ev r ph ∈ X1 → ∃ a, call_ok e d' p ev r ph a) →
  (∀ p ev r ph a, TCallback p ev r ph ∈ threads e → call_ok e d p ev r ph a →
    saved ph = true → live e p ev a → d' !! FName ev = d !! FName ev) →
  (∀ p ev r ph p2 ev2 r2 ph2 a, TCallback p ev r ph ∈ X1 → TCallback p2 ev2 r2 ph2 ∈ X1 ++ threads e →
    saved ph = true → saving ph2 = true → FName ev = FName ev2 → objs e !! p = Some a → ¬ live e p ev a) →
  (∀ p ev r ph p2 ev2 r2 ph2 a, TCallback p ev r ph ∈ threads e → TCallback p2 ev2 r2 ph2 ∈ X1 →
    saved ph = true → saving ph2 = true → FName ev = FName ev2 → call_ok e d p ev r ph a → ¬ live e p ev a) →
  calls X1 e' d'.
Proof.
  intros HK E1 E2 E3 E4 E5 E6 E7 Hcb Hpl Hld Hho Htk Hjobs Hcalls Hdisk Hex1 Hex2.
  assert (gentle None e e') as HG.
  { split; rewrite ?E1, ?E2, ?E3, ?E4; try done; [|naive_solver|by left].
    intros p a Ha. exists a. split; [done|]. split; [done|]. by left. }
  apply (calls_step None X X1 X1 [] e e' d d' HK HG); rewrite ?E6, ?E7; try done.
  - split; [lia|]. intros nm p a. unfold lookup_arm. rewrite E1, E2. intros Ha. left. by exists a.
  - unfold owned. by rewrite E2, E4.
  - lia.
  - apply HK.
  - simpl. lia.
  - simpl. lia.
  - rewrite tokens_app, Htk, <- tokens_app. apply HK.
  - intros p ev r ph Hin. destruct (Hcalls p ev r ph Hin) as [a Ha].
    by apply (call_ok_gentle None e e' d' p ev r ph a).
  - intros p ev r ph a Hin Ha. split; [done|]. intros. by apply (Hdisk p ev r ph a).
  - intros nm p a _ _ _. by rewrite !tokens_app, Htk.
  - unfold live. rewrite E1, E2. apply Hex1.
Qed.

(** ** The thread at work and the others *)

Lemma others_token p ev r ph p1 ev1 r1 ph1 e d : calls [TCallback p ev r ph] e d →
  TCallback p1 ev1 r1 ph1 ∈ threads e → Token ev1 ≠ Token ev.
Proof.
  intros HK Hin E. pose proof (k_tokens _ _ _ HK) as Hnd. simpl in Hnd. apply NoDup_cons in Hnd as [Hni _].
  apply Hni. rewrite <- E. by eapply elem_of_tokens.
Qed.
(** Two live callbacks are never of the same arm. *)
Lemma others_not_live p ev r ph p1 ev1 r1 ph1 e d a a1 : calls [TCallback p ev r ph] e d →
  live e p ev a → objs e !! p = Some a →
  TCallback p1 ev1 r1 ph1 ∈ threads e → objs e !! p1 = Some a1 → p1 = p ∨ FName ev1 = FName ev → ¬ live e p1 ev1 a1.
Proof.
  intros HK [Hn Ht] Ha Hin Ha1 Hor [Hn1 Ht1]. apply (others_token _ _ _ _ _ _ _ _ _ _ HK Hin).
  assert (p1 = p) as -> by (destruct Hor as [?|E]; [done|]; rewrite E in Hn1; congruence).
  congruence.
Qed.
Lemma own_call p ev r ph e d : calls [TCallback p ev r ph] e d → ∃ a, call_ok e d p ev r ph a.
Proof. intros HK. apply (k_calls _ _ _ HK). by left. Qed.
Lemma other_call X p ev r ph e d : calls X e d → TCallback p ev r ph ∈ threads e → ∃ a, call_ok e d p ev r ph a.
Proof. intros HK Hin. apply (k_calls _ _ _ HK). apply elem_of_app. by right. Qed.

Lemma saved_not_saving ph : saved ph = true → saving ph = true → False.
Proof. by destruct ph as [[| |? []]| | |? ? []| |]. Qed.
Lemma saving_holds p ev r ph : saving ph = true → is_holder (TCallback p ev r ph) = true.
Proof. by destruct ph as [[]| | |? ? []| |]. Qed.
(** The callback goroutine moves on to another phase. *)
Lemma move_phase b p ev r ph ph' e d d' : calls [TCallback p ev r ph] e d →
  Nat.b2n (is_holder (TCallback p ev r ph')) + Nat.b2n (storageIO e) =
    Nat.b2n (is_holder (TCallback p ev r ph)) + Nat.b2n b →
  (∀ a, call_ok e d p ev r ph a → call_ok e d' p ev r ph' a) →
  (∀ p1 ev1 r1 ph1 a1, TCallback p1 ev1 r1 ph1 ∈ threads e → call_ok e d p1 ev1 r1 ph1 a1 →
    saved ph1 = true → live e p1 ev1 a1 → d' !! FName ev1 = d !! FName ev1) →
  (saved ph' = true → (saved ph = true ∨ is_holder (TCallback p ev r ph) = true)) →
  (saving ph' = true → ∀ a, call_ok e d p ev r ph a → live e p ev a) →
  calls [TCallback p ev r ph'] (set_storageIO b e) d'.
Proof.
  intros HK Hho Hown Hdisk Hsaved Hsaving. destruct (own_call _ _ _ _ _ _ HK) as [a Ha].
  apply (calls_move [TCallback p ev r ph] _ e _ d d' HK); try done.
  - simpl in *. lia.
  - intros j Hj%list_elem_of_singleton. done.
  - intros p1 ev1 r1 ph1 H1%list_elem_of_singleton. simplify_eq. eauto.
  - intros p1 ev1 r1 ph1 p2 ev2 r2 ph2 a1 H1%list_elem_of_singleton H2 Hs1 Hs2 Hn Ha1 Hl. simplify_eq.
    destruct (Hsaved Hs1) as [Hs0|Hh].
    + apply elem_of_app in H2 as [H2%list_elem_of_singleton|H2].
      { simplify_eq. exact (saved_not_saving _ Hs1 Hs2). }
      refine (k_excl _ _ _ HK p ev r ph p2 ev2 r2 ph2 a1 _ _ Hs0 Hs2 Hn Ha1 Hl); [by left|apply elem_of_app; by right].
    + apply elem_of_app in H2 as [H2%list_elem_of_singleton|H2].
      { simplify_eq. exact (saved_not_saving _ Hs1 Hs2). }
      pose proof (k_holder _ _ _ HK) as Hc. rewrite count_threads_app in Hc. cbn [count] in Hc. rewrite Hh in Hc.
      assert (1 <= count is_holder (threads e)).
      { apply (count_in _ (TCallback p2 ev2 r2 ph2)); [done|]. by apply saving_holds. }
      destruct (storageIO e); simpl in Hc; lia.
  - intros p1 ev1 r1 ph1 p2 ev2 r2 ph2 a1 H1 H2%list_elem_of_singleton Hs1 Hs2 Hn Ha1. simplify_eq.
    apply (others_not_live p ev r ph p1 ev1 r1 ph1 e d a a1 HK); try done; [by apply Hsaving|apply Ha|apply Ha1|by right].
Qed.

(** ** Sections that concern the callback of an arm *)

Lemma remove_threads p e : threads (removeDeadlineLocked p e) = threads e ∧
  scheduling (removeDeadlineLocked p e) = scheduling e.
Proof. unfold removeDeadlineLocked. destruct (objs e !! p ≫= item); [|done]. by destruct (_ && _ && _). Qed.

Lemma view_fields a a' : view a' = view a → loading a' = loading a ∧ storageError a' = storageError a ∧
  firing a' = firing a ∧ retry a' = retry a ∧ token a' = token a ∧ spec a' = spec a ∧ rt a' = rt a.
Proof. unfold view. intros [=]. by split_and!. Qed.

(** An arm is not loading while it has a deadline. *)
Lemma item_not_loading e nm p a it : core e → running e = true → arms e !! nm = Some p → objs e !! p = Some a →
  item a = Some it → loading a = false.
Proof.
  intros He Hr Hn Ha Hi. pose proof (proj2 He Hr nm p a Hn Ha ltac:(set_solver)) as Hst. unfold status in Hst.
  destruct (loading a); [|done]. simpl in Hst. destruct Hst as [Hnone _]. congruence.
Qed.

Lemma consume_calls clk due t e d a it : core e → calls [] e d → running e = true →
  objs e !! instance due = Some a → item a = Some it →
  arms e !! SName (spec a) = Some (instance due) → generation due = gen a → firing a = false →
  activeFires e < maxTimerCallbacks →
  calls [] (consumeLocked loc host clk due t (removeDeadlineLocked (instance due) e)) d.
Proof.
  intros He HK Hrun Ha Hit Hn Hg Hf Hact.
  destruct (consume_popped loc host clk due t e a He Ha Hn Hg Hf Hact) as [_ Hc].
  destruct (Hc Hrun) as (ev & r & e2 & Hacc & ->). clear Hc. set (p := instance due) in *.
  destruct (remove_spec e p a (proj1 He) Ha) as (Hs1 & Ha1 & _ & _ & Hg1).
  pose proof (removeDeadline_touches p e) as Ht1. pose proof (remove_threads p e) as [Hth1 Hsc1].
  set (e1 := removeDeadlineLocked p e) in *.
  pose proof (accept_due_spec host clk due t (with_item None a) e1 (s_retry e (proj1 He) p a Ha)) as Hspec.
  rewrite Hacc in Hspec. destruct Hspec as (Htok & Hname & He2). simpl in Htok, Hname.
  set (f := λ a, with_firing true (with_rt r (with_retry None a))).
  set (T := TCallback p ev r (CbPersist PWait)).
  set (e0 := spawn T (set_activeFires (S (activeFires e)) (upd p f e2))).
  assert (arms e0 = arms e ∧ objs e0 = alter f p (objs e1) ∧ nextGen e0 = nextGen e ∧ nextArm e0 = nextArm e ∧
    stored e0 = stored e ∧ threads e0 = T :: threads e ∧ scheduling e0 = scheduling e ∧ eloading e0 = eloading e ∧
    storageIO e0 = storageIO e ∧ running e0 = running e ∧ activeFires e0 = S (activeFires e) ∧ structure e0)
    as (F1 & F2 & F3 & F4 & F5 & F6 & F7 & F8 & F9 & F10 & F11 & F12).
  { assert (structure (upd p f e1)) as Hs2.
    { apply (upd_structure e1 p f (with_item None a)); [done..|]. by apply same_place. }
    destruct He2 as [-> | ->]; (split_and!; [apply Ht1|done|done|apply Ht1|apply Ht1|by simpl; rewrite Hth1|done|apply Ht1|apply Ht1
      |apply Ht1|done|by apply (same_structure (upd p f e1))]). }
  assert (objs e0 !! p = Some (f (with_item None a))) as Ha0 by (by rewrite F2, lookup_alter_eq, Ha1).
  pose proof (reschedule_touches loc host clk p e0) as Ht. set (e' := rescheduleLocked loc host clk p e0) in *.
  pose proof (t_view _ _ _ Ht) as Hv. rewrite Ha0 in Hv. destruct (objs e' !! p) as [a'|] eqn:Ea'; [|done].
  apply (inj Some), view_fields in Hv as (V1 & _ & V3 & V4 & V5 & V6 & V7). simpl in V1, V3, V4, V5, V6, V7.
  pose proof (k_owned _ _ _ HK) as Hown.
  assert (owned e0) as Hown0.
  { pose proof (owned_touches p e e1 Ht1 Hown) as Ho1. pose proof (owned_upd e1 p f _ Ha1 eq_refl Ho1) as [O1 O2].
    split; rewrite F2, ?F4, <- ?(t_nextArm _ _ _ Ht1); done. }
  assert (∀ q b, objs e0 !! q = Some b → q ≠ p → objs e !! q = Some b) as Hold.
  { intros q b Hb Hq. rewrite F2, lookup_alter_ne in Hb by done. by rewrite (t_others _ _ _ Ht1) in Hb. }
  assert (gentle (Some p) e e0) as HG.
  { split; rewrite ?F4, ?F5, ?F1; try done; [| |by left].
    - intros q b Hb. destruct (decide (q = p)) as [->|Hq].
      + rewrite Ha in Hb. simplify_eq. exists (f (with_item None b)). split; [done|]. split; [done|]. left. done.
      + exists b. rewrite F2, lookup_alter_ne, (t_others _ _ _ Ht1) by done. split; [done|]. split; [done|]. by left.
    - intros q b Hb Hnone. destruct (decide (q = p)) as [->|Hq]; [congruence|]. by rewrite (Hold q b Hb Hq) in Hnone. }
  assert (Token ev ∉ tokens (threads e)) as Hfresh.
  { intros (t1 & Hin & Ht1')%list_elem_of_omap. destruct t1 as [p1 ev1 r1 ph1| |]; simplify_eq/=.
    destruct (other_call [] p1 ev1 r1 ph1 e d HK Hin) as [a1 Hc1].
    assert (p = p1) as <- by (apply (co_owner _ _ _ _ _ _ _ Hc1 p a Ha); congruence).
    pose proof (co_obj _ _ _ _ _ _ _ Hc1) as Ha1'. rewrite Ha in Ha1'. simplify_eq.
    rewrite (co_firing _ _ _ _ _ _ _ Hc1) in Hf; [done|]. split; [|congruence].
    by rewrite (co_name _ _ _ _ _ _ _ Hc1). }
  assert (∃ new, threads e' = new ++ T :: threads e ∧ Forall idle new ∧
    count is_planner new + Nat.b2n (scheduling e) = Nat.b2n (scheduling e') ∧ count is_loader new = 0) as (new & HT & HI & HP & HL).
  { destruct (t_threads _ _ _ Ht) as [[E1 E2]|(E1 & E2 & E3 & _)]; rewrite E1, F6; [exists []|exists [TPlanner None]]; simpl.
    - by rewrite E2, F7.
    - rewrite E3, <- F7, E2. split; [done|]. split; [|done]. apply Forall_singleton. by left. }
  assert (calls [] e' d) as HK'; [|eapply calls_quiet; [exact HK'|apply kick_quiet, quiet_refl]].
  apply (calls_step (Some p) [] [T] [] new e e' d d HK).
  - eapply gentle_trans; [exact HG|]. by eapply gentle_weaken, gentle_touches.
  - apply (regen_reschedule loc host clk e e0 p (f (with_item None a))); try done.
    + by rewrite F1.
    + rewrite F10, F8. simpl. intros _ Hl. by apply (core_loading loc host e (SName (spec a)) p a).
    + rewrite F1. intros nm q Hq Hne. split; [done|]. rewrite F2, lookup_alter_ne by done. by rewrite (t_others _ _ _ Ht1).
  - intros _. by eapply owned_touches.
  - simpl. rewrite HT. solve_Permutation.
  - done.
  - rewrite (t_activeFires _ _ _ Ht), F11. simpl. lia.
  - rewrite (t_activeFires _ _ _ Ht), F11. lia.
  - simpl. lia.
  - rewrite (t_eloading _ _ _ Ht), F8, HL. done.
  - rewrite (t_storageIO _ _ _ Ht), F9. done.
  - simpl. apply NoDup_cons. split; [done|]. pose proof (k_tokens _ _ _ HK) as Hnd. done.
  - intros j Hj%list_elem_of_singleton. done.
  - intros p1 ev1 r1 ph1 H1%list_elem_of_singleton. unfold T in H1. simplify_eq. exists a'. split; try done.
    + by rewrite V6, Hname.
    + rewrite (t_nextArm _ _ _ Ht), F4, Htok. by apply (proj1 Hown p a).
    + intros q b Hb Htb. pose proof (owned_touches p e0 e' Ht Hown0) as [_ Hu]. apply (Hu q p b a'); congruence.
  - intros p1 ev1 r1 ph1 a1 Hin Hc1. split; [|done]. intros [= <-] Hl1.
    pose proof (co_firing _ _ _ _ _ _ _ Hc1 Hl1). pose proof (co_obj _ _ _ _ _ _ _ Hc1). congruence.
  - intros nm q b _ _ _ Hin. simpl. by right.
  - intros nm q b [= <-] [_ Hb]%lookup_arm_Some _. rewrite Ea' in Hb. simplify_eq. rewrite V1.
    split; [by eapply item_not_loading|]. simpl. rewrite V5, Htok. by left.
  - intros p1 ev1 r1 ph1 p2 ev2 r2 ph2 b H1%list_elem_of_singleton _ Hsv. unfold T in H1. by simplify_eq.
  - intros p1 ev1 r1 ph1 p2 ev2 r2 ph2 b _ H2%list_elem_of_singleton _ Hsv. unfold T in H2. by simplify_eq.
Qed.

Lemma remove_quiet e p a : structure e → objs e !! p = Some a → quiet None e (removeDeadlineLocked p e).
Proof.
  intros He Ha. pose proof (removeDeadline_touches p e) as Ht.
  destruct (remove_spec e p a He Ha) as (_ & Ha1 & _ & _ & Hg). split; [by eapply gentle_touches| |by eapply starts_touches|by eapply owned_touches|apply Ht..].
  split; [lia|]. intros nm q b [Hq Hb]%lookup_arm_Some. left. rewrite (t_arms _ _ _ Ht) in Hq.
  destruct (decide (q = p)) as [->|Hne].
  - rewrite Ha1 in Hb. simplify_eq. exists a. split; [by apply lookup_arm_Some|done].
  - rewrite (t_others _ _ _ Ht) in Hb by done. exists b. split; [by apply lookup_arm_Some|done].
Qed.

Lemma fire_due_calls clk fuel t e d : core e → calls [] e d → calls [] (fire_due loc host clk fuel t e) d.
Proof.
  revert e. induction fuel as [|fuel IH]; intros e He HK; simpl; [done|].
  pose proof (popDue_spec host clk t e (proj1 He)) as Hpop. destruct (popDueLocked host clk t e) as [[due|] e1].
  - destruct Hpop as (a & it & Ha & Hi & _ & Hn & Hg & Hf & Hact & _ & -> & _).
    apply IH; [by apply (consume_core loc host clk due t e a)|]. destruct (running e) eqn:Er.
    + by apply (consume_calls clk due t e d a it).
    + destruct (consume_popped loc host clk due t e a He Ha Hn Hg Hf Hact) as [-> _]; [|done].
      eapply calls_quiet; [exact HK|]. by apply (remove_quiet e (instance due) a (proj1 He)).
  - by destruct Hpop as [-> _].
Qed.

(** A check by name and token identifies the callback's own arm. *)
Lemma own_arm p ev r ph e d a q b : call_ok e d p ev r ph a → objs e !! q = Some b → token b = Token ev → q = p ∧ b = a.
Proof.
  intros Hc Hb Ht. pose proof (co_owner _ _ _ _ _ _ _ Hc q b Hb Ht) as ->. split; [done|].
  pose proof (co_obj _ _ _ _ _ _ _ Hc). congruence.
Qed.

(** Leaving a callback's arm alone but for what the callback itself changes. *)
Lemma calls_own p ev r ph ph' e e' d : calls [TCallback p ev r ph] e d → quiet (Some p) e e' →
  is_holder (TCallback p ev r ph') = is_holder (TCallback p ev r ph) → saved ph' = false → saving ph' = false →
  (∃ a, live e p ev a ∧ objs e !! p = Some a) →
  (∃ a', call_ok e' d p ev r ph' a') →
  (∀ nm a', lookup_arm e' nm = Some (p, a') → firing a' = true → loading a' = false ∧ token a' = Token ev) →
  calls [TCallback p ev r ph'] e' d.
Proof.
  intros HK [HG HR (new & HT & HI & HP & HL) HO HS HA] Hho Hsaved Hsaving (a & Hl & Ha) Hown Hfire.
  apply (calls_step (Some p) [TCallback p ev r ph] [TCallback p ev r ph'] _ new e e' d d HK HG HR HO).
  - rewrite HT. solve_Permutation.
  - done.
  - simpl. lia.
  - rewrite HA. apply HK.
  - simpl. lia.
  - simpl. lia.
  - cbn [count]. rewrite Hho, HS. lia.
  - apply (k_tokens _ _ _ HK).
  - intros j Hj%list_elem_of_singleton. done.
  - intros p1 ev1 r1 ph1 H1%list_elem_of_singleton. by simplify_eq.
  - intros p1 ev1 r1 ph1 a1 Hin Hc1. split; [|done]. intros [= <-].
    apply (others_not_live p ev r ph p ev1 r1 ph1 e d a a1 HK); try done; [apply Hc1|by left].
  - done.
  - intros nm q b [= <-] Hb Hf. destruct (Hfire nm b Hb Hf) as [? ->]. split; [done|]. by left.
  - intros p1 ev1 r1 ph1 p2 ev2 r2 ph2 b H1%list_elem_of_singleton _ Hs. simplify_eq. congruence.
  - intros p1 ev1 r1 ph1 p2 ev2 r2 ph2 b _ H2%list_elem_of_singleton _ Hs. simplify_eq. congruence.
Qed.

Lemma Retry_calls clk p ev r e d : core e → calls [TCallback p ev r CbFire] e d →
  calls [TCallback p ev r CbFinish] (Retry loc host clk ev e) d.
Proof.
  intros He HK. destruct (own_call _ _ _ _ _ _ HK) as [a Hc].
  assert (calls [TCallback p ev r CbFinish] e d) as Hidle.
  { assert (set_storageIO (storageIO e) e = e) as <- by (by destruct e).
    apply (move_phase (storageIO e) p ev r CbFire CbFinish e d d HK); try done.
    intros b Hb. destruct Hb. split; try done. }
  unfold Retry. destruct (lookup_arm e (FName ev)) as [[q b]|] eqn:E; [|done].
  destruct (negb (running e) || negb (bool_decide (token b = Token ev))) eqn:Eg; [done|].
  apply orb_false_iff in Eg as [Er Et]. rewrite negb_false_iff in Er, Et. apply bool_decide_eq_true in Et.
  pose proof E as [Hq Hb]%lookup_arm_Some.
  destruct (own_arm _ _ _ _ _ _ _ _ _ Hc Hb Et) as [-> ->].
  set (pr := {| event := ev; after := _ |}). set (f := with_retry (Some pr)).
  assert (live e p ev a) as Hl by done.
  assert (quiet (Some p) e (kickLocked (rescheduleLocked loc host clk p (upd p f e)))) as HQ.
  { apply (update_quiet loc host clk (Some p) e (FName ev) p a f); try done. apply same_place; try done.
    intros _ x. simpl. intros [= <-]. simpl. split; [done|]. apply Hc. }
  pose proof (reschedule_touches loc host clk p (upd p f e)) as Ht.
  set (e' := kickLocked _) in *.
  assert (∃ a', objs e' !! p = Some a' ∧ view a' = view (f a)) as (a' & Ha' & Hv).
  { pose proof (t_view _ _ _ Ht) as Hv. rewrite (objs_upd e p f a Hb) in Hv.
    apply fmap_Some in Hv as (a' & Ha' & ->). by exists a'. }
  apply view_fields in Hv as (V1 & _ & V3 & V4 & V5 & V6 & V7). simpl in V1, V3, V5, V6, V7.
  assert (arms e' = arms e) as Harms by (exact (t_arms _ _ _ Ht)).
  apply (calls_own p ev r CbFire CbFinish e e' d HK HQ); try done; [by exists a| |].
  - exists a'. split; try done.
    + rewrite V6. apply Hc.
    + pose proof (g_nextArm _ _ _ (q_gentle _ _ _ HQ)). pose proof (co_token _ _ _ _ _ _ _ Hc). lia.
    + pose proof (q_owned _ _ _ HQ (k_owned _ _ _ HK)) as [_ Hu]. intros q b Hb' Htb. apply (Hu q p b a'); congruence.
    + intros _. rewrite V3. by apply Hc.
    + intros _. unfold arm_id. rewrite V7. by apply Hc.
  - intros nm b [_ Hb']%lookup_arm_Some Hf. rewrite Ha' in Hb'. simplify_eq. rewrite V1, V5. split; [|done].
    rewrite V3 in Hf. by destruct (k_firing _ _ _ HK (FName ev) p a E Hf).
Qed.

Lemma record_done_quiet p ev r ph q r' e d : core e → calls [TCallback p ev r ph] e d → ph = CbRecord q r' →
  quiet None e (record_done q ev r' e).
Proof.
  intros He HK ->. destruct (own_call _ _ _ _ _ _ HK) as [a Hc]. unfold record_done.
  destruct (objs e !! q) as [b|] eqn:Eb; [|apply quiet_refl].
  destruct (running e && bool_decide (arms e !! FName ev = Some q) && bool_decide (token b = Token ev) && _) eqn:Eg; [|apply quiet_refl].
  rewrite !andb_true_iff, !bool_decide_eq_true in Eg. destruct Eg as [[[_ En] Et] _].
  destruct (own_arm _ _ _ _ _ _ _ _ _ Hc Eb Et) as [-> ->]. assert (live e p ev a) as Hl by done.
  set (f := λ a, with_retry None _). split.
  - apply (gentle_upd None e p f a); try done. intros _. split; [done|]. intros _. split; [done|].
    split; [by rewrite (co_retry _ _ _ _ _ _ _ Hc Hl)|]. unfold arm_id. simpl.
    by apply (co_result _ _ _ _ _ _ _ Hc Hl).
  - split; [done|]. intros nm q b [Hq Hb]%lookup_arm_Some. simpl in *. left. destruct (decide (q = p)) as [->|Hne].
    + rewrite lookup_alter_eq, Eb in Hb. simpl in Hb. simplify_eq. exists a. split; [by apply lookup_arm_Some|done].
    + rewrite lookup_alter_ne in Hb by done. exists b. split; [by apply lookup_arm_Some|done].
  - by exists [].
  - by apply (owned_upd e p f a).
  - done.
  - done.
Qed.

(** A callback ends: the arm it still belongs to is free to fire again. *)
Lemma calls_leave o p ev r e e' d a : calls [TCallback p ev r CbFinish] e d → call_ok e d p ev r CbFinish a →
  structure e → quiet o (set_activeFires (pred (activeFires e)) e) e' →
  match o with None => ¬ live e p ev a | Some q => q = p ∧ live e p ev a end →
  (∀ nm q a', o = Some q → lookup_arm e' nm = Some (q, a') → firing a' = false) →
  calls [] e' d.
Proof.
  intros HK Hc Hst HQ Ho Hfire. set (e0 := set_activeFires (pred (activeFires e)) e) in HQ.
  assert (gentle o e e0) as HG0.
  { split; try done; [|simpl; naive_solver|by left]. intros q b Hb. exists b. split; [done|]. split; [done|]. by left. }
  assert (regen e e0) as HR0.
  { split; [done|]. intros nm q b Hb. left. by exists b. }
  destruct HQ as [HG HR (new & HT & HI & HP & HL) HO HS HA].
  pose proof (gentle_trans _ _ _ _ HG0 HG) as HG'. pose proof (regen_trans _ _ _ HR0 HR) as HR'.
  pose proof (k_active _ _ _ HK) as Ka. cbn [app count is_callback Nat.b2n] in Ka.
  pose proof (k_max _ _ _ HK) as Km. simpl in HA.
  apply (calls_step o [TCallback p ev r CbFinish] [] [] new e e' d d HK HG' HR').
  - intros Hown. apply HO. exact Hown.
  - rewrite HT. done.
  - done.
  - cbn [count is_callback Nat.b2n]. lia.
  - lia.
  - simpl in *. lia.
  - simpl in *. lia.
  - simpl in *. rewrite HS. lia.
  - pose proof (k_tokens _ _ _ HK) as Hnd. by apply NoDup_cons in Hnd as [_ ?].
  - by intros j ?%elem_of_nil.
  - by intros ? ? ? ? ?%elem_of_nil.
  - intros p1 ev1 r1 ph1 a1 Hin Hc1. split; [|done]. intros E. rewrite E in Ho. destruct Ho as [-> Hl].
    apply (others_not_live p ev r CbFinish p ev1 r1 ph1 e d a a1 HK Hl); [apply Hc|done|apply Hc1|by left].
  - intros nm q b Hb Hf Hne Hin. simpl in Hin. apply elem_of_cons in Hin as [Et|Hin]; [|done].
    pose proof Hb as [Hq Hbo]%lookup_arm_Some. destruct (own_arm _ _ _ _ _ _ _ _ _ Hc Hbo Et) as [-> ->].
    assert (live e p ev a) as Hl.
    { split; [|done]. rewrite (co_name _ _ _ _ _ _ _ Hc). by rewrite (lookup_arm_name e nm p a Hst Hb). }
    destruct o as [q|]; [|done]. destruct Ho as [-> _]. done.
  - intros nm q b E Hb Hf. by rewrite (Hfire nm q b E Hb) in Hf.
  - by intros ? ? ? ? ? ? ? ? ? ?%elem_of_nil.
  - by intros ? ? ? ? ? ? ? ? ? ? ?%elem_of_nil.
Qed.

Lemma callback_done_calls clk p ev r e d : core e → calls [TCallback p ev r CbFinish] e d →
  calls [] (callback_done loc host clk p ev e) d.
Proof.
  intros He HK. destruct (own_call _ _ _ _ _ _ HK) as [a Hc]. pose proof (co_obj _ _ _ _ _ _ _ Hc) as Ha.
  unfold callback_done. set (e0 := set_activeFires (pred (activeFires e)) e).
  change (objs e0) with (objs e). rewrite Ha.
  assert (core e0) as He0 by (by apply (core_same loc host e)).
  destruct (bool_decide (arms e0 !! FName ev = Some p) && bool_decide (token a = Token ev)) eqn:Eg.
  - rewrite andb_true_iff, !bool_decide_eq_true in Eg. destruct Eg as [Hq Ht].
    set (err := if _ && _ && _ then no_outcome else storageError a).
    set (f := λ a, with_storage (loading a) err (with_firing false a)).
    assert (lookup_arm e0 (FName ev) = Some (p, a)) as Hlk by (by apply lookup_arm_Some).
    assert (quiet (Some p) e0 (if running (upd p f e0) then kickLocked (rescheduleLocked loc host clk p (upd p f e0))
                               else kickLocked (upd p f e0))) as HQ.
    { destruct (running _); [by apply (update_quiet loc host clk (Some p) e0 (FName ev) p a f); [| |apply same_place|..]|].
      apply kick_quiet. split; try done; [by apply (gentle_upd (Some p) e0 p f a)| |by exists []|by apply (owned_upd e0 p f a)].
      split; [done|]. intros nm q b [Hq' Hb]%lookup_arm_Some. simpl in *. left. destruct (decide (q = p)) as [->|Hne].
      - rewrite lookup_alter_eq, Ha in Hb. simpl in Hb. simplify_eq. exists a. split; [by apply lookup_arm_Some|done].
      - rewrite lookup_alter_ne in Hb by done. exists b. split; [by apply lookup_arm_Some|done]. }
    assert (∀ b, objs (if running (upd p f e0) then rescheduleLocked loc host clk p (upd p f e0) else upd p f e0) !! p = Some b →
      firing b = false) as Hfree.
    { intros b Hb. destruct (running (upd p f e0)); [|by rewrite (objs_upd e0 p f a Ha) in Hb; simplify_eq].
      pose proof (t_view _ _ _ (reschedule_touches loc host clk p (upd p f e0))) as Hv.
      rewrite (objs_upd e0 p f a Ha), Hb in Hv. apply (inj Some) in Hv. apply view_fields in Hv as (_ & _ & V & _).
      by rewrite V. }
    apply (calls_leave (Some p) p ev r e _ d a HK Hc (proj1 He)); [by destruct (running (upd p f e0))|done|].
    intros nm q b [= <-] [_ Hb]%lookup_arm_Some. by apply Hfree.
  - apply (calls_leave None p ev r e _ d a HK Hc (proj1 He)); [apply kick_quiet, quiet_refl| |done].
    intros [Hq Ht]. change (arms e0) with (arms e) in Eg. rewrite !bool_decide_eq_true_2 in Eg by done. done.
Qed.

(** ** The stretches of a callback *)

Lemma call_ok_finish e d p ev r ph a : call_ok e d p ev r ph a → call_ok e d p ev r CbFinish a.
Proof. intros []. by split. Qed.
Lemma same_io e : set_storageIO (storageIO e) e = e.
Proof. by destruct e. Qed.

(** A phase without storage follows another, or the callback finishes. *)
Lemma move_on p ev r ph ph' e d : calls [TCallback p ev r ph] e d →
  is_holder (TCallback p ev r ph) = false → is_holder (TCallback p ev r ph') = false →
  (∀ a, call_ok e d p ev r ph a → call_ok e d p ev r ph' a) → saved ph' = false →
  calls [TCallback p ev r ph'] e d.
Proof.
  intros HK H1 H2 Hc Hs. rewrite <- (same_io e). apply (move_phase (storageIO e) p ev r ph ph' e d d HK); try done.
  - by rewrite H1, H2.
  - by rewrite Hs.
  - intros Hsv. apply (saving_holds p ev r) in Hsv. congruence.
Qed.
Lemma move_finish p ev r ph e d : calls [TCallback p ev r ph] e d → is_holder (TCallback p ev r ph) = false →
  calls [TCallback p ev r CbFinish] e d.
Proof. intros HK Hh. apply (move_on _ _ _ ph); try done. intros a. apply call_ok_finish. Qed.

(** A callback with the storage operation gives it back. *)
Lemma release_io p ev r ph ph' e d : calls [TCallback p ev r ph] e d →
  is_holder (TCallback p ev r ph) = true → is_holder (TCallback p ev r ph') = false →
  (∀ a, call_ok e d p ev r ph a → call_ok e d p ev r ph' a) →
  calls [TCallback p ev r ph'] (set_storageIO false e) d.
Proof.
  intros HK H1 H2 Hc. apply (move_phase false p ev r ph ph' e d d HK); try done.
  - pose proof (k_holder _ _ _ HK) as Hh. rewrite count_threads_app in Hh. cbn [count] in Hh. rewrite H1 in Hh. rewrite H1, H2.
    destruct (storageIO e); simpl in *; lia.
  - by right.
  - intros Hsv. apply (saving_holds p ev r) in Hsv. congruence.
Qed.

Lemma persist_check_arm ev e q : persist_check ev e = Some q → ∃ a, lookup_arm e (FName ev) = Some (q, a) ∧
  running e = true ∧ token a = Token ev ∧ (ActivationID ev ≠ "" → arm_id a = ActivationID ev).
Proof.
  unfold persist_check. destruct (lookup_arm e (FName ev)) as [[q' a]|]; [|done].
  destruct (running e && bool_decide (token a = Token ev) && bool_decide (storageError a = "") && _) eqn:Eg; [|done].
  rewrite !andb_true_iff, orb_true_iff, !bool_decide_eq_true in Eg. destruct Eg as [[[? ?] _] Hid].
  intros [= ->]. exists a. split_and!; try done. intros Hne. by destruct Hid.
Qed.

(** The check of [persist] finds the callback's own arm. *)
Lemma persist_check_live p ev r ph e d q a : call_ok e d p ev r ph a → persist_check ev e = Some q →
  live e p ev a ∧ (ActivationID ev ≠ "" → arm_id a = ActivationID ev).
Proof.
  intros Hc (b & [Hq Hb]%lookup_arm_Some & _ & Ht & Hid)%persist_check_arm.
  destruct (own_arm _ _ _ _ _ _ _ _ _ Hc Hb Ht) as [-> ->]. by split.
Qed.

(** [persist] takes the storage operation. *)
Lemma take_calls p ev r ph ph' e d q : calls [TCallback p ev r ph] e d → storageIO e = false →
  persist_check ev e = Some q → is_holder (TCallback p ev r ph) = false → is_holder (TCallback p ev r ph') = true →
  ph ≠ CbFinish → result_of ph' = result_of ph → saved ph' = false →
  calls [TCallback p ev r ph'] (set_storageIO true e) d.
Proof.
  intros HK Hio Hq H1 H2 Hf Hres Hs. apply (move_phase true p ev r ph ph' e d d HK); try done.
  - by rewrite H1, H2, Hio.
  - intros a Hc. destruct (persist_check_live _ _ _ _ _ _ _ _ Hc Hq) as [Hl Hid]. split; try done; try by apply Hc.
    + intros _ _. by apply (co_retry _ _ _ _ _ _ _ Hc).
    + rewrite Hres. apply Hc.
    + by rewrite Hs.
  - by rewrite Hs.
  - intros _ a Hc. by apply (persist_check_live _ _ _ _ _ _ _ _ Hc Hq).
Qed.

(** The record a save leaves is the one of the state it was given. *)
Lemma saves_disk e nm r d failure d' : saves e nm r d failure d' →
  (∀ n, n ≠ nm → d' !! n = d !! n) ∧
  (failure = None → stored e = true → ∃ x, d' !! nm = Some x ∧ ID (RActivation x) = ID (RActivation r)).
Proof.
  assert (∀ n, n ≠ nm → (<[nm := stored_part r]> d : gmap string Runtime) !! n = d !! n) as Hn
    by (intros; by apply lookup_insert_ne).
  intros [Hs|Hs Hv|m Hs Hm|m Hs Hm Hv]; (split; [done|]); try done.
  - intros _ Hs'. congruence.
  - intros _ _. exists (stored_part r). by rewrite lookup_insert_eq.
Qed.

Lemma save_calls p ev r ph ph' e d d' x failure : calls [TCallback p ev r ph] e d → saves e (FName ev) x d failure d' →
  saving ph = true → is_holder (TCallback p ev r ph') = true → saving ph' = false →
  result_of ph' = result_of ph → ph ≠ CbFinish → checked ph = true →
  (saved ph' = true → failure = None ∧ x = r) →
  calls [TCallback p ev r ph'] e d'.
Proof.
  intros HK Hsave Hsv Hh Hsv' Hres Hf Hck Hsd. destruct (saves_disk _ _ _ _ _ _ Hsave) as [Hother Hnew].
  rewrite <- (same_io e). apply (move_phase (storageIO e) p ev r ph ph' e d d' HK).
  - by rewrite Hh, (saving_holds p ev r ph Hsv).
  - intros a Hc. split; try by apply Hc.
    + intros ? _. by apply (co_retry _ _ _ _ _ _ _ Hc).
    + intros ? _. by apply (co_checked _ _ _ _ _ _ _ Hc).
    + rewrite Hres. apply Hc.
    + intros Hl Hs Hst Hid. destruct (Hsd Hs) as [Hfail ->]. destruct (Hnew Hfail Hst) as (y & Hy & Ey).
      exists y. split; [done|]. rewrite Ey, <- (co_state _ _ _ _ _ _ _ Hc) by done. by apply (co_checked _ _ _ _ _ _ _ Hc).
  - intros p1 ev1 r1 ph1 a1 Hin Hc1 Hs1 Hl1. apply Hother. intros E.
    refine (k_excl _ _ _ HK p1 ev1 r1 ph1 p ev r ph a1 _ _ Hs1 Hsv E (co_obj _ _ _ _ _ _ _ Hc1) Hl1);
      [apply elem_of_app; by right|by left].
  - intros _. right. by apply saving_holds.
  - congruence.
Qed.

Lemma leave_calls clk p ev r ph ph' e d q failure go e' : core e → calls [TCallback p ev r ph] e d →
  persist_done loc host clk ev q failure e = (go, e') →
  is_holder (TCallback p ev r ph) = true → is_holder (TCallback p ev r ph') = false →
  (failure = None → ∀ a, call_ok e' d p ev r ph a → call_ok e' d p ev r ph' a) →
  calls [TCallback p ev r (if go then ph' else CbFinish)] (set_storageIO false e') d.
Proof.
  intros He HK Hd H1 H2 Hc. pose proof (persist_done_quiet loc host clk ev q failure e He) as HQ. rewrite Hd in HQ.
  apply (release_io p ev r ph); [by apply (calls_quiet _ e)|done|by destruct go|].
  destruct go; [|intros a; apply call_ok_finish]. apply Hc. clear -Hd. unfold persist_done in Hd.
  destruct (objs e !! q); [|done]. destruct (_ || _ || _); [done|]. by destruct failure.
Qed.

Lemma record_result_live clk p ev r ph e d success q r' a : call_ok e d p ev r ph a →
  record_result host clk ev success e = Some (q, r') → ID (RActivation r') = arm_id a.
Proof.
  intros Hc. unfold record_result. destruct (lookup_arm e (FName ev)) as [[q' b]|] eqn:Hl; [|done].
  destruct (bool_decide (token b = Token ev)) eqn:Et.
  2:{ cbn [negb]. by rewrite orb_true_r. }
  apply bool_decide_eq_true in Et. pose proof Hl as [Hq Hb]%lookup_arm_Some.
  destruct (own_arm _ _ _ _ _ _ _ _ _ Hc Hb Et) as [-> ->]. destruct (_ || _); [done|]. cbv zeta.
  destruct (bool_decide (ActivationID ev = "")).
  - destruct (_ || _); [done|]. intros [= <- <-]. by destruct success.
  - destruct (_ || _); [done|]. intros [= <- <-]. by destruct success.
Qed.

(** ** The stretches of the workers *)

Definition bookkeeping (pl ld io : bool) (cur : string) (e : Engine) : Engine :=
  set_scheduleCursor cur (set_scheduling pl (set_eloading ld (set_storageIO io e))).

(** A worker moves on, and changes only what describes the workers. *)
Lemma move_worker t t' pl ld io cur e d : calls [t] e d → is_callback t = false →
  Forall (λ t, is_callback t = false) (option_list t') →
  count is_planner (option_list t') + Nat.b2n (scheduling e) = Nat.b2n (is_planner t) + Nat.b2n pl →
  count is_loader (option_list t') + Nat.b2n (eloading e) = Nat.b2n (is_loader t) + Nat.b2n ld →
  count is_holder (option_list t') + Nat.b2n (storageIO e) = Nat.b2n (is_holder t) + Nat.b2n io →
  (∀ j, t' = Some (TPlanner (Some j)) → job_ok e j) →
  calls (option_list t') (bookkeeping pl ld io cur e) d.
Proof.
  intros HK Ht Ht' H1 H2 H3 Hj.
  assert (∀ p ev r ph, TCallback p ev r ph ∉ option_list t') as Hno.
  { intros p ev r ph Hin. rewrite Forall_forall in Ht'. by apply Ht' in Hin. }
  apply (calls_move [t] _ e _ d d HK); try done.
  - cbn [count]. rewrite Ht. destruct t' as [t'|]; [|done]. apply Forall_cons in Ht' as [Ht' _].
    simpl. by rewrite Ht'.
  - cbn [count]. simpl scheduling. lia.
  - cbn [count]. simpl eloading. lia.
  - cbn [count]. simpl storageIO. lia.
  - destruct t as [?| |]; [done| |]; (destruct t' as [[?| |]|]; try done; by apply Forall_cons in Ht' as [? _]).
  - intros j Hin. destruct t' as [t'|]; [|by apply elem_of_nil in Hin]. apply list_elem_of_singleton in Hin as <-.
    destruct (Hj j eq_refl). by split.
  - by intros p ev r ph ?%Hno.
  - by intros p ev r ph ? ? ? ? ? ?%Hno.
  - by intros p ev r ph ? ? ? ? ? _ ?%Hno.
Qed.

Lemma plan_pick_result order e o e' : plan_pick order e = (o, e') →
  e' = match o with None => set_scheduling false e | Some j => set_scheduleCursor (pj_name j) e end.
Proof.
  unfold plan_pick. destruct (if running e then _ else _) as [nxt first].
  destruct (match nxt with Some x => Some x | None => first end) as [[p a]|]; by intros [= <- <-].
Qed.
Lemma load_pick_result order e o e' : load_pick order e = (o, e') →
  e' = match o with None => set_eloading false e | Some _ => e end.
Proof. unfold load_pick. destruct (if running e then _ else _) as [x|]; by intros [= <- <-]. Qed.

Lemma planner_flag o e d : calls [TPlanner o] e d → scheduling e = true.
Proof. intros HK. pose proof (k_planner _ _ _ HK) as Hp. simpl in Hp. by destruct (scheduling e). Qed.
Lemma loader_flag l e d : calls [TLoader l] e d → eloading e = true.
Proof. intros HK. pose proof (k_loader _ _ _ HK) as Hp. simpl in Hp. by destruct (eloading e). Qed.
Lemma reading_flag q n e d : calls [TLoader (LRead q n)] e d → storageIO e = true.
Proof. intros HK. pose proof (k_holder _ _ _ HK) as Hp. simpl in Hp. by destruct (storageIO e). Qed.

Lemma plan_picks_calls order j e e' d : core e → calls [TPlanner None] e d → plan_pick order e = (Some j, e') →
  calls [TPlanner (Some j)] e' d.
Proof.
  intros He HK Hp. pose proof (plan_pick_job order e j e' (proj1 He) (k_gens _ _ _ HK) Hp) as Hj.
  apply plan_pick_result in Hp as ->.
  assert (set_scheduleCursor (pj_name j) e = bookkeeping (scheduling e) (eloading e) (storageIO e) (pj_name j) e) as E
    by (by destruct e).
  rewrite E. apply (move_worker (TPlanner None) (Some (TPlanner (Some j)))); try done; [by repeat constructor|].
  intros j' [= <-]. by destruct Hj; split.
Qed.
Lemma plan_ends_calls order e e' d : calls [TPlanner None] e d → plan_pick order e = (None, e') → calls [] e' d.
Proof.
  intros HK Hp. apply plan_pick_result in Hp as ->. pose proof (planner_flag _ _ _ HK) as Hf.
  assert (set_scheduling false e = bookkeeping false (eloading e) (storageIO e) (scheduleCursor e) e) as ->
    by (by destruct e).
  apply (move_worker (TPlanner None) None); try done. by rewrite Hf.
Qed.
Lemma plan_publishes_calls j when wl found e d : core e → calls [TPlanner (Some j)] e d →
  calls [TPlanner None] (plan_publish j when wl found e) d.
Proof.
  intros He HK. pose proof (plan_publish_quiet loc host j when wl found e He) as HQ.
  apply (calls_quiet _ _ _ _ HK) in HQ. set (e1 := plan_publish j when wl found e) in *.
  assert (e1 = bookkeeping (scheduling e1) (eloading e1) (storageIO e1) (scheduleCursor e1) e1) as E
    by (by destruct e1).
  rewrite E. apply (move_worker (TPlanner (Some j)) (Some (TPlanner None))); try done. by repeat constructor.
Qed.
Lemma load_ends_calls order e e' d : calls [TLoader LPick] e d → load_pick order e = (None, e') → calls [] e' d.
Proof.
  intros HK Hp. apply load_pick_result in Hp as ->. pose proof (loader_flag _ _ _ HK) as Hf.
  assert (set_eloading false e = bookkeeping (scheduling e) false (storageIO e) (scheduleCursor e) e) as ->
    by (by destruct e).
  apply (move_worker (TLoader LPick) None); try done. by rewrite Hf.
Qed.
(** The loader moves on, and takes or leaves the storage operation. *)
Lemma loader_calls l l' io e d : calls [TLoader l] e d →
  Nat.b2n (is_holder (TLoader l')) + Nat.b2n (storageIO e) = Nat.b2n (is_holder (TLoader l)) + Nat.b2n io →
  calls [TLoader l'] (set_storageIO io e) d.
Proof.
  intros HK Hio. assert (set_storageIO io e = bookkeeping (scheduling e) (eloading e) io (scheduleCursor e) e) as ->
    by (by destruct e).
  apply (move_worker (TLoader l) (Some (TLoader l'))); try done; [by repeat constructor|simpl in *; lia].
Qed.
Lemma load_publish_calls clk q name res e d : core e → calls [TLoader (LRead q name)] e d →
  calls [TLoader LPick] (set_storageIO false (load_publish loc host clk q name res e)) d.
Proof.
  intros He HK. apply (loader_calls (LRead q name)).
  - apply (calls_quiet _ e); [done|]. apply load_publish_quiet; [done|]. intros nm p a Ha Hf.
    by apply (k_firing _ _ _ HK nm p a).
  - rewrite (q_storageIO _ _ _ (load_publish_quiet loc host clk q name res e He (λ nm p a Ha Hf, proj1 (k_firing _ _ _ HK nm p a Ha Hf)))).
    by rewrite (reading_flag _ _ _ _ HK).
Qed.

End runs.
