(* ===== verification/TimerRuns.v ===== *)
(** * The timer engine: what holds of every run

    The invariants of [TimerEngineInv] and [TimerCalls] hold of every reachable
    state of [TimerSystem]; from them follow the engine's promises: no timer is
    forgotten, callbacks and workers stay within their bounds, and an activation
    is delivered only once its intent is on disk. *)

From S2P Require Import Prelude GoStrings GoText GoTime Calendar CalendarSearch CalendarSpec TimerSchedule TimerState ContainerHeap DeadlineHeap TimerEngine TimerEngineInv TimerEngineDue TimerCalls TimerSystem TimerSafety.

#[local] Open Scope nat_scope.

(** A delivered activation was on disk when it was delivered. *)
Definition durable (e : Engine) (dl : delivery) : Prop :=
  stored e = true → ActivationID (dl_event dl) ≠ "" →
  ∃ x, dl_found dl = Some x ∧ ID (RActivation x) = ActivationID (dl_event dl).

Section runs.
Variable loc : Location.
Variable host : platform.
#[local] Notation core := (core loc host).

Lemma io_core b e : core e → core (set_storageIO b e).
Proof. intros He. by apply (core_same loc host e). Qed.

Lemma thread_step_core d t e e' d' t' ls : core e → calls [t] e d →
  thread_step loc host d t e e' d' t' ls → core e'.
Proof.
  intros He HK Hst. destruct Hst; try done; try (by apply io_core).
  - apply io_core. pose proof (persist_done_core loc host clk ev q failure e He) as Hc. by rewrite H in Hc.
  - by apply Retry_core.
  - apply io_core. pose proof (persist_done_core loc host clk ev q failure e He) as Hc. by rewrite H in Hc.
  - apply record_done_core; [|done]. intros b Hb Hn Ht. destruct (own_call _ _ _ _ _ _ HK) as [a Ha].
    destruct (own_arm _ _ _ _ _ _ _ _ _ Ha Hb Ht) as [-> ->]. by apply (co_retry _ _ _ _ _ _ _ Ha).
  - by apply callback_done_core.
  - pose proof (plan_pick_core loc host order e H He) as Hc. by rewrite H0 in Hc.
  - pose proof (plan_pick_core loc host order e H He) as Hc. by rewrite H0 in Hc.
  - apply (plan_publish_core loc host clk); [|done..]. apply (k_jobs _ _ _ HK). by left.
  - pose proof (load_pick_core loc host order e H He) as Hc. by rewrite H0 in Hc.
  - pose proof (load_pick_core loc host order e H He) as Hc. by rewrite H0 in Hc.
  - by apply io_core, load_publish_core.
  - by apply io_core, load_publish_core.
Qed.

Lemma call_ok_next e d p ev r ph ph' a : call_ok e d p ev r ph a → ph ≠ CbFinish →
  (checked ph' = true → checked ph = true) → (∀ x, result_of ph' = Some x → ID (RActivation x) = arm_id a ∨ result_of ph = Some x) →
  (saved ph' = true → saved ph = true) → call_ok e d p ev r ph' a.
Proof.
  intros Hc Hf Hck Hres Hs. split; try by apply Hc.
  - intros ? _. by apply (co_retry _ _ _ _ _ _ _ Hc).
  - intros ? ?%Hck. by apply (co_checked _ _ _ _ _ _ _ Hc).
  - intros ? x [?|?]%Hres; [done|]. by apply (co_result _ _ _ _ _ _ _ Hc).
  - intros ? ?%Hs. by apply (co_saved _ _ _ _ _ _ _ Hc).
Qed.

Lemma thread_step_calls d t e e' d' t' ls : core e → calls [t] e d →
  thread_step loc host d t e e' d' t' ls → calls (option_list t') e' d'.
Proof.
  intros He HK Hst. destruct Hst; simpl.
  - by apply (take_calls p ev r (CbPersist PWait) _ e d q).
  - by apply (move_finish _ _ _ (CbPersist PWait)).
  - apply (save_calls p ev r (CbPersist (PSave q)) _ e d d' r failure HK H); try done. by destruct failure.
  - apply (leave_calls loc host clk p ev r (CbPersist (PCheck q failure)) CbSaved e d q failure go e' He HK H); try done.
    intros -> a Hc. by apply (call_ok_next _ _ _ _ _ _ _ _ Hc).
  - apply (move_on _ _ _ CbSaved); try done. intros a Hc. by apply (call_ok_next _ _ _ _ _ _ _ _ Hc).
  - by apply (move_finish _ _ _ CbSaved).
  - by apply (move_finish _ _ _ CbFire).
  - by apply Retry_calls.
  - by apply (move_finish _ _ _ CbFire).
  - apply (move_on _ _ _ CbFire); try done. intros a Hc. pose proof (record_result_live _ _ _ _ _ _ _ _ _ _ _ _ Hc H) as Hr.
    apply (call_ok_next _ _ _ _ _ _ _ _ Hc); try done. intros ? [= <-]. by left.
  - by apply (take_calls p ev r (CbResult q0 r' PWait) _ e d q).
  - by apply (move_finish _ _ _ (CbResult q0 r' PWait)).
  - by apply (save_calls p ev r (CbResult q0 r' (PSave q)) _ e d d' r' failure HK H).
  - apply (leave_calls loc host clk p ev r (CbResult q0 r' (PCheck q failure)) (CbRecord q0 r') e d q failure go e' He HK H); try done.
    intros _ a Hc. apply (call_ok_next _ _ _ _ _ _ _ _ Hc); try done. by right.
  - apply (move_finish _ _ _ (CbRecord q0 r')); [|done]. eapply calls_quiet; [done|].
    by apply (record_done_quiet loc host p ev r (CbRecord q0 r') q0 r' e d).
  - by apply (callback_done_calls loc host clk p ev r).
  - by apply (plan_picks_calls loc host order j e).
  - by apply (plan_ends_calls order e).
  - by apply (plan_publishes_calls loc host).
  - apply load_pick_result in H0 as ->. rewrite <- (same_io e). by apply (loader_calls LPick).
  - by apply (load_ends_calls order e).
  - apply (loader_calls (LWait q name)); [done|]. by rewrite H.
  - rewrite <- (same_io e). by apply (loader_calls (LWait q name)).
  - by apply load_publish_calls.
  - by apply load_publish_calls.
Qed.

(** Whether there is a store does not change. *)
Lemma persist_done_stored clk ev q failure e e' go : core e → persist_done loc host clk ev q failure e = (go, e') →
  stored e' = stored e.
Proof.
  intros He Hd. pose proof (persist_done_quiet loc host clk ev q failure e He) as HQ. rewrite Hd in HQ. apply HQ.
Qed.
Lemma Retry_stored clk ev e : stored (Retry loc host clk ev e) = stored e.
Proof.
  unfold Retry. destruct (lookup_arm e (FName ev)) as [[p a]|]; [|done]. destruct (_ || _); [done|].
  simpl. exact (t_stored _ _ _ (reschedule_touches loc host clk p (upd p _ e))).
Qed.
Lemma callback_done_stored clk p ev e : stored (callback_done loc host clk p ev e) = stored e.
Proof.
  unfold callback_done. set (e0 := set_activeFires _ e). destruct (objs e0 !! p) as [a|]; [|done].
  destruct (_ && bool_decide (token a = _)); [|done]. destruct (running (upd p _ e0)); [|done].
  exact (t_stored _ _ _ (reschedule_touches loc host clk p (upd p _ e0))).
Qed.
Lemma load_publish_stored clk q name res e d : core e → calls [TLoader (LRead q name)] e d →
  stored (load_publish loc host clk q name res e) = stored e.
Proof.
  intros He HK. apply (g_stored None). apply load_publish_quiet; [done|]. intros nm p a Ha Hf.
  by apply (k_firing _ _ _ HK nm p a).
Qed.
Lemma thread_step_stored d t e e' d' t' ls : core e → calls [t] e d →
  thread_step loc host d t e e' d' t' ls → stored e' = stored e.
Proof.
  intros He HK Hst. destruct Hst; try done.
  - exact (persist_done_stored clk ev q failure e e' go He H).
  - apply Retry_stored.
  - exact (persist_done_stored clk ev q failure e e' go He H).
  - apply (g_stored None). by apply (record_done_quiet loc host p ev r (CbRecord q0 r') q0 r' e d).
  - apply callback_done_stored.
  - by apply plan_pick_result in H0 as ->.
  - by apply plan_pick_result in H0 as ->.
  - apply (g_stored None). by apply (plan_publish_quiet loc host).
  - by apply load_pick_result in H0 as ->.
  - by apply load_pick_result in H0 as ->.
  - change (stored (load_publish loc host clk q name (inl (load e name d)) e) = stored e).
    by apply (load_publish_stored clk q name _ e d).
  - change (stored (load_publish loc host clk q name (inr message) e) = stored e).
    by apply (load_publish_stored clk q name _ e d).
Qed.

Lemma thread_step_durable d t e e' d' t' ls : calls [t] e d →
  thread_step loc host d t e e' d' t' ls → Forall (durable e) ls.
Proof.
  intros HK Hst. destruct Hst; try by constructor.
  constructor; [|constructor]. intros Hs Hid. destruct (own_call _ _ _ _ _ _ HK) as [a Hc].
  unfold Current in H. destruct (lookup_arm e (FName ev)) as [[q b]|] eqn:E; [|done].
  rewrite !andb_true_iff, !bool_decide_eq_true in H. destruct H as [_ Ht]. pose proof E as [Hq Hb]%lookup_arm_Some.
  destruct (own_arm _ _ _ _ _ _ _ _ _ Hc Hb Ht) as [-> ->]. by apply (co_saved _ _ _ _ _ _ _ Hc).
Qed.

(** ** Calls *)

Lemma wake_quiet e : quiet None e (set_wakeup false e).
Proof. by apply quiet_same. Qed.
Lemma fire_due_stored clk fuel t e : core e → stored (fire_due loc host clk fuel t e) = stored e.
Proof.
  revert e. induction fuel as [|fuel IH]; intros e He; simpl; [done|].
  pose proof (popDue_spec host clk t e (proj1 He)) as Hpop. destruct (popDueLocked host clk t e) as [[due|] e1].
  - destruct Hpop as (a & it & Ha & Hi & _ & Hn & Hg & Hf & Hact & _ & -> & _).
    destruct (consume_core loc host clk due t e a He Ha Hn Hg Hf Hact) as [Hc _].
    destruct (consume_popped loc host clk due t e a He Ha Hn Hg Hf Hact) as [Hoff Hon].
    destruct (remove_spec e (instance due) a (proj1 He) Ha) as (_ & Ha1 & _).
    rewrite IH by done. pose proof (t_stored _ _ _ (removeDeadline_touches (instance due) e)) as Hst.
    destruct (running e) eqn:Er; [|by rewrite Hoff].
    destruct (Hon eq_refl) as (ev & r & e2 & Hacc & ->).
    set (e3 := spawn _ _). cbn [stored kickLocked set_wakeup].
    rewrite (t_stored _ _ _ (reschedule_touches loc host clk (instance due) e3)). subst e3. simpl.
    assert (retry_ok (with_item None a)) as Hro by (exact (s_retry e (proj1 He) (instance due) a Ha)).
    pose proof (accept_due_spec host clk due t (with_item None a) (removeDeadlineLocked (instance due) e) Hro) as Hsp.
    rewrite Hacc in Hsp. destruct Hsp as (_ & _ & [-> | ->]); done.
  - by destruct Hpop as [-> _].
Qed.

Lemma call_step_quiet e e' : core e → call_step loc host e e' →
  core e' ∧ stored e' = stored e ∧ ∀ d, calls [] e d → calls [] e' d.
Proof.
  intros He Hst.
  assert (∀ e', core e' → quiet None e e' → core e' ∧ stored e' = stored e ∧ ∀ d, calls [] e d → calls [] e' d) as Hq.
  { intros e1 Hc HQ. split; [done|]. split; [apply HQ|]. intros d HK. by apply (calls_quiet [] e). }
  destruct Hst as [e clk s|e name|e keep order _|e clk unit when order _|e clk order e1 -> _|e clk|e clk notified|e].
  - apply Hq; [by apply Arm_core|by apply Arm_quiet].
  - unfold Disarm. destruct (bool_decide (name = "")); [apply Hq; [done|apply quiet_refl]|].
    apply Hq; [by apply kick_core, drop_arm_core|by eapply kick_quiet, drop_arm_quiet].
  - assert (∀ e name, core e → core (if bool_decide (name ∈ keep) then e else drop_arm name e)) as Hc.
    { intros e1 name He1. destruct (bool_decide _); [done|]. by apply drop_arm_core. }
    apply Hq; [by apply kick_core, foldl_core|]. apply kick_quiet, (foldl_quiet loc host); [done| |done].
    intros e1 name He1. destruct (bool_decide _); [apply quiet_refl|]. by apply (drop_arm_quiet loc host).
  - unfold UnitActive. destruct (bool_decide (unit = "")); [apply Hq; [done|apply quiet_refl]|].
    set (w := if IsZero when then now host clk else when).
    assert (∀ e name, core e → core (unit_active_arm loc host clk unit w e name)) as Hc
      by (intros; by apply unit_active_core).
    apply Hq; [by apply foldl_core|]. apply (foldl_quiet loc host); [done| |done]. intros. by apply unit_active_quiet.
  - unfold ClockChanged. destruct (negb (running e)); [apply Hq; [done|apply quiet_refl]|].
    set (e0 := set_clockGen _ e). assert (core e0) as He0 by (by apply (core_same loc host e)).
    assert (core (fireDueLocked loc host clk (now host clk) e0)) as Hf by (by apply fireDueLocked_core).
    assert (∀ e name, core e → core (clock_changed_arm loc host clk (now host clk) e name)) as Hc
      by (intros; by apply clock_changed_arm_core).
    assert (quiet None (fireDueLocked loc host clk (now host clk) e0)
      (kickLocked (foldl (clock_changed_arm loc host clk (now host clk)) (fireDueLocked loc host clk (now host clk) e0) order))) as HQ.
    { apply kick_quiet, (foldl_quiet loc host); [done| |done]. intros. by apply clock_changed_arm_quiet. }
    split; [by apply kick_core, foldl_core|]. split; [rewrite (g_stored _ _ _ (q_gentle _ _ _ HQ)); exact (fire_due_stored clk _ _ e0 He0)|].
    intros d HK. eapply calls_quiet; [|exact HQ]. apply fire_due_calls; [done|].
    apply (calls_quiet [] e); [done|by apply quiet_same].
  - split; [by apply fireDueLocked_core|]. split; [by apply fire_due_stored|]. intros d HK. by apply fire_due_calls.
  - assert (core (set_wakeup false e)) as Hw by (by apply (core_same loc host e)). apply Hq; [by apply waitDuration_core|].
    simpl. rewrite dropStale_none by apply Hw. by apply quiet_same.
  - apply Hq; [by apply core_stopped; [apply (same_structure e); [apply He|..]|]|by apply quiet_same].
Qed.

Record sound (s : system) : Prop := {
  so_core : core (engine s);
  so_calls : calls [] (engine s) (disk s);
  so_trace : Forall (durable (engine s)) (trace s);
}.

Lemma initial_sound persistent ns d : sound (initial persistent ns d).
Proof.
  assert (Init {| slots := []; index := ∅ |} = {| slots := []; index := ∅ |}) as Hq by done.
  split; simpl.
  - split; [|by intros _ name p a]. split; simpl; try done.
    + rewrite Hq. apply queue_empty.
    + by intros it ?%elem_of_nil.
    + by intros it ?%elem_of_nil.
    + rewrite map_size_empty. unfold MaxArmedTimers. lia.
  - split; simpl; try done; [unfold maxTimerCallbacks; lia|by intros j ?%elem_of_nil|constructor|].
    by intros p ev r ph ?%elem_of_nil.
  - constructor.
Qed.

Lemma step_sound s s' : sound s → timer_step loc host s s' → sound s' ∧ stored (engine s') = stored (engine s).
Proof.
  intros Hs Hst. destruct Hst as [s1 e Hc|s1 t ts e d t' ls Hp Hc]; destruct Hs as [He HK HT].
  - destruct (call_step_quiet _ _ He Hc) as (He' & Hs & HK'). split; [|done].
    split; simpl; [done|by apply HK'|]. eapply Forall_impl; [done|]. unfold durable. by rewrite Hs.
  - set (e0 := set_threads ts (engine s1)) in *.
    assert (core e0) as He0 by (by apply (core_same loc host (engine s1))).
    assert (calls [t] e0 (disk s1)) as HK0 by (apply (calls_perm []); [done|by symmetry]).
    pose proof (thread_step_stored _ _ _ _ _ _ _ He0 HK0 Hc) as Hs. split; [|exact Hs].
    pose proof (thread_step_core _ _ _ _ _ _ _ He0 HK0 Hc) as He'. split; simpl.
    + by apply (core_same loc host e).
    + apply (calls_perm (option_list t')); [exact (thread_step_calls _ _ _ _ _ _ _ He0 HK0 Hc)|done].
    + assert (Forall (durable e) (ls ++ trace s1)) as Ht; [|done]. apply Forall_app. split.
      * eapply Forall_impl; [by eapply thread_step_durable|]. unfold durable. by rewrite Hs.
      * eapply Forall_impl; [done|]. unfold durable. by rewrite Hs.
Qed.

Lemma run_sound s s' : sound s → rtc (timer_step loc host) s s' → sound s' ∧ stored (engine s') = stored (engine s).
Proof.
  intros Hs Hr. induction Hr as [s|s1 s2 s3 Hst _ IH]; [done|].
  destruct (step_sound s1 s2 Hs Hst) as [Hs2 <-]. auto.
Qed.
Lemma reachable_sound s : reachable loc host s → sound s.
Proof.
  intros (persistent & ns & d & Hr). by destruct (run_sound _ _ (initial_sound persistent ns d) Hr).
Qed.

(** ** What the engine promises *)

(** A timer with its name, and what becomes of it: the loader will read its
    state, its storage error was reported, the planner will find its deadline, or
    its deadline is in the queue, where it is the one its schedule gives or the
    moment of a retry; a timer without triggers has none. *)
Definition attended (e : Engine) (name : string) (a : armed) : Prop :=
  SName (spec a) = name ∧
  ((loading a = true ∧ ∃ l, TLoader l ∈ threads e) ∨
   (loading a = false ∧ storageError a ≠ "") ∨
   (planning a = true ∧ ∃ j, TPlanner j ∈ threads e) ∨
   (ok a = true ∧ (∃ it, it ∈ slots (pq e) ∧ iname it = name ∧ iwhen it = next a ∧ igen it = gen a) ∧
     (is_Some (retry a) ∨ ∃ clk, nextDeadline loc host (spec a) (rt a) clk = Some (next a, wallNext a, true))) ∨
   (ok a = false ∧ ∃ clk, nextDeadline loc host (spec a) (rt a) clk = Some (next a, wallNext a, false))).

Lemma count_found P l : 1 <= count P l → ∃ t, t ∈ l ∧ P t = true.
Proof.
  induction l as [|t l IH]; simpl; [lia|]. destruct (P t) eqn:E; [intros _; exists t; by split; [left|]|].
  simpl. intros (t' & ? & ?)%IH. exists t'. by split; [right|].
Qed.
Lemma loader_runs X e d : calls X e d → X = [] → eloading e = true → ∃ l, TLoader l ∈ threads e.
Proof.
  intros HK -> Hl. pose proof (k_loader _ _ _ HK) as Hc. rewrite Hl in Hc.
  destruct (count_found is_loader (threads e)) as (t & Ht & Hp); [simpl in Hc; lia|]. destruct t; try done. eauto.
Qed.
Lemma planner_runs X e d : calls X e d → X = [] → scheduling e = true → ∃ j, TPlanner j ∈ threads e.
Proof.
  intros HK -> Hl. pose proof (k_planner _ _ _ HK) as Hc. rewrite Hl in Hc.
  destruct (count_found is_planner (threads e)) as (t & Ht & Hp); [simpl in Hc; lia|]. destruct t; try done. eauto.
Qed.

(** C5: No timer is forgotten: in every state that the engine reaches, whatever the
    manager calls, however the workers and callbacks interleave, whatever the
    clock shows and whether or not storage works, each armed timer of a running
    engine is attended to; and the queue holds nothing else. *)
Theorem armed_attended s : reachable loc host s → running (engine s) = true →
  (∀ name p a, arms (engine s) !! name = Some p → objs (engine s) !! p = Some a → attended (engine s) name a) ∧
  (∀ it, it ∈ slots (pq (engine s)) → item_current (engine s) it = true) ∧
  (∀ name, is_Some (arms (engine s) !! name) → is_Some (lookup_arm (engine s) name)).
Proof.
  intros [[He Hc] HK _]%reachable_sound Hr. split; [|split].
  - intros name p a Hn Ha. pose proof (Hc Hr name p a Hn Ha ltac:(set_solver)) as Hst.
    destruct (s_arms _ He name p Hn) as (a' & Ha' & Hname). rewrite Ha in Ha'. simplify_eq. split; [done|].
    unfold status in Hst. destruct (loading a') eqn:El.
    { left. split; [done|]. eapply loader_runs; [done..|]. by apply Hst. }
    destruct (bool_decide (storageError a' = "")) eqn:Es; [|right; left; split; [done|]; by apply bool_decide_eq_false in Es].
    simpl in Hst. destruct (planning a') eqn:Ep.
    { right. right. left. split; [done|]. eapply planner_runs; [done..|]. by apply Hst. }
    right. right. right. destruct Hst as [Hit Hcomp]. destruct (ok a') eqn:Eo.
    + left. split; [done|]. destruct Hit as (it & Hit & Hw). destruct (s_items _ He p a' it Ha Hit) as (Hin & Hni & Hg).
      split; [exists it; split_and!; try done; by apply (arms_inj (engine s) _ _ p)|].
      destruct (retry a'); [left; eauto|right]. unfold computed in Hcomp. by rewrite Eo in Hcomp.
    + right. split; [done|]. destruct (retry a'); [by destruct Hcomp|]. unfold computed in Hcomp. by rewrite Eo in Hcomp.
  - intros it. by apply structure_current.
  - intros name [p Hp]. destruct (s_arms _ He name p Hp) as (a & Ha & _). exists (p, a). by apply lookup_arm_Some.
Qed.

(** C16: The engine's bounds: at most 32 callbacks run, [activeFires] of them, no two
    for the same arming; at most 1024 timers are armed; there is at most one
    planner, one loader, and one storage operation; and an armed timer is marked
    as firing exactly as long as the callback of its arming runs. *)
Theorem workers_bounded s : reachable loc host s →
  count is_callback (threads (engine s)) = activeFires (engine s) ∧ activeFires (engine s) <= maxTimerCallbacks ∧
  NoDup (tokens (threads (engine s))) ∧ size (arms (engine s)) <= MaxArmedTimers ∧
  count is_planner (threads (engine s)) <= 1 ∧ count is_loader (threads (engine s)) <= 1 ∧
  count is_holder (threads (engine s)) <= 1 ∧
  ∀ name p a, lookup_arm (engine s) name = Some (p, a) →
    firing a = true ↔ token a ∈ tokens (threads (engine s)).
Proof.
  intros [[He Hc] HK _]%reachable_sound. pose proof (k_planner _ _ _ HK) as Kp. pose proof (k_loader _ _ _ HK) as Kl.
  pose proof (k_holder _ _ _ HK) as Kh. simpl in Kp, Kl, Kh. rewrite Kp, Kl, Kh. split_and!; try apply HK; try apply He;
    try by (destruct (scheduling _), (eloading _), (storageIO _); simpl; lia).
  intros name p a Ha. split; [intros Hf; by apply (k_firing _ _ _ HK name p a)|].
  intros Hin. apply list_elem_of_omap in Hin as (t & Ht & Htok). destruct t as [p' ev r ph| |]; try done.
  simpl in Htok. simplify_eq. destruct (k_calls _ _ _ HK p' ev r ph Ht) as [a' Hcall].
  pose proof Ha as [Hn Hob]%lookup_arm_Some. destruct (own_arm _ _ _ _ _ _ _ _ _ Hcall Hob) as [-> ->]; [done|].
  apply (co_firing _ _ _ _ _ _ _ Hcall). split; [|done]. rewrite (co_name _ _ _ _ _ _ _ Hcall).
  by rewrite (lookup_arm_name _ _ _ _ He Ha).
Qed.

(** C3: Intents before effects: with a store, an activation is handed to the manager
    only when the record on disk carries that activation, whatever failed,
    whatever was armed anew, and however the callbacks interleaved. *)
Theorem delivery_durable ns d s dl : rtc (timer_step loc host) (initial true ns d) s → dl ∈ trace s →
  ActivationID (dl_event dl) ≠ "" →
  ∃ x, dl_found dl = Some x ∧ ID (RActivation x) = ActivationID (dl_event dl).
Proof.
  intros Hr Hin. destruct (run_sound _ _ (initial_sound true ns d) Hr) as [Hs Hst].
  pose proof (so_trace _ Hs) as Ht. rewrite Forall_forall in Ht. by apply Ht.
Qed.

(** C26: A round of the loop serves every timer that is due, as far as callbacks may
    be started: afterwards no queued timer that could be dispatched is due. *)
Theorem fireDue_serves clk s : reachable loc host s →
  let e := fireDue loc host clk (engine s) in
  ∀ name p a, lookup_arm e name = Some (p, a) → is_Some (item a) →
    itemDueLocked host clk a (now host clk) = true → firing a = true ∨ activeFires e = maxTimerCallbacks.
Proof.
  intros [He HK _]%reachable_sound e name p a Hl [it Hi] Hdue.
  destruct (fireDueLocked_core loc host clk (now host clk) (engine s) He) as [He' Hnone].
  pose proof (fire_due_calls loc host clk (S (maxTimerCallbacks + pq_Len (pq (engine s)))) (now host clk) (engine s) (disk s) He HK) as HK'.
  change (calls [] e (disk s)) in HK'. fold (fireDue loc host clk (engine s)) in He', Hnone.
  change (core e) in He'. change (none_due host clk (now host clk) e) in Hnone.
  pose proof Hl as [Hn Ha]%lookup_arm_Some. destruct (s_items e (proj1 He') p a it Ha Hi) as (Hin & Hni & Hg).
  assert (lookup_arm e (iname it) = Some (p, a)) as Hl' by (by apply lookup_arm_Some).
  pose proof (Hnone it Hin) as Hnot. unfold due_now, dispatchable in Hnot. rewrite Hl' in Hnot.
  rewrite Hdue, Hg, bool_decide_eq_true_2, andb_true_r in Hnot by done. simpl in Hnot.
  destruct (firing a) eqn:Ef; [by left|right]. simpl in Hnot. apply bool_decide_eq_false in Hnot.
  pose proof (k_max _ _ _ HK'). lia.
Qed.

(** The loop does not sleep past a timer: when it computes its sleep, a timer in
    the queue that may be dispatched bounds it by the timer's own wait, and
    without notifications of clock changes it wakes up every [maxWait]. *)
Theorem waitDuration_wakes clk notified s : reachable loc host s →
  let w := (waitDuration host clk notified (engine s)).1 in
  (∀ name p a, lookup_arm (engine s) name = Some (p, a) → is_Some (item a) → firing a = false →
    activeFires (engine s) < maxTimerCallbacks →
    ∃ d, w = Some d ∧ (d <= Z.max 0 (itemWaitLocked host clk a (now host clk)))%Z) ∧
  (notified = false → ∃ d, w = Some d ∧ (d <= maxWait)%Z).
Proof.
  intros [He _ _]%reachable_sound w. unfold w, waitDuration. rewrite dropStale_none by apply He.
  set (e := engine s) in *. set (o := foldl (shortest_wait host clk e (now host clk)) None (slots (pq e))).
  split.
  - intros name p a Hl [it Hi] Hf Hact. pose proof Hl as [Hn Ha]%lookup_arm_Some.
    destruct (s_items e (proj1 He) p a it Ha Hi) as (Hin & Hni & Hg).
    assert (lookup_arm e (iname it) = Some (p, a)) as Hl' by (by apply lookup_arm_Some).
    assert (dispatchable e it = true) as Hd.
    { unfold dispatchable. rewrite Hl', Hf, !bool_decide_eq_true_2 by done. done. }
    destruct (shortest_wait_found host clk e (now host clk) (slots (pq e)) None) as [d Hw]; [right; eauto|].
    fold o in Hw. pose proof (shortest_wait_spec host clk e (now host clk) _ _ d Hw) as [_ Hle].
    specialize (Hle it p a Hin Hd Hl'). simpl. rewrite Hw.
    destruct (negb notified && (maxWait <? d)%Z) eqn:E; eexists; (split; [done|]); [|done].
    apply andb_true_iff in E as [_ ?%Z.ltb_lt]. lia.
  - intros ->. simpl. destruct o as [d|]; eexists; (split; [done|]); [|done].
    destruct (Z.ltb_spec maxWait d); simpl; lia.
Qed.

End runs.

(** ** A run

    A persistent timer is armed, loaded, planned and fired; its intent is saved
    and the activation delivered. *)

Definition demo_moves : list move :=
  [MArm sample_clock sample_timer; MThread sample_clock 0; MThread sample_clock 0; MThread sample_clock 0;
   MThread sample_clock 1; MThread sample_clock 0; MFire sample_clock;
   MThread sample_clock 0; MThread sample_clock 0; MThread sample_clock 0; MThread sample_clock 0].
Definition demo_start : system := initial true "run" ∅.
Definition demo (n : nat) : system :=
  default demo_start (plays utc_zone sample_host demo_start (take n demo_moves)).
Definition demo_arm (n : nat) : armed :=
  default (fresh_arm 0 sample_timer) (objs (engine (demo n)) !! 0).
Lemma demo_runs n : plays utc_zone sample_host demo_start (take n demo_moves) = Some (demo n) →
  rtc (timer_step utc_zone sample_host) demo_start (demo n).
Proof. apply plays_steps. Qed.
Lemma demo_reached n : plays utc_zone sample_host demo_start (take n demo_moves) = Some (demo n) →
  reachable utc_zone sample_host (demo n).
Proof. intros Hp. exists true, "run", ∅. by apply demo_runs. Qed.
Lemma demo_planned : reachable utc_zone sample_host (demo 6).
Proof. apply demo_reached. vm_compute. reflexivity. Qed.

(** Planned, the timer waits in the queue for its boot trigger. *)
Lemma armed_attended_witness : running (engine (demo 6)) = true ∧ ok (demo_arm 6) = true ∧
  attended utc_zone sample_host (engine (demo 6)) "a.timer" (demo_arm 6).
Proof.
  split; [vm_compute; reflexivity|]. split; [vm_compute; reflexivity|].
  apply (proj1 (armed_attended utc_zone sample_host (demo 6) demo_planned ltac:(vm_compute; reflexivity)) "a.timer" 0);
    vm_compute; reflexivity.
Defined.
(** Its callback is under way: the timer is marked as firing. *)
Lemma workers_bounded_witness : activeFires (engine (demo 9)) = 1 ∧ firing (demo_arm 9) = true ∧
  count is_callback (threads (engine (demo 9))) = activeFires (engine (demo 9)).
Proof.
  split; [vm_compute; reflexivity|]. split; [vm_compute; reflexivity|].
  apply (workers_bounded utc_zone sample_host (demo 9)). apply demo_reached. vm_compute. reflexivity.
Defined.
(** It is delivered with its record on disk. *)
Lemma delivery_durable_witness : ∃ dl, trace (demo 11) = [dl] ∧ ActivationID (dl_event dl) = "run-1" ∧
  ∃ x, dl_found dl = Some x ∧ ID (RActivation x) = ActivationID (dl_event dl).
Proof.
  destruct (trace (demo 11)) as [|dl l] eqn:E; [vm_compute in E; discriminate E|].
  assert (l = [] ∧ ActivationID (dl_event dl) = "run-1") as [-> Hid] by (vm_compute in E; simplify_eq; by split).
  exists dl. split; [done|]. split; [done|].
  apply (delivery_durable utc_zone sample_host "run" ∅ (demo 11)); [apply demo_runs; vm_compute; reflexivity| |by rewrite Hid].
  rewrite E. by left.
Defined.
(** The round that fires it leaves nothing due behind. *)
Lemma fireDue_serves_witness :
  let e := fireDue utc_zone sample_host sample_clock (engine (demo 6)) in
  activeFires e = 1 ∧
  ∀ name p a, lookup_arm e name = Some (p, a) → is_Some (item a) →
    itemDueLocked sample_host sample_clock a (now sample_host sample_clock) = true →
    firing a = true ∨ activeFires e = maxTimerCallbacks.
Proof.
  split; [vm_compute; reflexivity|]. exact (fireDue_serves utc_zone sample_host sample_clock (demo 6) demo_planned).
Defined.
(** While it waits in the queue the loop does not sleep. *)
Lemma waitDuration_wakes_witness : ∃ d, (waitDuration sample_host sample_clock true (engine (demo 6))).1 = Some d ∧
  (d <= Z.max 0 (itemWaitLocked sample_host (sample_clock) (demo_arm 6) (now sample_host sample_clock)))%Z.
Proof.
  apply (proj1 (waitDuration_wakes utc_zone sample_host sample_clock true (demo 6) demo_planned) "a.timer" 0).
  - vm_compute. reflexivity.
  - apply (bool_decide_unpack _). vm_compute. exact I.
  - vm_compute. reflexivity.
  - apply (bool_decide_unpack _). vm_compute. exact I.
Defined.
