(* ===== verification/ManagerState.v ===== *)
(** * Package manager: records of units

    [unitruntime.go], [async_identity.go], [cleanup_resources.go], [restart_backoff.go],
    [startlimit.go], [lifecycle_bound.go], [stop_plan.go] and [restart_intent.go] of
    [internal/manager].  Everything here runs while the manager's mutex is held.

    A record of a unit is shared by pointer: [m_units] maps names to addresses
    and [m_heap] holds the records.  Processes, listeners and cancel functions are
    known by their identity.  The definition of a unit is immutable, and a record
    always has one.  An error is kept as a value, [None] for the empty message. *)

From S2P Require Import Prelude GoStrings GoTime UnitTypes UnitNames CoreState CoreGraph CorePlan UnitFile.
Export Lifecycle RestartPolicies StartLimit.

#[local] Open Scope Z_scope.

Definition address := nat.
Definition Process := nat.
Definition handle := nat.

(** ** Data *)

Record watchRuntime := { hub_id : handle; hub_gen : Z; hub_revision : string; hub_exists : bool; hub_closing : bool }.
Record timerArm := { arm_token : Z; arm_revision : string }.

Record unitRuntime := {
  rt_unit : Unit; invocationUnit : option Unit;
  rt_configRevision : string; invocationRevision : string; lastOperationID : string;
  rt_enabled : bool; rt_targets : list string; unavailable : bool; operations : Z;
  rt_state : State; rt_sub : Substate; rt_gen : Z; stopEpoch : Z;
  rt_proc : option Process; mainPID : Z; rt_notify : option handle; rt_watchdog : option handle;
  startCancel : option handle; restartCancel : option handle;
  restartAttempt : Z; rt_restartDelay : Duration; restartGeneration : Z;
  stopping : bool; terminated : bool; cleanup : Z;
  rt_invocation : string; invocationUserSID : string; capture : option handle;
  rt_hub : option watchRuntime; rt_timer : option timerArm; stopHelper : option handle; stopHelperAttempt : string;
  rt_err : option error; startTimes : list Time; nativeNextProbe : Time; nativeProbeError : option error;
  health : string; probeFailures : Z;
}.

#[global] Instance eta_unitRuntime : Settable unitRuntime := λ r, {|
  rt_unit := rt_unit r; invocationUnit := invocationUnit r;
  rt_configRevision := rt_configRevision r; invocationRevision := invocationRevision r; lastOperationID := lastOperationID r;
  rt_enabled := rt_enabled r; rt_targets := rt_targets r; unavailable := unavailable r; operations := operations r;
  rt_state := rt_state r; rt_sub := rt_sub r; rt_gen := rt_gen r; stopEpoch := stopEpoch r;
  rt_proc := rt_proc r; mainPID := mainPID r; rt_notify := rt_notify r; rt_watchdog := rt_watchdog r;
  startCancel := startCancel r; restartCancel := restartCancel r;
  restartAttempt := restartAttempt r; rt_restartDelay := rt_restartDelay r; restartGeneration := restartGeneration r;
  stopping := stopping r; terminated := terminated r; cleanup := cleanup r;
  rt_invocation := rt_invocation r; invocationUserSID := invocationUserSID r; capture := capture r;
  rt_hub := rt_hub r; rt_timer := rt_timer r; stopHelper := stopHelper r; stopHelperAttempt := stopHelperAttempt r;
  rt_err := rt_err r; startTimes := startTimes r; nativeNextProbe := nativeNextProbe r; nativeProbeError := nativeProbeError r;
  health := health r; probeFailures := probeFailures r |}.

(** [&unitRuntime{state: core.Inactive, unit: u}]. *)
Definition new_unitRuntime (u : Unit) : unitRuntime := {|
  rt_unit := u; invocationUnit := None; rt_configRevision := ""; invocationRevision := ""; lastOperationID := "";
  rt_enabled := false; rt_targets := []; unavailable := false; operations := 0;
  rt_state := Inactive; rt_sub := SubNone; rt_gen := 0; stopEpoch := 0;
  rt_proc := None; mainPID := 0; rt_notify := None; rt_watchdog := None; startCancel := None; restartCancel := None;
  restartAttempt := 0; rt_restartDelay := 0; restartGeneration := 0; stopping := false; terminated := false; cleanup := 0;
  rt_invocation := ""; invocationUserSID := ""; capture := None; rt_hub := None; rt_timer := None;
  stopHelper := None; stopHelperAttempt := "";
  rt_err := None; startTimes := []; nativeNextProbe := 0; nativeProbeError := None; health := ""; probeFailures := 0 |}.

Record runtimeIdentity := { id_name : string; id_record : address; id_gen : Z }.

Record boundStopMember := { bs_owner : runtimeIdentity; bs_epoch : Z; bs_unit : Unit }.

(** The three implementations of [activationOrigin]; the members of a restart
    are a record and its stop epoch. *)
Inductive activationOrigin :=
| restartOrigin (members : gmap string (address * Z))
| timerOrigin (name : string) (token : Z)
| watchOrigin (name : string) (hub : watchRuntime).

Record plannedStart := {
  pl_origin : option activationOrigin; pl_unit : Unit; pl_revision : string; pl_record : address; pl_stopEpoch : Z;
  launched : bool; completed : bool; pl_gen : Z; launchGen : Z; joiningOneshot : bool;
}.
#[global] Instance eta_plannedStart : Settable plannedStart := λ p, {|
  pl_origin := pl_origin p; pl_unit := pl_unit p; pl_revision := pl_revision p; pl_record := pl_record p;
  pl_stopEpoch := pl_stopEpoch p; launched := launched p; completed := completed p; pl_gen := pl_gen p;
  launchGen := launchGen p; joiningOneshot := joiningOneshot p |}.

Record failedProcessEffect := { fp_owner : runtimeIdentity; fp_process : Process }.
Record startFlight := { fl_id : string; fl_record : address; fl_stopEpoch : Z; fl_revision : string }.
Record nativeProbe := { np_owner : runtimeIdentity; np_epoch : Z; np_scm : string; np_task : string }.
(** [task.plans] is [None] for a stop; the plans are known by their place in [m_plans]. *)
Record operationTask := { task_ctx : handle; task_plans : option (gmap string nat) }.
Record stopHelperWork := { sh_owner : runtimeIdentity; sh_invocation : string; sh_cancel : handle; sh_process : option Process }.

#[global] Instance runtimeIdentity_eq_dec : EqDecision runtimeIdentity.
Proof. solve_decision. Defined.
#[global] Instance nativeProbe_eq_dec : EqDecision nativeProbe.
Proof. solve_decision. Defined.
#[global] Instance stopHelperWork_eq_dec : EqDecision stopHelperWork.
Proof. solve_decision. Defined.

(** The part of [Manager] that its mutex guards and that the decisions below
    use, with the limits and the hold of its configuration.  [m_plans] holds the
    shared [plannedStart] records, [m_cancelled] the contexts whose cancel function
    was called, [m_reaps], [m_boundRunning] and [m_probing] the goroutines that were
    started, [m_capacity] counts the signals for waiting starts. *)
Record Manager := {
  m_units : gmap string address; m_heap : gmap address unitRuntime;
  m_graph : option Graph; m_closed : bool; AdmissionHold : string;
  configNamespace : string; configSequence : Z; m_configRevision : string; operationSequence : Z;
  activeStarts : Z; activeStops : Z; MaxStartTransactions : Z; MaxStopTransactions : Z;
  startFlights : gmap string startFlight; activeOperations : gmap string operationTask;
  stopHelpers : gmap handle stopHelperWork;
  boundStops : gmap string boundStopMember; m_boundRunning : bool;
  m_plans : gmap nat plannedStart; m_cancelled : gset handle; m_context : handle;
  m_reaps : list failedProcessEffect; m_capacity : Z;
  m_probing : bool; nativeProbes : gmap address nativeProbe; nativeProbeCursor : string;
}.
#[global] Instance eta_Manager : Settable Manager := λ m, {|
  m_units := m_units m; m_heap := m_heap m; m_graph := m_graph m; m_closed := m_closed m; AdmissionHold := AdmissionHold m;
  configNamespace := configNamespace m; configSequence := configSequence m; m_configRevision := m_configRevision m;
  operationSequence := operationSequence m; activeStarts := activeStarts m; activeStops := activeStops m;
  MaxStartTransactions := MaxStartTransactions m; MaxStopTransactions := MaxStopTransactions m;
  startFlights := startFlights m; activeOperations := activeOperations m; stopHelpers := stopHelpers m; boundStops := boundStops m; m_boundRunning := m_boundRunning m; m_plans := m_plans m;
  m_cancelled := m_cancelled m; m_context := m_context m; m_reaps := m_reaps m; m_capacity := m_capacity m;
  m_probing := m_probing m; nativeProbes := nativeProbes m; nativeProbeCursor := nativeProbeCursor m |}.

(** ** Pointers *)

(** [*r], total: a pointer of the program is never dangling. *)
Definition deref (m : Manager) (r : address) : unitRuntime :=
  default (new_unitRuntime (new_Unit "" "" KindService)) (m_heap m !! r).
Definition upd (r : address) (f : unitRuntime → unitRuntime) (m : Manager) : Manager :=
  m <| m_heap := <[r := f (deref m r)]> (m_heap m) |>.
Definition cancel (c : option handle) (m : Manager) : Manager :=
  match c with Some c => m <| m_cancelled := {[c]} ∪ m_cancelled m |> | None => m end.

(** [units[name] == r]. *)
Definition owns (m : Manager) (name : string) (r : address) : bool := bool_decide (m_units m !! name = Some r).

Definition currentLocked (id : runtimeIdentity) (m : Manager) : bool :=
  owns m (id_name id) (id_record id) && (rt_gen (deref m (id_record id)) =? id_gen id).

(** ** cleanup_resources.go *)

Definition cleanupWorkload : Z := 1.
Definition cleanupNotify : Z := 2.
Definition cleanupWatch : Z := 4.
Definition cleanupHelper : Z := 8.
Definition cleanupJournal : Z := 16.

Definition setCleanup (resource : Z) (pending : bool) (rt : unitRuntime) : unitRuntime :=
  rt <| cleanup := if pending then Z.lor (cleanup rt) resource else Z.ldiff (cleanup rt) resource |>.
Definition cleanupPending (rt : unitRuntime) : bool := negb (cleanup rt =? 0).

(** ** unitruntime.go *)

Definition ownedUnit (rt : unitRuntime) : Unit := default (rt_unit rt) (invocationUnit rt).

(** [rt.step(ev)]; an illegal transition is only logged. *)
Definition step (ev : Event) (rt : unitRuntime) : unitRuntime * bool :=
  match Step (rt_state rt) (rt_sub rt) ev with
  | (st, sub, None) => (rt <| rt_state := st |> <| rt_sub := sub |>, true)
  | _ => (rt, false)
  end.

Definition publishStartOutcome (state : State) (rt : unitRuntime) : unitRuntime :=
  match state with
  | Active => rt <| rt_state := Active |> <| rt_sub := SubRunning |>
  | Inactive => rt <| rt_state := Inactive |> <| rt_sub := SubNone |>
  | Failed =>
    let rt := if negb (bool_decide (rt_state rt = Failed)) || negb (bool_decide (rt_sub rt = SubWatchdog))
              then rt <| rt_sub := SubNone |> else rt in
    rt <| rt_state := Failed |>
  | _ => rt
  end.

Definition sameOp (gen : Z) (proc : option Process) (rt : unitRuntime) : bool :=
  (rt_gen rt =? gen) && (bool_decide (rt_proc rt = None) || bool_decide (rt_proc rt = proc)).

Definition cancelRestart (r : address) (m : Manager) : Manager :=
  let m := upd r (λ rt, rt <| rt_restartDelay := 0 |>) m in
  let c := restartCancel (deref m r) in
  cancel c (upd r (λ rt, rt <| restartCancel := None |>) m).

(** ** scm.go and task.go: names of native targets *)

Definition scmServiceName (u : Unit) : string :=
  match Service u with
  | Some s => if decide (Type_ s = TypeSCM) then ServiceName s else ""
  | None => ""
  end.
Definition scheduledTaskName (u : Unit) : string :=
  match Service u with
  | Some s => if decide (Type_ s = TypeScheduledTask) then TaskName s else ""
  | None => ""
  end.
Definition native (u : Unit) : bool :=
  negb (bool_decide (scmServiceName u = "")) || negb (bool_decide (scheduledTaskName u = "")).

Definition service_type (u : Unit) : ServiceType := match Service u with Some s => Type_ s | None => "" end.
Definition remains (u : Unit) : bool := match Service u with Some s => RemainAfterExit s | None => false end.

(** ** restart_backoff.go *)

Fixpoint cappedRestart (base cap : Duration) (attempt : nat) : Duration :=
  match attempt with
  | O => Z.min base cap
  | S attempt' =>
    if base <? cap then
      if cap ÷ 2 <? base then cap else cappedRestart (duration (base * 2)) cap attempt'
    else Z.min base cap
  end.
Definition cappedRestartDelay (base cap : Duration) (attempt : Z) : Duration :=
  if (base <=? 0) || (cap <=? 0) then base else cappedRestart base cap (Z.to_nat attempt).

(** ** supervise.go: values of a definition *)

Definition defaultStopTimeout : Duration := 5 * Second.
Definition defaultRestartDelay : Duration := 100 * Millisecond.

Definition restartDelay (svc : option ServiceSpec) : Duration :=
  match svc with
  | Some s => if RestartSecSet s then RestartSec s else defaultRestartDelay
  | None => defaultRestartDelay
  end.

(** What [proc.Wait] reports: no error, an [ExitStatus] with its two verdicts,
    or another error. *)
Inductive wait_result :=
| WaitOk
| WaitExit (signal failed : bool) (e : error)
| WaitError (e : error).

Definition classifyWait (w : wait_result) : ExitKind :=
  match w with
  | WaitOk => ExitSuccess
  | WaitExit true _ _ => ExitAbnormal
  | WaitExit false true _ => ExitFailure
  | WaitExit false false _ => ExitSuccess
  | WaitError _ => ExitAbnormal
  end.

Definition mainExitMessage (w : wait_result) : error :=
  match w with WaitExit true _ e => e | _ => ErrText "main process exited" end.

(** ** startlimit.go *)

Definition startLimitOf (u : Unit) : Duration * Z := (StartLimitInterval u, StartLimitBurst u).
Definition startLimitHitLocked (now : Time) (rt : unitRuntime) : bool :=
  let '(interval, burst) := startLimitOf (ownedUnit rt) in StartLimitHit (startTimes rt) now interval burst.
Definition recordStartLocked (now : Time) (rt : unitRuntime) : unitRuntime :=
  let '(interval, burst) := startLimitOf (ownedUnit rt) in
  rt <| startTimes := RecordStart (startTimes rt) now interval burst |>.

(** ** Contexts *)

(** [context.WithCancel(context.Background())]: the manager and the context. *)
Definition new_context (m : Manager) : Manager * handle := (m <| m_context := S (m_context m) |>, m_context m).

Definition signalStartCapacityLocked (m : Manager) : Manager := m <| m_capacity := m_capacity m + 1 |>.

Definition startNativeProbesLocked (m : Manager) : Manager := if m_closed m then m else m <| m_probing := true |>.

Section decisions.
Context {NM : Naming} {MR : MapRange}.
(** [capture.Complete()] and [m.engine.Current]. *)
Context (capture_Complete : handle → bool) (engine_Current : string → Z → bool).

(** ** reload.go: ownership that outlives a configuration *)
Definition retainWithoutConfig (rt : unitRuntime) : bool :=
  (match capture rt with Some c => negb (capture_Complete c) | None => false end) ||
  bool_decide (is_Some (rt_proc rt)) || bool_decide (is_Some (rt_notify rt)) || bool_decide (is_Some (rt_hub rt)) ||
  negb (operations rt =? 0) || cleanupPending rt ||
  (native (ownedUnit rt) && negb (bool_decide (rt_state rt = Inactive))).

(** ** Origins: restart_intent.go, timer.go and watchhub.go *)
Definition validLocked (o : activationOrigin) (m : Manager) : bool :=
  match o with
  | restartOrigin members =>
    negb (m_closed m) &&
    forallb (λ '(name, (r, epoch)),
      owns m name r && (stopEpoch (deref m r) =? epoch) && negb (unavailable (deref m r))) (map_to_list members)
  | timerOrigin name token =>
    match m_units m !! name with
    | Some r =>
      let rt := deref m r in
      negb (m_closed m) && bool_decide (arm_token <$> rt_timer rt = Some token) && negb (stopping rt) &&
      negb (unavailable rt) && negb (cleanupPending rt) && engine_Current name token
    | None => false
    end
  | watchOrigin name hub =>
    match m_units m !! name with
    | Some r =>
      let rt := deref m r in
      negb (m_closed m) && bool_decide (hub_id <$> rt_hub rt = Some (hub_id hub)) && (rt_gen rt =? hub_gen hub) &&
      negb (stopping rt) && negb (unavailable rt) && negb (cleanupPending rt)
    | None => false
    end
  end.
Definition countsStartLimit (o : activationOrigin) : bool :=
  match o with restartOrigin _ => false | _ => true end.

(** ** lifecycle_events.go: disarming *)

Definition disarmStartLocked (name : string) (m : Manager) : Manager :=
  match m_units m !! name with
  | None => m
  | Some r =>
    let m := upd r (λ rt, rt <| stopping := true |> <| stopEpoch := stopEpoch rt + 1 |>) m in
    let m := signalStartCapacityLocked m in
    cancelRestart r (cancel (startCancel (deref m r)) m)
  end.
Definition disarmStopScopeLocked (plan : Transaction) (m : Manager) : Manager :=
  foldl (λ m name, disarmStartLocked name m) m (Units (Some plan)).

(** ** stop_plan.go *)

Definition stop_definition (m : Manager) (r : address) : Unit :=
  let rt := deref m r in
  if negb (bool_decide (rt_state rt = Inactive)) || retainWithoutConfig rt || bool_decide (is_Some (restartCancel rt))
  then ownedUnit rt else rt_unit rt.
Definition stopGraphLocked (m : Manager) : result Graph :=
  Build ((λ p, Some (stop_definition m p.2)) <$> map_range 10 (m_units m)).

(** ** lifecycle_bound.go *)

Definition containsBoundName (names : list string) (name : string) : bool :=
  existsb (λ c, bool_decide (unit_NormalizeName c = name)) names.

Definition up (rt : unitRuntime) : bool :=
  bool_decide (rt_state rt = Active) || bool_decide (rt_state rt = Activating).

Definition bound_roots (peer : string) (m : Manager) : list string :=
  fst <$> filter (λ p, let rt := deref m p.2 in
    (negb (bool_decide (p.1 = peer)) && negb (stopping rt) && up rt && containsBoundName (BindsTo (ownedUnit rt)) peer) = true)
    (map_range 11 (m_units m)).

Definition fail_bound_plan (e : error) (m : Manager) (name : string) : Manager :=
  match m_units m !! name with
  | None => m
  | Some r => upd r (λ rt, rt <| rt_err := Some (ErrWrap "bound dependency stop plan: %v" e) |>) (disarmStartLocked name m)
  end.

(** One member of the plan: nothing to stop, a pending stop that still
    matches, or a new one, which replaces an outdated one. *)
Definition queue_bound_stop (m : Manager) (name : string) : Manager :=
  match m_units m !! name with
  | None => m
  | Some r =>
    let rt := deref m r in
    if negb (up rt) && bool_decide (rt_proc rt = None) && negb (cleanupPending rt) then m
    else
      let queued := match boundStops m !! name with
                    | Some old => currentLocked (bs_owner old) m && (bs_epoch old =? stopEpoch rt)
                    | None => false
                    end in
      if queued then m
      else
        let m := match boundStops m !! name with
                 | Some old => upd (id_record (bs_owner old)) (λ rt, rt <| operations := operations rt - 1 |>) m
                 | None => m
                 end in
        let m := disarmStartLocked name m in
        let m := upd r (λ rt, rt <| operations := operations rt + 1 |>) m in
        let rt := deref m r in
        m <| boundStops := <[name := {| bs_owner := {| id_name := name; id_record := r; id_gen := rt_gen rt |};
                                        bs_epoch := stopEpoch rt; bs_unit := ownedUnit rt |}]> (boundStops m) |>
  end.

Definition queueBoundStopsLocked (peer : string) (m : Manager) : Manager :=
  if m_closed m then m
  else match bound_roots peer m with
  | [] => m
  | roots =>
    let roots := sort_strings roots in
    match (g <-? stopGraphLocked m ;; PlanStop (Some g) roots)%go with
    | Fail e => foldl (fail_bound_plan e) m roots
    | Ok plan =>
      let m := foldl queue_bound_stop m (Units (Some plan)) in
      if decide (boundStops m = ∅) then m else m <| m_boundRunning := true |>
    end
  end.

Definition boundPeersActiveLocked (u : Unit) (m : Manager) : bool :=
  forallb (λ peer, let peer := unit_NormalizeName peer in
    negb (containsBoundName (After u) peer) ||
    match m_units m !! peer with
    | None => false
    | Some r => let rt := deref m r in
                bool_decide (rt_state rt = Active) && negb (stopping rt) && negb (cleanupPending rt)
    end) (BindsTo u).

(** ** lifecycle_launch.go: the start limit *)

Definition failStartLimitLocked (r : address) (m : Manager) : Manager :=
  let m := upd r (λ rt,
    let rt := match rt_state rt with
              | Active | Activating | Inactive => (step EventMainExited rt).1
              | _ => rt
              end in
    rt <| rt_err := Some (ErrText ReasonStartLimit) |>) m in
  if stopping (deref m r) then m else queueBoundStopsLocked (Name (rt_unit (deref m r))) m.

End decisions.
