(* ===== verification/ManagerEvents.v ===== *)
(** * Package manager: lifecycle decisions

    [lifecycle_events.go], [lifecycle_health.go] and [lifecycle_watch.go] of
    [internal/manager].  Each function is one critical
    section; the worker that calls it has done its input and output before, and
    delivers an event that may be out of date.  [waitFailMessage(err)] is the
    error itself. *)

From S2P Require Import Prelude GoStrings UnitTypes UnitNames CoreState CoreGraph CorePlan ManagerState.

#[local] Open Scope Z_scope.

Record recoveryRequest := { rq_owner : runtimeIdentity; rq_delay : Duration }.
Record acceptedRecovery := { ar_context : handle; ar_delay : Duration; ar_owner : runtimeIdentity }.

(** What [watchdogEffect], [processExitEffect] and [stopEffect] capture. *)
Record cleanupEffect := {
  ef_owner : runtimeIdentity; ef_unit : Unit; ef_process : option Process; ef_cancel : option handle;
  ef_suppressed : bool; ef_stopEligible : bool;
}.

Section events.
Context {NM : Naming} {MR : MapRange}.
Context (capture_Complete : handle → bool) (engine_Current : string → Z → bool).
#[local] Notation queueBoundStopsLocked := (queueBoundStopsLocked capture_Complete).
#[local] Notation failStartLimitLocked := (failStartLimitLocked capture_Complete).
#[local] Notation validLocked := (validLocked engine_Current).

(** ** Starts *)

Definition reap_failed (m : Manager) (p : string * address) : Manager :=
  let rt := deref m p.2 in
  match rt_proc rt with
  | Some proc =>
    if negb (bool_decide (rt_state rt = Failed)) || cleanupPending rt then m
    else
      let m := upd p.2 (setCleanup cleanupWorkload true) m in
      m <| m_reaps := m_reaps m ++ [{| fp_owner := {| id_name := p.1; id_record := p.2; id_gen := rt_gen rt |};
                                       fp_process := proc |}] |>
  | None => m
  end.
Definition reapFailedLocked (m : Manager) : Manager := foldl reap_failed m (map_range 12 (m_units m)).

(** The outcome does not apply to the record as it is now. *)
Definition outcome_ignored (state : State) (launched : bool) (rt : unitRuntime) : bool :=
  bool_decide (rt_sub rt = SubAutoRestart) ||
  (bool_decide (state = Failed) && bool_decide (rt_state rt = Active) && negb launched) ||
  (bool_decide (state = Active) && stopping rt) ||
  (bool_decide (state = Inactive) && negb (stopping rt) && (up rt || bool_decide (is_Some (rt_proc rt)))).

Definition applyStartOutcomeLocked (name : string) (state : State) (failed launched : bool) (message : option error)
    (m : Manager) : Manager :=
  match m_units m !! name with
  | None => m
  | Some r =>
    if outcome_ignored state launched (deref m r) then m
    else
      let m := upd r (publishStartOutcome state) m in
      let m := if (bool_decide (state = Inactive) || bool_decide (state = Failed)) && negb (stopping (deref m r))
               then queueBoundStopsLocked name m else m in
      if failed && negb (bool_decide (rt_state (deref m r) = Active))
      then upd r (λ rt, rt <| rt_err := message |>) m else m
  end.

(** [observedStartCompletion]: the error with whether it is [ErrSkipped]. *)
Record startCompletion := { sc_name : string; sc_plan : nat; sc_err : option error }.
Definition skipped (e : option error) : bool := match e with Some e => is_skipped e | None => false end.

Definition applyStartCompletionLocked (event : startCompletion) (m : Manager) : Manager :=
  match m_plans m !! sc_plan event with
  | None => m
  | Some planned =>
    let m := m <| m_plans := <[sc_plan event := planned <| completed := true |>]> (m_plans m) |> in
    let r := pl_record planned in
    if negb (owns m (sc_name event) r) || negb (stopEpoch (deref m r) =? pl_stopEpoch planned) || m_closed m ||
       (negb (launched planned) &&
        match pl_origin planned with Some o => negb (validLocked o m) | None => false end)
    then m
    else
      let u := ownedUnit (deref m r) in
      let state := if bool_decide (sc_err event = None) && bool_decide (service_type u = TypeOneshot) && negb (remains u)
                   then Inactive else Active in
      let state := if skipped (sc_err event) then Inactive
                   else if bool_decide (is_Some (sc_err event)) then Failed else state in
      let m := applyStartOutcomeLocked (sc_name event) state (bool_decide (is_Some (sc_err event))) (launched planned)
                 (sc_err event) m in
      let m := match sc_err event with
               | None =>
                 let m := match m_units m !! sc_name event with
                          | Some r => upd r (λ rt, rt <| rt_err := None |>) m
                          | None => m
                          end in
                 if native (ownedUnit (deref m r)) then startNativeProbesLocked m else m
               | Some _ => m
               end in
      reapFailedLocked m
  end.

Definition applyStartRejection (event : startCompletion) (m : Manager) : Manager :=
  match m_plans m !! sc_plan event with
  | None => m
  | Some plan =>
    if completed plan || negb (owns m (sc_name event) (pl_record plan)) ||
       negb (rt_gen (deref m (pl_record plan)) =? pl_gen plan) then m
    else applyStartCompletionLocked event m
  end.

(** ** Stops

    [name] is normalized, as [m.lookup] finds it. *)

(** The record of a unit whose stop is accepted: what it has to clean up. *)
Definition stop_accepted (u : Unit) (rt : unitRuntime) : unitRuntime :=
  let rt := (step EventStopRequested (rt <| rt_watchdog := None |>)).1 in
  let rt := if bool_decide (is_Some (rt_proc rt)) || native u then setCleanup cleanupWorkload true rt else rt in
  let rt := setCleanup cleanupNotify (bool_decide (is_Some (rt_notify rt))) rt in
  let rt := setCleanup cleanupWatch (bool_decide (is_Some (rt_hub rt))) rt in
  rt <| rt_err := None |>.

Definition acceptStopCleanup (name : string) (m : Manager) : Manager * option cleanupEffect :=
  match m_units m !! name with
  | None => (m, None)
  | Some r =>
    let rt := deref m r in
    let m := upd r (λ rt, rt <| operations := operations rt + 1 |> <| stopping := true |> <| rt_gen := rt_gen rt + 1 |>) m in
    let effect := {| ef_owner := {| id_name := Name (rt_unit rt); id_record := r; id_gen := rt_gen (deref m r) |};
                     ef_unit := ownedUnit rt; ef_process := rt_proc rt; ef_cancel := rt_watchdog rt;
                     ef_suppressed := false; ef_stopEligible := bool_decide (rt_state rt = Active) |} in
    (upd r (stop_accepted (ef_unit effect)) (cancelRestart r m), Some effect)
  end.

Definition releaseStopCleanup (effect : cleanupEffect) (m : Manager) : Manager :=
  upd (id_record (ef_owner effect)) (λ rt, rt <| operations := operations rt - 1 |>) m.

Definition applyStopCleanup (owner : runtimeIdentity) (process : option Process) (err : option error) (m : Manager) : Manager :=
  let r := id_record owner in
  if negb (currentLocked owner m) || negb (sameOp (id_gen owner) process (deref m r)) then m
  else upd r (λ rt,
    let rt := setCleanup cleanupWorkload (bool_decide (is_Some err)) rt in
    if bool_decide (err = None) && bool_decide (rt_proc rt = process) then
      let rt := rt <| rt_proc := None |> in
      if cleanupPending rt then rt else rt <| invocationUnit := None |>
    else rt) m.

Definition applyStopCompletion (owner : runtimeIdentity) (process : option Process) (err : option error) (m : Manager) :
    Manager * (string * option error) :=
  let r := id_record owner in
  let m :=
    if negb (currentLocked owner m) || negb (sameOp (id_gen owner) process (deref m r)) then m
    else upd r (λ rt,
      match err with
      | Some e => let '(rt', ok) := step EventStartFailed rt in if ok then rt' <| rt_err := Some e |> else rt'
      | None => (step EventStopFinished rt).1 <| health := "unknown" |> <| probeFailures := 0 |>
      end) m in
  let active := match m_units m !! id_name owner with
                | Some r => State_String (rt_state (deref m r))
                | None => State_String (if bool_decide (is_Some err) then Failed else Inactive)
                end in
  (m, (active, err)).

(** ** Exits of the main process *)

Definition acceptProcessExitCleanup (name : string) (proc : Process) (m : Manager) : Manager * option cleanupEffect :=
  match m_units m !! name with
  | None => (m, None)
  | Some r =>
    if negb (bool_decide (rt_proc (deref m r) = Some proc)) then (m, None)
    else
      let m := if negb (stopping (deref m r)) && negb (terminated (deref m r)) then queueBoundStopsLocked name m else m in
      let rt := deref m r in
      if cleanupPending rt then (m, None)
      else
        let effect := {| ef_owner := {| id_name := name; id_record := r; id_gen := rt_gen rt |};
                         ef_unit := ownedUnit rt; ef_process := Some proc; ef_cancel := rt_watchdog rt;
                         ef_suppressed := stopping rt || terminated rt; ef_stopEligible := bool_decide (rt_state rt = Active) |} in
        (upd r (λ rt, setCleanup cleanupWorkload true rt <| terminated := false |> <| rt_watchdog := None |>) m, Some effect)
  end.

Definition applyProcessExitCleanup (effect : cleanupEffect) (err : option error) (m : Manager) : Manager * bool :=
  let owner := ef_owner effect in
  let r := id_record owner in
  let fail rt := if bool_decide (rt_state rt = Failed) then rt else (step EventStartFailed rt).1 in
  let bound m := if stopping (deref m r) then m else queueBoundStopsLocked (id_name owner) m in
  if negb (currentLocked owner m) || negb (sameOp (id_gen owner) (ef_process effect) (deref m r)) ||
     negb (bool_decide (rt_proc (deref m r) = ef_process effect)) then (m, false)
  else match err with
  | Some e => (bound (upd r (λ rt, fail rt <| rt_err := Some (ErrWrap "exit cleanup: " e) |>) m), false)
  | None =>
    let m := upd r (λ rt, setCleanup cleanupWorkload false (rt <| rt_proc := None |>)) m in
    if cleanupPending (deref m r) then (bound (upd r fail m), false)
    else (upd r (λ rt, rt <| health := "unknown" |> <| probeFailures := 0 |>) m, true)
  end.

(** [applyProcessExit]; the request is what [beginRestart] is called with. *)
Definition applyProcessExit (owner : runtimeIdentity) (service : option ServiceSpec) (wait : wait_result)
    (limitHit suppressed : bool) (m : Manager) : Manager * option recoveryRequest :=
  if suppressed then (m, None)
  else
    let kind := if limitHit then ExitResourceLimit else classifyWait wait in
    let r := id_record owner in
    if negb (currentLocked owner m) || stopping (deref m r) then (m, None)
    else
      let oneshot_done := match service with
                          | Some s => bool_decide (Type_ s = TypeOneshot) && bool_decide (kind = ExitSuccess)
                          | None => false
                          end in
      let m := if negb (oneshot_done && match service with Some s => RemainAfterExit s | None => false end)
               then queueBoundStopsLocked (id_name owner) m else m in
      if match service with Some s => ShouldRestart (Restart s) kind | None => false end
      then (m, Some {| rq_owner := owner; rq_delay := restartDelay service |})
      else if bool_decide (rt_sub (deref m r) = SubWatchdog) || oneshot_done then (m, None)
      else (upd r (λ rt, let '(rt', ok) := step EventMainExited rt in
              if ok then rt' <| rt_err := Some (if limitHit then ErrText ReasonResourceLimit else mainExitMessage wait) |>
              else rt') m, None).

(** ** Watchdogs *)

Definition acceptWatchdogFailure (owner : runtimeIdentity) (m : Manager) : Manager * option cleanupEffect :=
  let r := id_record owner in
  let rt := deref m r in
  if negb (currentLocked owner m) || stopping rt || m_closed m || cleanupPending rt then (m, None)
  else
    let '(rt', ok) := step EventWatchdogFailed rt in
    if negb ok then (m, None)
    else
      let m := queueBoundStopsLocked (id_name owner) (upd r (λ _, rt') m) in
      let m := upd r (λ rt, rt <| health := "unhealthy" |> <| rt_err := Some (ErrText "watchdog timed out") |>
                               <| terminated := true |>) m in
      let rt'' := deref m r in
      let effect := {| ef_owner := owner; ef_unit := ownedUnit rt''; ef_process := rt_proc rt''; ef_cancel := rt_watchdog rt'';
                       ef_suppressed := false; ef_stopEligible := bool_decide (rt_state rt = Active) |} in
      (upd r (λ rt, setCleanup cleanupWorkload (bool_decide (is_Some (ef_process effect))) rt <| rt_watchdog := None |>) m,
       Some effect).

Definition applyWatchdogCleanup (effect : cleanupEffect) (err : option error) (m : Manager) : Manager * bool :=
  let owner := ef_owner effect in
  let r := id_record owner in
  if negb (currentLocked owner m) || negb (sameOp (id_gen owner) (ef_process effect) (deref m r)) then (m, false)
  else match err with
  | Some e => (upd r (λ rt, rt <| rt_err := Some (ErrWrap "watchdog cleanup: " e) |>) m, false)
  | None =>
    let m := upd r (λ rt, setCleanup cleanupWorkload false (rt <| rt_proc := None |>) <| terminated := false |>) m in
    (m, negb (cleanupPending (deref m r)))
  end.

Definition acceptWatchdog (name : string) (gen : Z) (c : handle) (m : Manager) :
    Manager * option (runtimeIdentity * option handle) :=
  match m_units m !! name with
  | None => (m, None)
  | Some r =>
    let rt := deref m r in
    if m_closed m || stopping rt || negb (rt_gen rt =? gen) then (m, None)
    else (upd r (λ rt, rt <| rt_watchdog := Some c |>) m,
          Some ({| id_name := name; id_record := r; id_gen := gen |}, rt_watchdog rt))
  end.

Definition detachWatchdog (name : string) (m : Manager) : Manager * option handle :=
  match m_units m !! name with
  | None => (m, None)
  | Some r => (upd r (λ rt, rt <| rt_watchdog := None |>) m, rt_watchdog (deref m r))
  end.

Definition acceptProbeHealth (owner : runtimeIdentity) (success : bool) (threshold : Z) (m : Manager) :
    Manager * (bool * bool) :=
  let r := id_record owner in
  let rt := deref m r in
  if m_closed m || negb (currentLocked owner m) || stopping rt || bool_decide (rt_watchdog rt = None) ||
     bool_decide (rt_proc rt = None) || cleanupPending rt then (m, (false, false))
  else if success then (upd r (λ rt, rt <| probeFailures := 0 |> <| health := "ready" |>) m, (true, false))
  else
    let threshold := Z.max 1 (Z.min threshold 1000) in
    let failures := Z.min (probeFailures rt + 1) threshold in
    let unhealthy := threshold <=? failures in
    (upd r (λ rt, rt <| probeFailures := failures |> <| health := if unhealthy then "unhealthy" else "degraded" |>) m,
     (true, unhealthy)).

(** ** Recovery *)

Definition backoff_delay (rt : unitRuntime) (delay : Duration) : Duration :=
  match Service (ownedUnit rt) with
  | Some svc => if decide (RestartBackoff svc = "exponential")
                then cappedRestartDelay (restartDelay (Some svc)) (RestartMaxDelaySec svc) (restartAttempt rt)
                else delay
  | None => delay
  end.

Definition acceptRecovery (now : Time) (request : recoveryRequest) (m : Manager) : Manager * option acceptedRecovery :=
  let owner := rq_owner request in
  let r := id_record owner in
  let rt := deref m r in
  if m_closed m || negb (currentLocked owner m) || stopping rt || unavailable rt || cleanupPending rt ||
     bool_decide (is_Some (rt_proc rt)) then (m, None)
  else if bool_decide (rt_sub rt = SubAutoRestart) && bool_decide (is_Some (restartCancel rt)) &&
          (restartGeneration rt =? rt_gen rt) then (m, None)
  else if startLimitHitLocked now rt then (failStartLimitLocked r m, None)
  else
    let rt := if bool_decide (rt_state rt = Activating) && bool_decide (rt_sub rt = SubStart) &&
                 bool_decide (service_type (ownedUnit rt) = TypeOneshot)
              then (step EventStartFailed rt).1 else rt in
    let '(rt', ok) := step EventAutoRestart rt in
    let m := upd r (λ _, rt') m in
    let m := if ok then queueBoundStopsLocked (id_name owner) (upd r (λ rt, rt <| rt_err := None |>) m) else m in
    if ok && stopping (deref m r) then (m, None)
    else
      let '(m, c) := new_context m in
      let m := cancelRestart r m in
      let delay := backoff_delay (deref m r) (rq_delay request) in
      let m := upd r (λ rt, rt <| restartCancel := Some c |> <| restartGeneration := rt_gen rt |>
                               <| restartAttempt := if restartAttempt rt <? 64 then restartAttempt rt + 1 else restartAttempt rt |>
                               <| rt_restartDelay := delay |>) m in
      (m, Some {| ar_context := c; ar_delay := delay; ar_owner := owner |}).

(** The check of [runRecovery] when its delay is over. *)
Definition recovery_current (owner : runtimeIdentity) (m : Manager) : bool :=
  negb (m_closed m) && currentLocked owner m && negb (stopping (deref m (id_record owner))) &&
  negb (unavailable (deref m (id_record owner))).

(** The owner [maybeRestart] captures for its request. *)
Definition maybeRestart (name : string) (kind : ExitKind) (svc : option ServiceSpec) (m : Manager) : option recoveryRequest :=
  match svc, m_units m !! name with
  | Some s, Some r =>
    let rt := deref m r in
    if negb (ShouldRestart (Restart s) kind) || m_closed m || stopping rt || unavailable rt then None
    else Some {| rq_owner := {| id_name := name; id_record := r; id_gen := rt_gen rt |}; rq_delay := restartDelay svc |}
  | _, _ => None
  end.

(** ** Processes of failed units *)

Definition acceptFailedProcessCleanup (effect : failedProcessEffect) (m : Manager) : bool :=
  negb (m_closed m) && currentLocked (fp_owner effect) m &&
  bool_decide (rt_proc (deref m (id_record (fp_owner effect))) = Some (fp_process effect)).

Definition applyFailedProcessCleanup (effect : failedProcessEffect) (err : option error) (m : Manager) : Manager :=
  let r := id_record (fp_owner effect) in
  if negb (currentLocked (fp_owner effect) m) || negb (bool_decide (rt_proc (deref m r) = Some (fp_process effect))) then m
  else match err with
  | Some e => upd r (λ rt, rt <| rt_err := Some (ErrWrap "failed-state cleanup: " e) |>) m
  | None => upd r (λ rt, setCleanup cleanupWorkload false (rt <| rt_proc := None |>)) m
  end.

(** ** Notification listeners and watches *)

Definition acceptNotifyCleanup (name : string) (m : Manager) : Manager * option handle :=
  match m_units m !! name with
  | None => (m, None)
  | Some r =>
    match rt_notify (deref m r) with
    | Some n => (upd r (setCleanup cleanupNotify true) m, Some n)
    | None => (m, None)
    end
  end.

Definition applyNotifyCleanup (name : string) (n : handle) (err : option error) (m : Manager) : Manager :=
  match m_units m !! name with
  | None => m
  | Some r =>
    if negb (bool_decide (rt_notify (deref m r) = Some n)) then m
    else match err with
    | None => upd r (λ rt, setCleanup cleanupNotify false (rt <| rt_notify := None |>)) m
    | Some e => upd r (λ rt, setCleanup cleanupNotify true (rt <| rt_err := Some (ErrWrap "notification cleanup: " e) |>)) m
    end
  end.

Definition same_hub (rt : unitRuntime) (h : watchRuntime) : bool := bool_decide (hub_id <$> rt_hub rt = Some (hub_id h)).

Definition applyHubCleanup (name : string) (h : watchRuntime) (err : option error) (m : Manager) : Manager :=
  match m_units m !! name with
  | None => m
  | Some r =>
    if negb (same_hub (deref m r) h) then m
    else match err with
    | None => upd r (λ rt, setCleanup cleanupWatch false (rt <| rt_hub := None |>)) m
    | Some e => upd r (λ rt, setCleanup cleanupWatch true (rt <| rt_err := Some (ErrWrap "watch cleanup: " e) |>)) m
    end
  end.

Definition acceptHub (name : string) (h : watchRuntime) (m : Manager) : Manager * option error :=
  let refused := Some (ErrFmt "unit %q is unavailable, already watched, or manager is closed" [name]) in
  match m_units m !! name with
  | None => (m, refused)
  | Some r =>
    let rt := deref m r in
    if unavailable rt || stopping rt || m_closed m || bool_decide (is_Some (rt_hub rt)) then (m, refused)
    else (upd r (λ rt, rt <| rt_hub := Some {| hub_id := hub_id h; hub_gen := rt_gen rt; hub_revision := hub_revision h;
                                               hub_exists := hub_exists h; hub_closing := hub_closing h |} |>) m, None)
  end.

Definition acceptHubFailure (name : string) (h : watchRuntime) (err : error) (m : Manager) : Manager * bool :=
  match m_units m !! name with
  | None => (m, false)
  | Some r =>
    let rt := deref m r in
    if negb (same_hub rt h) || negb (bool_decide (hub_gen <$> rt_hub rt = Some (rt_gen rt))) || stopping rt ||
       unavailable rt || m_closed m then (m, false)
    else
      let m := upd r (setCleanup cleanupWatch true) m in
      if negb (up (deref m r)) then (m, true)
      else
        let '(rt', ok) := step EventStartFailed (deref m r) in
        (if ok then queueBoundStopsLocked name (upd r (λ _, rt' <| rt_err := Some err |>) m) else m, true)
  end.

Definition acceptHubDisarm (name : string) (m : Manager) : Manager * option watchRuntime :=
  match m_units m !! name with
  | None => (m, None)
  | Some r =>
    match rt_hub (deref m r) with
    | Some h => (upd r (setCleanup cleanupWatch true) m, Some h)
    | None => (m, None)
    end
  end.

(** ** Native targets *)

Definition acceptNativeStart (ctx_err : bool) (now : Time) (owner : runtimeIdentity) (autoRestart : bool) (m : Manager) :
    Manager * option Time :=
  let r := id_record owner in
  if ctx_err || m_closed m || negb (currentLocked owner m) || stopping (deref m r) then (m, None)
  else if negb autoRestart then (m, Some now)
  else
    let '(rt', ok) := step EventStartSucceeded (deref m r) in
    if negb ok then (m, None)
    else (startNativeProbesLocked (upd r (λ _, rt' <| rt_err := None |>) m), Some now).
End events.
