(* ===== verification/ManagerLaunch.v ===== *)
(** * Package manager: launches

    [lifecycle_launch.go] and [observeLaunch] of [supervise.go] of
    [internal/manager].  [ctx_err] says whether the context of the call is done. *)

From S2P Require Import Prelude GoStrings UnitTypes UnitNames CoreState CoreGraph CorePlan ManagerState ManagerEvents.

#[local] Open Scope Z_scope.

Record launchObservation := { ob_record : option address; ob_process : option Process; ob_alive : bool }.

Record launchEffect := {
  le_owner : runtimeIdentity; le_unit : Unit; le_revision : string; le_previous : option Process; le_previousUnit : Unit;
}.

(** [observeLaunch]; [alive p] is what [p.Alive()] returns. *)
Definition observeLaunch (alive : Process → bool) (name : string) (m : Manager) : launchObservation :=
  match m_units m !! name with
  | None => {| ob_record := None; ob_process := None; ob_alive := false |}
  | Some r =>
    let rt := deref m r in
    {| ob_record := Some r; ob_process := rt_proc rt;
       ob_alive := negb (m_closed m) && negb (cleanupPending rt) &&
                   match rt_proc rt with Some p => alive p | None => false end |}
  end.

Section launch.
Context {NM : Naming} {MR : MapRange}.
Context (capture_Complete : handle → bool) (engine_Current : string → Z → bool).
#[local] Notation queueBoundStopsLocked := (queueBoundStopsLocked capture_Complete).
#[local] Notation failStartLimitLocked := (failStartLimitLocked capture_Complete).
#[local] Notation validLocked := (validLocked engine_Current).

(** ** Acceptance *)

(** A launch that is refused without a word when it is a recovery. *)
Definition refuse (autoRestart : bool) (e : error) : result (option launchEffect) :=
  if autoRestart then Ok None else Fail e.

(** Another start ran the shared oneshot while this one waited for the gate. *)
Definition joins_oneshot (planned : option plannedStart) (rt : unitRuntime) : bool :=
  match planned with
  | Some p =>
    bool_decide (service_type (pl_unit p) = TypeOneshot) && bool_decide (pl_revision p = invocationRevision rt) &&
    (joiningOneshot p || negb (pl_gen p =? rt_gen rt)) &&
    negb (match pl_origin p with Some (restartOrigin _) => true | _ => false end)
  | None => false
  end.
Definition joined_oneshot (rt : unitRuntime) : result (option launchEffect) :=
  match rt_state rt with
  | Inactive | Active => Ok None
  | Failed => Fail (match rt_err rt with
                    | Some e => ErrWrap "shared oneshot failed: %s" e
                    | None => ErrText "shared oneshot failed: "
                    end)
  | _ => Fail (ErrText "shared oneshot is recovering; retry start after completion")
  end.

(** The checks that leave everything as it is: [Some] is the answer. *)
Definition launch_refusal (ctx_err : bool) (name : string) (autoRestart : bool) (planned : option plannedStart)
    (recovery : option runtimeIdentity) (observation : launchObservation) (m : Manager) : option (result (option launchEffect)) :=
  if match recovery with Some id => ctx_err || negb (currentLocked id m) | None => false end then Some (Ok None)
  else if m_closed m then Some (refuse autoRestart (ErrText "manager is shutting down or closed"))
  else if decide (AdmissionHold m ≠ "") then Some (refuse autoRestart (ErrFmt "admission is held: %s" [AdmissionHold m]))
  else match m_units m !! name with
  | None => Some (refuse autoRestart (ErrFmt "unit %q is not loaded" [name]))
  | Some r =>
    let rt := deref m r in
    if autoRestart && stopping rt then Some (Ok None)
    else if match planned with
            | Some p => negb (bool_decide (pl_record p = r)) || negb (pl_stopEpoch p =? stopEpoch rt) ||
                        match pl_origin p with Some o => negb (validLocked o m) | None => false end
            | None => false
            end then Some (Fail (ErrFmt "unit %q start superseded by stop" [name]))
    else if cleanupPending rt
    then Some (Fail (ErrFmt "unit %q termination is unconfirmed; retry stop before starting" [name]))
    else if negb (bool_decide (ob_record observation = Some r)) || negb (bool_decide (rt_proc rt = ob_process observation))
    then Some (Fail (ErrText "launch observation superseded"))
    else if joins_oneshot planned rt then Some (joined_oneshot rt)
    else if ob_alive observation then Some (Ok None)
    else if bool_decide (rt_state rt = Active) && bool_decide (service_type (ownedUnit rt) = TypeOneshot) && remains (ownedUnit rt)
    then Some (Ok None)
    else if unavailable rt
    then Some (Fail (ErrFmt "unit %q has no valid configuration; reload a valid unit before starting" [name]))
    else
      let definition := match planned with Some p => pl_unit p | None => rt_unit rt end in
      if negb (boundPeersActiveLocked (if autoRestart then ownedUnit rt else definition) m) then Some (Fail ErrSkipped)
      else if negb autoRestart && bool_decide (is_Some (invocationUnit rt)) && native (ownedUnit rt) &&
              (negb (bool_decide (scmServiceName (ownedUnit rt) = scmServiceName definition)) ||
               negb (bool_decide (scheduledTaskName (ownedUnit rt) = scheduledTaskName definition)))
      then Some (Fail (ErrFmt "unit %q still owns a previous native target; stop it before starting the new definition" [name]))
      else None
  end.

Definition mark_plan (f : plannedStart → plannedStart) (planned : option nat) (m : Manager) : Manager :=
  match planned with
  | Some i => match m_plans m !! i with Some p => m <| m_plans := <[i := f p]> (m_plans m) |> | None => m end
  | None => m
  end.

(** The launch proper: a new generation, and the process of the previous one. *)
Definition begin_launch (name : string) (autoRestart : bool) (planned : option nat) (definition : Unit) (revision : string)
    (r : address) (m : Manager) : Manager * result (option launchEffect) :=
  let m := upd r (λ rt, rt <| operations := operations rt + 1 |> <| rt_gen := rt_gen rt + 1 |> <| rt_restartDelay := 0 |>) m in
  let gen := rt_gen (deref m r) in
  let m := mark_plan (λ p, p <| launchGen := gen |>) planned m in
  let rt := deref m r in
  let m := upd r (λ rt, if bool_decide (is_Some (rt_proc rt)) then setCleanup cleanupWorkload true rt else rt) m in
  (m, Ok (Some {| le_owner := {| id_name := name; id_record := r; id_gen := gen |};
                  le_unit := if autoRestart then ownedUnit rt else definition;
                  le_revision := if autoRestart && bool_decide (is_Some (invocationUnit rt)) then invocationRevision rt else revision;
                  le_previous := rt_proc rt; le_previousUnit := ownedUnit rt |})).

Definition acceptLaunch (ctx_err : bool) (now : Time) (name : string) (autoRestart : bool) (planned : option nat)
    (recovery : option runtimeIdentity) (observation : launchObservation) (m : Manager) : Manager * result (option launchEffect) :=
  let plan := match planned with Some i => m_plans m !! i | None => None end in
  match launch_refusal ctx_err name autoRestart plan recovery observation m, m_units m !! name with
  | Some answer, _ => (m, answer)
  | None, None => (m, Ok None)
  | None, Some r =>
    let rt := deref m r in
    let definition := match plan with Some p => pl_unit p | None => rt_unit rt end in
    let revision := match plan with Some p => pl_revision p | None => rt_configRevision rt end in
    let m := mark_plan (λ p, p <| launched := true |>) planned m in
    let triggered := match plan with
                     | Some p => match pl_origin p with Some o => countsStartLimit o | None => false end
                     | None => false
                     end in
    let '(interval, burst) := startLimitOf definition in
    if triggered && StartLimitHit (startTimes rt) now interval burst
    then (failStartLimitLocked r (cancelRestart r m), Fail (ErrText ReasonStartLimit))
    else if autoRestart then
      if startLimitHitLocked now rt then (failStartLimitLocked r m, Ok None)
      else begin_launch name autoRestart planned definition revision r m
    else
      let m := cancelRestart r (upd r (λ rt, rt <| stopping := false |>) m) in
      let m := if triggered then m else upd r (λ rt, rt <| restartAttempt := 0 |> <| startTimes := [] |>) m in
      begin_launch name autoRestart planned definition revision r m
  end.

Definition releaseLaunch (effect : launchEffect) (m : Manager) : Manager :=
  upd (id_record (le_owner effect)) (λ rt, rt <| operations := operations rt - 1 |>) m.

(** ** The process of the previous invocation *)

Definition applyPreviousCleanup (effect : launchEffect) (err : option error) (m : Manager) : Manager * bool :=
  let owner := le_owner effect in
  let r := id_record owner in
  if m_closed m || negb (currentLocked owner m) || negb (sameOp (id_gen owner) (le_previous effect) (deref m r)) then (m, false)
  else (upd r (λ rt, match err with
                     | None => setCleanup cleanupWorkload false (rt <| rt_proc := None |>)
                     | Some e => rt <| rt_err := Some (ErrWrap "previous invocation cleanup: " e) |>
                     end) m, true).

(** ** Records of the invocation *)

Definition recordServiceLaunch (now : Time) (effect : launchEffect) (native : bool) (m : Manager) : Manager :=
  if m_closed m || negb (currentLocked (le_owner effect) m) then m
  else upd (id_record (le_owner effect)) (λ rt,
    let rt := rt <| health := "unknown" |> <| probeFailures := 0 |> in
    let rt := if decide (service_type (le_unit effect) = TypeOneshot) then (step EventStartRequested rt).1 else rt in
    let rt := if native then rt <| invocationUnit := Some (le_unit effect) |> <| invocationRevision := le_revision effect |>
                                  <| nativeProbeError := None |> <| nativeNextProbe := 0 |>
              else rt in
    recordStartLocked now rt) m.

Definition recordInvocation (effect : launchEffect) (invocation userSID : string) (m : Manager) : Manager :=
  if negb (currentLocked (le_owner effect) m) then m
  else upd (id_record (le_owner effect)) (λ rt,
    rt <| invocationUnit := Some (le_unit effect) |> <| invocationRevision := le_revision effect |>
       <| rt_invocation := invocation |> <| invocationUserSID := userSID |>) m.

Definition recordInvocationUser (effect : launchEffect) (userSID : string) (m : Manager) : Manager :=
  if negb (currentLocked (le_owner effect) m) then m
  else upd (id_record (le_owner effect)) (λ rt, rt <| invocationUserSID := userSID |>) m.

Definition failAccountStart (effect : launchEffect) (err : error) (m : Manager) : Manager :=
  if m_closed m || negb (currentLocked (le_owner effect) m) then m
  else upd (id_record (le_owner effect)) (λ rt,
    if negb (stopping rt) && bool_decide (rt_state rt = Activating) then
      let '(rt', ok) := step EventStartFailed rt in if ok then rt' <| rt_err := Some err |> else rt'
    else rt) m.

Definition adoptLaunchNotify (effect : launchEffect) (notify : handle) (m : Manager) : Manager * bool :=
  if m_closed m || negb (currentLocked (le_owner effect) m) then (m, false)
  else (upd (id_record (le_owner effect)) (λ rt, rt <| rt_notify := Some notify |>) m, true).

(** ** The new process *)

Definition retainLaunchFailure (effect : launchEffect) (proc : Process) (pid : Z) (err : error) (m : Manager) : Manager :=
  upd (id_record (le_owner effect)) (λ rt,
    setCleanup cleanupWorkload true (rt <| rt_proc := Some proc |> <| mainPID := pid |> <| rt_err := Some err |>)) m.

Definition waits_for_readiness (u : Unit) : bool := WaitsForReadiness (Service u).

Definition adoptProcess (effect : launchEffect) (process : Process) (pid : Z) (autoRestart alive : bool) (m : Manager) :
    Manager * bool :=
  let r := id_record (le_owner effect) in
  let m := upd r (λ rt, rt <| rt_proc := Some process |> <| mainPID := pid |>) m in
  if m_closed m || stopping (deref m r) || negb (currentLocked (le_owner effect) m)
  then (upd r (setCleanup cleanupWorkload true) m, false)
  else (upd r (λ rt,
    let rt := rt <| terminated := false |> in
    if waits_for_readiness (le_unit effect) then (step EventStartRequested rt).1
    else if autoRestart && alive && negb (bool_decide (service_type (le_unit effect) = TypeOneshot)) then
      let '(rt', ok) := step EventStartSucceeded rt in if ok then rt' <| rt_err := None |> else rt'
    else rt) m, true).

Definition applyLateLaunchCleanup (effect : launchEffect) (proc : Process) (err : option error) (m : Manager) : Manager :=
  let r := id_record (le_owner effect) in
  if negb (currentLocked (le_owner effect) m) || negb (bool_decide (rt_proc (deref m r) = Some proc)) then m
  else upd r (λ rt, match err with
                    | None => setCleanup cleanupWorkload false (rt <| rt_proc := None |>)
                    | Some e => (step EventStartFailed rt).1 <| rt_err := Some (ErrWrap "late launch cleanup: " e) |>
                    end) m.

Definition registerStartWait (effect : launchEffect) (c : handle) (m : Manager) : Manager * bool :=
  let r := id_record (le_owner effect) in
  if m_closed m || negb (currentLocked (le_owner effect) m) || stopping (deref m r) then (m, false)
  else (upd r (λ rt, rt <| startCancel := Some c |>) m, true).

Definition clearStartWait (effect : launchEffect) (m : Manager) : Manager :=
  if negb (currentLocked (le_owner effect) m) then m
  else upd (id_record (le_owner effect)) (λ rt, rt <| startCancel := None |>) m.

(** ** Oneshot services; [errors.Join] keeps the first error *)

Definition join (e1 e2 : option error) : option error := match e1 with Some e => Some e | None => e2 end.

Definition applyOneshotCleanup (effect : launchEffect) (proc : Process) (cleanupErr waitErr : option error) (m : Manager) : Manager :=
  let r := id_record (le_owner effect) in
  if negb (currentLocked (le_owner effect) m) || negb (bool_decide (rt_proc (deref m r) = Some proc)) then m
  else upd r (λ rt,
    let rt := if bool_decide (is_Some waitErr) then rt <| terminated := true |> else rt in
    let rt := setCleanup cleanupWorkload (bool_decide (is_Some cleanupErr)) rt in
    if bool_decide (is_Some (join waitErr cleanupErr)) && negb (stopping rt)
    then (step EventStartFailed rt).1 <| rt_err := join waitErr cleanupErr |> else rt) m.

Definition completeOneshot (ctx_err : bool) (now : Time) (effect : launchEffect) (proc : Process)
    (cleanupErr completionErr : option error) (m : Manager) : Manager * result Time :=
  let owner := le_owner effect in
  let r := id_record owner in
  let fail e rt := (step EventStartFailed rt).1 <| rt_err := e |> in
  if negb (currentLocked owner m) || negb (bool_decide (rt_proc (deref m r) = Some proc))
  then (m, Fail (ErrText "oneshot completion superseded"))
  else
    let m := if negb (stopping (deref m r)) &&
                (negb (remains (le_unit effect)) || bool_decide (is_Some cleanupErr) || bool_decide (is_Some completionErr))
             then queueBoundStopsLocked (id_name owner) m else m in
    match cleanupErr with
    | Some e => (upd r (λ rt, fail (Some (ErrWrap "oneshot cleanup: " e)) (setCleanup cleanupWorkload true rt)) m, Fail e)
    | None =>
      let m := upd r (λ rt, setCleanup cleanupWorkload false (rt <| rt_proc := None |>)) m in
      if cleanupPending (deref m r) then
        let m := upd r (λ rt, let rt := (step EventStartFailed rt).1 in
                   match completionErr with Some e => rt <| rt_err := Some e |> | None => rt end) m in
        (m, Fail (match rt_err (deref m r) with
                  | Some e => ErrWrap "oneshot cleanup remains pending: %s" e
                  | None => ErrText "oneshot cleanup remains pending: "
                  end))
      else if ctx_err || m_closed m || stopping (deref m r) then (m, Fail (ErrText "oneshot completion canceled"))
      else match completionErr with
      | Some e => (upd r (fail (Some e)) m, Fail e)
      | None =>
        (upd r (λ rt, publishStartOutcome (if remains (le_unit effect) then Active else Inactive) rt <| rt_err := None |>) m, Ok now)
      end
    end.

(** ** Readiness *)

Definition acceptReadinessFailure (effect : launchEffect) (proc : Process) (err : error) (m : Manager) : Manager * bool :=
  let r := id_record (le_owner effect) in
  if negb (currentLocked (le_owner effect) m) || negb (bool_decide (rt_proc (deref m r) = Some proc)) then (m, true)
  else
    let m := upd r (λ rt, setCleanup cleanupWorkload true (rt <| terminated := true |>)) m in
    if stopping (deref m r) then (m, true)
    else
      let '(rt', ok) := step EventStartFailed (deref m r) in
      let m := if ok then queueBoundStopsLocked (id_name (le_owner effect)) (upd r (λ _, rt' <| rt_err := Some err |>) m) else m in
      (m, stopping (deref m r)).

Definition applyReadinessCleanup (effect : launchEffect) (proc : Process) (err : option error) (m : Manager) : Manager :=
  let owner := le_owner effect in
  let r := id_record owner in
  if negb (currentLocked owner m) || negb (sameOp (id_gen owner) (Some proc) (deref m r)) then m
  else upd r (λ rt, match err with
                    | None => setCleanup cleanupWorkload false (rt <| rt_proc := None |> <| terminated := false |>)
                    | Some e => rt <| rt_err := Some (ErrWrap "readiness cleanup: " e) |>
                    end) m.

Definition acceptProcessActivation (ctx_err : bool) (now : Time) (effect : launchEffect) (proc : Process) (m : Manager) :
    Manager * option Time :=
  let r := id_record (le_owner effect) in
  if ctx_err || m_closed m || negb (currentLocked (le_owner effect) m) || stopping (deref m r) ||
     negb (bool_decide (rt_proc (deref m r) = Some proc)) then (m, None)
  else if negb (waits_for_readiness (le_unit effect)) then (m, Some now)
  else
    let '(rt', ok) := step EventStartSucceeded (deref m r) in
    if negb ok then (m, None)
    else (upd r (λ _, rt' <| rt_err := None |> <| health := "ready" |>) m, Some now).

End launch.
