(* ===== verification/ManagerConfig.v ===== *)
(** * Package manager: configuration, native targets and shutdown

    [lifecycle_config.go], [lifecycle_native.go], [lifecycle_timer.go], the reconciliation
    of [lifecycle_watch.go], [detachAsync] of [unitruntime.go], the cancellation of
    [lifecycle_operations.go] and the sealing of [shutdown.go] and [manager.go] of
    [internal/manager].  The timer engine is an argument: [engine_Arm] is what [Arm]
    answers for a unit and a revision, 0 when it refuses. *)

From S2P Require Import Prelude GoStrings Calendar UnitTypes UnitNames CoreState CoreGraph CorePlan ManagerState ManagerEvents.

#[local] Open Scope Z_scope.

(** [for _, rt := range m.units { body }]. *)
Definition range_units `{MR : MapRange} (site : nat) (body : string → address → Manager → Manager) (m : Manager) : Manager :=
  foldl (λ m p, body p.1 p.2 m) m (map_range site (m_units m)).

(** ** unitruntime.go: async controls *)

Record unitTeardown := {
  td_start : option handle; td_watchdog : option handle; td_notify : option handle; td_restart : option handle;
  td_hub : option watchRuntime;
}.

Definition detachAsync (r : address) (m : Manager) : Manager * unitTeardown :=
  let rt := deref m r in
  (upd r (λ rt, rt <| rt_restartDelay := 0 |> <| rt_watchdog := None |> <| startCancel := None |> <| rt_notify := None |>
                   <| restartCancel := None |> <| rt_hub := None |>) m,
   {| td_start := startCancel rt; td_watchdog := rt_watchdog rt; td_notify := rt_notify rt; td_restart := restartCancel rt;
      td_hub := rt_hub rt |}).

Definition cancelNonblocking (td : unitTeardown) (m : Manager) : Manager :=
  cancel (hub_id <$> td_hub td) (cancel (td_watchdog td) (cancel (td_restart td) (cancel (td_start td) m))).

(** ** enable.go *)

Definition enabledTargetsFrom `{MR : MapRange} (links : gmap string (list string)) (name : string) : list string :=
  sort_strings (fst <$> filter (λ p, name ∈ p.2) (map_range 13 links)).

Section config.
Context {NM : Naming} {MR : MapRange}.
Context (capture_Complete : handle → bool) (engine_Arm : Unit → string → Z).
#[local] Notation queueBoundStopsLocked := (queueBoundStopsLocked capture_Complete).
#[local] Notation retainWithoutConfig := (retainWithoutConfig capture_Complete).

(** ** lifecycle_timer.go *)

Definition timer_expressions (u : Unit) : Z := match Timer u with Some t => Z.of_nat (length (OnCalendar t)) | None => 0 end.

Definition acceptTimerArmLocked (u : Unit) (revision : string) (m : Manager) : Manager * option error :=
  match m_units m !! Name u with
  | None => (m, Some (ErrFmt "timer %q is unavailable or manager is closed" [Name u]))
  | Some r =>
    if unavailable (deref m r) || m_closed m then (m, Some (ErrFmt "timer %q is unavailable or manager is closed" [Name u]))
    else if MaxCalendarExpressions <? timer_expressions u then (m, Some (ErrText "timer exceeds %d OnCalendar expressions"))
    else
      let token := engine_Arm u revision in
      if token =? 0 then (m, Some (ErrText "timer arm capacity %d exhausted or scheduler stopped"))
      else (upd r (λ rt, rt <| rt_timer := Some {| arm_token := token; arm_revision := revision |} |>) m, None)
  end.

Definition disarmTimer (owner : runtimeIdentity) (m : Manager) : Manager :=
  if currentLocked owner m then upd (id_record owner) (λ rt, rt <| rt_timer := None |>) m else m.

Definition disarmAllTimersLocked (m : Manager) : Manager :=
  range_units 14 (λ _ r, upd r (λ rt, rt <| rt_timer := None |>)) m.

(** The timers a reload keeps armed. *)
Definition keeps_timer (rt : unitRuntime) : bool :=
  negb (unavailable rt) && bool_decide (UnitKind (rt_unit rt) = KindTimer) &&
  (bool_decide (rt_state rt = Active) || (bool_decide (is_Some (rt_timer rt)) && (0 <? operations rt))).

Definition rearm_timer (m : Manager) (u : Unit) : Manager :=
  match m_units m !! Name u with
  | None => m
  | Some r =>
    match acceptTimerArmLocked u (rt_configRevision (deref m r)) m with
    | (m, None) => m
    | (m, Some e) =>
      let m := upd r (λ rt, publishStartOutcome Failed rt <| rt_err := Some e |>) m in
      if stopping (deref m r) then m else queueBoundStopsLocked (Name u) m
    end
  end.

Definition syncTimersLocked (m : Manager) : Manager :=
  let toArm := (λ p, rt_unit (deref m p.2)) <$>
    filter (λ p, keeps_timer (deref m p.2) ∧ rt_timer (deref m p.2) = None) (map_range 15 (m_units m)) in
  let m := range_units 16 (λ _ r m, if keeps_timer (deref m r) then m else upd r (λ rt, rt <| rt_timer := None |>) m) m in
  foldl rearm_timer m toArm.

(** ** lifecycle_watch.go *)

Definition keeps_hub (rt : unitRuntime) : bool :=
  let publishing := (0 <? operations rt) && bool_decide (hub_gen <$> rt_hub rt = Some (rt_gen rt)) && negb (stopping rt) &&
                    negb (cleanupPending rt) in
  (bool_decide (UnitKind (rt_unit rt) = KindRegistry) || bool_decide (UnitKind (rt_unit rt) = KindEventLog) ||
   bool_decide (UnitKind (rt_unit rt) = KindPath)) &&
  (bool_decide (rt_state rt = Active) || publishing) && negb (unavailable rt).

Definition reconcile_hub (_ : string) (r : address) (m : Manager) : Manager :=
  let rt := deref m r in
  match rt_hub rt with
  | None => m
  | Some h =>
    if keeps_hub rt then m
    else cancel (Some (hub_id h)) (upd r (λ rt, setCleanup cleanupWatch true
           (rt <| rt_hub := Some {| hub_id := hub_id h; hub_gen := hub_gen h; hub_revision := hub_revision h;
                                    hub_exists := hub_exists h; hub_closing := true |} |>)) m)
  end.
Definition reconcileHubsLocked (m : Manager) : Manager := range_units 17 reconcile_hub m.

(** ** lifecycle_config.go *)

Definition acceptConfigRevisionLocked (m : Manager) : Manager :=
  let m := m <| configSequence := configSequence m + 1 |> in
  let m := m <| m_configRevision := configNamespace m +:+ "/" +:+ pretty (configSequence m) |> in
  range_units 18 (λ _ r m, upd r (λ rt,
    rt <| rt_configRevision := if unavailable rt then "" else m_configRevision m |>) m) m.

(** The record of a loaded definition: the one its name has, or a new one. *)
Definition accept_unit (old : gmap string address) (links : gmap string (list string)) (acc : Manager * gmap string address)
    (u : Unit) : Manager * gmap string address :=
  let '(m, next) := acc in
  let name := NormalizeName (Name u) in
  let r := match old !! name with Some r => r | None => fresh (dom (m_heap m)) end in
  let rt := match old !! name with Some r => deref m r | None => new_unitRuntime u end in
  let targets := enabledTargetsFrom links name in
  (m <| m_heap := <[r := rt <| rt_unit := u |> <| unavailable := false |> <| rt_enabled := negb (bool_decide (targets = [])) |>
                           <| rt_targets := targets |>]> (m_heap m) |>,
   <[name := r]> next).

(** A record whose definition vanished: kept while it owns something. *)
Definition vanish_unit (accepted : gset string) (acc : Manager * gmap string address) (p : string * address) :
    Manager * gmap string address :=
  let '(m, next) := acc in
  if decide (p.1 ∈ accepted) then acc
  else if retainWithoutConfig (deref m p.2) then
    let m := upd p.2 (λ rt, rt <| unavailable := true |> <| rt_enabled := false |> <| rt_targets := [] |>) m in
    (cancelRestart p.2 m, <[p.1 := p.2]> next)
  else
    let '(m, td) := detachAsync p.2 m in
    (cancelNonblocking td m, next).

Definition replaceLocked (units : list Unit) (g : Graph) (links : gmap string (list string)) (m : Manager) : Manager :=
  let old := m_units m in
  let accepted := list_to_set ((λ u, NormalizeName (Name u)) <$> units) in
  let '(m, next) := foldl (accept_unit old links) (m, ∅) units in
  let '(m, next) := foldl (vanish_unit accepted) (m, next) (map_range 19 old) in
  let m := signalStartCapacityLocked (m <| m_units := next |>) in
  let m := acceptConfigRevisionLocked (m <| m_graph := Some g |>) in
  reconcileHubsLocked (syncTimersLocked m).

Definition acceptEnabledGraphLocked (g : Graph) (links : gmap string (list string)) (m : Manager) : Manager :=
  let m := acceptConfigRevisionLocked (m <| m_graph := Some g |>) in
  range_units 20 (λ name r, upd r (λ rt,
    let targets := enabledTargetsFrom links name in
    rt <| rt_enabled := negb (bool_decide (targets = [])) |> <| rt_targets := targets |>)) m.

(** ** lifecycle_operations.go *)

(** A member that was launched by the operation and has not completed. *)
Definition in_flight (m : Manager) (name : string) (plan : plannedStart) : bool :=
  negb (completed plan) && launched plan && negb (launchGen plan =? 0) && owns m name (pl_record plan) &&
  (rt_gen (deref m (pl_record plan)) =? launchGen plan) && (stopEpoch (deref m (pl_record plan)) =? pl_stopEpoch plan).

Definition cancel_member (m : Manager) (p : string * nat) : Manager :=
  match m_plans m !! p.2 with
  | None => m
  | Some plan =>
    if negb (in_flight m p.1 plan) then m
    else
      let r := pl_record plan in
      let m := cancelRestart r (upd r (λ rt, rt <| stopping := true |> <| stopEpoch := stopEpoch rt + 1 |>) m) in
      let m := cancel (startCancel (deref m r)) m in
      if bool_decide (is_Some (rt_proc (deref m r))) || bool_decide (is_Some (invocationUnit (deref m r)))
      then upd r (setCleanup cleanupWorkload true) m else m
  end.

Definition cancelOperationLocked (task : operationTask) (m : Manager) : Manager :=
  if decide (task_ctx task ∈ m_cancelled m) then m
  else
    let plans := match task_plans task with Some plans => map_range 21 plans | None => [] end in
    cancel (Some (task_ctx task)) (foldl cancel_member m plans).

Definition cancelOperationsLocked (m : Manager) : Manager :=
  foldl (λ m p, match task_plans p.2 with Some _ => cancelOperationLocked p.2 m | None => m end)
    m (map_range 22 (activeOperations m)).

(** ** shutdown.go and manager.go *)

Definition seal_unit (_ : string) (r : address) (m : Manager) : Manager :=
  let m := upd r (λ rt,
    let rt := rt <| stopping := true |> in
    if bool_decide (is_Some (rt_proc rt)) || (negb (bool_decide (rt_state rt = Inactive)) && native (ownedUnit rt))
    then setCleanup cleanupWorkload true rt else rt) m in
  cancelRestart r (cancel (startCancel (deref m r)) m).

Definition sealShutdownLocked (m : Manager) : Manager :=
  let m := cancelOperationsLocked (disarmAllTimersLocked (m <| m_closed := true |>)) in
  range_units 23 seal_unit (signalStartCapacityLocked m).

(** The decision of [CloseContext]. *)
Definition CloseContext (m : Manager) : Manager :=
  let m := cancelOperationsLocked (disarmAllTimersLocked (m <| m_closed := true |>)) in
  let m := signalStartCapacityLocked m in
  let m := m <| m_cancelled := list_to_set ((λ p, sh_cancel p.2) <$> map_to_list (stopHelpers m)) ∪ m_cancelled m |> in
  range_units 24 (λ _ r m, cancelRestart r (cancel (startCancel (deref m r)) m)) m.

(** The decision of [closePass] that takes the controls of every unit. *)
Definition closePass (m : Manager) : Manager := range_units 25 (λ _ r m, (detachAsync r m).1) m.

Definition shutdownRootsLocked (m : Manager) : list string :=
  let root := NormalizeName "shutdown.target" in
  let live := fst <$> filter (λ p, let rt := deref m p.2 in
    (negb (bool_decide (rt_state rt = Inactive)) || bool_decide (is_Some (rt_proc rt)) || negb (operations rt =? 0) ||
     cleanupPending rt) = true) (map_range 26 (m_units m)) in
  uniqueStable (filter (λ n, is_Some (m_units m !! NormalizeName n)) (root :: live)).

(** ** lifecycle_native.go *)

Definition maxNativeProbes : nat := 4.
Definition nativeProbeInterval : Duration := Second.

Definition hasNativeProxiesLocked (m : Manager) : bool :=
  existsb (λ p, let rt := deref m p.2 in negb (stopping rt) && up rt && native (ownedUnit rt)) (map_range 27 (m_units m)).

Definition probe_unit (now : Time) (m : Manager) (name : string) : Manager :=
  if (maxNativeProbes <=? size (nativeProbes m))%nat then m
  else match m_units m !! name with
  | None => m
  | Some r =>
    let rt := deref m r in
    if negb (bool_decide (rt_state rt = Active)) || stopping rt || negb (operations rt =? 0) || cleanupPending rt ||
       bool_decide (is_Some (nativeProbes m !! r)) || (now <? nativeNextProbe rt) || negb (native (ownedUnit rt)) then m
    else
      let probe := {| np_owner := {| id_name := name; id_record := r; id_gen := rt_gen rt |}; np_epoch := stopEpoch rt;
                      np_scm := scmServiceName (ownedUnit rt); np_task := scheduledTaskName (ownedUnit rt) |} in
      let m := upd r (λ rt, rt <| operations := operations rt + 1 |> <| nativeNextProbe := now + nativeProbeInterval |>) m in
      m <| nativeProbes := <[r := probe]> (nativeProbes m) |> <| nativeProbeCursor := name +:+ String Ascii.zero "" |>
  end.

(** [names] from the cursor on, and then from the beginning. *)
Definition rotated (cursor : string) (names : list string) : list string :=
  let start := length (filter (λ n, ¬ String.le cursor n) names) in
  drop start names ++ take start names.

Definition dispatchNativeProbesLocked (now : Time) (m : Manager) : Manager :=
  if m_closed m || (size (nativeProbes m) =? maxNativeProbes)%nat then m
  else foldl (probe_unit now) m (rotated (nativeProbeCursor m) (sort_strings (fst <$> map_range 28 (m_units m)))).

Definition completeNativeProbe (probe : nativeProbe) (inactive : bool) (err : option error) (m : Manager) : Manager :=
  let r := id_record (np_owner probe) in
  if negb (bool_decide (nativeProbes m !! r = Some probe)) then m
  else
    let m := m <| nativeProbes := delete r (nativeProbes m) |> in
    let m := upd r (λ rt, rt <| operations := operations rt - 1 |>) m in
    let rt := deref m r in
    if m_closed m || negb (currentLocked (np_owner probe) m) || negb (stopEpoch rt =? np_epoch probe) || stopping rt ||
       negb (bool_decide (rt_state rt = Active)) || negb (operations rt =? 0) then m
    else match err with
    | Some e => upd r (λ rt, rt <| nativeProbeError := Some e |>) m
    | None =>
      let m := upd r (λ rt, rt <| nativeProbeError := None |>) m in
      if inactive then queueBoundStopsLocked (id_name (np_owner probe))
                         (upd r (λ rt, rt <| rt_state := Inactive |> <| rt_sub := SubNone |>) m)
      else m
    end.

End config.
