(* ===== verification/ManagerOperations.v ===== *)
(** * Package manager: operations

    The critical sections of [startOperation] ([manager.go]), [stopTransaction]
    ([shutdown.go]), [planRestartLocked] ([restart_intent.go]), [runBoundStops]
    ([lifecycle_bound.go]), [stop_helper.go], [lifecycle_journal.go], [operations.go] and
    [operation_lifetime.go] of [internal/manager].  The history of operations and their
    deadlines are not part of the record; [Unit] names are normalized. *)

From S2P Require Import Prelude GoStrings GoTime UnitTypes UnitNames CoreState CoreGraph CorePlan ManagerState ManagerEvents ManagerLaunch.

#[local] Open Scope Z_scope.

Definition DefaultMaxStartTransactions : Z := 32.
Definition DefaultMaxStopTransactions : Z := 32.
Definition maxStopHelpers : nat := 32.

(** [r.operations += d] for each record. *)
Definition hold (d : Z) (m : Manager) (r : address) : Manager := upd r (λ rt, rt <| operations := operations rt + d |>) m.

(** ** operations.go and operation_lifetime.go *)

Definition beginOperationLocked (members : list string) (m : Manager) : Manager * string :=
  let m := m <| operationSequence := operationSequence m + 1 |> in
  let id := configNamespace m +:+ "/op/" +:+ pretty (operationSequence m) in
  (foldl (λ m name, match m_units m !! name with
                    | Some r => upd r (λ rt, rt <| lastOperationID := id |>) m
                    | None => m
                    end) m members, id).

Definition beginOperationTaskLocked (id : string) (plans : option (gmap string nat)) (m : Manager) : Manager :=
  let '(m, c) := new_context m in
  m <| activeOperations := <[id := {| task_ctx := c; task_plans := plans |}]> (activeOperations m) |>.

(** [finishOperationTask]; [release] is its last argument. *)
Definition finishOperationTask (name id : string) (release : Manager → Manager) (m : Manager) : Manager :=
  let m := release (m <| activeOperations := delete id (activeOperations m) |>) in
  match startFlights m !! name with
  | Some f => if decide (fl_id f = id) then m <| startFlights := delete name (startFlights m) |> else m
  | None => m
  end.

Definition DefaultOperationTimeout : Duration := 5 * Minute.
Definition defaultSCMStartTimeout : Duration := 30 * Second.
Definition MaxInt64 : Z := 2 ^ 63 - 1.

Definition stopTimeout (u : Unit) : Duration :=
  match Service u with
  | Some s => if TimeoutStopSecSet s then TimeoutStopSec s else defaultStopTimeout
  | None => defaultStopTimeout
  end.
Definition add_budget (budget d : Duration) : Duration :=
  if duration (MaxInt64 - budget) <? d then MaxInt64 else if 0 <? d then duration (budget + d) else budget.
Definition member_budget (m : Manager) (start : bool) (budget : Duration) (name : string) : Duration :=
  match m_units m !! name with
  | None => budget
  | Some r =>
    let u := if start then rt_unit (deref m r) else ownedUnit (deref m r) in
    let budget := match start, Service u with
                  | true, Some s => add_budget budget (Z.max defaultSCMStartTimeout (TimeoutStartSec s))
                  | _, _ => budget
                  end in
    add_budget (add_budget budget (stopTimeout u)) (stopTimeout u)
  end.
(** [OperationTimeout] is the configured one. *)
Definition operationTimeoutLocked (OperationTimeout : Duration) (start stop : option Transaction) (m : Manager) : Duration :=
  if 0 <? OperationTimeout then OperationTimeout
  else
    let budget := foldl (member_budget m true) defaultStopTimeout (Units start) in
    let budget := foldl (member_budget m false) budget (Units stop) in
    Z.max DefaultOperationTimeout budget.

(** ** stop_budget.go *)

Definition stopForceReserve (total : Duration) : Duration := Z.min (total ÷ 2) (Z.max Second (total ÷ 5)).

(** ** lifecycle_journal.go *)

Definition attachMainCapture (effect : launchEffect) (c : handle) (m : Manager) : Manager :=
  let owner := le_owner effect in
  if owns m (id_name owner) (id_record owner) then upd (id_record owner) (λ rt, rt <| capture := Some c |>) m else m.

Definition publishJournalCompletion (name : string) (record : address) (c : option handle) (generation : Z) (complete : bool)
    (m : Manager) : Manager :=
  let rt := deref m record in
  if negb (owns m name record) || negb (bool_decide (capture rt = c)) ||
     (bool_decide (c = None) && negb (rt_gen rt =? generation)) then m
  else upd record (λ rt, let rt := setCleanup cleanupJournal (negb complete) rt in
                         if complete then rt <| capture := None |> else rt) m.

(** ** stop_helper.go *)

Definition acceptStopHelper (ctx_err : option error) (owner : runtimeIdentity) (u : Unit) (eligible : bool) (m : Manager) :
    Manager * result (option handle) :=
  let r := id_record owner in
  let rt := deref m r in
  let ExecStop_empty := match Service u with Some s => bool_decide (ExecStop s = []) | None => true end in
  if negb (currentLocked owner m) then (m, Fail (ErrText "stop helper owner superseded"))
  else match stopHelper rt with
  | Some h => (m, Ok (Some h))
  | None =>
    if negb eligible || ExecStop_empty || bool_decide (rt_invocation rt = "") ||
       bool_decide (stopHelperAttempt rt = rt_invocation rt) then (m, Ok None)
    else if m_closed m then (m, Fail (ErrText "manager is closing"))
    else match ctx_err with
    | Some e => (m, Fail e)
    | None =>
      if (maxStopHelpers <=? size (stopHelpers m))%nat then (m, Fail (ErrText "stop helper capacity %d exhausted"))
      else
        let '(m, c) := new_context m in
        let h := fresh (dom (stopHelpers m)) in
        let m := m <| stopHelpers := <[h := {| sh_owner := owner; sh_invocation := rt_invocation rt; sh_cancel := c;
                                                sh_process := None |}]> (stopHelpers m) |> in
        (upd r (λ rt, setCleanup cleanupHelper true
           (rt <| stopHelper := Some h |> <| stopHelperAttempt := rt_invocation rt |> <| operations := operations rt + 1 |>)) m,
         Ok (Some h))
    end
  end.

Definition publishStopHelperProcess (h : handle) (p : option Process) (m : Manager) : Manager :=
  match stopHelpers m !! h with
  | Some w => m <| stopHelpers := <[h := {| sh_owner := sh_owner w; sh_invocation := sh_invocation w; sh_cancel := sh_cancel w;
                                            sh_process := p |}]> (stopHelpers m) |>
  | None => m
  end.

Definition releaseStopHelper (h : handle) (p : option Process) (err : option error) (m : Manager) : Manager :=
  match stopHelpers m !! h with
  | None => m
  | Some w =>
    let r := id_record (sh_owner w) in
    if negb (bool_decide (sh_process w = p)) then m
    else match err with
    | Some e => upd r (λ rt, rt <| rt_err := Some (ErrWrap "stop helper cleanup: " e) |>) m
    | None =>
      let m := m <| stopHelpers := delete h (stopHelpers m) |> in
      upd r (λ rt,
        let rt := if bool_decide (stopHelper rt = Some h) then setCleanup cleanupHelper false (rt <| stopHelper := None |>) else rt in
        rt <| operations := operations rt - 1 |>) m
    end
  end.

Section operations.
Context {NM : Naming} {MR : MapRange}.
Context (capture_Complete : handle → bool) (engine_Current : string → Z → bool).
#[local] Notation stopGraphLocked := (stopGraphLocked capture_Complete).
#[local] Notation validLocked := (validLocked engine_Current).

(** ** restart_intent.go *)

Definition restart_member (m : Manager) (members : gmap string (address * Z)) (name : string) : gmap string (address * Z) :=
  match m_units m !! name with
  | Some r => <[name := (r, stopEpoch (deref m r) + 1)]> members
  | None => members
  end.
Definition planRestartLocked (name : string) (m : Manager) :
    result (Transaction * list string * gmap string (address * Z)) :=
  (g <-? stopGraphLocked m ;;
   stop <-? PlanStop (Some g) [name] ;;
   let names := Units (Some stop) in
   let pulled := filter (λ n, n ≠ name ∧ match m_units m !! n with Some r => up (deref m r) | None => false end = true) names in
   Ok (stop, name :: pulled, foldl (restart_member m) ∅ names))%go.

(** ** manager.go: starts *)

(** What an admitted start hands to its worker: its plans, by their place in
    [m_plans] and with their records, which do not change, and the records of the
    members that a restart stops. *)
Record startWork := { sw_id : string; sw_tx : Transaction; sw_stop : option Transaction;
                      sw_plans : gmap string (nat * address); sw_retained : list address }.
Inductive admission := Joined (id : string) | Accepted (w : startWork).

Definition plan_member (origin : option activationOrigin) (restart : bool) (acc : Manager * gmap string (nat * address))
    (name : string) : Manager * gmap string (nat * address) :=
  let '(m, plans) := acc in
  match m_units m !! name with
  | None => acc
  | Some r =>
    let rt := deref m r in
    let stopped := match origin with Some (restartOrigin members) => members !! name | _ => None end in
    let plan := {| pl_origin := origin; pl_unit := rt_unit rt; pl_revision := rt_configRevision rt; pl_record := r;
                   pl_stopEpoch := match stopped with Some (_, epoch) => epoch | None => stopEpoch rt end;
                   launched := false; completed := false;
                   pl_gen := match stopped with Some _ => rt_gen rt + 1 | None => rt_gen rt end; launchGen := 0;
                   joiningOneshot := negb restart && bool_decide (rt_state rt = Activating) && bool_decide (rt_sub rt = SubStart) &&
                                     bool_decide (service_type (rt_unit rt) = TypeOneshot) |} in
    let i := fresh (dom (m_plans m)) in
    (hold 1 (m <| m_plans := <[i := plan]> (m_plans m) |>) r, <[name := (i, r)]> plans)
  end.

(** The flight of an explicit start that is still good to join. *)
Definition joinable (name : string) (r : address) (m : Manager) : option string :=
  match startFlights m !! name with
  | Some f => if bool_decide (fl_record f = r) && (fl_stopEpoch f =? stopEpoch (deref m r)) &&
                 bool_decide (fl_revision f = m_configRevision m) then Some (fl_id f) else None
  | None => None
  end.

(** The start proper, after the checks and the plans. *)
Definition admit_start (name : string) (r : address) (origin : option activationOrigin) (restart : bool) (tx : Transaction)
    (stop : option Transaction) (m : Manager) : Manager * startWork :=
  let m := m <| activeStarts := activeStarts m + 1 |> in
  let m := match stop with Some plan => disarmStopScopeLocked plan m | None => m end in
  let '(m, plans) := foldl (plan_member origin restart) (m, ∅) (Units (Some tx)) in
  let retained := match origin with Some (restartOrigin members) => (λ p, p.2.1) <$> map_range 29 members | _ => [] end in
  let m := foldl (hold 1) m retained in
  let '(m, id) := beginOperationLocked (Units (Some tx) ++ Units stop) m in
  let m := match origin with
           | None => if restart then m
                     else m <| startFlights := <[name := {| fl_id := id; fl_record := r; fl_stopEpoch := stopEpoch (deref m r);
                                                            fl_revision := m_configRevision m |}]> (startFlights m) |>
           | Some _ => m
           end in
  (beginOperationTaskLocked id (Some (fst <$> plans)) m,
   {| sw_id := id; sw_tx := tx; sw_stop := stop; sw_plans := plans; sw_retained := retained |}).

Definition startOperation (ctx_err : option error) (name : string) (origin : option activationOrigin) (restart : bool)
    (m : Manager) : Manager * result admission :=
  if decide (is_Some ctx_err) then (m, Fail (default ErrSkipped ctx_err))
  else if m_closed m then (m, Fail (ErrText "manager is shutting down or closed"))
  else if decide (AdmissionHold m ≠ "") then (m, Fail (ErrFmt "admission is held: %s" [AdmissionHold m]))
  else if match origin with Some o => negb (validLocked o m) | None => false end then (m, Fail (ErrText "activation superseded"))
  else match m_units m !! name, m_graph m with
  | None, _ => (m, Fail (ErrFmt "unit %s not found" [name]))
  | Some _, None => (m, Fail (ErrText "no units loaded"))
  | Some r, Some g =>
    match (if bool_decide (origin = None) && negb restart then joinable name r m else None) with
    | Some id => (m, Ok (Joined id))
    | None =>
      let limit := if MaxStartTransactions m =? 0 then DefaultMaxStartTransactions else MaxStartTransactions m in
      if limit <=? activeStarts m then (m, Fail (ErrText "start transaction capacity exhausted"))
      else
        let planned := if restart
                       then (match planRestartLocked name m with
                             | Ok (stop, roots, members) => Ok (Some stop, roots, Some (restartOrigin members))
                             | Fail e => Fail e
                             end)
                       else Ok (None, [name], origin) in
        match planned with
        | Fail e => (m, Fail e)
        | Ok (stop, roots, origin) =>
          match PlanStart (Some g) roots with
          | Fail e => (m, Fail e)
          | Ok tx => let '(m, w) := admit_start name r origin restart tx stop m in (m, Ok (Accepted w))
          end
        end
    end
  end.

(** The records a start holds until it is finished. *)
Definition start_records (w : startWork) : list address :=
  ((λ p, p.2.2) <$> map_range 33 (sw_plans w)) ++ sw_retained w.
Definition finishStart (name : string) (w : startWork) (m : Manager) : Manager :=
  finishOperationTask name (sw_id w) (λ m,
    let m := signalStartCapacityLocked (m <| activeStarts := activeStarts m - 1 |>) in
    foldl (hold (-1)) m (start_records w)) m.

(** ** shutdown.go: stops *)

(** The stop proper; the references it holds are returned. *)
Definition admit_stop (plan : Transaction) (m : Manager) : Manager * (string * list address) :=
  let m := disarmStopScopeLocked plan (m <| activeStops := activeStops m + 1 |>) in
  let retained := omap (λ n, m_units m !! n) (Units (Some plan)) in
  let m := foldl (hold 1) m retained in
  let '(m, id) := beginOperationLocked (Units (Some plan)) m in
  (beginOperationTaskLocked id None m, (id, retained)).

Definition stopTransaction (ctx_err : option error) (name : string) (m : Manager) :
    Manager * result (string * Transaction * list address) :=
  if decide (is_Some ctx_err) then (m, Fail (default ErrSkipped ctx_err))
  else match m_units m !! name, m_graph m with
  | None, _ => (m, Fail (ErrFmt "unit %s not found" [name]))
  | Some _, None => (m, Fail (ErrText "no units loaded"))
  | Some _, Some _ =>
    let limit := if MaxStopTransactions m =? 0 then DefaultMaxStopTransactions else MaxStopTransactions m in
    if limit <=? activeStops m then (m, Fail (ErrText "stop transaction capacity exhausted"))
    else match (g <-? stopGraphLocked m ;; PlanStop (Some g) [name])%go with
    | Fail e => (m, Fail e)
    | Ok plan => let '(m, (id, retained)) := admit_stop plan m in (m, Ok (id, plan, retained))
    end
  end.
Definition finishStop (name id : string) (retained : list address) (m : Manager) : Manager :=
  finishOperationTask name id (λ m, foldl (hold (-1)) (m <| activeStops := activeStops m - 1 |>) retained) m.

(** ** lifecycle_bound.go: the worker *)

Definition member_current (b : boundStopMember) (m : Manager) : bool :=
  currentLocked (bs_owner b) m && (stopEpoch (deref m (id_record (bs_owner b))) =? bs_epoch b).

(** It takes the members; with none it ends. *)
Definition takeBoundStops (m : Manager) : Manager * gmap string boundStopMember :=
  (if decide (boundStops m = ∅) then m <| m_boundRunning := false |> else m <| boundStops := ∅ |>, boundStops m).
Definition beginBoundStops (members : gmap string boundStopMember) (m : Manager) : Manager * string :=
  let '(m, id) := beginOperationLocked [] m in
  let m := foldl (λ m p, if member_current p.2 m
                         then upd (id_record (bs_owner p.2)) (λ rt, rt <| lastOperationID := id |>) m else m)
             m (map_range 30 members) in
  (beginOperationTaskLocked id None m, id).
Definition failBoundStops (members : gmap string boundStopMember) (e : error) (m : Manager) : Manager :=
  foldl (λ m p, if member_current p.2 m
                then upd (id_record (bs_owner p.2)) (λ rt, rt <| rt_err := Some (ErrWrap "bound dependency stop: " e) |>) m else m)
    m (map_range 31 members).
Definition bound_records (members : gmap string boundStopMember) : list address :=
  (λ p, id_record (bs_owner p.2)) <$> map_range 32 members.
Definition finishBoundStops (name id : string) (members : gmap string boundStopMember) (m : Manager) : Manager :=
  finishOperationTask name id (λ m, foldl (hold (-1)) m (bound_records members)) m.

End operations.
