(* ===== verification/ManagerFrame.v ===== *)
(** * Package manager: what a decision keeps

    [frame]: the relation between the manager before and after a decision that
    the theorems of [ManagerSystem] are about.  A decision keeps the loaded names;
    it drops the process of a record only when that process is gone; it leads from
    legal states to legal states; it does not make a unit active that is being
    stopped, nor any unit once the manager is closed; and it balances the
    references that records count in [operations] against the members of bound
    stops, the queries of native targets and the stop helpers. *)

From S2P Require Import Prelude GoStrings UnitTypes UnitNames CoreState CoreGraph CorePlan ManagerState.

#[local] Open Scope Z_scope.

(** ** Records *)

Definition legal (rt : unitRuntime) : Prop := (rt_state rt, rt_sub rt) ∈ lifecycle_states.

(** [P] tells the processes that may be dropped; [free] that activity is not
    restricted by the closed manager; [exempt] that a stop may be overruled. *)
Record kept (P : Process → Prop) (closed : bool) (exempt : Prop) (rt rt' : unitRuntime) : Prop := {
  kept_proc : rt_proc rt' = rt_proc rt ∨ (rt_proc rt' = None ∧ ∀ p, rt_proc rt = Some p → P p);
  kept_legal : legal rt → legal rt';
  kept_active : ¬ exempt → closed = true ∨ stopping rt = true → rt_state rt' = Active → rt_state rt = Active;
  kept_stop : ¬ exempt → stopping rt = true → stopping rt' = true;
}.

Definition evolves P closed exempt (rt rt' : unitRuntime) : Prop :=
  kept P closed exempt rt rt' ∧ operations rt' = operations rt.

(** The fields [evolves] is about. *)
Definition view (rt : unitRuntime) : option Process * Z * State * Substate * bool :=
  (rt_proc rt, operations rt, rt_state rt, rt_sub rt, stopping rt).

Section records.
Context (P : Process → Prop) (closed : bool) (exempt : Prop).
Implicit Types rt : unitRuntime.

Lemma kept_refl rt : kept P closed exempt rt rt.
Proof. split; auto. Qed.

Lemma kept_trans c2 rt1 rt2 rt3 : (closed = true → c2 = true) →
  kept P closed exempt rt1 rt2 → kept P c2 exempt rt2 rt3 → kept P closed exempt rt1 rt3.
Proof.
  intros Hc [p1 l1 a1 s1] [p2 l2 a2 s2]. split.
  - destruct p2 as [->|[-> H2]]; [exact p1|]. right. split; [done|].
    destruct p1 as [<-|[_ ?]]; auto.
  - auto.
  - intros He Hs Hact. apply (a1 He Hs), (a2 He); [|done]. destruct Hs as [?|?]; auto.
  - auto.
Qed.

Lemma evolves_refl rt : evolves P closed exempt rt rt.
Proof. split; [apply kept_refl|done]. Qed.

Lemma evolves_trans rt1 rt2 rt3 :
  evolves P closed exempt rt1 rt2 → evolves P closed exempt rt2 rt3 → evolves P closed exempt rt1 rt3.
Proof. intros [H1 O1] [H2 O2]. split; [by apply (kept_trans closed rt1 rt2)|congruence]. Qed.

Lemma evolves_view rt rt1 rt2 : view rt2 = view rt1 → evolves P closed exempt rt rt1 → evolves P closed exempt rt rt2.
Proof.
  intros E H. eapply evolves_trans; [exact H|]. unfold view in E. injection E as Ep Eo Es Eb Et.
  split; [split|congruence]; [left; congruence|unfold legal; congruence|congruence|congruence].
Qed.

Lemma evolves_drop rt rt1 : (∀ p, rt_proc rt1 = Some p → P p) →
  evolves P closed exempt rt rt1 → evolves P closed exempt rt (rt1 <| rt_proc := None |>).
Proof. intros Hp H. eapply evolves_trans; [exact H|]. split; [split; auto|done]. Qed.

Lemma kept_hold rt rt1 z : evolves P closed exempt rt rt1 → kept P closed exempt rt (rt1 <| operations := z |>).
Proof. intros [H _]. apply (kept_trans closed _ rt1); [done|done|]. split; auto. Qed.

Lemma evolves_stop rt rt1 :
  evolves P closed exempt rt rt1 → evolves P closed exempt rt (rt1 <| stopping := true |>).
Proof. intros H. eapply evolves_trans; [exact H|]. split; [split; auto|done]. Qed.

(** Only [EventStartSucceeded] leads to an active unit. *)
Lemma Step_state s sub ev s' sub' : Step s sub ev = (s', sub', None) →
  (s', sub') ∈ lifecycle_states ∧ (s' = Active → ev = EventStartSucceeded).
Proof.
  intros H. split; [apply (lifecycle_closed (s, sub) (s', sub')); by exists ev|].
  intros ->. unfold Step in H. destruct ev, s; simpl in H; repeat case_decide; simplify_eq/=; done.
Qed.

Lemma step_view ev rt :
  rt_proc (step ev rt).1 = rt_proc rt ∧ operations (step ev rt).1 = operations rt ∧ stopping (step ev rt).1 = stopping rt ∧
  (legal rt → legal (step ev rt).1) ∧
  (rt_state (step ev rt).1 = Active → rt_state rt = Active ∨ ev = EventStartSucceeded).
Proof.
  unfold step. destruct (Step (rt_state rt) (rt_sub rt) ev) as [[s sub] [e|]] eqn:E; cbn; [by eauto 10|].
  destruct (Step_state _ _ _ _ _ E) as [Hl Ha]. repeat split; auto.
Qed.

Lemma evolves_step ev rt rt1 :
  (ev = EventStartSucceeded → closed = false ∧ stopping rt1 = false) →
  evolves P closed exempt rt rt1 → evolves P closed exempt rt (step ev rt1).1.
Proof.
  intros Hev H. eapply evolves_trans; [exact H|]. destruct (step_view ev rt1) as (Ep & Eo & Es & Hl & Ha).
  split; [split|done]; [by left|done| |by rewrite Es].
  intros _ Hc Hact. destruct (Ha Hact) as [?|E]; [done|]. destruct (Hev E) as [-> Hs]. rewrite Hs in Hc. by destruct Hc.
Qed.

Lemma publish_view s rt :
  rt_proc (publishStartOutcome s rt) = rt_proc rt ∧ operations (publishStartOutcome s rt) = operations rt ∧
  stopping (publishStartOutcome s rt) = stopping rt ∧ (legal rt → legal (publishStartOutcome s rt)) ∧
  (rt_state (publishStartOutcome s rt) = Active → rt_state rt = Active ∨ s = Active).
Proof.
  unfold publishStartOutcome, legal. destruct s; cbn; [set_solver|by auto 6|set_solver|by auto 6|].
  destruct (bool_decide_reflect (rt_state rt = Failed)) as [->|]; [|cbn; set_solver].
  destruct (bool_decide_reflect (rt_sub rt = SubWatchdog)) as [E|]; cbn; [rewrite E|]; set_solver.
Qed.

Lemma evolves_publish s rt rt1 : (s = Active → closed = false ∧ stopping rt1 = false) →
  evolves P closed exempt rt rt1 → evolves P closed exempt rt (publishStartOutcome s rt1).
Proof.
  intros Hev H. eapply evolves_trans; [exact H|]. destruct (publish_view s rt1) as (Ep & Eo & Es & Hl & Ha).
  split; [split|done]; [by left|done| |by rewrite Es].
  intros _ Hc Hact. destruct (Ha Hact) as [?|E]; [done|]. destruct (Hev E) as [-> Hs]. rewrite Hs in Hc. by destruct Hc.
Qed.

Lemma evolves_inactive rt rt1 :
  evolves P closed exempt rt rt1 → evolves P closed exempt rt (rt1 <| rt_state := Inactive |> <| rt_sub := SubNone |>).
Proof.
  intros H. eapply evolves_trans; [exact H|]. split; [split|done]; [by left| |done|done]. intros _. unfold legal. cbn. set_solver.
Qed.

Lemma evolves_record_start now rt rt1 :
  evolves P closed exempt rt rt1 → evolves P closed exempt rt (recordStartLocked now rt1).
Proof. apply evolves_view. unfold recordStartLocked. by destruct (startLimitOf _). Qed.

End records.

(** What the conditions of a branch say. *)
Ltac guards :=
  repeat match goal with
  | H : _ || _ = false |- _ => apply orb_false_iff in H as [? ?]
  | H : _ && _ = true |- _ => apply andb_true_iff in H as [? ?]
  | H : negb _ = false |- _ => apply negb_false_iff in H
  | H : negb _ = true |- _ => apply negb_true_iff in H
  | H : bool_decide _ = true |- _ => apply bool_decide_eq_true in H
  | H : bool_decide _ = false |- _ => apply bool_decide_eq_false in H
  end.

(** [x] after an update that [view] does not show, whatever [x] is. *)
Ltac unseen x :=
  lazymatch goal with |- ?G =>
    lazymatch eval pattern x in G with ?f x =>
      let H := fresh in assert (H : ∀ u, f u) by (intros ?; reflexivity); exact (H x)
    end
  end.

(** Record updates, from the outside in.  Conditions are split; what a success
    of a start or the loss of a process needs is left to the caller. *)
Ltac evolve :=
  cbv beta;
  repeat first
    [ apply evolves_refl
    | lazymatch goal with
      | |- evolves ?P ?c ?e ?rt (let x := ?a in @?b x) =>
        let t := eval cbv beta in (evolves P c e rt (b a)) in
        lazymatch type of a with
        | unitRuntime =>
          let y := fresh "rt" in let H := fresh in
          assert (H : evolves P c e rt a); [|change t; revert H; generalize a; intros y H]
        | _ => change t
        end
      end
    | apply evolves_stop
    | apply evolves_inactive
    | apply evolves_record_start
    | apply evolves_drop; [intros ? ?|]
    | apply evolves_step; [first [discriminate|intros ?]|]
    | apply evolves_publish; [first [discriminate|intros ?]|]
    | match goal with
      | |- evolves _ _ _ ?rt ?x => is_var x; eassumption
      | |- evolves _ _ _ _ (if ?b then _ else _) => destruct b eqn:?
      | |- evolves _ _ _ _ (match step ?ev ?rt with _ => _ end) =>
        rewrite (surjective_pairing (step ev rt)); cbv beta iota
      | |- evolves _ _ _ _ (put _ ?x) => apply (evolves_view _ _ _ _ x); [unseen x|]
      | |- evolves _ _ _ _ (setCleanup _ _ ?x) => apply (evolves_view _ _ _ _ x); [unseen x|]
      | |- evolves _ _ _ _ (match ?x with _ => _ end) => destruct x eqn:?
      end ].

(** ** References *)

Definition count `{Countable K} {A} (Q : A → bool) (m : gmap K A) : Z := Z.of_nat (size (filter (λ p, Q p.2 = true) m)).

Lemma count_insert `{Countable K} {A} (Q : A → bool) (m : gmap K A) k v :
  count Q (<[k := v]> m) = count Q (delete k m) + Z.b2z (Q v).
Proof.
  unfold count. rewrite <-insert_delete_eq. destruct (Q v) eqn:E.
  - rewrite map_filter_insert_True by done. rewrite map_size_insert_None; [cbn; lia|].
    apply map_lookup_filter_None. left. apply lookup_delete_eq.
  - rewrite map_filter_insert_False by (cbn; congruence). by rewrite delete_delete_eq, Z.add_0_r.
Qed.

Lemma count_delete `{Countable K} {A} (Q : A → bool) (m : gmap K A) k :
  count Q m = count Q (delete k m) + match m !! k with Some v => Z.b2z (Q v) | None => 0 end.
Proof.
  destruct (m !! k) as [v|] eqn:E; [|by rewrite delete_id, Z.add_0_r].
  rewrite <-count_insert. f_equal. symmetry. by apply insert_id.
Qed.

Lemma count_nonneg `{Countable K} {A} (Q : A → bool) (m : gmap K A) : 0 ≤ count Q m.
Proof. unfold count. lia. Qed.

Lemma count_pos `{Countable K} {A} (Q : A → bool) (m : gmap K A) k v : m !! k = Some v → Q v = true → 1 ≤ count Q m.
Proof. intros E Hv. rewrite (count_delete Q m k), E, Hv. pose proof (count_nonneg Q (delete k m)). cbn. lia. Qed.

Lemma count_empty `{Countable K} {A} (Q : A → bool) : count Q (∅ : gmap K A) = 0.
Proof. unfold count. by rewrite map_filter_empty, map_size_empty. Qed.

Definition of_bound (r : address) (b : boundStopMember) : bool := bool_decide (id_record (bs_owner b) = r).
Definition of_helper (r : address) (w : stopHelperWork) : bool := bool_decide (id_record (sh_owner w) = r).

Lemma b2z_address (r r' : address) : Z.b2z (bool_decide (r = r')) = if decide (r' = r) then 1 else 0.
Proof. destruct (decide (r' = r)) as [->|]; [by rewrite bool_decide_eq_true_2|by rewrite bool_decide_eq_false_2 by congruence]. Qed.

(** The references to a record that the manager's own tables account for. *)
Definition tabled (m : Manager) (r : address) : Z :=
  count (of_bound r) (boundStops m) + Z.b2z (bool_decide (is_Some (nativeProbes m !! r))) + count (of_helper r) (stopHelpers m).

(** The references that are held by workers. *)
Definition free (m : Manager) (r : address) : Z := operations (deref m r) - tabled m r.

Lemma tabled_nonneg m r : 0 ≤ tabled m r.
Proof.
  unfold tabled. pose proof (count_nonneg (of_bound r) (boundStops m)). pose proof (count_nonneg (of_helper r) (stopHelpers m)).
  destruct (bool_decide _); cbn; lia.
Qed.

(** A cleanup that reports success did so for a process that may be dropped. *)
Definition confirmed (P : Process → Prop) (process : option Process) (err : option error) : Prop :=
  err = None → ∀ p, process = Some p → P p.

Lemma sameOp_proc gen proc rt p : sameOp gen proc rt = true → rt_proc rt = Some p → proc = Some p.
Proof.
  unfold sameOp. intros H E. apply andb_true_iff in H as [_ H]. rewrite E in H.
  apply orb_true_iff in H as [H|H]; apply bool_decide_eq_true in H; congruence.
Qed.

Ltac gone HP := guards; apply HP; [congruence|]; first [congruence|by eapply sameOp_proc].

(** ** Managers *)

Record frame (P : Process → Prop) (L : option address) (d : address → Z) (m m' : Manager) : Prop := {
  f_units : m_units m' = m_units m;
  f_closed : m_closed m = true → m_closed m' = true;
  f_dom : dom (m_heap m) ⊆ dom (m_heap m');
  f_rec r : kept P (m_closed m) (L = Some r) (deref m r) (deref m' r);
  f_free r : free m' r = free m r + d r;
}.

(** The references [rs] as a change. *)
Definition refs (c : Z) (rs : list address) (r : address) : Z := c * Z.of_nat (length (filter (λ r', r' = r) rs)).

(** The fields of the manager [frame] is about. *)
Definition tables (m : Manager) :=
  (m_units m, m_heap m, m_closed m, boundStops m, nativeProbes m, stopHelpers m).

Lemma deref_upd r f m r' : deref (upd r f m) r' = if decide (r' = r) then f (deref m r) else deref m r'.
Proof.
  unfold deref at 1, upd. cbn. destruct (decide (r' = r)) as [->|]; [by rewrite lookup_insert_eq|by rewrite lookup_insert_ne].
Qed.

Lemma deref_upd_eq r f m : deref (upd r f m) r = f (deref m r).
Proof. rewrite deref_upd. by rewrite decide_True. Qed.

Section frames.
Context (P : Process → Prop) (L : option address).
#[local] Notation frame := (frame P L).
#[local] Notation quiet := (frame (λ _, 0)).
Implicit Types m : Manager.

Lemma frame_weaken d d' m m' : (∀ r, d r = d' r) → frame d m m' → frame d' m m'.
Proof. intros Hd [? ? ? ? Hf]. split; auto. intros r. by rewrite Hf, Hd. Qed.

Lemma frame_trans d1 d2 m1 m2 m3 : frame d1 m1 m2 → frame d2 m2 m3 → frame (λ r, d1 r + d2 r) m1 m3.
Proof.
  intros [u1 c1 h1 k1 f1] [u2 c2 h2 k2 f2]. split; [congruence|auto|set_solver| |].
  - intros r. by eapply kept_trans.
  - intros r. rewrite f2, f1. lia.
Qed.

Lemma still_trans m1 m2 m3 : quiet m1 m2 → quiet m2 m3 → quiet m1 m3.
Proof. intros H1 H2. eapply frame_weaken; [|by eapply frame_trans]. done. Qed.

Lemma quiet_tables m m' : tables m' = tables m → quiet m m'.
Proof.
  unfold tables. intros E. injection E as Eu Eh Ec Eb En Es.
  assert (Hd : ∀ r, deref m' r = deref m r) by (intros r; unfold deref; by rewrite Eh).
  split; [done|congruence|by rewrite Eh|intros r; rewrite Hd; apply kept_refl|].
  intros r. unfold free, tabled. rewrite Hd, Eb, En, Es. lia.
Qed.

Lemma still_refl m : quiet m m.
Proof. by apply quiet_tables. Qed.

Lemma quiet_upd r f m :
  evolves P (m_closed m) (L = Some r) (deref m r) (f (deref m r)) → quiet m (upd r f m).
Proof.
  intros [Hk Ho]. split; [done|done|cbn; set_solver| |].
  - intros r'. rewrite deref_upd. case_decide; [by subst|apply kept_refl].
  - intros r'. unfold free. rewrite deref_upd. case_decide; [subst; rewrite Ho|]; unfold tabled; cbn; lia.
Qed.

Lemma quiet_foldl {A} (f : Manager → A → Manager) l m : (∀ m x, quiet m (f m x)) → quiet m (foldl f m l).
Proof.
  intros Hf. revert m. induction l as [|x l IH]; intros m; cbn; [apply still_refl|]. eapply still_trans; [apply Hf|apply IH].
Qed.

Lemma quiet_cancel c m : quiet m (cancel c m).
Proof. destruct c; by apply quiet_tables. Qed.

Lemma quiet_cancelRestart r m : quiet m (cancelRestart r m).
Proof.
  unfold cancelRestart. cbv zeta. eapply still_trans; [|apply quiet_cancel].
  eapply still_trans; apply quiet_upd; evolve.
Qed.

(** References taken and given up, and changes of the tables. *)
Lemma frame_upd c r f m :
  kept P (m_closed m) (L = Some r) (deref m r) (f (deref m r)) → operations (f (deref m r)) = operations (deref m r) + c →
  frame (λ r', if decide (r' = r) then c else 0) m (upd r f m).
Proof.
  intros Hk Ho. split; [done|done|cbn; set_solver| |]; intros r'.
  - rewrite deref_upd. case_decide; [by subst|apply kept_refl].
  - unfold free. rewrite deref_upd. unfold tabled. cbn. case_decide; [subst; rewrite Ho|]; lia.
Qed.

Lemma frame_hold c r m :
  frame (λ r', if decide (r' = r) then c else 0) m (upd r (λ rt, rt <| operations := operations rt + c |>) m).
Proof. apply frame_upd; [split; auto|done]. Qed.

Lemma frame_boundStops b m :
  frame (λ r, count (of_bound r) (boundStops m) - count (of_bound r) b) m (m <| boundStops := b |>).
Proof. split; [done|done|done|intros r; apply kept_refl|]. intros r. unfold free, tabled, deref. cbn -[count Z.b2z]. lia. Qed.

Lemma frame_helpers b m :
  frame (λ r, count (of_helper r) (stopHelpers m) - count (of_helper r) b) m (m <| stopHelpers := b |>).
Proof. split; [done|done|done|intros r; apply kept_refl|]. intros r. unfold free, tabled, deref. cbn -[count Z.b2z]. lia. Qed.

Lemma frame_probes b m :
  frame (λ r, Z.b2z (bool_decide (is_Some (nativeProbes m !! r))) - Z.b2z (bool_decide (is_Some (b !! r)))) m
    (m <| nativeProbes := b |>).
Proof. split; [done|done|done|intros r; apply kept_refl|]. intros r. unfold free, tabled, deref. cbn -[count Z.b2z]. lia. Qed.

End frames.

(** Manager updates, from the outside in; a condition is split, and a manager
    that is named by [let] is handled before the rest. *)
Tactic Notation "enter" reference(f) := cbv beta delta [f].
Ltac quiet_let P L d m a goal_of :=
  match type of a with
  | Manager =>
    assert_fails (is_var a);
    let m' := fresh "m" in let H := fresh "H" m' in
    assert (H : frame P L d m a);
      [|let t := eval cbv beta in (goal_of a) in change t; revert H; generalize a; intros m' H;
        apply (still_trans P L m m'); [exact H|clear H]]
  | _ => let t := eval cbv beta in (goal_of a) in change t
  end.
Ltac quiet_match x :=
  lazymatch x with
  | step ?ev ?rt => rewrite (surjective_pairing (step ev rt)); cbv beta iota
  | new_context ?m => change (new_context m) with (m <| m_context := S (m_context m) |>, m_context m); cbv beta iota
  | _ => destruct x eqn:?
  end.
Ltac quiet_step :=
  lazymatch goal with
  | |- frame ?P ?L ?d ?m ?m => apply still_refl
  | |- frame ?P ?L ?d ?m (fst (?a, ?b)) => change (frame P L d m a)
  | |- frame ?P ?L ?d ?m (let x := ?a in @?b x) => quiet_let P L d m a (λ x, frame P L d m (b x))
  | |- frame ?P ?L ?d ?m (fst (let x := ?a in @?b x)) => quiet_let P L d m a (λ x, frame P L d m (fst (b x)))
  | |- frame _ _ _ _ (fst (if ?b then _ else _)) => destruct b eqn:?
  | |- frame _ _ _ _ (if ?b then _ else _) => destruct b eqn:?
  | |- frame _ _ _ _ (fst (match ?x with _ => _ end)) => quiet_match x
  | |- frame _ _ _ _ (match ?x with _ => _ end) => quiet_match x
  | |- frame ?P ?L _ ?m (upd ?r ?f ?m') => apply (still_trans P L m m'); [|apply quiet_upd; evolve]
  | |- frame ?P ?L _ ?m (cancel ?c ?m') => apply (still_trans P L m m'); [|apply quiet_cancel]
  | |- frame ?P ?L _ ?m (cancelRestart ?r ?m') => apply (still_trans P L m m'); [|apply quiet_cancelRestart]
  | |- frame ?P ?L _ ?m (put _ ?m') => apply (still_trans P L m m'); [|apply quiet_tables; reflexivity]
  | |- frame ?P ?L _ ?m (signalStartCapacityLocked ?m') => apply (still_trans P L m m'); [|apply quiet_tables; reflexivity]
  end.
(** A decision that has its own lemma. *)
Ltac quiet_known :=
  lazymatch goal with
  | |- frame ?P ?L _ ?m (fst (?F ?m')) => apply (still_trans P L m m'); [|solve [auto 2 with frames]]
  | |- frame ?P ?L _ ?m (?F ?m') => apply (still_trans P L m m'); [|solve [auto 2 with frames]]
  end.
Ltac quiet := repeat first [quiet_step | quiet_known].
Create HintDb frames.
