(* ===== verification/ManagerFrames.v ===== *)
(** * Package manager: the decisions keep

    Every decision of [ManagerState], [ManagerEvents], [ManagerLaunch], [ManagerConfig] and
    [ManagerOperations] that does not take or give up a reference of a worker is a
    [frame] without change of references. *)

From S2P Require Import Prelude GoStrings Calendar UnitTypes UnitNames CoreState CoreGraph CorePlan ManagerState ManagerEvents ManagerLaunch ManagerConfig ManagerOperations ManagerFrame.

#[local] Open Scope Z_scope.

Section state.
Context {NM : Naming} {MR : MapRange}.
Context (cc : handle → bool) (ec : string → Z → bool).
Context (P : Process → Prop) (L : option address).
#[local] Notation quiet := (frame P L (λ _, 0)).
Implicit Types m : Manager.

Lemma quiet_disarmStart name m : quiet m (disarmStartLocked name m).
Proof. enter disarmStartLocked. quiet. Qed.
#[local] Hint Resolve quiet_disarmStart : frames.

Lemma quiet_disarmStopScope plan m : quiet m (disarmStopScopeLocked plan m).
Proof. apply quiet_foldl. auto with frames. Qed.

Lemma quiet_fail_bound_plan e m name : quiet m (fail_bound_plan e m name).
Proof. enter fail_bound_plan. quiet. Qed.

(** Disarming leaves the queue of bound stops alone. *)
Lemma disarmStart_bound name m : boundStops (disarmStartLocked name m) = boundStops m.
Proof.
  unfold disarmStartLocked. destruct (m_units m !! name); [|done]. cbv zeta. unfold cancelRestart, cancel.
  by repeat case_match.
Qed.

Lemma of_bound_b2z b r' : Z.b2z (of_bound r' b) = if decide (r' = id_record (bs_owner b)) then 1 else 0.
Proof. apply b2z_address. Qed.

(** A queued member takes the reference that a replaced one gives up. *)
Lemma quiet_queue_bound_stop m name : quiet m (queue_bound_stop m name).
Proof.
  unfold queue_bound_stop. destruct (m_units m !! name) as [r|]; [|apply still_refl].
  cbv zeta.
  do 2 (match goal with |- frame _ _ _ _ (if ?b then _ else _) => destruct b end; [apply still_refl|]).
  set (m1 := match boundStops m !! name with Some old => _ | None => m end).
  assert (frame P L (λ r', - match boundStops m !! name with Some old => Z.b2z (of_bound r' old) | None => 0 end) m m1 ∧
               boundStops m1 = boundStops m) as [H1 B1].
  { subst m1. destruct (boundStops m !! name) as [old|]; [|split; [apply still_refl|done]]. split; [|done].
    eapply frame_weaken; [|apply frame_hold]. intros r'. rewrite of_bound_b2z. by case_decide. }
  generalize dependent m1. intros m1 H1 B1.
  eapply frame_weaken; [|eapply frame_trans; [exact H1|]; eapply frame_trans; [apply (quiet_disarmStart name)|];
                         eapply frame_trans; [apply (frame_hold _ _ 1 r)|apply frame_boundStops]].
  intros r'. cbn -[Z.b2z]. rewrite disarmStart_bound, B1, count_insert, (count_delete (of_bound r') (boundStops m) name).
  rewrite of_bound_b2z. cbn -[Z.b2z]. destruct (boundStops m !! name); case_decide; lia.
Qed.

Lemma quiet_queueBoundStops peer m : quiet m (queueBoundStopsLocked cc peer m).
Proof.
  enter queueBoundStopsLocked. quiet; apply quiet_foldl; auto using quiet_queue_bound_stop, quiet_fail_bound_plan.
Qed.
#[local] Hint Resolve quiet_queueBoundStops : frames.

Lemma quiet_failStartLimit r m : quiet m (failStartLimitLocked cc r m).
Proof. enter failStartLimitLocked. quiet. Qed.

End state.

#[export] Hint Resolve quiet_disarmStart quiet_disarmStopScope quiet_queueBoundStops quiet_failStartLimit : frames.

(** Processes are kept by what keeps them whatever may be dropped. *)
Lemma frame_proc L d m m' r : frame (λ _, False) L d m m' → rt_proc (deref m' r) = rt_proc (deref m r).
Proof. intros H. destruct (kept_proc _ _ _ _ _ (f_rec _ _ _ _ _ H r)) as [?|[-> Hn]]; [done|]. destruct (rt_proc (deref m r)); [by destruct (Hn p)|done]. Qed.

(** ** Events *)

Section events.
Context {NM : Naming} {MR : MapRange}.
Context (cc : handle → bool) (ec : string → Z → bool).
Context (P : Process → Prop) (L : option address).
#[local] Notation quiet := (frame P L (λ _, 0)).
Implicit Types m : Manager.

Lemma quiet_reapFailed m : quiet m (reapFailedLocked m).
Proof. apply quiet_foldl. intros m' p. enter reap_failed. quiet. Qed.
#[local] Hint Resolve quiet_reapFailed : frames.

Lemma quiet_startNativeProbes m : quiet m (startNativeProbesLocked m).
Proof. enter startNativeProbesLocked. quiet. Qed.
#[local] Hint Resolve quiet_startNativeProbes : frames.

Lemma quiet_applyStartOutcome name state failed launched msg m : m_closed m = false →
  quiet m (applyStartOutcomeLocked cc name state failed launched msg m).
Proof.
  intros Hc. unfold applyStartOutcomeLocked, outcome_ignored. quiet; subst; guards; auto.
Qed.
#[local] Hint Resolve quiet_applyStartOutcome : frames.

Lemma quiet_applyStartCompletion event m : quiet m (applyStartCompletionLocked cc ec event m).
Proof.
  enter applyStartCompletionLocked. quiet; apply quiet_applyStartOutcome; by guards.
Qed.
#[local] Hint Resolve quiet_applyStartCompletion : frames.

Lemma quiet_applyStartRejection event m : quiet m (applyStartRejection cc ec event m).
Proof. enter applyStartRejection. quiet. Qed.

Lemma quiet_applyStopCleanup owner process err m : confirmed P process err → quiet m (applyStopCleanup owner process err m).
Proof. intros HP. enter applyStopCleanup. quiet; gone HP. Qed.

Lemma quiet_applyStopCompletion owner process err m : quiet m (applyStopCompletion owner process err m).1.
Proof. enter applyStopCompletion. quiet. Qed.

Lemma quiet_acceptProcessExitCleanup name proc m : quiet m (acceptProcessExitCleanup cc name proc m).1.
Proof. enter acceptProcessExitCleanup. quiet. Qed.

Lemma quiet_applyProcessExitCleanup effect err m : confirmed P (ef_process effect) err →
  quiet m (applyProcessExitCleanup cc effect err m).1.
Proof. intros HP. enter applyProcessExitCleanup. quiet; gone HP. Qed.

Lemma quiet_applyProcessExit owner service wait limitHit suppressed m :
  quiet m (applyProcessExit cc owner service wait limitHit suppressed m).1.
Proof. enter applyProcessExit. quiet. Qed.

Lemma quiet_acceptWatchdogFailure owner m : quiet m (acceptWatchdogFailure cc owner m).1.
Proof. enter acceptWatchdogFailure. quiet. Qed.

Lemma quiet_applyWatchdogCleanup effect err m : confirmed P (ef_process effect) err →
  quiet m (applyWatchdogCleanup effect err m).1.
Proof. intros HP. enter applyWatchdogCleanup. quiet; gone HP. Qed.

Lemma quiet_acceptWatchdog name gen c m : quiet m (acceptWatchdog name gen c m).1.
Proof. enter acceptWatchdog. quiet. Qed.

Lemma quiet_detachWatchdog name m : quiet m (detachWatchdog name m).1.
Proof. enter detachWatchdog. quiet. Qed.

Lemma quiet_acceptProbeHealth owner success threshold m : quiet m (acceptProbeHealth owner success threshold m).1.
Proof. enter acceptProbeHealth. quiet. Qed.

Lemma quiet_acceptRecovery now request m : quiet m (acceptRecovery cc now request m).1.
Proof. enter acceptRecovery. quiet. Qed.

Lemma quiet_applyFailedProcessCleanup effect err m : confirmed P (Some (fp_process effect)) err →
  quiet m (applyFailedProcessCleanup effect err m).
Proof. intros HP. enter applyFailedProcessCleanup. quiet; gone HP. Qed.

Lemma quiet_acceptNotifyCleanup name m : quiet m (acceptNotifyCleanup name m).1.
Proof. enter acceptNotifyCleanup. quiet. Qed.

Lemma quiet_applyNotifyCleanup name n err m : quiet m (applyNotifyCleanup name n err m).
Proof. enter applyNotifyCleanup. quiet. Qed.

Lemma quiet_applyHubCleanup name h err m : quiet m (applyHubCleanup name h err m).
Proof. enter applyHubCleanup. quiet. Qed.

Lemma quiet_acceptHub name h m : quiet m (acceptHub name h m).1.
Proof. enter acceptHub. quiet. Qed.

Lemma quiet_acceptHubFailure name h err m : quiet m (acceptHubFailure cc name h err m).1.
Proof. enter acceptHubFailure. quiet. Qed.

Lemma quiet_acceptHubDisarm name m : quiet m (acceptHubDisarm name m).1.
Proof. enter acceptHubDisarm. quiet. Qed.

Lemma quiet_acceptNativeStart ctx_err now owner autoRestart m : quiet m (acceptNativeStart ctx_err now owner autoRestart m).1.
Proof. enter acceptNativeStart. quiet; by guards. Qed.

End events.

#[export] Hint Resolve quiet_startNativeProbes : frames.

(** ** Launches *)

Section launches.
Context {NM : Naming} {MR : MapRange}.
Context (cc : handle → bool) (ec : string → Z → bool).
Context (P : Process → Prop) (L : option address).
#[local] Notation quiet := (frame P L (λ _, 0)).
Implicit Types m : Manager.

Lemma quiet_applyPreviousCleanup effect err m : confirmed P (le_previous effect) err →
  quiet m (applyPreviousCleanup effect err m).1.
Proof. intros HP. enter applyPreviousCleanup. quiet; gone HP. Qed.

Lemma quiet_recordServiceLaunch now effect native m : quiet m (recordServiceLaunch now effect native m).
Proof. enter recordServiceLaunch. quiet. Qed.

Lemma quiet_recordInvocation effect invocation sid m : quiet m (recordInvocation effect invocation sid m).
Proof. enter recordInvocation. quiet. Qed.

Lemma quiet_recordInvocationUser effect sid m : quiet m (recordInvocationUser effect sid m).
Proof. enter recordInvocationUser. quiet. Qed.

Lemma quiet_failAccountStart effect err m : quiet m (failAccountStart effect err m).
Proof. enter failAccountStart. quiet. Qed.

Lemma quiet_adoptLaunchNotify effect n m : quiet m (adoptLaunchNotify effect n m).1.
Proof. enter adoptLaunchNotify. quiet. Qed.

Lemma quiet_applyLateLaunchCleanup effect proc err m : confirmed P (Some proc) err →
  quiet m (applyLateLaunchCleanup effect proc err m).
Proof. intros HP. enter applyLateLaunchCleanup. quiet; gone HP. Qed.

Lemma quiet_registerStartWait effect c m : quiet m (registerStartWait effect c m).1.
Proof. enter registerStartWait. quiet. Qed.

Lemma quiet_clearStartWait effect m : quiet m (clearStartWait effect m).
Proof. enter clearStartWait. quiet. Qed.

Lemma quiet_applyOneshotCleanup effect proc cleanupErr waitErr m : quiet m (applyOneshotCleanup effect proc cleanupErr waitErr m).
Proof. enter applyOneshotCleanup. quiet. Qed.

Lemma quiet_completeOneshot ctx_err now effect proc cleanupErr completionErr m : confirmed P (Some proc) cleanupErr →
  quiet m (completeOneshot cc ctx_err now effect proc cleanupErr completionErr m).1.
Proof.
  intros HP. enter completeOneshot. do 4 quiet_step; [apply still_refl|]. guards.
  lazymatch goal with |- context [let m := ?a in _] => set (m1 := a) end.
  assert (quiet m m1 ∧ rt_proc (deref m1 (id_record (le_owner effect))) = Some proc) as [Hq Hp].
  { subst m1. case_match; [|split; [apply still_refl|done]]. split; [apply quiet_queueBoundStops|].
    by rewrite (frame_proc L _ _ _ _ (quiet_queueBoundStops _ _ _ _ _)). }
  apply (still_trans P L m m1); [exact Hq|]. clearbody m1. clear Hq. quiet; [gone HP|by guards].
Qed.

Lemma quiet_acceptReadinessFailure effect proc err m : quiet m (acceptReadinessFailure cc effect proc err m).1.
Proof. enter acceptReadinessFailure. quiet. Qed.

Lemma quiet_applyReadinessCleanup effect proc err m : confirmed P (Some proc) err →
  quiet m (applyReadinessCleanup effect proc err m).
Proof. intros HP. enter applyReadinessCleanup. quiet; gone HP. Qed.

Lemma quiet_acceptProcessActivation ctx_err now effect proc m : quiet m (acceptProcessActivation ctx_err now effect proc m).1.
Proof. enter acceptProcessActivation. quiet; by guards. Qed.

Lemma quiet_attachMainCapture effect c m : quiet m (attachMainCapture effect c m).
Proof. enter attachMainCapture. quiet. Qed.

Lemma quiet_publishJournalCompletion name record c gen complete m :
  quiet m (publishJournalCompletion name record c gen complete m).
Proof. enter publishJournalCompletion. quiet. Qed.

End launches.

(** ** Configuration, native targets and shutdown *)

Section configuration.
Context {NM : Naming} {MR : MapRange}.
Context (cc : handle → bool) (arm : Unit → string → Z).
Context (P : Process → Prop) (L : option address).
#[local] Notation quiet := (frame P L (λ _, 0)).
Implicit Types m : Manager.

Lemma quiet_range site body m : (∀ name r m, quiet m (body name r m)) → quiet m (range_units site body m).
Proof. intros H. by apply quiet_foldl. Qed.

Lemma quiet_close m : quiet m (m <| m_closed := true |>).
Proof. split; [done|done|done|intros r; apply kept_refl|]. intros r. unfold free, tabled, deref. cbn -[count Z.b2z]. lia. Qed.

Lemma quiet_acceptTimerArm u revision m : quiet m (acceptTimerArmLocked arm u revision m).1.
Proof. enter acceptTimerArmLocked. quiet. Qed.

Lemma quiet_disarmTimer owner m : quiet m (disarmTimer owner m).
Proof. enter disarmTimer. quiet. Qed.

Lemma quiet_disarmAllTimers m : quiet m (disarmAllTimersLocked m).
Proof. apply quiet_range. intros. quiet. Qed.
#[local] Hint Resolve quiet_disarmAllTimers : frames.

Lemma quiet_rearm_timer m u : quiet m (rearm_timer cc arm m u).
Proof.
  enter rearm_timer. quiet;
    match goal with H : acceptTimerArmLocked _ ?u ?c ?m = _ |- _ =>
      pose proof (quiet_acceptTimerArm u c m) as Hq; by rewrite H in Hq end.
Qed.

Lemma quiet_syncTimers m : quiet m (syncTimersLocked cc arm m).
Proof.
  enter syncTimersLocked. quiet_step. quiet_step.
  - apply quiet_range. intros. quiet.
  - apply quiet_foldl. apply quiet_rearm_timer.
Qed.

Lemma quiet_reconcileHubs m : quiet m (reconcileHubsLocked m).
Proof. apply quiet_range. intros. enter reconcile_hub. quiet. Qed.

Lemma quiet_acceptConfigRevision m : quiet m (acceptConfigRevisionLocked m).
Proof. enter acceptConfigRevisionLocked. quiet. apply quiet_range. intros. quiet. Qed.

Lemma quiet_acceptEnabledGraph g links m : quiet m (acceptEnabledGraphLocked g links m).
Proof.
  enter acceptEnabledGraphLocked. quiet_step.
  - apply (still_trans P L m (m <| m_graph := Some g |>)); [quiet|apply quiet_acceptConfigRevision].
  - apply quiet_range. intros. quiet.
Qed.

Lemma quiet_cancelOperation task m : quiet m (cancelOperationLocked task m).
Proof.
  enter cancelOperationLocked. quiet. apply quiet_foldl. intros m' p. enter cancel_member. quiet.
Qed.

Lemma quiet_cancelOperations m : quiet m (cancelOperationsLocked m).
Proof. apply quiet_foldl. intros m' p. destruct (task_plans p.2); [apply quiet_cancelOperation|apply still_refl]. Qed.
#[local] Hint Resolve quiet_cancelOperations : frames.

(** What sealing and closing begin with. *)
Lemma quiet_closing m : quiet m (cancelOperationsLocked (disarmAllTimersLocked (m <| m_closed := true |>))).
Proof. do 2 (eapply still_trans; [|by auto with frames]). apply quiet_close. Qed.
#[local] Hint Resolve quiet_closing : frames.

Lemma quiet_seal m : quiet m (sealShutdownLocked m).
Proof.
  enter sealShutdownLocked. quiet_step; [apply quiet_closing|]. rename m0 into m1.
  apply (still_trans P L m1 (signalStartCapacityLocked m1)); [by apply quiet_tables|].
  apply quiet_range. intros. enter seal_unit. quiet.
Qed.

Lemma quiet_CloseContext m : quiet m (CloseContext m).
Proof.
  enter CloseContext. quiet_step; [apply quiet_closing|]. quiet. apply quiet_range. intros. quiet.
Qed.

Lemma quiet_closePass m : quiet m (closePass m).
Proof. apply quiet_range. intros. enter detachAsync. quiet. Qed.

(** A query takes a reference with its place in the table. *)
Lemma quiet_probe_unit now m name : quiet m (probe_unit now m name).
Proof.
  enter probe_unit. quiet_step; [apply still_refl|]. destruct (m_units m !! name) as [r|]; [|apply still_refl].
  quiet_step. quiet_step; [apply still_refl|]. guards.
  set (f := λ rt : unitRuntime, rt <| operations := operations rt + 1 |> <| nativeNextProbe := now + nativeProbeInterval |>).
  cbv zeta. eapply frame_weaken; [|eapply frame_trans; [apply (frame_upd _ _ 1 r f); [by split; auto|done]|];
    eapply frame_trans; [apply frame_probes|apply quiet_tables; reflexivity]].
  intros r'. cbn -[Z.b2z]. destruct (decide (r' = r)) as [->|Hne].
  - rewrite lookup_insert_eq, bool_decide_eq_false_2, bool_decide_eq_true_2 by done. done.
  - rewrite lookup_insert_ne by done. lia.
Qed.

Lemma quiet_dispatchNativeProbes now m : quiet m (dispatchNativeProbesLocked now m).
Proof. enter dispatchNativeProbesLocked. quiet_step; [apply still_refl|]. apply quiet_foldl, quiet_probe_unit. Qed.

Lemma quiet_probe_done r probe m : nativeProbes m !! r = Some probe →
  quiet m (upd r (λ rt, rt <| operations := operations rt - 1 |>) (m <| nativeProbes := delete r (nativeProbes m) |>)).
Proof.
  intros E. eapply frame_weaken; [|eapply frame_trans; [apply frame_probes|apply (frame_hold _ _ (-1))]].
  intros r'. cbn -[Z.b2z]. destruct (decide (r' = r)) as [->|Hne].
  - rewrite lookup_delete_eq, E. done.
  - rewrite lookup_delete_ne by done. lia.
Qed.

Lemma quiet_completeNativeProbe probe inactive err m : quiet m (completeNativeProbe cc probe inactive err m).
Proof.
  enter completeNativeProbe. quiet_step. quiet_step; [apply still_refl|]. guards.
  lazymatch goal with |- context [let m1 := ?a in let m2 := upd ?r ?f m1 in _] =>
    assert (Hq : quiet m (upd r f a)) by (by apply (quiet_probe_done r probe)); cbv zeta; revert Hq; generalize (upd r f a) end.
  intros m2 Hq. apply (still_trans P L m m2 _ Hq). clear Hq. quiet.
Qed.

End configuration.

(** ** Operations *)

Section operations.
Context {NM : Naming} {MR : MapRange}.
Context (cc : handle → bool) (ec : string → Z → bool).
Context (P : Process → Prop) (L : option address).
#[local] Notation quiet := (frame P L (λ _, 0)).
Implicit Types m : Manager.

Lemma quiet_beginOperation members m : quiet m (beginOperationLocked members m).1.
Proof. enter beginOperationLocked. quiet. apply quiet_foldl. intros. quiet. Qed.

Lemma quiet_beginOperationTask id plans m : quiet m (beginOperationTaskLocked id plans m).
Proof. enter beginOperationTaskLocked. quiet. Qed.

Lemma quiet_beginBoundStops members m : quiet m (beginBoundStops members m).1.
Proof.
  enter beginBoundStops. pose proof (quiet_beginOperation [] m) as Hq. destruct (beginOperationLocked [] m) as [m1 id].
  apply (still_trans P L m m1 _ Hq). quiet_step; [apply quiet_foldl; intros; quiet|]. apply quiet_beginOperationTask.
Qed.

Lemma quiet_failBoundStops members e m : quiet m (failBoundStops members e m).
Proof. apply quiet_foldl. intros. quiet. Qed.

Lemma of_helper_b2z w r' : Z.b2z (of_helper r' w) = if decide (r' = id_record (sh_owner w)) then 1 else 0.
Proof. apply b2z_address. Qed.

(** A stop helper comes and goes with its reference. *)
Lemma quiet_helper_new h w f m : stopHelpers m !! h = None → let r := id_record (sh_owner w) in
  kept P (m_closed m) (L = Some r) (deref m r) (f (deref m r)) → operations (f (deref m r)) = operations (deref m r) + 1 →
  quiet m (upd r f (m <| stopHelpers := <[h := w]> (stopHelpers m) |>)).
Proof.
  intros E r Hk Ho. eapply frame_weaken; [|eapply frame_trans; [apply frame_helpers|by apply (frame_upd _ _ 1 r f)]].
  intros r'. cbn -[Z.b2z]. rewrite count_insert, delete_id, of_helper_b2z by done. fold r. case_decide; lia.
Qed.

Lemma quiet_helper_done h w f m : stopHelpers m !! h = Some w → let r := id_record (sh_owner w) in
  kept P (m_closed m) (L = Some r) (deref m r) (f (deref m r)) → operations (f (deref m r)) = operations (deref m r) - 1 →
  quiet m (upd r f (m <| stopHelpers := delete h (stopHelpers m) |>)).
Proof.
  intros E r Hk Ho. eapply frame_weaken; [|eapply frame_trans; [apply frame_helpers|by apply (frame_upd _ _ (-1) r f)]].
  intros r'. cbn -[Z.b2z]. rewrite (count_delete (of_helper r') (stopHelpers m) h), E, of_helper_b2z. fold r. case_decide; lia.
Qed.

Lemma quiet_publishStopHelperProcess h p m : quiet m (publishStopHelperProcess h p m).
Proof.
  enter publishStopHelperProcess. destruct (stopHelpers m !! h) as [w|] eqn:E; [|apply still_refl].
  eapply frame_weaken; [|apply frame_helpers]. intros r'. cbn -[Z.b2z].
  rewrite count_insert, (count_delete (of_helper r') (stopHelpers m) h), E. unfold of_helper. cbn -[Z.b2z]. lia.
Qed.

Lemma quiet_acceptStopHelper ctx_err owner u eligible m : quiet m (acceptStopHelper ctx_err owner u eligible m).1.
Proof.
  enter acceptStopHelper. do 3 quiet_step. do 6 (quiet_step; [quiet|]). quiet_step.
  apply (still_trans P L m (m <| m_context := S (m_context m) |>)); [by apply quiet_tables|]. cbv zeta.
  apply (quiet_helper_new _ {| sh_owner := owner; sh_invocation := _; sh_cancel := _; sh_process := _ |}).
  - apply not_elem_of_dom, is_fresh.
  - split; auto.
  - done.
Qed.

Lemma quiet_releaseStopHelper h p err m : quiet m (releaseStopHelper h p err m).
Proof.
  enter releaseStopHelper. destruct (stopHelpers m !! h) as [w|] eqn:E; [|apply still_refl].
  do 2 quiet_step; [apply still_refl|]. destruct err as [e|]; [quiet|]. cbv zeta. apply (quiet_helper_done h w); [done|apply kept_hold; evolve|by case_match].
Qed.

End operations.

(** ** References of workers *)

Section references.
Context {NM : Naming} {MR : MapRange}.
Context (cc : handle → bool) (ec : string → Z → bool).
Context (P : Process → Prop) (L : option address).
#[local] Notation frame := (frame P L).
#[local] Notation quiet := (frame (λ _, 0)).
Implicit Types m : Manager.

Lemma refs_cons c r rs r' : refs c (r :: rs) r' = (if decide (r' = r) then c else 0) + refs c rs r'.
Proof. unfold refs. rewrite filter_cons. repeat case_decide; subst; try done; cbn -[Z.of_nat Z.mul]; lia. Qed.

Lemma refs_app c rs1 rs2 r : refs c (rs1 ++ rs2) r = refs c rs1 r + refs c rs2 r.
Proof. unfold refs. rewrite filter_app, length_app. lia. Qed.

Lemma refs_perm c rs1 rs2 r : rs1 ≡ₚ rs2 → refs c rs1 r = refs c rs2 r.
Proof. intros H. unfold refs. by rewrite H. Qed.

Lemma refs_opp rs r : refs (-1) rs r = - refs 1 rs r.
Proof. unfold refs. lia. Qed.

Lemma frame_hold_refs c r m : frame (refs c [r]) m (hold c m r).
Proof. eapply frame_weaken; [|apply frame_hold]. intros r'. rewrite refs_cons. unfold refs. cbn. case_decide; lia. Qed.

Lemma frame_holds c rs m : frame (refs c rs) m (foldl (hold c) m rs).
Proof.
  revert m. induction rs as [|r rs IH]; intros m; cbn [foldl].
  - eapply frame_weaken; [|apply still_refl]. intros r. unfold refs. cbn. lia.
  - eapply frame_weaken; [|eapply frame_trans; [apply frame_hold|apply IH]]. intros r'. by rewrite refs_cons.
Qed.

(** The members of a table as a list of references. *)
Lemma count_refs {A} site (get : A → address) (b : gmap string A) r :
  count (λ x, bool_decide (get x = r)) b = refs 1 ((λ p, get p.2) <$> map_range site b) r.
Proof.
  unfold refs. rewrite map_range_perm. induction b as [|k x b Hk IH] using map_ind.
  - by rewrite count_empty, map_to_list_empty.
  - rewrite count_insert, delete_id by done. rewrite map_to_list_insert by done. cbn [fmap list_fmap].
    rewrite filter_cons, IH. cbn. case_bool_decide; case_decide; try done; cbn; lia.
Qed.

Lemma frame_releaseLaunch effect m : frame (refs (-1) [id_record (le_owner effect)]) m (releaseLaunch effect m).
Proof. apply frame_hold_refs. Qed.

Lemma frame_releaseStopCleanup effect m : frame (refs (-1) [id_record (ef_owner effect)]) m (releaseStopCleanup effect m).
Proof. apply frame_hold_refs. Qed.

Lemma refs_bound b r : refs 1 (bound_records b) r = count (of_bound r) b.
Proof. symmetry. apply (count_refs 32 (λ b, id_record (bs_owner b))). Qed.

Lemma frame_takeBoundStops m : frame (refs 1 (bound_records (takeBoundStops m).2)) m (takeBoundStops m).1.
Proof.
  unfold takeBoundStops. cbn [fst snd]. case_decide as E.
  - eapply frame_weaken; [|by apply quiet_tables]. intros r. by rewrite refs_bound, E, count_empty.
  - eapply frame_weaken; [|apply frame_boundStops]. intros r. cbn -[count]. rewrite refs_bound, count_empty. lia.
Qed.

(** Giving up the references of a finished operation. *)
Lemma frame_finishOperation name id release rs m :
  (∀ m, frame (refs (-1) rs) m (release m)) → frame (refs (-1) rs) m (finishOperationTask name id release m).
Proof.
  intros Hr. enter finishOperationTask. cbv zeta.
  eapply frame_weaken; [|eapply frame_trans; [eapply frame_trans; [|apply Hr]|]].
  2: by apply (quiet_tables _ _ m (m <| activeOperations := delete id (activeOperations m) |>)).
  2: { case_match; [case_decide|]; by apply quiet_tables. }
  intros r. cbn. lia.
Qed.

Lemma frame_finishStart name w m : frame (refs (-1) (start_records w)) m (finishStart name w m).
Proof.
  apply frame_finishOperation. intros m'. cbv zeta. eapply frame_weaken; [|eapply frame_trans; [|apply frame_holds]].
  2: by apply (quiet_tables _ _ m').
  intros r. cbn. lia.
Qed.

Lemma frame_finishStop name id retained m : frame (refs (-1) retained) m (finishStop name id retained m).
Proof.
  apply frame_finishOperation. intros m'. eapply frame_weaken; [|eapply frame_trans; [|apply frame_holds]].
  2: by apply (quiet_tables _ _ m').
  intros r. cbn. lia.
Qed.

Lemma frame_finishBoundStops name id members m :
  frame (refs (-1) (bound_records members)) m (finishBoundStops name id members m).
Proof. apply frame_finishOperation. intros m'. apply frame_holds. Qed.

(** Stops and starts take their references when they are admitted. *)
Lemma frame_admit_stop plan m : frame (refs 1 (admit_stop plan m).2.2) m (admit_stop plan m).1.
Proof.
  enter admit_stop. cbv zeta.
  set (m1 := disarmStopScopeLocked plan _). assert (H1 : quiet m m1).
  { eapply still_trans; [|apply quiet_disarmStopScope]. by apply quiet_tables. }
  clearbody m1. set (rs := omap _ _). pose proof (frame_holds 1 rs m1) as H2.
  pose proof (quiet_beginOperation P L (Units (Some plan)) (foldl (hold 1) m1 rs)) as H3.
  destruct (beginOperationLocked _ _) as [m3 id]. cbn [fst snd] in *.
  eapply frame_weaken; [|eapply frame_trans; [exact H1|]; eapply frame_trans; [exact H2|]; eapply frame_trans; [exact H3|];
                         apply quiet_beginOperationTask].
  intros r. cbn. lia.
Qed.

Lemma frame_stopTransaction ctx_err name m :
  match stopTransaction cc ctx_err name m with
  | (m', Ok (_, _, retained)) => frame (refs 1 retained) m m'
  | (m', Fail _) => m' = m
  end.
Proof.
  enter stopTransaction. case_decide; [done|]. destruct (m_units m !! name); [|done]. destruct (m_graph m); [|done]. cbv zeta.
  match goal with |- context [?l <=? activeStops m] => destruct (l <=? activeStops m) end; [done|].
  match goal with |- context [match ?x with Ok plan => _ | Fail e => _ end] => destruct x as [plan|e] end; [|done].
  pose proof (frame_admit_stop plan m) as Hf. by destruct (admit_stop plan m) as [m' [id rs]].
Qed.

(** A plan is made for each member that is loaded. *)
Lemma frame_plan_members origin restart names m plans : NoDup names → (∀ n, n ∈ names → plans !! n = None) →
  let '(m', plans') := foldl (plan_member origin restart) (m, plans) names in
  frame (λ r, refs 1 ((λ p, p.2.2) <$> map_to_list plans') r - refs 1 ((λ p, p.2.2) <$> map_to_list plans) r) m m'.
Proof.
  intros Hnd. revert m plans. induction Hnd as [|name names Hn Hnd IH]; intros m plans Hp.
  - cbn. eapply frame_weaken; [|apply still_refl]. intros r. cbn. lia.
  - cbn [foldl].
    assert (H1 : let '(m1, plans1) := plan_member origin restart (m, plans) name in
      (∀ n, n ∈ names → plans1 !! n = None) ∧
      frame (λ r, refs 1 ((λ p, p.2.2) <$> map_to_list plans1) r - refs 1 ((λ p, p.2.2) <$> map_to_list plans) r) m m1).
    { cbn. destruct (m_units m !! name) as [r|]; cbn.
      - split; [intros n Hin; rewrite lookup_insert_ne by set_solver; set_solver|].
        eapply frame_weaken; [|eapply frame_trans; [|apply frame_hold_refs]].
        2: by apply (quiet_tables _ _ m).
        intros r'. cbn. rewrite (refs_perm 1 ((λ p, p.2.2) <$> map_to_list (<[name := _]> plans)) _ r')
          by (rewrite map_to_list_insert by (apply Hp; set_solver); reflexivity).
        cbn. rewrite !refs_cons. unfold refs. cbn. lia.
      - split; [intros n Hin; apply Hp; set_solver|]. eapply frame_weaken; [|apply still_refl]. intros r. cbn. lia. }
    destruct (plan_member origin restart (m, plans) name) as [m1 plans1]. destruct H1 as [Hp1 H1].
    specialize (IH m1 plans1 Hp1). destruct (foldl _ _ names) as [m' plans'].
    eapply frame_weaken; [|eapply frame_trans; [exact H1|exact IH]]. intros r. cbn. lia.
Qed.

Lemma frame_admit_start name r origin restart tx stop m :
  let '(m', w) := admit_start name r origin restart tx stop m in frame (refs 1 (start_records w)) m m'.
Proof.
  enter admit_start. cbv zeta. set (m2 := match stop with Some _ => _ | None => _ end).
  assert (H2 : quiet m m2).
  { subst m2. set (m1 := m <| activeStarts := _ |>). assert (H1 : quiet m m1) by by apply quiet_tables.
    destruct stop; [|exact H1]. eapply still_trans; [exact H1|apply quiet_disarmStopScope]. }
  clearbody m2.
  assert (Hnd : NoDup (Units (Some tx))) by (cbn; unfold jobNames; rewrite sort_strings_perm; apply NoDup_fst_map_to_list).
  pose proof (frame_plan_members origin restart _ m2 ∅ Hnd (λ n _, lookup_empty n)) as H3. clear Hnd.
  destruct (foldl (plan_member origin restart) (m2, ∅) _) as [m3 plans].
  set (rs := match origin with Some (restartOrigin members) => _ | _ => [] end).
  pose proof (frame_holds 1 rs m3) as H4.
  match goal with |- context [beginOperationLocked ?l ?m4] => pose proof (quiet_beginOperation P L l m4) as H5;
    destruct (beginOperationLocked l m4) as [m5 id] end. cbn [fst] in H5.
  set (m6 := match origin with Some _ => m5 | None => _ end).
  assert (H6 : quiet m5 m6) by (subst m6; destruct origin; [apply still_refl|]; destruct restart; by apply quiet_tables).
  eapply frame_weaken; [|eapply frame_trans; [exact H2|]; eapply frame_trans; [exact H3|]; eapply frame_trans; [exact H4|];
    eapply frame_trans; [exact H5|]; eapply frame_trans; [exact H6|apply quiet_beginOperationTask]].
  intros r'. unfold start_records. cbn [sw_plans sw_retained]. rewrite refs_app.
  rewrite (refs_perm 1 ((λ p, p.2.2) <$> map_range 33 plans) ((λ p, p.2.2) <$> map_to_list plans) r')
    by (by rewrite map_range_perm).
  rewrite map_to_list_empty. cbn. unfold refs at 2. cbn. lia.
Qed.

Lemma frame_startOperation ctx_err name origin restart m :
  match startOperation cc ec ctx_err name origin restart m with
  | (m', Ok (Accepted w)) => frame (refs 1 (start_records w)) m m'
  | (m', _) => m' = m
  end.
Proof.
  enter startOperation. case_decide; [done|]. destruct (m_closed m); [done|]. case_decide; [done|].
  lazymatch goal with |- context [match (if ?b then (m, Fail (ErrText "activation superseded")) else _) with _ => _ end] =>
    destruct b end; [done|].
  destruct (m_units m !! name) as [r|]; [|done]. destruct (m_graph m) as [g|]; [|done].
  destruct (if bool_decide (origin = None) && negb restart then joinable name r m else None); [done|]. cbv zeta.
  match goal with |- context [?l <=? activeStarts m] => destruct (l <=? activeStarts m) end; [done|].
  set (planned := if restart then _ else _). destruct planned as [[[stop roots] origin']|]; [|done].
  destruct (PlanStart (Some g) roots) as [tx|]; [|done].
  pose proof (frame_admit_start name r origin' restart tx stop m) as Hf. by destruct (admit_start _ _ _ _ _ _ _).
Qed.

Lemma frame_acceptStopCleanup name m :
  match acceptStopCleanup name m with
  | (m', Some e) => m_units m !! name = Some (id_record (ef_owner e)) ∧ frame (refs 1 [id_record (ef_owner e)]) m m'
  | (m', None) => m' = m
  end.
Proof.
  enter acceptStopCleanup. destruct (m_units m !! name) as [r|] eqn:E; [|done]. cbv zeta. cbn [ef_owner id_record ef_unit].
  split; [done|].
  set (f := λ rt : unitRuntime, rt <| operations := operations rt + 1 |> <| stopping := true |> <| rt_gen := rt_gen rt + 1 |>).
  eapply frame_weaken; [|eapply frame_trans; [apply (frame_upd _ _ 1 r f); [split; auto|done]|]].
  2: { eapply still_trans; [apply quiet_cancelRestart|]. apply quiet_upd. enter stop_accepted. evolve. }
  intros r'. rewrite refs_cons. unfold refs. cbn. lia.
Qed.

End references.

(** ** Accepted launches *)

Section accepted.
Context {NM : Naming} {MR : MapRange}.
Context (cc : handle → bool) (ec : string → Z → bool).
Implicit Types m : Manager.

Lemma quiet_mark_plan P L f planned m : frame P L (λ _, 0) m (mark_plan f planned m).
Proof. enter mark_plan. quiet. Qed.

(** A refusal is no launch; without one the manager is open, and the observed
    process is the one of the record. *)
Lemma launch_refusal_answer ctx_err name autoRestart planned recovery observation m :
  match launch_refusal ec ctx_err name autoRestart planned recovery observation m with
  | Some (Ok (Some _)) => False
  | Some _ => True
  | None => m_closed m = false ∧ is_Some (m_units m !! name)
  end.
Proof.
  enter launch_refusal. unfold refuse.
  lazymatch goal with |- context [if ?b then _ else _] => destruct b end; [done|].
  destruct (m_closed m); [by destruct autoRestart|]. case_decide; [by destruct autoRestart|].
  destruct (m_units m !! name) as [r|]; [|by destruct autoRestart]. cbv zeta.
  assert (Hj : match Some (joined_oneshot (deref m r)) with Some (Ok (Some _)) => False | Some _ => True | None => False end).
  { unfold joined_oneshot. by destruct (rt_state (deref m r)). }
  repeat (lazymatch goal with |- context [match (if ?b then _ else _) with _ => _ end] => destruct b end; [first [done|exact I]|]).
  all: try done.
Qed.

Lemma frame_begin_launch P name autoRestart planned definition revision r m :
  match begin_launch name autoRestart planned definition revision r m with
  | (m', Ok (Some e)) =>
    id_name (le_owner e) = name ∧ id_record (le_owner e) = r ∧ le_previous e = rt_proc (deref m r) ∧
    frame P (Some r) (refs 1 [r]) m m'
  | _ => False
  end.
Proof.
  enter begin_launch. cbv zeta. cbn [id_name id_record le_owner le_previous].
  set (f := λ rt : unitRuntime, rt <| operations := operations rt + 1 |> <| rt_gen := rt_gen rt + 1 |> <| rt_restartDelay := 0 |>).
  split; [done|]. split; [done|]. set (m2 := mark_plan _ _ _).
  assert (H2 : frame P (Some r) (refs 1 [r]) m m2).
  { eapply frame_weaken; [|eapply frame_trans; [apply (frame_upd _ _ 1 r f); [split; auto|done]|apply quiet_mark_plan]].
    intros r'. rewrite refs_cons. unfold refs. cbn. lia. }
  split.
  - subst m2. unfold mark_plan. transitivity (rt_proc (deref (upd r f m) r)); [by repeat case_match|by rewrite deref_upd_eq].
  - clearbody m2. eapply frame_weaken; [|eapply frame_trans; [exact H2|apply quiet_upd; evolve]]. intros r'. cbn. lia.
Qed.

(** An accepted launch takes a reference, and leaves the process of the record
    to be cleaned up; it alone overrules a stop. *)
Lemma frame_acceptLaunch P L ctx_err now name autoRestart planned recovery observation m :
  match acceptLaunch cc ec ctx_err now name autoRestart planned recovery observation m with
  | (m', Ok (Some e)) =>
    id_name (le_owner e) = name ∧ m_units m !! name = Some (id_record (le_owner e)) ∧ m_closed m = false ∧
    le_previous e = rt_proc (deref m (id_record (le_owner e))) ∧
    frame P (Some (id_record (le_owner e))) (refs 1 [id_record (le_owner e)]) m m'
  | (m', _) => frame P L (λ _, 0) m m'
  end.
Proof.
  enter acceptLaunch. cbv zeta. set (plan := match planned with Some _ => _ | None => None end).
  pose proof (launch_refusal_answer ctx_err name autoRestart plan recovery observation m) as Hr.
  destruct (launch_refusal _ _ _ _ _ _ _ _) as [[[e|]|e]|]; [done|apply still_refl|apply still_refl|].
  destruct Hr as [Hc [r Hr]]. rewrite Hr. generalize dependent plan. intros plan.
  assert (Hb : ∀ d rev m1, (∀ P, frame P (Some r) (λ _, 0) m m1) →
    let '(m', a) := begin_launch name autoRestart planned d rev r m1 in
    match a with
    | Ok (Some e) =>
      id_name (le_owner e) = name ∧ Some r = Some (id_record (le_owner e)) ∧ m_closed m = false ∧
      le_previous e = rt_proc (deref m (id_record (le_owner e))) ∧
      frame P (Some (id_record (le_owner e))) (refs 1 [id_record (le_owner e)]) m m'
    | _ => frame P L (λ _, 0) m m'
    end).
  { intros d rev m1 H1. pose proof (frame_begin_launch P name autoRestart planned d rev r m1) as H2.
    destruct (begin_launch _ _ _ _ _ _ _) as [m' [[e|]|e]]; [|done|done]. destruct H2 as (Hn & <- & Hp & H2).
    rewrite Hp, (frame_proc _ _ _ _ _ (H1 (λ _, False))). repeat (split; [done|]).
    eapply frame_weaken; [|eapply frame_trans; [apply H1|exact H2]]. done. }
  set (m1 := mark_plan _ planned m). assert (H1 : ∀ P L, frame P L (λ _, 0) m m1) by (intros; apply quiet_mark_plan).
  clearbody m1. destruct (startLimitOf _) as [interval burst].
  match goal with |- context [if ?b && StartLimitHit _ _ _ _ then _ else _] => set (triggered := b) end.
  destruct (triggered && _).
  { eapply still_trans; [apply H1|]. eapply still_trans; [apply quiet_cancelRestart|apply quiet_failStartLimit]. }
  destruct autoRestart.
  { destruct (startLimitHitLocked now (deref m r)); [|by apply Hb]. eapply still_trans; [apply H1|apply quiet_failStartLimit]. }
  apply Hb. intros P'. set (m2 := cancelRestart r _).
  assert (H2 : frame P' (Some r) (λ _, 0) m m2).
  { eapply still_trans; [apply H1|]. eapply still_trans; [|apply quiet_cancelRestart]. apply quiet_upd.
    split; [split; auto|]; done. }
  destruct triggered; [exact H2|]. eapply still_trans; [exact H2|]. apply quiet_upd. evolve.
Qed.

(** ** The new process

    Both decisions write the process first; from there on they are quiet. *)

Lemma quiet_upd_upd P L r f g m :
  evolves P (m_closed m) (L = Some r) (f (deref m r)) (g (deref m r)) → frame P L (λ _, 0) (upd r f m) (upd r g m).
Proof.
  intros [Hk Ho]. split; [done|done|cbn; set_solver| |]; intros r'; rewrite ?deref_upd.
  - case_decide; [by subst|apply kept_refl].
  - unfold free. rewrite !deref_upd. case_decide; [subst; rewrite Ho|]; unfold tabled; cbn; lia.
Qed.

Definition set_process (r : address) (p : Process) (pid : Z) (m : Manager) : Manager :=
  upd r (λ rt, rt <| rt_proc := Some p |> <| mainPID := pid |>) m.

Lemma quiet_retainLaunchFailure P L effect p pid err m :
  frame P L (λ _, 0) (set_process (id_record (le_owner effect)) p pid m) (retainLaunchFailure effect p pid err m).
Proof. apply quiet_upd_upd. evolve. Qed.

Lemma quiet_adoptProcess P L effect p pid autoRestart alive m :
  frame P L (λ _, 0) (set_process (id_record (le_owner effect)) p pid m) (adoptProcess effect p pid autoRestart alive m).1.
Proof.
  enter adoptProcess. do 1 quiet_step.
  lazymatch goal with |- context [let m1 := ?a in _] => change a with (set_process (id_record (le_owner effect)) p pid m) end.
  generalize (set_process (id_record (le_owner effect)) p pid m). clear m. intros m. cbv zeta. quiet; by guards.
Qed.

End accepted.

(** The decisions for automation. *)
#[export] Hint Resolve quiet_disarmStart quiet_disarmStopScope quiet_queueBoundStops quiet_failStartLimit
  quiet_reapFailed quiet_startNativeProbes quiet_applyStartCompletion quiet_applyStartRejection quiet_applyStopCleanup
  quiet_applyStopCompletion quiet_acceptProcessExitCleanup quiet_applyProcessExitCleanup quiet_applyProcessExit
  quiet_acceptWatchdogFailure quiet_applyWatchdogCleanup quiet_acceptWatchdog quiet_detachWatchdog
  quiet_acceptProbeHealth quiet_acceptRecovery quiet_applyFailedProcessCleanup quiet_acceptNotifyCleanup
  quiet_applyNotifyCleanup quiet_applyHubCleanup quiet_acceptHub quiet_acceptHubFailure quiet_acceptHubDisarm
  quiet_acceptNativeStart quiet_recordServiceLaunch quiet_recordInvocation quiet_recordInvocationUser
  quiet_failAccountStart quiet_adoptLaunchNotify quiet_applyLateLaunchCleanup quiet_registerStartWait
  quiet_clearStartWait quiet_applyOneshotCleanup quiet_completeOneshot quiet_acceptReadinessFailure
  quiet_applyReadinessCleanup quiet_acceptProcessActivation quiet_attachMainCapture quiet_publishJournalCompletion
  quiet_acceptTimerArm quiet_disarmTimer quiet_disarmAllTimers quiet_syncTimers quiet_reconcileHubs
  quiet_acceptConfigRevision quiet_acceptEnabledGraph quiet_cancelOperation quiet_cancelOperations quiet_seal
  quiet_CloseContext quiet_closePass quiet_dispatchNativeProbes quiet_completeNativeProbe quiet_beginOperation
  quiet_beginOperationTask quiet_beginBoundStops quiet_failBoundStops quiet_publishStopHelperProcess
  quiet_acceptStopHelper quiet_releaseStopHelper : frames.
