(* ===== verification/ManagerAdmission.v ===== *)
(** * Package manager: what a launch is admitted under, and delays of recovery

    [acceptLaunch], the only way to a new process, and the delay that
    [acceptRecovery] waits with exponential backoff. *)

From S2P Require Import Prelude GoStrings GoTime UnitTypes UnitNames CoreState CoreGraph CorePlan UnitFile ManagerState ManagerEvents ManagerLaunch ManagerOperations ManagerFrame ManagerFrames.

#[local] Open Scope Z_scope.

(** ** Admission *)

Section admission.
Context {NM : Naming} {MR : MapRange}.
Context (cc : handle → bool) (ec : string → Z → bool).
Implicit Types m : Manager.

Lemma cleanupPending_zero rt : cleanupPending rt = false ↔ cleanup rt = 0.
Proof. unfold cleanupPending. by rewrite negb_false_iff, Z.eqb_eq. Qed.
Lemma currentLocked_true id m : currentLocked id m = true ↔
  m_units m !! id_name id = Some (id_record id) ∧ rt_gen (deref m (id_record id)) = id_gen id.
Proof. unfold currentLocked, owns. by rewrite andb_true_iff, bool_decide_eq_true, Z.eqb_eq. Qed.

(** The units that [u] is both bound to and ordered after are active, are not
    being stopped, and wait for no cleanup. *)
Definition bound_active (u : Unit) (m : Manager) : Prop :=
  ∀ peer a, peer ∈ BindsTo u → a ∈ After u → unit_NormalizeName a = unit_NormalizeName peer →
    ∃ r, m_units m !! unit_NormalizeName peer = Some r ∧ rt_state (deref m r) = Active ∧
      stopping (deref m r) = false ∧ cleanup (deref m r) = 0.

Lemma boundPeersActive_bound u m : boundPeersActiveLocked u m = true → bound_active u m.
Proof.
  unfold boundPeersActiveLocked. intros H peer a Hp Ha E.
  rewrite forallb_forall in H. specialize (H peer (proj1 (list_elem_of_In _ _) Hp)). cbv zeta in H.
  apply orb_true_iff in H as [H|H].
  - apply negb_true_iff in H. exfalso. apply not_true_iff_false in H. apply H.
    unfold containsBoundName. apply existsb_exists. exists a.
    split; [by apply list_elem_of_In|by apply bool_decide_eq_true_2].
  - destruct (m_units m !! unit_NormalizeName peer) as [r|]; [|done]. exists r.
    rewrite !andb_true_iff, !negb_true_iff, bool_decide_eq_true, cleanupPending_zero in H. tauto.
Qed.

(** The conditions of a launch of the record [r] with the definition [u]. *)
Record admitted (name : string) (autoRestart : bool) (recovery : option runtimeIdentity) (observation : launchObservation)
    (r : address) (u : Unit) (m : Manager) : Prop := {
  ad_open : m_closed m = false;
  ad_hold : AdmissionHold m = "";
  ad_loaded : m_units m !! name = Some r;
  ad_available : unavailable (deref m r) = false;
  ad_clean : cleanup (deref m r) = 0;
  ad_observed : ob_record observation = Some r ∧ ob_process observation = rt_proc (deref m r);
  ad_dead : ob_alive observation = false;
  ad_wanted : autoRestart = true → stopping (deref m r) = false;
  ad_owner : ∀ id, recovery = Some id → m_units m !! id_name id = Some (id_record id) ∧ rt_gen (deref m (id_record id)) = id_gen id;
  ad_bound : bound_active u m;
}.

(** The definition a launch uses: the running one for a recovery, the planned
    or the configured one else. *)
Definition launch_unit (autoRestart : bool) (planned : option plannedStart) (rt : unitRuntime) : Unit :=
  if autoRestart then ownedUnit rt else match planned with Some p => pl_unit p | None => rt_unit rt end.

Lemma launch_admission ctx_err name autoRestart planned recovery observation m :
  launch_refusal ec ctx_err name autoRestart planned recovery observation m = None →
  ∃ r, admitted name autoRestart recovery observation r (launch_unit autoRestart planned (deref m r)) m ∧
    ∀ p, planned = Some p → pl_record p = r ∧ pl_stopEpoch p = stopEpoch (deref m r) ∧
      ∀ o, pl_origin p = Some o → validLocked ec o m = true.
Proof.
  enter launch_refusal. unfold refuse.
  lazymatch goal with |- context [if ?b then _ else _] => destruct b eqn:Hid end; [done|].
  destruct (m_closed m) eqn:Hc; [done|]. case_decide as Hh; [done|].
  destruct (m_units m !! name) as [r|] eqn:Hu; [|done]. cbv zeta.
  repeat (lazymatch goal with |- (if ?b then _ else _) = _ → _ => destruct b eqn:? end; [done|]). intros _.
  guards. exists r. split.
  - split; try done.
    + by apply cleanupPending_zero.
    + intros ->. by destruct (stopping (deref m r)).
    + intros id ->. apply currentLocked_true. by guards.
    + by apply boundPeersActive_bound.
  - intros p ->. guards. split; [done|]. split; [by apply Z.eqb_eq|]. intros o Ho. rewrite Ho in *. by guards.
Qed.

Lemma cancelRestart_other {A} (get : unitRuntime → A) r m r' :
  (∀ rt d, get (rt <| rt_restartDelay := d |>) = get rt) → (∀ rt c, get (rt <| restartCancel := c |>) = get rt) →
  get (deref (cancelRestart r m) r') = get (deref m r').
Proof.
  intros H1 H2. unfold cancelRestart, cancel. case_match; cbn; (change (deref (put _ ?x) r') with (deref x r') || idtac);
    rewrite !deref_upd; repeat case_decide; subst; rewrite ?H1, ?H2; rewrite ?deref_upd; repeat case_decide; subst; rewrite ?H1; try done.
Qed.

Lemma mark_plan_deref f planned m r : deref (mark_plan f planned m) r = deref m r.
Proof. unfold mark_plan. by repeat case_match. Qed.

Lemma begin_launch_effect name autoRestart planned d rev r m m' e :
  begin_launch name autoRestart planned d rev r m = (m', Ok (Some e)) →
  le_owner e = {| id_name := name; id_record := r; id_gen := rt_gen (deref m r) + 1 |} ∧
  le_unit e = (if autoRestart then ownedUnit (deref m r) else d) ∧ le_previous e = rt_proc (deref m r) ∧
  m_units m' = m_units m ∧ rt_gen (deref m' r) = rt_gen (deref m r) + 1 ∧ stopping (deref m' r) = stopping (deref m r) ∧
  (is_Some (le_previous e) → Z.testbit (cleanup (deref m' r)) 0 = true).
Proof.
  enter begin_launch. cbv zeta. intros [= <- <-]. cbn [le_owner le_unit le_previous]. rewrite !mark_plan_deref, !deref_upd_eq.
  rewrite !mark_plan_deref, !deref_upd_eq. split; [done|]. split; [by destruct autoRestart|]. split; [done|].
  split; [unfold mark_plan; by repeat case_match|]. cbn -[deref setCleanup cleanupPending bool_decide].
  split; [by case_match|]. split; [by case_match|]. intros Hp. rewrite bool_decide_eq_true_2 by done.
  unfold setCleanup. cbn -[Z.lor]. by rewrite <-Z.bit0_odd, Z.lor_spec, orb_true_r.
Qed.

(** What has changed when the launch proper begins. *)
Record prepared (r : address) (m m1 : Manager) : Prop := {
  pr_units : m_units m1 = m_units m;
  pr_gen : rt_gen (deref m1 r) = rt_gen (deref m r);
  pr_owned : ownedUnit (deref m1 r) = ownedUnit (deref m r);
  pr_proc : rt_proc (deref m1 r) = rt_proc (deref m r);
  pr_wanted : stopping (deref m1 r) = false;
}.

Lemma cancelRestart_units r m : m_units (cancelRestart r m) = m_units m.
Proof. unfold cancelRestart, cancel. by case_match. Qed.

Lemma prepared_recovery f planned r m : stopping (deref m r) = false → prepared r m (mark_plan f planned m).
Proof. intros Hs. split; rewrite ?mark_plan_deref; try done. unfold mark_plan. by repeat case_match. Qed.

(** An explicit start withdraws the stop and the pending recovery. *)
Lemma prepared_explicit f planned r (triggered : bool) m :
  let m1 := cancelRestart r (upd r (λ rt, rt <| stopping := false |>) (mark_plan f planned m)) in
  prepared r m (if triggered then m1 else upd r (λ rt, rt <| restartAttempt := 0 |> <| startTimes := [] |>) m1).
Proof.
  intros m1. assert (H1 : prepared r m m1).
  { subst m1. split; [rewrite cancelRestart_units; unfold mark_plan; cbn; by repeat case_match|..].
    - rewrite (cancelRestart_other rt_gen), deref_upd_eq, mark_plan_deref by done. done.
    - rewrite (cancelRestart_other ownedUnit), deref_upd_eq, mark_plan_deref by done. done.
    - rewrite (cancelRestart_other rt_proc), deref_upd_eq, mark_plan_deref by done. done.
    - rewrite (cancelRestart_other stopping), deref_upd_eq by done. done. }
  destruct triggered; [done|]. destruct H1 as [? ? ? ? ?]. split; [done|..]; by rewrite deref_upd_eq.
Qed.

Lemma begun_admitted name autoRestart planned plan recovery observation d rev r m m1 m' e :
  admitted name autoRestart recovery observation r (launch_unit autoRestart plan (deref m r)) m → prepared r m m1 →
  d = match plan with Some p => pl_unit p | None => rt_unit (deref m r) end →
  begin_launch name autoRestart planned d rev r m1 = (m', Ok (Some e)) →
    le_owner e = {| id_name := name; id_record := r; id_gen := rt_gen (deref m r) + 1 |} ∧
    admitted name autoRestart recovery observation r (le_unit e) m ∧
    le_previous e = rt_proc (deref m r) ∧ m_units m' !! name = Some r ∧ rt_gen (deref m' r) = rt_gen (deref m r) + 1 ∧
    stopping (deref m' r) = false ∧ (is_Some (le_previous e) → Z.testbit (cleanup (deref m' r)) 0 = true).
Proof.
  intros Had [Eu Eg Ew Ep Es] Ed H. apply begin_launch_effect in H as (H1 & H2 & H3 & H4 & H5 & H6 & H7).
  rewrite H1, H2, H3, H4, H5, H6, Eg, Ew, Ep, Eu, Ed in *. split; [done|]. split; [by destruct autoRestart|]. split; [done|].
  split; [apply (ad_loaded _ _ _ _ _ _ _ Had)|]. done.
Qed.

(** C6: A launch is accepted only for a unit that may be launched: the manager is open and
    admission is not held; the unit is loaded and available, nothing of it waits for
    cleanup, and the process last observed is still the recorded one and is dead; no stop
    has overtaken an automatic restart or a planned start; a recovery still owns the unit in
    its generation; and every unit that it is both bound to and ordered after is loaded,
    active, not being stopped and waits for no cleanup.  An accepted launch owns the unit's
    record in a generation of its own, has withdrawn the stop, and while a previous process
    is recorded marks its workload for cleanup. *)
Theorem launch_admitted ctx_err now name autoRestart planned recovery observation m m' e :
  acceptLaunch cc ec ctx_err now name autoRestart planned recovery observation m = (m', Ok (Some e)) →
  ∃ r, (∀ i p, planned = Some i → m_plans m !! i = Some p → pl_record p = r ∧ pl_stopEpoch p = stopEpoch (deref m r)) ∧
    le_owner e = {| id_name := name; id_record := r; id_gen := rt_gen (deref m r) + 1 |} ∧
    admitted name autoRestart recovery observation r (le_unit e) m ∧
    le_previous e = rt_proc (deref m r) ∧ m_units m' !! name = Some r ∧ rt_gen (deref m' r) = rt_gen (deref m r) + 1 ∧
    stopping (deref m' r) = false ∧ (is_Some (le_previous e) → Z.testbit (cleanup (deref m' r)) 0 = true).
Proof.
  enter acceptLaunch. cbv zeta. set (plan := match planned with Some _ => _ | None => None end).
  destruct (launch_refusal _ _ _ _ _ _ _ _) as [a|] eqn:Er.
  { intros [= <- ->]. pose proof (launch_refusal_answer ec ctx_err name autoRestart plan recovery observation m) as H. by rewrite Er in H. }
  apply launch_admission in Er as (r & Had & Hpl). rewrite (ad_loaded _ _ _ _ _ _ _ Had).
  destruct (startLimitOf _) as [interval burst].
  match goal with |- context [if ?b && StartLimitHit _ _ _ _ then _ else _] => set (triggered := b) end.
  destruct (triggered && _); [done|]. intros H. exists r.
  split; [intros i p -> Hi; by destruct (Hpl p Hi) as (? & ? & _)|]. revert H. destruct autoRestart.
  - destruct (startLimitHitLocked now (deref m r)); [done|]. eapply begun_admitted; [done| |done].
    by apply prepared_recovery, (ad_wanted _ _ _ _ _ _ _ Had).
  - eapply begun_admitted; [done|apply prepared_explicit|done].
Qed.

End admission.

(** ** Delays and budgets *)

Lemma cappedRestart_pow base cap n : 0 < base ≤ max_duration → 0 < cap ≤ max_duration →
  cappedRestart base cap n = Z.min cap (base * 2 ^ Z.of_nat n).
Proof.
  intros Hb Hc. revert base Hb. induction n as [|n IH]; intros base Hb; cbn [cappedRestart].
  - rewrite Z.mul_1_r. lia.
  - assert (H2 : base * 2 ^ Z.of_nat (S n) = base * 2 * 2 ^ Z.of_nat n) by (rewrite Nat2Z.inj_succ, Z.pow_succ_r by lia; ring).
    assert (Hp : 1 ≤ 2 ^ Z.of_nat n) by (pose proof (Z.pow_pos_nonneg 2 (Z.of_nat n)); lia).
    rewrite H2. destruct (Z.ltb_spec base cap); [|nia]. rewrite Z.quot_div_nonneg by lia.
    pose proof (Z.div_mod cap 2). pose proof (Z.mod_pos_bound cap 2).
    destruct (Z.ltb_spec (cap / 2) base) as [Hlt|Hge]; [nia|].
    rewrite duration_small by (unfold min_duration; lia). apply IH. lia.
Qed.

(** C40: The delay before a restart with exponential backoff is the base doubled once per
    attempt, and never more than the cap.  The base and the cap are positive durations of
    64 bits up to the largest one, and the attempt is a 32-bit counter; the doubling is
    Go's, which wraps around, so the check before it is what keeps the delay right. *)
Theorem restart_delay_capped base cap attempt : 0 < base ≤ max_duration → 0 < cap ≤ max_duration → 0 ≤ attempt < 2 ^ 32 →
  cappedRestartDelay base cap attempt = Z.min cap (base * 2 ^ attempt).
Proof.
  intros Hb Hc Ha. unfold cappedRestartDelay.
  destruct (Z.leb_spec base 0), (Z.leb_spec cap 0); try lia. cbn. rewrite cappedRestart_pow, Z2Nat.id by lia. done.
Qed.

(** The largest cap, where doubling a second time would wrap around. *)
Lemma restart_delay_capped_witness : cappedRestartDelay (2 ^ 61 + 1) max_duration 2 = max_duration.
Proof.
  rewrite (restart_delay_capped (2 ^ 61 + 1) max_duration 2); [reflexivity|split; [reflexivity|]..|split; [|reflexivity]];
    vm_compute; discriminate.
Defined.

(** The budget of an operation never overflows and never falls below the default. *)
Lemma add_budget_bounds budget d : 0 ≤ budget ≤ MaxInt64 → 0 ≤ add_budget budget d ≤ MaxInt64.
Proof.
  intros H. unfold add_budget. rewrite (duration_small (MaxInt64 - budget)) by (unfold min_duration, max_duration, MaxInt64 in *; lia).
  destruct (Z.ltb_spec (MaxInt64 - budget) d), (Z.ltb_spec 0 d); rewrite ?duration_small; unfold min_duration, max_duration, MaxInt64 in *; lia.
Qed.

Lemma member_budget_bounds m start budget name : 0 ≤ budget ≤ MaxInt64 → 0 ≤ member_budget m start budget name ≤ MaxInt64.
Proof.
  intros H. unfold member_budget. destruct (m_units m !! name); [|done]. cbv zeta.
  do 2 apply add_budget_bounds. destruct start; [|done]. destruct (Service _); [by apply add_budget_bounds|done].
Qed.

Lemma operation_budget_bounds start stop m :
  DefaultOperationTimeout ≤ operationTimeoutLocked 0 start stop m ≤ MaxInt64.
Proof.
  assert (Hf : ∀ b l budget, 0 ≤ budget ≤ MaxInt64 → 0 ≤ foldl (member_budget m b) budget l ≤ MaxInt64).
  { intros b l. induction l as [|n l IH]; intros budget H; [done|]. cbn [foldl]. by apply IH, member_budget_bounds. }
  unfold operationTimeoutLocked. cbn -[foldl].
  pose proof (Hf false (Units stop) _ (Hf true (Units start) defaultStopTimeout ltac:(vm_compute; split; discriminate))) as H.
  split; [lia|]. apply Z.max_lub; [vm_compute; discriminate|lia].
Qed.

(** A forced stop keeps at most half of its budget for the cleanup. *)
Lemma stopForceReserve_bounds total : 0 ≤ total → 0 ≤ stopForceReserve total ≤ total / 2.
Proof.
  intros H. unfold stopForceReserve. rewrite !Z.quot_div_nonneg by lia. assert (0 ≤ total / 2) by (apply Z.div_pos; lia).
  assert (0 < Second) by done. lia.
Qed.
