(* ===== verification/ManagerReload.v ===== *)
(** * Package manager: a reload keeps what is owned

    [replaceLocked]: every name has a record of its own afterwards, the record it had
    before or a new one, and a record that owns a process or is referred to by a
    worker stays loaded under its name, whatever the new configuration says. *)

From S2P Require Import Prelude GoStrings Calendar UnitTypes UnitNames CoreState CoreGraph CorePlan UnitFile ManagerState ManagerEvents ManagerConfig ManagerFrame ManagerFrames.

#[local] Open Scope Z_scope.

(** Names have records of their own. *)
Definition loaded_apart (units : gmap string address) : Prop :=
  ∀ n n' r, units !! n = Some r → units !! n' = Some r → n = n'.

(** What a reload must not drop. *)
Definition in_use (m : Manager) (r : address) : Prop := is_Some (rt_proc (deref m r)) ∨ 0 < free m r.

Section reload.
Context {NM : Naming} {MR : MapRange}.
Context (cc : handle → bool) (arm : Unit → string → Z).
(** The manager before. *)
Context (m0 : Manager).
Context (Hheap : ∀ n r, m_units m0 !! n = Some r → r ∈ dom (m_heap m0)) (Hapart : loaded_apart (m_units m0)).
#[local] Notation quiet := (frame (λ _, False) None (λ _, 0)).

(** The map under construction: old records under their names, new ones else. *)
Record building (m : Manager) (next : gmap string address) : Prop := {
  b_quiet : quiet m0 m;
  b_heap n r : next !! n = Some r → r ∈ dom (m_heap m);
  b_old n r : next !! n = Some r → m_units m0 !! n = Some r ∨ (m_units m0 !! n = None ∧ r ∉ dom (m_heap m0));
  b_apart : loaded_apart next;
}.

Lemma building_empty : building m0 ∅.
Proof. split; [apply still_refl|done..]. Qed.

(** A new record is no change: the address was not in use. *)
Lemma quiet_alloc r rt m : r ∉ dom (m_heap m) → rt_proc rt = None → operations rt = 0 → legal rt → rt_state rt ≠ Active →
  quiet m (m <| m_heap := <[r := rt]> (m_heap m) |>).
Proof.
  intros Hr Hp Ho Hl Ha.
  assert (Hd : deref m r = new_unitRuntime (new_Unit "" "" KindService)) by (unfold deref; by rewrite (not_elem_of_dom_1 _ _ Hr)).
  assert (He : ∀ r', deref (m <| m_heap := <[r := rt]> (m_heap m) |>) r' = if decide (r' = r) then rt else deref m r').
  { intros r'. unfold deref. cbn. case_decide; [subst; by rewrite lookup_insert_eq|by rewrite lookup_insert_ne]. }
  split; [done|done|cbn; set_solver| |]; intros r'; rewrite ?He.
  - case_decide; [|apply kept_refl]. subst. rewrite Hd. split; [by left|done|done|done].
  - unfold free. rewrite He. case_decide; [subst; rewrite Hd, Ho|]; unfold tabled; cbn; lia.
Qed.

(** An old record is kept under its name. *)
Lemma building_insert m m' next n r : building m next → frame (λ _, False) None (λ _, 0) m m' →
  m_units m0 !! n = Some r → building m' (<[n := r]> next).
Proof.
  intros [Hq Hh Ho Ha] Hm Hn. split.
  - by eapply still_trans.
  - intros n' r'. destruct (decide (n = n')) as [<-|]; [rewrite lookup_insert_eq|rewrite lookup_insert_ne by done].
    + intros [= <-]. apply (f_dom _ _ _ _ _ Hm), (f_dom _ _ _ _ _ Hq), (Hheap n). done.
    + intros H. apply (f_dom _ _ _ _ _ Hm). eauto.
  - intros n' r'. destruct (decide (n = n')) as [<-|]; [rewrite lookup_insert_eq|rewrite lookup_insert_ne by done; auto].
    intros [= <-]. by left.
  - assert (Hx : ∀ n', next !! n' = Some r → n = n').
    { intros n' H. destruct (Ho _ _ H) as [?|[_ []]]; [by eapply Hapart|by eapply Hheap]. }
    intros n1 n2 r'. rewrite !lookup_insert_Some. intros [[<- <-]|[? H1]] [[<- E]|[? H2]]; [done|auto|subst; symmetry; auto|].
    by eapply Ha.
Qed.

Lemma building_accept links m next u : building m next →
  let '(m', next') := accept_unit (m_units m0) links (m, next) u in building m' next'.
Proof.
  intros Hb. enter accept_unit. cbv zeta. destruct (m_units m0 !! NormalizeName (Name u)) as [r|] eqn:E.
  - apply (building_insert m); [done| |done]. apply (quiet_upd _ _ r (λ rt, rt <| rt_unit := u |> <| unavailable := false |>
      <| rt_enabled := _ |> <| rt_targets := _ |>)). evolve.
  - destruct Hb as [Hq Hh Ho Ha]. set (r := fresh (dom (m_heap m))). set (rt := _ <| rt_targets := _ |>).
    assert (Hr : r ∉ dom (m_heap m)) by apply is_fresh.
    assert (Hm : quiet m (m <| m_heap := <[r := rt]> (m_heap m) |>)).
    { apply quiet_alloc; try done. unfold legal. cbn. set_solver. }
    split.
    + by eapply still_trans.
    + intros n' r'. cbn. rewrite lookup_insert_Some. intros [[_ <-]|[_ H]]; [set_solver|]. pose proof (Hh _ _ H). set_solver.
    + intros n' r'. rewrite lookup_insert_Some. intros [[<- <-]|[_ H]]; [|auto]. right. split; [done|].
      intros H. apply Hr, (f_dom _ _ _ _ _ Hq), H.
    + assert (Hx : ∀ n', next !! n' ≠ Some r) by (intros n' H; apply Hr; eauto).
      intros n1 n2 r'. rewrite !lookup_insert_Some. intros [[<- <-]|[? H1]] [[<- E2]|[? H2]]; [done|by destruct (Hx n2)|subst; by destruct (Hx n1)|].
      by eapply Ha.
Qed.

Lemma accept_unit_keeps links m next u n r : m_units m0 !! n = Some r → next !! n = Some r ∨ n = NormalizeName (Name u) →
  (accept_unit (m_units m0) links (m, next) u).2 !! n = Some r.
Proof.
  intros Hn Hx. cbn. destruct (decide (NormalizeName (Name u) = n)) as [->|Hne].
  - by rewrite lookup_insert_eq, Hn.
  - rewrite lookup_insert_ne by done. by destruct Hx as [?| ->].
Qed.

Lemma building_accepts links us m next : building m next →
  let '(m', next') := foldl (accept_unit (m_units m0) links) (m, next) us in
  building m' next' ∧
  ∀ n r, m_units m0 !! n = Some r → next !! n = Some r ∨ n ∈ (λ u, NormalizeName (Name u)) <$> us → next' !! n = Some r.
Proof.
  revert m next. induction us as [|u us IH]; intros m next Hb; cbn [foldl].
  - split; [done|]. intros n r _ [?|?]; [done|set_solver].
  - pose proof (building_accept links m next u Hb) as H1. pose proof (accept_unit_keeps links m next u) as Hk.
    destruct (accept_unit (m_units m0) links (m, next) u) as [m1 next1]. specialize (IH m1 next1 H1).
    destruct (foldl _ (m1, next1) us) as [m' next']. destruct IH as [Hb' Hk']. split; [done|].
    intros n r Hn Hx. apply Hk'; [done|]. cbn in Hx. rewrite elem_of_cons in Hx. destruct Hx as [?|[?|?]]; auto.
Qed.

(** A record in use is retained without a definition. *)
Lemma in_use_retained m r : quiet m0 m → in_use m0 r → retainWithoutConfig cc (deref m r) = true.
Proof.
  intros Hq Hu. unfold retainWithoutConfig. destruct Hu as [Hp|Hf].
  - rewrite (frame_proc _ _ _ _ r Hq), (bool_decide_eq_true_2 (is_Some (rt_proc (deref m0 r)))) by done. by rewrite !orb_true_r.
  - pose proof (f_free _ _ _ _ _ Hq r) as E. pose proof (tabled_nonneg m r). unfold free in *.
    replace (operations (deref m r) =? 0) with false by (symmetry; apply Z.eqb_neq; lia). cbn. by rewrite !orb_true_r.
Qed.

Lemma building_vanish accepted l m next : (∀ p, p ∈ l → m_units m0 !! p.1 = Some p.2) → building m next →
  let '(m', next') := foldl (vanish_unit cc accepted) (m, next) l in
  building m' next' ∧
  ∀ n r, m_units m0 !! n = Some r →
    next !! n = Some r ∨ ((n, r) ∈ l ∧ n ∉ accepted ∧ in_use m0 r) → next' !! n = Some r.
Proof.
  revert m next. induction l as [|[n0 r0] l IH]; intros m next Hl Hb; cbn [foldl].
  - split; [done|]. intros n r _ [?|[H _]]; [done|by apply not_elem_of_nil in H].
  - assert (H0 : m_units m0 !! n0 = Some r0) by (apply (Hl (n0, r0)); left).
    assert (H1 : let '(m1, next1) := vanish_unit cc accepted (m, next) (n0, r0) in
      building m1 next1 ∧ ∀ n r, m_units m0 !! n = Some r →
        next !! n = Some r ∨ (n = n0 ∧ n ∉ accepted ∧ in_use m0 r) → next1 !! n = Some r).
    { enter vanish_unit. cbn [fst snd]. case_decide; [split; [done|]; intros n r _ [?|(-> & ? & _)]; done|].
      destruct (retainWithoutConfig cc (deref m r0)) eqn:Er.
      - cbv zeta. split.
        + apply (building_insert m); [done| |done]. eapply still_trans; [|apply quiet_cancelRestart]. apply quiet_upd. evolve.
        + intros n r Hn Hx. destruct (decide (n0 = n)) as [->|]; [rewrite lookup_insert_eq; congruence|].
          rewrite lookup_insert_ne by done. by destruct Hx as [?|[-> _]].
      - split.
        + destruct Hb as [Hq Hh Ho Ha]. cbn.
          assert (Hm : quiet m (cancelNonblocking (detachAsync r0 m).2 (detachAsync r0 m).1)).
          { unfold cancelNonblocking. do 4 (eapply still_trans; [|apply quiet_cancel]). apply quiet_upd. evolve. }
          split; [by eapply still_trans| |done|done]. intros n r Hn. apply (f_dom _ _ _ _ _ Hm). eauto.
        + intros n r Hn [?|(-> & _ & Hu)]; [done|]. replace r with r0 in Hu by congruence.
          by rewrite (in_use_retained m r0 (b_quiet _ _ Hb) Hu) in Er. }
    destruct (vanish_unit cc accepted (m, next) (n0, r0)) as [m1 next1]. destruct H1 as [Hb1 Hk1].
    specialize (IH m1 next1 (λ p Hp, Hl p (list_elem_of_further _ _ _ Hp)) Hb1).
    destruct (foldl _ (m1, next1) l) as [m' next']. destruct IH as [Hb' Hk']. split; [done|].
    intros n r Hn Hx. apply Hk'; [done|]. rewrite elem_of_cons in Hx. destruct Hx as [?|[[[= -> ->]|?] [? ?]]]; [auto| |auto].
    left. apply Hk1; [done|]. auto.
Qed.

Lemma replaceLocked_building units g links :
  ∃ m1 next, building m1 next ∧
    (∀ n r, m_units m0 !! n = Some r → in_use m0 r → next !! n = Some r) ∧
    ∀ P L, frame P L (λ _, 0) (m1 <| m_units := next |>) (replaceLocked cc arm units g links m0).
Proof.
  unfold replaceLocked. pose proof (building_accepts links units m0 ∅ building_empty) as H1.
  destruct (foldl _ (m0, ∅) units) as [m1 next1]. destruct H1 as [Hb1 Hk1].
  set (accepted := list_to_set _). assert (Hl : ∀ p, p ∈ map_range 19 (m_units m0) → m_units m0 !! p.1 = Some p.2).
  { intros [n r] Hp. rewrite map_range_perm in Hp. by apply elem_of_map_to_list. }
  pose proof (building_vanish accepted _ m1 next1 Hl Hb1) as H2. destruct (foldl _ (m1, next1) _) as [m2 next2].
  destruct H2 as [Hb2 Hk2]. exists m2, next2. split; [done|]. split.
  - intros n r Hn Hu. apply Hk2; [done|]. destruct (decide (n ∈ accepted)) as [Ha|Ha].
    + left. apply Hk1; [done|]. right. subst accepted. by apply elem_of_list_to_set in Ha.
    + right. split; [|done]. rewrite map_range_perm. by apply elem_of_map_to_list.
  - intros P L. cbv zeta. eapply still_trans; [|apply quiet_reconcileHubs]. eapply still_trans; [|apply quiet_syncTimers].
    eapply still_trans; [|apply quiet_acceptConfigRevision]. by apply quiet_tables.
Qed.

End reload.
