(* ===== verification/ManagerSystem.v ===== *)
(** * Package manager: the running system

    The manager with its workers: every critical section of [internal/manager] is a
    step, and between two steps anything may happen to the rest of the system.
    Workers run in any number and in any order, deliver events that are out of date,
    repeat them or never deliver them; processes end when they like.  What the
    program does order is kept:
    - the launches of one unit are serialized by its gate ([unitop.go]), and a launch
      goes through the stages of [launchUnitOwnedOp] ([supervise.go]);
    - a reference to a record is given up by a worker that took it;
    - a cleanup reports success for a process only when it is not alive any more
      ([proc.Alive()] is asked before each report). *)

From S2P Require Import Prelude GoStrings Calendar UnitTypes UnitNames CoreState CoreGraph CorePlan UnitFile ManagerState ManagerEvents ManagerLaunch ManagerConfig ManagerOperations ManagerFrame ManagerFrames ManagerReload.

#[local] Open Scope Z_scope.

(** ** Steps *)

(** The critical sections that take or give up no reference of a worker. *)
Inductive decision :=
| StartCompletion (event : startCompletion)
| StartRejection (event : startCompletion)
| DisarmStart (name : string)
| StopCleanup (owner : runtimeIdentity) (process : option Process) (err : option error)
| StopCompletion (owner : runtimeIdentity) (process : option Process) (err : option error)
| AcceptExit (name : string) (proc : Process)
| ExitCleanup (effect : cleanupEffect) (err : option error)
| ProcessExit (owner : runtimeIdentity) (service : option ServiceSpec) (wait : wait_result) (limitHit suppressed : bool)
| WatchdogFailure (owner : runtimeIdentity)
| WatchdogCleanup (effect : cleanupEffect) (err : option error)
| AcceptWatchdog (name : string) (gen : Z) (c : handle)
| DetachWatchdog (name : string)
| ProbeHealth (owner : runtimeIdentity) (success : bool) (threshold : Z)
| AcceptRecovery (now : Time) (request : recoveryRequest)
| FailedCleanup (effect : failedProcessEffect) (err : option error)
| AcceptNotifyCleanup (name : string)
| NotifyCleanup (name : string) (n : handle) (err : option error)
| HubCleanup (name : string) (h : watchRuntime) (err : option error)
| AcceptHub (name : string) (h : watchRuntime)
| HubFailure (name : string) (h : watchRuntime) (err : error)
| HubDisarm (name : string)
| NativeStart (ctx_err : bool) (now : Time) (owner : runtimeIdentity) (autoRestart : bool)
| ServiceLaunch (now : Time) (effect : launchEffect) (native : bool)
| Invocation (effect : launchEffect) (invocation userSID : string)
| InvocationUser (effect : launchEffect) (userSID : string)
| AccountFailure (effect : launchEffect) (err : error)
| AdoptNotify (effect : launchEffect) (n : handle)
| LateCleanup (effect : launchEffect) (proc : Process) (err : option error)
| RegisterWait (effect : launchEffect) (c : handle)
| ClearWait (effect : launchEffect)
| OneshotCleanup (effect : launchEffect) (proc : Process) (cleanupErr waitErr : option error)
| OneshotCompletion (ctx_err : bool) (now : Time) (effect : launchEffect) (proc : Process) (cleanupErr completionErr : option error)
| ReadinessFailure (effect : launchEffect) (proc : Process) (err : error)
| ReadinessCleanup (effect : launchEffect) (proc : Process) (err : option error)
| Activation (ctx_err : bool) (now : Time) (effect : launchEffect) (proc : Process)
| AttachCapture (effect : launchEffect) (c : handle)
| JournalCompletion (name : string) (record : address) (c : option handle) (generation : Z) (complete : bool)
| TimerArm (u : Unit) (revision : string)
| TimerDisarm (owner : runtimeIdentity)
| EnabledGraph (g : Graph) (links : gmap string (list string))
| CancelOperation (task : operationTask)
| SealShutdown
| Close
| ClosePass
| DispatchProbes (now : Time)
| ProbeCompletion (probe : nativeProbe) (inactive : bool) (err : option error)
| BeginBoundStops (members : gmap string boundStopMember)
| FailBoundStops (members : gmap string boundStopMember) (e : error)
| AcceptHelper (ctx_err : option error) (owner : runtimeIdentity) (u : Unit) (eligible : bool)
| HelperProcess (h : handle) (p : option Process)
| ReleaseHelper (h : handle) (p : option Process) (err : option error).

(** Where a launch is: cleaning up the previous process, preparing a new one,
    with the created process in hand, or over. *)
Inductive stage := Evicting | Prepared | Created (p : Process) | Ended.
Record launching := { l_effect : launchEffect; l_stage : stage }.

(** [launches] by the unit whose gate the launch holds; [held], the references of
    the other workers; [alive], the processes that were created and have not
    ended; [used], all that were created. *)
Record system := {
  mgr : Manager; launches : gmap string launching; held : list address; alive : gset Process; used : gset Process;
}.
#[global] Instance eta_system : Settable system := λ s,
  {| mgr := mgr s; launches := launches s; held := held s; alive := alive s; used := used s |}.

Section system.
Context {NM : Naming} {MR : MapRange}.
Context (cc : handle → bool) (ec : string → Z → bool) (arm : Unit → string → Z).

Definition decide_step (d : decision) (m : Manager) : Manager :=
  match d with
  | StartCompletion event => applyStartCompletionLocked cc ec event m
  | StartRejection event => applyStartRejection cc ec event m
  | DisarmStart name => disarmStartLocked name m
  | StopCleanup owner process err => applyStopCleanup owner process err m
  | StopCompletion owner process err => (applyStopCompletion owner process err m).1
  | AcceptExit name proc => (acceptProcessExitCleanup cc name proc m).1
  | ExitCleanup effect err => (applyProcessExitCleanup cc effect err m).1
  | ProcessExit owner service wait limitHit suppressed => (applyProcessExit cc owner service wait limitHit suppressed m).1
  | WatchdogFailure owner => (acceptWatchdogFailure cc owner m).1
  | WatchdogCleanup effect err => (applyWatchdogCleanup effect err m).1
  | AcceptWatchdog name gen c => (acceptWatchdog name gen c m).1
  | DetachWatchdog name => (detachWatchdog name m).1
  | ProbeHealth owner success threshold => (acceptProbeHealth owner success threshold m).1
  | AcceptRecovery now request => (acceptRecovery cc now request m).1
  | FailedCleanup effect err => applyFailedProcessCleanup effect err m
  | AcceptNotifyCleanup name => (acceptNotifyCleanup name m).1
  | NotifyCleanup name n err => applyNotifyCleanup name n err m
  | HubCleanup name h err => applyHubCleanup name h err m
  | AcceptHub name h => (acceptHub name h m).1
  | HubFailure name h err => (acceptHubFailure cc name h err m).1
  | HubDisarm name => (acceptHubDisarm name m).1
  | NativeStart ctx_err now owner autoRestart => (acceptNativeStart ctx_err now owner autoRestart m).1
  | ServiceLaunch now effect native => recordServiceLaunch now effect native m
  | Invocation effect invocation userSID => recordInvocation effect invocation userSID m
  | InvocationUser effect userSID => recordInvocationUser effect userSID m
  | AccountFailure effect err => failAccountStart effect err m
  | AdoptNotify effect n => (adoptLaunchNotify effect n m).1
  | LateCleanup effect proc err => applyLateLaunchCleanup effect proc err m
  | RegisterWait effect c => (registerStartWait effect c m).1
  | ClearWait effect => clearStartWait effect m
  | OneshotCleanup effect proc cleanupErr waitErr => applyOneshotCleanup effect proc cleanupErr waitErr m
  | OneshotCompletion ctx_err now effect proc cleanupErr completionErr =>
    (completeOneshot cc ctx_err now effect proc cleanupErr completionErr m).1
  | ReadinessFailure effect proc err => (acceptReadinessFailure cc effect proc err m).1
  | ReadinessCleanup effect proc err => applyReadinessCleanup effect proc err m
  | Activation ctx_err now effect proc => (acceptProcessActivation ctx_err now effect proc m).1
  | AttachCapture effect c => attachMainCapture effect c m
  | JournalCompletion name record c generation complete => publishJournalCompletion name record c generation complete m
  | TimerArm u revision => (acceptTimerArmLocked arm u revision m).1
  | TimerDisarm owner => disarmTimer owner m
  | EnabledGraph g links => acceptEnabledGraphLocked g links m
  | CancelOperation task => cancelOperationLocked task m
  | SealShutdown => sealShutdownLocked m
  | Close => CloseContext m
  | ClosePass => closePass m
  | DispatchProbes now => dispatchNativeProbesLocked now m
  | ProbeCompletion probe inactive err => completeNativeProbe cc probe inactive err m
  | BeginBoundStops members => (beginBoundStops members m).1
  | FailBoundStops members e => failBoundStops members e m
  | AcceptHelper ctx_err owner u eligible => (acceptStopHelper ctx_err owner u eligible m).1
  | HelperProcess h p => publishStopHelperProcess h p m
  | ReleaseHelper h p err => releaseStopHelper h p err m
  end.

(** The process a decision may drop, and what its cleanup reported. *)
Definition cleaned (d : decision) : option Process * option error :=
  match d with
  | StopCleanup _ process err => (process, err)
  | ExitCleanup effect err | WatchdogCleanup effect err => (ef_process effect, err)
  | FailedCleanup effect err => (Some (fp_process effect), err)
  | LateCleanup _ proc err | ReadinessCleanup _ proc err => (Some proc, err)
  | OneshotCompletion _ _ _ proc err _ => (Some proc, err)
  | _ => (None, None)
  end.

Definition ended (s : system) (p : Process) : Prop := p ∉ alive s.
Definition put_stage (name : string) (e : launchEffect) (st : stage) (s : system) : system :=
  s <| launches := <[name := {| l_effect := e; l_stage := st |}]> (launches s) |>.

Inductive sys_step : system → system → Prop :=
| step_decide s d : confirmed (ended s) (cleaned d).1 (cleaned d).2 → sys_step s (s <| mgr := decide_step d (mgr s) |>)
| step_reload s units g links : sys_step s (s <| mgr := replaceLocked cc arm units g links (mgr s) |>)
| step_exit s p : sys_step s (s <| alive := alive s ∖ {[p]} |>)
| step_accept_stop s name m' e : acceptStopCleanup name (mgr s) = (m', Some e) →
  sys_step s (s <| mgr := m' |> <| held := id_record (ef_owner e) :: held s |>)
| step_release_stop s e rest : held s ≡ₚ id_record (ef_owner e) :: rest →
  sys_step s (s <| mgr := releaseStopCleanup e (mgr s) |> <| held := rest |>)
| step_start s ctx_err name origin restart m' w : startOperation cc ec ctx_err name origin restart (mgr s) = (m', Ok (Accepted w)) →
  sys_step s (s <| mgr := m' |> <| held := start_records w ++ held s |>)
| step_finish_start s name w rest : held s ≡ₚ start_records w ++ rest →
  sys_step s (s <| mgr := finishStart name w (mgr s) |> <| held := rest |>)
| step_stop s ctx_err name m' id plan rs : stopTransaction cc ctx_err name (mgr s) = (m', Ok (id, plan, rs)) →
  sys_step s (s <| mgr := m' |> <| held := rs ++ held s |>)
| step_finish_stop s name id rs rest : held s ≡ₚ rs ++ rest →
  sys_step s (s <| mgr := finishStop name id rs (mgr s) |> <| held := rest |>)
| step_take_bound s :
  sys_step s (s <| mgr := (takeBoundStops (mgr s)).1 |> <| held := bound_records (takeBoundStops (mgr s)).2 ++ held s |>)
| step_finish_bound s name id members rest : held s ≡ₚ bound_records members ++ rest →
  sys_step s (s <| mgr := finishBoundStops name id members (mgr s) |> <| held := rest |>)
| step_refuse s ctx_err now name autoRestart planned recovery observation m' a :
  acceptLaunch cc ec ctx_err now name autoRestart planned recovery observation (mgr s) = (m', a) → (∀ e, a ≠ Ok (Some e)) →
  sys_step s (s <| mgr := m' |>)
| step_launch s ctx_err now name autoRestart planned recovery observation m' e : launches s !! name = None →
  acceptLaunch cc ec ctx_err now name autoRestart planned recovery observation (mgr s) = (m', Ok (Some e)) →
  sys_step s (put_stage name e (match le_previous e with Some _ => Evicting | None => Prepared end) s <| mgr := m' |>)
| step_evict s name e err m' owned : launches s !! name = Some {| l_effect := e; l_stage := Evicting |} →
  confirmed (ended s) (le_previous e) err → applyPreviousCleanup e err (mgr s) = (m', owned) →
  sys_step s (put_stage name e (if bool_decide (err = None) && owned then Prepared else Ended) s <| mgr := m' |>)
| step_create s name e p : launches s !! name = Some {| l_effect := e; l_stage := Prepared |} → p ∉ used s →
  sys_step s (put_stage name e (Created p) s <| alive := {[p]} ∪ alive s |> <| used := {[p]} ∪ used s |>)
| step_adopt s name e p pid autoRestart is_alive : launches s !! name = Some {| l_effect := e; l_stage := Created p |} →
  sys_step s (put_stage name e Ended s <| mgr := (adoptProcess e p pid autoRestart is_alive (mgr s)).1 |>)
| step_retain s name e p pid err : launches s !! name = Some {| l_effect := e; l_stage := Created p |} →
  sys_step s (put_stage name e Ended s <| mgr := retainLaunchFailure e p pid err (mgr s) |>)
| step_release s name l : launches s !! name = Some l → (∀ p, l_stage l ≠ Created p) →
  sys_step s (s <| mgr := releaseLaunch (l_effect l) (mgr s) |> <| launches := delete name (launches s) |>).

(** A manager without units, as [New] makes it. *)
Definition new_manager (namespace admission_hold : string) (max_starts max_stops : Z) : Manager := {|
  m_units := ∅; m_heap := ∅; m_graph := None; m_closed := false; AdmissionHold := admission_hold;
  configNamespace := namespace; configSequence := 0; m_configRevision := ""; operationSequence := 0;
  activeStarts := 0; activeStops := 0; MaxStartTransactions := max_starts; MaxStopTransactions := max_stops;
  startFlights := ∅; activeOperations := ∅; stopHelpers := ∅; boundStops := ∅; m_boundRunning := false;
  m_plans := ∅; m_cancelled := ∅; m_context := 0%nat; m_reaps := []; m_capacity := 0;
  m_probing := false; nativeProbes := ∅; nativeProbeCursor := "" |}.

Definition new_system namespace admission_hold max_starts max_stops : system :=
  {| mgr := new_manager namespace admission_hold max_starts max_stops; launches := ∅; held := []; alive := ∅; used := ∅ |}.

End system.
