(* ===== verification/ManagerSafety.v ===== *)
(** * Package manager: what holds of the running system

    The invariant of [sys_step], and the properties of [ManagerSystem] that follow:
    the ownership of processes, the references of records, the states of units,
    and the precedence of stops. *)

From S2P Require Import Prelude GoStrings Calendar UnitTypes UnitNames CoreState CoreGraph CorePlan UnitFinish UnitFile ManagerState ManagerEvents ManagerLaunch ManagerConfig ManagerOperations ManagerFrame ManagerFrames ManagerAdmission ManagerReload ManagerSystem.

#[local] Open Scope Z_scope.

Definition of_launch (r : address) (l : launching) : bool := bool_decide (id_record (le_owner (l_effect l)) = r).

Lemma of_launch_b2z l r : Z.b2z (of_launch r l) = if decide (r = id_record (le_owner (l_effect l))) then 1 else 0.
Proof. apply b2z_address. Qed.

(** The process a launch has in its hand. *)
Definition in_hand (s : system) (name : string) (p : Process) : Prop :=
  l_stage <$> launches s !! name = Some (Created p).

Section safety.
Context {NM : Naming} {MR : MapRange}.
Context (cc : handle → bool) (ec : string → Z → bool) (arm : Unit → string → Z).
#[local] Notation sys_step := (sys_step cc ec arm).
#[local] Notation rec s r := (deref (mgr s) r).

Record inv (s : system) : Prop := {
  i_heap n r : m_units (mgr s) !! n = Some r → r ∈ dom (m_heap (mgr s));
  i_apart : loaded_apart (m_units (mgr s));
  i_owned r p : rt_proc (rec s r) = Some p → ∃ n, m_units (mgr s) !! n = Some r;
  i_proc r r' p : rt_proc (rec s r) = Some p → rt_proc (rec s r') = Some p → r = r';
  i_refs r : free (mgr s) r = refs 1 (held s) r + count (of_launch r) (launches s);
  i_launch n l : launches s !! n = Some l → m_units (mgr s) !! n = Some (id_record (le_owner (l_effect l)));
  i_clear n l p : launches s !! n = Some l → l_stage l = Prepared ∨ l_stage l = Created p →
    rt_proc (rec s (id_record (le_owner (l_effect l)))) = None;
  i_hand n p : in_hand s n p → p ∈ used s ∧ (∀ r, rt_proc (rec s r) ≠ Some p) ∧ ∀ n', in_hand s n' p → n' = n;
  i_used r p : rt_proc (rec s r) = Some p → p ∈ used s;
  i_alive p : p ∈ alive s → p ∈ used s ∧ ((∃ r, rt_proc (rec s r) = Some p) ∨ ∃ n, in_hand s n p);
  i_legal r : legal (rec s r);
}.

(** Processes after a frame are processes before. *)
Lemma frame_had P L d m m' r p : frame P L d m m' → rt_proc (deref m' r) = Some p → rt_proc (deref m r) = Some p.
Proof. intros H E. destruct (kept_proc _ _ _ _ _ (f_rec _ _ _ _ _ H r)) as [<-|[? _]]; [done|congruence]. Qed.

Lemma frame_none P L d m m' r : frame P L d m m' → rt_proc (deref m r) = None → rt_proc (deref m' r) = None.
Proof. intros H E. destruct (rt_proc (deref m' r)) as [p|] eqn:E'; [|done]. rewrite (frame_had _ _ _ _ _ _ _ H E') in E. done. Qed.

Lemma frame_keeps s L d m' r p : frame (ended s) L d (mgr s) m' → p ∈ alive s →
  rt_proc (rec s r) = Some p → rt_proc (deref m' r) = Some p.
Proof.
  intros H Hp E. destruct (kept_proc _ _ _ _ _ (f_rec _ _ _ _ _ H r)) as [->|[_ Hn]]; [done|]. by destruct (Hn p E Hp).
Qed.

Lemma frame_mono (P Q : Process → Prop) L d m m' : (∀ p, P p → Q p) → frame P L d m m' → frame Q L d m m'.
Proof.
  intros HPQ [? ? ? Hk ?]. split; auto. intros r. destruct (Hk r) as [[?|[? ?]] ? ? ?]; split; auto.
Qed.

(** A decision with its change of references. *)
Lemma inv_frame s L d m' held' : inv s → frame (ended s) L d (mgr s) m' →
  (∀ r, refs 1 held' r = refs 1 (held s) r + d r) → inv (s <| mgr := m' |> <| held := held' |>).
Proof.
  intros I H Hh. pose proof (f_units _ _ _ _ _ H) as Eu. split; cbn.
  - intros n r. rewrite Eu. intros Hn. apply (f_dom _ _ _ _ _ H). by eapply i_heap.
  - rewrite Eu. apply (i_apart s I).
  - intros r p Hp. rewrite Eu. by eapply (i_owned s I), frame_had.
  - intros r r' p Hp Hp'. by eapply (i_proc s I); eapply frame_had.
  - intros r. rewrite (f_free _ _ _ _ _ H), (i_refs s I), Hh. lia.
  - rewrite Eu. apply (i_launch s I).
  - intros n l p Hl Hs. eapply frame_none; [exact H|]. by eapply i_clear.
  - intros n p Hp. destruct (i_hand s I n p Hp) as (? & Hn & ?). split; [done|]. split; [|done].
    intros r E. by apply (Hn r), (frame_had _ _ _ _ _ _ _ H).
  - intros r p Hp. by eapply (i_used s I), frame_had.
  - intros p Hp. destruct (i_alive s I p Hp) as [? [[r Hr]|?]]; split; auto. left. exists r. by eapply frame_keeps.
  - intros r. apply (kept_legal _ _ _ _ _ (f_rec _ _ _ _ _ H r)), (i_legal s I).
Qed.

Lemma inv_quiet s L m' : inv s → frame (ended s) L (λ _, 0) (mgr s) m' → inv (s <| mgr := m' |>).
Proof. intros I H. apply (inv_frame s L (λ _, 0) m' (held s) I H). lia. Qed.

(** References taken and given up by a worker. *)
Lemma inv_take s L rs m' : inv s → frame (ended s) L (refs 1 rs) (mgr s) m' → inv (s <| mgr := m' |> <| held := rs ++ held s |>).
Proof. intros I H. eapply inv_frame; [done|done|]. intros r. rewrite refs_app. lia. Qed.

Lemma inv_give s L rs rest m' : inv s → held s ≡ₚ rs ++ rest → frame (ended s) L (refs (-1) rs) (mgr s) m' →
  inv (s <| mgr := m' |> <| held := rest |>).
Proof. intros I Hp H. eapply inv_frame; [done|done|]. intros r. rewrite (refs_perm _ _ _ _ Hp), refs_app, refs_opp. lia. Qed.

Lemma quiet_decide L s d m : confirmed (ended s) (cleaned d).1 (cleaned d).2 →
  frame (ended s) L (λ _, 0) m (decide_step cc ec arm d m).
Proof.
  intros Hc. destruct d; cbn [decide_step cleaned fst snd] in *; auto with frames.
Qed.

(** A reload: records in use stay under their names. *)
Lemma inv_reload s units g links : inv s → inv (s <| mgr := replaceLocked cc arm units g links (mgr s) |>).
Proof.
  intros I. destruct (replaceLocked_building cc arm (mgr s) (i_heap s I) (i_apart s I) units g links) as (m1 & next & Hb & Hk & Hq).
  assert (I1 : inv (s <| mgr := m1 |>)).
  { apply (inv_quiet s None); [done|]. eapply frame_mono; [|apply (b_quiet _ _ _ Hb)]. done. }
  assert (I2 : inv (s <| mgr := m1 <| m_units := next |> |>)).
  { destruct I1 as [H1 H2 H3 H4 H5 H6 H7 H8 H9 H10 H11]. split; try assumption; cbn in *.
    - apply (b_heap _ _ _ Hb).
    - apply (b_apart _ _ _ Hb).
    - intros r p Hp. change (rt_proc (deref m1 r) = Some p) in Hp.
      rewrite (frame_proc _ _ _ _ _ (b_quiet _ _ _ Hb)) in Hp. destruct (i_owned s I r p Hp) as [n Hn].
      exists n. apply Hk; [done|]. left. by exists p.
    - intros n l Hl. apply Hk; [by apply (i_launch s I)|]. right. rewrite (i_refs s I).
      pose proof (count_pos (of_launch (id_record (le_owner (l_effect l)))) (launches s) n l Hl) as Hc.
      unfold of_launch in Hc at 1. rewrite bool_decide_eq_true_2 in Hc by done. unfold refs. specialize (Hc eq_refl). lia. }
  apply (inv_quiet (s <| mgr := m1 <| m_units := next |> |>) None _ I2). apply Hq.
Qed.

(** A launch moves on, without a process in hand before and after. *)
Lemma inv_stage s name e st st' : inv s → launches s !! name = Some {| l_effect := e; l_stage := st |} →
  (∀ p, st ≠ Created p) → (∀ p, st' ≠ Created p) → (st' = Prepared → rt_proc (rec s (id_record (le_owner e))) = None) →
  inv (put_stage name e st' s).
Proof.
  intros I Hl Hst Hst' Hp.
  assert (Hh : ∀ n p, in_hand (put_stage name e st' s) n p ↔ in_hand s n p).
  { intros n p. unfold in_hand. cbn. destruct (decide (name = n)) as [<-|]; [|by rewrite lookup_insert_ne].
    rewrite lookup_insert_eq, Hl. cbn. split; intros [= E]; [by destruct (Hst' p)|by destruct (Hst p)]. }
  split; try apply I; cbn.
  - intros r. rewrite (i_refs s I), count_insert, (count_delete (of_launch r) (launches s) name), Hl. done.
  - intros n l. rewrite lookup_insert_Some. intros [[<- <-]|[_ H]]; [|by apply (i_launch s I)]. by apply (i_launch s I name _ Hl).
  - intros n l p. rewrite lookup_insert_Some. intros [[<- <-]|[_ H]]; [|by apply (i_clear s I n)]. cbn. intros [?|H]; [auto|by destruct (Hst' p)].
  - intros n p. rewrite Hh. intros H. destruct (i_hand s I n p H) as (? & ? & Hn). split; [done|]. split; [done|].
    intros n' H'. apply Hn, Hh, H'.
  - intros p Hp'. destruct (i_alive s I p Hp') as [? [?|[n Hn]]]; split; auto. right. exists n. by apply Hh.
Qed.

(** A launch begins. *)
Lemma inv_launched s name e st m' : inv s → launches s !! name = None → (∀ p, st ≠ Created p) →
  m_units (mgr s) !! name = Some (id_record (le_owner e)) →
  frame (ended s) (Some (id_record (le_owner e))) (refs 1 [id_record (le_owner e)]) (mgr s) m' →
  (st = Prepared → rt_proc (rec s (id_record (le_owner e))) = None) →
  inv (put_stage name e st s <| mgr := m' |>).
Proof.
  intros I Hl Hst Hn Hf Hp. set (r0 := id_record (le_owner e)) in *.
  (* the reference is held by a worker first *)
  pose proof (inv_take s _ _ _ I Hf) as J.
  assert (Hh : ∀ n p, in_hand (put_stage name e st s <| mgr := m' |>) n p ↔ in_hand s n p).
  { intros n p. unfold in_hand. cbn. destruct (decide (name = n)) as [<-|]; [|by rewrite lookup_insert_ne].
    rewrite lookup_insert_eq, Hl. cbn. split; [intros [= E]; by destruct (Hst p)|done]. }
  destruct J as [H1 H2 H3 H4 H5 H6 H7 H8 H9 H10 H11]. cbn in *. split; cbn; try assumption.
  - intros r. rewrite (H5 r), refs_cons, count_insert, delete_id, of_launch_b2z by done. cbn. fold r0. case_decide; lia.
  - intros n l. rewrite lookup_insert_Some. intros [[<- <-]|[_ H]]; [|by apply H6]. cbn. by rewrite (f_units _ _ _ _ _ Hf).
  - intros n l p. rewrite lookup_insert_Some. intros [[<- <-]|[_ H]]; [|by apply (H7 n)]. cbn.
    intros [E|E]; [|by destruct (Hst p)]. eapply frame_none; [exact Hf|]. auto.
  - intros n p. rewrite Hh. intros H. destruct (H8 n p H) as (? & ? & Hn'). split; [done|]. split; [done|].
    intros n' H'. apply Hn', Hh, H'.
  - intros p Hp'. destruct (H10 p Hp') as [? [?|[n Hn']]]; split; auto. right. exists n. by apply Hh.
Qed.

(** A process is created. *)
Lemma inv_created s name e p : inv s → launches s !! name = Some {| l_effect := e; l_stage := Prepared |} → p ∉ used s →
  inv (put_stage name e (Created p) s <| alive := {[p]} ∪ alive s |> <| used := {[p]} ∪ used s |>).
Proof.
  intros I Hl Hp. set (s' := put_stage _ _ _ _).
  assert (Hh : ∀ n q, in_hand s' n q ↔ (n = name ∧ q = p) ∨ in_hand s n q).
  { intros n q. unfold in_hand. cbn. destruct (decide (name = n)) as [<-|].
    - rewrite lookup_insert_eq, Hl. cbn. split; [intros [= ->]; auto|intros [[_ ->]|?]; done].
    - rewrite lookup_insert_ne by done. split; [auto|intros [[-> _]|?]; done]. }
  assert (Hfresh : ∀ r, rt_proc (rec s r) ≠ Some p) by (intros r E; by apply Hp, (i_used s I r)).
  assert (Hhand : ∀ n, ¬ in_hand s n p) by (intros n E; by apply Hp, (i_hand s I n)).
  split; try apply I; cbn.
  - intros r. rewrite (i_refs s I), count_insert, (count_delete (of_launch r) (launches s) name), Hl. done.
  - intros n l. rewrite lookup_insert_Some. intros [[<- <-]|[_ H]]; [|by apply (i_launch s I)]. by apply (i_launch s I name _ Hl).
  - intros n l q. rewrite lookup_insert_Some. intros [[<- <-]|[_ H]]; [|by apply (i_clear s I n)]. cbn. intros _.
    apply (i_clear s I name _ p Hl). by left.
  - intros n q. rewrite Hh. intros [[-> ->]|H].
    + split; [set_solver|]. split; [done|]. intros n'. rewrite Hh. intros [[? _]|H']; [done|by destruct (Hhand n')].
    + destruct (i_hand s I n q H) as (? & ? & Hn). split; [set_solver|]. split; [done|]. intros n'. rewrite Hh.
      intros [[_ ->]|?]; [by destruct (Hhand n)|auto].
  - intros r q Hq. pose proof (i_used s I r q Hq). set_solver.
  - intros q. rewrite elem_of_union, elem_of_singleton. intros [->|Hq].
    + split; [set_solver|]. right. exists name. apply Hh. auto.
    + destruct (i_alive s I q Hq) as [? [?|[n Hn]]]; (split; [set_solver|]); [by left|right]. exists n. apply Hh. auto.
Qed.

(** The created process is written to the record. *)
Lemma inv_set_process s name e p pid : inv s → launches s !! name = Some {| l_effect := e; l_stage := Created p |} →
  inv (put_stage name e Ended s <| mgr := set_process (id_record (le_owner e)) p pid (mgr s) |>).
Proof.
  intros I Hl. set (r0 := id_record (le_owner e)). set (s' := put_stage _ _ _ _).
  assert (Hin : in_hand s name p) by (unfold in_hand; by rewrite Hl).
  destruct (i_hand s I name p Hin) as (Hused & Hfresh & Hone).
  pose proof (i_clear s I name _ p Hl (or_intror eq_refl)) as Hclear. cbn in Hclear. fold r0 in Hclear.
  pose proof (i_launch s I name _ Hl) as Hloaded. cbn in Hloaded. fold r0 in Hloaded.
  assert (Hd : ∀ r, rt_proc (rec s' r) = if decide (r = r0) then Some p else rt_proc (rec s r)).
  { intros r. cbn. unfold set_process. rewrite deref_upd. by case_decide. }
  assert (Hh : ∀ n q, in_hand s' n q ↔ n ≠ name ∧ in_hand s n q).
  { intros n q. unfold in_hand. cbn. destruct (decide (name = n)) as [<-|].
    - rewrite lookup_insert_eq. cbn. split; [done|intros [? _]; done].
    - rewrite lookup_insert_ne by done. split; [auto|intros [_ ?]; done]. }
  split.
  - intros n r. cbn. intros Hn. pose proof (i_heap s I n r Hn). set_solver.
  - apply (i_apart s I).
  - intros r q. rewrite Hd. case_decide; [subst; intros _; by exists name|apply (i_owned s I)].
  - intros r r' q. rewrite !Hd. case_decide as E1; case_decide as E2; subst; [done| | |apply (i_proc s I)].
    + intros [= ->] H. by destruct (Hfresh r').
    + intros H [= ->]. by destruct (Hfresh r).
  - intros r. transitivity (free (mgr s) r).
    + unfold free. cbn. unfold set_process. rewrite deref_upd. case_decide; [by subst|done].
    + cbn. rewrite (i_refs s I), count_insert, (count_delete (of_launch r) (launches s) name), Hl. done.
  - intros n l. cbn. rewrite lookup_insert_Some. intros [[<- <-]|[_ H]]; [done|by apply (i_launch s I)].
  - intros n l q. cbn [launches]. rewrite Hd. cbn. rewrite lookup_insert_Some. intros [[<- <-]|[Hne H]]; [intros [?|?]; done|].
    intros Hs. case_decide as E; [|by apply (i_clear s I n l q)]. destruct Hne. apply (i_apart s I name n r0); [done|].
    rewrite <-E. by apply (i_launch s I).
  - intros n q. rewrite Hh. intros [Hne Hq]. destruct (i_hand s I n q Hq) as (? & Hn & Hone'). split; [done|]. split.
    + intros r. rewrite Hd. case_decide; [|apply Hn]. intros [= ->]. by apply Hne, Hone.
    + intros n'. rewrite Hh. intros [_ ?]. auto.
  - intros r q. rewrite Hd. case_decide; [intros [= <-]; done|apply (i_used s I)].
  - intros q Hq. destruct (i_alive s I q Hq) as [Hu Hor]. split; [done|]. destruct Hor as [[r Hr]|[n Hn]].
    + left. exists r. rewrite Hd. case_decide; [subst; congruence|done].
    + destruct (decide (n = name)) as [->|]; [|right; exists n; by apply Hh]. left. exists r0. rewrite Hd, decide_True by done.
      unfold in_hand in Hn. rewrite Hl in Hn. by injection Hn as ->.
  - intros r. cbn. unfold set_process. rewrite deref_upd. case_decide; apply (i_legal s I).
Qed.

Lemma inv_adopted s name e p pid m' : inv s → launches s !! name = Some {| l_effect := e; l_stage := Created p |} →
  frame (ended s) None (λ _, 0) (set_process (id_record (le_owner e)) p pid (mgr s)) m' → inv (put_stage name e Ended s <| mgr := m' |>).
Proof.
  intros I Hl Hf. pose proof (inv_set_process s name e p pid I Hl) as J.
  set (s1 := put_stage name e Ended s <| mgr := set_process (id_record (le_owner e)) p pid (mgr s) |>) in J.
  change (put_stage name e Ended s <| mgr := m' |>) with (s1 <| mgr := m' |>). by apply (inv_quiet s1 None).
Qed.

(** A launch that is over leaves its reference to be given up. *)
Lemma inv_left s name l : inv s → launches s !! name = Some l → (∀ p, l_stage l ≠ Created p) →
  inv (s <| launches := delete name (launches s) |> <| held := id_record (le_owner (l_effect l)) :: held s |>).
Proof.
  intros I Hl Hst. set (s' := s <| launches := _ |> <| held := _ |>).
  assert (Hh : ∀ n q, in_hand s' n q ↔ in_hand s n q).
  { intros n q. unfold in_hand. cbn. destruct (decide (name = n)) as [<-|]; [|by rewrite lookup_delete_ne].
    rewrite lookup_delete_eq, Hl. cbn. split; [done|intros [= E]; by destruct (Hst q)]. }
  split; try apply I; cbn.
  - intros r. rewrite (i_refs s I), refs_cons, (count_delete (of_launch r) (launches s) name), Hl, of_launch_b2z. case_decide; lia.
  - intros n l'. rewrite lookup_delete_Some. intros [_ H]. by apply (i_launch s I).
  - intros n l' p. rewrite lookup_delete_Some. intros [_ H]. by apply (i_clear s I n).
  - intros n p. rewrite Hh. intros H. destruct (i_hand s I n p H) as (? & ? & Hn). split; [done|]. split; [done|].
    intros n' H'. apply Hn, Hh, H'.
  - intros p Hp'. destruct (i_alive s I p Hp') as [? [?|[n Hn]]]; split; auto. right. exists n. by apply Hh.
Qed.

Lemma applyPreviousCleanup_clears e m m' : applyPreviousCleanup e None m = (m', true) →
  rt_proc (deref m' (id_record (le_owner e))) = None.
Proof. unfold applyPreviousCleanup. case_match; [done|]. intros [= <-]. by rewrite deref_upd_eq. Qed.

Lemma inv_step s s' : sys_step s s' → inv s → inv s'.
Proof.
  intros Hs I. destruct Hs as [s d Hc|s units g links|s p|s name m' e E|s e rest Hp|s ctx_err name origin restart m' w E|
    s name w rest Hp|s ctx_err name m' id plan rs E|s name id rs rest Hp|s|s name id members rest Hp|
    s ctx_err now name ar planned recovery ob m' a E Ha|s ctx_err now name ar planned recovery ob m' e Hn E|
    s name e err m' owned Hl Hc E|s name e p Hl Hp|s name e p pid ar al Hl|s name e p pid err Hl|s name l Hl Hst].
  - by apply (inv_quiet s None), quiet_decide.
  - by apply inv_reload.
  - split; try apply I. cbn. intros q Hq. apply (i_alive s I). set_solver.
  - pose proof (frame_acceptStopCleanup (ended s) None name (mgr s)) as H. rewrite E in H. destruct H as [_ H].
    by apply (inv_take s None [_]).
  - eapply (inv_give s None [_]); [done|exact Hp|apply frame_releaseStopCleanup].
  - pose proof (frame_startOperation cc ec (ended s) None ctx_err name origin restart (mgr s)) as H. rewrite E in H.
    by apply (inv_take s None).
  - eapply (inv_give s None); [done|exact Hp|apply frame_finishStart].
  - pose proof (frame_stopTransaction cc (ended s) None ctx_err name (mgr s)) as H. rewrite E in H. by apply (inv_take s None).
  - eapply (inv_give s None); [done|exact Hp|apply frame_finishStop].
  - apply (inv_take s None); [done|apply frame_takeBoundStops].
  - eapply (inv_give s None); [done|exact Hp|apply frame_finishBoundStops].
  - pose proof (frame_acceptLaunch cc ec (ended s) None ctx_err now name ar planned recovery ob (mgr s)) as H. rewrite E in H.
    apply (inv_quiet s None); [done|]. destruct a as [[e|]|]; [by destruct (Ha e)|done|done].
  - pose proof (frame_acceptLaunch cc ec (ended s) None ctx_err now name ar planned recovery ob (mgr s)) as H. rewrite E in H.
    destruct H as (_ & Hu & _ & Hp & Hf). apply inv_launched; [done|done|by destruct (le_previous e)|done|done|].
    rewrite <-Hp. by destruct (le_previous e).
  - pose proof (quiet_applyPreviousCleanup (ended s) None e err (mgr s) Hc) as H. rewrite E in H. cbn in H.
    apply (inv_stage (s <| mgr := m' |>) name e Evicting); [by apply (inv_quiet s None)|done|done|by repeat case_match|].
    intros Hst. destruct err, owned; try done. cbn. by eapply applyPreviousCleanup_clears.
  - by apply inv_created.
  - eapply inv_adopted; [done|done|apply quiet_adoptProcess].
  - eapply inv_adopted; [done|done|apply quiet_retainLaunchFailure].
  - pose proof (inv_left s name l I Hl Hst) as J. set (s1 := s <| launches := _ |> <| held := _ |>) in J.
    change (s <| mgr := releaseLaunch (l_effect l) (mgr s) |> <| launches := delete name (launches s) |>)
      with (s1 <| mgr := releaseLaunch (l_effect l) (mgr s1) |> <| held := held s |>).
    apply (inv_give s1 None [id_record (le_owner (l_effect l))]); [done|done|apply frame_releaseLaunch].
Qed.

Lemma inv_new ns hold a b : inv (new_system ns hold a b).
Proof.
  assert (Hd : ∀ r, rec (new_system ns hold a b) r = new_unitRuntime (new_Unit "" "" KindService)) by done.
  split; cbn; try done; intros r.
  - unfold legal. rewrite Hd. cbn. set_solver.
Qed.

Lemma inv_reachable ns hold a b s : rtc sys_step (new_system ns hold a b) s → inv s.
Proof. intros H. eapply (rtc_ind_l (λ s', inv s' → inv s)); [done| |exact H|apply inv_new]. intros x y Hs _ IH Hx. by eapply IH, inv_step. Qed.

(** ** Ownership of processes and records *)

(** The process [p] runs for the unit [n]: as the process of its record, or in
    the hand of its launch. *)
Definition runs_for (s : system) (n : string) (p : Process) : Prop :=
  (∃ r, m_units (mgr s) !! n = Some r ∧ rt_proc (rec s r) = Some p) ∨ in_hand s n p.

(** C2: No main process is lost and none is shared.  In every reachable state of the manager
    and its workers, a main process that was created and has not ended is owned by a loaded unit
    (its record, or the launch that holds the unit's gate, has it), a unit never runs
    two processes, and no process runs for two units, across launches, stops, watchdog
    failures, late completions, failed cleanups, configuration reloads and shutdown. *)
Theorem process_ownership ns hold a b s : rtc sys_step (new_system ns hold a b) s →
  (∀ p, p ∈ alive s → ∃ n, runs_for s n p) ∧
  (∀ n p q, runs_for s n p → runs_for s n q → p = q) ∧
  (∀ n n' p, runs_for s n p → runs_for s n' p → n = n').
Proof.
  intros Hr. apply inv_reachable in Hr as I.
  assert (Hx : ∀ n r p q, m_units (mgr s) !! n = Some r → rt_proc (rec s r) = Some p → ¬ in_hand s n q).
  { intros n r p q Hn Hp Hq. unfold in_hand in Hq. destruct (launches s !! n) as [l|] eqn:El; [|done]. injection Hq as Hq.
    pose proof (i_launch s I n l El) as Hn'. rewrite Hn in Hn'. injection Hn' as Hn'.
    pose proof (i_clear s I n l q El (or_intror Hq)) as Hc. rewrite <-Hn' in Hc. congruence. }
  split; [|split].
  - intros p Hp. destruct (i_alive s I p Hp) as [_ [[r Hrp]|[n Hn]]]; [|by exists n; right].
    destruct (i_owned s I r p Hrp) as [n Hn]. exists n. left. eauto.
  - intros n p q [(r & Hn & Hp)|Hp] [(r' & Hn' & Hq)|Hq].
    + congruence.
    + by destruct (Hx n r p q).
    + by destruct (Hx n r' q p).
    + unfold in_hand in *. congruence.
  - intros n n' p [(r & Hn & Hp)|Hp] [(r' & Hn' & Hq)|Hq].
    + pose proof (i_proc s I r r' p Hp Hq) as <-. by eapply (i_apart s I).
    + destruct (i_hand s I n' p Hq) as (_ & Hno & _). by destruct (Hno r).
    + destruct (i_hand s I n p Hp) as (_ & Hno & _). by destruct (Hno r').
    + by apply (i_hand s I n' p Hq).
Qed.

(** C12: The count of references of a runtime record is exact in every reachable state: one
    for each worker that holds the record, each launch in progress, each queued stop of
    a bound unit, each native probe and each stop helper.  A record that a worker still
    holds survives every reload under its unit's name. *)
Theorem references_counted ns hold a b s r : rtc sys_step (new_system ns hold a b) s →
  operations (rec s r) = refs 1 (held s) r + count (of_launch r) (launches s) + tabled (mgr s) r ∧
  (0 < free (mgr s) r → ∀ n units g links, m_units (mgr s) !! n = Some r →
     m_units (replaceLocked cc arm units g links (mgr s)) !! n = Some r).
Proof.
  intros Hr. apply inv_reachable in Hr as I. split.
  - pose proof (i_refs s I r) as E. unfold free in E. lia.
  - intros Hf n units g links Hn.
    destruct (replaceLocked_building cc arm (mgr s) (i_heap s I) (i_apart s I) units g links) as (m1 & next & Hb & Hk & Hq).
    rewrite (f_units _ _ _ _ _ (Hq (λ _, False) None)). apply Hk; [done|by right].
Qed.

(** C29: Every record is in one of the states and substates of the lifecycle in every
    reachable state, whatever the order in which events arrive and however late. *)
Theorem unit_states ns hold a b s r : rtc sys_step (new_system ns hold a b) s →
  (rt_state (rec s r), rt_sub (rec s r)) ∈ lifecycle_states.
Proof. intros Hr. apply inv_reachable in Hr. apply (i_legal s Hr). Qed.

(** ** Stops and shutdown *)

(** The step begins a launch of the record. *)
Definition begins (r : address) (s s' : system) : Prop :=
  ∃ n l, launches s !! n = None ∧ launches s' !! n = Some l ∧ id_record (le_owner (l_effect l)) = r.

(** What a manager keeps of a record unless a launch of it is accepted. *)
Record calm (r : address) (m m' : Manager) : Prop := {
  calm_closed : m_closed m = true → m_closed m' = true;
  calm_stop : stopping (deref m r) = true → stopping (deref m' r) = true;
  calm_active : m_closed m = true ∨ stopping (deref m r) = true → rt_state (deref m' r) = Active → rt_state (deref m r) = Active;
}.

Lemma calm_frame r P L d m m' : frame P L d m m' → L ≠ Some r → calm r m m'.
Proof. intros H HL. pose proof (f_rec _ _ _ _ _ H r) as [_ _ Ha Hs]. split; [apply H|auto|auto]. Qed.

Lemma calm_trans r m1 m2 m3 : calm r m1 m2 → calm r m2 m3 → calm r m1 m3.
Proof. intros [c1 s1 a1] [c2 s2 a2]. split; [auto|auto|]. intros H Ha. apply a1; [done|]. apply a2; [|done]. destruct H; auto. Qed.

Lemma calm_set_process r r0 p pid m : calm r m (set_process r0 p pid m).
Proof. unfold set_process. split; cbn; [done|..]; rewrite deref_upd; by case_decide; subst. Qed.

Lemma calm_reload r units g links s : inv s → calm r (mgr s) (replaceLocked cc arm units g links (mgr s)).
Proof.
  intros I. destruct (replaceLocked_building cc arm (mgr s) (i_heap s I) (i_apart s I) units g links) as (m1 & next & Hb & _ & Hq).
  eapply calm_trans; [by eapply calm_frame; [apply (b_quiet _ _ _ Hb)|]|].
  eapply calm_trans; [|by eapply calm_frame; [apply (Hq (λ _, False) None)|]]. by split; cbn.
Qed.

Lemma step_calm s s' r : sys_step s s' → inv s → ¬ begins r s s' → calm r (mgr s) (mgr s').
Proof.
  intros Hs I Hb. destruct Hs as [s d Hc|s units g links|s p|s name m' e E|s e rest Hp|s ctx_err name origin restart m' w E|
    s name w rest Hp|s ctx_err name m' id plan rs E|s name id rs rest Hp|s|s name id members rest Hp|
    s ctx_err now name ar planned recovery ob m' a E Ha|s ctx_err now name ar planned recovery ob m' e Hn E|
    s name e err m' owned Hl Hc E|s name e p Hl Hp|s name e p pid ar al Hl|s name e p pid err Hl|s name l Hl Hst]; cbn in *.
  - by eapply calm_frame; [apply (quiet_decide None s)|].
  - by apply calm_reload.
  - by split.
  - pose proof (frame_acceptStopCleanup (ended s) None name (mgr s)) as H. rewrite E in H. by eapply calm_frame; [apply H|].
  - by eapply calm_frame; [apply (frame_releaseStopCleanup (ended s) None)|].
  - pose proof (frame_startOperation cc ec (ended s) None ctx_err name origin restart (mgr s)) as H. rewrite E in H. by eapply calm_frame.
  - by eapply calm_frame; [apply (frame_finishStart (ended s) None)|].
  - pose proof (frame_stopTransaction cc (ended s) None ctx_err name (mgr s)) as H. rewrite E in H. by eapply calm_frame.
  - by eapply calm_frame; [apply (frame_finishStop (ended s) None)|].
  - by eapply calm_frame; [apply (frame_takeBoundStops (ended s) None)|].
  - by eapply calm_frame; [apply (frame_finishBoundStops (ended s) None)|].
  - pose proof (frame_acceptLaunch cc ec (ended s) None ctx_err now name ar planned recovery ob (mgr s)) as H. rewrite E in H.
    by destruct a as [[e|]|]; [destruct (Ha e)|eapply calm_frame|eapply calm_frame].
  - pose proof (frame_acceptLaunch cc ec (ended s) None ctx_err now name ar planned recovery ob (mgr s)) as H. rewrite E in H.
    destruct H as (_ & _ & _ & _ & H). eapply calm_frame; [exact H|]. intros [= Hr]. apply Hb. exists name. cbn. rewrite lookup_insert_eq. eauto.
  - pose proof (quiet_applyPreviousCleanup (ended s) None e err (mgr s) Hc) as H. rewrite E in H. by eapply calm_frame.
  - by split.
  - eapply calm_trans; [apply calm_set_process|]. by eapply calm_frame; [apply (quiet_adoptProcess (ended s) None)|].
  - eapply calm_trans; [apply calm_set_process|]. by eapply calm_frame; [apply (quiet_retainLaunchFailure (ended s) None)|].
  - by eapply calm_frame; [apply (frame_releaseLaunch (ended s) None)|].
Qed.

Lemma step_inv_calm s s' r : inv s → rtc (λ x y, sys_step x y ∧ ¬ begins r x y) s s' → calm r (mgr s) (mgr s').
Proof.
  intros I H. revert I. induction H as [s|s s1 s' [Hs Hb] _ IH]; intros I; [by split|].
  eapply calm_trans; [by apply step_calm|]. by apply IH, (inv_step s).
Qed.

(** C4: A stop wins over everything that is under way: from the moment the stop of a unit
    that is not active is recorded, the unit neither becomes active nor forgets the stop,
    whichever completions, probes, recoveries and reloads arrive, until a new launch of
    the unit is accepted. *)
Theorem stop_precedence ns hold a b s s' r : rtc sys_step (new_system ns hold a b) s →
  rtc (λ x y, sys_step x y ∧ ¬ begins r x y) s s' →
  stopping (rec s r) = true → rt_state (rec s r) ≠ Active →
  stopping (rec s' r) = true ∧ rt_state (rec s' r) ≠ Active.
Proof.
  intros Hr Hrun Hs Ha. apply inv_reachable in Hr. destruct (step_inv_calm s s' r Hr Hrun) as [_ c2 c3].
  split; [auto|]. intros E. apply Ha, c3; auto.
Qed.

(** A closed manager accepts no launch. *)
Lemma closed_begins s s' n : sys_step s s' → m_closed (mgr s) = true → launches s !! n = None → launches s' !! n = None.
Proof.
  intros Hs Hc Hn. destruct Hs as [| | | | | | | | | | | |s ctx_err now name ar planned recovery ob m' e Hl E|s name e err m' owned Hl|
    s name e p Hl|s name e p pid ar al Hl|s name e p pid err Hl|s name l Hl Hst]; try exact Hn; cbn in *.
  1: { pose proof (frame_acceptLaunch cc ec (ended s) None ctx_err now name ar planned recovery ob (mgr s)) as H. rewrite E in H.
       destruct H as (_ & _ & H & _). congruence. }
  5: { rewrite lookup_delete_None. auto. }
  all: rewrite lookup_insert_ne; [done|congruence].
Qed.

(** C7: Shutdown is final: once the manager is closed it stays closed, no launch begins any
    more, and no unit that was not active becomes active. *)
Theorem shutdown_final ns hold a b s s' : rtc sys_step (new_system ns hold a b) s → rtc sys_step s s' →
  m_closed (mgr s) = true →
  m_closed (mgr s') = true ∧ (∀ n, launches s !! n = None → launches s' !! n = None) ∧
  (∀ r, rt_state (rec s' r) = Active → rt_state (rec s r) = Active).
Proof.
  intros Hr Hrun. apply inv_reachable in Hr. induction Hrun as [s|s s1 s' Hs _ IH]; intros Hc; [done|].
  assert (Hb : ∀ r, ¬ begins r s s1).
  { intros r (n & l & Hn & Hl & _). by rewrite (closed_begins s s1 n Hs Hc Hn) in Hl. }
  pose proof (λ r, step_calm s s1 r Hs Hr (Hb r)) as Hcalm.
  destruct (IH (inv_step _ _ Hs Hr) (calm_closed _ _ _ (Hcalm 0%nat) Hc)) as (H1 & H2 & H3). split; [done|]. split.
  - intros n Hn. by eapply H2, closed_begins.
  - intros r Ha. apply (calm_active _ _ _ (Hcalm r)); auto.
Qed.

End safety.

(** ** An example: a service is started, and stopped before it is active *)

Module Example.

Definition service : Unit := (unit_with "a.service" [] [] [] [] [] []) <| Service := Some new_ServiceSpec |>.
Definition graph : Graph := match Build [Some service] with Ok g => g | Fail _ => {| nodes := ∅ |} end.
Definition cc : handle → bool := λ _, true.
Definition ec : string → Z → bool := λ _ _, false.
Definition arm : Unit → string → Z := λ _ _, 1.
#[local] Notation sys_step := (sys_step cc ec arm).

Definition s0 : system := new_system "ns" "" 0 0.
Definition s1 : system := s0 <| mgr := replaceLocked cc arm [service] graph ∅ (mgr s0) |>.
Definition admission1 := startOperation cc ec None "a.service" None false (mgr s1).
Definition work : startWork :=
  match admission1.2 with
  | Ok (Accepted w) => w
  | _ => {| sw_id := ""; sw_tx := {| tx_g := graph; tx_roots := []; tx_jobs := ∅; tx_waitsFor := ∅ |}; sw_stop := None;
            sw_plans := ∅; sw_retained := [] |}
  end.
Definition s2 : system := s1 <| mgr := admission1.1 |> <| held := start_records work ++ held s1 |>.
Definition observation : launchObservation := {| ob_record := Some 0%nat; ob_process := None; ob_alive := false |}.
Definition launch2 := acceptLaunch cc ec false 0 "a.service" false (Some 0%nat) None observation (mgr s2).
Definition effect : launchEffect :=
  match launch2.2 with
  | Ok (Some e) => e
  | _ => {| le_owner := {| id_name := ""; id_record := 0%nat; id_gen := 0 |}; le_unit := service; le_revision := "";
            le_previous := None; le_previousUnit := service |}
  end.
Definition s3 : system := put_stage "a.service" effect Prepared s2 <| mgr := launch2.1 |>.
Definition s4 : system := put_stage "a.service" effect (Created 7%nat) s3 <| alive := {[7%nat]} ∪ alive s3 |> <| used := {[7%nat]} ∪ used s3 |>.
Definition s5 : system := put_stage "a.service" effect Ended s4 <| mgr := (adoptProcess effect 7%nat 70 false true (mgr s4)).1 |>.
Definition s6 : system := s5 <| mgr := decide_step cc ec arm (DisarmStart "a.service") (mgr s5) |>.
Definition completion : startCompletion := {| sc_name := "a.service"; sc_plan := 0%nat; sc_err := None |}.
Definition s7 : system := s6 <| mgr := decide_step cc ec arm (StartCompletion completion) (mgr s6) |>.

Lemma quiet_decision d s : cleaned d = (None, None) → sys_step s (s <| mgr := decide_step cc ec arm d (mgr s) |>).
Proof. intros E. apply step_decide. by rewrite E. Qed.

Lemma decided_no_launch r s m : ¬ begins r s (s <| mgr := m |>).
Proof. intros (n & l & Hn & Hl & _). cbn in Hl. congruence. Qed.

Lemma admission_ok : admission1.2 = Ok (Accepted work).
Proof. vm_compute. reflexivity. Qed.
Lemma launch_ok : launch2.2 = Ok (Some effect).
Proof. vm_compute. reflexivity. Qed.
Lemma effect_first : le_previous effect = None.
Proof. vm_compute. reflexivity. Qed.

Lemma run5 : rtc sys_step s0 s5.
Proof.
  eapply rtc_l; [apply (step_reload cc ec arm s0 [service] graph ∅)|].
  eapply rtc_l; [apply (step_start cc ec arm s1 None "a.service" None false admission1.1 work)|].
  { rewrite <-admission_ok. apply surjective_pairing. }
  eapply rtc_l; [apply (step_launch cc ec arm s2 false 0 "a.service" false (Some 0%nat) None observation launch2.1 effect); [done|]|].
  { rewrite <-launch_ok. apply surjective_pairing. }
  rewrite effect_first.
  eapply rtc_l; [by apply (step_create cc ec arm s3 "a.service" effect 7%nat)|].
  eapply rtc_l; [by apply (step_adopt cc ec arm s4 "a.service" effect 7%nat 70 false true)|]. apply rtc_refl.
Qed.

Lemma run6 : rtc sys_step s0 s6.
Proof. eapply rtc_r; [apply run5|by apply quiet_decision]. Qed.

(** The process 7 is alive, and runs for the service. *)
Lemma process_ownership_witness :
  7%nat ∈ alive s5 ∧ ∃ n, runs_for s5 n 7%nat.
Proof.
  assert (H : 7%nat ∈ alive s5) by (apply (bool_decide_unpack _); by vm_compute). split; [exact H|].
  apply (process_ownership cc ec arm _ _ _ _ _ run5). exact H.
Defined.

Lemma launch_admitted_witness :
  m_closed (mgr s2) = false ∧ cleanup (deref (mgr s2) 0%nat) = 0 ∧ stopping (deref (mgr s3) 0%nat) = false.
Proof.
  destruct (launch_admitted cc ec false 0 "a.service" false (Some 0%nat) None observation (mgr s2) launch2.1 effect)
    as (r & _ & Hown & Had & _ & _ & _ & Hs & _); [rewrite <-launch_ok; apply surjective_pairing|].
  assert (Hr : r = 0%nat) by (apply (f_equal id_record) in Hown; revert Hown; vm_compute; congruence). rewrite Hr in *.
  split; [apply (ad_open _ _ _ _ _ _ _ Had)|]. split; [apply (ad_clean _ _ _ _ _ _ _ Had)|exact Hs].
Defined.

Lemma references_counted_witness :
  operations (deref (mgr s5) 0%nat) = 2 ∧
  operations (deref (mgr s5) 0%nat) = refs 1 (held s5) 0%nat + count (of_launch 0%nat) (launches s5) + tabled (mgr s5) 0%nat.
Proof. split; [by vm_compute|apply (references_counted cc ec arm _ _ _ _ _ _ run5)]. Defined.

Lemma unit_states_witness : (rt_state (deref (mgr s5) 0%nat), rt_sub (deref (mgr s5) 0%nat)) ∈ lifecycle_states.
Proof. apply (unit_states cc ec arm _ _ _ _ _ _ run5). Defined.

(** The start completes after the stop was accepted. *)
Lemma stop_precedence_witness : stopping (deref (mgr s7) 0%nat) = true ∧ rt_state (deref (mgr s7) 0%nat) ≠ Active.
Proof.
  apply (stop_precedence cc ec arm "ns" "" 0 0 s6 s7 0%nat run6); [|by vm_compute|by vm_compute].
  apply rtc_once. split; [by apply quiet_decision|apply decided_no_launch].
Defined.

Definition s8 : system := s6 <| mgr := decide_step cc ec arm SealShutdown (mgr s6) |>.
Definition s9 : system := s8 <| alive := alive s8 ∖ {[7%nat]} |>.

Lemma shutdown_final_witness : m_closed (mgr s9) = true ∧ launches s9 !! "b.service" = None.
Proof.
  assert (H8 : rtc sys_step s0 s8) by (eapply rtc_r; [apply run6|by apply quiet_decision]).
  destruct (shutdown_final cc ec arm "ns" "" 0 0 s8 s9 H8) as (H1 & H2 & _); [|by vm_compute|split; [exact H1|by apply H2; vm_compute]].
  apply rtc_once, step_exit.
Defined.

End Example.
